(* ===== verification/_CoqProject ===== *)
-Q . S2P
Prelude.v
Ordered.v
Codec.v
Disk.v
Types.v
Crypto.v
Votes.v
Committee.v
Finality.v
Journal.v
Recovery.v
Anchor.v
Durable.v
LocalBft.v
Voting.v
Agreement.v
State.v
StateTree.v
StateProofs.v
Snapshot.v
ProofWire.v
StateFile.v
Transactions.v
Payments.v
Trocto.v
TroctoScalar.v
TroctoStateful.v
TroctoSource.v
TroctoCompile.v
TroctoTotal.v
TroctoCorrect.v
TroctoRun.v
TroctoScalarCorrect.v
TroctoProgram.v
TroctoEffects.v
Native.v
NativeCache.v
Contracts.v
Blocks.v
Scheduler.v
Frames.v
Speculation.v
Parallel.v
Fold.v
Acceleration.v
Mempool.v
StoreRecords.v
StoreHistory.v
