(* ===== verification/Prelude.v ===== *)
(** * AstroLune: a verification library

    AstroLune is a blockchain node written in Rust.  Validators sign votes behind a
    durable journal, a committee finalizes blocks by two-phase locked voting, a block of
    signed payments and contracts is executed against a Merkle-tree state, and remote
    readers check state proofs against finalized roots.  This library translates those
    parts into definitions that compute, and proves what they promise each other.

    ** Conventions

    Machine integers are [Z] with their width written out where they are checked, wrapped
    or decoded ([checked_add], [try_from], ...).  Byte strings are lists of bytes.  A Rust
    [Result] is [result], the question mark is [let?].  Maps that reach encodings keep
    their order ([BTreeMap] of Ordered).  A panic is a value: [None] or a constructor of
    its own, so that its absence is a theorem.  Third-party code is a class whose fields
    state documented behaviour: [Blake2s], [Ed25519], [Host], [Arcs], [WasmEngine].  No
    hash is assumed injective: a binding theorem names the inputs that would collide.
    What the operating system, the clock or a thread does is an argument of an operation,
    and theorems hold for all of its values.

    ** Parts and files

    Foundations.  [Prelude] (this file): results, guards, machine arithmetic, lists and
    the proof automation that all files share.  [Ordered]: orders and ordered maps.
    [Codec]: [src/crates/codec] and the class [Reads] that every decoder instantiates.
    [Disk]: files whose writes can be interrupted.  [Types]: [src/crates/types] with the
    codec of [protocol.rs].  [Crypto]: [src/crates/crypto], batches, keystore, Merkle roots.

    Consensus.  [Votes] and [Committee]: the messages of [src/crates/consensus] and what
    authenticates them against a weighted committee.  [Finality]: vote aggregation.
    [Journal], [Recovery], [Anchor], [Durable]: the signing journal, its restart, the
    independent anchor and the signer of [src/crates/keystore].  [LocalBft]: the voting
    rules of one node.  [Voting]: the abstract safety argument.  [Agreement]: networks of
    nodes that crash and restart beside faulty members follow those rules, so verified
    certificates of one height finalize one block.

    State.  [State], [StateTree]: diffs, leases and the Merkle tree of [src/crates/state],
    refining an ordered map.  [StateProofs], [ProofWire]: proofs and their transport form.
    [Snapshot]: the snapshot codec.  [StateFile]: the file-backed database under failing
    calls and power loss, on Unix and on targets that cannot synchronise a directory.

    Pool and storage.  [Mempool]: bounded admission and proposal order of
    [src/crates/mempool].  [StoreRecords]: the records of the append-only log of
    [src/crates/storage] with the archived blocks and receipts inside them.
    [StoreHistory]: its index of undo entries, from which earlier states are read back.

    Transactions and contracts.  [Transactions]: payloads, identities and admission.
    [Payments]: payment sessions.  [Trocto], [TroctoScalar], [TroctoStateful]: the
    compiler front ends and evaluators of [src/crates/trocto-compiler]; [TroctoSource]: the
    language they are measured against (syntax, grammar, typing, interpreter);
    [TroctoCompile], [TroctoTotal], [TroctoCorrect], [TroctoRun], [TroctoScalarCorrect],
    [TroctoProgram], [TroctoEffects]: the front ends are total, accept only well-typed
    sources, and compiled code computes what the source means, halts within a bound, and
    reads and writes only what a call grants.
    [Native], [NativeCache]: workers and the artifact cache of
    [src/crates/trocto-runtime], whose answers are the reference result or a local failure.

    Execution.  [Contracts]: contract transactions over the promise that the cache keeps
    ([NativeLaws]).  [Blocks]: mixed sessions and serial blocks.  [Scheduler]: plans and
    dependency graphs.  [Frames]: what a transaction can read and write.  [Speculation]:
    why executing out of order is serial execution.  [Parallel], [Fold], [Acceleration]:
    the coordinator with its workers, waves, folds of payments and the choice between
    them, all equal to serial execution.

    ** What the theorems show

    Encodings: decoders accept exactly the encodings of well-formed values (transactions,
    votes and certificates, payloads, snapshots, proofs, source packages, log records).
    Roots of transactions and receipts bind their lists.  Consensus: a
    signer never authorizes two decisions at one position across crashes, torn writes and
    rollbacks; aggregation reports a quorum exactly when there is one; correct nodes never
    finalize two blocks at one height while the faulty members have less power than two
    quorums share.  State: reads, commits, seals and roots are those of an ordered map;
    proofs are sound and complete; commits are atomic, and durable on Unix; states of
    earlier heights are read back exactly.  Pool: the index, the counts and the bounds are
    kept, and a selection is deterministic and fits.
    Execution: blocks change accounts exactly as their transactions say, burn exactly the
    fees, replay nothing, and have the same result on every node, on any number of
    workers, under any scheduling.

    ** Bounds and fuel

    Limits of the source are definitions with their values and take part in the theorems.
    Recursion that is not structural has fuel from a measure of its input: the number of
    tokens (front ends), the number of instructions and the fuel of the call (evaluators),
    the length of a list (chunks, Merkle levels, levels of a tree), the nodes of a tree
    (iterator), the transactions of a block (coordinator, fused paths, waves).  The
    theorems about these operations hold because the fuel is enough, so that running out
    is never an answer.

    ** Not modelled

    Networking, remote procedure calls, command-line programs, configuration files,
    telemetry and test tools ([src/crates/{p2p,rpc,node,config,telemetry,testkit}],
    [src/apps], [src/services], [src/tools]): input and output around the parts above.
    Validator admission, rotation, governance and sampling ([src/crates/consensus]), the
    VRF ([src/crates/crypto/src/vrf.rs]), genesis and synchronization: protocols of their own
    that the parts above take as given inputs.  The files of chain storage
    ([src/crates/storage/src/{archive,chain,log,persistent,retention,snapshot,writer_lock}.rs]):
    of the append-only log its records and its history are modelled, not the order of its
    file operations and its compaction.  LLVM text
    generation, the C worker and the WebAssembly engine: compiled by third-party tools; the
    first two are never trusted by the code, the third is a class.  Locks are held as the
    source holds them, but not their poisoning, which needs a panic inside a critical
    section.  Diagnostic texts of errors are left out. *)

From Stdlib Require Export ZArith Lia Bool Strings.String Strings.Byte.
From coqutil Require Export Byte.
From stdpp Require Export base tactics list option numbers decidable relations.

#[global] Set Default Goal Selector "!".

Declare Scope rust_scope.
Delimit Scope rust_scope with rust.
#[global] Open Scope Z_scope.

(** ** Fallible computations *)

(** Rust's [Result<A, E>]. *)
Inductive result (A E : Type) : Type :=
| Ok (a : A)
| Err (e : E).
Arguments Ok {A E} a.
Arguments Err {A E} e.

(** The [?] operator: continue on [Ok], return the error unchanged otherwise. *)
Notation "'let?' p ':=' e 'in' k" :=
  (match e with Ok p => k | Err err_ => Err err_ end)
  (at level 10, p pattern, e at level 200, k at level 200,
   format "'[v' 'let?'  p  ':='  e  'in' '/' k ']'") : rust_scope.
#[global] Open Scope rust_scope.

Definition map_err {A E F : Type} (f : E → F) (r : result A E) : result A F :=
  match r with Ok a => Ok a | Err e => Err (f e) end.

Definition ok_or {A E : Type} (o : option A) (e : E) : result A E :=
  match o with Some a => Ok a | None => Err e end.

(** An early return: fail with [e] when the guard holds. *)
Definition reject_if {E : Type} (b : bool) (e : E) : result unit E :=
  if b then Err e else Ok tt.

Definition is_ok {A E : Type} (r : result A E) : bool :=
  match r with Ok _ => true | Err _ => false end.

(** [Option::is_some]. *)
Definition is_some {A : Type} (o : option A) : bool :=
  match o with Some _ => true | None => false end.

(** [Iterator::try_fold] over a fallible step, stopping at the first error. *)
Fixpoint try_fold {A B E : Type} (f : B → A → result B E) (acc : B) (xs : list A) : result B E :=
  match xs with
  | [] => Ok acc
  | x :: xs' => let? acc' := f acc x in try_fold f acc' xs'
  end.

(** [iter().map(f).collect::<Result<Vec<_>, _>>()]. *)
Fixpoint try_map {A B E : Type} (f : A → result B E) (xs : list A) : result (list B) E :=
  match xs with
  | [] => Ok []
  | x :: xs' =>
      let? y := f x in
      let? ys := try_map f xs' in
      Ok (y :: ys)
  end.

(** ** Machine integers: values of [Z] kept inside their width *)

Definition fits (w z : Z) : Prop := 0 <= z < 2 ^ w.

Abbreviation u8 := (fits 8).
Abbreviation u16 := (fits 16).
Abbreviation u32 := (fits 32).
Abbreviation u64 := (fits 64).
Abbreviation u128 := (fits 128).

(** [usize] of the supported 64-bit targets. *)
Abbreviation usize := (fits 64).

Definition max_of (w : Z) : Z := 2 ^ w - 1.

(** [checked_add], [checked_sub], [checked_mul]: [None] outside the width. *)
Definition checked_add (w a b : Z) : option Z :=
  if a + b <? 2 ^ w then Some (a + b) else None.

Definition checked_sub (a b : Z) : option Z :=
  if b <=? a then Some (a - b) else None.

Definition checked_mul (w a b : Z) : option Z :=
  if a * b <? 2 ^ w then Some (a * b) else None.

Definition saturating_add (w a b : Z) : Z := Z.min (a + b) (max_of w).

Definition saturating_sub (a b : Z) : Z := Z.max (a - b) 0.

(** [u32::try_from] and friends. *)
Definition try_from (w z : Z) : option Z :=
  if z <? 2 ^ w then Some z else None.

(** Length of a Rust sequence. *)
Definition len {A : Type} (xs : list A) : Z := Z.of_nat (length xs).

(** Sum of a weight over a list. *)
Fixpoint sumZ {A : Type} (f : A → Z) (xs : list A) : Z :=
  match xs with
  | [] => 0
  | x :: xs' => f x + sumZ f xs'
  end.

(** ** Tactics *)

(** Split a successful chain of [?] steps into the equations of its steps. *)
Ltac bind_inv H :=
  repeat match type of H with
  | match ?e with Ok _ => _ | Err _ => _ end = Ok _ =>
      let E := fresh "E" in
      let r := fresh "r" in
      remember e as r eqn:E in H; symmetry in E; destruct r; [| discriminate H]
  | (let '(_, _) := ?p in _) = Ok _ => destruct p
  | match ?p with (_, _) => _ end = Ok _ => destruct p
  | Ok _ = Ok _ => injection H as H
  end.

(** Turn boolean guards into propositions. *)
Ltac bool_props :=
  repeat match goal with
  | H : (_ || _)%bool = false |- _ => apply orb_false_iff in H as [? ?]
  | H : (_ && _)%bool = true |- _ => apply andb_true_iff in H as [? ?]
  | H : negb _ = true |- _ => apply negb_true_iff in H
  | H : negb _ = false |- _ => apply negb_false_iff in H
  | H : bool_decide _ = true |- _ => apply bool_decide_eq_true in H
  | H : bool_decide _ = false |- _ => apply bool_decide_eq_false in H
  | H : (_ =? _) = true |- _ => apply Z.eqb_eq in H
  | H : (_ =? _) = false |- _ => apply Z.eqb_neq in H
  | H : (_ <? _) = true |- _ => apply Z.ltb_lt in H
  | H : (_ <? _) = false |- _ => apply Z.ltb_ge in H
  | H : (_ <=? _) = true |- _ => apply Z.leb_le in H
  | H : (_ <=? _) = false |- _ => apply Z.leb_gt in H
  end.

(** Case analysis on the guard of the conditional at hand. *)
Ltac case_test :=
  match goal with
  | |- context [if ?b then _ else _] => destruct b eqn:?
  | H : context [if ?b then _ else _] |- _ => destruct b eqn:?
  end; bool_props; try discriminate.

(** The same for the conditional a hypothesis computes. *)
Ltac case_in H :=
  match type of H with
  | context [if ?b then _ else _] => destruct b eqn:?
  end; bool_props; try discriminate H.

(** ** Lemmas on results, integers and lists *)

Lemma reject_if_ok {E : Type} (b : bool) (e : E) (u : unit) :
  reject_if b e = Ok u ↔ b = false.
Proof. destruct b, u; simpl; naive_solver. Qed.

(** Turn passed guards into propositions. *)
Ltac guards :=
  repeat match goal with
  | H : reject_if _ _ = Ok _ |- _ => apply reject_if_ok in H
  end; bool_props.

Lemma reject_if_err {E : Type} (b : bool) (e e' : E) :
  reject_if b e = Err e' ↔ b = true ∧ e = e'.
Proof. destruct b; simpl; naive_solver. Qed.

Lemma ok_or_ok {A E : Type} (o : option A) (e : E) a : ok_or o e = Ok a ↔ o = Some a.
Proof. destruct o; simpl; naive_solver. Qed.

Lemma map_err_ok {A E F : Type} (f : E → F) (r : result A E) a :
  map_err f r = Ok a ↔ r = Ok a.
Proof. destruct r; simpl; naive_solver. Qed.

Lemma checked_add_some w a b c :
  checked_add w a b = Some c ↔ a + b < 2 ^ w ∧ c = a + b.
Proof. unfold checked_add. case_test; naive_solver lia. Qed.

Lemma checked_add_none w a b : checked_add w a b = None ↔ 2 ^ w <= a + b.
Proof. unfold checked_add. case_test; naive_solver lia. Qed.

Lemma checked_sub_some a b c : checked_sub a b = Some c ↔ b <= a ∧ c = a - b.
Proof. unfold checked_sub. case_test; naive_solver lia. Qed.

Lemma checked_mul_some w a b c :
  checked_mul w a b = Some c ↔ a * b < 2 ^ w ∧ c = a * b.
Proof. unfold checked_mul. case_test; naive_solver lia. Qed.

Lemma try_from_some w a c : try_from w a = Some c ↔ a < 2 ^ w ∧ c = a.
Proof. unfold try_from. case_test; naive_solver lia. Qed.

Lemma len_nonneg {A : Type} (xs : list A) : 0 <= len xs.
Proof. unfold len. lia. Qed.

Lemma len_app {A : Type} (xs ys : list A) : len (xs ++ ys) = len xs + len ys.
Proof. unfold len. rewrite length_app. lia. Qed.

Lemma len_nil {A : Type} : len (@nil A) = 0.
Proof. reflexivity. Qed.

Lemma len_cons {A : Type} (x : A) xs : len (x :: xs) = 1 + len xs.
Proof. unfold len. simpl. lia. Qed.

Lemma len_zero_iff {A : Type} (xs : list A) : len xs = 0 ↔ xs = [].
Proof. destruct xs; rewrite ?len_cons; [done|]. pose proof (len_nonneg xs). naive_solver lia. Qed.

Lemma len_map {A B : Type} (f : A → B) xs : len (map f xs) = len xs.
Proof. unfold len. by rewrite length_map. Qed.

Lemma length_of_len {A : Type} (xs : list A) (n : nat) : len xs = Z.of_nat n → length xs = n.
Proof. unfold len. lia. Qed.

Lemma sumZ_app {A : Type} (f : A → Z) xs ys : sumZ f (xs ++ ys) = sumZ f xs + sumZ f ys.
Proof. induction xs as [|x xs IH]; simpl; [done|]. rewrite IH. lia. Qed.

Lemma sumZ_nonneg {A : Type} (f : A → Z) xs :
  (∀ x, x ∈ xs → 0 <= f x) → 0 <= sumZ f xs.
Proof.
  induction xs as [|x xs IH]; intros Hf; simpl; [lia|].
  pose proof (Hf x ltac:(left)). specialize (IH ltac:(intros; apply Hf; by right)). lia.
Qed.

Lemma sumZ_ext {A : Type} (f g : A → Z) xs :
  (∀ x, x ∈ xs → f x = g x) → sumZ f xs = sumZ g xs.
Proof.
  induction xs as [|x xs IH]; intros Hf; simpl; [done|].
  rewrite (Hf x ltac:(left)), IH; [done|]. intros; apply Hf; by right.
Qed.

Lemma sumZ_le {A : Type} (f g : A → Z) xs :
  (∀ x, x ∈ xs → f x <= g x) → sumZ f xs <= sumZ g xs.
Proof.
  induction xs as [|x xs IH]; intros Hf; simpl; [done|].
  pose proof (Hf x ltac:(left)). specialize (IH ltac:(intros; apply Hf; by right)). lia.
Qed.

Lemma sumZ_plus {A : Type} (f g : A → Z) xs :
  sumZ (λ x, f x + g x) xs = sumZ f xs + sumZ g xs.
Proof. induction xs as [|x xs IH]; simpl; [done|]. rewrite IH. lia. Qed.

Lemma sumZ_map {A B : Type} (f : B → Z) (g : A → B) xs :
  sumZ f (map g xs) = sumZ (λ x, f (g x)) xs.
Proof. induction xs as [|x xs IH]; simpl; [done|]. by rewrite IH. Qed.

Lemma sumZ_perm {A : Type} (f : A → Z) xs ys : Permutation xs ys → sumZ f xs = sumZ f ys.
Proof. induction 1; simpl; lia. Qed.

Lemma nodup_incl_perm {A : Type} (xs ys : list A) :
  NoDup xs → (∀ x, x ∈ xs → x ∈ ys) → (length ys <= length xs)%nat → Permutation xs ys.
Proof.
  intros Hnd Hin Hl. apply NoDup_Permutation_bis; [by apply NoDup_ListNoDup|done|].
  intros x Hx. by apply list_elem_of_In, Hin, list_elem_of_In.
Qed.

Lemma sumZ_filter {A : Type} (f : A → Z) (P : A → Prop) `{!∀ x, Decision (P x)} xs :
  sumZ f (filter P xs) = sumZ (λ x, if decide (P x) then f x else 0) xs.
Proof.
  induction xs as [|x xs IH]; [done|]. rewrite filter_cons. simpl.
  destruct (decide (P x)); simpl; lia.
Qed.

(** A sum over distinct elements of [ks] is a sum over [ks] with an indicator. *)
Lemma sumZ_indicator {A : Type} `{!EqDecision A} (f : A → Z) (ids ks : list A) :
  NoDup ks → NoDup ids → (∀ x, x ∈ ids → x ∈ ks) →
  sumZ f ids = sumZ (λ k, if decide (k ∈ ids) then f k else 0) ks.
Proof.
  intros Hk Hi Hin. rewrite <- sumZ_filter. apply sumZ_perm.
  apply NoDup_Permutation; [done|by apply NoDup_filter|].
  intros x. rewrite list_elem_of_filter. naive_solver.
Qed.

Create HintDb astro.
#[export] Hint Resolve len_nonneg : astro.
Create Rewrite HintDb len.
#[export] Hint Rewrite @len_app @len_nil @len_cons @len_map : len.

(** A closed equation, checked by evaluating both sides without reading the values
    back. *)
Ltac evaluate := match goal with |- @eq ?T _ ?r => vm_cast_no_check (@eq_refl T r) end.

Ltac len_lia := autorewrite with len in *; try lia.

(** The window of a concatenation that holds [x]. *)
Lemma window {A : Type} (n k : nat) (p x q : list A) :
  length p = k → length x = n → take n (drop k (p ++ x ++ q)) = x.
Proof. intros <- <-. by rewrite drop_app_length, take_app_length. Qed.
