(* ===== verification/Ordered.v ===== *)
(** * Ordered: Rust's [Ord] and the ordered maps built on it

    [TotalOrd] states what a Rust [Ord] implementation promises; its instances
    are the derived orders the sources use (integers, byte strings, options,
    pairs).  [BTreeMap] is the standard library's ordered map: a strictly
    ascending association list, so that iteration order, which reaches encoded
    bytes and certificates, is part of the model. *)

From S2P Require Import Prelude.
From Stdlib Require Import Sorting.Sorted.

(** ** Total orders *)

Class TotalOrd (A : Type) := {
  cmp : A → A → comparison;
  cmp_eq_iff : ∀ a b, cmp a b = Eq ↔ a = b;
  cmp_opp : ∀ a b, cmp b a = CompOpp (cmp a b);
  cmp_lt_trans : ∀ a b c, cmp a b = Lt → cmp b c = Lt → cmp a c = Lt
}.

Definition lt_of {A : Type} `{!TotalOrd A} (a b : A) : Prop := cmp a b = Lt.

Definition ltb {A : Type} `{!TotalOrd A} (a b : A) : bool :=
  match cmp a b with Lt => true | _ => false end.

Definition leb {A : Type} `{!TotalOrd A} (a b : A) : bool :=
  match cmp a b with Gt => false | _ => true end.

(** Lexicographic comparison of slices; a proper prefix is smaller. *)
Fixpoint list_cmp {A : Type} (c : A → A → comparison) (xs ys : list A) : comparison :=
  match xs, ys with
  | [], [] => Eq
  | [], _ :: _ => Lt
  | _ :: _, [] => Gt
  | x :: xs', y :: ys' =>
      match c x y with Eq => list_cmp c xs' ys' | r => r end
  end.

(** [Option]'s derived order: [None] first. *)
Definition option_cmp {A : Type} (c : A → A → comparison) (x y : option A) : comparison :=
  match x, y with
  | None, None => Eq
  | None, Some _ => Lt
  | Some _, None => Gt
  | Some a, Some b => c a b
  end.

(** Tuples compare field by field. *)
Definition pair_cmp {A B : Type} (c : A → A → comparison) (d : B → B → comparison)
    (x y : A * B) : comparison :=
  match c x.1 y.1 with Eq => d x.2 y.2 | r => r end.

Definition byte_cmp (a b : Byte.byte) : comparison :=
  Z.compare (byte.unsigned a) (byte.unsigned b).

#[global] Instance byte_eq_decision : EqDecision Byte.byte := Byte.byte_eq_dec.

(** [slice::windows(2)] all related: strict ascent of a key. *)
Fixpoint strictly_ascending {A : Type} `{!TotalOrd A} (xs : list A) : bool :=
  match xs with
  | x :: (y :: _) as tl => ltb x y && strictly_ascending tl
  | _ => true
  end.

(** ** [BTreeMap] *)

Definition BTreeMap (K V : Type) : Type := list (K * V).

Section btree.
Context {K V : Type} `{!TotalOrd K}.

Fixpoint bt_get (k : K) (m : BTreeMap K V) : option V :=
  match m with
  | [] => None
  | (k', v) :: m' => match cmp k k' with Eq => Some v | _ => bt_get k m' end
  end.

Definition bt_contains (k : K) (m : BTreeMap K V) : bool :=
  match bt_get k m with Some _ => true | None => false end.

Fixpoint bt_insert (k : K) (v : V) (m : BTreeMap K V) : BTreeMap K V :=
  match m with
  | [] => [(k, v)]
  | (k', v') :: m' =>
      match cmp k k' with
      | Lt => (k, v) :: (k', v') :: m'
      | Eq => (k, v) :: m'
      | Gt => (k', v') :: bt_insert k v m'
      end
  end.

Fixpoint bt_remove (k : K) (m : BTreeMap K V) : BTreeMap K V :=
  match m with
  | [] => []
  | (k', v') :: m' =>
      match cmp k k' with
      | Eq => m'
      | _ => (k', v') :: bt_remove k m'
      end
  end.

Definition bt_keys (m : BTreeMap K V) : list K := map fst m.
Definition bt_values (m : BTreeMap K V) : list V := map snd m.

(** [iter().collect::<BTreeMap<_, _>>()]: later entries replace earlier ones. *)
Definition bt_collect (xs : list (K * V)) : BTreeMap K V :=
  fold_left (λ m kv, bt_insert kv.1 kv.2 m) xs [].

(** The representation invariant: keys strictly ascending. *)
Definition bt_ok (m : BTreeMap K V) : Prop := StronglySorted lt_of (bt_keys m).

End btree.

(** [BTreeSet<K>]; [set_insert] returns whether the value was new. *)
Definition BTreeSet (K : Type) : Type := BTreeMap K unit.

Definition set_insert {K : Type} `{!TotalOrd K} (k : K) (s : BTreeSet K) : bool * BTreeSet K :=
  (negb (bt_contains k s), bt_insert k tt s).

(** ** Laws of total orders *)

Section order_facts.
Context {A : Type} `{!TotalOrd A}.
Implicit Types a b c : A.

Lemma cmp_refl a : cmp a a = Eq.
Proof. by apply cmp_eq_iff. Qed.

Lemma lt_of_irrefl a : ¬ lt_of a a.
Proof. unfold lt_of. by rewrite cmp_refl. Qed.

Lemma lt_of_trans a b c : lt_of a b → lt_of b c → lt_of a c.
Proof. apply cmp_lt_trans. Qed.

Lemma cmp_gt_lt a b : cmp a b = Gt ↔ cmp b a = Lt.
Proof. rewrite (cmp_opp a b). destruct (cmp a b); naive_solver. Qed.

Lemma lt_of_ne a b : lt_of a b → a ≠ b.
Proof. intros H ->. by apply lt_of_irrefl in H. Qed.

Lemma ltb_lt_of a b : ltb a b = true ↔ lt_of a b.
Proof. unfold ltb, lt_of. destruct (cmp a b); naive_solver. Qed.

Lemma ltb_false a b : ltb a b = false ↔ leb b a = true.
Proof. unfold ltb, leb. rewrite (cmp_opp a b). destruct (cmp a b); naive_solver. Qed.

Lemma leb_iff a b : leb a b = true ↔ lt_of a b ∨ a = b.
Proof.
  unfold leb, lt_of. pose proof (cmp_eq_iff a b). destruct (cmp a b); naive_solver.
Qed.

Lemma leb_false a b : leb a b = false ↔ lt_of b a.
Proof.
  unfold leb, lt_of. rewrite <- (cmp_gt_lt a b). by destruct (cmp a b).
Qed.

Lemma lt_total a b : lt_of a b ∨ a = b ∨ lt_of b a.
Proof.
  unfold lt_of. pose proof (cmp_eq_iff a b). pose proof (cmp_gt_lt a b).
  destruct (cmp a b); naive_solver.
Qed.

Lemma lt_of_asym a b : lt_of a b → ¬ lt_of b a.
Proof. intros H1 H2. exact (lt_of_irrefl a (lt_of_trans _ _ _ H1 H2)). Qed.

Lemma ltb_ne_cases a b :
  a ≠ b → (ltb a b = true ∧ ltb b a = false) ∨ (ltb a b = false ∧ ltb b a = true).
Proof.
  intros Hne. destruct (lt_total a b) as [H|[H|H]]; [left|done|right];
    split; try (by apply ltb_lt_of); apply not_true_iff_false; rewrite ltb_lt_of;
    by apply lt_of_asym.
Qed.

Lemma leb_trans a b c : leb a b = true → leb b c = true → leb a c = true.
Proof. rewrite !leb_iff. intros [H1| ->] [H2| ->]; eauto using lt_of_trans. Qed.

Lemma leb_lt_trans a b c : leb a b = true → lt_of b c → lt_of a c.
Proof. rewrite leb_iff. intros [H1| ->] H2; eauto using lt_of_trans. Qed.

Lemma strictly_ascending_sorted (xs : list A) :
  strictly_ascending xs = true ↔ StronglySorted lt_of xs.
Proof.
  split.
  - intros H. apply Sorted_StronglySorted; [exact lt_of_trans|].
    induction xs as [|x [|y xs] IH]; [constructor|repeat constructor|].
    simpl in H. apply andb_true_iff in H as [Hlt H].
    constructor; [by apply IH|]. constructor. by apply ltb_lt_of.
  - induction 1 as [|x xs Hs IH Hall]; [done|]. destruct xs as [|y xs]; [done|].
    simpl in *. rewrite IH, andb_true_r. apply ltb_lt_of. by inversion Hall.
Qed.

End order_facts.

Lemma sorted_lt_nodup {A : Type} `{!TotalOrd A} (xs : list A) :
  StronglySorted lt_of xs → NoDup xs.
Proof.
  induction 1 as [|x xs Hs IH Hall]; constructor; [|done].
  intros Hin. rewrite List.Forall_forall in Hall.
  exact (lt_of_irrefl x (Hall x (proj1 (list_elem_of_In _ _) Hin))).
Qed.

(** ** Instances *)

#[global, program] Instance Z_ord : TotalOrd Z := {| cmp := Z.compare |}.
Next Obligation. apply Z.compare_eq_iff. Qed.
Next Obligation. intros. apply Z.compare_antisym. Qed.
Next Obligation. intros a b c. rewrite !Z.compare_lt_iff. lia. Qed.

#[global, program] Instance byte_ord : TotalOrd Byte.byte := {| cmp := byte_cmp |}.
Next Obligation.
  intros a b. unfold byte_cmp. rewrite Z.compare_eq_iff.
  split; [apply byte.unsigned_inj|by intros ->].
Qed.
Next Obligation. intros. apply Z.compare_antisym. Qed.
Next Obligation. intros a b c. unfold byte_cmp. rewrite !Z.compare_lt_iff. lia. Qed.

Section list_order.
Context {A : Type} `{!TotalOrd A}.

Lemma list_cmp_eq (xs ys : list A) : list_cmp cmp xs ys = Eq ↔ xs = ys.
Proof.
  revert ys. induction xs as [|x xs IH]; intros [|y ys]; simpl; try naive_solver.
  pose proof (cmp_eq_iff x y). destruct (cmp x y); [|naive_solver..].
  rewrite IH. naive_solver.
Qed.

Lemma list_cmp_opp (xs ys : list A) : list_cmp cmp ys xs = CompOpp (list_cmp cmp xs ys).
Proof.
  revert ys. induction xs as [|x xs IH]; intros [|y ys]; simpl; try done.
  rewrite (cmp_opp x y). destruct (cmp x y); simpl; auto.
Qed.

Lemma list_cmp_trans (xs ys zs : list A) :
  list_cmp cmp xs ys = Lt → list_cmp cmp ys zs = Lt → list_cmp cmp xs zs = Lt.
Proof.
  revert ys zs. induction xs as [|x xs IH]; intros [|y ys] [|z zs]; simpl; try done.
  destruct (cmp x y) eqn:Exy, (cmp y z) eqn:Eyz; try done.
  - apply cmp_eq_iff in Exy as ->. rewrite Eyz. apply IH.
  - apply cmp_eq_iff in Exy as ->. by rewrite Eyz.
  - apply cmp_eq_iff in Eyz as ->. by rewrite Exy.
  - by rewrite (cmp_lt_trans _ _ _ Exy Eyz).
Qed.

#[global] Instance list_ord : TotalOrd (list A) :=
  {| cmp := list_cmp cmp; cmp_eq_iff := list_cmp_eq; cmp_opp := list_cmp_opp;
     cmp_lt_trans := list_cmp_trans |}.

#[global, program] Instance option_ord : TotalOrd (option A) := {| cmp := option_cmp cmp |}.
Next Obligation.
  intros [a|] [b|]; simpl; try naive_solver. rewrite cmp_eq_iff. naive_solver.
Qed.
Next Obligation. intros [a|] [b|]; simpl; try done. apply cmp_opp. Qed.
Next Obligation. intros [a|] [b|] [c|]; simpl; try done. apply cmp_lt_trans. Qed.
End list_order.

#[global, program] Instance pair_ord {A B : Type} `{!TotalOrd A, !TotalOrd B} :
  TotalOrd (A * B) := {| cmp := pair_cmp cmp cmp |}.
Next Obligation.
  intros A B ?? [a1 b1] [a2 b2]. unfold pair_cmp. simpl.
  pose proof (cmp_eq_iff a1 a2). pose proof (cmp_eq_iff b1 b2).
  destruct (cmp a1 a2); naive_solver.
Qed.
Next Obligation.
  intros A B ?? [a1 b1] [a2 b2]. unfold pair_cmp. simpl.
  rewrite (cmp_opp a1 a2), (cmp_opp b1 b2). by destruct (cmp a1 a2).
Qed.
Next Obligation.
  intros A B ?? [a1 b1] [a2 b2] [a3 b3]. unfold pair_cmp. simpl.
  destruct (cmp a1 a2) eqn:E12, (cmp a2 a3) eqn:E23; try done; intros H1 H2.
  - apply cmp_eq_iff in E12 as ->. rewrite E23. eauto using cmp_lt_trans.
  - apply cmp_eq_iff in E12 as ->. by rewrite E23.
  - apply cmp_eq_iff in E23 as ->. by rewrite E12.
  - by rewrite (cmp_lt_trans _ _ _ E12 E23).
Qed.

(** ** Laws of ordered maps *)

Section btree_facts.
Context {K V : Type} `{!TotalOrd K}.
Implicit Types (k : K) (v : V) (m : BTreeMap K V).

Lemma bt_get_insert_eq k v m : bt_get k (bt_insert k v m) = Some v.
Proof.
  induction m as [|[k' v'] m IH]; simpl; [by rewrite cmp_refl|].
  destruct (cmp k k') eqn:E; simpl; rewrite ?cmp_refl, ?E; auto.
Qed.

Lemma bt_get_insert_ne k k' v m : k ≠ k' → bt_get k (bt_insert k' v m) = bt_get k m.
Proof.
  intros Hne. assert (cmp k k' ≠ Eq) as Hc by (rewrite cmp_eq_iff; done).
  induction m as [|[k1 v1] m IH]; simpl; [by destruct (cmp k k')|].
  destruct (cmp k' k1) eqn:E; simpl.
  - apply cmp_eq_iff in E as ->. by destruct (cmp k k1).
  - by destruct (cmp k k').
  - destruct (cmp k k1); auto.
Qed.

Lemma bt_get_some_in k v m : bt_get k m = Some v → (k, v) ∈ m.
Proof.
  induction m as [|[k' v'] m IH]; simpl; [done|].
  destruct (cmp k k') eqn:E; intros H; [|right; auto..].
  apply cmp_eq_iff in E as ->. simplify_eq. left.
Qed.

Lemma bt_contains_get k m : bt_contains k m = true ↔ ∃ v, bt_get k m = Some v.
Proof. unfold bt_contains. destruct (bt_get k m); naive_solver. Qed.

Lemma bt_get_none_keys k m : bt_get k m = None ↔ k ∉ bt_keys m.
Proof.
  induction m as [|[k' v'] m IH]; simpl; [split; [intros _; apply not_elem_of_nil|done]|].
  rewrite not_elem_of_cons. pose proof (cmp_eq_iff k k').
  destruct (cmp k k'); naive_solver.
Qed.

Lemma bt_keys_insert k k' v m : k ∈ bt_keys (bt_insert k' v m) ↔ k = k' ∨ k ∈ bt_keys m.
Proof.
  induction m as [|[k1 v1] m IH]; simpl.
  - rewrite elem_of_cons, elem_of_nil. tauto.
  - destruct (cmp k' k1) eqn:E; simpl; rewrite !elem_of_cons.
    + apply cmp_eq_iff in E as ->. tauto.
    + tauto.
    + fold (bt_keys (bt_insert k' v m)) (bt_keys m). rewrite IH. tauto.
Qed.

Lemma bt_ok_nil : bt_ok ([] : BTreeMap K V).
Proof. constructor. Qed.

Lemma bt_ok_cons_inv k v m :
  bt_ok ((k, v) :: m) ↔ bt_ok m ∧ ∀ k', k' ∈ bt_keys m → lt_of k k'.
Proof.
  unfold bt_ok. simpl. split.
  - inversion 1 as [|?? Hs Hall]; subst. split; [done|].
    intros k' Hin. rewrite List.Forall_forall in Hall. apply Hall. by apply list_elem_of_In.
  - intros [Hs Hall]. constructor; [done|]. rewrite List.Forall_forall.
    intros k' Hin. apply Hall. by apply list_elem_of_In.
Qed.

Lemma bt_ok_insert k v m : bt_ok m → bt_ok (bt_insert k v m).
Proof.
  induction m as [|[k1 v1] m IH]; simpl.
  - intros _. apply bt_ok_cons_inv. split; [apply bt_ok_nil|]. intros k'. by rewrite elem_of_nil.
  - intros [Hok Hall]%bt_ok_cons_inv. destruct (cmp k k1) eqn:E.
    + apply cmp_eq_iff in E as ->. by apply bt_ok_cons_inv.
    + apply bt_ok_cons_inv. split; [by apply bt_ok_cons_inv|].
      intros k'. simpl. rewrite elem_of_cons. intros [->|Hin]; [done|].
      eapply lt_of_trans; [exact E|]. by apply Hall.
    + apply bt_ok_cons_inv. split; [by apply IH|]. intros k' [->|Hin]%bt_keys_insert.
      * by apply cmp_gt_lt in E.
      * by apply Hall.
Qed.

Lemma bt_keys_remove_incl k k' m : k ∈ bt_keys (bt_remove k' m) → k ∈ bt_keys m.
Proof.
  induction m as [|[k1 v1] m IH]; simpl; [done|].
  destruct (cmp k' k1); simpl; rewrite ?elem_of_cons; intuition auto.
Qed.

Lemma bt_ok_remove k m : bt_ok m → bt_ok (bt_remove k m).
Proof.
  induction m as [|[k1 v1] m IH]; simpl; [done|].
  intros [Hok Hall]%bt_ok_cons_inv. destruct (cmp k k1); [done|..];
    (apply bt_ok_cons_inv; split; [by apply IH|]);
    intros k' Hin%bt_keys_remove_incl; auto.
Qed.

Lemma bt_get_remove_eq k m : bt_ok m → bt_get k (bt_remove k m) = None.
Proof.
  induction m as [|[k1 v1] m IH]; simpl; [done|].
  intros [Hok Hall]%bt_ok_cons_inv. destruct (cmp k k1) eqn:E; simpl; rewrite ?E; auto.
  apply cmp_eq_iff in E as ->. apply bt_get_none_keys. intros Hin.
  by apply (lt_of_irrefl k1), Hall.
Qed.

Lemma bt_get_remove_ne k k' m : k ≠ k' → bt_get k (bt_remove k' m) = bt_get k m.
Proof.
  intros Hne. induction m as [|[k1 v1] m IH]; simpl; [done|].
  destruct (cmp k' k1) eqn:E; simpl.
  - apply cmp_eq_iff in E as ->. destruct (cmp k k1) eqn:E1; [|done..].
    by apply cmp_eq_iff in E1.
  - by rewrite IH.
  - by rewrite IH.
Qed.

Lemma bt_in_get k v m : bt_ok m → (k, v) ∈ m → bt_get k m = Some v.
Proof.
  induction m as [|[k1 v1] m IH]; [by intros _ ?%elem_of_nil|].
  intros [Hok Hall]%bt_ok_cons_inv [Heq|Hin]%elem_of_cons; simpl.
  - simplify_eq. by rewrite cmp_refl.
  - assert (k ∈ bt_keys m) as Hk.
    { unfold bt_keys. apply list_elem_of_In, in_map_iff. exists (k, v).
      split; [done|by apply list_elem_of_In]. }
    apply Hall in Hk. destruct (cmp k k1) eqn:E; auto.
    apply cmp_eq_iff in E as ->. by apply lt_of_irrefl in Hk.
Qed.

Lemma bt_in_values v m : v ∈ bt_values m ↔ ∃ k, (k, v) ∈ m.
Proof.
  unfold bt_values. rewrite list_elem_of_In, in_map_iff. split.
  - intros [[k v'] [<- Hin]]. exists k. by apply list_elem_of_In.
  - intros [k Hin]. exists (k, v). split; [done|by apply list_elem_of_In].
Qed.

Lemma bt_insert_fresh_perm k v m :
  bt_get k m = None → Permutation (bt_insert k v m) ((k, v) :: m).
Proof.
  induction m as [|[k1 v1] m IH]; simpl; [done|].
  destruct (cmp k k1); [done|done|]. intros H. rewrite IH by done. constructor.
Qed.

Lemma bt_remove_perm k v m :
  bt_get k m = Some v → Permutation m ((k, v) :: bt_remove k m).
Proof.
  induction m as [|[k1 v1] m IH]; simpl; [done|].
  destruct (cmp k k1) eqn:E; intros H.
  - apply cmp_eq_iff in E as ->. by simplify_eq.
  - rewrite IH at 1 by done. constructor.
  - rewrite IH at 1 by done. constructor.
Qed.

Lemma bt_remove_absent k m : bt_get k m = None → bt_remove k m = m.
Proof.
  induction m as [|[k1 v1] m IH]; simpl; [done|].
  destruct (cmp k k1); intros H; [done|by rewrite IH..].
Qed.

(** Two ordered maps that agree on every lookup are the same list. *)
Lemma bt_ext (m1 m2 : BTreeMap K V) :
  bt_ok m1 → bt_ok m2 → (∀ k, bt_get k m1 = bt_get k m2) → m1 = m2.
Proof.
  revert m2. induction m1 as [|[k1 v1] m1 IH]; intros [|[k2 v2] m2] H1 H2 Hext; [done|..].
  - specialize (Hext k2). simpl in Hext. by rewrite cmp_refl in Hext.
  - specialize (Hext k1). simpl in Hext. by rewrite cmp_refl in Hext.
  - apply bt_ok_cons_inv in H1 as [Hok1 Hall1]. apply bt_ok_cons_inv in H2 as [Hok2 Hall2].
    assert (k1 = k2) as ->.
    { destruct (lt_total k1 k2) as [Hlt|[?|Hlt]]; [exfalso|done|exfalso].
      - pose proof (Hext k1) as H. simpl in H. rewrite cmp_refl, Hlt in H.
        symmetry in H. apply bt_get_some_in in H. apply (lt_of_asym _ _ Hlt), Hall2.
        apply list_elem_of_In, in_map_iff. eexists; split; [|by apply list_elem_of_In]. done.
      - pose proof (Hext k2) as H. simpl in H. rewrite cmp_refl, Hlt in H.
        apply bt_get_some_in in H. apply (lt_of_asym _ _ Hlt), Hall1.
        apply list_elem_of_In, in_map_iff. eexists; split; [|by apply list_elem_of_In]. done. }
    pose proof (Hext k2) as H. simpl in H. rewrite cmp_refl in H. simplify_eq. f_equal.
    apply IH; [done..|]. intros k. specialize (Hext k). simpl in Hext.
    destruct (cmp k k2) eqn:E; [|done..]. apply cmp_eq_iff in E as ->.
    trans (@None V); [|symmetry]; apply bt_get_none_keys; intros Hin;
      by apply (lt_of_irrefl k2); auto.
Qed.

End btree_facts.

#[export] Hint Resolve bt_ok_nil bt_ok_insert bt_ok_remove : astro.

(** ** Collecting into a map *)

Section collect_facts.
Context {K V : Type} `{!TotalOrd K}.

Lemma bt_collect_gen (xs : list (K * V)) (m : BTreeMap K V) :
  bt_ok m → NoDup (map fst xs) → (∀ k, k ∈ map fst xs → k ∉ bt_keys m) →
  let m' := fold_left (λ m kv, bt_insert kv.1 kv.2 m) xs m in
  bt_ok m' ∧ Permutation m' (xs ++ m).
Proof.
  revert m. induction xs as [|[k v] xs IH]; intros m Hm Hnd Hfresh; [done|].
  simpl in Hnd. apply NoDup_cons in Hnd as [Hk Hnd]. cbn [fold_left fst snd].
  destruct (IH (bt_insert k v m)) as [Hok Hp].
  - by apply bt_ok_insert.
  - done.
  - intros k' Hin. rewrite bt_keys_insert. intros [->|Hin']; [done|].
    apply (Hfresh k'); [by right|done].
  - split; [done|]. rewrite Hp. simpl.
    rewrite (bt_insert_fresh_perm k v m) by (apply bt_get_none_keys, Hfresh; left).
    symmetry. apply Permutation_middle.
Qed.

Lemma bt_collect_perm (xs : list (K * V)) :
  NoDup (map fst xs) → bt_ok (bt_collect xs) ∧ Permutation (bt_collect xs) xs.
Proof.
  intros Hnd. destruct (bt_collect_gen xs [] (bt_ok_nil) Hnd) as [Hok Hp].
  - intros k _. apply not_elem_of_nil.
  - by rewrite app_nil_r in Hp.
Qed.

Lemma bt_ok_nodup (m : BTreeMap K V) : bt_ok m → NoDup (bt_keys m).
Proof. apply sorted_lt_nodup. Qed.

Lemma bt_in_keys (k : K) (v : V) (m : BTreeMap K V) : (k, v) ∈ m → k ∈ bt_keys m.
Proof. intros H. apply list_elem_of_In, in_map_iff. exists (k, v). by rewrite <- list_elem_of_In. Qed.

Lemma bt_key_get (k : K) (m : BTreeMap K V) : k ∈ bt_keys m ↔ ∃ v, bt_get k m = Some v.
Proof.
  destruct (bt_get k m) as [v|] eqn:E.
  - split; [eauto|]. intros _. by apply bt_get_some_in, bt_in_keys in E.
  - split; [|naive_solver]. intros Hin. by apply bt_get_none_keys in E.
Qed.

(** ** Concatenations *)

Lemma bt_keys_app (m1 m2 : BTreeMap K V) : bt_keys (m1 ++ m2) = bt_keys m1 ++ bt_keys m2.
Proof. apply map_app. Qed.

Lemma sorted_app (xs ys : list K) :
  StronglySorted lt_of (xs ++ ys) ↔
  StronglySorted lt_of xs ∧ StronglySorted lt_of ys ∧ ∀ x y, x ∈ xs → y ∈ ys → lt_of x y.
Proof.
  induction xs as [|x xs IH]; simpl.
  { split; [intros H; split_and!; [constructor|done|by intros ?? ?%elem_of_nil]|tauto]. }
  split.
  - inversion 1 as [|? ? Hs Hall]; subst. apply IH in Hs as (H1 & H2 & H3).
    rewrite Forall_app in Hall. destruct Hall as [Ha Hb]. split_and!; [by constructor|done|].
    intros a b [->|Ha']%elem_of_cons Hb'; [|by apply H3]. rewrite Forall_forall in Hb. by apply Hb.
  - intros (H1 & H2 & H3). inversion H1 as [|? ? Hs Hall]; subst. constructor.
    + apply IH. split_and!; [done..|]. intros a b Ha. apply H3. by right.
    + apply Forall_app. split; [done|]. apply Forall_forall. intros y Hy. apply H3; [by left|done].
Qed.

Lemma bt_ok_app (m1 m2 : BTreeMap K V) :
  bt_ok (m1 ++ m2) ↔ bt_ok m1 ∧ bt_ok m2 ∧ ∀ k1 k2, k1 ∈ bt_keys m1 → k2 ∈ bt_keys m2 → lt_of k1 k2.
Proof. unfold bt_ok. rewrite bt_keys_app. apply sorted_app. Qed.

Lemma bt_get_app (k : K) (m1 m2 : BTreeMap K V) :
  bt_get k (m1 ++ m2) = match bt_get k m1 with Some v => Some v | None => bt_get k m2 end.
Proof. induction m1 as [|[k' v] m1 IH]; simpl; [done|]. by destruct (cmp k k'). Qed.

Lemma bt_insert_perm (k : K) (v : V) (m : BTreeMap K V) :
  bt_ok m → Permutation (bt_insert k v m) ((k, v) :: bt_remove k m).
Proof.
  induction m as [|[k1 v1] m IH]; simpl; [done|]. intros [Hok Hall]%bt_ok_cons_inv.
  destruct (cmp k k1) eqn:E; [done| |].
  - rewrite bt_remove_absent; [done|]. apply bt_get_none_keys. intros Hin%Hall.
    by apply (lt_of_asym _ _ Hin).
  - rewrite (IH Hok). constructor.
Qed.

Lemma bt_collect_sorted (m : BTreeMap K V) : bt_ok m → bt_collect m = m.
Proof.
  intros Hm. destruct (bt_collect_perm m) as [Hok Hp]; [by apply bt_ok_nodup|].
  apply bt_ext; [done..|]. intros k. destruct (bt_get k m) as [v|] eqn:E.
  - apply bt_in_get; [done|]. rewrite Hp. by apply bt_get_some_in.
  - apply bt_get_none_keys. apply bt_get_none_keys in E. unfold bt_keys in *. by rewrite Hp.
Qed.

(** Inserting above every key appends. *)
Lemma bt_insert_last (k : K) (v : V) (m : BTreeMap K V) :
  (∀ k', k' ∈ bt_keys m → lt_of k' k) → bt_insert k v m = m ++ [(k, v)].
Proof.
  induction m as [|[k1 v1] m IH]; intros H; [done|]. simpl.
  assert (cmp k k1 = Gt) as -> by (apply cmp_gt_lt, H; by left).
  rewrite IH; [done|]. intros k' Hk'. apply H. by right.
Qed.
End collect_facts.
