(* ===== verification/Codec.v ===== *)
(** * Codec: bounded canonical decoding ([src/crates/codec])

    Byte strings, little-endian integers, the [Decoder] cursor and the compact
    length prefix.  The class [Reads] states what a cursor read promises to the
    decoders built on it: it accepts exactly the encodings of valid values,
    returns the value encoded, and leaves the cursor right behind it.  Each
    decoder of the later files is an instance; [complete] lifts a read to the
    whole-input [CanonicalDecode::decode]. *)

From S2P Require Import Prelude Ordered.
From coqutil Require Import Word.LittleEndianList.


Abbreviation bytes := (list Byte.byte).

(** ** Integers as bytes *)

(** [uN::to_le_bytes] for an N of [n] bytes. *)
Definition le (n : nat) (z : Z) : bytes := le_split n z.

(** [uN::from_le_bytes]. *)
Definition from_le (bs : bytes) : Z := le_combine bs.

Definition byte_of (z : Z) : Byte.byte := byte.of_Z z.

(** Byte-string literals. *)
Definition lit (s : string) : bytes := list_byte_of_string s.
Arguments lit s%_string.

(** [slice.get(a..b)]. *)
Definition slice (bs : bytes) (a b : Z) : option bytes :=
  if (a <=? b) && (b <=? len bs)
  then Some (take (Z.to_nat (b - a)) (drop (Z.to_nat a) bs))
  else None.

(** [str::from_utf8]: well-formed UTF-8, by the table of byte ranges. *)
Definition in_range (low high : Z) (b : Byte.byte) : bool :=
  (low <=? byte.unsigned b) && (byte.unsigned b <=? high).

Fixpoint valid_utf8 (bs : bytes) : bool :=
  match bs with
  | [] => true
  | b0 :: rest =>
      if in_range 0 127 b0 then valid_utf8 rest
      else
        match rest with
        | [] => false
        | b1 :: rest =>
            if in_range 194 223 b0 then in_range 128 191 b1 && valid_utf8 rest
            else
              match rest with
              | [] => false
              | b2 :: rest =>
                  let second :=
                    (in_range 224 224 b0 && in_range 160 191 b1)
                    || (in_range 225 236 b0 && in_range 128 191 b1)
                    || (in_range 237 237 b0 && in_range 128 159 b1)
                    || (in_range 238 239 b0 && in_range 128 191 b1) in
                  if second then in_range 128 191 b2 && valid_utf8 rest
                  else
                    match rest with
                    | [] => false
                    | b3 :: rest =>
                        ((in_range 240 240 b0 && in_range 144 191 b1)
                         || (in_range 241 243 b0 && in_range 128 191 b1)
                         || (in_range 244 244 b0 && in_range 128 143 b1))
                        && in_range 128 191 b2 && in_range 128 191 b3 && valid_utf8 rest
                    end
              end
        end
  end.

(** ** Errors and bounds *)

Inductive DecodeError :=
| Truncated
| LengthOverflow
| LimitExceeded
| NonCanonical
| Unsupported
| TrailingBytes.

Definition MAX_PAYLOAD : Z := Z.shiftl 1 20.
Definition MAX_LIST_LEN : Z := Z.shiftl 1 20.
Definition MAX_STATE_KEY_LEN : Z := 256.

(** ** The cursor *)

Record Decoder := mkDecoder {
  dec_bytes : bytes;
  dec_position : Z
}.

Definition decoder_new (bs : bytes) : Decoder := mkDecoder bs 0.

Definition remaining (d : Decoder) : Z := len (dec_bytes d) - dec_position d.

(** A read returns its value and the advanced cursor.  Decoders with an error type
    of their own convert [DecodeError] at each call with [with_err]. *)
Definition reader (E A : Type) : Type := Decoder → result (A * Decoder) E.
Definition read (A : Type) : Type := reader DecodeError A.

Definition with_err {E A : Type} (e : E) (rd : read A) : reader E A := λ d,
  map_err (λ _, e) (rd d).

Definition read_exact (length : Z) : read bytes := λ d,
  let? end_ := ok_or (checked_add 64 (dec_position d) length) LengthOverflow in
  let? value := ok_or (slice (dec_bytes d) (dec_position d) end_) Truncated in
  Ok (value, mkDecoder (dec_bytes d) end_).

Definition read_fixed (n : nat) : read bytes := read_exact (Z.of_nat n).

Definition read_int (n : nat) : read Z := λ d,
  let? (bs, d) := read_exact (Z.of_nat n) d in
  Ok (from_le bs, d).

Definition read_u8 : read Z := read_int 1.
Definition read_u16 : read Z := read_int 2.
Definition read_u32 : read Z := read_int 4.
Definition read_u64 : read Z := read_int 8.

Definition finish (d : Decoder) : result unit DecodeError :=
  if remaining d =? 0 then Ok tt else Err TrailingBytes.

(** The shape of every [CanonicalDecode::decode]: one read over the whole input. *)
Definition complete {A : Type} (rd : read A) (bs : bytes) : result A DecodeError :=
  let? (v, d) := rd (decoder_new bs) in
  let? _ := finish d in
  Ok v.

(** ** Length prefixes *)

(** One byte below 128, otherwise the marker [0x80] and four bytes.  A length
    beyond [u32::MAX] panics in the source: see [encode_length_panics]. *)
Definition encode_length (n : Z) : bytes :=
  if n <? 128 then [byte_of n] else byte_of 128 :: le 4 n.

Definition encode_length_panics (n : Z) : bool := 2 ^ 32 <=? n.

Definition decode_length : read Z := λ d,
  let? (first, d) := read_u8 d in
  if first <? 128 then Ok (first, d)
  else
    let? _ := reject_if (negb (first =? 128)) NonCanonical in
    let? (value, d) := read_u32 d in
    let? _ := reject_if (value <? 128) NonCanonical in
    let? _ := reject_if (MAX_LIST_LEN <? value) LimitExceeded in
    Ok (value, d).

Definition encode_bytes (bs : bytes) : bytes := encode_length (len bs) ++ bs.

Definition decode_bytes (limit : Z) : read bytes := λ d,
  let? (n, d) := decode_length d in
  let? _ := reject_if (limit <? n) LimitExceeded in
  read_exact n d.

(** [for _ in 0..n] over a read, keeping the values. *)
Fixpoint read_many {E A : Type} (rd : reader E A) (n : nat) : reader E (list A) := λ d,
  match n with
  | O => Ok ([], d)
  | S n' =>
      let? (v, d) := rd d in
      let? (vs, d) := read_many rd n' d in
      Ok (v :: vs, d)
  end.

(** The [bool] codec: 0 or 1. *)
Definition encode_bool (b : bool) : bytes := [byte_of (if b then 1 else 0)].

Definition read_bool : read bool := λ d,
  let? (v, d) := read_u8 d in
  if v =? 0 then Ok (false, d) else if v =? 1 then Ok (true, d) else Err NonCanonical.

(** ** The contract of a read *)

(** The cursor stands before exactly [xs], inside a buffer a [usize] can index. *)
Definition dview (d : Decoder) (xs : bytes) : Prop :=
  ∃ pre, dec_bytes d = pre ++ xs ∧ dec_position d = len pre ∧ len (dec_bytes d) < 2 ^ 64.

Class Reads {E A : Type} (rd : reader E A) (enc : A → bytes) (valid : A → Prop) : Prop := {
  reads_fwd d v ys :
    valid v → dview d (enc v ++ ys) → ∃ d', rd d = Ok (v, d') ∧ dview d' ys;
  reads_inv d v d' zs :
    dview d zs → rd d = Ok (v, d') → ∃ ys, zs = enc v ++ ys ∧ valid v ∧ dview d' ys
}.

(** Fixed-width byte arrays. *)
Definition sized (n : nat) (bs : bytes) : Prop := length bs = n.

(** Concatenated encodings of a list. *)
Definition encode_all {A : Type} (enc : A → bytes) (xs : list A) : bytes := flat_map enc xs.

#[global] Arguments le : simpl never.
#[global] Arguments from_le : simpl never.
#[global] Arguments byte_of : simpl never.
#[global] Arguments lit : simpl never.
#[global] Arguments encode_length : simpl never.
#[global] Arguments encode_bytes : simpl never.
#[global] Arguments read_exact : simpl never.
#[global] Arguments read_fixed : simpl never.
#[global] Arguments read_int : simpl never.
#[global] Arguments finish : simpl never.

(** ** Facts about integers and slices *)

Lemma length_le n z : length (le n z) = n.
Proof. apply length_le_split. Qed.

Lemma len_le n z : len (le n z) = Z.of_nat n.
Proof. unfold len. by rewrite length_le. Qed.

Lemma from_le_le n z : fits (8 * Z.of_nat n) z → from_le (le n z) = z.
Proof.
  intros Hz. unfold from_le, le. rewrite le_combine_split. apply Z.mod_small.
  unfold fits in Hz. by rewrite Z.mul_comm.
Qed.

Lemma le_from_le bs : le (length bs) (from_le bs) = bs.
Proof. apply split_le_combine. Qed.

Lemma from_le_fits bs : fits (8 * len bs) (from_le bs).
Proof. unfold fits, from_le, len. apply le_combine_bound. Qed.

Lemma le_inj n a b :
  fits (8 * Z.of_nat n) a → fits (8 * Z.of_nat n) b → le n a = le n b → a = b.
Proof. intros Ha Hb E. by rewrite <- (from_le_le n a), E, from_le_le. Qed.

Lemma le_one z : le 1 z = [byte_of z].
Proof. reflexivity. Qed.

Lemma byte_of_inj a b : u8 a → u8 b → byte_of a = byte_of b → a = b.
Proof.
  intros Ha Hb E. apply (le_inj 1 a b Ha Hb). by rewrite !le_one, E.
Qed.

Lemma slice_some bs a b v :
  0 <= a → slice bs a b = Some v ↔
  ∃ pre post, bs = pre ++ v ++ post ∧ len pre = a ∧ len v = b - a ∧ a <= b.
Proof.
  intros Ha. unfold slice. split.
  - case_test. intros [= <-].
    exists (take (Z.to_nat a) bs), (drop (Z.to_nat (b - a)) (drop (Z.to_nat a) bs)).
    rewrite take_drop, take_drop. unfold len in *.
    rewrite !length_take, length_drop. repeat split; lia.
  - intros (pre & post & -> & Hpre & Hv & Hab). autorewrite with len.
    pose proof (len_nonneg post).
    rewrite (proj2 (Z.leb_le _ _)), (proj2 (Z.leb_le _ _)) by lia. simpl.
    replace (Z.to_nat a) with (length pre) by (unfold len in Hpre; lia).
    replace (Z.to_nat (b - a)) with (length v) by (unfold len in Hv; lia).
    by rewrite drop_app_length, take_app_length.
Qed.

(** ** Facts about reads *)

Lemma dview_new bs : len bs < 2 ^ 64 → dview (decoder_new bs) bs.
Proof. intros H. by exists []. Qed.

Lemma dview_remaining d xs : dview d xs → remaining d = len xs.
Proof. intros (pre & E & P & _). unfold remaining. rewrite E, P. len_lia. Qed.

Lemma dview_bound d xs : dview d xs → len xs < 2 ^ 64.
Proof.
  intros (pre & E & P & B). rewrite E, len_app in B. pose proof (len_nonneg pre). lia.
Qed.

Lemma finish_ok d xs u : dview d xs → finish d = Ok u ↔ xs = [].
Proof.
  intros H%dview_remaining. unfold finish. rewrite H, <- len_zero_iff.
  destruct u. case_test; naive_solver.
Qed.

Lemma read_exact_fwd n d v ys :
  len v = n → dview d (v ++ ys) → ∃ d', read_exact n d = Ok (v, d') ∧ dview d' ys.
Proof.
  intros Hn (pre & E & P & B). exists (mkDecoder (dec_bytes d) (dec_position d + n)).
  pose proof (len_nonneg pre). pose proof (len_nonneg ys).
  unfold read_exact. rewrite (proj2 (checked_add_some _ _ _ _)) by
    (split; [rewrite E in B; len_lia|reflexivity]).
  simpl. rewrite (proj2 (slice_some (dec_bytes d) (dec_position d) (dec_position d + n) v ltac:(lia))).
  - split; [done|]. exists (pre ++ v). split; [by rewrite E, app_assoc|]. simpl. split; len_lia.
  - exists pre, ys. pose proof (len_nonneg v). repeat split; [done|lia..].
Qed.

Lemma read_exact_inv n d v d' zs :
  dview d zs → read_exact n d = Ok (v, d') → ∃ ys, zs = v ++ ys ∧ len v = n ∧ dview d' ys.
Proof.
  intros (pre & E & P & B) H. unfold read_exact in H. bind_inv H.
  apply ok_or_ok, checked_add_some in E0 as [? ->].
  apply ok_or_ok in E1. pose proof (len_nonneg pre). simplify_eq.
  apply slice_some in E1; [|lia]. destruct E1 as (pre' & post & E' & Hpre & Hv & Hle).
  rewrite E in E'. apply app_inj_1 in E' as [<- ->]; [|unfold len in *; lia].
  exists post. split; [done|]. split; [lia|].
  exists (pre ++ v). simpl. rewrite E, app_assoc. split; [done|]. rewrite <- app_assoc, <- E.
  split; len_lia.
Qed.

#[global] Instance reads_fixed n : Reads (read_fixed n) id (sized n).
Proof.
  split.
  - intros d v ys Hv Hd. apply read_exact_fwd; [|done]. unfold len. by rewrite Hv.
  - intros d v d' zs Hd H. apply read_exact_inv with (zs := zs) in H as (ys & ? & ? & ?); [|done].
    exists ys. repeat split; [done| |done]. unfold sized, len in *. lia.
Qed.

Lemma reads_int n w : 8 * Z.of_nat n = w → Reads (read_int n) (le n) (fits w).
Proof.
  intros <-. split; unfold read_int.
  - intros d v ys Hv Hd.
    destruct (read_exact_fwd (Z.of_nat n) d (le n v) ys (len_le n v) Hd) as (d' & -> & ?).
    exists d'. by rewrite from_le_le.
  - intros d v d' zs Hd H. bind_inv H.
    apply read_exact_inv with (zs := zs) in E as (ys & -> & L & ?); [|done].
    simplify_eq. exists ys. split; [|split; [|done]].
    + rewrite <- (length_of_len _ _ L). by rewrite le_from_le.
    + rewrite <- L. apply from_le_fits.
Qed.

#[global] Instance reads_u8 : Reads read_u8 (le 1) u8 := reads_int 1 8 eq_refl.
#[global] Instance reads_u16 : Reads read_u16 (le 2) u16 := reads_int 2 16 eq_refl.
#[global] Instance reads_u32 : Reads read_u32 (le 4) u32 := reads_int 4 32 eq_refl.
#[global] Instance reads_u64 : Reads read_u64 (le 8) u64 := reads_int 8 64 eq_refl.

(** Step forward through the next read of the goal, whose cursor stands before
    an encoding; the side condition left is the value's validity. *)
Ltac read_fwd :=
  match goal with
  | H : dview ?d _ |- context [match ?rd ?d with Ok _ => _ | Err _ => _ end] =>
      let d' := fresh "d" in let E := fresh "E" in let H' := fresh "Hd" in
      edestruct (reads_fwd (rd := rd) d) as (d' & E & H');
      [ | exact H | rewrite E; clear E H; rename H' into H ]
  end.

(** Turn every successful read recorded in the context into what it consumed. *)
Ltac read_inv :=
  repeat match goal with
  | H : dview ?d ?zs, E : ?rd ?d = Ok (?v, ?d') |- _ =>
      let ys := fresh "ys" in let Hv := fresh "Hv" in let H' := fresh "Hd" in
      apply (reads_inv (rd := rd) d v d' zs H) in E as (ys & -> & Hv & H'); clear H
  end.

Ltac close_fwd := eexists; split; [reflexivity|assumption].

#[global] Instance reads_bool : Reads read_bool encode_bool (λ _, True).
Proof.
  split; unfold read_bool.
  - intros d v ys _ Hd. unfold encode_bool in Hd. rewrite <- le_one in Hd.
    read_fwd; [by destruct v|]. destruct v; close_fwd.
  - intros d v d' zs Hd H. bind_inv H. read_inv.
    repeat case_test; simplify_eq; eexists; split_and!; try done.
Qed.

#[global] Instance reads_length : Reads decode_length encode_length (λ n, 0 <= n <= MAX_LIST_LEN).
Proof.
  assert (MAX_LIST_LEN = 1048576) as HM by reflexivity.
  split; unfold decode_length, encode_length.
  - intros d v ys Hv Hd. destruct (v <? 128) eqn:E; bool_props.
    + rewrite <- le_one in Hd. read_fwd; [unfold fits; lia|].
      rewrite (proj2 (Z.ltb_lt _ _)) by lia. close_fwd.
    + change (byte_of 128 :: le 4 v) with (le 1 128 ++ le 4 v) in Hd.
      rewrite <- app_assoc in Hd. read_fwd; [done|]. simpl.
      read_fwd; [unfold fits; lia|].
      rewrite (proj2 (Z.ltb_ge _ _)) by lia. simpl.
      rewrite (proj2 (Z.ltb_ge _ _)) by lia. close_fwd.
  - intros d v d' zs Hd H. bind_inv H. read_inv. case_in H; simplify_eq.
    + eexists. rewrite (proj2 (Z.ltb_lt _ _)) by lia. split_and!; [done|unfold fits in *; lia..|done].
    + bind_inv H. apply reject_if_ok in E, E1, E2. bool_props. subst. read_inv. simplify_eq.
      eexists. rewrite (proj2 (Z.ltb_ge _ _)) by lia.
      split_and!; [reflexivity|unfold fits in *; lia..|done].
Qed.

#[global] Instance reads_bytes limit :
  Reads (decode_bytes limit) encode_bytes (λ bs, len bs <= limit ∧ len bs <= MAX_LIST_LEN).
Proof.
  split; unfold decode_bytes, encode_bytes.
  - intros d v ys [Hl Hm] Hd. rewrite <- app_assoc in Hd.
    read_fwd; [split; [apply len_nonneg|done]|].
    rewrite (proj2 (Z.ltb_ge _ _)) by lia. by apply read_exact_fwd.
  - intros d v d' zs Hd H. bind_inv H. apply reject_if_ok in E0. bool_props. read_inv.
    apply read_exact_inv with (zs := ys) in H as (ys' & -> & <- & ?); [|done].
    exists ys'. rewrite app_assoc. split_and!; [done|lia..|done].
Qed.

#[global] Instance reads_with_err {E A : Type} (e : E) (rd : read A) enc valid
    `{!Reads rd enc valid} : Reads (with_err e rd) enc valid.
Proof.
  split; unfold with_err.
  - intros d v ys Hv Hd. destruct (reads_fwd d v ys Hv Hd) as (d' & -> & ?). by exists d'.
  - intros d v d' zs Hd H%map_err_ok. by apply (reads_inv d v d' zs).
Qed.

Lemma reads_many {Er A : Type} (rd : reader Er A) enc valid `{!Reads rd enc valid} n :
  Reads (read_many rd n) (encode_all enc) (λ vs, length vs = n ∧ Forall valid vs).
Proof.
  split.
  - induction n as [|n IH]; intros d [|v vs] ys [Hn Hv] Hd; simplify_eq/=; [close_fwd|].
    inversion Hv; subst. rewrite <- app_assoc in Hd. read_fwd; [done|].
    destruct (IH d0 vs ys ltac:(done) Hd) as (d' & -> & ?). close_fwd.
  - induction n as [|n IH]; intros d vs d' zs Hd H; simpl in H; bind_inv H.
    + simplify_eq. exists zs. done.
    + read_inv. destruct (IH _ _ _ _ Hd0 E0) as (ys' & -> & [? ?] & ?). subst.
      exists ys'. simpl. rewrite <- app_assoc. split_and!; [done|lia|by constructor|done].
Qed.

(** ** From reads to whole-input decoders *)

Section complete.
Context {A : Type} (rd : read A) (enc : A → bytes) (valid : A → Prop) `{!Reads rd enc valid}.

Lemma complete_fwd v : valid v → len (enc v) < 2 ^ 64 → complete rd (enc v) = Ok v.
Proof.
  intros Hv Hl. unfold complete.
  assert (dview (decoder_new (enc v)) (enc v ++ [])) as Hd by (rewrite app_nil_r; by apply dview_new).
  read_fwd; [done|]. by rewrite (proj2 (finish_ok _ _ tt Hd)).
Qed.

Lemma complete_inv bs v : len bs < 2 ^ 64 → complete rd bs = Ok v → bs = enc v ∧ valid v.
Proof.
  intros Hl H. unfold complete in H. bind_inv H. pose proof (dview_new bs Hl) as Hd.
  read_inv. eapply finish_ok in E0; [|done]. subst. by rewrite app_nil_r.
Qed.

(** Two valid values with the same encoding are equal. *)
Lemma encode_inj v1 v2 :
  valid v1 → valid v2 → len (enc v1) < 2 ^ 64 → enc v1 = enc v2 → v1 = v2.
Proof.
  intros H1 H2 Hl E. pose proof (complete_fwd v1 H1 Hl) as C1.
  pose proof (complete_fwd v2 H2 ltac:(by rewrite <- E)) as C2. rewrite E in C1. congruence.
Qed.

(** Encodings are prefix-free: the encoded value and the rest are determined. *)
Lemma encode_prefix v1 v2 ys1 ys2 :
  valid v1 → valid v2 → len (enc v1 ++ ys1) < 2 ^ 64 →
  enc v1 ++ ys1 = enc v2 ++ ys2 → v1 = v2 ∧ ys1 = ys2.
Proof.
  intros H1 H2 Hl E. pose proof (dview_new _ Hl) as Hd. pose proof Hd as Hd'.
  rewrite E in Hd' at 2.
  destruct (reads_fwd _ _ _ H1 Hd) as (d1 & R1 & (p1 & E1 & P1 & _)).
  destruct (reads_fwd _ _ _ H2 Hd') as (d2 & R2 & (p2 & E2 & P2 & _)).
  rewrite R1 in R2. simplify_eq. split; [done|].
  rewrite E1 in E2. apply app_inj_1 in E2 as [_ ?]; [done|]. unfold len in *. lia.
Qed.
End complete.
