(* ===== verification/Disk.v ===== *)
(** * Disk: files and writes that may be interrupted

    A file is the byte string it holds.  A write replaces a range of it and has
    an explicit outcome: everything reached the disk, or the call failed after
    some prefix did.  The lemmas describe what an interrupted write leaves. *)

From S2P Require Import Prelude Codec.

(** ** Writes with their outcome *)

(** Either everything is written and synchronised, or the call fails after the
    first [torn] bytes reached the file. *)
Inductive Persist := Persisted | PersistFailed (torn : nat).

Definition write_at (file : bytes) (offset : Z) (data : bytes) : bytes :=
  take (Z.to_nat offset) file ++ data ++ drop (Z.to_nat offset + length data) file.

Definition persist (io : Persist) (file : bytes) (offset : Z) (data : bytes) : bytes * bool :=
  match io with
  | Persisted => (write_at file offset data, true)
  | PersistFailed torn => (write_at file offset (take torn data), false)
  end.

Lemma write_at_end (file data : bytes) : write_at file (len file) data = file ++ data.
Proof.
  unfold write_at, len. rewrite Nat2Z.id, take_ge, drop_ge, app_nil_r by lia. done.
Qed.

Lemma write_at_window (p x q data : bytes) offset :
  len p = offset → (length data <= length x)%nat →
  write_at (p ++ x ++ q) offset data = p ++ (data ++ drop (length data) x) ++ q.
Proof.
  intros <- Hd. unfold write_at, len. rewrite Nat2Z.id, take_app_length. f_equal.
  rewrite <- app_assoc. f_equal. rewrite <- drop_drop, drop_app_length, drop_app_le by done. done.
Qed.

(** ** Overwritten records *)

(** [data] over the beginning of [old]. *)
Definition overlay (data old : bytes) : bytes := data ++ drop (length data) old.

Lemma overlay_full (data old : bytes) : (length old <= length data)%nat → overlay data old = data.
Proof. intros H. unfold overlay. by rewrite drop_ge, app_nil_r. Qed.

Lemma overlay_length (data old : bytes) :
  (length data <= length old)%nat → length (overlay data old) = length old.
Proof. intros H. unfold overlay. rewrite length_app, length_drop. lia. Qed.

(** A record of [n] bytes followed by a digest of them, partly overwritten by
    another such record: if it still checks, it is one of the two, or the old
    digest also belongs to other bytes. *)
Lemma torn_checked (n : nat) (digest : bytes → bytes) (old new : bytes) k :
  length old = (n + 32)%nat → length new = (n + 32)%nat →
  drop n old = digest (take n old) → drop n new = digest (take n new) →
  let torn := overlay (take k new) old in
  drop n torn = digest (take n torn) →
  torn = old ∨ torn = new
  ∨ take n old ≠ take n torn ∧ digest (take n old) = digest (take n torn).
Proof.
  intros Lo Ln Co Cn torn H. destruct (decide (k <= n)%nat) as [Hk|Hk].
  - assert (drop n torn = drop n old) as Ed.
    { unfold torn, overlay. rewrite length_take_le by lia.
      rewrite drop_app_ge by (rewrite length_take; lia). rewrite drop_drop, length_take_le by lia.
      f_equal. lia. }
    destruct (decide (take n old = take n torn)) as [E|E].
    + left. by rewrite <- (take_drop n torn), Ed, <- E, take_drop.
    + right; right. split; [done|]. by rewrite <- Co, <- Ed.
  - right; left. assert (take n torn = take n new) as Et.
    { unfold torn, overlay. rewrite take_app_le by (rewrite length_take; lia).
      rewrite take_take. f_equal. lia. }
    by rewrite <- (take_drop n torn), H, Et, <- Cn, take_drop.
Qed.
