(* ===== verification/Types.v ===== *)
(** * Types: protocol data and its canonical encodings

    The data of [src/crates/types] (digests, resources, state keys, accounts,
    transactions, block headers, receipts), the operations on it, and the
    canonical encoders and decoders of [src/crates/codec/src/protocol.rs].
    BLAKE2s-256 is third-party code: [Blake2s] is the interface the protocol
    relies on, and no theorem assumes it injective; a binding theorem exhibits
    the two colliding inputs instead. *)

From S2P Require Import Prelude Ordered Codec.

(** ** Digests and domains *)

(** The [blake2] crate: a function to 32-byte digests. *)
Class Blake2s := {
  blake2s256 : bytes → bytes;
  blake2s256_sized : ∀ m, sized 32 (blake2s256 m)
}.

Module domain.
Definition TRANSACTION : bytes := lit "astrolune.tx.v1".
Definition TRANSACTION_ID : bytes := lit "astrolune.tx.id.v1".
Definition ACCOUNT_ADDRESS : bytes := lit "astrolune.account.ed25519.v1".
Definition BLOCK_HEADER : bytes := lit "astrolune.block.v1".
Definition POTB_WEIGHT : bytes := lit "astrolune.potb.weight.v1".
Definition COMMITTEE : bytes := lit "astrolune.committee.v1".
Definition ROTATING_PROFILE_KEY : bytes := lit "astrolune/consensus/profile/v2".
Definition COMMITTEE_STATE_KEY : bytes := lit "astrolune/consensus/committee/v1".
Definition POTB_STATE_KEY : bytes := lit "astrolune.potb.state.v1".
Definition FINALITY : bytes := lit "astrolune.finality.v1".
Definition CONSENSUS_VOTE : bytes := lit "astrolune.vote.v1".
Definition CONSENSUS_PROPOSAL : bytes := lit "astrolune.proposal.v1".
Definition STATE_ROOT : bytes := lit "astrolune.state.v1".
Definition STATE_LEAF : bytes := lit "astrolune.state.leaf.v1".
Definition STATE_NODE : bytes := lit "astrolune.state.node.v1".
Definition STATE_DIFF : bytes := lit "astrolune.state.diff.v1".
Definition RECEIPT : bytes := lit "astrolune.receipt.v1".

(** Every separator of [domain.rs] that is hashed in this library. *)
Definition tags : list bytes :=
  [TRANSACTION; TRANSACTION_ID; ACCOUNT_ADDRESS; BLOCK_HEADER; POTB_WEIGHT; COMMITTEE;
   FINALITY; CONSENSUS_VOTE; CONSENSUS_PROPOSAL; STATE_ROOT; STATE_LEAF; STATE_NODE;
   STATE_DIFF; RECEIPT].
End domain.

(** What [domain_hash] feeds to the hash function. *)
Definition domain_preimage (domain message : bytes) : bytes :=
  lit "astrolune.v1." ++ le 8 (len domain) ++ domain ++ message.

Definition domain_hash `{!Blake2s} (domain message : bytes) : bytes :=
  blake2s256 (domain_preimage domain message).

(** 32-byte identifiers: [Hash256], [Address] and [ValidatorId]. *)
Abbreviation Hash256 := bytes.
Abbreviation Address := bytes.
Abbreviation ValidatorId := bytes.
Abbreviation StateKey := bytes.

Definition zero32 : bytes := repeat (byte_of 0) 32.
Definition zero64 : bytes := repeat (byte_of 0) 64.

Definition hash_is_zero (h : Hash256) : bool := bool_decide (h = zero32).

Definition byte_xor (a b : Byte.byte) : Byte.byte :=
  byte_of (Z.lxor (byte.unsigned a) (byte.unsigned b)).

Definition hash_xor (a b : Hash256) : Hash256 := zip_with byte_xor a b.

(** Two different inputs with one digest. *)
Definition collides `{!Blake2s} (x y : bytes) : Prop := x ≠ y ∧ blake2s256 x = blake2s256 y.

(** ** Resources *)

Record Resources := mkResources {
  compute : Z;
  memory : Z;
  io : Z;
  bandwidth : Z
}.

#[global] Instance Resources_eq_dec : EqDecision Resources.
Proof. solve_decision. Defined.

Definition resources_ok (r : Resources) : Prop :=
  u64 (compute r) ∧ u64 (memory r) ∧ u64 (io r) ∧ u64 (bandwidth r).

Definition resources_zero : Resources := mkResources 0 0 0 0.

Definition resources_is_zero (r : Resources) : bool :=
  (compute r =? 0) && (memory r =? 0) && (io r =? 0) && (bandwidth r =? 0).

Definition fits_in (a b : Resources) : bool :=
  (compute a <=? compute b) && (memory a <=? memory b) && (io a <=? io b)
  && (bandwidth a <=? bandwidth b).

Definition resources_saturating_add (a b : Resources) : Resources :=
  mkResources (saturating_add 64 (compute a) (compute b))
    (saturating_add 64 (memory a) (memory b))
    (saturating_add 64 (io a) (io b))
    (saturating_add 64 (bandwidth a) (bandwidth b)).

Definition resources_checked_add (a b : Resources) : option Resources :=
  c ← checked_add 64 (compute a) (compute b);
  m ← checked_add 64 (memory a) (memory b);
  i ← checked_add 64 (io a) (io b);
  n ← checked_add 64 (bandwidth a) (bandwidth b);
  Some (mkResources c m i n).

Definition resources_checked_mul (a : Resources) (scalar : Z) : option Resources :=
  c ← checked_mul 64 (compute a) scalar;
  m ← checked_mul 64 (memory a) scalar;
  i ← checked_mul 64 (io a) scalar;
  n ← checked_mul 64 (bandwidth a) scalar;
  Some (mkResources c m i n).

Definition checked_cost (r prices : Resources) : option Z :=
  c ← checked_mul 64 (compute r) (compute prices);
  m ← checked_mul 64 (memory r) (memory prices);
  cm ← checked_add 64 c m;
  i ← checked_mul 64 (io r) (io prices);
  cmi ← checked_add 64 cm i;
  n ← checked_mul 64 (bandwidth r) (bandwidth prices);
  checked_add 64 cmi n.

Definition resources_count (r : Resources) : Z :=
  Z.b2z (negb (compute r =? 0)) + Z.b2z (negb (memory r =? 0))
  + Z.b2z (negb (io r =? 0)) + Z.b2z (negb (bandwidth r =? 0)).

(** The exact charge, outside machine arithmetic. *)
Definition exact_cost (r prices : Resources) : Z :=
  compute r * compute prices + memory r * memory prices
  + io r * io prices + bandwidth r * bandwidth prices.

Definition encode_resources (r : Resources) : bytes :=
  le 8 (compute r) ++ le 8 (memory r) ++ le 8 (io r) ++ le 8 (bandwidth r).

Definition read_resources : read Resources := λ d,
  let? (c, d) := read_u64 d in
  let? (m, d) := read_u64 d in
  let? (i, d) := read_u64 d in
  let? (b, d) := read_u64 d in
  Ok (mkResources c m i b, d).

(** ** State keys and accounts *)

Definition STATE_KEY_MAX_LEN : Z := 256.

Definition state_key_new (bs : bytes) : option StateKey :=
  if STATE_KEY_MAX_LEN <? len bs then None else Some bs.

Definition read_state_key : read StateKey := λ d,
  let? (key, d) := decode_bytes MAX_STATE_KEY_LEN d in
  Ok (key, d).

Record AccountState := mkAccount {
  nonce : Z;
  balance : Z
}.

#[global] Instance AccountState_eq_dec : EqDecision AccountState.
Proof. solve_decision. Defined.

Definition account_ok (a : AccountState) : Prop := u64 (nonce a) ∧ u64 (balance a).

Definition encode_account (a : AccountState) : bytes := le 8 (nonce a) ++ le 8 (balance a).

Definition read_account : read AccountState := λ d,
  let? (n, d) := read_u64 d in
  let? (b, d) := read_u64 d in
  Ok (mkAccount n b, d).

Definition account_decode : bytes → result AccountState DecodeError := complete read_account.

(** ** Transactions *)

Definition TRANSACTION_VERSION : Z := 1.

Inductive TransactionLane := Payments | Contracts | System.

#[global] Instance TransactionLane_eq_dec : EqDecision TransactionLane.
Proof. solve_decision. Defined.

Definition lane_code (l : TransactionLane) : Z :=
  match l with Payments => 0 | Contracts => 1 | System => 2 end.

Definition from_payload (payload : bytes) : TransactionLane :=
  if len payload =? 0 then System
  else if len payload <=? 128 then Payments
  else Contracts.

Record Transaction := mkTransaction {
  tx_version : Z;
  tx_expires_at : Z;
  tx_lane : TransactionLane;
  tx_resource_prices : Resources;
  tx_chain_id : Z;
  tx_sender : Address;
  tx_nonce : Z;
  tx_access_list : list StateKey;
  tx_resource_limit : Resources;
  tx_payload : bytes;
  tx_signature : bytes
}.

#[global] Instance Transaction_eq_dec : EqDecision Transaction.
Proof. solve_decision. Defined.

(** The transactions the wire format represents. *)
Definition transaction_ok (t : Transaction) : Prop :=
  tx_version t = TRANSACTION_VERSION ∧ u64 (tx_expires_at t)
  ∧ resources_ok (tx_resource_prices t) ∧ u32 (tx_chain_id t) ∧ sized 32 (tx_sender t)
  ∧ u64 (tx_nonce t) ∧ len (tx_access_list t) <= MAX_LIST_LEN
  ∧ Forall (λ k, len k <= MAX_STATE_KEY_LEN) (tx_access_list t)
  ∧ resources_ok (tx_resource_limit t) ∧ len (tx_payload t) <= MAX_PAYLOAD
  ∧ sized 64 (tx_signature t).

Definition encode_unsigned_transaction (t : Transaction) : bytes :=
  lit "ALTX" ++ le 4 (tx_version t) ++ le 4 (tx_chain_id t) ++ tx_sender t
  ++ le 8 (tx_nonce t) ++ le 8 (tx_expires_at t) ++ le 1 (lane_code (tx_lane t))
  ++ encode_length (len (tx_access_list t)) ++ encode_all encode_bytes (tx_access_list t)
  ++ encode_resources (tx_resource_limit t) ++ encode_resources (tx_resource_prices t)
  ++ encode_bytes (tx_payload t).

Definition encode_transaction (t : Transaction) : bytes :=
  encode_unsigned_transaction t ++ tx_signature t.

(** Some length prefix of the transaction is beyond the encoder's range. *)
Definition encode_transaction_panics (t : Transaction) : bool :=
  encode_length_panics (len (tx_access_list t))
  || existsb (λ k, encode_length_panics (len k)) (tx_access_list t)
  || encode_length_panics (len (tx_payload t)).

Definition read_lane : read TransactionLane := λ d,
  let? (v, d) := read_u8 d in
  if v =? 0 then Ok (Payments, d)
  else if v =? 1 then Ok (Contracts, d)
  else if v =? 2 then Ok (System, d)
  else Err Unsupported.

Definition decode_transaction (bs : bytes) : result Transaction DecodeError :=
  let decoder := decoder_new bs in
  let? (magic, decoder) := read_fixed 4 decoder in
  let? _ := reject_if (negb (bool_decide (magic = lit "ALTX"))) Unsupported in
  let? (version, decoder) := read_u32 decoder in
  let? _ := reject_if (negb (version =? TRANSACTION_VERSION)) Unsupported in
  let? (chain_id, decoder) := read_u32 decoder in
  let? (sender, decoder) := read_fixed 32 decoder in
  let? (nonce, decoder) := read_u64 decoder in
  let? (expires_at, decoder) := read_u64 decoder in
  let? (lane, decoder) := read_lane decoder in
  let? (list_len, decoder) := decode_length decoder in
  let? _ := reject_if (MAX_LIST_LEN <? list_len) LimitExceeded in
  let? _ := reject_if (remaining decoder <? list_len) Truncated in
  let access_decoder := decoder in
  let? (_, decoder) := read_many (decode_bytes MAX_STATE_KEY_LEN) (Z.to_nat list_len) decoder in
  let? (resource_limit, decoder) := read_resources decoder in
  let? (resource_prices, decoder) := read_resources decoder in
  let? (payload, decoder) := decode_bytes MAX_PAYLOAD decoder in
  let? (signature, decoder) := read_fixed 64 decoder in
  let? _ := finish decoder in
  let? (access_list, _) := read_many read_state_key (Z.to_nat list_len) access_decoder in
  Ok (mkTransaction version expires_at lane resource_prices chain_id sender nonce access_list
        resource_limit payload signature).

(** ** Blocks and receipts *)

Record BlockHeader := mkHeader {
  bh_height : Z;
  bh_parent : Hash256;
  bh_transactions_root : Hash256;
  bh_state_root : Hash256;
  bh_receipts_root : Hash256;
  bh_committee_root : Hash256;
  bh_capacity : Resources
}.

#[global] Instance BlockHeader_eq_dec : EqDecision BlockHeader.
Proof. solve_decision. Defined.

Definition header_ok (h : BlockHeader) : Prop :=
  u64 (bh_height h) ∧ sized 32 (bh_parent h) ∧ sized 32 (bh_transactions_root h)
  ∧ sized 32 (bh_state_root h) ∧ sized 32 (bh_receipts_root h)
  ∧ sized 32 (bh_committee_root h) ∧ resources_ok (bh_capacity h).

(** The ten ranges [canonical_bytes] copies into its 200-byte buffer are adjacent. *)
Definition header_canonical_bytes (h : BlockHeader) : bytes :=
  le 8 (bh_height h) ++ bh_parent h ++ bh_transactions_root h ++ bh_state_root h
  ++ bh_receipts_root h ++ bh_committee_root h
  ++ le 8 (compute (bh_capacity h)) ++ le 8 (memory (bh_capacity h))
  ++ le 8 (io (bh_capacity h)) ++ le 8 (bandwidth (bh_capacity h)).

Definition read_header : read BlockHeader := λ d,
  let? (height, d) := read_u64 d in
  let? (parent, d) := read_fixed 32 d in
  let? (transactions_root, d) := read_fixed 32 d in
  let? (state_root, d) := read_fixed 32 d in
  let? (receipts_root, d) := read_fixed 32 d in
  let? (committee_root, d) := read_fixed 32 d in
  let? (capacity, d) := read_resources d in
  Ok (mkHeader height parent transactions_root state_root receipts_root committee_root capacity, d).

Definition header_decode : bytes → result BlockHeader DecodeError := complete read_header.

Definition header_hash `{!Blake2s} (h : BlockHeader) : Hash256 :=
  domain_hash domain.BLOCK_HEADER (header_canonical_bytes h).

Definition validate_parent `{!Blake2s} (h parent : BlockHeader) : bool :=
  bool_decide (checked_add 64 (bh_height parent) 1 = Some (bh_height h))
  && bool_decide (bh_parent h = header_hash parent).

Record Block := mkBlock {
  block_header : BlockHeader;
  block_transactions : list Transaction
}.

Record ExecutionReceipt := mkReceipt {
  rc_transaction : Hash256;
  rc_succeeded : bool;
  rc_resources : Resources;
  rc_output_root : Hash256
}.

#[global] Instance ExecutionReceipt_eq_dec : EqDecision ExecutionReceipt.
Proof. solve_decision. Defined.

Definition receipt_ok (r : ExecutionReceipt) : Prop :=
  sized 32 (rc_transaction r) ∧ resources_ok (rc_resources r) ∧ sized 32 (rc_output_root r).

Definition receipt_canonical_bytes (r : ExecutionReceipt) : bytes :=
  rc_transaction r ++ encode_bool (rc_succeeded r)
  ++ le 8 (compute (rc_resources r)) ++ le 8 (memory (rc_resources r))
  ++ le 8 (io (rc_resources r)) ++ le 8 (bandwidth (rc_resources r))
  ++ rc_output_root r.

Definition read_receipt : read ExecutionReceipt := λ d,
  let? (transaction, d) := read_fixed 32 d in
  let? (succeeded, d) := read_bool d in
  let? (resources, d) := read_resources d in
  let? (output_root, d) := read_fixed 32 d in
  Ok (mkReceipt transaction succeeded resources output_root, d).

Definition receipt_decode : bytes → result ExecutionReceipt DecodeError := complete read_receipt.

Definition receipt_commitment `{!Blake2s} (r : ExecutionReceipt) : Hash256 :=
  domain_hash domain.RECEIPT (receipt_canonical_bytes r).

(** ** Machine arithmetic on resources *)

Lemma checked_cost_iff (r prices : Resources) (c : Z) :
  resources_ok r → resources_ok prices →
  checked_cost r prices = Some c ↔ exact_cost r prices < 2 ^ 64 ∧ c = exact_cost r prices.
Proof.
  intros (Hc & Hm & Hi & Hb) (Pc & Pm & Pi & Pb). unfold fits in *.
  unfold checked_cost, exact_cost.
  assert (0 <= compute r * compute prices) by nia. assert (0 <= memory r * memory prices) by nia.
  assert (0 <= io r * io prices) by nia. assert (0 <= bandwidth r * bandwidth prices) by nia.
  remember (compute r * compute prices) as p1. remember (memory r * memory prices) as p2.
  remember (io r * io prices) as p3. remember (bandwidth r * bandwidth prices) as p4.
  unfold checked_mul, checked_add. rewrite <- Heqp1, <- Heqp2, <- Heqp3, <- Heqp4.
  repeat (case_test; simpl); naive_solver lia.
Qed.

(** the charge is computed exactly or refused, never wrapped. *)
Theorem checked_cost_exact (r prices : Resources) (c : Z) :
  resources_ok r → resources_ok prices →
  checked_cost r prices = Some c ↔ exact_cost r prices < 2 ^ 64 ∧ c = exact_cost r prices.
Proof. apply checked_cost_iff. Qed.

Lemma resources_checked_add_some (a b c : Resources) :
  resources_checked_add a b = Some c ↔
  compute a + compute b < 2 ^ 64 ∧ memory a + memory b < 2 ^ 64 ∧ io a + io b < 2 ^ 64
  ∧ bandwidth a + bandwidth b < 2 ^ 64
  ∧ c = mkResources (compute a + compute b) (memory a + memory b) (io a + io b)
          (bandwidth a + bandwidth b).
Proof.
  unfold resources_checked_add, checked_add. repeat (case_test; simpl); naive_solver lia.
Qed.

Lemma fits_in_iff (a b : Resources) :
  fits_in a b = true ↔ compute a <= compute b ∧ memory a <= memory b ∧ io a <= io b
                       ∧ bandwidth a <= bandwidth b.
Proof. unfold fits_in. rewrite !andb_true_iff, !Z.leb_le. tauto. Qed.

(** ** Reads of the protocol types *)

(** Close the two halves of a [Reads] instance for a record decoder [rd] whose
    encoder [enc] is the concatenation of its fields' encodings. *)
Ltac reads_record rd enc :=
  split; unfold rd, enc;
  [ let d := fresh "d" in let v := fresh "v" in let ys := fresh "ys" in
    let Hv := fresh "Hv" in let Hd := fresh "Hd" in
    intros d v ys Hv Hd; rewrite <- ?app_assoc in Hd; destruct v; simpl in *; unfold id in *;
    repeat (read_fwd; [by destruct_and?|]); close_fwd
  | let d := fresh "d" in let v := fresh "v" in let d' := fresh "d" in let zs := fresh "zs" in
    let Hd := fresh "Hd" in let H := fresh "H" in
    intros d v d' zs Hd H; bind_inv H; read_inv; simplify_eq; eexists;
    rewrite <- ?app_assoc; split; [reflexivity|by split_and?] ].

#[global] Instance reads_resources : Reads read_resources encode_resources resources_ok.
Proof. unfold resources_ok. reads_record read_resources encode_resources. Qed.

#[global] Instance reads_account : Reads read_account encode_account account_ok.
Proof. unfold account_ok. reads_record read_account encode_account. Qed.

#[global] Instance reads_state_key :
  Reads read_state_key encode_bytes (λ k, len k <= MAX_STATE_KEY_LEN).
Proof.
  split; unfold read_state_key.
  - intros d v ys Hv Hd. read_fwd; [split; [done|]|close_fwd].
    trans MAX_STATE_KEY_LEN; [done|]. by vm_compute.
  - intros d v d' zs Hd H. bind_inv H. read_inv. simplify_eq. eexists. by destruct_and?.
Qed.

#[global] Instance reads_lane : Reads read_lane (λ l, le 1 (lane_code l)) (λ _, True).
Proof.
  split; unfold read_lane.
  - intros d v ys _ Hd. read_fwd; [by destruct v|]. destruct v; close_fwd.
  - intros d v d' zs Hd H. bind_inv H. read_inv.
    repeat case_in H; simplify_eq; eexists; by split_and!.
Qed.

Lemma header_bytes_fold h :
  header_canonical_bytes h =
  le 8 (bh_height h) ++ bh_parent h ++ bh_transactions_root h ++ bh_state_root h
  ++ bh_receipts_root h ++ bh_committee_root h ++ encode_resources (bh_capacity h).
Proof. reflexivity. Qed.

Lemma receipt_bytes_fold r :
  receipt_canonical_bytes r =
  rc_transaction r ++ encode_bool (rc_succeeded r) ++ encode_resources (rc_resources r)
  ++ rc_output_root r.
Proof. unfold receipt_canonical_bytes, encode_resources. by rewrite <- !app_assoc. Qed.

#[global] Instance reads_header : Reads read_header header_canonical_bytes header_ok.
Proof.
  unfold header_ok. split; unfold read_header.
  - intros d v ys Hv Hd. rewrite header_bytes_fold in Hd. rewrite <- !app_assoc in Hd.
    destruct v; simpl in *. repeat (read_fwd; [by destruct_and?|]). close_fwd.
  - intros d v d' zs Hd H. bind_inv H. read_inv. simplify_eq. eexists.
    rewrite header_bytes_fold, <- !app_assoc. split; [reflexivity|by split_and?].
Qed.

#[global] Instance reads_receipt : Reads read_receipt receipt_canonical_bytes receipt_ok.
Proof.
  unfold receipt_ok. split; unfold read_receipt.
  - intros d v ys Hv Hd. rewrite receipt_bytes_fold in Hd. rewrite <- !app_assoc in Hd.
    destruct v; simpl in *. repeat (read_fwd; [by destruct_and?|]). close_fwd.
  - intros d v d' zs Hd H. bind_inv H. read_inv. simplify_eq. eexists.
    rewrite receipt_bytes_fold, <- !app_assoc. split; [reflexivity|by split_and?].
Qed.

(** ** Sizes *)

Lemma len_sized n bs : sized n bs → len bs = Z.of_nat n.
Proof. unfold sized, len. by intros ->. Qed.

Lemma len_encode_resources r : len (encode_resources r) = 32.
Proof. unfold encode_resources. by rewrite !len_app, !len_le. Qed.

Lemma header_bytes_len h : header_ok h → len (header_canonical_bytes h) = 200.
Proof.
  intros (_ & ? & ? & ? & ? & ? & _). rewrite header_bytes_fold, !len_app, len_le,
    len_encode_resources. by rewrite !(len_sized 32).
Qed.

Lemma receipt_bytes_len r : receipt_ok r → len (receipt_canonical_bytes r) = 97.
Proof.
  intros (? & _ & ?). rewrite receipt_bytes_fold, !len_app, len_encode_resources.
  change (len (encode_bool _)) with 1. by rewrite !(len_sized 32).
Qed.

Lemma len_encode_length_bound n : 1 <= len (encode_length n) <= 5.
Proof. unfold encode_length. case_test; rewrite len_cons, ?len_le, ?len_nil; lia. Qed.

Lemma len_encode_all_bound {A : Type} (enc : A → bytes) (k : Z) xs :
  Forall (λ x, 1 <= len (enc x) <= k) xs →
  len xs <= len (encode_all enc xs) <= k * len xs.
Proof.
  induction 1 as [|x xs Hx _ IH]; simpl; [unfold len; simpl; lia|].
  rewrite len_app, len_cons. nia.
Qed.

Lemma len_encode_keys keys :
  Forall (λ k, len k <= MAX_STATE_KEY_LEN) keys →
  len keys <= len (encode_all encode_bytes keys) <= 261 * len keys.
Proof.
  intros H. apply len_encode_all_bound. eapply Forall_impl; [exact H|]. intros k Hk.
  unfold encode_bytes. rewrite len_app. pose proof (len_encode_length_bound (len k)).
  pose proof (len_nonneg k). unfold MAX_STATE_KEY_LEN in *. lia.
Qed.

Lemma encode_transaction_len t : transaction_ok t → len (encode_transaction t) < 2 ^ 64.
Proof.
  intros (_ & _ & _ & _ & Hs & _ & Hl & Hk & _ & Hp & Hg).
  unfold encode_transaction, encode_unsigned_transaction. rewrite !len_app, !len_le,
    !len_encode_resources, (len_sized 32 (tx_sender t)), (len_sized 64 (tx_signature t)) by done.
  unfold encode_bytes at 2. rewrite len_app.
  pose proof (len_encode_length_bound (len (tx_access_list t))).
  pose proof (len_encode_length_bound (len (tx_payload t))).
  apply len_encode_keys in Hk. change (len (lit "ALTX")) with 4.
  change MAX_LIST_LEN with 1048576 in *. change MAX_PAYLOAD with 1048576 in *. lia.
Qed.

(** ** Transactions on the wire *)

Lemma read_state_key_eq d : read_state_key d = decode_bytes MAX_STATE_KEY_LEN d.
Proof. unfold read_state_key. by destruct (decode_bytes _ d) as [[]|]. Qed.

Lemma read_keys_eq n d :
  read_many read_state_key n d = read_many (decode_bytes MAX_STATE_KEY_LEN) n d.
Proof.
  revert d. induction n as [|n IH]; intros d; simpl; [done|]. rewrite read_state_key_eq.
  destruct (decode_bytes _ d) as [[]|]; [|done]. by rewrite IH.
Qed.

Lemma key_bound (k : StateKey) : len k <= MAX_STATE_KEY_LEN →
  len k <= MAX_STATE_KEY_LEN ∧ len k <= MAX_LIST_LEN.
Proof.
  intros H. split; [done|]. trans MAX_STATE_KEY_LEN; [done|]. by vm_compute.
Qed.

#[local] Existing Instance reads_many.

Lemma decode_encode_transaction t :
  transaction_ok t → decode_transaction (encode_transaction t) = Ok t.
Proof.
  intros Ht. pose proof (dview_new _ (encode_transaction_len t Ht)) as Hd.
  destruct Ht as (Hver & Hexp & Hpr & Hch & Hs & Hn & Hl & Hk & Hr & Hp & Hg).
  unfold decode_transaction. remember (decoder_new (encode_transaction t)) as d0. clear Heqd0.
  unfold encode_transaction, encode_unsigned_transaction in Hd.
  rewrite <- !app_assoc, <- (app_nil_r (tx_signature t)), Hver in Hd.
  read_fwd; [done|]. simpl. do 5 (read_fwd; [done|]). simpl.
  read_fwd; [done|]. read_fwd; [split; [apply len_nonneg|done]|].
  rewrite (proj2 (Z.ltb_ge _ _)) by done. simpl.
  pose proof (len_encode_keys _ Hk) as [HL _].
  rewrite (dview_remaining _ _ Hd), len_app, (proj2 (Z.ltb_ge _ _)) by
    (match goal with |- _ <= _ + len ?l => pose proof (len_nonneg l) end; lia). simpl.
  rewrite read_keys_eq. replace (Z.to_nat (len (tx_access_list t))) with (length (tx_access_list t))
    by (unfold len; lia).
  read_fwd; [split; [done|eapply Forall_impl; [exact Hk|apply key_bound]]|].
  do 2 (read_fwd; [done|]). read_fwd; [exact (conj Hp Hp)|].
  read_fwd; [done|]. rewrite (proj2 (finish_ok _ _ tt Hd) eq_refl).
  destruct t. simpl in *. by subst.
Qed.

Lemma decode_transaction_canonical bs t :
  len bs < 2 ^ 64 → decode_transaction bs = Ok t →
  transaction_ok t ∧ bs = encode_transaction t.
Proof.
  intros Hl H. pose proof (dview_new bs Hl) as Hd. unfold decode_transaction in H.
  bind_inv H. rewrite read_keys_eq in *.
  guards.
  bool_props. subst.
  match goal with
  | E1 : read_many ?rd ?n ?d = Ok _, E2 : read_many ?rd ?n ?d = Ok _ |- _ =>
      rewrite E1 in E2; injection E2 as ? ?; subst
  end.
  read_inv.
  match goal with E : finish _ = Ok _, V : dview _ _ |- _ => apply (finish_ok _ _ _ V) in E end.
  subst. simplify_eq. unfold transaction_ok, encode_transaction, encode_unsigned_transaction.
  destruct_and!.
  match goal with E : length ?l = Z.to_nat ?n |- _ => assert (n = len l) as -> by (unfold len; lia) end.
  split.
  - simpl. split_and?; try done. eapply Forall_impl; [eassumption|]. simpl. tauto.
  - rewrite app_nil_r, <- !app_assoc. reflexivity.
Qed.

(** ** What digests bind *)

Section binding.
Context {blake : Blake2s}.

Lemma domain_preimage_inj d1 m1 d2 m2 :
  len d1 < 2 ^ 64 → len d2 < 2 ^ 64 →
  domain_preimage d1 m1 = domain_preimage d2 m2 → d1 = d2 ∧ m1 = m2.
Proof.
  intros H1 H2 E. unfold domain_preimage in E. apply app_inv_head in E.
  apply app_inj_1 in E as [El E]; [|by rewrite !length_le].
  apply le_inj in El; [|split; auto with astro..].
  apply app_inj_1 in E; [done|]. unfold len in El. lia.
Qed.

(** Equal digests mean equal domains and messages, or an explicit collision. *)
Lemma domain_hash_binding d1 m1 d2 m2 :
  len d1 < 2 ^ 64 → len d2 < 2 ^ 64 →
  domain_hash d1 m1 = domain_hash d2 m2 →
  (d1 = d2 ∧ m1 = m2) ∨ collides (domain_preimage d1 m1) (domain_preimage d2 m2).
Proof.
  intros H1 H2 E. destruct (decide (domain_preimage d1 m1 = domain_preimage d2 m2)) as [Ep|Np].
  - left. by apply domain_preimage_inj.
  - right. by split.
Qed.

Lemma domain_hash_sized d m : sized 32 (domain_hash d m).
Proof. apply blake2s256_sized. Qed.

Lemma header_bytes_inj h1 h2 :
  header_ok h1 → header_ok h2 → header_canonical_bytes h1 = header_canonical_bytes h2 → h1 = h2.
Proof.
  intros H1 H2. apply (encode_inj read_header _ header_ok); [done..|].
  rewrite header_bytes_len by done. lia.
Qed.

Lemma header_hash_binding h1 h2 :
  header_ok h1 → header_ok h2 → header_hash h1 = header_hash h2 →
  h1 = h2 ∨ collides (domain_preimage domain.BLOCK_HEADER (header_canonical_bytes h1))
                     (domain_preimage domain.BLOCK_HEADER (header_canonical_bytes h2)).
Proof.
  intros H1 H2 E. apply domain_hash_binding in E as [[_ E]|C]; [|by right|by vm_compute..].
  left. by apply header_bytes_inj.
Qed.
End binding.

#[export] Hint Resolve domain_hash_sized : astro.

(** An executable instance of the interface, for evaluating the model on
    concrete inputs: the last 32 bytes of the message, reversed. *)
Definition checksum256 (m : bytes) : bytes := take 32 (rev_append m zero32).

Lemma checksum256_sized (m : bytes) : length (checksum256 m) = 32%nat.
Proof.
  unfold checksum256. rewrite rev_append_rev, length_take, length_app.
  change (length zero32) with 32%nat. lia.
Qed.

Definition checksum_blake2s : Blake2s :=
  {| blake2s256 := checksum256; blake2s256_sized := checksum256_sized |}.

(** ** Properties of the wire format *)

Lemma encode_never_panics t : transaction_ok t → encode_transaction_panics t = false.
Proof.
  intros (_ & _ & _ & _ & _ & _ & Hl & Hk & _ & Hp & _).
  unfold encode_transaction_panics, encode_length_panics.
  change MAX_LIST_LEN with 1048576 in *. change MAX_PAYLOAD with 1048576 in *.
  rewrite !orb_false_iff. split_and!; [lia| |lia].
  apply not_true_iff_false. rewrite existsb_exists. intros (k & Hin & Hbig).
  rewrite Forall_forall in Hk. apply list_elem_of_In, Hk in Hin.
  unfold MAX_STATE_KEY_LEN in *. lia.
Qed.

(** C1: transactions have exactly one encoding: a byte string decodes to a transaction if
    and only if the transaction is representable and the bytes are its encoding, which
    is produced without reaching the encoder's length panic.  So decoding inverts
    encoding and accepted bytes are not malleable. *)
Theorem transaction_codec (bs : bytes) (t : Transaction) :
  len bs < 2 ^ 64 →
  decode_transaction bs = Ok t ↔
  transaction_ok t ∧ encode_transaction_panics t = false ∧ bs = encode_transaction t.
Proof.
  intros Hl. split.
  - intros [Ht ->]%decode_transaction_canonical; [|done]. auto using encode_never_panics.
  - intros (Ht & _ & ->). by apply decode_encode_transaction.
Qed.

Definition sample_transaction : Transaction :=
  mkTransaction 1 100 Payments (mkResources 1 1 1 1) 7 (repeat (byte_of 5) 32) 3
    [lit "account/a"; lit "account/b"] (mkResources 10 20 30 40) (lit "payload")
    (repeat (byte_of 9) 64).

Lemma sample_transaction_ok : transaction_ok sample_transaction.
Proof.
  unfold transaction_ok, resources_ok, fits, sample_transaction; simpl.
  split_and!; try lia; try done; try (by vm_compute).
  repeat constructor; by vm_compute.
Qed.

Lemma transaction_codec_witness :
  let bs := encode_transaction sample_transaction in
  decode_transaction bs = Ok sample_transaction.
Proof.
  refine (proj2 (transaction_codec (encode_transaction sample_transaction) sample_transaction _) _); [by vm_compute|].
  split; [exact sample_transaction_ok|]. split; by vm_compute.
Defined.

Lemma checked_cost_exact_witness :
  checked_cost (mkResources 2 3 4 5) (mkResources 10 10 10 1) = Some 95.
Proof.
  apply (checked_cost_exact (mkResources 2 3 4 5) (mkResources 10 10 10 1) 95);
    [unfold resources_ok, fits; simpl; lia..|]. by vm_compute.
Defined.
