(* ===== verification/Crypto.v ===== *)
(** * Crypto: signatures, key registries, batches and Merkle roots ([src/crates/crypto])

    [Ed25519] is the interface of the third-party [ed25519-dalek] crate.  On top
    of it: strict verification, the registry of validator keys, the in-memory
    keystore with its anti-equivocation table, the parallel batch verifier and
    the binary Merkle root of transactions and receipts. *)

From S2P Require Import Prelude Ordered Codec Types.

(** ** The signature crate *)

(** [VerifyingKey::from_bytes], [to_bytes], [to_edwards().compress()], [is_weak],
    [verify_strict], and [SigningKey] by its 32-byte seed.  A key remembers the
    bytes it was parsed from; a key derived from a seed is strong and canonical,
    and strict verification accepts what that seed signs. *)
Class Ed25519 := {
  VerifyingKey : Type;
  vk_from_bytes : bytes → option VerifyingKey;
  vk_to_bytes : VerifyingKey → bytes;
  vk_compress : VerifyingKey → bytes;
  vk_is_weak : VerifyingKey → bool;
  verify_strict : VerifyingKey → bytes → bytes → bool;
  sk_public : bytes → bytes;
  sk_sign : bytes → bytes → bytes;
  vk_to_from_bytes : ∀ b k, vk_from_bytes b = Some k → vk_to_bytes k = b;
  sk_public_sized : ∀ seed, sized 32 (sk_public seed);
  sk_sign_sized : ∀ seed m, sized 64 (sk_sign seed m);
  sk_public_strong : ∀ seed, ∃ k,
    vk_from_bytes (sk_public seed) = Some k ∧ vk_is_weak k = false
    ∧ vk_compress k = sk_public seed
    ∧ ∀ m, verify_strict k m (sk_sign seed m) = true
}.

(** What the host decides about threads: the parallelism it reports and which
    spawns succeed. *)
Class Host := {
  available_parallelism : option nat;
  spawn_ok : nat → bool
}.

Inductive CryptoError :=
| KeyNotFound
| DuplicateKey
| WrongPurpose
| EquivocationDetected
| InvalidSignature
| InvalidVrfProof
| InvalidPublicKey
| InvalidSeed.

(** ** Hashing and verification *)

Definition blake2s `{!Blake2s} (data : bytes) : Hash256 := blake2s256 data.

Definition derive_key `{!Blake2s} (seed domain : bytes) : bytes :=
  blake2s256 (lit "astrolune.key.derive.v1." ++ le 8 (len domain) ++ domain
              ++ le 8 (len seed) ++ seed).

Section ed25519.
Context {blake : Blake2s} {ed : Ed25519}.

Definition ed25519_public_key (secret_key : bytes) : bytes := sk_public secret_key.

Definition ed25519_sign (secret_key message : bytes) : bytes := sk_sign secret_key message.

Definition ed25519_verify (public_key message signature : bytes) : bool :=
  match vk_from_bytes public_key with
  | Some key => bool_decide (vk_compress key = public_key) && verify_strict key message signature
  | None => false
  end.

(** *** [Blake2sProvider] *)

Definition Blake2sProvider : Type := BTreeMap ValidatorId VerifyingKey.

Definition provider_new : Blake2sProvider := [].

Definition register_validator (p : Blake2sProvider) (public_key : bytes)
    : result (ValidatorId * Blake2sProvider) CryptoError :=
  let? key := ok_or (vk_from_bytes public_key) InvalidPublicKey in
  let? _ := reject_if (vk_is_weak key || negb (bool_decide (vk_compress key = public_key)))
              InvalidPublicKey in
  let id := blake2s public_key in
  Ok (id, bt_insert id key p).

Definition registered_key (p : Blake2sProvider) (validator : ValidatorId) : option bytes :=
  option_map vk_to_bytes (bt_get validator p).

Definition verify_signature (p : Blake2sProvider) (signer : ValidatorId) (message signature : bytes)
    : bool :=
  match bt_get signer p with
  | Some key => verify_strict key message signature
  | None => false
  end.

(** Registries built by [register_validator]: ordered, and each identity is the
    hash of a canonical encoding that parses back to the stored key. *)
Definition provider_ok (p : Blake2sProvider) : Prop :=
  bt_ok p ∧ ∀ id key, bt_get id p = Some key →
    id = blake2s (vk_to_bytes key) ∧ vk_from_bytes (vk_to_bytes key) = Some key
    ∧ vk_compress key = vk_to_bytes key ∧ vk_is_weak key = false.

(** *** [Ed25519Keystore] *)

Record KeyEntry := mkKeyEntry {
  ke_signing_key : bytes;
  ke_public_key : bytes;
  ke_validator_id : ValidatorId
}.

Record Ed25519Keystore := mkKeystore {
  ks_keys : BTreeMap bytes KeyEntry;
  ks_signed_positions : BTreeMap (bytes * Z * Z * Z) Hash256
}.

Definition keystore_new : Ed25519Keystore := mkKeystore [] [].

Definition generate_key (ks : Ed25519Keystore) (key_id seed : bytes)
    : result (bytes * Ed25519Keystore) CryptoError :=
  let? _ := reject_if (bt_contains key_id (ks_keys ks)) DuplicateKey in
  let secret_key := derive_key seed (lit "ed25519." ++ key_id) in
  let public_key := sk_public secret_key in
  let entry := mkKeyEntry secret_key public_key (blake2s public_key) in
  Ok (key_id, mkKeystore (bt_insert key_id entry (ks_keys ks)) (ks_signed_positions ks)).

Definition keystore_sign (ks : Ed25519Keystore) (key_id message : bytes)
    : result bytes CryptoError :=
  let? entry := ok_or (bt_get key_id (ks_keys ks)) KeyNotFound in
  Ok (sk_sign (ke_signing_key entry) message).

Definition sign_at_position (ks : Ed25519Keystore) (key_id : bytes) (height round phase : Z)
    (message_hash : Hash256) : result (bytes * Ed25519Keystore) CryptoError :=
  let pos_key := (key_id, height, round, phase) in
  let? _ := match bt_get pos_key (ks_signed_positions ks) with
            | Some existing =>
                reject_if (negb (bool_decide (existing = message_hash))) EquivocationDetected
            | None => Ok tt
            end in
  let? entry := ok_or (bt_get key_id (ks_keys ks)) KeyNotFound in
  Ok (sk_sign (ke_signing_key entry) message_hash,
      mkKeystore (ks_keys ks) (bt_insert pos_key message_hash (ks_signed_positions ks))).

Definition keystore_verify (ks : Ed25519Keystore) (validator_id : ValidatorId)
    (message signature : bytes) : result bool CryptoError :=
  match List.find (λ e, bool_decide (ke_validator_id e = validator_id)) (bt_values (ks_keys ks)) with
  | Some entry => Ok (ed25519_verify (ke_public_key entry) message signature)
  | None => Err KeyNotFound
  end.
End ed25519.

(** ** Bounded parallel batches *)

Definition MAX_VERIFY_WORKERS : nat := 32.
Definition MIN_PARALLEL_REQUESTS : nat := 8.

(** [Iterator::position]. *)
Fixpoint position {A : Type} (p : A → bool) (xs : list A) : option nat :=
  match xs with
  | [] => None
  | x :: xs' => if p x then Some O else option_map S (position p xs')
  end.

(** [slice::chunks]. *)
Fixpoint chunks_of {A : Type} (fuel n : nat) (xs : list A) : list (list A) :=
  match fuel, xs with
  | S fuel', _ :: _ => take n xs :: chunks_of fuel' n (drop n xs)
  | _, _ => []
  end.

Definition chunks {A : Type} (n : nat) (xs : list A) : list (list A) := chunks_of (length xs) n xs.

Definition div_ceil (a b : nat) : nat := ((a + b - 1) / b)%nat.

Definition lower (left right : option nat) : option nat :=
  match left, right with
  | Some a, Some b => Some (a `min` b)%nat
  | Some a, None => Some a
  | None, Some b => Some b
  | None, None => None
  end.

Section batch.
Context {A : Type} (verify : A → bool).

Definition chunk_failure (requests : list A) (base : nat) : option nat :=
  option_map (λ offset, (base + offset)%nat) (position (λ r, negb (verify r)) requests).

(** Workers of the chunks behind the first, joined in order; [panics] tells
    which of them panicked. *)
Fixpoint join_workers (panics : nat → bool) (chunk index : nat) (parts : list (list A))
    (failure : option nat) : option nat :=
  match parts with
  | [] => failure
  | part :: parts' =>
      let base := (index * chunk)%nat in
      let joined := if panics index then Some base else chunk_failure part base in
      join_workers panics chunk (S index) parts' (lower failure joined)
  end.

Definition first_failure (spawns panics : nat → bool) (requests : list A) (workers : nat)
    : option nat :=
  let workers := Nat.min (Nat.min workers MAX_VERIFY_WORKERS) (length requests) in
  if (workers <? 2)%nat || (length requests <? MIN_PARALLEL_REQUESTS)%nat
  then chunk_failure requests 0
  else
    let chunk := div_ceil (length requests) workers in
    match chunks chunk requests with
    | [] => None
    | first :: rest =>
        if forallb spawns (seq 1 (length rest))
        then join_workers panics chunk 1 rest (chunk_failure first 0)
        else chunk_failure requests 0
    end.

End batch.

Record DigestRequest := mkDigestRequest {
  dr_public_key : bytes;
  dr_digest : bytes;
  dr_signature : bytes
}.

Definition digest_verify `{!Ed25519} (r : DigestRequest) : bool :=
  ed25519_verify (dr_public_key r) (dr_digest r) (dr_signature r).

Definition suggested_workers `{!Host} (requests : nat) : nat :=
  if (requests <? MIN_PARALLEL_REQUESTS)%nat then 1%nat
  else Nat.max (Nat.min (Nat.min (default 1%nat available_parallelism) MAX_VERIFY_WORKERS) requests) 1.

(** Verification is pure, so its workers do not panic. *)
Definition first_digest_failure `{!Ed25519, !Host} (requests : list DigestRequest) : option nat :=
  first_failure digest_verify spawn_ok (λ _, false) requests (suggested_workers (length requests)).

(** ** Merkle roots of transactions and receipts *)

(** The 69-byte interior buffer; its last four bytes stay zero. *)
Definition merkle_node_data (left right : Hash256) : bytes :=
  byte_of 1 :: left ++ right ++ repeat (byte_of 0) 4.

Section merkle.
Context {blake : Blake2s}.

(** One pass of the [while] loop: pairs are hashed, an odd element is promoted. *)
Fixpoint merkle_level (current : list Hash256) : list Hash256 :=
  match current with
  | a :: b :: rest => blake2s (merkle_node_data a b) :: merkle_level rest
  | _ => current
  end.

Fixpoint merkle_loop (fuel : nat) (current : list Hash256) : Hash256 :=
  match fuel, current with
  | S fuel', _ :: _ :: _ => merkle_loop fuel' (merkle_level current)
  | _, root :: _ => root
  | _, [] => zero32
  end.

Definition merkle_root (leaves : list Hash256) : Hash256 :=
  match leaves with
  | [] => zero32
  | [leaf] => leaf
  | _ => merkle_loop (length leaves) leaves
  end.

Definition compute_receipts_root (commitments : list Hash256) : Hash256 := merkle_root commitments.
Definition compute_transactions_root (tx_hashes : list Hash256) : Hash256 := merkle_root tx_hashes.

(** Every buffer hashed while the root of [leaves] is computed. *)
Fixpoint level_data (current : list Hash256) : list bytes :=
  match current with
  | a :: b :: rest => merkle_node_data a b :: level_data rest
  | _ => []
  end.

Fixpoint merkle_data (fuel : nat) (current : list Hash256) : list bytes :=
  match fuel, current with
  | S fuel', _ :: _ :: _ => level_data current ++ merkle_data fuel' (merkle_level current)
  | _, _ => []
  end.
End merkle.

(** ** The batch verifier decides like the serial one *)

Lemma position_app {A : Type} (p : A → bool) xs ys :
  position p (xs ++ ys) =
  match position p xs with
  | Some i => Some i
  | None => option_map (λ j, (length xs + j)%nat) (position p ys)
  end.
Proof.
  induction xs as [|x xs IH]; simpl; [by destruct (position p ys)|].
  destruct (p x); [done|]. rewrite IH.
  destruct (position p xs); [done|]. by destruct (position p ys).
Qed.

Lemma position_lt {A : Type} (p : A → bool) xs i : position p xs = Some i → (i < length xs)%nat.
Proof.
  revert i. induction xs as [|x xs IH]; intros i; simpl; [done|].
  destruct (p x); [intros [= <-]; lia|]. destruct (position p xs) as [j|]; [|done].
  intros [= <-]. specialize (IH j eq_refl). lia.
Qed.

Lemma position_none_all {A : Type} (p : A → bool) xs :
  position (λ x, negb (p x)) xs = None ↔ Forall (λ x, p x = true) xs.
Proof.
  induction xs as [|x xs IH]; simpl; [by split; [constructor|]|].
  rewrite Forall_cons, <- IH. destruct (p x); simpl; [|naive_solver].
  destruct (position _ xs); naive_solver.
Qed.

Section batch_facts.
Context {A : Type} (verify : A → bool).
Implicit Types (xs requests : list A).

Lemma chunk_failure_app xs ys base :
  chunk_failure verify (xs ++ ys) base =
  lower (chunk_failure verify xs base) (chunk_failure verify ys (base + length xs)).
Proof.
  unfold chunk_failure. rewrite position_app.
  destruct (position _ xs) as [i|] eqn:E; simpl.
  - apply position_lt in E. destruct (position _ ys); simpl; f_equal; lia.
  - destruct (position _ ys); simpl; f_equal; lia.
Qed.

Lemma lower_assoc a b c : lower (lower a b) c = lower a (lower b c).
Proof. destruct a, b, c; simpl; f_equal; lia. Qed.

Lemma join_workers_chunks n fuel xs index failure :
  (0 < n)%nat → (length xs <= fuel)%nat →
  join_workers verify (λ _, false) n index (chunks_of fuel n xs) failure =
  lower failure (chunk_failure verify xs (index * n)).
Proof.
  intros Hn. revert xs index failure.
  induction fuel as [|fuel IH]; intros [|x xs] index failure Hf; simpl in Hf; try lia;
    try (by destruct failure).
  simpl chunks_of. cbn [join_workers]. rewrite IH by (rewrite length_drop; simpl; lia).
  rewrite lower_assoc. f_equal. rewrite <- (take_drop n (x :: xs)) at 3.
  rewrite chunk_failure_app. f_equal.
  destruct (decide (n <= length (x :: xs))%nat) as [Hle|Hgt].
  - rewrite length_take. f_equal. lia.
  - by rewrite drop_ge by lia.
Qed.

Lemma join_workers_none panics n parts index failure :
  join_workers verify panics n index parts failure = None →
  failure = None ∧ Forall (Forall (λ r, verify r = true)) parts.
Proof.
  revert index failure. induction parts as [|part parts IH]; intros index failure; simpl; [done|].
  intros [H1 H2]%IH. destruct (panics index); [by destruct failure|].
  destruct failure, (chunk_failure verify part _) eqn:E; try done. split; [done|].
  constructor; [|done]. apply position_none_all. unfold chunk_failure in E.
  by destruct (position _ part).
Qed.

Lemma concat_chunks fuel n xs :
  (0 < n)%nat → (length xs <= fuel)%nat → concat (chunks_of fuel n xs) = xs.
Proof.
  intros Hn. revert xs. induction fuel as [|fuel IH]; intros [|x xs] Hf; simpl in Hf; try lia;
    [done..|].
  simpl chunks_of. cbn [concat]. rewrite IH by (rewrite length_drop; simpl; lia).
  apply take_drop.
Qed.

Lemma div_ceil_pos a b : (0 < a → 0 < b → 0 < div_ceil a b)%nat.
Proof. intros Ha Hb. unfold div_ceil. apply Nat.div_str_pos. lia. Qed.

Lemma chunk_failure_serial requests :
  chunk_failure verify requests 0 = position (λ r, negb (verify r)) requests.
Proof. unfold chunk_failure. by destruct (position _ requests). Qed.

Lemma first_failure_serial_eq spawns requests workers :
  first_failure verify spawns (λ _, false) requests workers =
  position (λ r, negb (verify r)) requests.
Proof.
  rewrite <- chunk_failure_serial. unfold first_failure. cbn zeta.
  destruct (_ || _) eqn:E; [done|]. apply orb_false_iff in E as [E1 E2].
  apply Nat.ltb_ge in E1, E2. unfold MIN_PARALLEL_REQUESTS in E2.
  set (w := Nat.min _ _) in *. set (n := div_ceil _ w).
  assert (0 < n)%nat as Hn by (apply div_ceil_pos; lia).
  unfold chunks. destruct requests as [|r rs] eqn:Er; [simpl in *; lia|]. simpl chunks_of. cbv beta iota.
  destruct (forallb spawns _); [|done].
  rewrite join_workers_chunks by (simpl in *; rewrite ?length_drop; simpl; lia).
  rewrite <- (take_drop n (r :: rs)) at 3. rewrite chunk_failure_app. f_equal.
  destruct (decide (n <= length (r :: rs))%nat).
  - rewrite length_take. f_equal. lia.
  - by rewrite drop_ge by lia.
Qed.

Lemma first_failure_none spawns panics requests workers :
  first_failure verify spawns panics requests workers = None →
  Forall (λ r, verify r = true) requests.
Proof.
  assert (chunk_failure verify requests 0 = None → Forall (λ r, verify r = true) requests) as Hs
    by (rewrite chunk_failure_serial; apply position_none_all).
  unfold first_failure. cbn zeta. destruct (_ || _) eqn:E; [done|].
  apply orb_false_iff in E as [E1 E2]. apply Nat.ltb_ge in E1, E2.
  unfold MIN_PARALLEL_REQUESTS in E2.
  set (w := Nat.min _ _) in *. set (n := div_ceil _ w).
  assert (0 < n)%nat as Hn by (apply div_ceil_pos; lia).
  pose proof (concat_chunks (length requests) n requests Hn ltac:(lia)) as Hc. unfold chunks.
  destruct (chunks_of _ n requests) as [|first rest]; [by rewrite <- Hc|].
  destruct (forallb spawns _); [|done]. intros [H1 H2]%join_workers_none.
  rewrite <- Hc. simpl. apply Forall_app. split.
  - apply position_none_all. unfold chunk_failure in H1. by destruct (position _ first).
  - by apply Forall_concat.
Qed.

(** the parallel batch verifier reports exactly the index the serial scan
    reports, for every worker count, chunk layout and pattern of failed spawns; and
    when workers may panic it still accepts a batch only if every request verifies. *)
Theorem first_failure_serial (spawns panics : nat → bool) (requests : list A) (workers : nat) :
  first_failure verify spawns (λ _, false) requests workers
    = position (λ r, negb (verify r)) requests
  ∧ (first_failure verify spawns panics requests workers = None →
     Forall (λ r, verify r = true) requests).
Proof. split; [apply first_failure_serial_eq|apply first_failure_none]. Qed.
End batch_facts.

Lemma first_digest_failure_none `{!Ed25519, !Host} (requests : list DigestRequest) :
  first_digest_failure requests = None ↔ Forall (λ r, digest_verify r = true) requests.
Proof.
  unfold first_digest_failure. rewrite first_failure_serial_eq. apply position_none_all.
Qed.

(** ** Key registries *)

Section provider_facts.
Context {blake : Blake2s} {ed : Ed25519}.

Lemma provider_ok_new : provider_ok provider_new.
Proof. split; [apply bt_ok_nil|done]. Qed.

Lemma register_validator_ok p pk id p' :
  provider_ok p → register_validator p pk = Ok (id, p') →
  provider_ok p' ∧ id = blake2s pk ∧ registered_key p' id = Some pk.
Proof.
  intros [Hs Hp] H. unfold register_validator in H. bind_inv H.
  apply ok_or_ok in E. apply reject_if_ok in E0. bool_props. subst id p'.
  pose proof (vk_to_from_bytes _ _ E) as Hb. split_and!; [split| |].
  - by apply bt_ok_insert.
  - intros id' key'. destruct (decide (id' = blake2s pk)) as [->|Hne].
    + rewrite bt_get_insert_eq. intros [= <-]. by rewrite Hb.
    + rewrite bt_get_insert_ne by done. apply Hp.
  - done.
  - unfold registered_key. rewrite bt_get_insert_eq. simpl. by rewrite Hb.
Qed.

Lemma register_validator_get p pk id p' id' :
  register_validator p pk = Ok (id, p') → id' ≠ id → bt_get id' p' = bt_get id' p.
Proof.
  intros H Hne. unfold register_validator in H. bind_inv H. simplify_eq.
  by apply bt_get_insert_ne.
Qed.

Lemma verify_signature_key p id m s :
  provider_ok p →
  verify_signature p id m s =
  match registered_key p id with Some pk => ed25519_verify pk m s | None => false end.
Proof.
  intros [_ Hp]. unfold verify_signature, registered_key, ed25519_verify.
  destruct (bt_get id p) as [key|] eqn:E; simpl; [|done].
  apply Hp in E as (_ & -> & Hc & _). by rewrite bool_decide_eq_true_2.
Qed.

(** Registries reachable from the empty one. *)
Inductive provider_reach : Blake2sProvider → Prop :=
| reach_new : provider_reach provider_new
| reach_register p pk id p' :
    provider_reach p → register_validator p pk = Ok (id, p') → provider_reach p'.

Lemma provider_reach_ok p : provider_reach p → provider_ok p.
Proof. induction 1; [apply provider_ok_new|by eapply register_validator_ok]. Qed.

(** For every registry built by [register_validator], verifying against the
    bytes returned by [registered_key] decides exactly like [verify_signature], so
    the batched certificate checks and the direct check accept the same signatures. *)
Lemma registered_key_decides (p : Blake2sProvider) (id m s : bytes) :
  provider_reach p →
  verify_signature p id m s =
  match registered_key p id with Some pk => ed25519_verify pk m s | None => false end.
Proof. intros H. by apply verify_signature_key, provider_reach_ok. Qed.

(** *** The in-memory keystore *)

Inductive keystore_step : Ed25519Keystore → Ed25519Keystore → Prop :=
| step_generate ks key_id seed id ks' :
    generate_key ks key_id seed = Ok (id, ks') → keystore_step ks ks'
| step_sign_at ks key_id h r ph m sig ks' :
    sign_at_position ks key_id h r ph m = Ok (sig, ks') → keystore_step ks ks'.

Lemma sign_at_position_spec ks key_id h r ph m sig ks' :
  sign_at_position ks key_id h r ph m = Ok (sig, ks') →
  (∀ m', bt_get (key_id, h, r, ph) (ks_signed_positions ks) = Some m' → m' = m)
  ∧ ks_signed_positions ks' = bt_insert (key_id, h, r, ph) m (ks_signed_positions ks).
Proof.
  intros H. unfold sign_at_position in H. bind_inv H. simplify_eq. split; [|done].
  intros m' Hm. rewrite Hm in E. apply reject_if_ok in E. by bool_props.
Qed.

Lemma keystore_step_keeps ks ks' pos m :
  keystore_step ks ks' → bt_get pos (ks_signed_positions ks) = Some m →
  bt_get pos (ks_signed_positions ks') = Some m.
Proof.
  intros [? key_id seed id ? H|? key_id h r ph m' sig ? H] Hm.
  - unfold generate_key in H. bind_inv H. by simplify_eq.
  - apply sign_at_position_spec in H as [Heq ->].
    destruct (decide (pos = (key_id, h, r, ph))) as [->|Hne].
    + rewrite bt_get_insert_eq. f_equal. symmetry. by apply Heq.
    + by rewrite bt_get_insert_ne.
Qed.

(** C2: the in-memory keystore never signs two different digests at one
    (key, height, round, phase), whatever operations happen in between. *)
Theorem keystore_no_equivocation ks key_id h r ph m1 sig1 ks1 ks2 m2 sig2 ks3 :
  sign_at_position ks key_id h r ph m1 = Ok (sig1, ks1) →
  rtc keystore_step ks1 ks2 →
  sign_at_position ks2 key_id h r ph m2 = Ok (sig2, ks3) →
  m1 = m2.
Proof.
  intros [_ H1]%sign_at_position_spec Hr [H2 _]%sign_at_position_spec. apply H2.
  assert (bt_get (key_id, h, r, ph) (ks_signed_positions ks1) = Some m1) as Hm
    by (rewrite H1; apply bt_get_insert_eq).
  clear H1 H2. induction Hr; [done|]. eauto using keystore_step_keeps.
Qed.
End provider_facts.

(** ** Merkle roots bind their leaves *)

Section merkle_facts.
Context {blake : Blake2s}.
Implicit Types (l : list Hash256).

(** Induction two leaves at a time, as the level loop proceeds. *)
Lemma pair_ind (P : list Hash256 → Prop) :
  P [] → (∀ a, P [a]) → (∀ a b l, P l → P (a :: b :: l)) → ∀ l, P l.
Proof.
  intros H0 H1 H2 l. enough (P l ∧ ∀ a, P (a :: l)) by tauto.
  induction l as [|b l [IH1 IH2]]; [by auto|]. split; [done|]. intros a. by apply H2.
Qed.

Lemma merkle_node_data_inj a1 b1 a2 b2 :
  sized 32 a1 → sized 32 b1 → sized 32 a2 → sized 32 b2 →
  merkle_node_data a1 b1 = merkle_node_data a2 b2 → a1 = a2 ∧ b1 = b2.
Proof.
  intros Ha1 Hb1 Ha2 Hb2 [= E]. unfold sized in *. apply app_inj_1 in E as [-> E]; [|congruence].
  by apply app_inj_1 in E as [-> _]; [|congruence].
Qed.

Lemma merkle_level_length l : (length (merkle_level l) = Nat.div2 (S (length l)))%nat.
Proof. induction l as [|a|a b l IH] using pair_ind; simpl; [done..|]. by rewrite IH. Qed.

Lemma merkle_level_shrinks l : (2 <= length l → length (merkle_level l) < length l)%nat.
Proof.
  intros H. rewrite merkle_level_length, Nat.div2_div.
  apply Nat.Div0.div_lt_upper_bound. lia.
Qed.

Lemma merkle_level_sized l : Forall (sized 32) l → Forall (sized 32) (merkle_level l).
Proof.
  induction l as [|a|a b l IH] using pair_ind; simpl; [done..|].
  intros (_ & (_ & H)%Forall_cons)%Forall_cons.
  constructor; [apply blake2s256_sized|auto].
Qed.

(** Two different hashed buffers, one per list, with the same digest. *)
Definition data_collide (d1 d2 : list bytes) : Prop :=
  ∃ x y, x ∈ d1 ∧ y ∈ d2 ∧ collides x y.

Lemma data_collide_app d1 d1' d2 d2' :
  data_collide d1 d2 ∨ data_collide d1' d2' → data_collide (d1 ++ d1') (d2 ++ d2').
Proof. intros [(x & y & ? & ? & ?)|(x & y & ? & ? & ?)]; exists x, y; rewrite !elem_of_app; auto. Qed.

Lemma merkle_level_binds l1 l2 :
  length l1 = length l2 → Forall (sized 32) l1 → Forall (sized 32) l2 →
  merkle_level l1 = merkle_level l2 → l1 = l2 ∨ data_collide (level_data l1) (level_data l2).
Proof.
  revert l2. induction l1 as [|a1|a1 b1 l1 IH] using pair_ind;
    intros [|a2 [|b2 l2]] Hl H1 H2 E; simpl in *; simplify_eq; auto.
  apply Forall_cons in H1 as (Ha1 & (Hb1 & H1)%Forall_cons).
  apply Forall_cons in H2 as (Ha2 & (Hb2 & H2)%Forall_cons).
  destruct (decide (merkle_node_data a1 b1 = merkle_node_data a2 b2)) as [En|Nn].
  - apply merkle_node_data_inj in En as [-> ->]; [|done..].
    destruct (IH l2) as [->|(x & y & Hx & Hy & Hc)]; [done..|by left|right].
    exists x, y. rewrite !elem_of_cons. auto.
  - right. exists (merkle_node_data a1 b1), (merkle_node_data a2 b2).
    rewrite !elem_of_cons. unfold collides. auto.
Qed.

Lemma merkle_loop_binds fuel l1 l2 :
  (length l1 <= S fuel)%nat → length l1 = length l2 →
  Forall (sized 32) l1 → Forall (sized 32) l2 →
  merkle_loop fuel l1 = merkle_loop fuel l2 →
  l1 = l2 ∨ data_collide (merkle_data fuel l1) (merkle_data fuel l2).
Proof.
  revert l1 l2. induction fuel as [|fuel IH]; intros l1 l2 Hf Hl H1 H2.
  - destruct l1 as [|a1 [|]], l2 as [|a2 [|]]; simpl in *; try lia; [by left|].
    intros ->. by left.
  - destruct l1 as [|a1 [|b1 l1]], l2 as [|a2 [|b2 l2]]; simpl in Hl; try lia; [by left| |].
    { simpl. intros ->. by left. }
    cbn [merkle_loop merkle_data]. intros E.
    pose proof (merkle_level_shrinks (a1 :: b1 :: l1) ltac:(simpl; lia)).
    destruct (IH (merkle_level (a1 :: b1 :: l1)) (merkle_level (a2 :: b2 :: l2)))
      as [El|Hc]; auto using merkle_level_sized.
    + simpl in *. lia.
    + rewrite !merkle_level_length. simpl. injection Hl as Hl. by rewrite Hl.
    + apply merkle_level_binds in El as [?|?]; [by left| |simpl; lia|done..].
      right. apply data_collide_app. by left.
    + right. apply data_collide_app. by right.
Qed.

(** The tree that the levels build over their elements. *)
Inductive merkle_tree :=
| MerkleLeaf (leaf : Hash256)
| MerkleNode (left right : merkle_tree).

Fixpoint tree_root (t : merkle_tree) : Hash256 :=
  match t with MerkleLeaf leaf => leaf | MerkleNode l r => blake2s (merkle_node_data (tree_root l) (tree_root r)) end.
Fixpoint tree_leaves (t : merkle_tree) : list Hash256 :=
  match t with MerkleLeaf leaf => [leaf] | MerkleNode l r => tree_leaves l ++ tree_leaves r end.
Fixpoint tree_data (t : merkle_tree) : list bytes :=
  match t with
  | MerkleLeaf _ => []
  | MerkleNode l r => merkle_node_data (tree_root l) (tree_root r) :: tree_data l ++ tree_data r
  end.
Fixpoint tree_level (ts : list merkle_tree) : list merkle_tree :=
  match ts with a :: b :: rest => MerkleNode a b :: tree_level rest | _ => ts end.

Lemma tree_pair_ind (P : list merkle_tree → Prop) :
  P [] → (∀ a, P [a]) → (∀ a b ts, P ts → P (a :: b :: ts)) → ∀ ts, P ts.
Proof.
  intros H0 H1 H2 ts. enough (P ts ∧ ∀ a, P (a :: ts)) by tauto.
  induction ts as [|b ts [IH1 IH2]]; [by auto|]. split; [done|]. intros a. by apply H2.
Qed.

Lemma tree_level_facts ts :
  map tree_root (tree_level ts) = merkle_level (map tree_root ts)
  ∧ concat (map tree_leaves (tree_level ts)) = concat (map tree_leaves ts)
  ∧ concat (map tree_data (tree_level ts)) ≡ₚ level_data (map tree_root ts) ++ concat (map tree_data ts).
Proof.
  induction ts as [|a|a b ts (IH1 & IH2 & IH3)] using tree_pair_ind; [done..|].
  cbn. split_and!; [by rewrite IH1|by rewrite IH2, <- app_assoc|]. rewrite IH3. constructor.
  by rewrite (Permutation_app_swap_app (_ ++ _)), <- !app_assoc.
Qed.

Lemma tree_loop fuel ts :
  ts ≠ [] → (length ts <= S fuel)%nat →
  ∃ t, tree_root t = merkle_loop fuel (map tree_root ts) ∧ tree_leaves t = concat (map tree_leaves ts)
    ∧ tree_data t ≡ₚ merkle_data fuel (map tree_root ts) ++ concat (map tree_data ts).
Proof.
  revert ts. induction fuel as [|fuel IH]; intros [|a [|b ts]] Hne Hl; cbn in Hl; try done; try lia.
  1,2: exists a; cbn; by rewrite !app_nil_r.
  destruct (tree_level_facts (a :: b :: ts)) as (Hr & Hv & Hd).
  destruct (IH (tree_level (a :: b :: ts))) as (t & Ht & Htl & Htd); [done| |].
  { pose proof (merkle_level_shrinks (map tree_root (a :: b :: ts)) ltac:(cbn; lia)) as Hs.
    rewrite <- Hr, !length_map in Hs. cbn in *. lia. }
  exists t. rewrite Hr in Ht, Htd. split; [exact Ht|]. split; [by rewrite Htl, Hv|].
  rewrite Htd, Hd. cbn [merkle_data map]. rewrite (app_assoc (merkle_data _ _)), (Permutation_app_comm (merkle_data _ _)). done.
Qed.

(** A leaf that is the digest of an interior buffer. *)
Definition leaf_is_node (leaves : list Hash256) (data : list bytes) : Prop :=
  ∃ leaf d, leaf ∈ leaves ∧ d ∈ data ∧ leaf = blake2s d.

#[local] Instance data_collide_proper : Proper ((≡ₚ) ==> (≡ₚ) ==> iff) data_collide.
Proof. intros d1 d1' E1 d2 d2' E2. unfold data_collide. setoid_rewrite E1. by setoid_rewrite E2. Qed.
#[local] Instance leaf_is_node_proper l : Proper ((≡ₚ) ==> iff) (leaf_is_node l).
Proof. intros d d' E. unfold leaf_is_node. by setoid_rewrite E. Qed.

Lemma tree_root_sized t : Forall (sized 32) (tree_leaves t) → sized 32 (tree_root t).
Proof. destruct t; cbn; [by intros [? _]%Forall_cons|intros _; apply blake2s256_sized]. Qed.

Lemma tree_binds t1 t2 :
  Forall (sized 32) (tree_leaves t1) → Forall (sized 32) (tree_leaves t2) → tree_root t1 = tree_root t2 →
  tree_leaves t1 = tree_leaves t2 ∨ data_collide (tree_data t1) (tree_data t2)
  ∨ leaf_is_node (tree_leaves t1) (tree_data t2) ∨ leaf_is_node (tree_leaves t2) (tree_data t1).
Proof.
  revert t2. induction t1 as [h1|l1 IHl r1 IHr]; intros [h2|l2 r2] H1 H2 E; cbn in *; [left; by rewrite E|..].
  - do 2 right. left. exists h1, (merkle_node_data (tree_root l2) (tree_root r2)). set_solver.
  - do 3 right. exists h2, (merkle_node_data (tree_root l1) (tree_root r1)). set_solver.
  - apply Forall_app in H1 as [Hl1 Hr1]. apply Forall_app in H2 as [Hl2 Hr2].
    destruct (decide (merkle_node_data (tree_root l1) (tree_root r1) = merkle_node_data (tree_root l2) (tree_root r2))) as [En|Nn].
    2:{ right. left. do 2 eexists. split; [by left|]. split; [by left|done]. }
    apply merkle_node_data_inj in En as [El Er]; [|by apply tree_root_sized..].
    unfold data_collide, leaf_is_node in *. specialize (IHl l2 Hl1 Hl2 El). specialize (IHr r2 Hr1 Hr2 Er).
    destruct IHl as [->|IHl]; [destruct IHr as [->|IHr]; [by left|]|]; right; set_solver.
Qed.

Lemma loop_tree l :
  l ≠ [] → ∃ t, tree_root t = merkle_root l ∧ tree_leaves t = l ∧ tree_data t ≡ₚ merkle_data (length l) l.
Proof.
  intros Hl. destruct (tree_loop (length l) (map MerkleLeaf l)) as (t & Hr & Hv & Hd).
  { by destruct l. }
  { rewrite length_map. lia. }
  exists t. assert (map tree_root (map MerkleLeaf l) = l) as Hm by (rewrite map_map; apply map_id). rewrite Hm in Hr, Hd.
  assert (concat (map tree_leaves (map MerkleLeaf l)) = l) as Hc by (clear; induction l as [|x l IH]; cbn; [done|by f_equal]).
  assert (concat (map tree_data (map MerkleLeaf l)) = []) as Hn by (clear; induction l; done).
  rewrite Hc in Hv. rewrite Hn, app_nil_r in Hd. split; [|done]. rewrite Hr. by destruct l as [|? [|]].
Qed.

(** Leaves are not tagged: a list of one interior digest has the root of its two leaves. *)
Lemma node_as_leaf a b : merkle_root [blake2s (merkle_node_data a b)] = merkle_root [a; b].
Proof. done. Qed.

(** C3: the transactions and receipts roots bind the ordered list they were computed
    from.  Two lists of 32-byte digests, both empty or both not, with the same root are
    equal, or two of the interior buffers hashed for them are an explicit collision, or
    the lists differ in length and a leaf of one is the digest of an interior buffer of
    the other. *)
Theorem merkle_root_binds l1 l2 :
  Forall (sized 32) l1 → Forall (sized 32) l2 → (l1 = [] ↔ l2 = []) →
  compute_transactions_root l1 = compute_transactions_root l2 ∨ compute_receipts_root l1 = compute_receipts_root l2 →
  let data l := merkle_data (length l) l in
  l1 = l2 ∨ data_collide (data l1) (data l2)
  ∨ (length l1 ≠ length l2 ∧ (leaf_is_node l1 (data l2) ∨ leaf_is_node l2 (data l1))).
Proof.
  intros H1 H2 He Hroot data. subst data. cbn beta. assert (merkle_root l1 = merkle_root l2) as E by (by destruct Hroot). clear Hroot.
  destruct (decide (length l1 = length l2)) as [Hl|Hl].
  - enough (l1 = l2 ∨ data_collide (merkle_data (length l1) l1) (merkle_data (length l1) l2)) as Hb by (rewrite <- Hl; tauto).
    apply merkle_loop_binds; [lia|done..|]. unfold merkle_root in E. rewrite <- Hl in E. by destruct l1 as [|? [|]], l2 as [|? [|]].
  - destruct (decide (l1 = [])) as [->|Hn1]; [by rewrite (proj1 He eq_refl) in Hl|].
    destruct (decide (l2 = [])) as [->|Hn2]; [by rewrite (proj2 He eq_refl) in Hl|].
    destruct (loop_tree l1 Hn1) as (t1 & R1 & V1 & D1), (loop_tree l2 Hn2) as (t2 & R2 & V2 & D2).
    pose proof (tree_binds t1 t2) as Hb. rewrite V1, V2, R1, R2, D1, D2 in Hb.
    destruct (Hb H1 H2 E) as [?|[?|?]]; auto.
Qed.
End merkle_facts.

(** ** A concrete signature scheme, for evaluating the model *)

(** Keys are their seeds; a signature is a checksum of the key and of the message. *)
Definition checksum_sign (seed m : bytes) : bytes := checksum256 seed ++ checksum256 m.

Definition checksum_seed (seed : bytes) : bytes := take 32 (seed ++ zero32).

Lemma checksum_seed_sized seed : sized 32 (checksum_seed seed).
Proof. unfold sized, checksum_seed. rewrite length_take, length_app. change (length zero32) with 32%nat. lia. Qed.

#[program] Definition checksum_ed25519 : Ed25519 :=
  {| VerifyingKey := bytes;
     vk_from_bytes := λ b, if bool_decide (length b = 32%nat) then Some b else None;
     vk_to_bytes := λ k, k;
     vk_compress := λ k, k;
     vk_is_weak := λ k, bool_decide (k = zero32);
     verify_strict := λ k m s, bool_decide (s = checksum_sign k m);
     sk_public := λ seed, if bool_decide (checksum_seed seed = zero32)
                          then repeat (byte_of 1) 32 else checksum_seed seed;
     sk_sign := λ seed m,
       checksum_sign (if bool_decide (checksum_seed seed = zero32)
                      then repeat (byte_of 1) 32 else checksum_seed seed) m |}.
Next Obligation. intros b k H. simpl in *. case_bool_decide; by simplify_eq. Qed.
Next Obligation. intros seed. simpl. case_bool_decide; [done|apply checksum_seed_sized]. Qed.
Next Obligation.
  intros seed m. unfold sized, checksum_sign. by rewrite length_app, !checksum256_sized.
Qed.
Next Obligation.
  intros seed. simpl. eexists. rewrite bool_decide_eq_true_2; [split; [done|]|].
  - split; [|split; [done|]].
    + apply bool_decide_eq_false. by case_bool_decide.
    + intros m. by apply bool_decide_eq_true.
  - case_bool_decide; [done|apply checksum_seed_sized].
Qed.

Definition serial_host : Host := {| available_parallelism := None; spawn_ok := λ _, true |}.

Section examples.
#[local] Existing Instance checksum_blake2s.
#[local] Existing Instance checksum_ed25519.

Definition sample_seed : bytes := repeat (byte_of 7) 32.

Definition sample_provider : Blake2sProvider :=
  match register_validator provider_new (sk_public sample_seed) with
  | Ok (_, p) => p
  | Err _ => []
  end.

Definition sample_keystore : Ed25519Keystore :=
  match generate_key keystore_new (lit "k") sample_seed with
  | Ok (_, ks) => ks
  | Err _ => keystore_new
  end.

Lemma registered_key_decides_witness :
  provider_reach sample_provider ∧
  verify_signature sample_provider (blake2s (sk_public sample_seed)) (lit "m")
    (sk_sign sample_seed (lit "m")) = true.
Proof.
  assert (provider_reach sample_provider) as Hr.
  { apply (reach_register provider_new (sk_public sample_seed) (blake2s (sk_public sample_seed)));
      [constructor|by vm_compute]. }
  split; [exact Hr|]. rewrite (registered_key_decides _ _ _ _ Hr). by vm_compute.
Defined.

Lemma keystore_no_equivocation_witness :
  ∃ sig ks', sign_at_position sample_keystore (lit "k") 5 1 2 zero32 = Ok (sig, ks')
  ∧ is_ok (sign_at_position ks' (lit "k") 5 1 2 zero32) = true ∧ zero32 = zero32.
Proof.
  eexists _, _. split; [vm_compute; reflexivity|]. split; [by vm_compute|].
  eapply (keystore_no_equivocation sample_keystore (lit "k") 5 1 2 zero32 _ _ _ zero32);
    [vm_compute; reflexivity|apply rtc_refl|vm_compute; reflexivity].
Defined.

Lemma merkle_root_binds_witness :
  let a := repeat (byte_of 1) 32 in
  let b := repeat (byte_of 2) 32 in
  let node := blake2s (merkle_node_data a b) in
  compute_transactions_root [node] = compute_transactions_root [a; b]
  ∧ leaf_is_node [node] (merkle_data 2 [a; b]).
Proof.
  intros a b node. assert (compute_transactions_root [node] = compute_transactions_root [a; b]) as E by apply node_as_leaf.
  split; [exact E|].
  destruct (merkle_root_binds [node] [a; b]) as [Hl|[(x & y & Hx & _)|[_ [Hn|(x & y & _ & Hy & _)]]]].
  - repeat constructor.
  - repeat constructor.
  - by split.
  - left. exact E.
  - discriminate Hl.
  - by apply not_elem_of_nil in Hx.
  - exact Hn.
  - by apply not_elem_of_nil in Hy.
Defined.
End examples.
