(* ===== verification/Votes.v ===== *)
(** * Votes: signed consensus messages and their envelopes

    Votes, proposals, finality certificates, prevote certificates and
    double-vote evidence of [src/crates/consensus], as data with their signing
    bytes, encoders and decoders.  What authenticates them is in [Committee]. *)

From S2P Require Import Prelude Ordered Codec Types Crypto.

(** ** Votes *)

Inductive VotePhase := Prevote | Precommit.

#[global] Instance VotePhase_eq_dec : EqDecision VotePhase.
Proof. solve_decision. Defined.

Definition phase_code (p : VotePhase) : Z :=
  match p with Prevote => 0 | Precommit => 1 end.

#[global, program] Instance VotePhase_ord : TotalOrd VotePhase :=
  {| cmp := λ a b, Z.compare (phase_code a) (phase_code b) |}.
Next Obligation. by intros [] []. Qed.
Next Obligation. by intros [] []. Qed.
Next Obligation. by intros [] [] []. Qed.

Record Vote := mkVote {
  v_chain_id : Z;
  v_committee_root : Hash256;
  v_height : Z;
  v_round : Z;
  v_phase : VotePhase;
  v_block : option Hash256;
  v_voter : ValidatorId;
  v_signature : bytes
}.

#[global] Instance Vote_eq_dec : EqDecision Vote.
Proof. solve_decision. Defined.

Definition opt_sized (o : option Hash256) : Prop :=
  match o with Some h => sized 32 h | None => True end.

Definition vote_ok (v : Vote) : Prop :=
  u32 (v_chain_id v) ∧ sized 32 (v_committee_root v) ∧ u64 (v_height v) ∧ u32 (v_round v)
  ∧ opt_sized (v_block v) ∧ sized 32 (v_voter v) ∧ sized 64 (v_signature v).

(** The four-byte tag and version every envelope starts with. *)
Definition tag (magic : bytes) : bytes := magic ++ le 4 1.

Definition read_tag (magic : bytes) : read unit := λ d,
  let? (m, d) := read_fixed 4 d in
  let? _ := reject_if (negb (bool_decide (m = magic))) Unsupported in
  let? (version, d) := read_u32 d in
  let? _ := reject_if (negb (version =? 1)) Unsupported in
  Ok (tt, d).

Definition read_phase : read VotePhase := λ d,
  let? (v, d) := read_u8 d in
  if v =? 0 then Ok (Prevote, d) else if v =? 1 then Ok (Precommit, d) else Err Unsupported.

(** An optional digest: a presence byte and 32 bytes, zero for nil. *)
Definition encode_opt_hash (o : option Hash256) : bytes :=
  match o with Some h => le 1 1 ++ h | None => le 1 0 ++ zero32 end.

Definition read_opt_hash : read (option Hash256) := λ d,
  let? (present, d) := read_u8 d in
  let? (hash, d) := read_fixed 32 d in
  if (present =? 0) && bool_decide (hash = zero32) then Ok (None, d)
  else if present =? 1 then Ok (Some hash, d)
  else Err NonCanonical.

(** The 122 signed bytes: adjacent fields of the source's fixed buffer. *)
Definition vote_signing_bytes (v : Vote) : bytes :=
  tag (lit "ALVT") ++ le 4 (v_chain_id v) ++ le 8 (v_height v) ++ le 4 (v_round v)
  ++ le 1 (phase_code (v_phase v)) ++ encode_opt_hash (v_block v)
  ++ v_committee_root v ++ v_voter v.

Definition vote_encode (v : Vote) : bytes := vote_signing_bytes v ++ v_signature v.

Definition read_vote : read Vote := λ d,
  let? (_, d) := read_tag (lit "ALVT") d in
  let? (chain_id, d) := read_u32 d in
  let? (height, d) := read_u64 d in
  let? (round, d) := read_u32 d in
  let? (phase, d) := read_phase d in
  let? (block, d) := read_opt_hash d in
  let? (committee_root, d) := read_fixed 32 d in
  let? (voter, d) := read_fixed 32 d in
  let? (signature, d) := read_fixed 64 d in
  Ok (mkVote chain_id committee_root height round phase block voter signature, d).

Definition vote_decode : bytes → result Vote DecodeError := complete read_vote.

Definition vote_signing_hash `{!Blake2s} (v : Vote) : Hash256 :=
  domain_hash domain.CONSENSUS_VOTE (vote_signing_bytes v).

(** ** Proposals *)

Record Proposal := mkProposal {
  p_chain_id : Z;
  p_genesis : Hash256;
  p_height : Z;
  p_round : Z;
  p_committee_root : Hash256;
  p_block : Hash256;
  p_proposer : ValidatorId;
  p_valid_round : option Z;
  p_signature : bytes
}.

#[global] Instance Proposal_eq_dec : EqDecision Proposal.
Proof. solve_decision. Defined.

Definition proposal_ok (p : Proposal) : Prop :=
  u32 (p_chain_id p) ∧ sized 32 (p_genesis p) ∧ u64 (p_height p) ∧ u32 (p_round p)
  ∧ sized 32 (p_committee_root p) ∧ sized 32 (p_block p) ∧ sized 32 (p_proposer p)
  ∧ match p_valid_round p with Some r => u32 r ∧ r < p_round p | None => True end
  ∧ sized 64 (p_signature p).

Definition encode_valid_round (o : option Z) : bytes :=
  match o with Some r => le 1 1 ++ le 4 r | None => le 1 0 ++ le 4 0 end.

Definition proposal_signing_bytes (p : Proposal) : bytes :=
  tag (lit "ALPR") ++ le 4 (p_chain_id p) ++ p_genesis p ++ le 8 (p_height p)
  ++ le 4 (p_round p) ++ p_committee_root p ++ p_block p ++ p_proposer p
  ++ encode_valid_round (p_valid_round p).

Definition proposal_encode (p : Proposal) : bytes := proposal_signing_bytes p ++ p_signature p.

(** A claimed valid round must precede the proposal round. *)
Definition read_valid_round (round : Z) : read (option Z) := λ d,
  let? (flag, d) := read_u8 d in
  let? (value, d) := read_u32 d in
  if (flag =? 0) && (value =? 0) then Ok (None, d)
  else if (flag =? 1) && (value <? round) then Ok (Some value, d)
  else Err NonCanonical.

Definition read_proposal : read Proposal := λ d,
  let? (_, d) := read_tag (lit "ALPR") d in
  let? (chain_id, d) := read_u32 d in
  let? (genesis, d) := read_fixed 32 d in
  let? (height, d) := read_u64 d in
  let? (round, d) := read_u32 d in
  let? (committee_root, d) := read_fixed 32 d in
  let? (block, d) := read_fixed 32 d in
  let? (proposer, d) := read_fixed 32 d in
  let? (valid_round, d) := read_valid_round round d in
  let? (signature, d) := read_fixed 64 d in
  Ok (mkProposal chain_id genesis height round committee_root block proposer valid_round
        signature, d).

Definition proposal_decode : bytes → result Proposal DecodeError := complete read_proposal.

Definition proposal_signing_hash `{!Blake2s} (p : Proposal) : Hash256 :=
  domain_hash domain.CONSENSUS_PROPOSAL (proposal_signing_bytes p).

(** ** Finality certificates *)

Definition MAX_COMMITTEE_MEMBERS : Z := 4096.

Record CertificateSignature := mkCertSig {
  cs_voter : ValidatorId;
  cs_signature : bytes
}.

#[global] Instance CertificateSignature_eq_dec : EqDecision CertificateSignature.
Proof. solve_decision. Defined.

Record FinalityCertificate := mkCertificate {
  fc_chain_id : Z;
  fc_height : Z;
  fc_round : Z;
  fc_committee_root : Hash256;
  fc_block : Hash256;
  fc_signatures : list CertificateSignature
}.

#[global] Instance FinalityCertificate_eq_dec : EqDecision FinalityCertificate.
Proof. solve_decision. Defined.

Definition certificate_ok (c : FinalityCertificate) : Prop :=
  u32 (fc_chain_id c) ∧ u64 (fc_height c) ∧ u32 (fc_round c) ∧ sized 32 (fc_committee_root c)
  ∧ sized 32 (fc_block c)
  ∧ Forall (λ s, sized 32 (cs_voter s) ∧ sized 64 (cs_signature s)) (fc_signatures c).

Definition validate_shape (c : FinalityCertificate) : result unit DecodeError :=
  let? _ := reject_if ((len (fc_signatures c) =? 0)
                       || (MAX_COMMITTEE_MEMBERS <? len (fc_signatures c))) LimitExceeded in
  reject_if (negb (strictly_ascending (map cs_voter (fc_signatures c)))) NonCanonical.

Definition encode_cert_sig (s : CertificateSignature) : bytes := cs_voter s ++ cs_signature s.

Definition certificate_bytes (c : FinalityCertificate) : bytes :=
  tag (lit "ALFC") ++ le 4 (fc_chain_id c) ++ le 8 (fc_height c) ++ le 4 (fc_round c)
  ++ fc_committee_root c ++ fc_block c ++ le 4 (len (fc_signatures c))
  ++ encode_all encode_cert_sig (fc_signatures c).

Definition certificate_encode (c : FinalityCertificate) : result bytes DecodeError :=
  let? _ := validate_shape c in
  let? _ := ok_or (try_from 32 (len (fc_signatures c))) LimitExceeded in
  Ok (certificate_bytes c).

Definition read_cert_sig : read CertificateSignature := λ d,
  let? (voter, d) := read_fixed 32 d in
  let? (signature, d) := read_fixed 64 d in
  Ok (mkCertSig voter signature, d).

Definition certificate_decode (bs : bytes) : result FinalityCertificate DecodeError :=
  let? _ := reject_if (92 + 96 * MAX_COMMITTEE_MEMBERS <? len bs) LimitExceeded in
  let d := decoder_new bs in
  let? (_, d) := read_tag (lit "ALFC") d in
  let? (chain_id, d) := read_u32 d in
  let? (height, d) := read_u64 d in
  let? (round, d) := read_u32 d in
  let? (committee_root, d) := read_fixed 32 d in
  let? (block, d) := read_fixed 32 d in
  let? (count, d) := read_u32 d in
  let? _ := reject_if ((count =? 0) || (MAX_COMMITTEE_MEMBERS <? count)) LimitExceeded in
  let? _ := reject_if (negb (remaining d =? count * 96)) NonCanonical in
  let? (signatures, d) := read_many read_cert_sig (Z.to_nat count) d in
  let? _ := finish d in
  let certificate := mkCertificate chain_id height round committee_root block signatures in
  let? _ := validate_shape certificate in
  Ok certificate.

Definition certificate_commitment `{!Blake2s} (c : FinalityCertificate)
    : result Hash256 DecodeError :=
  let? bs := certificate_encode c in
  Ok (domain_hash domain.FINALITY bs).

(** ** Prevote certificates *)

Record PrevoteCertificate := mkPrevoteCertificate { pc_votes : list Vote }.

#[global] Instance PrevoteCertificate_eq_dec : EqDecision PrevoteCertificate.
Proof. solve_decision. Defined.

(** [self.votes[0]]: the constructor rejects an empty list. *)
Definition pc_round (pc : PrevoteCertificate) : Z :=
  match pc_votes pc with v :: _ => v_round v | [] => 0 end.

Definition pc_block (pc : PrevoteCertificate) : Hash256 :=
  match pc_votes pc with v :: _ => default zero32 (v_block v) | [] => zero32 end.

Definition prevote_encode (pc : PrevoteCertificate) : bytes :=
  tag (lit "ALPV") ++ le 4 (default 0 (try_from 32 (len (pc_votes pc))))
  ++ encode_all vote_encode (pc_votes pc).

Definition read_vote_exact : read Vote := λ d,
  let? (bs, d) := read_exact 186 d in
  let? v := vote_decode bs in
  Ok (v, d).

(** The parsing half of [PrevoteCertificate::decode]. *)
Definition prevote_parse (bs : bytes) : result (list Vote) DecodeError :=
  let? _ := reject_if (12 + 186 * MAX_COMMITTEE_MEMBERS <? len bs) LimitExceeded in
  let d := decoder_new bs in
  let? (_, d) := read_tag (lit "ALPV") d in
  let? (count, d) := read_u32 d in
  let? _ := reject_if ((count =? 0) || (MAX_COMMITTEE_MEMBERS <? count)
                       || negb (remaining d =? 186 * count)) LimitExceeded in
  let? (votes, d) := read_many read_vote_exact (Z.to_nat count) d in
  let? _ := finish d in
  Ok votes.

(** ** Double-vote evidence *)

Record DoubleVoteEvidence := mkEvidence {
  ev_first : Vote;
  ev_second : Vote
}.

#[global] Instance DoubleVoteEvidence_eq_dec : EqDecision DoubleVoteEvidence.
Proof. solve_decision. Defined.

Definition EVIDENCE_ENCODED_LEN : Z := 380.

Definition same_slot (e : DoubleVoteEvidence) : bool :=
  let a := ev_first e in
  let b := ev_second e in
  (v_chain_id a =? v_chain_id b) && (v_height a =? v_height b)
  && bool_decide (v_committee_root a = v_committee_root b)
  && (v_round a =? v_round b) && bool_decide (v_phase a = v_phase b)
  && bool_decide (v_voter a = v_voter b) && ltb (v_block a) (v_block b).

Definition evidence_encode (e : DoubleVoteEvidence) : bytes :=
  tag (lit "ALDV") ++ vote_encode (ev_first e) ++ vote_encode (ev_second e).

Definition evidence_decode (bs : bytes) : result DoubleVoteEvidence DecodeError :=
  let? _ := reject_if (negb (len bs =? EVIDENCE_ENCODED_LEN)) NonCanonical in
  let? _ := reject_if (negb (bool_decide (take 8 bs = tag (lit "ALDV")))) Unsupported in
  let? first := vote_decode (take 186 (drop 8 bs)) in
  let? second := vote_decode (drop 194 bs) in
  let proof := mkEvidence first second in
  let? _ := reject_if (negb (same_slot proof)) NonCanonical in
  Ok proof.

Definition evidence_id `{!Blake2s} (e : DoubleVoteEvidence) : Hash256 :=
  domain_hash (lit "astrolune.potb.double-vote.v1") (evidence_encode e).

Definition vote_set_block (v : Vote) (b : option Hash256) : Vote :=
  mkVote (v_chain_id v) (v_committee_root v) (v_height v) (v_round v) (v_phase v) b
    (v_voter v) (v_signature v).

Definition offence_id `{!Blake2s} (e : DoubleVoteEvidence) : Hash256 :=
  domain_hash (lit "astrolune.potb.offence-slot.v1")
    (vote_signing_bytes (vote_set_block (ev_first e) None)).

(** ** Reads of the envelopes *)

Lemma reads_tag magic : length magic = 4%nat →
  Reads (read_tag magic) (λ _, tag magic) (λ _, True).
Proof.
  intros Hm. split; unfold read_tag, tag.
  - intros d [] ys _ Hd. rewrite <- app_assoc in Hd. read_fwd; [done|].
    rewrite bool_decide_eq_true_2 by done. simpl. read_fwd; [done|]. close_fwd.
  - intros d v d' zs Hd H. bind_inv H. apply reject_if_ok in E0, E2. bool_props.
    subst. read_inv. eexists. by rewrite <- app_assoc.
Qed.

#[global] Instance reads_tag_vote : Reads (read_tag (lit "ALVT")) _ _ := reads_tag (lit "ALVT") eq_refl.
#[global] Instance reads_tag_proposal : Reads (read_tag (lit "ALPR")) _ _ := reads_tag (lit "ALPR") eq_refl.
#[global] Instance reads_tag_finality : Reads (read_tag (lit "ALFC")) _ _ := reads_tag (lit "ALFC") eq_refl.
#[global] Instance reads_tag_prevote : Reads (read_tag (lit "ALPV")) _ _ := reads_tag (lit "ALPV") eq_refl.

(** A tag carries no value. *)
Ltac tag_fwd :=
  match goal with
  | H : dview ?d _ |- context [match read_tag ?m ?d with Ok _ => _ | Err _ => _ end] =>
      let d' := fresh "d" in let E := fresh "E" in let H' := fresh "Hd" in
      edestruct (reads_fwd (rd := read_tag m) d tt _ I H) as (d' & E & H');
      rewrite E; clear E H; rename H' into H
  end.

#[global] Instance reads_phase : Reads read_phase (λ p, le 1 (phase_code p)) (λ _, True).
Proof.
  split; unfold read_phase.
  - intros d v ys _ Hd. read_fwd; [by destruct v|]. destruct v; close_fwd.
  - intros d v d' zs Hd H. bind_inv H. read_inv.
    repeat case_in H; simplify_eq; eexists; by split_and!.
Qed.

#[global] Instance reads_opt_hash : Reads read_opt_hash encode_opt_hash opt_sized.
Proof.
  split; unfold read_opt_hash, encode_opt_hash.
  - intros d [h|] ys Hv Hd; rewrite <- app_assoc in Hd;
      (read_fwd; [done|]; read_fwd; [done|]); simpl; close_fwd.
  - intros d v d' zs Hd H. bind_inv H. read_inv.
    repeat case_in H; simplify_eq; bool_props; subst; eexists; rewrite <- app_assoc;
      by split_and!.
Qed.

#[global] Instance reads_valid_round round :
  Reads (read_valid_round round) encode_valid_round
    (λ o, match o with Some r => u32 r ∧ r < round | None => True end).
Proof.
  split; unfold read_valid_round, encode_valid_round.
  - intros d [r|] ys Hv Hd; rewrite <- app_assoc in Hd.
    + read_fwd; [done|]. read_fwd; [apply Hv|]. simpl.
      rewrite (proj2 (Z.ltb_lt _ _)) by apply Hv. close_fwd.
    + read_fwd; [done|]. read_fwd; [done|]. close_fwd.
  - intros d v d' zs Hd H. bind_inv H. read_inv.
    repeat case_in H; simplify_eq; eexists; rewrite <- app_assoc;
      by split_and!.
Qed.

#[global] Instance reads_vote : Reads read_vote vote_encode vote_ok.
Proof.
  unfold vote_ok. split; unfold read_vote, vote_encode, vote_signing_bytes.
  - intros d v ys Hv Hd. rewrite <- !app_assoc in Hd. destruct v; cbn [v_chain_id v_committee_root
      v_height v_round v_phase v_block v_voter v_signature] in *.
    tag_fwd. repeat (read_fwd; [by destruct_and?|]). close_fwd.
  - intros d v d' zs Hd H. bind_inv H. read_inv. simplify_eq. eexists.
    rewrite <- !app_assoc. split; [reflexivity|by split_and?].
Qed.

#[global] Instance reads_proposal : Reads read_proposal proposal_encode proposal_ok.
Proof.
  unfold proposal_ok. split; unfold read_proposal, proposal_encode, proposal_signing_bytes.
  - intros d v ys Hv Hd. rewrite <- !app_assoc in Hd. destruct v; cbn [p_chain_id p_genesis
      p_height p_round p_committee_root p_block p_proposer p_valid_round p_signature] in *.
    tag_fwd. repeat (read_fwd; [by destruct_and?|]). close_fwd.
  - intros d v d' zs Hd H. bind_inv H. read_inv. simplify_eq. eexists.
    rewrite <- !app_assoc. split; [reflexivity|by split_and?].
Qed.

#[global] Instance reads_cert_sig :
  Reads read_cert_sig encode_cert_sig (λ s, sized 32 (cs_voter s) ∧ sized 64 (cs_signature s)).
Proof. reads_record read_cert_sig encode_cert_sig. Qed.

(** ** Sizes and injectivity *)

Lemma len_tag magic : length magic = 4%nat → len (tag magic) = 8.
Proof. intros H. unfold tag. rewrite len_app, len_le. unfold len. rewrite H. done. Qed.

Lemma len_encode_opt_hash o : opt_sized o → len (encode_opt_hash o) = 33.
Proof.
  destruct o as [h|]; intros H; unfold encode_opt_hash; rewrite len_app, len_le;
    [by rewrite (len_sized 32)|done].
Qed.

Lemma vote_signing_bytes_len v : vote_ok v → len (vote_signing_bytes v) = 122.
Proof.
  intros (_ & ? & _ & _ & ? & ? & _). unfold vote_signing_bytes.
  rewrite !len_app, !len_le, len_tag, len_encode_opt_hash, !(len_sized 32) by done. done.
Qed.

Lemma vote_encode_len v : vote_ok v → len (vote_encode v) = 186.
Proof.
  intros H. unfold vote_encode. rewrite len_app, vote_signing_bytes_len by done.
  destruct H as (_ & _ & _ & _ & _ & _ & H). by rewrite (len_sized 64).
Qed.

Lemma proposal_encode_len p : proposal_ok p → len (proposal_encode p) = 221.
Proof.
  intros (_ & ? & _ & _ & ? & ? & ? & _ & ?). unfold proposal_encode, proposal_signing_bytes.
  assert (len (encode_valid_round (p_valid_round p)) = 5) as Hr
    by (unfold encode_valid_round; by destruct (p_valid_round p); rewrite len_app, !len_le).
  rewrite !len_app, !len_le, Hr, len_tag, (len_sized 64 (p_signature p)), !(len_sized 32) by done.
  done.
Qed.

Lemma vote_decode_iff bs v :
  len bs < 2 ^ 64 → vote_decode bs = Ok v ↔ vote_ok v ∧ bs = vote_encode v.
Proof.
  intros Hl. split.
  - intros H. by apply (complete_inv read_vote vote_encode vote_ok) in H as [? ?].
  - intros [Hv ->]. by apply (complete_fwd read_vote vote_encode vote_ok).
Qed.

Lemma vote_decode_encode v : vote_ok v → vote_decode (vote_encode v) = Ok v.
Proof. intros H. apply vote_decode_iff; [|done]. rewrite vote_encode_len by done. lia. Qed.

Lemma proposal_decode_iff bs p :
  len bs < 2 ^ 64 → proposal_decode bs = Ok p ↔ proposal_ok p ∧ bs = proposal_encode p.
Proof.
  intros Hl. split.
  - intros H. by apply (complete_inv read_proposal proposal_encode proposal_ok) in H as [? ?].
  - intros [Hv ->]. by apply (complete_fwd read_proposal proposal_encode proposal_ok).
Qed.

(** The signed content of a vote: everything but the signature. *)
Definition vote_unsigned (v : Vote) : Vote :=
  mkVote (v_chain_id v) (v_committee_root v) (v_height v) (v_round v) (v_phase v) (v_block v)
    (v_voter v) zero64.

Lemma vote_signing_bytes_inj v1 v2 :
  vote_ok v1 → vote_ok v2 → vote_signing_bytes v1 = vote_signing_bytes v2 →
  vote_unsigned v1 = vote_unsigned v2.
Proof.
  intros H1 H2 E.
  assert (∀ v, vote_ok v → vote_ok (vote_unsigned v)) as Hu
    by (intros v Hv; unfold vote_ok in *; by destruct_and?; split_and!).
  apply (encode_inj read_vote vote_encode vote_ok); [by apply Hu..| |].
  - rewrite vote_encode_len by auto. lia.
  - unfold vote_encode. f_equal. exact E.
Qed.

Lemma vote_digest_binding `{!Blake2s} v1 v2 :
  vote_ok v1 → vote_ok v2 → vote_signing_hash v1 = vote_signing_hash v2 →
  vote_unsigned v1 = vote_unsigned v2
  ∨ collides (domain_preimage domain.CONSENSUS_VOTE (vote_signing_bytes v1))
             (domain_preimage domain.CONSENSUS_VOTE (vote_signing_bytes v2)).
Proof.
  intros H1 H2 E. apply domain_hash_binding in E as [[_ E]|C]; [|by right|by vm_compute..].
  left. by apply vote_signing_bytes_inj.
Qed.

(** ** Certificate envelopes *)

#[local] Existing Instance reads_many.

Lemma len_encode_all_const {A : Type} (enc : A → bytes) (k : Z) xs :
  Forall (λ x, len (enc x) = k) xs → len (encode_all enc xs) = k * len xs.
Proof.
  induction 1 as [|x xs Hx _ IH]; simpl; [unfold len; simpl; lia|]. rewrite len_app, len_cons. lia.
Qed.

Lemma len_encode_cert_sigs sigs :
  Forall (λ s, sized 32 (cs_voter s) ∧ sized 64 (cs_signature s)) sigs →
  len (encode_all encode_cert_sig sigs) = 96 * len sigs.
Proof.
  intros H. apply len_encode_all_const. eapply Forall_impl; [exact H|]. intros s [Hv Hg].
  unfold encode_cert_sig. by rewrite len_app, (len_sized 32), (len_sized 64).
Qed.

Lemma certificate_bytes_len c :
  certificate_ok c → len (certificate_bytes c) = 92 + 96 * len (fc_signatures c).
Proof.
  intros (_ & _ & _ & ? & ? & ?). unfold certificate_bytes.
  rewrite !len_app, !len_le, len_tag, len_encode_cert_sigs, !(len_sized 32) by done. lia.
Qed.

Lemma validate_shape_ok c u :
  validate_shape c = Ok u ↔
  0 < len (fc_signatures c) <= MAX_COMMITTEE_MEMBERS
  ∧ strictly_ascending (map cs_voter (fc_signatures c)) = true.
Proof.
  unfold validate_shape. pose proof (len_nonneg (fc_signatures c)).
  destruct (reject_if _ _) eqn:E; [apply reject_if_ok in E|apply reject_if_err in E as [E _]].
  - rewrite reject_if_ok. bool_props. rewrite negb_false_iff. naive_solver lia.
  - apply orb_true_iff in E. split; [done|]. intros [? _]. destruct E; bool_props; lia.
Qed.

Lemma certificate_encode_ok c bs :
  certificate_encode c = Ok bs ↔ validate_shape c = Ok tt ∧ bs = certificate_bytes c.
Proof.
  unfold certificate_encode. destruct (validate_shape c) as [[]|] eqn:E; [|naive_solver].
  apply validate_shape_ok in E as [Hl _].
  rewrite (proj2 (ok_or_ok _ _ (len (fc_signatures c)))); [naive_solver|].
  apply try_from_some. unfold MAX_COMMITTEE_MEMBERS in Hl. lia.
Qed.

(** Finality certificates have exactly one encoding: decoding accepts a byte
    string if and only if it is what [encode] produces for the certificate it returns. *)
Lemma certificate_codec (bs : bytes) (c : FinalityCertificate) :
  certificate_decode bs = Ok c ↔ certificate_ok c ∧ certificate_encode c = Ok bs.
Proof.
  rewrite certificate_encode_ok. unfold certificate_decode.
  change (92 + 96 * MAX_COMMITTEE_MEMBERS) with 393308. split.
  - intros H. bind_inv H.
    guards.
    bool_props. pose proof (dview_new bs ltac:(lia)) as Hd. read_inv.
    match goal with E : finish _ = Ok _, V : dview _ _ |- _ => apply (finish_ok _ _ _ V) in E end.
    simplify_eq. destruct_and?.
    match goal with E : length ?l = Z.to_nat ?n, V : u32 ?n |- _ =>
      assert (n = len l) as -> by (unfold fits, len in *; lia) end.
    unfold certificate_ok, certificate_bytes. simpl fc_signatures in *.
    match goal with E : validate_shape _ = Ok ?u |- _ => destruct u; rewrite E end.
    split; [by split_and!|]. split; [done|]. by rewrite app_nil_r, <- ?app_assoc.
  - intros [Hc [Hs ->]]. pose proof (certificate_bytes_len c Hc) as Hl.
    apply validate_shape_ok in Hs as Hs'. destruct Hs' as [Hlen _]. unfold MAX_COMMITTEE_MEMBERS in *.
    rewrite (proj2 (reject_if_ok _ _ tt)) by lia.
    pose proof (dview_new (certificate_bytes c) ltac:(lia)) as Hd.
    remember (decoder_new (certificate_bytes c)) as d0. clear Heqd0.
    unfold certificate_bytes in Hd. rewrite <- (app_nil_r (encode_all _ _)) in Hd.
    destruct Hc as (? & ? & ? & ? & ? & Hsig). tag_fwd.
    do 5 (read_fwd; [done|]). read_fwd; [unfold fits; lia|].
    rewrite (proj2 (reject_if_ok _ _ tt)) by lia.
    rewrite (dview_remaining _ _ Hd), app_nil_r, len_encode_cert_sigs by done.
    rewrite (proj2 (reject_if_ok _ _ tt)) by lia.
    replace (Z.to_nat (len (fc_signatures c))) with (length (fc_signatures c)) by (unfold len; lia).
    read_fwd; [done|]. rewrite (proj2 (finish_ok _ _ tt Hd) eq_refl).
    destruct c. simpl in *. by rewrite Hs.
Qed.

#[global] Instance reads_vote_exact : Reads read_vote_exact vote_encode vote_ok.
Proof.
  split; unfold read_vote_exact.
  - intros d v ys Hv Hd. pose proof (vote_encode_len v Hv) as Hl.
    destruct (read_exact_fwd 186 d _ _ Hl Hd) as (d' & -> & ?).
    rewrite vote_decode_encode by done. close_fwd.
  - intros d v d' zs Hd H. bind_inv H. simplify_eq.
    apply read_exact_inv with (zs := zs) in E as (ys & -> & Hl & ?); [|done].
    apply vote_decode_iff in E0 as [? ->]; [|lia]. eauto.
Qed.

(** The prevote parser accepts exactly the encodings of one to 4096 votes. *)
Lemma prevote_parse_iff bs votes :
  prevote_parse bs = Ok votes ↔
  Forall vote_ok votes ∧ 0 < len votes <= MAX_COMMITTEE_MEMBERS
  ∧ bs = prevote_encode (mkPrevoteCertificate votes).
Proof.
  unfold prevote_parse, prevote_encode, MAX_COMMITTEE_MEMBERS. simpl pc_votes. split.
  - intros H. bind_inv H.
    guards.
    bool_props. pose proof (dview_new bs ltac:(lia)) as Hd. read_inv.
    match goal with E : finish _ = Ok _, V : dview _ _ |- _ => apply (finish_ok _ _ _ V) in E end.
    simplify_eq. destruct_and?.
    match goal with E : length ?l = Z.to_nat ?n, V : u32 ?n |- _ =>
      assert (n = len l) as -> by (unfold fits, len in *; lia) end.
    unfold fits in *. split_and!; [done|lia..|].
    match goal with |- context [try_from 32 ?n] =>
      assert (try_from 32 n = Some n) as -> by (apply try_from_some; lia) end. by rewrite app_nil_r.
  - intros (Hv & Hl & ->). assert (len (encode_all vote_encode votes) = 186 * len votes) as Ha.
    { apply len_encode_all_const. eapply Forall_impl; [exact Hv|apply vote_encode_len]. }
    assert (try_from 32 (len votes) = Some (len votes)) as -> by (apply try_from_some; lia). simpl default.
    set (bs := tag (lit "ALPV") ++ le 4 (len votes) ++ encode_all vote_encode votes).
    assert (len bs = 12 + 186 * len votes) as Hb
      by (unfold bs; rewrite !len_app, len_le, len_tag, Ha by done; lia).
    rewrite (proj2 (reject_if_ok _ _ tt)) by lia.
    pose proof (dview_new bs ltac:(lia)) as Hd. remember (decoder_new bs) as d0. clear Heqd0.
    unfold bs in Hd. rewrite <- (app_nil_r (encode_all _ _)) in Hd.
    tag_fwd. read_fwd; [unfold fits; lia|].
    rewrite (dview_remaining _ _ Hd), app_nil_r, Ha.
    rewrite (proj2 (reject_if_ok _ _ tt)) by lia.
    replace (Z.to_nat (len votes)) with (length votes) by (unfold len; lia).
    read_fwd; [done|]. by rewrite (proj2 (finish_ok _ _ tt Hd) eq_refl).
Qed.

Lemma split_len (bs : bytes) n : Z.of_nat n <= len bs → ∃ a b, bs = a ++ b ∧ length a = n.
Proof.
  intros H. exists (take n bs), (drop n bs). rewrite take_drop, length_take.
  split; [done|]. unfold len in H. lia.
Qed.

(** Double-vote evidence has exactly one encoding, and only pairs of votes in
    one slot with strictly ordered block values are decoded. *)
Lemma evidence_codec (bs : bytes) (e : DoubleVoteEvidence) :
  evidence_decode bs = Ok e ↔
  vote_ok (ev_first e) ∧ vote_ok (ev_second e) ∧ same_slot e = true ∧ bs = evidence_encode e.
Proof.
  unfold evidence_decode, evidence_encode, EVIDENCE_ENCODED_LEN. split.
  - intros H. bind_inv H. apply reject_if_ok in E, E0, E3. bool_props.
    destruct (split_len bs 8) as (t & r & -> & Ht); [lia|]. rewrite len_app in E.
    destruct (split_len r 186) as (x & y & -> & Hx); [unfold len in *; lia|].
    rewrite take_app_length' in E0 by done. rewrite drop_app_length' in E1 by done.
    rewrite take_app_length' in E1 by done. rewrite app_assoc in E2.
    rewrite drop_app_length' in E2 by (rewrite length_app; lia).
    rewrite len_app in E. unfold len in E.
    apply vote_decode_iff in E1 as [? ->]; [|unfold len; lia].
    apply vote_decode_iff in E2 as [? ->]; [|unfold len; lia]. by subst.
  - intros (H1 & H2 & Hs & ->). pose proof (vote_encode_len _ H1) as L1.
    pose proof (vote_encode_len _ H2) as L2.
    rewrite (proj2 (reject_if_ok _ _ tt)) by (rewrite !len_app, len_tag, L1, L2; done).
    rewrite take_app_length' by done. rewrite (proj2 (reject_if_ok _ _ tt)) by
      (rewrite bool_decide_eq_true_2; done).
    rewrite drop_app_length' by done. rewrite take_app_length' by (unfold len in L1; lia).
    rewrite vote_decode_encode by done.
    rewrite app_assoc, drop_app_length' by (rewrite length_app; change (length (tag (lit "ALDV"))) with 8%nat; unfold len in L1; lia).
    rewrite vote_decode_encode by done.
    destruct e. simpl in *. by rewrite Hs.
Qed.

(** C4: consensus messages have exactly one encoding: a byte string decodes to a finality
    certificate if and only if it is what [encode] produces for that certificate, and to
    double-vote evidence if and only if it is the encoding of two well-formed votes of
    one slot with strictly ordered block values. *)
Theorem consensus_codecs (bs : bytes) (c : FinalityCertificate) (e : DoubleVoteEvidence) :
  (certificate_decode bs = Ok c ↔ certificate_ok c ∧ certificate_encode c = Ok bs)
  ∧ (evidence_decode bs = Ok e ↔
     vote_ok (ev_first e) ∧ vote_ok (ev_second e) ∧ same_slot e = true ∧ bs = evidence_encode e).
Proof. split; [apply certificate_codec|apply evidence_codec]. Qed.

(** ** Slots *)

Lemma same_slot_iff e :
  same_slot e = true ↔
  v_chain_id (ev_first e) = v_chain_id (ev_second e) ∧ v_height (ev_first e) = v_height (ev_second e)
  ∧ v_committee_root (ev_first e) = v_committee_root (ev_second e)
  ∧ v_round (ev_first e) = v_round (ev_second e) ∧ v_phase (ev_first e) = v_phase (ev_second e)
  ∧ v_voter (ev_first e) = v_voter (ev_second e)
  ∧ lt_of (v_block (ev_first e)) (v_block (ev_second e)).
Proof.
  unfold same_slot. rewrite !andb_true_iff, !Z.eqb_eq, !bool_decide_eq_true, ltb_lt_of. tauto.
Qed.
