(* ===== verification/Committee.v ===== *)
(** * Committee: weighted membership and what authenticates against it

    [weight.rs], [committee.rs], [authenticated.rs], [prevote.rs] and
    [evidence.rs] of [src/crates/consensus]: quorum arithmetic, committee
    validation and commitment, the immutable verification context for one
    height, and the checks of votes, proposals, certificates and evidence
    against it. *)

From S2P Require Import Prelude Ordered Codec Types Crypto Votes.

Inductive ConsensusError :=
| InvalidCommittee
| Equivocation
| InvalidCertificate
| UnknownVoter
| DuplicateVote
| InvalidProof
| InvalidTransition.

(** ** Weights and committees *)

Definition quorum_power (total_power : Z) : Z :=
  (total_power / 3) * 2 + (total_power mod 3) * 2 / 3 + 1.

Record CommitteeMember := mkMember {
  m_id : ValidatorId;
  m_power : Z
}.

Record Committee := mkCommittee {
  c_height : Z;
  c_members : list CommitteeMember
}.

Definition total_power_step (acc : Z * BTreeSet ValidatorId) (member : CommitteeMember)
    : result (Z * BTreeSet ValidatorId) ConsensusError :=
  let '(total, seen) := acc in
  let '(fresh, seen) := set_insert (m_id member) seen in
  let? _ := reject_if ((m_power member =? 0) || negb fresh) InvalidCommittee in
  let? total := ok_or (checked_add 128 total (m_power member)) InvalidCommittee in
  Ok (total, seen).

Definition total_power (c : Committee) : result Z ConsensusError :=
  let? _ := reject_if ((len (c_members c) =? 0) || (MAX_COMMITTEE_MEMBERS <? len (c_members c)))
              InvalidCommittee in
  let? (total, _) := try_fold total_power_step (0, []) (c_members c) in
  Ok total.

Definition encode_member (m : CommitteeMember) : bytes := m_id m ++ le 16 (m_power m).

Definition committee_bytes (chain_id : Z) (c : Committee) : bytes :=
  tag (lit "ALCM") ++ le 4 chain_id ++ le 8 (c_height c) ++ le 4 (len (c_members c))
  ++ encode_all encode_member (c_members c).

Section committee.
Context {blake : Blake2s} {ed : Ed25519} {host : Host}.

Definition committee_commitment (c : Committee) (chain_id : Z) : result Hash256 ConsensusError :=
  let? _ := total_power c in
  let? _ := ok_or (try_from 32 (len (c_members c))) InvalidCommittee in
  Ok (domain_hash domain.COMMITTEE (committee_bytes chain_id c)).

Record AuthenticatedCommittee := mkAuthenticated {
  ac_chain_id : Z;
  ac_height : Z;
  ac_root : Hash256;
  ac_total : Z;
  ac_powers : BTreeMap ValidatorId Z;
  ac_seats : list ValidatorId;
  ac_crypto : Blake2sProvider
}.

Definition register_step (powers : BTreeMap ValidatorId Z)
    (acc : Blake2sProvider * BTreeSet ValidatorId) (key : bytes)
    : result (Blake2sProvider * BTreeSet ValidatorId) ConsensusError :=
  let '(crypto, registered) := acc in
  let? (id, crypto) := map_err (λ _, InvalidProof) (register_validator crypto key) in
  let '(fresh, registered) := set_insert id registered in
  let? _ := reject_if (negb (bt_contains id powers) || negb fresh) InvalidCommittee in
  Ok (crypto, registered).

Definition authenticated_new (chain_id : Z) (committee : Committee) (public_keys : list bytes)
    : result AuthenticatedCommittee ConsensusError :=
  let? total := total_power committee in
  let? root := committee_commitment committee chain_id in
  let? _ := reject_if (negb (len public_keys =? len (c_members committee))) InvalidCommittee in
  let powers := bt_collect (map (λ m, (m_id m, m_power m)) (c_members committee)) in
  let? (crypto, _) := try_fold (register_step powers) (provider_new, []) public_keys in
  Ok (mkAuthenticated chain_id (c_height committee) root total powers
        (map m_id (c_members committee)) crypto).

Definition members (ac : AuthenticatedCommittee) : list ValidatorId := bt_keys (ac_powers ac).

Definition voting_power (ac : AuthenticatedCommittee) (validator : ValidatorId) : option Z :=
  bt_get validator (ac_powers ac).

Definition quorum (ac : AuthenticatedCommittee) : Z := quorum_power (ac_total ac).

Definition round_robin_proposer (ac : AuthenticatedCommittee) (round : Z) : option ValidatorId :=
  let count := len (ac_seats ac) in
  let index := (ac_height ac mod count + round mod count) mod count in
  ac_seats ac !! Z.to_nat index.

(** ** Votes *)

Definition vote_credentials (ac : AuthenticatedCommittee) (vote : Vote)
    : result (Z * DigestRequest) ConsensusError :=
  let? _ := reject_if (negb (v_chain_id vote =? ac_chain_id ac)
                       || negb (v_height vote =? ac_height ac)
                       || negb (bool_decide (v_committee_root vote = ac_root ac)))
              InvalidTransition in
  let? power := ok_or (bt_get (v_voter vote) (ac_powers ac)) UnknownVoter in
  let? public_key := ok_or (registered_key (ac_crypto ac) (v_voter vote)) InvalidProof in
  Ok (power, mkDigestRequest public_key (vote_signing_hash vote) (v_signature vote)).

Definition verify_vote (ac : AuthenticatedCommittee) (vote : Vote) : result Z ConsensusError :=
  let? (power, request) := vote_credentials ac vote in
  let? _ := reject_if (negb (digest_verify request)) InvalidProof in
  Ok power.

(** ** Batched quorums *)

(** The hoisted loop: cheap checks in order up to the first rejection. *)
Fixpoint hoist (check : Vote → result (Z * DigestRequest) ConsensusError) (votes : list Vote)
    : list Z * list DigestRequest * option ConsensusError :=
  match votes with
  | [] => ([], [], None)
  | vote :: votes' =>
      match check vote with
      | Ok (power, request) =>
          let '(weights, batch, rejected) := hoist check votes' in
          (power :: weights, request :: batch, rejected)
      | Err error => ([], [], Some error)
      end
  end.

(** What follows the loop in [verify_certificate] and [from_votes]: the batch,
    the remembered rejection, the checked total and the quorum. *)
Definition decide_batch (ac : AuthenticatedCommittee)
    (hoisted : list Z * list DigestRequest * option ConsensusError) : result unit ConsensusError :=
  let '(weights, batch, rejected) := hoisted in
  let? _ := match first_digest_failure batch with
            | Some _ => Err InvalidProof
            | None => Ok tt
            end in
  let? _ := match rejected with Some error => Err error | None => Ok tt end in
  let? total := try_fold (λ total power, ok_or (checked_add 128 total power) InvalidCertificate)
                  0 weights in
  reject_if (total <? quorum ac) InvalidCertificate.

(** The vote a certificate entry stands for. *)
Definition certificate_vote (c : FinalityCertificate) (entry : CertificateSignature) : Vote :=
  mkVote (fc_chain_id c) (fc_committee_root c) (fc_height c) (fc_round c) Precommit
    (Some (fc_block c)) (cs_voter entry) (cs_signature entry).

Definition verify_certificate (ac : AuthenticatedCommittee) (c : FinalityCertificate)
    (header : BlockHeader) : result unit ConsensusError :=
  let? _ := map_err (λ _, InvalidCertificate) (validate_shape c) in
  let? _ := reject_if (negb (bh_height header =? ac_height ac)
                       || negb (bool_decide (bh_committee_root header = ac_root ac))
                       || negb (fc_chain_id c =? ac_chain_id ac)
                       || negb (fc_height c =? ac_height ac)
                       || negb (bool_decide (fc_committee_root c = ac_root ac))
                       || negb (bool_decide (fc_block c = header_hash header))
                       || (len (ac_powers ac) <? len (fc_signatures c))) InvalidCertificate in
  decide_batch ac (hoist (vote_credentials ac) (map (certificate_vote c) (fc_signatures c))).

(** *** [PrevoteCertificate] *)

Definition prevote_check (ac : AuthenticatedCommittee) (first vote : Vote)
    : result (Z * DigestRequest) ConsensusError :=
  let? _ := reject_if (negb (bool_decide (v_phase vote = Prevote))
                       || negb (v_round vote =? v_round first)
                       || negb (bool_decide (v_block vote = v_block first))) InvalidCertificate in
  vote_credentials ac vote.

Definition prevote_from_votes (ac : AuthenticatedCommittee) (votes : list Vote)
    : result PrevoteCertificate ConsensusError :=
  match votes with
  | [] => Err InvalidCertificate
  | first :: _ =>
      let? _ := reject_if ((MAX_COMMITTEE_MEMBERS <? len votes)
                           || negb (strictly_ascending (map v_voter votes))) InvalidCertificate in
      let? _ := reject_if (bool_decide (v_block first = None)) InvalidCertificate in
      let? _ := decide_batch ac (hoist (prevote_check ac first) votes) in
      Ok (mkPrevoteCertificate votes)
  end.

Definition prevote_verify_context (ac : AuthenticatedCommittee) (pc : PrevoteCertificate)
    : result unit ConsensusError :=
  match pc_votes pc with
  | first :: _ =>
      reject_if (negb (v_chain_id first =? ac_chain_id ac)
                 || negb (v_height first =? ac_height ac)
                 || negb (bool_decide (v_committee_root first = ac_root ac))) InvalidCertificate
  | [] => Err InvalidCertificate
  end.

Definition prevote_decode (ac : AuthenticatedCommittee) (bs : bytes)
    : result PrevoteCertificate ConsensusError :=
  let? votes := map_err (λ _, InvalidCertificate) (prevote_parse bs) in
  prevote_from_votes ac votes.

(** ** Proposals *)

Definition verify_valid_round (p : Proposal) (ac : AuthenticatedCommittee)
    (proof : option PrevoteCertificate) : result unit ConsensusError :=
  match p_valid_round p, proof with
  | None, None => Ok tt
  | Some round, Some proof =>
      if (round <? p_round p) && (round =? pc_round proof)
         && bool_decide (p_block p = pc_block proof)
      then prevote_verify_context ac proof
      else Err InvalidCertificate
  | _, _ => Err InvalidCertificate
  end.

Definition verify_proposal (ac : AuthenticatedCommittee) (p : Proposal) (header : BlockHeader)
    (expected_proposer : ValidatorId) (genesis : Hash256) : result unit ConsensusError :=
  let? _ := reject_if (bool_decide (genesis = zero32)
                       || negb (bool_decide (p_genesis p = genesis))
                       || negb (p_chain_id p =? ac_chain_id ac)
                       || negb (p_height p =? ac_height ac)
                       || negb (bool_decide (p_committee_root p = ac_root ac))
                       || negb (bh_height header =? ac_height ac)
                       || negb (bool_decide (bh_committee_root header = ac_root ac))
                       || negb (bool_decide (p_block p = header_hash header))
                       || negb (bool_decide (p_proposer p = expected_proposer))
                       || match p_valid_round p with
                          | Some round => p_round p <=? round
                          | None => false
                          end) InvalidTransition in
  let? _ := reject_if (negb (bt_contains expected_proposer (ac_powers ac))) UnknownVoter in
  reject_if (negb (verify_signature (ac_crypto ac) (p_proposer p) (proposal_signing_hash p)
                     (p_signature p))) InvalidProof.

(** ** Evidence *)

Definition evidence_verify (ac : AuthenticatedCommittee) (e : DoubleVoteEvidence)
    : result unit ConsensusError :=
  let? _ := reject_if (negb (same_slot e)) InvalidTransition in
  let? _ := verify_vote ac (ev_first e) in
  let? _ := verify_vote ac (ev_second e) in
  Ok tt.

Definition evidence_from_votes (ac : AuthenticatedCommittee) (first second : Vote)
    : result DoubleVoteEvidence ConsensusError :=
  let proof := if ltb (v_block first) (v_block second)
               then mkEvidence first second else mkEvidence second first in
  let? _ := evidence_verify ac proof in
  Ok proof.

(** ** Specification vocabulary *)

(** A context built from some committee and its keys. *)
Definition authenticated (ac : AuthenticatedCommittee) : Prop :=
  ∃ chain_id committee keys,
    Forall (λ m, u128 (m_power m)) (c_members committee)
    ∧ authenticated_new chain_id committee keys = Ok ac.

(** The power of a validator, zero for outsiders. *)
Definition power (ac : AuthenticatedCommittee) (id : ValidatorId) : Z :=
  default 0 (voting_power ac id).

(** [vote] carries a valid signature of a member of [ac] in its context. *)
Definition vote_valid (ac : AuthenticatedCommittee) (vote : Vote) : Prop :=
  v_chain_id vote = ac_chain_id ac ∧ v_height vote = ac_height ac
  ∧ v_committee_root vote = ac_root ac ∧ v_voter vote ∈ members ac
  ∧ verify_signature (ac_crypto ac) (v_voter vote) (vote_signing_hash vote) (v_signature vote)
    = true.

(** The serial reading of a batched quorum: each vote checked, then its
    signature, in order, then the total. *)
Definition serial_vote (check : Vote → result (Z * DigestRequest) ConsensusError) (vote : Vote)
    : result Z ConsensusError :=
  let? (power, request) := check vote in
  let? _ := reject_if (negb (digest_verify request)) InvalidProof in
  Ok power.

Definition serial_quorum (ac : AuthenticatedCommittee)
    (check : Vote → result (Z * DigestRequest) ConsensusError) (votes : list Vote)
    : result unit ConsensusError :=
  let? weights := try_map (serial_vote check) votes in
  let? total := try_fold (λ total power, ok_or (checked_add 128 total power) InvalidCertificate)
                  0 weights in
  reject_if (total <? quorum ac) InvalidCertificate.
End committee.

(** ** Quorum arithmetic *)

Lemma quorum_power_eq t : quorum_power t = 2 * t / 3 + 1.
Proof.
  unfold quorum_power. rewrite (Z.div_mod t 3) at 3 by lia.
  replace (2 * (3 * (t / 3) + t mod 3)) with (t mod 3 * 2 + (2 * (t / 3)) * 3) by lia.
  rewrite Z.div_add by lia. lia.
Qed.

Lemma quorum_power_bounds t :
  0 <= t → 2 * t < 3 * quorum_power t ∧ 3 * (quorum_power t - 1) <= 2 * t.
Proof.
  intros Ht. rewrite quorum_power_eq. pose proof (Z.div_mod (2 * t) 3 ltac:(lia)).
  pose proof (Z.mod_pos_bound (2 * t) 3 ltac:(lia)). lia.
Qed.

(** C5: the quorum of a positive total is the least power strictly above two
    thirds of it, is attainable, and is computed without overflowing 128 bits;
    two quorums overlap in strictly more than a third of the total. *)
Theorem quorum_power_correct (t : Z) :
  u128 t → 0 < t →
  2 * t < 3 * quorum_power t ∧ (∀ q, 2 * t < 3 * q → quorum_power t <= q)
  ∧ quorum_power t <= t ∧ u128 (t / 3 * 2) ∧ u128 (quorum_power t)
  ∧ t < 3 * (2 * quorum_power t - t).
Proof.
  intros Hu Ht. destruct (quorum_power_bounds t) as [H1 H2]; [lia|].
  pose proof (Z.div_mod t 3 ltac:(lia)). pose proof (Z.mod_pos_bound t 3 ltac:(lia)).
  unfold fits in *. split_and!; lia.
Qed.

Lemma quorum_power_correct_witness :
  0 < 100 ∧ quorum_power 100 = 67 ∧ 2 * 100 < 3 * quorum_power 100.
Proof.
  split; [lia|]. split; [reflexivity|].
  refine (proj1 (quorum_power_correct 100 _ _)); [unfold fits; lia|lia].
Defined.

(** ** Committee validation *)

Lemma total_power_fold ms total seen :
  0 <= total → Forall (λ m, u128 (m_power m)) ms →
  match try_fold total_power_step (total, seen) ms with
  | Ok (t, seen') =>
      t = total + sumZ m_power ms ∧ (ms = [] ∨ t < 2 ^ 128)
      ∧ Forall (λ m, 0 < m_power m) ms ∧ NoDup (map m_id ms)
      ∧ (∀ m, m ∈ ms → m_id m ∉ bt_keys seen)
  | Err e =>
      ¬ (total + sumZ m_power ms < 2 ^ 128 ∧ Forall (λ m, 0 < m_power m) ms
         ∧ NoDup (map m_id ms) ∧ (∀ m, m ∈ ms → m_id m ∉ bt_keys seen))
  end.
Proof.
  revert total seen. induction ms as [|m ms IH]; intros total seen Ht Hu; simpl.
  { rewrite Z.add_0_r. split_and!; [done|by left|constructor|constructor|].
    intros m Hm. by apply elem_of_nil in Hm. }
  apply Forall_cons in Hu as [Hm Hu]. unfold total_power_step at 1. simpl.
  assert (0 <= sumZ m_power ms) as Hs.
  { apply sumZ_nonneg. intros x Hx. rewrite Forall_forall in Hu. by apply Hu in Hx as [? _]. }
  assert (m_id m ∈ bt_keys seen ↔ bt_contains (m_id m) seen = true) as Hc
    by (by rewrite bt_key_get, bt_contains_get).
  destruct (reject_if _ _) as [u|e] eqn:E1; cycle 1.
  { apply reject_if_err in E1 as [E1 _]. apply orb_true_iff in E1. intros (_ & Hp & _ & Hf).
    apply Forall_cons in Hp as [Hp _]. rewrite negb_involutive in E1.
    destruct E1 as [E1|E1]; [bool_props; lia|]. apply Hc in E1. by apply (Hf m); [left|]. }
  apply reject_if_ok in E1. bool_props.
  destruct (ok_or _ _) as [t|e] eqn:E2; cycle 1.
  { unfold checked_add in E2. simpl. intros (Hlt & _). case_test. lia. }
  apply ok_or_ok, checked_add_some in E2 as [Hlt ->].
  specialize (IH (total + m_power m) (bt_insert (m_id m) tt seen) ltac:(unfold fits in *; lia) Hu).
  assert (∀ x, x ∈ ms → (m_id x ∉ bt_keys (bt_insert (m_id m) tt seen) ↔
                         m_id x ≠ m_id m ∧ m_id x ∉ bt_keys seen)) as Hk
    by (intros x _; rewrite bt_keys_insert; tauto).
  assert (m_id m ∉ map m_id ms ↔ ∀ x, x ∈ ms → m_id x ≠ m_id m) as Hn.
  { rewrite list_elem_of_In, in_map_iff. setoid_rewrite <- list_elem_of_In. naive_solver. }
  destruct (try_fold _ _ ms) as [[t seen']|e].
  - destruct IH as (-> & Hb & Hp & Hnd & Hf). split_and!.
    + lia.
    + right. destruct Hb as [->|]; [simpl; lia|done].
    + constructor; [unfold fits in *; lia|done].
    + apply NoDup_cons. split; [|done]. apply Hn. intros x Hx. by apply Hk, Hf.
    + intros x [->|Hx]%elem_of_cons; [by rewrite Hc, H0|]. by apply Hk, Hf.
  - intros (Hlt' & Hp & Hnd & Hf). apply IH. apply Forall_cons in Hp as [_ Hp].
    apply NoDup_cons in Hnd as [Hni Hnd]. split_and!; [lia|done..|].
    intros x Hx. apply Hk; [done|]. split; [by apply Hn|]. apply Hf. by right.
Qed.

Lemma total_power_spec (c : Committee) (t : Z) :
  Forall (λ m, u128 (m_power m)) (c_members c) →
  total_power c = Ok t ↔
  0 < len (c_members c) <= MAX_COMMITTEE_MEMBERS ∧ NoDup (map m_id (c_members c))
  ∧ Forall (λ m, 0 < m_power m) (c_members c)
  ∧ t = sumZ m_power (c_members c) ∧ t < 2 ^ 128.
Proof.
  intros Hu. unfold total_power. pose proof (len_nonneg (c_members c)).
  destruct (reject_if _ _) as [u|e] eqn:E1; cycle 1.
  { apply reject_if_err in E1 as [E1 _]. apply orb_true_iff in E1.
    split; [done|]. intros [? _]. destruct E1; bool_props; lia. }
  apply reject_if_ok in E1. bool_props.
  pose proof (total_power_fold (c_members c) 0 [] ltac:(lia) Hu) as Hf.
  destruct (try_fold _ _ _) as [[t' seen]|e].
  - destruct Hf as (-> & Hb & Hp & Hnd & _). rewrite Z.add_0_l in *. split.
    + intros [= <-]. split_and!; try done; [lia|]. destruct Hb as [E|]; [|done].
      by rewrite E in H0.
    + intros (_ & _ & _ & -> & _). done.
  - split; [done|]. intros (_ & Hnd & Hp & -> & Hlt). exfalso. apply Hf.
    split_and!; [lia|done..|]. intros m _. apply not_elem_of_nil.
Qed.

(** [total_power] accepts exactly the committees with between one and 4096
    members, unique identities, positive weights and a total below 2^128, and
    returns the exact total. *)
Theorem total_power_iff (c : Committee) (t : Z) :
  Forall (λ m, u128 (m_power m)) (c_members c) →
  total_power c = Ok t ↔
  0 < len (c_members c) <= MAX_COMMITTEE_MEMBERS ∧ NoDup (map m_id (c_members c))
  ∧ Forall (λ m, 0 < m_power m) (c_members c)
  ∧ t = sumZ m_power (c_members c) ∧ t < 2 ^ 128.
Proof. apply total_power_spec. Qed.

(** ** Verification contexts *)

Section context_facts.
Context {blake : Blake2s} {ed : Ed25519} {host : Host}.
Implicit Types (ac : AuthenticatedCommittee).

(** What construction establishes and every check relies on. *)
Record context_ok ac : Prop := {
  ctx_powers_ok : bt_ok (ac_powers ac);
  ctx_powers_pos : ∀ id p, bt_get id (ac_powers ac) = Some p → 0 < p;
  ctx_total : ac_total ac = sumZ snd (ac_powers ac);
  ctx_total_bound : 0 < ac_total ac < 2 ^ 128;
  ctx_len : 0 < len (ac_powers ac) <= MAX_COMMITTEE_MEMBERS;
  ctx_seats : Permutation (ac_seats ac) (members ac);
  ctx_crypto : provider_ok (ac_crypto ac);
  ctx_keys : ∀ id, id ∈ members ac →
    ∃ pk, registered_key (ac_crypto ac) id = Some pk ∧ id = blake2s pk
}.

Lemma register_fold powers keys crypto registered crypto' registered' :
  provider_ok crypto →
  (∀ id, id ∈ bt_keys registered → ∃ pk, registered_key crypto id = Some pk ∧ id = blake2s pk) →
  NoDup (bt_keys registered) → (∀ id, id ∈ bt_keys registered → id ∈ bt_keys powers) →
  try_fold (register_step powers) (crypto, registered) keys = Ok (crypto', registered') →
  provider_ok crypto'
  ∧ (∀ id, id ∈ bt_keys registered' → ∃ pk, registered_key crypto' id = Some pk ∧ id = blake2s pk)
  ∧ NoDup (bt_keys registered') ∧ (∀ id, id ∈ bt_keys registered' → id ∈ bt_keys powers)
  ∧ length (bt_keys registered') = (length keys + length (bt_keys registered))%nat.
Proof.
  revert crypto registered. induction keys as [|k keys IH];
    intros crypto registered Hp Hk Hnd Hin H; simpl in H.
  { bind_inv H. simplify_eq. split_and!; done. }
  bind_inv H. unfold register_step in E. bind_inv E. simplify_eq.
  apply map_err_ok in E0. apply reject_if_ok in E1. bool_props.
  pose proof (register_validator_ok _ _ _ _ Hp E0) as (Hp' & -> & Hreg).
  assert (bt_get (blake2s k) registered = None) as Hnone
    by (unfold bt_contains in *; by destruct (bt_get _ registered)).
  pose proof (bt_insert_fresh_perm (blake2s k) tt registered Hnone) as Hperm.
  apply (Permutation_map fst) in Hperm.
  change (Permutation (bt_keys (bt_insert (blake2s k) tt registered))
            (blake2s k :: bt_keys registered)) in Hperm.
  eapply IH in H as (Ha & Hb & Hc & Hd & He).
  - split_and!; try done. rewrite He. apply Permutation_length in Hperm. cbn [length] in *. lia.
  - done.
  - intros id [->|Hid]%bt_keys_insert; [by eauto|].
    destruct (decide (id = blake2s k)) as [->|Hne]; [by eauto|].
    unfold registered_key. rewrite (register_validator_get _ _ _ _ _ E0 Hne).
    by apply Hk in Hid.
  - rewrite Hperm. apply NoDup_cons. split; [by apply bt_get_none_keys|done].
  - intros id [->|Hid]%bt_keys_insert; [|by apply Hin].
    apply bt_key_get. by apply bt_contains_get.
Qed.

Lemma context_ok_new ac : authenticated ac → context_ok ac.
Proof.
  intros (chain & c & keys & Hu & H). unfold authenticated_new in H. bind_inv H.
  apply (total_power_spec c a Hu) in E as (Hlen & Hnd & Hpos & -> & Hlt).
  apply reject_if_ok in E1. bool_props.
  set (ps := map (λ m, (m_id m, m_power m)) (c_members c)) in *.
  assert (map fst ps = map m_id (c_members c)) as Hfst by (unfold ps; by rewrite map_map).
  destruct (bt_collect_perm ps) as [Hok Hperm]; [by rewrite Hfst|].
  apply register_fold in E2 as (Hp & Hk & Hndk & Hink & Hlenk);
    [|apply provider_ok_new|by intros id ?%elem_of_nil|constructor|by intros id ?%elem_of_nil].
  assert (len (bt_collect ps) = len (c_members c)) as Hlps.
  { unfold len. rewrite (Permutation_length Hperm). unfold ps. by rewrite length_map. }
  subst ac. split; simpl.
  - done.
  - intros id p Hg%bt_get_some_in. rewrite Hperm in Hg. unfold ps in Hg.
    apply list_elem_of_In, in_map_iff in Hg as (m & [= <- <-] & Hm).
    rewrite Forall_forall in Hpos. by apply Hpos, list_elem_of_In.
  - rewrite (sumZ_perm _ _ _ Hperm). unfold ps. by rewrite sumZ_map.
  - split; [|done]. clear - Hlen Hpos.
    destruct (c_members c) as [|m ms]; [by destruct Hlen|].
    apply Forall_cons in Hpos as [Hm Hms]. simpl.
    assert (0 <= sumZ m_power ms); [|lia]. apply sumZ_nonneg. intros x Hx.
    rewrite Forall_forall in Hms. apply Hms in Hx. lia.
  - by rewrite Hlps.
  - rewrite <- Hfst. unfold members, bt_keys. simpl. by rewrite Hperm.
  - done.
  - intros id Hid. apply Hk.
    assert (Permutation (bt_keys b0) (bt_keys (bt_collect ps))) as HP; [|by rewrite HP].
    apply nodup_incl_perm; [done..|].
    unfold len in *. rewrite Hlenk. unfold bt_keys. rewrite length_map. simpl. lia.
Qed.

Lemma context_quorum_pos ac : context_ok ac → 0 < quorum ac.
Proof.
  intros H. pose proof (ctx_total_bound ac H). pose proof (quorum_power_bounds (ac_total ac)).
  unfold quorum. lia.
Qed.

Lemma member_power ac id : context_ok ac → id ∈ members ac → voting_power ac id = Some (power ac id).
Proof.
  intros Hc (p & Hp)%bt_key_get. unfold power, voting_power. by rewrite Hp.
Qed.

Lemma power_nonneg ac id : context_ok ac → 0 <= power ac id.
Proof.
  intros Hc. unfold power, voting_power. destruct (bt_get id (ac_powers ac)) as [p|] eqn:E; simpl; [|lia].
  apply (ctx_powers_pos ac Hc) in E. lia.
Qed.

Lemma total_as_members ac : context_ok ac → ac_total ac = sumZ (power ac) (members ac).
Proof.
  intros Hc. rewrite (ctx_total ac Hc). unfold members, bt_keys. rewrite sumZ_map.
  apply sumZ_ext. intros [id p] Hin. simpl.
  unfold power, voting_power. by rewrite (bt_in_get id p _ (ctx_powers_ok ac Hc) Hin).
Qed.

(** ** Votes *)

Lemma vote_credentials_ok ac vote p r :
  context_ok ac →
  vote_credentials ac vote = Ok (p, r) ↔
  v_chain_id vote = ac_chain_id ac ∧ v_height vote = ac_height ac
  ∧ v_committee_root vote = ac_root ac ∧ v_voter vote ∈ members ac
  ∧ p = power ac (v_voter vote)
  ∧ ∃ pk, registered_key (ac_crypto ac) (v_voter vote) = Some pk
          ∧ r = mkDigestRequest pk (vote_signing_hash vote) (v_signature vote).
Proof.
  intros Hc. unfold vote_credentials. split.
  - intros H. bind_inv H. apply reject_if_ok in E. apply ok_or_ok in E0, E1. bool_props.
    simplify_eq. split_and!; [done..| | |eauto].
    + apply bt_key_get. eauto.
    + unfold power, voting_power. by rewrite E0.
  - intros (-> & -> & -> & Hm & -> & pk & -> & ->).
    rewrite !Z.eqb_refl, bool_decide_eq_true_2 by done. simpl.
    pose proof (member_power ac _ Hc Hm) as Hp. unfold voting_power in Hp. by rewrite Hp.
Qed.

Lemma verify_vote_ok ac vote p :
  context_ok ac → verify_vote ac vote = Ok p ↔ vote_valid ac vote ∧ p = power ac (v_voter vote).
Proof.
  intros Hc. unfold verify_vote, vote_valid.
  setoid_rewrite (verify_signature_key _ _ _ _ (ctx_crypto ac Hc)). split.
  - intros H. bind_inv H. apply reject_if_ok in E0. bool_props. simplify_eq.
    apply vote_credentials_ok in E as (? & ? & ? & ? & ? & pk & Hk & ->); [|done].
    rewrite Hk. by split_and!.
  - intros [(H1 & H2 & H3 & H4 & H5) ->].
    destruct (registered_key _ _) as [pk|] eqn:Hk; [|done].
    rewrite (proj2 (vote_credentials_ok ac vote (power ac (v_voter vote))
                      (mkDigestRequest pk (vote_signing_hash vote) (v_signature vote)) Hc))
      by eauto 10.
    unfold digest_verify. simpl. by rewrite H5.
Qed.

(** ** Batched and serial quorums agree *)

Lemma hoist_serial check votes :
  try_map (serial_vote check) votes =
  let '(weights, batch, rejected) := hoist check votes in
  match position (λ r, negb (digest_verify r)) batch with
  | Some _ => Err InvalidProof
  | None => match rejected with Some e => Err e | None => Ok weights end
  end.
Proof.
  induction votes as [|vote votes IH]; simpl; [done|]. unfold serial_vote at 1.
  destruct (check vote) as [[p r]|e]; [|done].
  destruct (hoist check votes) as [[weights batch] rejected]. simpl.
  destruct (digest_verify r); simpl; [|done]. rewrite IH.
  destruct (position _ batch); [done|]. by destruct rejected.
Qed.

Lemma decide_batch_serial ac check votes :
  decide_batch ac (hoist check votes) = serial_quorum ac check votes.
Proof.
  unfold serial_quorum. rewrite hoist_serial. unfold decide_batch, first_digest_failure.
  destruct (hoist check votes) as [[weights batch] rejected]. rewrite first_failure_serial_eq.
  destruct (position _ batch); [done|]. by destruct rejected.
Qed.

(** C6: hoisting the cheap checks and deciding all signatures as one parallel batch
    gives, for certificates and prevote proofs alike, exactly the accept or the error
    that checking vote by vote in order gives. *)
Theorem batch_quorum_serial ac check (votes : list Vote) :
  decide_batch ac (hoist check votes) = serial_quorum ac check votes.
Proof. apply decide_batch_serial. Qed.

(** A per-vote check that adds the condition [extra] to the credentials. *)
Definition refines ac (check : Vote → result (Z * DigestRequest) ConsensusError)
    (extra : Vote → Prop) : Prop :=
  ∀ v p r, check v = Ok (p, r) ↔ extra v ∧ vote_credentials ac v = Ok (p, r).

Lemma serial_vote_ok ac check extra v p :
  context_ok ac → refines ac check extra →
  serial_vote check v = Ok p ↔ (extra v ∧ vote_valid ac v) ∧ p = power ac (v_voter v).
Proof.
  intros Hc Hr. unfold serial_vote. split.
  - intros H. bind_inv H. simplify_eq. apply Hr in E as [Hx Hv].
    assert (verify_vote ac v = Ok p) as Hp by (unfold verify_vote; by rewrite Hv, E0).
    apply verify_vote_ok in Hp as [? ->]; [|done]. done.
  - intros [[Hx Hv] ->]. pose proof (proj2 (verify_vote_ok ac v _ Hc) (conj Hv eq_refl)) as H.
    unfold verify_vote in H. destruct (vote_credentials ac v) as [[p r]|] eqn:E; [|done].
    by rewrite (proj2 (Hr v p r) (conj Hx E)).
Qed.

Lemma serial_weights ac check extra votes ws :
  context_ok ac → refines ac check extra →
  try_map (serial_vote check) votes = Ok ws ↔
  Forall (λ v, extra v ∧ vote_valid ac v) votes ∧ ws = map (λ v, power ac (v_voter v)) votes.
Proof.
  intros Hc Hr. revert ws. induction votes as [|v votes IH]; intros ws; simpl.
  { split; [intros [= <-]; by split|by intros [_ ->]]. }
  rewrite Forall_cons. split.
  - intros H. bind_inv H. apply (serial_vote_ok ac check extra) in E as [? ->]; [|done..].
    destruct (proj1 (IH _) E0) as [? ->]. by subst.
  - intros [[Hv Hvs] ->]. rewrite (proj2 (serial_vote_ok ac check extra v _ Hc Hr) (conj Hv eq_refl)).
    by rewrite (proj2 (IH _) (conj Hvs eq_refl)).
Qed.

Lemma weight_fold ws acc t :
  0 <= acc → (∀ w, w ∈ ws → 0 <= w) →
  try_fold (λ total p, ok_or (checked_add 128 total p) InvalidCertificate) acc ws = Ok t ↔
  t = acc + sumZ (λ w, w) ws ∧ (ws = [] ∨ acc + sumZ (λ w, w) ws < 2 ^ 128).
Proof.
  revert acc. induction ws as [|w ws IH]; intros acc Ha Hw; simpl.
  { rewrite Z.add_0_r. naive_solver. }
  assert (0 <= w) by (apply Hw; left). assert (0 <= sumZ (λ w, w) ws).
  { apply sumZ_nonneg. intros x Hx. apply Hw. by right. }
  unfold checked_add. destruct (acc + w <? 2 ^ 128) eqn:E; simpl; bool_props.
  - rewrite IH; [|lia|intros x Hx; apply Hw; by right].
    split; intros [-> Hb]; (split; [lia|]).
    + right. destruct Hb as [->|]; simpl; lia.
    + destruct Hb as [|]; [done|]. right. lia.
  - split; [done|]. intros [_ [?|?]]; [done|]. lia.
Qed.

(** ** Sums over voters *)

Lemma members_nodup ac : context_ok ac → NoDup (members ac).
Proof. intros Hc. apply bt_ok_nodup, (ctx_powers_ok ac Hc). Qed.

Lemma voters_sum_le ac ids :
  context_ok ac → NoDup ids → (∀ id, id ∈ ids → id ∈ members ac) →
  0 <= sumZ (power ac) ids <= ac_total ac.
Proof.
  intros Hc Hnd Hin. split; [apply sumZ_nonneg; intros; by apply power_nonneg|].
  rewrite (sumZ_indicator _ ids (members ac)), total_as_members by eauto using members_nodup.
  apply sumZ_le. intros id _. pose proof (power_nonneg ac id Hc). case_decide; lia.
Qed.

(** Two sets of voters overlap in at least the excess of their powers. *)
Lemma voters_overlap ac ids1 ids2 :
  context_ok ac → NoDup ids1 → NoDup ids2 →
  (∀ id, id ∈ ids1 → id ∈ members ac) → (∀ id, id ∈ ids2 → id ∈ members ac) →
  sumZ (power ac) ids1 + sumZ (power ac) ids2 - ac_total ac
    <= sumZ (power ac) (filter (λ id, id ∈ ids2) ids1).
Proof.
  intros Hc H1 H2 I1 I2. pose proof (members_nodup ac Hc) as Hm.
  rewrite (sumZ_indicator _ ids1 (members ac)), (sumZ_indicator _ ids2 (members ac)) by done.
  rewrite (sumZ_indicator _ (filter _ ids1) (members ac)) by
    first [done | by apply NoDup_filter | by intros x [_ Hx]%list_elem_of_filter; apply I1].
  rewrite total_as_members by done.
  enough (sumZ (λ k, (if decide (k ∈ ids1) then power ac k else 0)
                     + (if decide (k ∈ ids2) then power ac k else 0)) (members ac)
          <= sumZ (λ k, power ac k + (if decide (k ∈ filter (λ id, id ∈ ids2) ids1)
                                      then power ac k else 0)) (members ac)) as He
    by (rewrite !sumZ_plus in He; lia).
  apply sumZ_le. intros k _. pose proof (power_nonneg ac k Hc).
  destruct (decide (k ∈ filter _ ids1)) as [|Hn]; repeat case_decide; try lia.
  exfalso. apply Hn. by apply list_elem_of_filter.
Qed.

(** ** Quorum certificates *)

Lemma serial_quorum_ok ac check extra votes :
  context_ok ac → refines ac check extra → NoDup (map v_voter votes) →
  serial_quorum ac check votes = Ok tt ↔
  Forall (λ v, extra v ∧ vote_valid ac v) votes
  ∧ quorum ac <= sumZ (power ac) (map v_voter votes).
Proof.
  intros Hc Hr Hnd. unfold serial_quorum.
  assert (∀ ws, ws = map (λ v, power ac (v_voter v)) votes →
                sumZ (λ w, w) ws = sumZ (power ac) (map v_voter votes)) as Hsum
    by (intros ws ->; by rewrite !sumZ_map).
  split.
  - intros H. bind_inv H. apply (serial_weights ac check extra) in E as [Hv Hw]; [|done..].
    apply weight_fold in E0 as [-> _]; [|lia|].
    + apply reject_if_ok in H. bool_props. rewrite (Hsum _ Hw) in H. split; [done|lia].
    + intros w. rewrite Hw, list_elem_of_In, in_map_iff. intros (v & <- & _). by apply power_nonneg.
  - intros [Hv Hq]. rewrite (proj2 (serial_weights ac check extra votes _ Hc Hr) (conj Hv eq_refl)).
    set (ws := map _ votes). specialize (Hsum ws eq_refl).
    assert (∀ id, id ∈ map v_voter votes → id ∈ members ac) as Hin.
    { intros id. rewrite list_elem_of_In, in_map_iff. intros (v & <- & Hx).
      rewrite Forall_forall in Hv. apply list_elem_of_In, Hv in Hx as [_ Hx]. apply Hx. }
    pose proof (voters_sum_le ac _ Hc Hnd Hin). pose proof (ctx_total_bound ac Hc).
    assert (∀ w, w ∈ ws → 0 <= w) as Hpos.
    { intros w. unfold ws. rewrite list_elem_of_In, in_map_iff. intros (v & <- & _).
      by apply power_nonneg. }
    rewrite (proj2 (weight_fold ws 0 (sumZ (λ w, w) ws) ltac:(lia) Hpos)).
    + apply reject_if_ok. apply Z.ltb_ge. lia.
    + split; [lia|]. right. lia.
Qed.

Lemma refines_credentials ac : refines ac (vote_credentials ac) (λ _, True).
Proof. intros v p r. tauto. Qed.

Lemma refines_prevote ac first :
  refines ac (prevote_check ac first)
    (λ v, v_phase v = Prevote ∧ v_round v = v_round first ∧ v_block v = v_block first).
Proof.
  intros v p r. unfold prevote_check. destruct (reject_if _ _) as [u|e] eqn:E.
  - apply reject_if_ok in E. bool_props. naive_solver.
  - apply reject_if_err in E as [E _]. rewrite !orb_true_iff, !negb_true_iff in E.
    split; [done|]. intros [(H1 & H2 & H3) _]. rewrite H1, H2, H3, Z.eqb_refl in E.
    rewrite !bool_decide_eq_true_2 in E by done. naive_solver.
Qed.

Lemma ascending_nodup {A : Type} `{!TotalOrd A} (xs : list A) :
  strictly_ascending xs = true → NoDup xs.
Proof. intros H%strictly_ascending_sorted. by apply sorted_lt_nodup. Qed.
End context_facts.

Section certificate_facts.
Context {blake : Blake2s} {ed : Ed25519} {host : Host}.
Implicit Types (ac : AuthenticatedCommittee).

(** A certificate stands in the context of [ac] and [header]. *)
Definition certificate_context ac (c : FinalityCertificate) (header : BlockHeader) : Prop :=
  bh_height header = ac_height ac ∧ bh_committee_root header = ac_root ac
  ∧ fc_chain_id c = ac_chain_id ac ∧ fc_height c = ac_height ac
  ∧ fc_committee_root c = ac_root ac ∧ fc_block c = header_hash header.

Definition cert_voters (c : FinalityCertificate) : list ValidatorId := map cs_voter (fc_signatures c).

Lemma cert_votes_voters c :
  map v_voter (map (certificate_vote c) (fc_signatures c)) = cert_voters c.
Proof. by rewrite map_map. Qed.

Lemma valid_voters_members ac votes :
  Forall (vote_valid ac) votes → ∀ id, id ∈ map v_voter votes → id ∈ members ac.
Proof.
  intros Hv id. rewrite list_elem_of_In, in_map_iff. intros (v & <- & Hx).
  rewrite Forall_forall in Hv. apply list_elem_of_In, Hv in Hx. apply Hx.
Qed.

Lemma Forall_true_and {A : Type} (P : A → Prop) xs : Forall (λ x, True ∧ P x) xs ↔ Forall P xs.
Proof. rewrite Forall_and. split; [by intros [_ ?]|]. intros H. split; [|done]. by apply Forall_true. Qed.

Lemma verify_certificate_ok ac c header :
  context_ok ac →
  verify_certificate ac c header = Ok tt ↔
  validate_shape c = Ok tt ∧ certificate_context ac c header
  ∧ Forall (vote_valid ac) (map (certificate_vote c) (fc_signatures c))
  ∧ quorum ac <= sumZ (power ac) (cert_voters c).
Proof.
  intros Hc. unfold verify_certificate, certificate_context.
  destruct (validate_shape c) as [[]|] eqn:Es; [|naive_solver]. simpl.
  pose proof (proj1 (validate_shape_ok c tt) Es) as [_ Hasc].
  pose proof (ascending_nodup _ Hasc) as Hnd.
  rewrite decide_batch_serial.
  pose proof (serial_quorum_ok ac _ _ (map (certificate_vote c) (fc_signatures c)) Hc
                (refines_credentials ac)) as Hsq.
  rewrite cert_votes_voters in Hsq. specialize (Hsq Hnd). rewrite Forall_true_and in Hsq.
  split.
  - intros H. bind_inv H. apply reject_if_ok in E. bool_props. apply Hsq in H as [Hv Hq]. by split_and!.
  - intros (_ & (-> & -> & -> & -> & -> & ->) & Hv & Hq).
    rewrite (proj2 (reject_if_ok _ _ tt)); [by apply Hsq|].
    rewrite !Z.eqb_refl, !bool_decide_eq_true_2 by done. simpl.
    apply Z.ltb_ge. pose proof (valid_voters_members ac _ Hv) as Hin.
    rewrite cert_votes_voters in Hin.
    assert (length (cert_voters c) <= length (members ac))%nat as Hl.
    { apply submseteq_length, NoDup_submseteq; [done|]. intros x Hx. by apply Hin. }
    unfold cert_voters, members, bt_keys in Hl. rewrite !length_map in Hl. unfold len. lia.
Qed.

Lemma prevote_from_votes_ok ac votes pc :
  context_ok ac →
  prevote_from_votes ac votes = Ok pc ↔
  pc = mkPrevoteCertificate votes ∧ 0 < len votes <= MAX_COMMITTEE_MEMBERS
  ∧ strictly_ascending (map v_voter votes) = true
  ∧ (∃ r b, Forall (λ v, v_phase v = Prevote ∧ v_round v = r ∧ v_block v = Some b) votes)
  ∧ Forall (vote_valid ac) votes ∧ quorum ac <= sumZ (power ac) (map v_voter votes).
Proof.
  intros Hc. unfold prevote_from_votes. destruct votes as [|first rest]; [split; [done|]|].
  { intros (_ & [Hl _] & _). done. }
  rewrite decide_batch_serial.
  assert (0 < len (first :: rest)) as Hpos by (rewrite len_cons; pose proof (len_nonneg rest); lia).
  pose proof (serial_quorum_ok ac _ _ (first :: rest) Hc (refines_prevote ac first)) as Hsq.
  set (votes := first :: rest) in *. split.
  - intros H'. bind_inv H'. apply reject_if_ok in E, E0. bool_props.
    destruct a1. apply Hsq in E1 as [Hv Hq]; [|by apply ascending_nodup].
    apply Forall_and in Hv as [Hx Hv].
    split_and!; try done; try lia. destruct (v_block first) as [b|] eqn:Eb; [|done].
    exists (v_round first), b. done.
  - intros (-> & Hl & Hasc & (r & b & Hx) & Hv & Hq). rewrite Hasc.
    rewrite (proj2 (reject_if_ok _ _ tt)) by (rewrite orb_false_r; lia).
    pose proof Hx as [(Hp1 & Hr1 & Hb1) _]%Forall_cons.
    rewrite Hb1, (proj2 (reject_if_ok _ _ tt)) by done.
    rewrite (proj2 (Hsq (ascending_nodup _ Hasc))); [done|]. split; [|done].
    apply Forall_and. split; [|done]. eapply Forall_impl; [exact Hx|]. simpl.
    intros v (? & ? & ?). rewrite Hr1, Hb1. done.
Qed.

(** C7: a finality certificate is accepted for a header exactly when it is
    canonically shaped, names this chain, height, committee and header hash, every
    entry is a valid precommit signature of a distinct committee member, and the
    members' exact total power reaches the quorum. *)
Theorem verify_certificate_iff ac c header :
  authenticated ac →
  verify_certificate ac c header = Ok tt ↔
  validate_shape c = Ok tt ∧ certificate_context ac c header
  ∧ Forall (vote_valid ac) (map (certificate_vote c) (fc_signatures c))
  ∧ quorum ac <= sumZ (power ac) (cert_voters c).
Proof. intros H%context_ok_new. by apply verify_certificate_ok. Qed.

(** a prevote certificate is built from votes exactly when they are non-empty,
    bounded, strictly ascending by voter, all prevotes for one round and one non-nil
    block, all validly signed by members, and reach the quorum. *)
Theorem prevote_certificate_iff ac votes pc :
  authenticated ac →
  prevote_from_votes ac votes = Ok pc ↔
  pc = mkPrevoteCertificate votes ∧ 0 < len votes <= MAX_COMMITTEE_MEMBERS
  ∧ strictly_ascending (map v_voter votes) = true
  ∧ (∃ r b, Forall (λ v, v_phase v = Prevote ∧ v_round v = r ∧ v_block v = Some b) votes)
  ∧ Forall (vote_valid ac) votes ∧ quorum ac <= sumZ (power ac) (map v_voter votes).
Proof. intros H%context_ok_new. by apply prevote_from_votes_ok. Qed.

(** ** Quorum intersection *)

(** Any two quorums share voters of power above a third of the total. *)
Lemma quorum_intersection ac ids1 ids2 :
  context_ok ac → NoDup ids1 → NoDup ids2 →
  (∀ id, id ∈ ids1 → id ∈ members ac) → (∀ id, id ∈ ids2 → id ∈ members ac) →
  quorum ac <= sumZ (power ac) ids1 → quorum ac <= sumZ (power ac) ids2 →
  2 * quorum ac - ac_total ac <= sumZ (power ac) (filter (λ id, id ∈ ids2) ids1).
Proof. intros Hc H1 H2 I1 I2 Q1 Q2. pose proof (voters_overlap ac ids1 ids2 Hc H1 H2 I1 I2). lia. Qed.

(** If the overlap outweighs the faulty, someone in both quorums is not faulty. *)
Lemma honest_in_both ac (faulty : ValidatorId → bool) ids1 ids2 :
  context_ok ac → NoDup ids1 → NoDup ids2 →
  (∀ id, id ∈ ids1 → id ∈ members ac) → (∀ id, id ∈ ids2 → id ∈ members ac) →
  quorum ac <= sumZ (power ac) ids1 → quorum ac <= sumZ (power ac) ids2 →
  sumZ (λ id, if faulty id then power ac id else 0) (members ac) < 2 * quorum ac - ac_total ac →
  ∃ id, id ∈ ids1 ∧ id ∈ ids2 ∧ faulty id = false.
Proof.
  intros Hc H1 H2 I1 I2 Q1 Q2 Hf.
  pose proof (quorum_intersection ac ids1 ids2 Hc H1 H2 I1 I2 Q1 Q2) as Hq.
  set (both := filter (λ id, id ∈ ids2) ids1) in *.
  destruct (decide (Exists (λ id, faulty id = false) both)) as [He|Hn].
  - apply Exists_exists in He as (id & [? ?]%list_elem_of_filter & ?). eauto.
  - exfalso. apply not_Exists_Forall in Hn; [|intros; apply _].
    assert (NoDup both) by (by apply NoDup_filter).
    rewrite (sumZ_indicator _ both (members ac)) in Hq by
      first [done | by apply members_nodup | by intros x [_ Hx]%list_elem_of_filter; apply I1].
    enough (sumZ (λ k, if decide (k ∈ both) then power ac k else 0) (members ac)
            <= sumZ (λ id, if faulty id then power ac id else 0) (members ac)) by lia.
    apply sumZ_le. intros k _. pose proof (power_nonneg ac k Hc).
    destruct (decide (k ∈ both)) as [Hin|]; [|destruct (faulty k); lia].
    rewrite Forall_forall in Hn. specialize (Hn k Hin).
    simpl in Hn. destruct (faulty k); [lia|by destruct Hn].
Qed.

(** ** Evidence and designation *)

Lemma evidence_verify_ok ac e :
  context_ok ac →
  evidence_verify ac e = Ok tt ↔
  same_slot e = true ∧ vote_valid ac (ev_first e) ∧ vote_valid ac (ev_second e).
Proof.
  intros Hc. unfold evidence_verify. split.
  - intros H. bind_inv H. apply reject_if_ok in E. bool_props.
    apply verify_vote_ok in E0 as [? _], E1 as [? _]; done.
  - intros (-> & H1 & H2). simpl.
    rewrite (proj2 (verify_vote_ok ac _ _ Hc) (conj H1 eq_refl)).
    by rewrite (proj2 (verify_vote_ok ac _ _ Hc) (conj H2 eq_refl)).
Qed.

Lemma evidence_from_votes_valid ac v1 v2 :
  context_ok ac → vote_valid ac v1 → vote_valid ac v2 → v_round v1 = v_round v2 →
  v_phase v1 = v_phase v2 → v_voter v1 = v_voter v2 → v_block v1 ≠ v_block v2 →
  ∃ proof, evidence_from_votes ac v1 v2 = Ok proof ∧ evidence_verify ac proof = Ok tt
           ∧ v_voter (ev_first proof) = v_voter v1.
Proof.
  intros Hc H1 H2 Hr Hp Hv Hne. unfold evidence_from_votes. cbn zeta.
  set (proof := if ltb _ _ then _ else _).
  assert (evidence_verify ac proof = Ok tt ∧ v_voter (ev_first proof) = v_voter v1) as [E ?].
  { rewrite (evidence_verify_ok ac proof Hc), same_slot_iff. unfold proof, vote_valid in *.
    destruct H1 as (? & ? & ? & ? & ?), H2 as (? & ? & ? & ? & ?).
    destruct (ltb_ne_cases _ _ Hne) as [[Hl _]|[Hl Hl']]; rewrite Hl; simpl;
      split_and!; first [congruence | by apply ltb_lt_of]. }
  rewrite E. eauto.
Qed.

(** double-vote evidence can be built from two votes exactly when both are
    validly signed by the same member for one slot with different block values, in
    either order, and the proof is the same whichever vote is given first. *)
Theorem evidence_from_votes_iff ac v1 v2 :
  authenticated ac →
  (is_ok (evidence_from_votes ac v1 v2) = true ↔
   vote_valid ac v1 ∧ vote_valid ac v2 ∧ v_round v1 = v_round v2 ∧ v_phase v1 = v_phase v2
   ∧ v_voter v1 = v_voter v2 ∧ v_block v1 ≠ v_block v2)
  ∧ (v_block v1 ≠ v_block v2 → evidence_from_votes ac v1 v2 = evidence_from_votes ac v2 v1).
Proof.
  intros Hc%context_ok_new. split; [split|].
  - unfold evidence_from_votes. destruct (evidence_verify ac _) as [[]|] eqn:E; [intros _|done].
    apply evidence_verify_ok in E as (Hs & Ha & Hb); [|done]. apply same_slot_iff in Hs.
    destruct (ltb _ _); simpl in *; destruct Hs as (? & ? & ? & ? & ? & ? & Hlt);
      apply lt_of_ne in Hlt; split_and!; first [done | congruence].
  - intros (H1 & H2 & Hr & Hp & Hv & Hne).
    by destruct (evidence_from_votes_valid ac v1 v2) as (proof & -> & _).
  - intros Hne. unfold evidence_from_votes. by destruct (ltb_ne_cases _ _ Hne) as [[-> ->]|[-> ->]].
Qed.
End certificate_facts.

(** ** A four-member committee to evaluate the model on *)

Section examples.
#[local] Existing Instance checksum_blake2s.
#[local] Existing Instance checksum_ed25519.
#[local] Existing Instance serial_host.

Definition sample_seeds : list bytes :=
  [repeat (byte_of 1) 32; repeat (byte_of 2) 32; repeat (byte_of 3) 32; repeat (byte_of 4) 32].

Definition seed_id (seed : bytes) : ValidatorId := blake2s (sk_public seed).

Definition sample_committee : Committee :=
  mkCommittee 5 (map (λ s, mkMember (seed_id s) 10) sample_seeds).

Definition empty_context : AuthenticatedCommittee := mkAuthenticated 0 0 [] 0 [] [] [].

Definition sample_ac : AuthenticatedCommittee :=
  match authenticated_new 7 sample_committee (map sk_public sample_seeds) with
  | Ok ac => ac
  | Err _ => empty_context
  end.

Lemma sample_ac_new :
  authenticated_new 7 sample_committee (map sk_public sample_seeds) = Ok sample_ac.
Proof.
  unfold sample_ac. assert (is_ok (authenticated_new 7 sample_committee
    (map sk_public sample_seeds)) = true) as H by (vm_compute; reflexivity).
  by destruct (authenticated_new _ _ _).
Qed.

Lemma sample_authenticated : authenticated sample_ac.
Proof.
  exists 7, sample_committee, (map sk_public sample_seeds). split; [|exact sample_ac_new].
  unfold sample_committee, sample_seeds, fits. simpl. repeat constructor; simpl; lia.
Qed.

Definition sample_header : BlockHeader :=
  mkHeader 5 zero32 zero32 zero32 zero32 (ac_root sample_ac) resources_zero.

Definition sign_vote (seed : bytes) (v : Vote) : Vote :=
  mkVote (v_chain_id v) (v_committee_root v) (v_height v) (v_round v) (v_phase v) (v_block v)
    (v_voter v) (sk_sign seed (vote_signing_hash v)).

Definition sample_vote (round : Z) (phase : VotePhase) (block : option Hash256) (seed : bytes)
    : Vote :=
  sign_vote seed (mkVote 7 (ac_root sample_ac) 5 round phase block (seed_id seed) zero64).

(** Three of the four members, in identity order. *)
Definition sample_signers : list bytes :=
  let '(m, _) := fold_left (λ '(m, n) s, (bt_insert (seed_id s) s m, S n)) (take 3 sample_seeds)
                   (@nil (ValidatorId * bytes), O) in
  bt_values m.

Definition sample_certificate : FinalityCertificate :=
  mkCertificate 7 5 0 (ac_root sample_ac) (header_hash sample_header)
    (map (λ s, let v := sample_vote 0 Precommit (Some (header_hash sample_header)) s in
               mkCertSig (v_voter v) (v_signature v)) sample_signers).

Definition sample_prevotes : list Vote :=
  map (sample_vote 0 Prevote (Some (header_hash sample_header))) sample_signers.

Lemma total_power_iff_witness :
  total_power sample_committee = Ok 40 ∧ NoDup (map m_id (c_members sample_committee)).
Proof.
  assert (total_power sample_committee = Ok 40) as H by by vm_compute.
  split; [exact H|]. apply (total_power_iff sample_committee 40) in H; [apply H|].
  unfold sample_committee, sample_seeds, fits. simpl. repeat constructor; simpl; lia.
Defined.

Lemma verify_certificate_iff_witness :
  verify_certificate sample_ac sample_certificate sample_header = Ok tt
  ∧ quorum sample_ac <= sumZ (power sample_ac) (cert_voters sample_certificate).
Proof.
  assert (verify_certificate sample_ac sample_certificate sample_header = Ok tt) as H by by vm_compute.
  split; [exact H|].
  exact (proj2 (proj2 (proj2 (proj1
    (verify_certificate_iff sample_ac sample_certificate sample_header sample_authenticated) H)))).
Defined.

Lemma prevote_certificate_iff_witness :
  is_ok (prevote_from_votes sample_ac sample_prevotes) = true
  ∧ quorum sample_ac <= sumZ (power sample_ac) (map v_voter sample_prevotes).
Proof.
  assert (prevote_from_votes sample_ac sample_prevotes = Ok (mkPrevoteCertificate sample_prevotes))
    as H by by vm_compute.
  split; [by rewrite H|].
  by apply (prevote_certificate_iff sample_ac sample_prevotes
              (mkPrevoteCertificate sample_prevotes) sample_authenticated) in H as (_ & _ & _ & _ & _ & H).
Defined.

Lemma evidence_from_votes_iff_witness :
  is_ok (evidence_from_votes sample_ac (sample_vote 2 Prevote None (repeat (byte_of 1) 32))
           (sample_vote 2 Prevote (Some zero32) (repeat (byte_of 1) 32))) = true.
Proof.
  apply (proj1 (evidence_from_votes_iff sample_ac _ _ sample_authenticated)).
  unfold vote_valid. split_and!; try by vm_compute.
  - apply bt_key_get. eexists. by vm_compute.
  - apply bt_key_get. eexists. by vm_compute.
Defined.
End examples.
