(* ===== verification/Finality.v ===== *)
(** * Finality: authenticated vote aggregation for one height

    [BftFinalityEngine] of [src/crates/consensus/src/finality.rs]: votes of the
    active round are authenticated, counted per phase and value, turned into a
    finality certificate at the first precommit quorum, and conflicting votes
    are kept as evidence.  The invariant [engine_ok] relates the running totals
    to the recorded votes and is preserved by every operation. *)

From S2P Require Import Prelude Ordered Codec Types Crypto Votes Committee.
From Stdlib Require Import Sorting.Sorted.

Section finality.
Context {blake : Blake2s} {ed : Ed25519} {host : Host}.

Record BftFinalityEngine := mkEngine {
  fe_context : AuthenticatedCommittee;
  fe_round : Z;
  fe_votes : BTreeMap (ValidatorId * VotePhase) Vote;
  fe_power : BTreeMap (VotePhase * option Hash256) Z;
  fe_certificate : option FinalityCertificate;
  fe_evidence : BTreeMap ValidatorId DoubleVoteEvidence
}.

Definition engine_for_round (context : AuthenticatedCommittee) (round : Z) : BftFinalityEngine :=
  mkEngine context round [] [] None [].

Definition engine_new (context : AuthenticatedCommittee) : BftFinalityEngine :=
  engine_for_round context 0.

(** Votes of one phase and value, in voter order. *)
Definition votes_for (phase : VotePhase) (block : option Hash256)
    (votes : BTreeMap (ValidatorId * VotePhase) Vote) : list Vote :=
  List.filter (λ v, bool_decide (v_phase v = phase) && bool_decide (v_block v = block))
    (bt_values votes).

Definition prevote_certificate (e : BftFinalityEngine) (block : Hash256)
    : result PrevoteCertificate ConsensusError :=
  prevote_from_votes (fe_context e) (votes_for Prevote (Some block) (fe_votes e)).

Definition advance_round (e : BftFinalityEngine) : result BftFinalityEngine ConsensusError :=
  let? _ := reject_if (is_some (fe_certificate e)) InvalidTransition in
  let? next := ok_or (checked_add 32 (fe_round e) 1) InvalidTransition in
  Ok (mkEngine (fe_context e) next [] [] (fe_certificate e) (fe_evidence e)).

Definition set_evidence (e : BftFinalityEngine) (evidence : BTreeMap ValidatorId DoubleVoteEvidence)
    : BftFinalityEngine :=
  mkEngine (fe_context e) (fe_round e) (fe_votes e) (fe_power e) (fe_certificate e) evidence.

(** The engine is mutated on some error paths, so it is returned beside the result. *)
Definition receive_vote (e : BftFinalityEngine) (vote : Vote)
    : BftFinalityEngine * result unit ConsensusError :=
  if negb (v_round vote =? fe_round e) then (e, Err InvalidTransition) else
  match verify_vote (fe_context e) vote with
  | Err error => (e, Err error)
  | Ok power =>
      let key := (v_voter vote, v_phase vote) in
      match bt_get key (fe_votes e) with
      | Some previous =>
          let rejection : result unit ConsensusError :=
            Err (if decide (v_block previous = v_block vote) then DuplicateVote else Equivocation) in
          if negb (bool_decide (v_block previous = v_block vote))
             && negb (bt_contains (v_voter vote) (fe_evidence e))
          then
            match evidence_from_votes (fe_context e) previous vote with
            | Err error => (e, Err error)
            | Ok proof =>
                (set_evidence e (bt_insert (v_voter vote) proof (fe_evidence e)), rejection)
            end
          else (e, rejection)
      | None =>
          if is_some (fe_certificate e) then (e, Err InvalidTransition) else
          let power_key := (v_phase vote, v_block vote) in
          match checked_add 128 (default 0 (bt_get power_key (fe_power e))) power with
          | None => (e, Err InvalidCommittee)
          | Some total =>
              let votes := bt_insert key vote (fe_votes e) in
              let certificate :=
                match v_phase vote, v_block vote with
                | Precommit, Some block =>
                    if quorum (fe_context e) <=? total then
                      Some (mkCertificate (ac_chain_id (fe_context e)) (ac_height (fe_context e))
                              (fe_round e) (ac_root (fe_context e)) block
                              (map (λ v, mkCertSig (v_voter v) (v_signature v))
                                 (votes_for Precommit (Some block) votes)))
                    else fe_certificate e
                | _, _ => fe_certificate e
                end in
              (mkEngine (fe_context e) (fe_round e) votes
                 (bt_insert power_key total (fe_power e)) certificate (fe_evidence e), Ok tt)
          end
      end
  end.

Definition finalized_block (e : BftFinalityEngine) : option Hash256 :=
  option_map fc_block (fe_certificate e).

(** ** Invariant *)

(** Exact power behind one phase and value. *)
Definition tally (e : BftFinalityEngine) (phase : VotePhase) (block : option Hash256) : Z :=
  sumZ (power (fe_context e)) (map v_voter (votes_for phase block (fe_votes e))).

(** The certificate authenticates for every header it can belong to. *)
Definition certificate_verifies (ac : AuthenticatedCommittee) (c : FinalityCertificate) : Prop :=
  fc_chain_id c = ac_chain_id ac ∧ fc_height c = ac_height ac ∧ fc_committee_root c = ac_root ac
  ∧ ∀ header, bh_height header = ac_height ac → bh_committee_root header = ac_root ac →
      header_hash header = fc_block c → verify_certificate ac c header = Ok tt.

(** The recorded votes are authentic and the running totals are exact. *)
Record counts_ok (e : BftFinalityEngine) : Prop := {
  eng_context : context_ok (fe_context e);
  eng_votes_ok : bt_ok (fe_votes e);
  eng_power_ok : bt_ok (fe_power e);
  eng_votes : ∀ k v, bt_get k (fe_votes e) = Some v →
    k = (v_voter v, v_phase v) ∧ v_round v = fe_round e ∧ vote_valid (fe_context e) v;
  eng_power : ∀ phase block,
    default 0 (bt_get (phase, block) (fe_power e)) = tally e phase block
}.

Record engine_ok (e : BftFinalityEngine) : Prop := {
  eng_counts : counts_ok e;
  eng_certificate : ∀ c, fe_certificate e = Some c → certificate_verifies (fe_context e) c;
  eng_complete : fe_certificate e = None →
    ∀ block, tally e Precommit (Some block) < quorum (fe_context e);
  eng_evidence : ∀ id ev, bt_get id (fe_evidence e) = Some ev →
    v_voter (ev_first ev) = id ∧ evidence_verify (fe_context e) ev = Ok tt
}.

Inductive engine_step : BftFinalityEngine → BftFinalityEngine → Prop :=
| step_receive e vote e' r : receive_vote e vote = (e', r) → engine_step e e'
| step_advance e e' : advance_round e = Ok e' → engine_step e e'.

(** Engines reachable from a fresh collector of an authenticated committee. *)
Definition engine_reach (e : BftFinalityEngine) : Prop :=
  ∃ ac round, authenticated ac ∧ rtc engine_step (engine_for_round ac round) e.
End finality.

Section finality_facts.
Context {blake : Blake2s} {ed : Ed25519} {host : Host}.
Implicit Types (e : BftFinalityEngine) (votes : BTreeMap (ValidatorId * VotePhase) Vote).

(** ** Votes of one value *)

Lemma elem_votes_for phase block votes v :
  v ∈ votes_for phase block votes ↔
  v_phase v = phase ∧ v_block v = block ∧ ∃ k, (k, v) ∈ votes.
Proof.
  unfold votes_for. rewrite list_elem_of_In, filter_In, <- list_elem_of_In, bt_in_values.
  rewrite andb_true_iff, !bool_decide_eq_true. tauto.
Qed.

Lemma filter_perm {A : Type} (f : A → bool) (xs ys : list A) :
  Permutation xs ys → Permutation (List.filter f xs) (List.filter f ys).
Proof.
  induction 1; simpl; [done|by case_match; [constructor|]| |by etrans].
  repeat case_match; by constructor || reflexivity.
Qed.

Lemma votes_for_insert phase block votes k v :
  bt_get k votes = None →
  Permutation (votes_for phase block (bt_insert k v votes))
    (if decide (v_phase v = phase ∧ v_block v = block)
     then v :: votes_for phase block votes else votes_for phase block votes).
Proof.
  intros Hk. unfold votes_for, bt_values.
  rewrite (filter_perm _ _ _ (Permutation_map snd (bt_insert_fresh_perm k v votes Hk))). simpl.
  case_decide as H.
  - destruct H as [-> ->]. by rewrite !bool_decide_eq_true_2.
  - destruct (bool_decide (v_phase v = phase)) eqn:E1; [|done].
    destruct (bool_decide (v_block v = block)) eqn:E2; [|done]. bool_props. naive_solver.
Qed.

Lemma pair_lt_fst {A B : Type} `{!TotalOrd A, !TotalOrd B} (a1 a2 : A) (b : B) :
  lt_of (a1, b) (a2, b) → lt_of a1 a2.
Proof.
  unfold lt_of. simpl. unfold pair_cmp. simpl. destruct (cmp a1 a2); [|done..].
  by rewrite cmp_refl.
Qed.

Lemma votes_for_ascending phase block votes :
  bt_ok votes → (∀ k v, (k, v) ∈ votes → k = (v_voter v, v_phase v)) →
  StronglySorted lt_of (map v_voter (votes_for phase block votes)).
Proof.
  unfold votes_for. induction votes as [|[k v] votes IH]; simpl; [constructor|].
  intros [Hok Hlt]%bt_ok_cons_inv Hkey.
  assert (∀ k' v', (k', v') ∈ votes → k' = (v_voter v', v_phase v')) as Hkey'
    by (intros k' v' Hin; apply Hkey; by right).
  destruct (_ && _) eqn:Em; [|by apply IH]. bool_props. simpl. constructor; [by apply IH|].
  rewrite Forall_forall. intros id. rewrite list_elem_of_In, in_map_iff.
  intros (w & <- & [Hw Hm]%filter_In). bool_props. apply list_elem_of_In, bt_in_values in Hw as [k' Hw].
  pose proof (Hkey k v ltac:(left)) as ->. pose proof (Hkey' _ _ Hw) as ->.
  apply (pair_lt_fst _ _ phase). apply bt_in_keys, Hlt in Hw. simpl in Hw. congruence.
Qed.

(** Voters of one value: ascending, distinct members. *)
Lemma engine_voters e phase block :
  counts_ok e →
  let vs := votes_for phase block (fe_votes e) in
  strictly_ascending (map v_voter vs) = true ∧ NoDup (map v_voter vs)
  ∧ Forall (vote_valid (fe_context e)) vs
  ∧ Forall (λ v, v_phase v = phase ∧ v_round v = fe_round e ∧ v_block v = block) vs.
Proof.
  intros He vs. assert (∀ k v, (k, v) ∈ fe_votes e →
    k = (v_voter v, v_phase v) ∧ v_round v = fe_round e ∧ vote_valid (fe_context e) v) as Hv.
  { intros k v Hin. apply (eng_votes e He). by apply bt_in_get; [apply (eng_votes_ok e He)|]. }
  assert (strictly_ascending (map v_voter vs) = true) as Ha.
  { apply strictly_ascending_sorted, votes_for_ascending; [apply (eng_votes_ok e He)|].
    intros k v Hin. by apply Hv. }
  split_and!; [done|by apply ascending_nodup|..]; rewrite Forall_forall; intros v
    (Hp & Hb & k & Hin)%elem_votes_for; by apply Hv in Hin as (_ & ? & ?).
Qed.

Lemma tally_bound e phase block : counts_ok e → 0 <= tally e phase block < 2 ^ 128.
Proof.
  intros He. destruct (engine_voters e phase block He) as (_ & Hnd & Hv & _).
  pose proof (voters_sum_le _ _ (eng_context e He) Hnd (valid_voters_members _ _ Hv)).
  pose proof (ctx_total_bound _ (eng_context e He)). unfold tally. lia.
Qed.

Lemma voters_len e phase block :
  counts_ok e → len (votes_for phase block (fe_votes e)) <= MAX_COMMITTEE_MEMBERS.
Proof.
  intros He. destruct (engine_voters e phase block He) as (_ & Hnd & Hv & _).
  assert (length (map v_voter (votes_for phase block (fe_votes e)))
          <= length (members (fe_context e)))%nat as Hl.
  { apply submseteq_length, NoDup_submseteq; [done|]. intros x Hx.
    by apply (valid_voters_members _ _ Hv). }
  pose proof (ctx_len _ (eng_context e He)). unfold members, bt_keys, len in *.
  rewrite !length_map in Hl. lia.
Qed.

(** A quorum of recorded precommits makes a certificate that verifies. *)
Lemma quorum_certificate e block :
  counts_ok e → quorum (fe_context e) <= tally e Precommit (Some block) →
  certificate_verifies (fe_context e)
    (mkCertificate (ac_chain_id (fe_context e)) (ac_height (fe_context e)) (fe_round e)
       (ac_root (fe_context e)) block
       (map (λ v, mkCertSig (v_voter v) (v_signature v))
          (votes_for Precommit (Some block) (fe_votes e)))).
Proof.
  intros He Hq. pose proof (voters_len e Precommit (Some block) He) as Hlen.
  destruct (engine_voters e Precommit (Some block) He) as (Ha & Hnd & Hv & Hx).
  set (vs := votes_for _ _ _) in *. split_and!; [done..|].
  intros header H1 H2 H3. apply verify_certificate_ok; [apply (eng_context e He)|].
  unfold certificate_context, cert_voters. simpl. rewrite !map_map. simpl.
  split_and!; try done.
  - apply validate_shape_ok. simpl. rewrite len_map, map_map. split; [|done].
    split; [|done]. pose proof (context_quorum_pos _ (eng_context e He)).
    unfold tally in Hq. fold vs in Hq. destruct vs; [simpl in Hq; lia|rewrite len_cons].
    pose proof (len_nonneg vs). lia.
  - rewrite Forall_forall in Hv, Hx |- *. intros w. rewrite list_elem_of_In, in_map_iff.
    intros (v & <- & Hin%list_elem_of_In). pose proof (Hv v Hin) as Hvv.
    pose proof (Hx v Hin) as (Hp & Hr & Hb). destruct Hvv as (E1 & E2 & E3 & E4 & E5).
    unfold certificate_vote. simpl. unfold vote_valid. simpl. split_and!; try done.
    rewrite <- E5. f_equal. by rewrite <- E1, <- E2, <- E3, <- Hp, <- Hr, <- Hb.
Qed.

(** ** Preservation *)

Lemma engine_ok_empty ac round certificate evidence :
  context_ok ac →
  (∀ c, certificate = Some c → certificate_verifies ac c) →
  (∀ id ev, bt_get id evidence = Some ev →
     v_voter (ev_first ev) = id ∧ evidence_verify ac ev = Ok tt) →
  engine_ok (mkEngine ac round [] [] certificate evidence).
Proof.
  intros Hc Hcert Hev. split; simpl; [by split; simpl; try apply bt_ok_nil|done| |done].
  intros _ block. unfold tally. simpl. by apply context_quorum_pos.
Qed.

Lemma engine_ok_for_round ac round : context_ok ac → engine_ok (engine_for_round ac round).
Proof. intros Hc. by apply engine_ok_empty. Qed.

Lemma advance_round_ok e e' : engine_ok e → advance_round e = Ok e' → engine_ok e'.
Proof.
  intros He H. unfold advance_round in H. bind_inv H. subst e'.
  apply engine_ok_empty; [apply (eng_counts e He)|apply He..].
Qed.

Lemma counts_insert e vote total certificate :
  counts_ok e → v_round vote = fe_round e → vote_valid (fe_context e) vote →
  bt_get (v_voter vote, v_phase vote) (fe_votes e) = None →
  total = default 0 (bt_get (v_phase vote, v_block vote) (fe_power e))
          + power (fe_context e) (v_voter vote) →
  let e' := mkEngine (fe_context e) (fe_round e)
              (bt_insert (v_voter vote, v_phase vote) vote (fe_votes e))
              (bt_insert (v_phase vote, v_block vote) total (fe_power e))
              certificate (fe_evidence e) in
  counts_ok e'
  ∧ ∀ phase block, tally e' phase block =
      tally e phase block + (if decide (v_phase vote = phase ∧ v_block vote = block)
                             then power (fe_context e) (v_voter vote) else 0).
Proof.
  intros He Hr Hv Hfresh -> e'.
  assert (∀ phase block, tally e' phase block =
      tally e phase block + (if decide (v_phase vote = phase ∧ v_block vote = block)
                             then power (fe_context e) (v_voter vote) else 0)) as Ht.
  { intros phase block. unfold tally. simpl.
    rewrite (sumZ_perm _ _ _ (Permutation_map v_voter
      (votes_for_insert phase block (fe_votes e) _ vote Hfresh))).
    case_decide; simpl; lia. }
  split; [|done]. destruct He as [Hc Ho Hp Hvs Hpw]. split; simpl; [done|auto with astro..| |].
  - intros k v. destruct (decide (k = (v_voter vote, v_phase vote))) as [->|Hne].
    + rewrite bt_get_insert_eq. by intros [= <-].
    + rewrite bt_get_insert_ne by done. apply Hvs.
  - intros phase block. rewrite Ht.
    destruct (decide (v_phase vote = phase ∧ v_block vote = block)) as [[<- <-]|Hne].
    + rewrite bt_get_insert_eq. simpl. by rewrite Hpw.
    + rewrite bt_get_insert_ne by (intros [= ? ?]; naive_solver). rewrite Hpw. lia.
Qed.

(** Accepting a fresh valid vote preserves the invariant. *)
Lemma receive_fresh_ok e vote total certificate :
  engine_ok e → fe_certificate e = None → v_round vote = fe_round e →
  vote_valid (fe_context e) vote →
  bt_get (v_voter vote, v_phase vote) (fe_votes e) = None →
  total = default 0 (bt_get (v_phase vote, v_block vote) (fe_power e))
          + power (fe_context e) (v_voter vote) →
  let votes := bt_insert (v_voter vote, v_phase vote) vote (fe_votes e) in
  certificate =
    match v_phase vote, v_block vote with
    | Precommit, Some block =>
        if quorum (fe_context e) <=? total then
          Some (mkCertificate (ac_chain_id (fe_context e)) (ac_height (fe_context e))
                  (fe_round e) (ac_root (fe_context e)) block
                  (map (λ v, mkCertSig (v_voter v) (v_signature v))
                     (votes_for Precommit (Some block) votes)))
        else fe_certificate e
    | _, _ => fe_certificate e
    end →
  engine_ok (mkEngine (fe_context e) (fe_round e) votes
               (bt_insert (v_phase vote, v_block vote) total (fe_power e)) certificate
               (fe_evidence e)).
Proof.
  intros He Hnone Hr Hv Hfresh Htot votes Hcert.
  destruct (counts_insert e vote total certificate (eng_counts e He) Hr Hv Hfresh Htot) as [Hc Ht].
  fold votes in Hc, Ht. set (e' := mkEngine _ _ votes _ certificate _) in *.
  assert (tally e' (v_phase vote) (v_block vote) = total) as Htv.
  { rewrite Ht, decide_True by done. by rewrite <- (eng_power e (eng_counts e He)), Htot. }
  split; [done|..|apply (eng_evidence e He)].
  - intros c Hs. simpl in Hs. rewrite Hcert, Hnone in Hs.
    destruct (v_phase vote) eqn:Ep, (v_block vote) as [b|] eqn:Eb; try done.
    destruct (quorum _ <=? total) eqn:Eq; [|done]. injection Hs as <-. bool_props.
    apply (quorum_certificate e' b Hc). by rewrite Htv.
  - intros Hs block. simpl in Hs. rewrite Hcert, Hnone in Hs. rewrite Ht. case_decide as Hd.
    + destruct Hd as [Hp Hb]. rewrite Hp, Hb in Hs. destruct (quorum _ <=? total) eqn:Eq; [done|].
      bool_props. pose proof (eng_power e (eng_counts e He) Precommit (Some block)) as Hpw.
      rewrite Hp, Hb in Htot. simpl. lia.
    + pose proof (eng_complete e He Hnone block). simpl. lia.
Qed.

(** What [receive_vote] does, branch by branch. *)
Lemma receive_vote_spec e vote e' r :
  engine_ok e → receive_vote e vote = (e', r) →
  engine_ok e' ∧ fe_context e' = fe_context e ∧ fe_round e' = fe_round e
  ∧ (r = Ok tt ↔ v_round vote = fe_round e ∧ vote_valid (fe_context e) vote
                 ∧ bt_get (v_voter vote, v_phase vote) (fe_votes e) = None
                 ∧ fe_certificate e = None)
  ∧ (r = Ok tt → fe_votes e' = bt_insert (v_voter vote, v_phase vote) vote (fe_votes e))
  ∧ (r ≠ Ok tt → fe_votes e' = fe_votes e ∧ fe_power e' = fe_power e
                 ∧ fe_certificate e' = fe_certificate e)
  ∧ (r = Err Equivocation ↔
     v_round vote = fe_round e ∧ vote_valid (fe_context e) vote
     ∧ ∃ v, bt_get (v_voter vote, v_phase vote) (fe_votes e) = Some v ∧ v_block v ≠ v_block vote)
  ∧ (r = Err Equivocation → is_Some (bt_get (v_voter vote) (fe_evidence e'))).
Proof.
  intros He H. pose proof (eng_counts e He) as Hc. pose proof (eng_context e Hc) as Hctx.
  unfold receive_vote in H. destruct (v_round vote =? fe_round e) eqn:Er; cycle 1.
  { simpl in H. simplify_eq. bool_props. naive_solver. }
  bool_props. simpl in H. destruct (verify_vote _ vote) as [p|err] eqn:Ev; cycle 1.
  { simplify_eq. assert (¬ vote_valid (fe_context e') vote) as Hn.
    { intros Hv. by rewrite (proj2 (verify_vote_ok _ _ _ Hctx) (conj Hv eq_refl)) in Ev. }
    assert (err ≠ Equivocation).
    { unfold verify_vote, vote_credentials, reject_if, ok_or in Ev. repeat case_match; naive_solver. }
    naive_solver. }
  apply verify_vote_ok in Ev as [Hv ->]; [|done].
  destruct (bt_get (v_voter vote, v_phase vote) (fe_votes e)) as [previous|] eqn:Eg.
  - destruct (eng_votes e Hc _ _ Eg) as ([= Hk1 Hk2] & Hpr & Hpv).
    destruct (decide (v_block previous = v_block vote)) as [Eb|Nb].
    { rewrite bool_decide_eq_true_2 in H by done. simpl in H. simplify_eq. naive_solver. }
    rewrite bool_decide_eq_false_2 in H by done. simpl in H.
    destruct (bt_contains (v_voter vote) (fe_evidence e)) eqn:Ec; simpl in H.
    { simplify_eq. apply bt_contains_get in Ec as [ev Hev]. rewrite Hev. naive_solver. }
    destruct (evidence_from_votes_valid (fe_context e) previous vote)
      as (proof & Ef & Hver & Hvo); [done|done|done|congruence..|].
    rewrite Ef in H. simplify_eq. split_and!; try done.
    + split; [by destruct Hc; split|apply He..|]. simpl. intros id ev.
      destruct (decide (id = v_voter vote)) as [->|Hne].
      * rewrite bt_get_insert_eq. intros [= <-]. by rewrite Hvo.
      * rewrite bt_get_insert_ne by done. apply (eng_evidence e He).
    + naive_solver.
    + split; [intros _|done]. split_and!; [done|done|]. eauto.
    + intros _. simpl. by rewrite bt_get_insert_eq.
  - destruct (fe_certificate e) as [c|] eqn:Ecert; simpl in H.
    { simplify_eq. naive_solver. }
    set (before := default 0 (bt_get (v_phase vote, v_block vote) (fe_power e))) in *.
    assert (checked_add 128 before (power (fe_context e) (v_voter vote))
            = Some (before + power (fe_context e) (v_voter vote))) as Hadd.
    { apply checked_add_some. split; [|reflexivity]. unfold before. rewrite (eng_power e Hc).
      destruct (counts_insert e vote _ None Hc Er Hv Eg eq_refl) as [Hc' Ht].
      pose proof (tally_bound _ (v_phase vote) (v_block vote) Hc') as Hb.
      rewrite Ht, decide_True in Hb by done. lia. }
    rewrite Hadd in H. simplify_eq. split_and!; try done; [|naive_solver..].
    apply receive_fresh_ok; [done..|]. by rewrite Ecert.
Qed.

Lemma engine_step_ok e e' : engine_ok e → engine_step e e' → engine_ok e'.
Proof.
  intros He Hs. destruct Hs as [e vote e' r H|e e' H]; [|by eapply advance_round_ok].
  by destruct (receive_vote_spec _ _ _ _ He H).
Qed.

Lemma engine_reach_ok e : engine_reach e → engine_ok e.
Proof.
  intros (ac & round & Ha%context_ok_new & Hr).
  assert (engine_ok (engine_for_round ac round)) as He by by apply engine_ok_for_round.
  clear Ha. induction Hr; [done|]. eauto using engine_step_ok.
Qed.
End finality_facts.

Section finality_properties.
Context {blake : Blake2s} {ed : Ed25519} {host : Host}.

(** C8: in every state the collector can reach, whatever votes arrived in whatever
    order: its certificate verifies independently for the header it names; while it
    has none, no block has a recorded precommit quorum, so finality is never missed;
    the incremental totals equal the exact power of the recorded votes; and each
    piece of evidence verifies against the member it accuses. *)
Theorem engine_invariant (e : BftFinalityEngine) :
  engine_reach e →
  (∀ c header, fe_certificate e = Some c →
     bh_height header = ac_height (fe_context e) →
     bh_committee_root header = ac_root (fe_context e) → header_hash header = fc_block c →
     verify_certificate (fe_context e) c header = Ok tt)
  ∧ (fe_certificate e = None →
     ∀ block, tally e Precommit (Some block) < quorum (fe_context e))
  ∧ (∀ phase block, default 0 (bt_get (phase, block) (fe_power e)) = tally e phase block)
  ∧ (∀ id ev, bt_get id (fe_evidence e) = Some ev →
     v_voter (ev_first ev) = id ∧ evidence_verify (fe_context e) ev = Ok tt).
Proof.
  intros He%engine_reach_ok. split_and!.
  - intros c header Hc H1 H2 H3. by apply (eng_certificate e He c Hc).
  - apply (eng_complete e He).
  - apply (eng_power e (eng_counts e He)).
  - apply (eng_evidence e He).
Qed.

(** C9: a reachable collector accepts a vote exactly when it is for the active round,
    valid, first in its voter's phase slot, and no certificate exists yet; an accepted
    vote is recorded under its slot, a rejected one changes no count and no
    certificate; a valid conflicting vote is reported as equivocation and leaves
    evidence against its voter. *)
Theorem receive_vote_correct (e : BftFinalityEngine) (vote : Vote) e' r :
  engine_reach e → receive_vote e vote = (e', r) →
  (r = Ok tt ↔ v_round vote = fe_round e ∧ vote_valid (fe_context e) vote
               ∧ bt_get (v_voter vote, v_phase vote) (fe_votes e) = None
               ∧ fe_certificate e = None)
  ∧ (r = Ok tt → fe_votes e' = bt_insert (v_voter vote, v_phase vote) vote (fe_votes e))
  ∧ (r ≠ Ok tt → fe_votes e' = fe_votes e ∧ fe_power e' = fe_power e
                 ∧ fe_certificate e' = fe_certificate e)
  ∧ (r = Err Equivocation ↔
     v_round vote = fe_round e ∧ vote_valid (fe_context e) vote
     ∧ ∃ v, bt_get (v_voter vote, v_phase vote) (fe_votes e) = Some v ∧ v_block v ≠ v_block vote)
  ∧ (r = Err Equivocation → is_Some (bt_get (v_voter vote) (fe_evidence e'))).
Proof. intros He%engine_reach_ok H. by apply receive_vote_spec in H as (_ & _ & _ & H). Qed.

(** the collector yields a prevote certificate for a block exactly when the
    recorded prevotes for it reach the quorum, and the certificate is then for the
    active round and that block. *)
Theorem prevote_certificate_complete (e : BftFinalityEngine) (block : Hash256) :
  engine_reach e →
  (is_ok (prevote_certificate e block) = true ↔
   quorum (fe_context e) <= tally e Prevote (Some block))
  ∧ ∀ pc, prevote_certificate e block = Ok pc → pc_round pc = fe_round e ∧ pc_block pc = block.
Proof.
  intros He%engine_reach_ok. pose proof (eng_counts e He) as Hc.
  pose proof (eng_context e Hc) as Hctx.
  destruct (engine_voters e Prevote (Some block) Hc) as (Ha & _ & Hv & Hx).
  pose proof (voters_len e Prevote (Some block) Hc) as Hl.
  pose proof (context_quorum_pos _ Hctx) as Hq. pose proof (prevote_from_votes_ok (fe_context e)
    (votes_for Prevote (Some block) (fe_votes e))) as Hiff.
  unfold prevote_certificate, tally in *. set (vs := votes_for _ _ _) in *. split.
  - split.
    + intros Hok. destruct (prevote_from_votes _ vs) as [pc|]; [|done].
      by destruct (proj1 (Hiff pc Hctx) eq_refl) as (_ & _ & _ & _ & _ & ?).
    + intros Hsum. rewrite (proj2 (Hiff (mkPrevoteCertificate vs) Hctx)); [done|].
      split_and!; try done; [|by exists (fe_round e), block].
      destruct vs; [simpl in Hsum; lia|]. rewrite len_cons. pose proof (len_nonneg vs). lia.
  - intros pc (-> & Hlen & _)%Hiff; [|done]. unfold pc_round, pc_block. simpl.
    destruct vs as [|v vs]; [by destruct Hlen|].
    apply Forall_cons in Hx as [(_ & -> & ->) _]. done.
Qed.
End finality_properties.

Section examples.
#[local] Existing Instance checksum_blake2s.
#[local] Existing Instance checksum_ed25519.
#[local] Existing Instance serial_host.

Definition receive_all (e : BftFinalityEngine) (votes : list Vote) : BftFinalityEngine :=
  fold_left (λ e v, (receive_vote e v).1) votes e.

Lemma receive_all_reach e votes : engine_reach e → engine_reach (receive_all e votes).
Proof.
  revert e. induction votes as [|v votes IH]; intros e He; simpl; [done|]. apply IH.
  destruct He as (ac & r & Ha & Hr). exists ac, r. split; [done|].
  eapply rtc_r; [exact Hr|]. destruct (receive_vote e v) as [e' res] eqn:E.
  by eapply step_receive.
Qed.

Definition sample_engine : BftFinalityEngine :=
  receive_all (engine_new sample_ac)
    (sample_prevotes ++ map (sample_vote 0 Precommit (Some (header_hash sample_header)))
                          sample_signers).

Lemma sample_engine_reach : engine_reach sample_engine.
Proof.
  apply receive_all_reach. exists sample_ac, 0. split; [exact sample_authenticated|done].
Qed.

Lemma engine_invariant_witness :
  option_map fc_block (fe_certificate sample_engine) = Some (header_hash sample_header)
  ∧ ∀ phase block,
      default 0 (bt_get (phase, block) (fe_power sample_engine)) = tally sample_engine phase block.
Proof.
  split; [by vm_compute|].
  exact (proj1 (proj2 (proj2 (engine_invariant sample_engine sample_engine_reach)))).
Defined.

Definition conflicting_vote : Vote := sample_vote 0 Prevote None (repeat (byte_of 1) 32).

Lemma receive_vote_correct_witness :
  ∃ e', receive_vote sample_engine conflicting_vote = (e', Err Equivocation)
        ∧ is_Some (bt_get (v_voter conflicting_vote) (fe_evidence e')).
Proof.
  assert ((receive_vote sample_engine conflicting_vote).2 = Err Equivocation) as H
    by (vm_compute; reflexivity).
  destruct (receive_vote sample_engine conflicting_vote) as [e' r] eqn:E. simpl in H. subst r.
  exists e'. split; [reflexivity|].
  exact (proj2 (proj2 (proj2 (proj2
    (receive_vote_correct sample_engine conflicting_vote e' _ sample_engine_reach E)))) eq_refl).
Defined.

Lemma prevote_certificate_complete_witness :
  is_ok (prevote_certificate sample_engine (header_hash sample_header)) = true.
Proof.
  apply (prevote_certificate_complete sample_engine (header_hash sample_header) sample_engine_reach).
  by vm_compute.
Defined.
End examples.
