(* ===== verification/Journal.v ===== *)
(** * Journal: the durable signing journal ([src/crates/keystore/src/journal.rs])

    The journal file is a byte string: a header, a chain of fixed-size records
    and, once the retained prefix is full, an extension with two alternating
    watermark slots ([journal/rollover.rs]).  Every write has an explicit
    outcome: it is persisted, or it fails after an arbitrary part of the bytes
    reached the file.  [journal_open] replays the file the way a restart does.
    Paths, file locks and directory synchronisation are not modelled. *)

From S2P Require Import Prelude Ordered Codec Types Crypto Votes Disk.

(** ** Keys and coordinates ([key.rs], [error.rs]) *)

Inductive KeystoreError :=
| InvalidSafety
| Locked
| AlreadyExists
| InvalidJournal
| ContextMismatch
| InvalidPosition
| StalePosition
| KeystoreLimitExceeded
| DurabilityUnknown
| UnknownKey
| KeystoreWrongPurpose
| ConflictingSign
| JournalFailure
| ProviderFailure.

Definition PROPOSAL_PHASE : Z := 0.
Definition PREVOTE_PHASE : Z := 1.
Definition PRECOMMIT_PHASE : Z := 2.

Record SigningContext := mkSigningContext {
  sc_chain_id : Z;
  sc_genesis : Hash256
}.

Record SigningLock := mkLock {
  lock_round : Z;
  lock_block : Hash256
}.

#[global] Instance SigningLock_eq_dec : EqDecision SigningLock.
Proof. solve_decision. Defined.

Record SigningSafety := mkSafety {
  ss_committee_root : Hash256;
  ss_locked : option SigningLock
}.

#[global] Instance SigningSafety_eq_dec : EqDecision SigningSafety.
Proof. solve_decision. Defined.

Record SigningPosition := mkPosition {
  sp_height : Z;
  sp_round : Z;
  sp_phase : Z
}.

#[global] Instance SigningPosition_eq_dec : EqDecision SigningPosition.
Proof. solve_decision. Defined.

(** The derived order: height, then round, then phase. *)
Definition position_key (p : SigningPosition) : Z * Z * Z := (sp_height p, sp_round p, sp_phase p).

#[global, program] Instance SigningPosition_ord : TotalOrd SigningPosition :=
  {| cmp := λ a b, cmp (position_key a) (position_key b) |}.
Next Obligation.
  intros [h1 r1 p1] [h2 r2 p2]. rewrite cmp_eq_iff. unfold position_key. simpl.
  split; congruence.
Qed.
Next Obligation. intros a b. apply cmp_opp. Qed.
Next Obligation. intros a b c. apply cmp_lt_trans. Qed.

(** ** Record layout *)

Definition JOURNAL_HEADER_BYTES : Z := 108.
Definition RECORD_BYTES : Z := 85.
Definition PROTECTED_RECORD_BYTES : Z := 154.
Definition MAX_JOURNAL_RECORDS : Z := 100000.
Definition JOURNAL_HEADER_DOMAIN : bytes := lit "astrolune.signing.journal.v1".
Definition RECORD_DOMAIN : bytes := lit "astrolune.signing.decision.v1".
Definition MAX_PROTECTED_JOURNAL_BYTES : Z :=
  JOURNAL_HEADER_BYTES + PROTECTED_RECORD_BYTES * MAX_JOURNAL_RECORDS.
Definition ROLLOVER_HEADER_BYTES : Z := 40.
Definition EXTENSION_BYTES : Z := ROLLOVER_HEADER_BYTES + 2 * PROTECTED_RECORD_BYTES.
Definition MAX_ROLLOVER_JOURNAL_BYTES : Z := MAX_PROTECTED_JOURNAL_BYTES + EXTENSION_BYTES.
Definition ROLLOVER_MAGIC : bytes := lit "ALSR0001".
Definition ROLLOVER_HEADER_DOMAIN : bytes := lit "astrolune.signing.rollover.v1".
Definition ROLLOVER_SLOT_DOMAIN : bytes := lit "astrolune.signing.rollover.slot.v1".

Record JournalState := mkJournalState {
  js_sequence : Z;
  js_position : option SigningPosition;
  js_message : Hash256;
  js_tip : Hash256
}.

#[global] Instance JournalState_eq_dec : EqDecision JournalState.
Proof. solve_decision. Defined.

Record Watermark := mkWatermark {
  wm_sequence : Z;
  wm_position : SigningPosition;
  wm_message : Hash256;
  wm_safety : SigningSafety
}.

#[global] Instance Watermark_eq_dec : EqDecision Watermark.
Proof. solve_decision. Defined.

Record Rollover := mkRollover {
  ro_anchor : Hash256;
  ro_slot0 : Watermark;
  ro_slot1 : Watermark
}.

Record Journal := mkJournal {
  j_file : bytes;
  j_count : Z;
  j_identity : Hash256;
  j_tip : Hash256;
  j_last : option (SigningPosition * Hash256);
  j_previous : option JournalState;
  j_poisoned : bool;
  j_protected : bool;
  j_safety : option SigningSafety;
  j_rollover : option Rollover
}.

(** The record without its checksum: sequence, position, digest. *)
Definition record_body (sequence : Z) (position : SigningPosition) (message : Hash256) : bytes :=
  le 8 sequence ++ le 8 (sp_height position) ++ le 4 (sp_round position)
  ++ le 1 (sp_phase position) ++ message.

Definition encode_safety (s : SigningSafety) : bytes :=
  ss_committee_root s ++ le 1 (Z.b2z (is_some (ss_locked s)))
  ++ le 4 (default 0 (option_map lock_round (ss_locked s)))
  ++ default zero32 (option_map lock_block (ss_locked s)).

Definition read_position : read SigningPosition := λ d,
  let? (height, d) := read_u64 d in
  let? (round, d) := read_u32 d in
  let? (phase, d) := read_u8 d in
  Ok (mkPosition height round phase, d).

Definition read_safety : read SigningSafety := λ d,
  let? (committee_root, d) := read_fixed 32 d in
  let? (flag, d) := read_u8 d in
  let? (round, d) := read_u32 d in
  let? (block, d) := read_fixed 32 d in
  if (flag =? 0) && (round =? 0) && bool_decide (block = zero32)
  then Ok (mkSafety committee_root None, d)
  else if flag =? 1 then Ok (mkSafety committee_root (Some (mkLock round block)), d)
  else Err NonCanonical.

Definition read_entry (protected : bool)
    : read (Z * SigningPosition * Hash256 * option SigningSafety * Hash256) := λ d,
  let? (sequence, d) := read_u64 d in
  let? (position, d) := read_position d in
  let? (message, d) := read_fixed 32 d in
  let? (safety, d) := (if protected
                       then let? (safety, d) := read_safety d in Ok (Some safety, d)
                       else Ok (None, d)) in
  let? (checksum, d) := read_fixed 32 d in
  Ok (sequence, position, message, safety, checksum, d).

Definition previous_decision (last : option (SigningPosition * Hash256))
    (safety : option SigningSafety) : option (SigningPosition * SigningSafety) :=
  match last, safety with
  | Some (position, _), Some safety => Some (position, safety)
  | _, _ => None
  end.

Definition validate_safety (position : SigningPosition) (safety : SigningSafety)
    (previous : option (SigningPosition * SigningSafety)) : result unit KeystoreError :=
  let? _ := reject_if (bool_decide (ss_committee_root safety = zero32)
                       || match ss_locked safety with
                          | Some lock => sp_round position <? lock_round lock
                          | None => false
                          end) InvalidSafety in
  match previous with
  | Some (old_position, old) =>
      if sp_height old_position =? sp_height position then
        let? _ := reject_if (negb (bool_decide (ss_committee_root old = ss_committee_root safety)))
                    InvalidSafety in
        match ss_locked old with
        | Some locked =>
            reject_if (negb match ss_locked safety with
                            | Some next => (lock_round locked <? lock_round next)
                                           || bool_decide (next = locked)
                            | None => false
                            end) InvalidSafety
        | None => Ok tt
        end
      else Ok tt
  | None => Ok tt
  end.

Section journal.
Context {blake : Blake2s}.

Definition header_version (context : SigningContext) (public_key : bytes) (protected : bool)
    : bytes :=
  let prefix := lit "ALSJ" ++ le 4 (if protected then 2 else 1) ++ le 4 (sc_chain_id context)
                ++ sc_genesis context ++ public_key in
  prefix ++ domain_hash JOURNAL_HEADER_DOMAIN prefix.

Definition record_hash (tip : Hash256) (body : bytes) : Hash256 :=
  domain_hash RECORD_DOMAIN (tip ++ body).

Definition record (sequence : Z) (position : SigningPosition) (message tip : Hash256) : bytes :=
  let body := record_body sequence position message in
  body ++ record_hash tip body.

Definition protected_record (sequence : Z) (position : SigningPosition) (message tip : Hash256)
    (safety : SigningSafety) : bytes :=
  let body := take 53 (record sequence position message tip) ++ encode_safety safety in
  body ++ record_hash tip body.

Definition decode_entry (bs : bytes) (sequence : Z) (tip : Hash256) (protected : bool)
    : result (SigningPosition * Hash256 * Hash256 * option SigningSafety) KeystoreError :=
  let? (stored, position, message, safety, checksum) :=
    map_err (λ _, InvalidJournal) (complete (read_entry protected) bs) in
  let? _ := reject_if (negb (stored =? sequence)
                       || (PRECOMMIT_PHASE <? sp_phase position)
                       || negb (bool_decide (checksum = record_hash tip (take (length bs - 32) bs))))
              InvalidJournal in
  Ok (position, message, checksum, safety).

(** ** Rollover *)

Definition rollover_new (tip : Hash256) (last : option (SigningPosition * Hash256))
    (safety : option SigningSafety) : result Rollover KeystoreError :=
  let? (position, message) := ok_or last InvalidJournal in
  let? safety := ok_or safety InvalidJournal in
  let initial := mkWatermark MAX_JOURNAL_RECORDS position message safety in
  Ok (mkRollover (domain_hash ROLLOVER_HEADER_DOMAIN tip) initial initial).

Definition rollover_latest (r : Rollover) : Watermark :=
  if wm_sequence (ro_slot1 r) <? wm_sequence (ro_slot0 r) then ro_slot0 r else ro_slot1 r.

Definition rollover_older (r : Rollover) : option Watermark :=
  match Z.compare (wm_sequence (ro_slot0 r)) (wm_sequence (ro_slot1 r)) with
  | Eq => None
  | Lt => Some (ro_slot0 r)
  | Gt => Some (ro_slot1 r)
  end.

Definition rollover_binding (anchor : Hash256) (slot : Z) : Hash256 :=
  domain_hash ROLLOVER_SLOT_DOMAIN (anchor ++ le 1 slot).

Definition encode_slot (anchor : Hash256) (slot : Z) (w : Watermark) : bytes :=
  protected_record (wm_sequence w) (wm_position w) (wm_message w) (rollover_binding anchor slot)
    (wm_safety w).

Definition rollover_encode (r : Rollover) : bytes :=
  ROLLOVER_MAGIC ++ ro_anchor r ++ encode_slot (ro_anchor r) 0 (ro_slot0 r)
  ++ encode_slot (ro_anchor r) 1 (ro_slot1 r).

(** Slots alternate from the first sequence behind the retained prefix. *)
Definition rollover_slot (sequence : Z) : Z :=
  if (sequence - MAX_JOURNAL_RECORDS - 1) mod 2 =? 0 then 0 else 1.

Definition slot_offset (slot : Z) : Z :=
  MAX_PROTECTED_JOURNAL_BYTES + ROLLOVER_HEADER_BYTES + slot * PROTECTED_RECORD_BYTES.

Definition decode_slot (anchor : Hash256) (baseline : Watermark) (slot : Z) (entry : bytes)
    : result Watermark KeystoreError :=
  let sequence := from_le (take 8 entry) in
  let? (position, message, _, safety) :=
    decode_entry entry sequence (rollover_binding anchor slot) true in
  let? safety := ok_or safety InvalidJournal in
  let watermark := mkWatermark sequence position message safety in
  let? _ := reject_if ((sequence <? MAX_JOURNAL_RECORDS)
                       || ((sequence =? MAX_JOURNAL_RECORDS)
                           && negb (bool_decide (watermark = baseline)))
                       || ((MAX_JOURNAL_RECORDS <? sequence)
                           && (negb (rollover_slot sequence =? slot)
                               || leb position (wm_position baseline)))) InvalidJournal in
  let? _ := map_err (λ _, InvalidJournal)
              (validate_safety position safety
                 (Some (wm_position baseline, wm_safety baseline))) in
  Ok watermark.

Definition rollover_decode (tip : Hash256) (last : option (SigningPosition * Hash256))
    (safety : option SigningSafety) (bs : bytes) : result Rollover KeystoreError :=
  let? initial := rollover_new tip last safety in
  let baseline := rollover_latest initial in
  let? _ := reject_if (negb (len bs =? EXTENSION_BYTES)
                       || negb (bool_decide (take 8 bs = ROLLOVER_MAGIC))
                       || negb (bool_decide (take 32 (drop 8 bs) = ro_anchor initial)))
              InvalidJournal in
  let? a := decode_slot (ro_anchor initial) baseline 0 (take 154 (drop 40 bs)) in
  let? b := decode_slot (ro_anchor initial) baseline 1 (take 154 (drop 194 bs)) in
  let? _ :=
    (if wm_sequence a =? wm_sequence b
     then reject_if (negb (bool_decide (a = baseline)) || negb (bool_decide (b = baseline)))
            InvalidJournal
     else
       let '(older, newer) := if wm_sequence a <? wm_sequence b then (a, b) else (b, a) in
       let? _ := reject_if (negb (bool_decide (checked_add 64 (wm_sequence older) 1
                                               = Some (wm_sequence newer)))
                            || leb (wm_position newer) (wm_position older)) InvalidJournal in
       map_err (λ _, InvalidJournal)
         (validate_safety (wm_position newer) (wm_safety newer)
            (Some (wm_position older, wm_safety older)))) in
  Ok (mkRollover (ro_anchor initial) a b).

Definition rollover_prepare (r : Rollover) (sequence : Z) (position : SigningPosition)
    (message : Hash256) (safety : SigningSafety) : result (Z * bytes) KeystoreError :=
  let latest := rollover_latest r in
  let? _ := reject_if (negb (bool_decide (checked_add 64 (wm_sequence latest) 1 = Some sequence))
                       || leb position (wm_position latest)) InvalidJournal in
  let? _ := validate_safety position safety (Some (wm_position latest, wm_safety latest)) in
  let slot := rollover_slot sequence in
  Ok (slot, encode_slot (ro_anchor r) slot (mkWatermark sequence position message safety)).

Definition rollover_publish (r : Rollover) (slot : Z) (w : Watermark) : Rollover :=
  if slot =? 0 then mkRollover (ro_anchor r) w (ro_slot1 r)
  else mkRollover (ro_anchor r) (ro_slot0 r) w.

(** ** Observable state *)

Definition last_position (j : Journal) : option SigningPosition := option_map fst (j_last j).

Definition state_at (j : Journal) (sequence : Z) : JournalState :=
  mkJournalState sequence (last_position j) (default zero32 (option_map snd (j_last j))) (j_tip j).

Definition journal_state (j : Journal) : JournalState := state_at j (j_count j).

Definition poison (j : Journal) : Journal :=
  mkJournal (j_file j) (j_count j) (j_identity j) (j_tip j) (j_last j) (j_previous j) true
    (j_protected j) (j_safety j) (j_rollover j).

Definition with_file (j : Journal) (file : bytes) : Journal :=
  mkJournal file (j_count j) (j_identity j) (j_tip j) (j_last j) (j_previous j) (j_poisoned j)
    (j_protected j) (j_safety j) (j_rollover j).

Definition record_size (protected : bool) : Z :=
  if protected then PROTECTED_RECORD_BYTES else RECORD_BYTES.

(** ** Creation and recovery *)

Definition create_mode (context : SigningContext) (public_key : bytes) (protected : bool)
    (io : Persist) : bytes * result Journal KeystoreError :=
  let header := header_version context public_key protected in
  let '(file, ok) := persist io [] 0 header in
  let checksum := domain_hash JOURNAL_HEADER_DOMAIN (take 76 header) in
  (file, if ok
         then Ok (mkJournal file 0 checksum checksum None None false protected None None)
         else Err JournalFailure).

(** One turn of the replay loop. *)
Definition replay_entry (j : Journal) (sequence : Z) (protected : bool) (entry : bytes)
    : result Journal KeystoreError :=
  let? (position, message, tip, safety) := decode_entry entry sequence (j_tip j) protected in
  let? _ := match safety with
            | Some next =>
                map_err (λ _, InvalidJournal)
                  (validate_safety position next (previous_decision (j_last j) (j_safety j)))
            | None => Ok tt
            end in
  let? _ := reject_if match j_last j with
                      | Some (previous, _) => leb position previous
                      | None => false
                      end InvalidJournal in
  Ok (mkJournal (j_file j) (j_count j) (j_identity j) tip (Some (position, message))
        (Some (state_at j (sequence - 1))) (j_poisoned j) (j_protected j) safety (j_rollover j)).

Fixpoint replay (j : Journal) (sequence : Z) (count : nat) (protected : bool) (rest : bytes)
    : result (Journal * bytes) KeystoreError :=
  match count with
  | O => Ok (j, rest)
  | S count' =>
      let size := Z.to_nat (record_size protected) in
      let? _ := reject_if (len rest <? record_size protected) InvalidJournal in
      let? j := replay_entry j sequence protected (take size rest) in
      replay j (sequence + 1) count' protected (drop size rest)
  end.

Definition recover_rollover (j : Journal) (rest : bytes) : result Journal KeystoreError :=
  let? _ := reject_if (len rest <? EXTENSION_BYTES) InvalidJournal in
  let? r := rollover_decode (j_tip j) (j_last j) (j_safety j)
              (take (Z.to_nat EXTENSION_BYTES) rest) in
  let latest := rollover_latest r in
  let previous :=
    match rollover_older r with
    | Some older => Some (mkJournalState (wm_sequence older) (Some (wm_position older))
                            (wm_message older) (j_tip j))
    | None => j_previous j
    end in
  Ok (mkJournal (j_file j) (wm_sequence latest) (j_identity j) (j_tip j)
        (Some (wm_position latest, wm_message latest)) previous (j_poisoned j) (j_protected j)
        (Some (wm_safety latest)) (Some r)).

(** Callers poison the instance when this fails. *)
Definition check_length (j : Journal) : result unit KeystoreError :=
  let expected := match j_rollover j with
                  | Some _ => MAX_ROLLOVER_JOURNAL_BYTES
                  | None => JOURNAL_HEADER_BYTES + j_count j * record_size (j_protected j)
                  end in
  let? _ := reject_if (negb (len (j_file j) =? expected)) InvalidJournal in
  match j_rollover j with
  | Some r =>
      reject_if (negb (bool_decide
        (take (Z.to_nat EXTENSION_BYTES) (drop (Z.to_nat MAX_PROTECTED_JOURNAL_BYTES) (j_file j))
         = rollover_encode r))) InvalidJournal
  | None => Ok tt
  end.

Definition journal_open (context : SigningContext) (public_key file : bytes) (sync_ok : bool)
    : result Journal KeystoreError :=
  let length := len file in
  let? _ := reject_if ((length <? JOURNAL_HEADER_BYTES) || (MAX_ROLLOVER_JOURNAL_BYTES <? length))
              InvalidJournal in
  let header := take 108 file in
  let checksum := domain_hash JOURNAL_HEADER_DOMAIN (take 76 header) in
  let version := take 4 (drop 4 header) in
  let? protected := (if bool_decide (version = le 4 1) then Ok false
                     else if bool_decide (version = le 4 2) then Ok true
                     else Err InvalidJournal) in
  let? _ := reject_if (negb (bool_decide (take 4 header = lit "ALSJ"))
                       || negb (bool_decide (drop 76 header = checksum))) InvalidJournal in
  let? _ := reject_if (negb (bool_decide (header = header_version context public_key protected)))
              ContextMismatch in
  let rolled := protected && (length =? MAX_ROLLOVER_JOURNAL_BYTES) in
  let prefix_length := if rolled then MAX_PROTECTED_JOURNAL_BYTES else length in
  let size := record_size protected in
  let? _ := reject_if (negb ((prefix_length - JOURNAL_HEADER_BYTES) mod size =? 0))
              InvalidJournal in
  let count := (prefix_length - JOURNAL_HEADER_BYTES) / size in
  let? _ := reject_if (MAX_JOURNAL_RECORDS <? count) InvalidJournal in
  let j := mkJournal file count checksum checksum None None false protected None None in
  let? (j, rest) := replay j 1 (Z.to_nat count) protected (drop 108 file) in
  let? j := (if rolled then recover_rollover j rest else Ok j) in
  let? _ := check_length j in
  let? _ := reject_if (negb sync_ok) JournalFailure in
  Ok j.

(** ** Reservation *)

Definition with_rollover (j : Journal) (r : Rollover) (poisoned : bool) : Journal :=
  mkJournal (j_file j) (j_count j) (j_identity j) (j_tip j) (j_last j) (j_previous j) poisoned
    (j_protected j) (j_safety j) (Some r).

Definition activate_rollover (j : Journal) (io : Persist) : Journal * result unit KeystoreError :=
  if negb (j_protected j) || negb (j_count j =? MAX_JOURNAL_RECORDS)
     || is_some (j_rollover j)
  then (j, Err InvalidJournal)
  else
    match rollover_new (j_tip j) (j_last j) (j_safety j) with
    | Err error => (j, Err error)
    | Ok r =>
        let '(file, ok) := persist io (j_file j) MAX_PROTECTED_JOURNAL_BYTES (rollover_encode r) in
        if ok then (with_rollover (with_file j file) r false, Ok tt)
        else (poison (with_file j file), Err DurabilityUnknown)
    end.

(** The last part of [reserve_entry]: choose the bytes, write them, publish. *)
Definition append_entry (j : Journal) (sequence : Z) (position : SigningPosition)
    (message : Hash256) (safety : option SigningSafety) (io : Persist)
    : Journal * result unit KeystoreError :=
  let update :=
    match j_rollover j with
    | Some r =>
        let? next := ok_or safety InvalidSafety in
        let? (slot, bs) := rollover_prepare r sequence position message next in
        Ok (Some (slot, bs, r, next))
    | None => Ok None
    end in
  match update with
  | Err error => (j, Err error)
  | Ok update =>
      let '(offset, bs) :=
        match update, safety with
        | Some (slot, bs, _, _), _ => (slot_offset slot, bs)
        | None, Some next =>
            (JOURNAL_HEADER_BYTES + j_count j * PROTECTED_RECORD_BYTES,
             protected_record sequence position message (j_tip j) next)
        | None, None =>
            (JOURNAL_HEADER_BYTES + j_count j * RECORD_BYTES,
             record sequence position message (j_tip j))
        end in
      let '(file, ok) := persist io (j_file j) offset bs in
      if negb ok then (poison (with_file j file), Err DurabilityUnknown)
      else
        let tip := match update with
                   | Some _ => j_tip j
                   | None => record_hash (j_tip j) (take (length bs - 32) bs)
                   end in
        let rollover := match update with
                        | Some (slot, _, r, next) =>
                            Some (rollover_publish r slot
                                    (mkWatermark sequence position message next))
                        | None => j_rollover j
                        end in
        (mkJournal file sequence (j_identity j) tip (Some (position, message))
           (Some (journal_state j)) false (j_protected j) safety rollover, Ok tt)
  end.

Definition reserve_entry (j : Journal) (position : SigningPosition) (message : Hash256)
    (safety : option SigningSafety) (io_activate io : Persist)
    : Journal * result unit KeystoreError :=
  if j_poisoned j then (j, Err DurabilityUnknown) else
  if PRECOMMIT_PHASE <? sp_phase position then (j, Err InvalidPosition) else
  if negb (Bool.eqb (j_protected j) (is_some safety)) then (j, Err InvalidSafety) else
  match check_length j with
  | Err error => (poison j, Err error)
  | Ok _ =>
      let fresh :=
        if negb (j_protected j) && (j_count j =? MAX_JOURNAL_RECORDS)
        then (j, Err KeystoreLimitExceeded)
        else
          match (match safety with
                 | Some next => validate_safety position next
                                  (previous_decision (j_last j) (j_safety j))
                 | None => Ok tt
                 end) with
          | Err error => (j, Err error)
          | Ok _ =>
              match checked_add 64 (j_count j) 1 with
              | None => (j, Err KeystoreLimitExceeded)
              | Some sequence =>
                  if j_protected j && (j_count j =? MAX_JOURNAL_RECORDS)
                     && negb (is_some (j_rollover j))
                  then
                    match activate_rollover j io_activate with
                    | (j, Err error) => (j, Err error)
                    | (j, Ok _) => append_entry j sequence position message safety io
                    end
                  else append_entry j sequence position message safety io
              end
          end in
      match j_last j with
      | Some (previous, digest) =>
          match cmp position previous with
          | Lt => (j, Err StalePosition)
          | Eq => if bool_decide (message = digest) && bool_decide (safety = j_safety j)
                  then (j, Ok tt) else (j, Err ConflictingSign)
          | Gt => fresh
          end
      | None => fresh
      end
  end.

Definition reserve (j : Journal) (position : SigningPosition) (message : Hash256) (io : Persist)
    : Journal * result unit KeystoreError :=
  reserve_entry j position message None Persisted io.

Definition reserve_protected (j : Journal) (position : SigningPosition) (message : Hash256)
    (safety : SigningSafety) (io_activate io : Persist) : Journal * result unit KeystoreError :=
  reserve_entry j position message (Some safety) io_activate io.
End journal.

Lemma max_protected_value : MAX_PROTECTED_JOURNAL_BYTES = 15400108.
Proof. reflexivity. Qed.

Lemma max_rollover_value : MAX_ROLLOVER_JOURNAL_BYTES = 15400456.
Proof. reflexivity. Qed.

#[global] Opaque MAX_PROTECTED_JOURNAL_BYTES MAX_ROLLOVER_JOURNAL_BYTES.

(** ** Safety metadata *)

(** [new] keeps what [old] committed to at the same height: the committee, and
    the lock unless a later round replaces it. *)
Definition preserves (p_old : SigningPosition) (old : SigningSafety) (p_new : SigningPosition)
    (new : SigningSafety) : Prop :=
  sp_height p_old = sp_height p_new →
  ss_committee_root old = ss_committee_root new
  ∧ ∀ l, ss_locked old = Some l →
    ∃ l', ss_locked new = Some l' ∧ (lock_round l < lock_round l' ∨ l' = l).

Definition safety_wf (p : SigningPosition) (s : SigningSafety) : Prop :=
  ss_committee_root s ≠ zero32 ∧ ∀ l, ss_locked s = Some l → lock_round l <= sp_round p.

Lemma validate_safety_ok p s previous :
  validate_safety p s previous = Ok tt ↔
  safety_wf p s ∧ ∀ p0 s0, previous = Some (p0, s0) → preserves p0 s0 p s.
Proof.
  unfold validate_safety, safety_wf, preserves. split.
  - intros H. bind_inv H. guards. split.
    + split; [done|]. intros l Hl. rewrite Hl in *. bool_props. lia.
    + intros p0 s0 -> Hh. rewrite Hh, Z.eqb_refl in H. bind_inv H. guards. split; [done|].
      intros l Hl. rewrite Hl in H. guards.
      destruct (ss_locked s) as [l'|]; [|done]. bool_props. exists l'. split; [done|].
      by apply orb_true_iff in H as [H|H]; bool_props; [left|right].
  - intros [[Hr Hl] Hp]. rewrite (proj2 (reject_if_ok _ _ tt)); cycle 1.
    { rewrite bool_decide_eq_false_2 by done. destruct (ss_locked s) as [l|]; [|done].
      apply Z.ltb_ge. by apply Hl. }
    destruct previous as [[p0 s0]|]; [|done]. destruct (_ =? _) eqn:Eh; [|done].
    destruct (Hp p0 s0 eq_refl) as [-> Hlock]; [lia|].
    rewrite bool_decide_eq_true_2 by done. cbn [negb reject_if].
    destruct (ss_locked s0) as [l|]; [|done]. apply reject_if_ok.
    destruct (Hlock l eq_refl) as (l' & -> & [Hlt| ->]).
    + by rewrite (proj2 (Z.ltb_lt _ _)).
    + by rewrite bool_decide_eq_true_2, orb_true_r.
Qed.

Lemma validate_safety_err p s previous error :
  validate_safety p s previous = Err error → error = InvalidSafety.
Proof.
  unfold validate_safety, reject_if. intros H. repeat (case_match; simplify_eq; try done).
Qed.

Lemma preserves_trans p1 s1 p2 s2 p3 s3 :
  sp_height p1 <= sp_height p2 <= sp_height p3 →
  preserves p1 s1 p2 s2 → preserves p2 s2 p3 s3 → preserves p1 s1 p3 s3.
Proof.
  unfold preserves. intros Hh H12 H23 E. destruct H12 as [E1 L1]; [lia|].
  destruct H23 as [E2 L2]; [lia|]. split; [congruence|]. intros l Hl.
  destruct (L1 l Hl) as (l2 & Hl2 & H1). destruct (L2 l2 Hl2) as (l3 & Hl3 & H2).
  exists l3. split; [done|]. destruct H1 as [?| ->], H2 as [?| ->]; [left; lia|by left..|by right].
Qed.

Lemma preserves_refl p s : preserves p s p s.
Proof. intros _. split; [done|]. intros l Hl. exists l. auto. Qed.

Lemma lt_position p1 p2 :
  lt_of p1 p2 ↔
  sp_height p1 < sp_height p2
  ∨ (sp_height p1 = sp_height p2
     ∧ (sp_round p1 < sp_round p2
        ∨ (sp_round p1 = sp_round p2 ∧ sp_phase p1 < sp_phase p2))).
Proof.
  destruct p1 as [h1 r1 f1], p2 as [h2 r2 f2]. unfold lt_of. simpl. unfold position_key, pair_cmp. simpl.
  destruct (Z.compare_spec h1 h2), (Z.compare_spec r1 r2), (Z.compare_spec f1 f2); simpl;
    (split; [intros ?; try discriminate; lia|intros ?; first [reflexivity|exfalso; lia]]).
Qed.

(** ** Entries and their bytes *)

(** One reserved decision. *)
Record Entry := mkEntry {
  e_position : SigningPosition;
  e_message : Hash256;
  e_safety : option SigningSafety
}.

Definition position_ok (p : SigningPosition) : Prop :=
  u64 (sp_height p) ∧ u32 (sp_round p) ∧ 0 <= sp_phase p <= PRECOMMIT_PHASE.

Definition safety_ok (s : SigningSafety) : Prop :=
  sized 32 (ss_committee_root s)
  ∧ match ss_locked s with
    | Some l => u32 (lock_round l) ∧ sized 32 (lock_block l)
    | None => True
    end.

Definition entry_ok (protected : bool) (e : Entry) : Prop :=
  position_ok (e_position e) ∧ sized 32 (e_message e)
  ∧ match e_safety e with
    | Some s => protected = true ∧ safety_ok s
    | None => protected = false
    end.

Section entry_facts.
Context {blake : Blake2s}.
Implicit Types (e : Entry) (j : Journal).

Definition entry_body (sequence : Z) e : bytes :=
  record_body sequence (e_position e) (e_message e)
  ++ match e_safety e with Some s => encode_safety s | None => [] end.

Definition entry_bytes (sequence : Z) (tip : Hash256) e : bytes :=
  entry_body sequence e ++ record_hash tip (entry_body sequence e).

Lemma record_body_length sequence position message :
  sized 32 message → length (record_body sequence position message) = 53%nat.
Proof.
  intros Hm. unfold record_body. rewrite !length_app, !length_le. unfold sized in Hm. by rewrite Hm.
Qed.

Lemma encode_safety_length s : safety_ok s → length (encode_safety s) = 69%nat.
Proof.
  intros [Hr Hl]. unfold encode_safety, sized in *. rewrite !length_app, !length_le, Hr.
  destruct (ss_locked s) as [l|]; simpl; [|done]. by destruct Hl as [_ ->].
Qed.

Lemma record_hash_length tip body : length (record_hash tip body) = 32%nat.
Proof. apply domain_hash_sized. Qed.

Lemma entry_bytes_record sequence tip e :
  e_safety e = None →
  entry_bytes sequence tip e = record sequence (e_position e) (e_message e) tip.
Proof. intros H. unfold entry_bytes, entry_body, record. by rewrite H, !app_nil_r. Qed.

Lemma entry_bytes_protected sequence tip e s :
  sized 32 (e_message e) → e_safety e = Some s →
  entry_bytes sequence tip e = protected_record sequence (e_position e) (e_message e) tip s.
Proof.
  intros Hm H. unfold entry_bytes, entry_body, protected_record, record. rewrite H.
  by rewrite take_app_length' by (by rewrite record_body_length).
Qed.

Lemma entry_body_length protected sequence e :
  entry_ok protected e →
  length (entry_body sequence e) = (Z.to_nat (record_size protected) - 32)%nat.
Proof.
  intros (_ & Hm & Hs). unfold entry_body. rewrite length_app, record_body_length by done.
  destruct (e_safety e) as [s|]; [destruct Hs as [-> Hs]|by subst].
  by rewrite encode_safety_length.
Qed.

Lemma entry_bytes_length protected sequence tip e :
  entry_ok protected e →
  length (entry_bytes sequence tip e) = Z.to_nat (record_size protected).
Proof.
  intros H. unfold entry_bytes. rewrite length_app, (entry_body_length protected), record_hash_length by done.
  unfold record_size, PROTECTED_RECORD_BYTES, RECORD_BYTES. destruct protected; lia.
Qed.

Lemma len_entry_bytes protected sequence tip e :
  entry_ok protected e → len (entry_bytes sequence tip e) = record_size protected.
Proof.
  intros H. unfold len. rewrite (entry_bytes_length protected) by done.
  unfold record_size, PROTECTED_RECORD_BYTES, RECORD_BYTES. destruct protected; lia.
Qed.

Lemma entry_bytes_body protected sequence tip e :
  entry_ok protected e →
  take (length (entry_bytes sequence tip e) - 32) (entry_bytes sequence tip e)
  = entry_body sequence e.
Proof.
  intros H. unfold entry_bytes. rewrite length_app, record_hash_length.
  apply take_app_length'. lia.
Qed.

(** *** Reads *)

#[global] Instance reads_position :
  Reads read_position (λ p, le 8 (sp_height p) ++ le 4 (sp_round p) ++ le 1 (sp_phase p))
    (λ p, u64 (sp_height p) ∧ u32 (sp_round p) ∧ u8 (sp_phase p)).
Proof.
  split; unfold read_position.
  - intros d [h r p] ys Hv Hd. cbn [sp_height sp_round sp_phase] in *. rewrite <- !app_assoc in Hd.
    do 3 (read_fwd; [by destruct_and?|]). close_fwd.
  - intros d v d' zs Hd H. bind_inv H. read_inv. simplify_eq. eexists.
    cbn [sp_height sp_round sp_phase]. rewrite <- !app_assoc. split; [reflexivity|by split_and?].
Qed.

#[global] Instance reads_safety : Reads read_safety encode_safety safety_ok.
Proof.
  split; unfold read_safety, encode_safety, safety_ok.
  - intros d [root [[round block]|]] ys Hv Hd; simpl ss_committee_root in *; simpl ss_locked in *;
      rewrite <- !app_assoc in Hd; simpl is_some in *; simpl Z.b2z in *; simpl option_map in *;
      simpl default in *; destruct Hv as [? ?];
      (do 4 (read_fwd; [by destruct_and?|])); simpl; close_fwd.
  - intros d v d' zs Hd H. bind_inv H. read_inv. repeat case_in H; simplify_eq; eexists;
      rewrite <- !app_assoc; (split; [reflexivity|by split_and?]).
Qed.

Lemma read_entry_ok protected sequence tip e d ys :
  entry_ok protected e → u64 sequence → dview d (entry_bytes sequence tip e ++ ys) →
  ∃ d', read_entry protected d
        = Ok (sequence, e_position e, e_message e, e_safety e,
              record_hash tip (entry_body sequence e), d') ∧ dview d' ys.
Proof.
  intros ((Hh & Hr & Hp) & Hm & Hs) Hseq Hd. unfold PRECOMMIT_PHASE in Hp.
  unfold entry_bytes in Hd. rewrite <- app_assoc in Hd.
  unfold entry_body in Hd at 1. unfold record_body in Hd. rewrite <- !app_assoc in Hd.
  unfold read_entry. read_fwd; [done|].
  replace (le 8 (sp_height (e_position e)) ++ le 4 (sp_round (e_position e))
           ++ le 1 (sp_phase (e_position e)) ++ e_message e
           ++ match e_safety e with Some s => encode_safety s | None => [] end
           ++ record_hash tip (entry_body sequence e) ++ ys)
    with ((le 8 (sp_height (e_position e)) ++ le 4 (sp_round (e_position e))
           ++ le 1 (sp_phase (e_position e))) ++ e_message e
           ++ match e_safety e with Some s => encode_safety s | None => [] end
           ++ record_hash tip (entry_body sequence e) ++ ys) in Hd by (by rewrite <- !app_assoc).
  read_fwd; [split; [done|split; [done|unfold fits; lia]]|]. read_fwd; [done|].
  destruct (e_safety e) as [s|]; [destruct Hs as [-> Hs]; cbv iota; read_fwd; [done|]|subst protected].
  - read_fwd; [apply record_hash_length|]. close_fwd.
  - change ([] ++ ?x) with x in Hd. read_fwd; [apply record_hash_length|]. close_fwd.
Qed.

Lemma decode_entry_ok protected sequence tip e :
  entry_ok protected e → u64 sequence →
  decode_entry (entry_bytes sequence tip e) sequence tip protected
  = Ok (e_position e, e_message e, record_hash tip (entry_body sequence e), e_safety e).
Proof.
  intros He Hseq. unfold decode_entry, complete.
  assert (len (entry_bytes sequence tip e) < 2 ^ 64) as Hl.
  { rewrite (len_entry_bytes protected) by done. by destruct protected. }
  pose proof (dview_new _ Hl) as Hd. rewrite <- (app_nil_r (entry_bytes _ _ _)) in Hd at 2.
  destruct (read_entry_ok protected sequence tip e _ [] He Hseq Hd) as (d' & -> & Hd').
  rewrite (proj2 (finish_ok _ _ tt Hd') eq_refl). cbn [map_err].
  rewrite (entry_bytes_body protected) by done. rewrite Z.eqb_refl, bool_decide_eq_true_2 by done.
  rewrite (proj2 (reject_if_ok _ _ tt)); [done|].
  destruct He as ((_ & _ & Hp) & _). simpl. rewrite orb_false_r. apply Z.ltb_ge. lia.
Qed.

(** ** Replay *)

(** A decision the journal state [j] admits next. *)
Definition admits j e : Prop :=
  match j_last j with Some (previous, _) => lt_of previous (e_position e) | None => True end
  ∧ match e_safety e with
    | Some s => validate_safety (e_position e) s (previous_decision (j_last j) (j_safety j)) = Ok tt
    | None => True
    end.

(** The state after replaying [e] as number [sequence]. *)
Definition apply_entry j (sequence : Z) e : Journal :=
  mkJournal (j_file j) (j_count j) (j_identity j) (record_hash (j_tip j) (entry_body sequence e))
    (Some (e_position e, e_message e)) (Some (state_at j (sequence - 1))) (j_poisoned j)
    (j_protected j) (e_safety e) (j_rollover j).

Fixpoint apply_all j (sequence : Z) (es : list Entry) : Journal :=
  match es with
  | [] => j
  | e :: es' => apply_all (apply_entry j sequence e) (sequence + 1) es'
  end.

Fixpoint admits_all j (sequence : Z) (es : list Entry) : Prop :=
  match es with
  | [] => True
  | e :: es' => admits j e ∧ admits_all (apply_entry j sequence e) (sequence + 1) es'
  end.

(** The records of [es], each chained to the previous tip. *)
Fixpoint image (tip : Hash256) (sequence : Z) (es : list Entry) : bytes :=
  match es with
  | [] => []
  | e :: es' =>
      entry_bytes sequence tip e
      ++ image (record_hash tip (entry_body sequence e)) (sequence + 1) es'
  end.

Lemma replay_entry_ok j sequence protected e :
  entry_ok protected e → u64 sequence → admits j e →
  replay_entry j sequence protected (entry_bytes sequence (j_tip j) e)
  = Ok (apply_entry j sequence e).
Proof.
  intros He Hseq [Hpos Hsafe]. unfold replay_entry. rewrite decode_entry_ok by done.
  destruct (e_safety e) as [s|] eqn:Es; [rewrite Hsafe|]; simpl.
  all: rewrite (proj2 (reject_if_ok _ _ tt)); [unfold apply_entry; by rewrite Es|].
  all: destruct (j_last j) as [[previous m]|]; [|done].
  all: apply not_true_iff_false; rewrite leb_iff; intros [Hlt|Heq].
  all: first [by apply (lt_of_asym _ _ Hlt) | by apply lt_of_ne in Hpos].
Qed.

Lemma replay_image j sequence protected es rest :
  Forall (entry_ok protected) es → 0 <= sequence → sequence + len es < 2 ^ 64 →
  admits_all j sequence es →
  replay j sequence (length es) protected (image (j_tip j) sequence es ++ rest)
  = Ok (apply_all j sequence es, rest).
Proof.
  revert j sequence. induction es as [|e es IH]; intros j sequence Hes Hs Hb Ha; [done|].
  apply Forall_cons in Hes as [He Hes]. destruct Ha as [Hadm Ha]. rewrite len_cons in Hb.
  pose proof (len_nonneg es). cbn [replay image length apply_all]. rewrite <- app_assoc.
  pose proof (entry_bytes_length protected sequence (j_tip j) e He) as Hl.
  rewrite (proj2 (reject_if_ok _ _ tt)); cycle 1.
  { rewrite len_app, (len_entry_bytes protected) by done.
    match goal with |- (_ + len ?l <? _) = _ => pose proof (len_nonneg l) end. lia. }
  rewrite take_app_length' by done. rewrite replay_entry_ok by (done || unfold fits; lia).
  rewrite drop_app_length' by done. apply (IH (apply_entry j sequence e)); [done|lia..|done].
Qed.

Lemma apply_all_app j sequence es e :
  apply_all j sequence (es ++ [e]) = apply_entry (apply_all j sequence es) (sequence + len es) e.
Proof.
  revert j sequence. induction es as [|e' es IH]; intros j sequence; simpl.
  - by rewrite len_nil, Z.add_0_r.
  - rewrite IH, len_cons. f_equal. lia.
Qed.

Lemma admits_all_app j sequence es e :
  admits_all j sequence (es ++ [e]) ↔
  admits_all j sequence es ∧ admits (apply_all j sequence es) e.
Proof.
  revert j sequence. induction es as [|e' es IH]; intros j sequence; simpl; [tauto|].
  rewrite IH. tauto.
Qed.

Lemma image_app j sequence es e :
  image (j_tip j) sequence (es ++ [e]) =
  image (j_tip j) sequence es
  ++ entry_bytes (sequence + len es) (j_tip (apply_all j sequence es)) e.
Proof.
  revert j sequence. induction es as [|e' es IH]; intros j sequence.
  - cbn [image app apply_all]. by rewrite len_nil, Z.add_0_r, app_nil_r.
  - cbn [image app apply_all]. rewrite <- app_assoc. f_equal.
    change (record_hash (j_tip j) (entry_body sequence e'))
      with (j_tip (apply_entry j sequence e')).
    rewrite IH, len_cons. do 2 f_equal. lia.
Qed.

Lemma len_image protected tip sequence es :
  Forall (entry_ok protected) es → len (image tip sequence es) = len es * record_size protected.
Proof.
  revert tip sequence. induction es as [|e es IH]; intros tip sequence Hes; [done|].
  apply Forall_cons in Hes as [He Hes]. cbn [image].
  rewrite len_app, (len_entry_bytes protected), IH, len_cons by done. lia.
Qed.

(** The file and the count are carried through replay unchanged. *)
Definition on_file (file : bytes) (count : Z) j : Journal :=
  mkJournal file count (j_identity j) (j_tip j) (j_last j) (j_previous j) (j_poisoned j)
    (j_protected j) (j_safety j) (j_rollover j).

Lemma apply_all_on_file file count j sequence es :
  apply_all (on_file file count j) sequence es = on_file file count (apply_all j sequence es).
Proof. revert j sequence. induction es as [|e es IH]; intros j sequence; [done|apply (IH (apply_entry j sequence e))]. Qed.

Lemma admits_all_on_file file count j sequence es :
  admits_all (on_file file count j) sequence es ↔ admits_all j sequence es.
Proof.
  revert j sequence. induction es as [|e es IH]; intros j sequence; [done|].
  simpl. unfold admits at 1. simpl. rewrite (IH (apply_entry j sequence e)). done.
Qed.

Lemma apply_all_fixed j sequence es :
  let j' := apply_all j sequence es in
  j_file j' = j_file j ∧ j_count j' = j_count j ∧ j_identity j' = j_identity j
  ∧ j_poisoned j' = j_poisoned j ∧ j_protected j' = j_protected j ∧ j_rollover j' = j_rollover j.
Proof.
  revert j sequence. induction es as [|e es IH]; intros j sequence; [done|].
  apply (IH (apply_entry j sequence e)).
Qed.
End entry_facts.
