(* ===== verification/Recovery.v ===== *)
(** * Recovery: what a restart of the signing journal reconstructs

    The states a journal instance goes through are described by the list of
    decisions it has durably accepted ([flat], [rolled]).  The theorems relate
    the bytes in the file, the state in memory and the result of reopening the
    file, for every way a write can be interrupted. *)

From S2P Require Import Prelude Ordered Codec Types Crypto Votes Disk Journal.

Section recovery.
Context {blake : Blake2s}.
Context (context : SigningContext) (public_key : bytes).
Context (genesis_sized : sized 32 (sc_genesis context)) (key_sized : sized 32 public_key).
Implicit Types (j : Journal) (e : Entry) (es : list Entry) (r : Rollover).

Abbreviation header := (header_version context public_key).

Definition header_checksum (protected : bool) : Hash256 :=
  domain_hash JOURNAL_HEADER_DOMAIN (take 76 (header protected)).

(** ** Header *)

Lemma header_length protected : length (header protected) = 108%nat.
Proof using genesis_sized key_sized.
  unfold header_version. rewrite !length_app, !length_le, domain_hash_sized.
  unfold sized in *. rewrite genesis_sized, key_sized. reflexivity.
Qed.

Lemma header_magic protected : take 4 (header protected) = lit "ALSJ".
Proof. unfold header_version. rewrite <- !app_assoc. by apply take_app_length'. Qed.

Lemma header_number protected :
  take 4 (drop 4 (header protected)) = le 4 (if protected then 2 else 1).
Proof.
  unfold header_version. rewrite <- !app_assoc. rewrite drop_app_length' by done.
  by apply take_app_length'; rewrite length_le.
Qed.

Lemma header_tail protected : drop 76 (header protected) = header_checksum protected.
Proof using genesis_sized key_sized.
  unfold header_checksum, header_version.
  match goal with |- drop _ (?p ++ _) = _ => assert (length p = 76%nat) as Hp end.
  { rewrite !length_app, !length_le; unfold sized in *; by rewrite genesis_sized, key_sized. }
  by rewrite drop_app_length', take_app_length' by done.
Qed.

(** ** The states of a journal *)

Definition fresh (protected : bool) : Journal :=
  mkJournal (header protected) 0 (header_checksum protected) (header_checksum protected) None None
    false protected None None.

Lemma create_fresh protected :
  create_mode context public_key protected Persisted = (header protected, Ok (fresh protected)).
Proof.
  unfold create_mode, persist, write_at. rewrite take_nil, drop_nil, app_nil_l, app_nil_r. done.
Qed.

Definition flat_file (protected : bool) es : bytes :=
  header protected ++ image (header_checksum protected) 1 es.

(** The journal that accepted [es], before any rollover. *)
Definition flat (protected : bool) es : Journal :=
  apply_all (on_file (flat_file protected es) (len es) (fresh protected)) 1 es.

Lemma flat_fixed protected es :
  j_file (flat protected es) = flat_file protected es ∧ j_count (flat protected es) = len es
  ∧ j_identity (flat protected es) = header_checksum protected
  ∧ j_poisoned (flat protected es) = false ∧ j_protected (flat protected es) = protected
  ∧ j_rollover (flat protected es) = None.
Proof. apply apply_all_fixed. Qed.

Definition flat_ok (protected : bool) es : Prop :=
  Forall (entry_ok protected) es ∧ len es <= MAX_JOURNAL_RECORDS
  ∧ admits_all (fresh protected) 1 es.

Lemma len_flat_file protected es :
  flat_ok protected es →
  len (flat_file protected es) = JOURNAL_HEADER_BYTES + len es * record_size protected.
Proof using genesis_sized key_sized.
  intros (Hes & _). unfold flat_file. rewrite len_app, (len_image protected) by done.
  unfold len at 1. by rewrite header_length.
Qed.

Lemma flat_file_app protected es e :
  flat_file protected (es ++ [e])
  = flat_file protected es ++ entry_bytes (len es + 1) (j_tip (flat protected es)) e.
Proof.
  unfold flat_file, flat. change (header_checksum protected) with (j_tip (fresh protected)).
  rewrite image_app, app_assoc, apply_all_on_file. do 2 f_equal. lia.
Qed.

Lemma flat_app protected es e :
  flat protected (es ++ [e])
  = on_file (flat_file protected (es ++ [e])) (len es + 1)
      (apply_entry (flat protected es) (len es + 1) e).
Proof.
  unfold flat. rewrite !apply_all_on_file, apply_all_app, len_app, len_cons, len_nil.
  rewrite (Z.add_comm 1 (len es)). reflexivity.
Qed.

Lemma flat_ok_app protected es e :
  flat_ok protected es → entry_ok protected e → admits (flat protected es) e →
  len es < MAX_JOURNAL_RECORDS → flat_ok protected (es ++ [e]).
Proof.
  intros (Hes & Hmax & Hall) He Ha Hlt. split_and!.
  - by apply Forall_app_2; [|apply Forall_singleton].
  - rewrite len_app, len_cons, len_nil. lia.
  - apply admits_all_app. split; [done|]. unfold flat in Ha. by rewrite apply_all_on_file in Ha.
Qed.

(** What remains of [journal_open] once the header of this identity is read. *)
Definition open_body (protected : bool) (body : bytes) (sync_ok : bool)
    : result Journal KeystoreError :=
  let rolled := protected && (JOURNAL_HEADER_BYTES + len body =? MAX_ROLLOVER_JOURNAL_BYTES) in
  let records := if rolled then MAX_PROTECTED_JOURNAL_BYTES - JOURNAL_HEADER_BYTES else len body in
  let? _ := reject_if (negb (records mod record_size protected =? 0)) InvalidJournal in
  let count := records / record_size protected in
  let? _ := reject_if (MAX_JOURNAL_RECORDS <? count) InvalidJournal in
  let? (journal, rest) := replay (on_file (header protected ++ body) count (fresh protected)) 1
                      (Z.to_nat count) protected body in
  let? journal := (if rolled then recover_rollover journal rest else Ok journal) in
  let? _ := check_length journal in
  let? _ := reject_if (negb sync_ok) JournalFailure in
  Ok journal.

Lemma open_header protected body sync_ok :
  JOURNAL_HEADER_BYTES + len body <= MAX_ROLLOVER_JOURNAL_BYTES →
  journal_open context public_key (header protected ++ body) sync_ok
  = open_body protected body sync_ok.
Proof using genesis_sized key_sized.
  intros Hb. pose proof (len_nonneg body). pose proof (header_length protected) as Hh.
  assert (len (header protected ++ body) = JOURNAL_HEADER_BYTES + len body) as Hl.
  { rewrite len_app. unfold len at 1. by rewrite Hh. }
  unfold journal_open. rewrite Hl, take_app_length', drop_app_length' by done.
  rewrite (proj2 (reject_if_ok _ _ tt)).
  2:{ apply orb_false_iff. split; apply Z.ltb_ge; lia. }
  fold (header_checksum protected). rewrite header_magic, header_number, header_tail.
  replace (if bool_decide (le 4 (if protected then 2 else 1) = le 4 1) then Ok false
           else if bool_decide (le 4 (if protected then 2 else 1) = le 4 2) then Ok true
           else Err InvalidJournal)
    with (@Ok bool KeystoreError protected) by (by destruct protected).
  rewrite !bool_decide_eq_true_2 by done. unfold open_body.
  replace ((if protected && (JOURNAL_HEADER_BYTES + len body =? MAX_ROLLOVER_JOURNAL_BYTES)
            then MAX_PROTECTED_JOURNAL_BYTES else JOURNAL_HEADER_BYTES + len body)
           - JOURNAL_HEADER_BYTES)
    with (if protected && (JOURNAL_HEADER_BYTES + len body =? MAX_ROLLOVER_JOURNAL_BYTES)
          then MAX_PROTECTED_JOURNAL_BYTES - JOURNAL_HEADER_BYTES else len body)
    by (destruct (protected && _); lia).
  reflexivity.
Qed.

Lemma record_size_bounds protected : 85 <= record_size protected <= 154.
Proof. by destruct protected. Qed.

(** A restart of a journal without rollover. *)
Lemma open_flat protected es :
  flat_ok protected es →
  journal_open context public_key (flat_file protected es) true = Ok (flat protected es).
Proof using genesis_sized key_sized.
  intros Hok. pose proof (len_flat_file protected es Hok) as Hlen.
  pose proof (record_size_bounds protected) as Hsz. pose proof (len_nonneg es).
  pose proof max_protected_value. pose proof max_rollover_value.
  destruct Hok as (Hes & Hmax & Hadm). unfold MAX_JOURNAL_RECORDS in Hmax.
  assert (len es * record_size protected <= 100000 * 154) by (apply Z.mul_le_mono_nonneg; lia).
  unfold flat_file in *. pose proof (len_image protected (header_checksum protected) 1 es Hes) as Hi.
  rewrite open_header by (rewrite Hi; unfold JOURNAL_HEADER_BYTES; lia).
  unfold open_body. rewrite Hi.
  rewrite (proj2 (Z.eqb_neq (_ + _) MAX_ROLLOVER_JOURNAL_BYTES)) by (unfold JOURNAL_HEADER_BYTES; lia).
  rewrite andb_false_r, Z.mod_mul, Z.div_mul by lia. cbv iota.
  rewrite (proj2 (reject_if_ok _ _ tt)) by done.
  rewrite (proj2 (reject_if_ok _ _ tt)) by (unfold MAX_JOURNAL_RECORDS; lia).
  replace (Z.to_nat (len es)) with (length es) by (unfold len; lia).
  pose proof (replay_image (on_file (header protected ++ image (header_checksum protected) 1 es)
    (len es) (fresh protected)) 1 protected es [] Hes) as Hr.
  rewrite app_nil_r in Hr. cbn [j_tip on_file fresh] in Hr. rewrite Hr; [|lia..|].
  2:{ by apply admits_all_on_file. }
  fold (flat_file protected es). fold (flat protected es).
  fold (flat_file protected es) in Hlen. unfold check_length.
  destruct (flat_fixed protected es) as (-> & -> & _ & _ & -> & ->).
  by rewrite Hlen, Z.eqb_refl.
Qed.
(** ** Rollover slots *)

Definition watermark_entry (w : Watermark) : Entry :=
  mkEntry (wm_position w) (wm_message w) (Some (wm_safety w)).

(** A slot that is valid beside the retained prefix ending in [b]. *)
Definition slot_ok (b : Watermark) (slot : Z) (w : Watermark) : Prop :=
  u64 (wm_sequence w) ∧ entry_ok true (watermark_entry w)
  ∧ MAX_JOURNAL_RECORDS <= wm_sequence w
  ∧ (wm_sequence w = MAX_JOURNAL_RECORDS → w = b)
  ∧ (MAX_JOURNAL_RECORDS < wm_sequence w →
     rollover_slot (wm_sequence w) = slot ∧ lt_of (wm_position b) (wm_position w))
  ∧ safety_wf (wm_position w) (wm_safety w)
  ∧ preserves (wm_position b) (wm_safety b) (wm_position w) (wm_safety w).

(** [new] is the decision right after [old]. *)
Definition follows (old new : Watermark) : Prop :=
  wm_sequence new = wm_sequence old + 1 ∧ lt_of (wm_position old) (wm_position new)
  ∧ preserves (wm_position old) (wm_safety old) (wm_position new) (wm_safety new).

Definition slots_ok (b : Watermark) r : Prop :=
  slot_ok b 0 (ro_slot0 r) ∧ slot_ok b 1 (ro_slot1 r)
  ∧ ((ro_slot0 r = b ∧ ro_slot1 r = b)
     ∨ follows (ro_slot0 r) (ro_slot1 r) ∨ follows (ro_slot1 r) (ro_slot0 r)).

Lemma encode_slot_entry anchor slot w :
  sized 32 (wm_message w) →
  encode_slot anchor slot w
  = entry_bytes (wm_sequence w) (rollover_binding anchor slot) (watermark_entry w).
Proof. intros H. unfold encode_slot. by rewrite (entry_bytes_protected _ _ (watermark_entry w) (wm_safety w)). Qed.

Lemma encode_slot_length anchor slot w :
  entry_ok true (watermark_entry w) → length (encode_slot anchor slot w) = 154%nat.
Proof. intros H. rewrite encode_slot_entry by apply H. by rewrite (entry_bytes_length true). Qed.

Lemma encode_slot_sequence anchor slot w :
  u64 (wm_sequence w) → entry_ok true (watermark_entry w) →
  from_le (take 8 (encode_slot anchor slot w)) = wm_sequence w.
Proof.
  intros Hs H. rewrite encode_slot_entry by apply H. unfold entry_bytes, entry_body, record_body.
  rewrite <- !app_assoc, take_app_length' by (by rewrite length_le). by apply from_le_le.
Qed.

Lemma decode_slot_ok anchor b slot w :
  slot_ok b slot w → decode_slot anchor b slot (encode_slot anchor slot w) = Ok w.
Proof.
  intros (Hu & He & Hge & Heq & Hgt & Hwf & Hpr). unfold decode_slot.
  rewrite encode_slot_sequence by done. rewrite encode_slot_entry by apply He.
  rewrite decode_entry_ok by done. cbn [watermark_entry e_safety ok_or e_position e_message].
  replace (mkWatermark (wm_sequence w) (wm_position w) (wm_message w) (wm_safety w)) with w
    by (by destruct w).
  rewrite (proj2 (reject_if_ok _ _ tt)); cycle 1.
  { rewrite (proj2 (Z.ltb_ge _ _)) by done.
    destruct (decide (wm_sequence w = MAX_JOURNAL_RECORDS)) as [E|E].
    - rewrite E, Z.eqb_refl, Z.ltb_irrefl, bool_decide_eq_true_2 by auto. done.
    - rewrite (proj2 (Z.eqb_neq _ _)) by done. destruct Hgt as [-> Hlt]; [lia|].
      rewrite Z.eqb_refl, (proj2 (leb_false _ _)) by done. by rewrite andb_false_r. }
  rewrite (proj2 (validate_safety_ok _ _ _)); [done|]. split; [done|]. by intros ?? [= <- <-].
Qed.

(** The extension with its two slots as raw bytes. *)
Definition extension (anchor slot0 slot1 : bytes) : bytes :=
  ROLLOVER_MAGIC ++ anchor ++ slot0 ++ slot1.

Lemma extension_parts anchor slot0 slot1 :
  sized 32 anchor → length slot0 = 154%nat → length slot1 = 154%nat →
  length (extension anchor slot0 slot1) = 348%nat
  ∧ take 8 (extension anchor slot0 slot1) = ROLLOVER_MAGIC
  ∧ take 32 (drop 8 (extension anchor slot0 slot1)) = anchor
  ∧ take 154 (drop 40 (extension anchor slot0 slot1)) = slot0
  ∧ take 154 (drop 194 (extension anchor slot0 slot1)) = slot1.
Proof.
  intros Ha L0 L1. unfold extension, sized in *. split_and!.
  - by rewrite !length_app, Ha, L0, L1.
  - by apply take_app_length'.
  - by apply window.
  - rewrite app_assoc. apply window; [|done]. by rewrite length_app, Ha.
  - rewrite !app_assoc. rewrite drop_app_length' by (by rewrite !length_app, Ha, L0).
    by apply take_ge; rewrite L1.
Qed.

Lemma rollover_encode_extension r :
  rollover_encode r = extension (ro_anchor r) (encode_slot (ro_anchor r) 0 (ro_slot0 r))
                        (encode_slot (ro_anchor r) 1 (ro_slot1 r)).
Proof. done. Qed.

Lemma rollover_new_anchor tip last safety r :
  rollover_new tip last safety = Ok r → sized 32 (ro_anchor r).
Proof. unfold rollover_new. intros H. bind_inv H. subst r. apply domain_hash_sized. Qed.

Lemma follows_checks old new :
  u64 (wm_sequence new) → 0 <= wm_sequence old →
  safety_wf (wm_position new) (wm_safety new) → follows old new →
  reject_if (negb (bool_decide (checked_add 64 (wm_sequence old) 1 = Some (wm_sequence new)))
             || leb (wm_position new) (wm_position old)) InvalidJournal = Ok tt
  ∧ validate_safety (wm_position new) (wm_safety new) (Some (wm_position old, wm_safety old))
    = Ok tt.
Proof.
  intros Hu H0 Hwf (Hs & Hlt & Hpr). split.
  - apply reject_if_ok. rewrite (proj2 (leb_false _ _)) by done.
    rewrite bool_decide_eq_true_2; [done|]. rewrite Hs in *. apply checked_add_some.
    unfold fits in *. lia.
  - apply validate_safety_ok. split; [done|]. by intros ?? [= <- <-].
Qed.

Lemma rollover_decode_ok tip last safety b r :
  rollover_new tip last safety = Ok (mkRollover (ro_anchor r) b b) → slots_ok b r →
  rollover_decode tip last safety (rollover_encode r) = Ok r.
Proof.
  intros Hnew (H0 & H1 & Hp). unfold rollover_decode. rewrite Hnew.
  assert (rollover_latest (mkRollover (ro_anchor r) b b) = b) as ->.
  { unfold rollover_latest. by rewrite Z.ltb_irrefl. }
  pose proof (rollover_new_anchor _ _ _ _ Hnew) as Ha. cbn [ro_anchor] in Ha |- *.
  destruct H0 as (U0 & E0 & G0 & Q0 & L0 & W0 & P0).
  destruct H1 as (U1 & E1 & G1 & Q1 & L1 & W1 & P1).
  rewrite rollover_encode_extension.
  destruct (extension_parts (ro_anchor r) (encode_slot (ro_anchor r) 0 (ro_slot0 r))
    (encode_slot (ro_anchor r) 1 (ro_slot1 r))) as (Hl & -> & -> & -> & ->);
    [done|by apply encode_slot_length..|].
  assert (len (extension (ro_anchor r) (encode_slot (ro_anchor r) 0 (ro_slot0 r))
    (encode_slot (ro_anchor r) 1 (ro_slot1 r))) = EXTENSION_BYTES) as Hlen
    by (unfold len; by rewrite Hl).
  rewrite Hlen, Z.eqb_refl, !bool_decide_eq_true_2 by done. cbn [negb orb reject_if].
  rewrite !decode_slot_ok by (by split_and!).
  destruct Hp as [[Ea Eb]|[Hf|Hf]].
  - rewrite Ea, Eb, Z.eqb_refl, !bool_decide_eq_true_2 by done. cbn. rewrite <- Ea at 1. by destruct r; simpl in *; subst.
  - assert (Hs := proj1 Hf). rewrite (proj2 (Z.eqb_neq _ _)), (proj2 (Z.ltb_lt _ _)) by lia.
    destruct (follows_checks _ _ U1 (proj1 U0) W1 Hf) as [-> ->]. by destruct r.
  - assert (Hs := proj1 Hf). rewrite (proj2 (Z.eqb_neq _ _)), (proj2 (Z.ltb_ge _ _)) by lia.
    destruct (follows_checks _ _ U0 (proj1 U1) W0 Hf) as [-> ->]. by destruct r.
Qed.
Definition rolled_file es r : bytes := flat_file true es ++ rollover_encode r.

(** The journal whose retained prefix is [es] and whose slots are [r]. *)
Definition rolled es r : Journal :=
  let j := flat true es in
  let latest := rollover_latest r in
  mkJournal (rolled_file es r) (wm_sequence latest) (j_identity j) (j_tip j)
    (Some (wm_position latest, wm_message latest))
    match rollover_older r with
    | Some older => Some (mkJournalState (wm_sequence older) (Some (wm_position older))
                            (wm_message older) (j_tip j))
    | None => j_previous j
    end false true (Some (wm_safety latest)) (Some r).

Definition rolled_ok es r : Prop :=
  flat_ok true es ∧ len es = MAX_JOURNAL_RECORDS
  ∧ ∃ b, rollover_new (j_tip (flat true es)) (j_last (flat true es)) (j_safety (flat true es))
         = Ok (mkRollover (ro_anchor r) b b)
         ∧ slots_ok b r.

Lemma slots_ok_length b tip last safety r :
  rollover_new tip last safety = Ok (mkRollover (ro_anchor r) b b) → slots_ok b r →
  length (rollover_encode r) = 348%nat.
Proof.
  intros Hn ((_ & H0 & _) & (_ & H1 & _) & _). rewrite rollover_encode_extension.
  apply extension_parts; [apply (rollover_new_anchor _ _ _ _ Hn)|by apply encode_slot_length..].
Qed.

Lemma len_flat_full es :
  flat_ok true es → len es = MAX_JOURNAL_RECORDS →
  len (flat_file true es) = MAX_PROTECTED_JOURNAL_BYTES.
Proof using genesis_sized key_sized.
  intros Hok Hl. by rewrite len_flat_file, Hl, max_protected_value.
Qed.

Lemma check_length_rolled es r :
  rolled_ok es r → check_length (rolled es r) = Ok tt.
Proof using genesis_sized key_sized.
  intros (Hok & Hmax & b & Hn & Hs). pose proof (slots_ok_length _ _ _ _ _ Hn Hs) as Hr.
  pose proof (len_flat_full es Hok Hmax) as Hf.
  unfold check_length, rolled. cbn [j_rollover j_file]. unfold rolled_file at 1.
  rewrite len_app, Hf. unfold len at 1. rewrite Hr, max_protected_value, max_rollover_value.
  cbn [Z.of_nat reject_if negb]. apply reject_if_ok.
  unfold rolled_file. rewrite drop_app_length' by (unfold len in Hf; pose proof max_protected_value; lia).
  rewrite take_ge by (by rewrite Hr).
  by rewrite bool_decide_eq_true_2.
Qed.

(** A restart of a full journal with any extension of the right length. *)
Lemma open_extension es (ext : bytes) :
  flat_ok true es → len es = MAX_JOURNAL_RECORDS → length ext = 348%nat →
  journal_open context public_key (flat_file true es ++ ext) true
  = let? journal := recover_rollover
                      (on_file (flat_file true es ++ ext) MAX_JOURNAL_RECORDS (flat true es)) ext in
    let? _ := check_length journal in
    Ok journal.
Proof using genesis_sized key_sized.
  intros Hok Hmax He. pose proof (len_image true (header_checksum true) 1 es (proj1 Hok)) as Hi.
  destruct Hok as (Hes & _ & Hadm).
  assert (len (image (header_checksum true) 1 es ++ ext)
          = MAX_ROLLOVER_JOURNAL_BYTES - JOURNAL_HEADER_BYTES) as Hl.
  { rewrite len_app, Hi, Hmax, max_rollover_value. unfold len. by rewrite He. }
  unfold flat_file. rewrite <- app_assoc, open_header by lia.
  unfold open_body. rewrite Hl.
  rewrite (proj2 (Z.eqb_eq (_ + _) MAX_ROLLOVER_JOURNAL_BYTES)) by lia. cbn [andb].
  rewrite max_protected_value. cbn [Z.sub record_size].
  rewrite (proj2 (reject_if_ok _ _ tt)) by done. rewrite (proj2 (reject_if_ok _ _ tt)) by done.
  change ((15400108 - JOURNAL_HEADER_BYTES) `div` PROTECTED_RECORD_BYTES) with MAX_JOURNAL_RECORDS.
  rewrite <- Hmax. replace (Z.to_nat (len es)) with (length es) by (unfold len; lia).
  match goal with |- context [replay (on_file ?f ?n _)] =>
    pose proof (replay_image (on_file f n (fresh true)) 1 true es ext Hes) as Hrep
  end.
  cbn [j_tip on_file fresh] in Hrep.
  rewrite Hrep; [|done|unfold MAX_JOURNAL_RECORDS in *; lia|by apply admits_all_on_file].
  unfold flat. rewrite !apply_all_on_file. reflexivity.
Qed.

(** A restart of a journal behind its rollover boundary. *)
Lemma open_rolled es r :
  rolled_ok es r →
  journal_open context public_key (rolled_file es r) true = Ok (rolled es r).
Proof using genesis_sized key_sized.
  intros Hro. pose proof (check_length_rolled es r Hro) as Hcheck.
  destruct Hro as (Hok & Hmax & b & Hn & Hs). pose proof (slots_ok_length _ _ _ _ _ Hn Hs) as Hr.
  unfold rolled_file. rewrite open_extension by done. unfold recover_rollover.
  rewrite (proj2 (reject_if_ok _ _ tt)) by (unfold len; by rewrite Hr).
  rewrite take_ge by (rewrite Hr; done). cbn [on_file j_tip j_last j_safety].
  rewrite (rollover_decode_ok _ _ _ b) by done.
  match goal with |- context [check_length ?j] => assert (j = rolled es r) as -> end.
  { destruct (flat_fixed true es) as (_ & _ & _ & Hp & Hb & _).
    unfold rolled, rolled_file. cbn [on_file j_file j_identity j_tip j_previous j_poisoned j_protected].
    by rewrite Hp, Hb. }
  by rewrite Hcheck.
Qed.

(** ** Publishing a slot *)

Lemma rollover_slot_cases n : rollover_slot n = 0 ∧ rollover_slot (n + 1) = 1
                              ∨ rollover_slot n = 1 ∧ rollover_slot (n + 1) = 0.
Proof.
  unfold rollover_slot. replace (n + 1 - MAX_JOURNAL_RECORDS - 1) with (n - MAX_JOURNAL_RECORDS) by lia.
  destruct (Z.eqb_spec ((n - MAX_JOURNAL_RECORDS - 1) mod 2) 0);
    destruct (Z.eqb_spec ((n - MAX_JOURNAL_RECORDS) mod 2) 0);
    Z.to_euclidean_division_equations; lia.
Qed.

Lemma latest_slot b r : slots_ok b r → ∃ slot, slot_ok b slot (rollover_latest r).
Proof. intros (H0 & H1 & _). unfold rollover_latest. case_test; eauto. Qed.

(** The slot of a decision behind the latest one is valid beside the prefix. *)
Lemma next_slot_ok b slot old w :
  slot_ok b slot old → follows old w → entry_ok true (watermark_entry w) →
  u64 (wm_sequence w) → safety_wf (wm_position w) (wm_safety w) →
  slot_ok b (rollover_slot (wm_sequence w)) w.
Proof.
  intros (_ & _ & Hge & Heq & Hgt & _ & Hpr) (Hs & Hlt & Hpw) He Hu Hwf.
  assert (wm_position old = wm_position b ∨ lt_of (wm_position b) (wm_position old)) as Hb.
  { destruct (decide (wm_sequence old = MAX_JOURNAL_RECORDS)) as [E|E].
    - left. by rewrite (Heq E).
    - right. apply Hgt. lia. }
  assert (lt_of (wm_position b) (wm_position w)) as Hbw.
  { destruct Hb as [<-|Hb]; [done|by apply (lt_of_trans _ _ _ Hb)]. }
  unfold slot_ok. repeat (split; [first [done|lia]|]).
  apply (preserves_trans _ _ (wm_position old) (wm_safety old)); [|done..].
  rewrite lt_position in Hlt. destruct Hb as [<-|Hb]; [lia|].
  rewrite lt_position in Hb. lia.
Qed.

Lemma publish_ok b r w :
  slots_ok b r → follows (rollover_latest r) w → slot_ok b (rollover_slot (wm_sequence w)) w →
  let r' := rollover_publish r (rollover_slot (wm_sequence w)) w in
  slots_ok b r' ∧ rollover_latest r' = w ∧ rollover_older r' = Some (rollover_latest r)
  ∧ ro_anchor r' = ro_anchor r.
Proof.
  intros (H0 & H1 & Hp) Hf Hw.
  destruct (rollover_slot_cases (wm_sequence (rollover_latest r))) as [[S S']|[S S']];
    rewrite <- (proj1 Hf) in S'; rewrite S' in *; unfold rollover_publish; cbn [Z.eqb].
  - assert (ro_slot0 r = rollover_latest r) as E.
    { unfold rollover_latest in *. case_test; [done|].
      destruct Hp as [[-> ->]|[[Hs _]|[Hs _]]]; [done| |lia].
      destruct H0 as (_&_&G0&_), H1 as (_&_&_&_&L1&_). destruct (L1 ltac:(lia)). lia. }
    rewrite <- E in Hf |- *. assert (Hs := proj1 Hf).
    unfold rollover_latest, rollover_older, slots_ok. cbn [ro_slot0 ro_slot1 ro_anchor].
    rewrite (proj2 (Z.ltb_ge _ _)) by lia. rewrite (proj2 (Z.compare_lt_iff _ _)) by lia.
    split_and!; auto.
  - assert (ro_slot1 r = rollover_latest r) as E.
    { unfold rollover_latest in *. case_test; [|done].
      destruct Hp as [[E0 E1]|[[Hs _]|[Hs _]]]; [rewrite E0, E1 in *; lia|lia|].
      destruct H1 as (_&_&G1&_), H0 as (_&_&_&_&L0&_). destruct (L0 ltac:(lia)). lia. }
    rewrite <- E in Hf |- *. assert (Hs := proj1 Hf).
    unfold rollover_latest, rollover_older, slots_ok. cbn [ro_slot0 ro_slot1 ro_anchor].
    rewrite (proj2 (Z.ltb_lt _ _)) by lia. rewrite (proj2 (Z.compare_gt_iff _ _)) by lia.
    split_and!; auto.
Qed.
(** ** Writes *)

Definition decision_bytes (protected : bool) es e : bytes :=
  entry_bytes (len es + 1) (j_tip (flat protected es)) e.

(** The write of a reservation before rollover, whatever its outcome. *)
Lemma append_flat protected es e io :
  flat_ok protected es → entry_ok protected e →
  append_entry (flat protected es) (len es + 1) (e_position e) (e_message e) (e_safety e) io
  = match io with
    | Persisted => (flat protected (es ++ [e]), Ok tt)
    | PersistFailed torn =>
        (poison (with_file (flat protected es)
                   (flat_file protected es ++ take torn (decision_bytes protected es e))),
         Err DurabilityUnknown)
    end.
Proof using genesis_sized key_sized.
  intros Hok He. unfold append_entry.
  destruct (flat_fixed protected es) as (Hf & Hc & Hi & Hpo & Hpr & Hr).
  rewrite Hr, Hf, Hc, Hi, Hpr. pose proof (len_flat_file _ _ Hok) as Hl.
  assert (
    match e_safety e with
    | Some next => (JOURNAL_HEADER_BYTES + len es * PROTECTED_RECORD_BYTES,
        protected_record (len es + 1) (e_position e) (e_message e) (j_tip (flat protected es)) next)
    | None => (JOURNAL_HEADER_BYTES + len es * RECORD_BYTES,
        record (len es + 1) (e_position e) (e_message e) (j_tip (flat protected es)))
    end = (len (flat_file protected es), decision_bytes protected es e)) as Hb.
  { destruct He as (_ & Hm & Hs). rewrite Hl. unfold decision_bytes.
    destruct (e_safety e) as [s|] eqn:Es; [destruct Hs as [-> Hs]|subst protected].
    - by rewrite (entry_bytes_protected _ _ _ s).
    - by rewrite entry_bytes_record. }
  rewrite Hb. destruct io as [|torn]; cbn [persist negb]; rewrite write_at_end.
  2:{ done. }
  unfold decision_bytes at 2 3. rewrite (entry_bytes_body protected) by done.
  rewrite flat_app, flat_file_app. unfold on_file, apply_entry. cbn.
  rewrite Hi, Hpo, Hpr, Hr. unfold journal_state. rewrite Hc.
  by replace (len es + 1 - 1) with (len es) by lia.
Qed.

(** The decision [e] as the watermark behind [r]. *)
Definition next_watermark r e (safety : SigningSafety) : Watermark :=
  mkWatermark (wm_sequence (rollover_latest r) + 1) (e_position e) (e_message e) safety.

Definition next_rollover r (w : Watermark) : Rollover :=
  rollover_publish r (rollover_slot (wm_sequence w)) w.

Lemma rolled_next es r e safety :
  let w := next_watermark r e safety in
  rolled_ok es r → entry_ok true e → e_safety e = Some safety → u64 (wm_sequence w) →
  admits (rolled es r) e →
  follows (rollover_latest r) w ∧ entry_ok true (watermark_entry w)
  ∧ safety_wf (wm_position w) (wm_safety w)
  ∧ rolled_ok es (next_rollover r w) ∧ rollover_latest (next_rollover r w) = w
  ∧ rollover_older (next_rollover r w) = Some (rollover_latest r)
  ∧ ro_anchor (next_rollover r w) = ro_anchor r.
Proof.
  intros w (Hok & Hmax & b & Hn & Hs) He Hes Hu Ha.
  destruct (latest_slot _ _ Hs) as (i & Hlat). destruct Ha as [Hlt Hval]. rewrite Hes in Hval.
  cbn [rolled j_last j_safety previous_decision] in Hlt, Hval.
  apply validate_safety_ok in Hval as [Hwf Hpr].
  assert (follows (rollover_latest r) w) as Hf.
  { split; [done|]. split; [done|]. by apply Hpr. }
  assert (entry_ok true (watermark_entry w)) as Hew.
  { destruct He as (? & ? & Hse). rewrite Hes in Hse. by split_and!. }
  pose proof (next_slot_ok _ _ _ _ Hlat Hf Hew Hu Hwf) as Hsw.
  destruct (publish_ok _ _ _ Hs Hf Hsw) as (Hs' & Hl' & Ho' & Ha').
  fold (next_rollover r w) in *. split; [done|]. split; [done|]. split; [done|].
  split; [|done]. split; [done|]. split; [done|]. exists b. by rewrite Ha'.
Qed.

Lemma write_slot es anchor slot0 slot1 slot (data : bytes) :
  flat_ok true es → len es = MAX_JOURNAL_RECORDS → sized 32 anchor →
  length slot0 = 154%nat → length slot1 = 154%nat → slot = 0 ∨ slot = 1 →
  (length data <= 154)%nat →
  write_at (flat_file true es ++ extension anchor slot0 slot1) (slot_offset slot) data
  = flat_file true es
    ++ (if slot =? 0 then extension anchor (overlay data slot0) slot1
        else extension anchor slot0 (overlay data slot1)).
Proof using genesis_sized key_sized.
  intros Hok Hmax Ha H0 H1 Hslot Hd. pose proof (len_flat_full es Hok Hmax) as Hf.
  unfold extension, overlay, slot_offset, sized in *. destruct Hslot as [-> | ->]; cbn [Z.eqb].
  - rewrite !app_assoc, <- (app_assoc _ slot0). rewrite write_at_window; [..|lia].
    + by rewrite <- !app_assoc.
    + rewrite !len_app, Hf. unfold len. by rewrite Ha.
  - replace (flat_file true es ++ ROLLOVER_MAGIC ++ anchor ++ slot0 ++ slot1)
      with ((flat_file true es ++ ROLLOVER_MAGIC ++ anchor ++ slot0) ++ slot1 ++ [])
      by (by rewrite app_nil_r, <- !app_assoc).
    rewrite write_at_window; [..|lia].
    + by rewrite app_nil_r, <- !app_assoc.
    + rewrite !len_app, Hf. unfold len. by rewrite Ha, H0.
Qed.

Lemma rollover_slot_01 n : rollover_slot n = 0 ∨ rollover_slot n = 1.
Proof. destruct (rollover_slot_cases n) as [[-> _]|[-> _]]; auto. Qed.

Lemma write_next es r w :
  rolled_ok es r → entry_ok true (watermark_entry w) →
  write_at (rolled_file es r) (slot_offset (rollover_slot (wm_sequence w)))
    (encode_slot (ro_anchor r) (rollover_slot (wm_sequence w)) w)
  = rolled_file es (next_rollover r w).
Proof using genesis_sized key_sized.
  intros (Hok & Hmax & b & Hn & Hs) He.
  destruct Hs as ((_ & H0 & _) & (_ & H1 & _) & _).
  pose proof (rollover_new_anchor _ _ _ _ Hn) as Ha.
  unfold rolled_file. rewrite (rollover_encode_extension r).
  rewrite write_slot; try done.
  2-3: by rewrite encode_slot_length.
  2: apply rollover_slot_01.
  2: rewrite encode_slot_length by done; lia.
  rewrite !overlay_full by (by rewrite !encode_slot_length by done).
  unfold next_rollover, rollover_publish.
  destruct (rollover_slot_01 (wm_sequence w)) as [-> | ->]; reflexivity.
Qed.

(** The write of a reservation behind the rollover boundary. *)
Lemma append_rolled es r e safety io :
  let w := next_watermark r e safety in
  let slot := rollover_slot (wm_sequence w) in
  rolled_ok es r → entry_ok true e → e_safety e = Some safety → u64 (wm_sequence w) →
  admits (rolled es r) e →
  append_entry (rolled es r) (wm_sequence w) (e_position e) (e_message e) (Some safety) io
  = match io with
    | Persisted => (rolled es (next_rollover r w), Ok tt)
    | PersistFailed torn =>
        (poison (with_file (rolled es r)
                   (write_at (rolled_file es r) (slot_offset slot)
                      (take torn (encode_slot (ro_anchor r) slot w)))),
         Err DurabilityUnknown)
    end.
Proof using genesis_sized key_sized.
  intros w slot Hro He Hes Hu Ha.
  destruct (rolled_next es r e safety Hro He Hes Hu Ha) as (Hf & Hew & Hwf & _ & Hl & Ho & _).
  fold w in Hf, Hew, Hwf, Hl, Ho.
  pose proof (write_next es r w Hro Hew) as Hfile.
  destruct Hro as (Hok & Hmax & b & Hn & Hs). destruct (latest_slot _ _ Hs) as (i & Hlat).
  destruct (follows_checks _ _ Hu (proj1 (proj1 Hlat)) Hwf Hf) as [Hg Hv].
  unfold append_entry, rollover_prepare. cbn [rolled j_rollover ok_or].
  cbn [w next_watermark wm_sequence wm_position wm_safety] in Hg, Hv |- *. rewrite Hg, Hv.
  fold (next_watermark r e safety). fold w. change (j_file (rolled es r)) with (rolled_file es r).
  change (rollover_slot (wm_sequence (rollover_latest r) + 1)) with slot.
  fold slot in Hfile. destruct io as [|torn]; cbn [persist negb]; [|done].
  rewrite Hfile. f_equal. unfold rolled at 5. rewrite Hl, Ho. reflexivity.
Qed.
(** ** Activation *)

Lemma flat_last protected es e :
  j_last (flat protected (es ++ [e])) = Some (e_position e, e_message e)
  ∧ j_safety (flat protected (es ++ [e])) = e_safety e.
Proof. rewrite flat_app. done. Qed.

Lemma slots_ok_initial anchor b :
  wm_sequence b = MAX_JOURNAL_RECORDS → entry_ok true (watermark_entry b) →
  safety_wf (wm_position b) (wm_safety b) → slots_ok b (mkRollover anchor b b).
Proof.
  intros Hs He Hwf. assert (∀ slot, slot_ok b slot b) as Hb.
  { intros slot. unfold slot_ok. rewrite Hs. unfold fits, MAX_JOURNAL_RECORDS.
    split; [lia|]. do 5 (split; [first [done|lia]|]). apply preserves_refl. }
  split; [apply Hb|]. split; [apply Hb|]. by left.
Qed.

(** The slots [activate_rollover] starts with. *)
Lemma activate_initial es :
  flat_ok true es → len es = MAX_JOURNAL_RECORDS →
  ∃ r, rollover_new (j_tip (flat true es)) (j_last (flat true es)) (j_safety (flat true es)) = Ok r
       ∧ rolled_ok es r ∧ wm_sequence (rollover_latest r) = MAX_JOURNAL_RECORDS
       ∧ rolled es r = with_rollover (with_file (flat true es) (rolled_file es r)) r false.
Proof.
  intros Hok Hmax. destruct es as [|e es _] using rev_ind; [done|].
  destruct (flat_last true es e) as [Hl Hs].
  assert (Hok' := Hok). destruct Hok' as (Hes & _ & Hall).
  apply Forall_app in Hes as [_ Hes]. rewrite Forall_singleton in Hes.
  destruct Hes as (Hep & Hem & Hse).
  apply admits_all_app in Hall as [_ [_ Hv]].
  destruct (e_safety e) as [safety|]; [|done].
  apply validate_safety_ok in Hv as [Hwf _].
  set (b := mkWatermark MAX_JOURNAL_RECORDS (e_position e) (e_message e) safety).
  exists (mkRollover (domain_hash ROLLOVER_HEADER_DOMAIN (j_tip (flat true (es ++ [e])))) b b).
  rewrite Hl, Hs. split; [done|].
  assert (entry_ok true (watermark_entry b)) as Heb.
  { by split. }
  split.
  - split; [done|]. split; [done|]. exists b. rewrite Hl, Hs. split; [done|].
    by apply slots_ok_initial.
  - split; [done|]. unfold rolled, with_rollover, with_file, rollover_latest, rollover_older.
    cbn. destruct (flat_fixed true (es ++ [e])) as (_ & -> & -> & _ & -> & _).
    by rewrite Hl, Hs, Hmax.
Qed.

(** ** Reservation *)

(** The states of an instance whose writes all succeeded. *)
Inductive journal_wf : Journal → Prop :=
| wf_flat protected es : flat_ok protected es → journal_wf (flat protected es)
| wf_rolled es r : rolled_ok es r → journal_wf (rolled es r).

(** The last decision. *)
Definition view j : option Entry :=
  option_map (λ d, mkEntry (fst d) (snd d) (j_safety j)) (j_last j).

(** The arguments of a reservation inside their types. *)
Definition request_ok e : Prop :=
  u64 (sp_height (e_position e)) ∧ u32 (sp_round (e_position e)) ∧ u8 (sp_phase (e_position e))
  ∧ sized 32 (e_message e) ∧ match e_safety e with Some s => safety_ok s | None => True end.

Definition capacity j : Prop :=
  (j_protected j = false → j_count j ≠ MAX_JOURNAL_RECORDS) ∧ j_count j + 1 < 2 ^ 64.

(** The abstract rule: repeat the last decision, or move forward. *)
Definition accepts j e : Prop :=
  entry_ok (j_protected j) e ∧ (view j = Some e ∨ (admits j e ∧ capacity j)).

Definition write_decision j e (io_activate io : Persist) : Journal * result unit KeystoreError :=
  if j_protected j && (j_count j =? MAX_JOURNAL_RECORDS) && negb (is_some (j_rollover j))
  then match activate_rollover j io_activate with
       | (journal, Err error) => (journal, Err error)
       | (journal, Ok _) =>
           append_entry journal (j_count j + 1) (e_position e) (e_message e) (e_safety e) io
       end
  else append_entry j (j_count j + 1) (e_position e) (e_message e) (e_safety e) io.

Lemma check_length_flat protected es :
  flat_ok protected es → check_length (flat protected es) = Ok tt.
Proof using genesis_sized key_sized.
  intros Hok. unfold check_length. destruct (flat_fixed protected es) as (-> & -> & _ & _ & -> & ->).
  by rewrite (len_flat_file _ _ Hok), Z.eqb_refl.
Qed.

Lemma wf_ready j : journal_wf j → j_poisoned j = false ∧ check_length j = Ok tt.
Proof using genesis_sized key_sized.
  intros [protected es Hok|es r Hok].
  - split; [apply (flat_fixed protected es)|by apply check_length_flat].
  - split; [done|by apply check_length_rolled].
Qed.

Lemma request_entry_ok protected e :
  request_ok e → entry_ok protected e ↔
  (PRECOMMIT_PHASE <? sp_phase (e_position e)) = false
  ∧ Bool.eqb protected (is_some (e_safety e)) = true.
Proof.
  intros (Hh & Hr & Hp & Hm & Hs). unfold entry_ok, position_ok, fits in *.
  rewrite Z.ltb_ge. destruct (e_safety e), protected; simpl; naive_solver lia.
Qed.

(** The part of [reserve_entry] behind the comparison with the last position. *)
Definition fresh_reserve j e (io_activate io : Persist) : Journal * result unit KeystoreError :=
  if negb (j_protected j) && (j_count j =? MAX_JOURNAL_RECORDS)
  then (j, Err KeystoreLimitExceeded)
  else
    match (match e_safety e with
           | Some next => validate_safety (e_position e) next
                            (previous_decision (j_last j) (j_safety j))
           | None => Ok tt
           end) with
    | Err error => (j, Err error)
    | Ok _ =>
        match checked_add 64 (j_count j) 1 with
        | None => (j, Err KeystoreLimitExceeded)
        | Some sequence =>
            if j_protected j && (j_count j =? MAX_JOURNAL_RECORDS)
               && negb (is_some (j_rollover j))
            then
              match activate_rollover j io_activate with
              | (journal, Err error) => (journal, Err error)
              | (journal, Ok _) =>
                  append_entry journal sequence (e_position e) (e_message e) (e_safety e) io
              end
            else append_entry j sequence (e_position e) (e_message e) (e_safety e) io
        end
    end.

Lemma fresh_reserve_cases j e io_activate io :
  match j_last j with Some (previous, _) => lt_of previous (e_position e) | None => True end →
  (∃ error, fresh_reserve j e io_activate io = (j, Err error) ∧ error ≠ DurabilityUnknown
      ∧ ¬ (admits j e ∧ capacity j))
  ∨ (admits j e ∧ capacity j
     ∧ fresh_reserve j e io_activate io = write_decision j e io_activate io).
Proof.
  intros Hlt. unfold fresh_reserve, admits, capacity.
  destruct (negb _ && _) eqn:Ecap.
  { left. eexists. split; [done|]. split; [done|]. bool_props. naive_solver. }
  destruct (match e_safety e with Some _ => _ | None => _ end) as [[]|err] eqn:Ev.
  2:{ left. eexists. split; [done|]. split.
      - destruct (e_safety e); [|done]. by rewrite (validate_safety_err _ _ _ _ Ev).
      - intros [[_ Hv] _]. destruct (e_safety e); congruence. }
  destruct (checked_add 64 (j_count j) 1) as [n|] eqn:Ea.
  2:{ left. eexists. split; [done|]. split; [done|]. intros [_ [_ Hc]].
      apply checked_add_none in Ea. lia. }
  apply checked_add_some in Ea as [Hb ->]. right. split_and!; [done| |intros Hp|lia|done].
  - by destruct (e_safety e).
  - intros Hc. rewrite Hp, Hc, Z.eqb_refl in Ecap. done.
Qed.

Lemma reserve_entry_cases j e io_activate io :
  journal_wf j → request_ok e →
  let outcome := reserve_entry j (e_position e) (e_message e) (e_safety e) io_activate io in
  (∃ error, outcome = (j, Err error) ∧ error ≠ DurabilityUnknown ∧ ¬ accepts j e)
  ∨ (entry_ok (j_protected j) e ∧ view j = Some e ∧ outcome = (j, Ok tt))
  ∨ (entry_ok (j_protected j) e ∧ admits j e ∧ capacity j
     ∧ outcome = write_decision j e io_activate io).
Proof using genesis_sized key_sized.
  intros Hwf Hreq. pose proof (request_entry_ok (j_protected j) e Hreq) as Hent.
  destruct (wf_ready j Hwf) as [Hpo Hcl]. cbv zeta. unfold reserve_entry. rewrite Hpo, Hcl.
  destruct (PRECOMMIT_PHASE <? _) eqn:Eph.
  { left. eexists. split; [done|]. split; [done|]. intros [He _]. naive_solver. }
  destruct (Bool.eqb _ _) eqn:Epr; cbn [negb].
  2:{ left. eexists. split; [done|]. split; [done|]. intros [He _]. naive_solver. }
  assert (entry_ok (j_protected j) e) as He by by apply Hent. clear Hent Eph Epr Hreq.
  fold (fresh_reserve j e io_activate io). unfold accepts, view.
  pose proof (fresh_reserve_cases j e io_activate io) as Hfresh. unfold admits in *.
  destruct (j_last j) as [[previous digest]|] eqn:El; cbn [option_map fst snd].
  2:{ destruct (Hfresh I) as [(err & -> & Hd & Hn)|(Ha & Hc & ->)]; [left|by right; right].
      eexists. split; [done|]. split; [done|]. naive_solver. }
  destruct (cmp (e_position e) previous) eqn:Ec.
  - apply cmp_eq_iff in Ec. destruct (bool_decide _ && bool_decide _) eqn:Em; bool_props.
    + right; left. split_and!; [done| |done]. destruct e; simpl in *; congruence.
    + left. eexists. split; [done|]. split; [done|]. intros [_ [[= <-]|[[Hlt _] _]]].
      * cbn in Em. by rewrite !bool_decide_eq_true_2 in Em.
      * rewrite Ec in Hlt. by apply lt_of_irrefl in Hlt.
  - left. eexists. split; [done|]. split; [done|]. intros [_ [[= <-]|[[Hlt _] _]]].
    * by apply (lt_of_irrefl previous).
    * by apply (lt_of_asym _ _ Hlt).
  - apply cmp_gt_lt in Ec. destruct (Hfresh Ec) as [(err & -> & Hd & Hn)|(Ha & Hc & ->)]; [left|by right; right].
    eexists. split; [done|]. split; [done|]. intros [_ [[= <-]|?]]; [|done].
    by apply (lt_of_irrefl previous).
Qed.
(** ** Interrupted writes *)

Lemma decode_entry_checksum bs sequence tip protected out :
  len bs < 2 ^ 64 → decode_entry bs sequence tip protected = Ok out →
  drop (length bs - 32) bs = record_hash tip (take (length bs - 32) bs).
Proof.
  intros Hl H. unfold decode_entry in H. bind_inv H. clear H. guards.
  match goal with H : _ = record_hash _ _ |- _ => rewrite <- H end.
  apply map_err_ok in E. unfold complete in E. bind_inv E.
  subst p. pose proof (dview_new bs Hl) as Hd. clear H0. unfold read_entry in E0.
  assert (∃ pre, bs = pre ++ l ∧ length l = 32%nat) as (pre & -> & Hh).
  { bind_inv E0. destruct protected; bind_inv E4; simplify_eq; read_inv; simplify_eq.
    all: eapply finish_ok in E1; [|eassumption]; subst; rewrite app_nil_r.
    all: eexists; split; [|eassumption]; rewrite !app_assoc; reflexivity. }
  rewrite length_app, Hh, drop_app_length' by lia. done.
Qed.
Lemma entry_bytes_split sequence tip e :
  entry_ok true e →
  length (entry_bytes sequence tip e) = 154%nat
  ∧ drop 122 (entry_bytes sequence tip e) = record_hash tip (take 122 (entry_bytes sequence tip e)).
Proof.
  intros He. split; [by apply (entry_bytes_length true)|].
  pose proof (entry_body_length true sequence e He) as Hb.
  unfold entry_bytes. rewrite drop_app_length', take_app_length' by (by rewrite Hb). done.
Qed.

(** The preimages a torn slot would have to share a digest with. *)
Definition torn_collision (tip old torn : bytes) : Prop :=
  collides (domain_preimage RECORD_DOMAIN (tip ++ take 122 old))
           (domain_preimage RECORD_DOMAIN (tip ++ take 122 torn)).

(** A record half overwritten by another one of the same chain position does not
    decode, unless it is one of the two or its checksum collides. *)
Lemma torn_record tip (old new : bytes) k sequence out :
  length old = 154%nat → length new = 154%nat →
  drop 122 old = record_hash tip (take 122 old) → drop 122 new = record_hash tip (take 122 new) →
  let torn := overlay (take k new) old in
  decode_entry torn sequence tip true = Ok out →
  torn = old ∨ torn = new ∨ torn_collision tip old torn.
Proof.
  intros Lo Ln Co Cn torn H.
  assert (length torn = 154%nat) as Lt.
  { unfold torn. by rewrite overlay_length; rewrite ?length_take; lia. }
  apply decode_entry_checksum in H; [|unfold len; by rewrite Lt].
  rewrite Lt in H. change (154 - 32)%nat with 122%nat in H.
  destruct (torn_checked 122 (record_hash tip) old new k) as [?|[?|[Hne Heq]]]; [done..|by left| |].
  - by right; left.
  - right; right. apply domain_hash_binding in Heq as [[_ E]|E]; [|done..].
    by apply app_inv_head in E.
Qed.

(** *** Before rollover: the length decides *)

Lemma open_partial protected es (tail : bytes) :
  flat_ok protected es → 0 < len tail →
  len es * record_size protected + len tail < MAX_ROLLOVER_JOURNAL_BYTES - JOURNAL_HEADER_BYTES →
  (len tail mod record_size protected ≠ 0 ∨ MAX_JOURNAL_RECORDS < len es + len tail / record_size protected) →
  journal_open context public_key (flat_file protected es ++ tail) true = Err InvalidJournal.
Proof using genesis_sized key_sized.
  intros Hok H0 Hb Hc. pose proof (record_size_bounds protected) as Hsz.
  pose proof (len_image protected (header_checksum protected) 1 es (proj1 Hok)) as Hi.
  unfold flat_file. rewrite <- app_assoc.
  rewrite open_header by (rewrite len_app, Hi; lia). unfold open_body. rewrite len_app, Hi.
  rewrite (proj2 (Z.eqb_neq (_ + _) MAX_ROLLOVER_JOURNAL_BYTES)) by lia. rewrite andb_false_r.
  rewrite Z.add_comm, Z.mod_add, Z.div_add by lia.
  destruct (Z.eqb_spec (len tail mod record_size protected) 0) as [E|E]; cbn [negb reject_if]; [|done].
  destruct Hc as [Hc|Hc]; [done|]. rewrite (proj2 (Z.ltb_lt _ _)) by lia. done.
Qed.
(** Everything a client of the journal observes. *)
Definition observe j : JournalState * option JournalState * option SigningSafety * Hash256 * bool :=
  (journal_state j, j_previous j, j_safety j, j_identity j, j_protected j).

(** What a restart may find after the write of [e] into [j] was interrupted. *)
Definition restart_outcome j e (reopened : result Journal KeystoreError) : Prop :=
  reopened = Err InvalidJournal
  ∨ ∃ j1, reopened = Ok j1 ∧ journal_wf j1
      ∧ (observe j1 = observe j ∨ (j1, Ok tt) = write_decision j e Persisted Persisted).

Lemma take_cases (k : nat) (bs : bytes) :
  take k bs = [] ∨ take k bs = bs ∨ (0 < len (take k bs) < len bs).
Proof.
  destruct (decide (length bs <= k)%nat) as [H|H]; [right; left; by apply take_ge|].
  destruct k as [|k]; [by left|]. right; right. unfold len. rewrite length_take. lia.
Qed.

Lemma write_decision_flat es protected e :
  flat_ok protected es → len es < MAX_JOURNAL_RECORDS → entry_ok protected e → ∀ io1 io2,
  write_decision (flat protected es) e io1 io2
  = match io2 with
    | Persisted => (flat protected (es ++ [e]), Ok tt)
    | PersistFailed torn =>
        (poison (with_file (flat protected es)
                   (flat_file protected es ++ take torn (decision_bytes protected es e))),
         Err DurabilityUnknown)
    end.
Proof using genesis_sized key_sized.
  intros Hok Hlt He io1 io2. unfold write_decision.
  destruct (flat_fixed protected es) as (_ & -> & _ & _ & _ & _).
  rewrite (proj2 (Z.eqb_neq _ _)) by lia. rewrite andb_false_r. by apply append_flat.
Qed.

Lemma open_torn_flat protected es e k :
  flat_ok protected es → len es < MAX_JOURNAL_RECORDS → entry_ok protected e →
  admits (flat protected es) e →
  restart_outcome (flat protected es) e
    (journal_open context public_key
       (flat_file protected es ++ take k (decision_bytes protected es e)) true).
Proof using genesis_sized key_sized.
  intros Hok Hlt He Ha. pose proof (record_size_bounds protected) as Hsz.
  pose proof (len_entry_bytes protected (len es + 1) (j_tip (flat protected es)) e He) as Hl.
  fold (decision_bytes protected es e) in Hl. pose proof max_rollover_value.
  destruct (take_cases k (decision_bytes protected es e)) as [-> |[-> |Hk]].
  - right. exists (flat protected es). rewrite app_nil_r, open_flat by done.
    split_and!; [done|by constructor|by left].
  - right. exists (flat protected (es ++ [e])).
    pose proof (flat_ok_app protected es e Hok He Ha Hlt) as Hok'.
    unfold decision_bytes. rewrite <- flat_file_app, open_flat by done.
    split_and!; [done|by constructor|right]. by rewrite write_decision_flat.
  - left. rewrite Hl in Hk. apply open_partial; [done|lia| |].
    + unfold MAX_JOURNAL_RECORDS, JOURNAL_HEADER_BYTES in *. nia.
    + left. rewrite Z.mod_small; lia.
Qed.

(** *** At the boundary: a partial extension is rejected *)

Lemma open_torn_activation es r k :
  rolled_ok es r →
  let file := flat_file true es ++ take k (rollover_encode r) in
  journal_open context public_key file true = Err InvalidJournal
  ∨ (journal_open context public_key file true = Ok (flat true es))
  ∨ (journal_open context public_key file true = Ok (rolled es r)).
Proof using genesis_sized key_sized.
  intros Hro file. assert (Hro' := Hro). destruct Hro' as (Hok & Hmax & b & Hn & Hs).
  pose proof (slots_ok_length _ _ _ _ _ Hn Hs) as Hl. pose proof max_rollover_value as Hm.
  destruct (take_cases k (rollover_encode r)) as [E|[E|Hk]]; unfold file.
  - right; left. by rewrite E, app_nil_r, open_flat.
  - right; right. rewrite E. fold (rolled_file es r). by apply open_rolled.
  - left. assert (len (rollover_encode r) = 348) as Hz by (unfold len; by rewrite Hl).
    rewrite Hz in Hk. apply open_partial; [done|lia| |].
    + rewrite Hmax. unfold MAX_JOURNAL_RECORDS, JOURNAL_HEADER_BYTES, record_size,
        PROTECTED_RECORD_BYTES in *. lia.
    + rewrite Hmax. unfold record_size, PROTECTED_RECORD_BYTES.
      destruct (decide (len (take k (rollover_encode r)) < 154)).
      * left. rewrite Z.mod_small; lia.
      * right. assert (1 <= len (take k (rollover_encode r)) / 154) by (apply Z.div_le_lower_bound; lia). lia.
Qed.
(** *** Behind the boundary: the checksum decides *)

Lemma decode_slot_err anchor b slot entry error :
  decode_slot anchor b slot entry = Err error → error = InvalidJournal.
Proof.
  unfold decode_slot, decode_entry.
  destruct (complete _ _) as [[[[[n p] m] o] c]|]; simpl; [|congruence].
  destruct (reject_if _ _) as [|] eqn:E1; [|apply reject_if_err in E1 as [_ ?]; congruence].
  clear E1. destruct o as [o|]; simpl; [|congruence].
  destruct (reject_if _ _) as [|] eqn:E2; [|apply reject_if_err in E2 as [_ ?]; congruence].
  destruct (validate_safety _ _ _); simpl; congruence.
Qed.

Lemma rollover_decode_bad tip last safety anchor b slot0 slot1 :
  rollover_new tip last safety = Ok (mkRollover anchor b b) →
  length slot0 = 154%nat → length slot1 = 154%nat →
  is_ok (decode_slot anchor b 0 slot0) && is_ok (decode_slot anchor b 1 slot1) = false →
  rollover_decode tip last safety (extension anchor slot0 slot1) = Err InvalidJournal.
Proof.
  intros Hn L0 L1 Hbad. pose proof (rollover_new_anchor _ _ _ _ Hn) as Ha. cbn in Ha.
  destruct (extension_parts anchor slot0 slot1 Ha L0 L1) as (Hl & P0 & P1 & P2 & P3).
  unfold rollover_decode. rewrite Hn. unfold rollover_latest. cbn [ro_anchor ro_slot0 ro_slot1].
  rewrite Z.ltb_irrefl, P0, P1, P2, P3. rewrite (proj2 (reject_if_ok _ _ tt)).
  2:{ rewrite !bool_decide_eq_true_2 by done. unfold len. by rewrite Hl. }
  destruct (decode_slot anchor b 0 slot0) as [|x] eqn:E0; [|by rewrite (decode_slot_err _ _ _ _ _ E0)].
  destruct (decode_slot anchor b 1 slot1) as [|x] eqn:E1; [|by rewrite (decode_slot_err _ _ _ _ _ E1)].
  done.
Qed.

Lemma open_bad_slot es anchor b slot0 slot1 :
  flat_ok true es → len es = MAX_JOURNAL_RECORDS →
  rollover_new (j_tip (flat true es)) (j_last (flat true es)) (j_safety (flat true es))
  = Ok (mkRollover anchor b b) →
  length slot0 = 154%nat → length slot1 = 154%nat →
  is_ok (decode_slot anchor b 0 slot0) && is_ok (decode_slot anchor b 1 slot1) = false →
  journal_open context public_key (flat_file true es ++ extension anchor slot0 slot1) true
  = Err InvalidJournal.
Proof using genesis_sized key_sized.
  intros Hok Hmax Hn L0 L1 Hbad. pose proof (rollover_new_anchor _ _ _ _ Hn) as Ha.
  destruct (extension_parts anchor slot0 slot1 Ha L0 L1) as (Hl & _).
  rewrite open_extension by done. unfold recover_rollover.
  rewrite (proj2 (reject_if_ok _ _ tt)) by (unfold len; by rewrite Hl).
  rewrite take_ge by (rewrite Hl; done). cbn [on_file j_tip j_last j_safety].
  by rewrite (rollover_decode_bad _ _ _ anchor b).
Qed.

Definition slot_of r (slot : Z) : Watermark := if slot =? 0 then ro_slot0 r else ro_slot1 r.

Lemma decode_torn anchor b slot old new k :
  entry_ok true (watermark_entry old) → entry_ok true (watermark_entry new) →
  let torn := overlay (take k (encode_slot anchor slot new)) (encode_slot anchor slot old) in
  torn = encode_slot anchor slot old ∨ torn = encode_slot anchor slot new
  ∨ torn_collision (rollover_binding anchor slot) (encode_slot anchor slot old) torn
  ∨ is_ok (decode_slot anchor b slot torn) = false.
Proof.
  intros Ho Hn torn.
  destruct (decode_slot anchor b slot torn) as [w|] eqn:E; [|by right; right; right].
  unfold decode_slot in E. bind_inv E.
  assert (H := E0). revert H. unfold torn. rewrite !encode_slot_entry by (apply Ho || apply Hn).
  intros H. apply torn_record in H; [|by apply entry_bytes_split..]. tauto.
Qed.

Lemma open_torn_slot es r w k :
  let slot := rollover_slot (wm_sequence w) in
  let old := encode_slot (ro_anchor r) slot (slot_of r slot) in
  let new := encode_slot (ro_anchor r) slot w in
  rolled_ok es r → rolled_ok es (next_rollover r w) → entry_ok true (watermark_entry w) →
  let reopened := journal_open context public_key
                    (write_at (rolled_file es r) (slot_offset slot) (take k new)) true in
  reopened = Err InvalidJournal ∨ reopened = Ok (rolled es r)
  ∨ reopened = Ok (rolled es (next_rollover r w))
  ∨ torn_collision (rollover_binding (ro_anchor r) slot) old (overlay (take k new) old).
Proof using genesis_sized key_sized.
  intros slot old new Hro Hro' Hw reopened.
  pose proof (open_rolled es r Hro) as Ho. pose proof (open_rolled es _ Hro') as Ho'.
  pose proof (write_next es r w Hro Hw) as Hnext. fold slot new in Hnext.
  destruct Hro as (Hok & Hmax & b & Hn & (_ & E0 & _) & (_ & E1 & _) & _).
  pose proof (rollover_new_anchor _ _ _ _ Hn) as Ha.
  set (file raw := flat_file true es
                   ++ (if slot =? 0
                       then extension (ro_anchor r) raw (encode_slot (ro_anchor r) 1 (ro_slot1 r))
                       else extension (ro_anchor r) (encode_slot (ro_anchor r) 0 (ro_slot0 r)) raw)).
  assert (entry_ok true (watermark_entry (slot_of r slot))) as Es by (unfold slot_of; by case_match).
  assert (slot = 0 ∨ slot = 1) as Hslot by apply rollover_slot_01.
  assert (∀ data : bytes, (length data <= 154)%nat →
    write_at (rolled_file es r) (slot_offset slot) data = file (overlay data old)) as Hfile.
  { intros data Hd. unfold rolled_file. rewrite rollover_encode_extension.
    rewrite write_slot by (done || by apply encode_slot_length). unfold file, old, slot_of.
    by destruct Hslot as [-> | ->]. }
  assert (length new = 154%nat) as Ln by by apply encode_slot_length.
  assert (length old = 154%nat) as Lo by by apply encode_slot_length.
  assert (file old = rolled_file es r) as Hold.
  { unfold file, rolled_file, old, slot_of. rewrite (rollover_encode_extension r).
    by destruct Hslot as [-> | ->]. }
  rewrite Hfile, overlay_full in Hnext by lia.
  unfold reopened. rewrite Hfile by (rewrite length_take; lia).
  destruct (decode_torn (ro_anchor r) b slot (slot_of r slot) w k Es Hw) as [E|[E|[E|E]]].
  - right; left. unfold old, new. rewrite E. fold old. by rewrite Hold.
  - right; right; left. unfold old, new. rewrite E. fold new. by rewrite Hnext.
  - by right; right; right.
  - left. fold old new in E.
    assert (length (overlay (take k new) old) = 154%nat) as Lt.
    { rewrite overlay_length; rewrite ?length_take; lia. }
    unfold file. destruct Hslot as [Hs|Hs]; rewrite Hs in E |- *; cbn [Z.eqb];
      apply (open_bad_slot es _ b); try done; try (by apply encode_slot_length).
    + by rewrite E.
    + by rewrite E, andb_false_r.
Qed.
(** An opened journal is on the file it was opened from, under its identity. *)
Lemma replay_file j n count protected (bs : bytes) j' rest :
  replay j n count protected bs = Ok (j', rest) →
  j_file j' = j_file j ∧ j_identity j' = j_identity j.
Proof.
  revert j n bs. induction count as [|count IH]; intros j n bs H; cbn [replay] in H; [by simplify_eq|].
  bind_inv H. apply IH in H as [-> ->]. unfold replay_entry in E0. bind_inv E0. by subst.
Qed.

Lemma open_file (file : bytes) sync_ok j :
  journal_open context public_key file sync_ok = Ok j →
  j_file j = file ∧ sized 32 (j_identity j).
Proof.
  unfold journal_open. intros H. bind_inv H. subst.
  match goal with E : replay _ _ _ _ _ = _ |- _ => apply replay_file in E as [Hf Hi] end.
  match goal with E : (if ?b then recover_rollover _ _ else _) = _ |- _ => destruct b end.
  - match goal with E : recover_rollover _ _ = _ |- _ => unfold recover_rollover in E; bind_inv E end.
    subst. cbn [j_file j_identity] in *. rewrite Hf, Hi. split; [done|apply domain_hash_sized].
  - simplify_eq. cbn [j_file j_identity] in *. rewrite Hf, Hi. split; [done|apply domain_hash_sized].
Qed.

(** *** Every shape of a durable decision *)

Lemma write_decision_rolled es r e safety io1 io2 :
  let w := next_watermark r e safety in
  let slot := rollover_slot (wm_sequence w) in
  rolled_ok es r → entry_ok true e → e_safety e = Some safety → u64 (wm_sequence w) →
  admits (rolled es r) e →
  write_decision (rolled es r) e io1 io2
  = match io2 with
    | Persisted => (rolled es (next_rollover r w), Ok tt)
    | PersistFailed torn =>
        (poison (with_file (rolled es r)
                   (write_at (rolled_file es r) (slot_offset slot)
                      (take torn (encode_slot (ro_anchor r) slot w)))),
         Err DurabilityUnknown)
    end.
Proof using genesis_sized key_sized.
  intros w slot Hro He Hes Hu Ha. unfold write_decision. cbn [rolled j_rollover is_some].
  rewrite andb_false_r, Hes. by apply append_rolled.
Qed.

Lemma write_decision_full es e safety :
  flat_ok true es → len es = MAX_JOURNAL_RECORDS → entry_ok true e → e_safety e = Some safety →
  admits (flat true es) e →
  ∃ r, rollover_new (j_tip (flat true es)) (j_last (flat true es)) (j_safety (flat true es)) = Ok r
     ∧ rolled_ok es r ∧ admits (rolled es r) e ∧ u64 (wm_sequence (next_watermark r e safety))
     ∧ observe (rolled es r) = observe (flat true es)
     ∧ ∀ io1 io2, write_decision (flat true es) e io1 io2
       = match io1 with
         | Persisted => write_decision (rolled es r) e io1 io2
         | PersistFailed torn =>
             (poison (with_file (flat true es)
                        (flat_file true es ++ take torn (rollover_encode r))),
              Err DurabilityUnknown)
         end.
Proof using genesis_sized key_sized.
  intros Hok Hmax He Hes Ha. destruct (activate_initial es Hok Hmax) as (r & Hn & Hr & Hs & Hw).
  destruct (flat_fixed true es) as (Hf & Hc & Hi & Hpo & Hp & Hro). exists r. split; [done|].
  split; [done|]. split; [by rewrite Hw|]. split.
  { unfold next_watermark. cbn [wm_sequence]. rewrite Hs. by unfold fits, MAX_JOURNAL_RECORDS. }
  split; [by rewrite Hw|]. intros io1 io2.
  unfold write_decision. rewrite Hp, Hc, Hmax, Hro, Z.eqb_refl. cbn [andb negb is_some rolled j_rollover].
  rewrite andb_false_r. unfold activate_rollover.
  rewrite Hp, Hc, Hmax, Hro, Z.eqb_refl. cbn [negb orb is_some].
  rewrite Hn, Hf. rewrite <- (len_flat_full es Hok Hmax).
  destruct io1 as [|torn]; cbn [persist]; rewrite write_at_end; [|done].
  fold (rolled_file es r). rewrite <- Hw. cbn [j_count rolled]. by rewrite Hs.
Qed.
(** The slots a decision behind the boundary is written into. *)
Definition target_slots j : option Rollover :=
  match j_rollover j with
  | Some r => Some r
  | None =>
      if j_count j =? MAX_JOURNAL_RECORDS
      then match rollover_new (j_tip j) (j_last j) (j_safety j) with
           | Ok r => Some r
           | Err _ => None
           end
      else None
  end.

(** An interrupted slot write whose mixture of old and new bytes has, by a hash
    collision, the checksum of the old record. *)
Definition slot_hazard j e (io : Persist) : Prop :=
  match io, target_slots j, e_safety e with
  | PersistFailed k, Some r, Some safety =>
      let w := next_watermark r e safety in
      let slot := rollover_slot (wm_sequence w) in
      let old := encode_slot (ro_anchor r) slot (slot_of r slot) in
      torn_collision (rollover_binding (ro_anchor r) slot) old
        (overlay (take k (encode_slot (ro_anchor r) slot w)) old)
  | _, _, _ => False
  end.

(** The journal after a decision that was written completely. *)
Definition decided j e j' : Prop :=
  journal_wf j' ∧ view j' = Some e ∧ j_count j' = j_count j + 1
  ∧ j_previous j' = Some (journal_state j) ∧ j_protected j' = j_protected j
  ∧ j_identity j' = j_identity j.

Lemma protected_safety e : entry_ok true e → ∃ safety, e_safety e = Some safety.
Proof. intros (_ & _ & H). destruct (e_safety e); [eauto|done]. Qed.

Lemma rolled_decided es r e safety :
  let w := next_watermark r e safety in
  rolled_ok es r → entry_ok true e → e_safety e = Some safety → u64 (wm_sequence w) →
  admits (rolled es r) e → decided (rolled es r) e (rolled es (next_rollover r w)).
Proof.
  intros w Hro He Hes Hu Ha.
  destruct (rolled_next es r e safety Hro He Hes Hu Ha) as (_ & _ & _ & Hro' & Hl & Ho & _).
  fold w in Hro', Hl, Ho. split; [by constructor|]. unfold view, journal_state.
  cbn [rolled j_last j_safety j_count j_previous j_protected j_identity option_map fst snd].
  rewrite Hl, Ho. split; [|done].
  unfold w, next_watermark. cbn. destruct e; simpl in *; congruence.
Qed.

Lemma flat_decided protected es e :
  flat_ok protected es → len es < MAX_JOURNAL_RECORDS → entry_ok protected e →
  admits (flat protected es) e →
  decided (flat protected es) e (flat protected (es ++ [e])).
Proof.
  intros Hok Hlt He Ha. pose proof (flat_ok_app _ _ _ Hok He Ha Hlt) as Hok'.
  destruct (flat_fixed protected es) as (_ & Hc & Hi & _ & Hp & _).
  split; [by constructor|]. rewrite flat_app. unfold view, journal_state, on_file. cbn.
  rewrite Hc. replace (len es + 1 - 1) with (len es) by lia. split; [by destruct e|done].
Qed.

Lemma decided_observe j1 j2 e j' : observe j1 = observe j2 → decided j1 e j' → decided j2 e j'.
Proof.
  intros H. unfold decided.
  assert (journal_state j1 = journal_state j2) as Hs by exact (f_equal (λ o, o.1.1.1.1) H).
  assert (j_identity j1 = j_identity j2) as -> by exact (f_equal (λ o, o.1.2) H).
  assert (j_protected j1 = j_protected j2) as -> by exact (f_equal (λ o, o.2) H).
  assert (j_count j1 = j_count j2) as -> by exact (f_equal js_sequence Hs).
  by rewrite Hs.
Qed.

Lemma write_decision_ok j e :
  journal_wf j → entry_ok (j_protected j) e → admits j e → capacity j →
  ∃ j', write_decision j e Persisted Persisted = (j', Ok tt) ∧ decided j e j'.
Proof using genesis_sized key_sized.
  intros [protected es Hok|es r Hro] He Ha [Hcap Hseq].
  - destruct (flat_fixed protected es) as (_ & Hc & _ & _ & Hp & _).
    rewrite Hp, Hc in *. destruct (decide (len es = MAX_JOURNAL_RECORDS)) as [Hmax|Hmax].
    + destruct protected; [|by destruct Hcap]. destruct (protected_safety e He) as [safety Hes].
      destruct (write_decision_full es e safety Hok Hmax He Hes Ha)
        as (r & _ & Hro & Ha' & Hu & Hobs & Hw).
      eexists. rewrite Hw, (write_decision_rolled _ _ _ safety) by done. split; [done|].
      apply (decided_observe _ _ _ _ Hobs). by apply rolled_decided.
    + assert (len es < MAX_JOURNAL_RECORDS) by (destruct Hok as (_ & ? & _); lia).
      eexists. rewrite write_decision_flat by done. split; [done|]. by apply flat_decided.
  - destruct (protected_safety e He) as [safety Hes]. cbn [rolled j_count] in Hseq.
    assert (u64 (wm_sequence (next_watermark r e safety))) as Hu.
    { destruct Hro as (_ & _ & b & _ & Hs). destruct (latest_slot _ _ Hs) as (i & Hu & _).
      unfold fits, next_watermark in *. cbn [wm_sequence]. lia. }
    eexists. rewrite (write_decision_rolled _ _ _ safety) by done. split; [done|].
    by apply rolled_decided.
Qed.

Lemma rolled_crash es r e safety k :
  let w := next_watermark r e safety in
  let slot := rollover_slot (wm_sequence w) in
  rolled_ok es r → entry_ok true e → e_safety e = Some safety → u64 (wm_sequence w) →
  admits (rolled es r) e →
  restart_outcome (rolled es r) e
    (journal_open context public_key
       (write_at (rolled_file es r) (slot_offset slot)
          (take k (encode_slot (ro_anchor r) slot w))) true)
  ∨ slot_hazard (rolled es r) e (PersistFailed k).
Proof using genesis_sized key_sized.
  intros w slot Hro He Hes Hu Ha.
  destruct (rolled_next es r e safety Hro He Hes Hu Ha) as (_ & Hw & _ & Hro' & _).
  destruct (open_torn_slot es r w k Hro Hro' Hw) as [E|[E|[E|E]]].
  - left; left. exact E.
  - left; right. eexists. split; [exact E|]. split; [by constructor|by left].
  - left; right. eexists. split; [exact E|]. split; [by constructor|right].
    by rewrite (write_decision_rolled _ _ _ safety).
  - right. unfold slot_hazard, target_slots. cbn [rolled j_rollover]. by rewrite Hes.
Qed.

(** An interrupted decision: the instance is poisoned, and a restart finds the
    state before, the state after, or a file it refuses. *)
Lemma write_decision_crash j e io1 io2 j' error :
  journal_wf j → entry_ok (j_protected j) e → admits j e → capacity j →
  write_decision j e io1 io2 = (j', Err error) →
  error = DurabilityUnknown ∧ j_poisoned j' = true
  ∧ (restart_outcome j e (journal_open context public_key (j_file j') true)
     ∨ slot_hazard j e io2).
Proof using genesis_sized key_sized.
  intros [protected es Hok|es r Hro] He Ha [Hcap Hseq] H.
  - destruct (flat_fixed protected es) as (_ & Hc & _ & _ & Hp & Hr).
    rewrite Hp, Hc in *. destruct (decide (len es = MAX_JOURNAL_RECORDS)) as [Hmax|Hmax].
    + destruct protected; [|by destruct Hcap]. destruct (protected_safety e He) as [safety Hes].
      destruct (write_decision_full es e safety Hok Hmax He Hes Ha)
        as (r & Hn & Hro & Ha' & Hu & Hobs & Hw).
      rewrite Hw in H. destruct io1 as [|k].
      * rewrite (write_decision_rolled _ _ _ safety) in H by done.
        destruct io2 as [|k]; [done|]. injection H as <- <-. split; [done|]. split; [done|].
        destruct (rolled_crash es r e safety k Hro He Hes Hu Ha') as [Hres|Hhaz].
        -- left. destruct Hres as [Hres|(j1 & E & Hwf & Hj)]; [by left|right].
           exists j1. split; [done|]. split; [done|]. rewrite Hobs, (Hw Persisted Persisted) in *.
           done.
        -- right. revert Hhaz. unfold slot_hazard, target_slots. cbn [rolled j_rollover].
           by rewrite Hr, Hc, Hmax, Z.eqb_refl, Hn.
      * injection H as <- <-. split; [done|]. split; [done|]. left.
        cbn [poison with_file j_file].
        destruct (open_torn_activation es r k Hro) as [E|[E|E]]; [by left|right..].
        -- exists (flat true es). split; [done|]. split; [by constructor|by left].
        -- exists (rolled es r). split; [done|]. split; [by constructor|by left].
    + assert (len es < MAX_JOURNAL_RECORDS) by (destruct Hok as (_ & ? & _); lia).
      rewrite write_decision_flat in H by done. destruct io2 as [|k]; [done|].
      injection H as <- <-. split; [done|]. split; [done|]. left. by apply open_torn_flat.
  - destruct (protected_safety e He) as [safety Hes]. cbn [rolled j_count] in Hseq.
    assert (u64 (wm_sequence (next_watermark r e safety))) as Hu.
    { destruct Hro as (_ & _ & b & _ & Hs). destruct (latest_slot _ _ Hs) as (i & Hu & _).
      unfold fits, next_watermark in *. cbn [wm_sequence]. lia. }
    rewrite (write_decision_rolled _ _ _ safety) in H by done.
    destruct io2 as [|k]; [done|]. injection H as <- <-. split; [done|]. split; [done|].
    by apply (rolled_crash es r e safety k).
Qed.
(** A decision that succeeds was persisted completely. *)
Lemma append_entry_success j n p m safety io j' :
  append_entry j n p m safety io = (j', Ok tt) → io = Persisted.
Proof.
  unfold append_entry. destruct io as [|k]; [done|].
  destruct (match j_rollover j with Some _ => _ | None => _ end); [|done].
  destruct (match a with Some _ => _ | None => _ end). done.
Qed.

Lemma write_decision_success j e io1 io2 j' :
  write_decision j e io1 io2 = (j', Ok tt) → write_decision j e Persisted Persisted = (j', Ok tt).
Proof.
  unfold write_decision. destruct (_ && _).
  2:{ intros H. by rewrite (append_entry_success _ _ _ _ _ _ _ H) in H. }
  destruct (activate_rollover j io1) as [j1 [[]|]] eqn:E; [|done].
  assert (io1 = Persisted) as ->.
  { unfold activate_rollover in E. destruct io1; [done|]. destruct (_ || _); [done|].
    by destruct (rollover_new _ _ _). }
  rewrite E. intros H. by rewrite (append_entry_success _ _ _ _ _ _ _ H) in H.
Qed.

(** ** Runs of the signer over its journal *)

(** [e_new] comes after [e_old]: it is the same decision, or it is at a later
    position and keeps the committee and the lock of the height. *)
Definition extends e_new e_old : Prop :=
  e_new = e_old
  ∨ lt_of (e_position e_old) (e_position e_new)
    ∧ ∀ s_old s_new, e_safety e_old = Some s_old → e_safety e_new = Some s_new →
      preserves (e_position e_old) s_old (e_position e_new) s_new.

(** The decisions a signer authorised (latest first) and its running instance.
    Any write may be interrupted, and the process may stop and reopen the file at
    any point, as often as it likes. *)
Inductive runs (protected : bool) : list Entry → Journal → Prop :=
| run_create : runs protected [] (fresh protected)
| run_authorised log j e io1 io2 j' :
    runs protected log j → request_ok e → ¬ slot_hazard j e io2 →
    reserve_entry j (e_position e) (e_message e) (e_safety e) io1 io2 = (j', Ok tt) →
    runs protected (e :: log) j'
| run_refused log j e io1 io2 j' error :
    runs protected log j → request_ok e → ¬ slot_hazard j e io2 →
    reserve_entry j (e_position e) (e_message e) (e_safety e) io1 io2 = (j', Err error) →
    runs protected log j'
| run_restart log j j' :
    runs protected log j → journal_open context public_key (j_file j) true = Ok j' →
    runs protected log j'.

(** The instance is healthy, or it is poisoned and its file holds the state
    before or after one interrupted decision, or none that opens.  Every decision
    the file may hold satisfies [allowed]. *)
Definition instance_ok (allowed : Entry → Prop) (protected : bool) (log : list Entry) j : Prop :=
  ∃ j0, journal_wf j0 ∧ j_protected j0 = protected
    ∧ (∀ d, d ∈ log → ∃ v, view j0 = Some v ∧ extends v d)
    ∧ (∀ v, view j0 = Some v → allowed v)
    ∧ (j = j0
       ∨ j_poisoned j = true
         ∧ ∃ e, entry_ok protected e ∧ admits j0 e ∧ capacity j0 ∧ allowed e
           ∧ restart_outcome j0 e (journal_open context public_key (j_file j) true)).

Lemma instance_mono (P Q : Entry → Prop) protected log j :
  (∀ e, P e → Q e) → instance_ok P protected log j → instance_ok Q protected log j.
Proof.
  intros HPQ (j0 & Hwf & Hp & Hlog & Hv & Hj). exists j0. split_and!; [done..|by eauto|].
  destruct Hj as [?|(? & e & ? & ? & ? & ? & ?)]; [by left|right]. split; [done|].
  exists e. split_and!; auto.
Qed.

Lemma extends_trans e1 e2 e3 :
  (is_some (e_safety e1) = is_some (e_safety e2)) →
  extends e1 e2 → extends e2 e3 → extends e1 e3.
Proof.
  intros Hs [-> |[L12 P12]]; [done|]. intros [<-|[L23 P23]]; [by right|]. right.
  split; [by apply (lt_of_trans _ _ _ L23)|]. intros s3 s1 H3 H1.
  destruct (e_safety e2) as [s2|] eqn:H2; [|by rewrite H1 in Hs].
  apply (preserves_trans _ _ (e_position e2) s2); [|by auto..].
  rewrite lt_position in L12, L23. lia.
Qed.
Lemma wf_open j : journal_wf j → journal_open context public_key (j_file j) true = Ok j.
Proof using genesis_sized key_sized.
  intros [protected es Hok|es r Hro]; [|by apply open_rolled].
  rewrite (proj1 (flat_fixed protected es)). by apply open_flat.
Qed.

Lemma view_entry_ok j v : journal_wf j → view j = Some v → entry_ok (j_protected j) v.
Proof.
  intros [protected es Hok|es r Hro].
  - destruct (flat_fixed protected es) as (_ & _ & _ & _ & -> & _). unfold view.
    destruct es as [|e es _] using rev_ind; [done|].
    destruct (flat_last protected es e) as [-> ->]. destruct Hok as (Hes & _).
    apply Forall_app in Hes as [_ Hes]. rewrite Forall_singleton in Hes. intros [= <-]. by destruct e.
  - destruct Hro as (_ & _ & b & _ & Hs). destruct (latest_slot _ _ Hs) as (i & _ & He & _).
    intros [= <-]. done.
Qed.

Lemma view_observe j1 j2 : observe j1 = observe j2 → view j1 = view j2.
Proof.
  intros H. assert (j_safety j1 = j_safety j2) as Hs by exact (f_equal (λ o, o.1.1.2) H).
  assert (journal_state j1 = journal_state j2) as Hj by exact (f_equal (λ o, o.1.1.1.1) H).
  assert (Hp := f_equal js_position Hj). assert (Hm := f_equal js_message Hj). cbn in Hp, Hm.
  unfold view, last_position in *. rewrite Hs.
  destruct (j_last j1) as [[p1 m1]|], (j_last j2) as [[p2 m2]|]; simpl in *; congruence.
Qed.

Lemma same_kind protected e1 e2 :
  entry_ok protected e1 → entry_ok protected e2 →
  is_some (e_safety e1) = is_some (e_safety e2).
Proof.
  intros (_ & _ & H1) (_ & _ & H2). destruct (e_safety e1), (e_safety e2); naive_solver.
Qed.

(** The next decision extends all the decisions the last one extends. *)
Lemma decided_extends j e j' (log : list Entry) :
  journal_wf j → entry_ok (j_protected j) e → admits j e → decided j e j' →
  (∀ d, d ∈ log → ∃ v, view j = Some v ∧ extends v d) →
  ∀ d, d ∈ log → ∃ v, view j' = Some v ∧ extends v d.
Proof.
  intros Hwf He Ha (_ & Hv & _) Hlog d Hd. exists e. split; [done|].
  destruct (Hlog d Hd) as (v & Hview & Hext).
  apply (extends_trans e v d); [|right|done].
  { apply (same_kind (j_protected j)); [done|]. by apply view_entry_ok. }
  unfold view in Hview. destruct Ha as [Hlt Hval]. destruct (j_last j) as [[p m]|]; [|done].
  injection Hview as <-. cbn [e_position e_safety fst]. split; [done|].
  intros s_old s_new Eo En. rewrite En, Eo in Hval. apply validate_safety_ok in Hval as [_ Hp].
  by apply Hp.
Qed.

Lemma fresh_wf protected : journal_wf (fresh protected) ∧ view (fresh protected) = None.
Proof.
  split; [|done]. assert (fresh protected = flat protected []) as ->.
  { unfold flat, flat_file, on_file. cbn [image apply_all]. by rewrite app_nil_r. }
  constructor. split_and!; [constructor|by rewrite len_nil|done].
Qed.
Lemma poisoned_reserve j p m safety io1 io2 :
  j_poisoned j = true → reserve_entry j p m safety io1 io2 = (j, Err DurabilityUnknown).
Proof. intros H. unfold reserve_entry. by rewrite H. Qed.

Lemma instance_healthy allowed protected log j :
  instance_ok allowed protected log j → j_poisoned j = false →
  journal_wf j ∧ j_protected j = protected
  ∧ (∀ d, d ∈ log → ∃ v, view j = Some v ∧ extends v d) ∧ ∀ v, view j = Some v → allowed v.
Proof using genesis_sized key_sized.
  intros (j0 & Hwf & Hp & Hlog & Hv & [-> |[Hpo _]]) Hno; [done|congruence].
Qed.

Lemma instance_authorised allowed protected log j e io1 io2 j' :
  instance_ok allowed protected log j → request_ok e → allowed e →
  reserve_entry j (e_position e) (e_message e) (e_safety e) io1 io2 = (j', Ok tt) →
  instance_ok allowed protected (e :: log) j' ∧ j_poisoned j' = false ∧ view j' = Some e
  ∧ (∀ d, d ∈ log → extends e d).
Proof using genesis_sized key_sized.
  intros Hi Hreq Hal H. destruct (j_poisoned j) eqn:Hpo; [by rewrite poisoned_reserve in H|].
  destruct (instance_healthy _ _ _ _ Hi Hpo) as (Hwf & <- & Hlog & _).
  destruct (reserve_entry_cases j e io1 io2 Hwf Hreq)
    as [(err & E & _ & _)|[(He & Hv & E)|(He & Ha & Hc & E)]]; rewrite E in H; [done|..].
  - injection H as <-. split_and!; [|done..|].
    + exists j. split_and!; [done..| |by intros v [= <-]%(eq_trans (eq_sym Hv))|by left].
      intros d [-> |Hd]%elem_of_cons; [|by auto]. exists e. split; [done|by left].
    + intros d Hd. destruct (Hlog d Hd) as (v & Hv' & Hext). congruence.
  - apply write_decision_success in H.
    destruct (write_decision_ok j e Hwf He Ha Hc) as (j1 & E1 & Hd). rewrite E1 in H.
    injection H as ->. pose proof (decided_extends j e j' log Hwf He Ha Hd Hlog) as Hlog'.
    destruct Hd as (Hwf' & Hv' & _ & _ & Hp' & _). split_and!; [|by apply wf_ready|done|].
    + exists j'. split_and!; [done..| |by intros v [= <-]%(eq_trans (eq_sym Hv'))|by left].
      intros d [-> |Hd]%elem_of_cons; [|by auto]. exists e. split; [done|by left].
    + intros d Hd. destruct (Hlog' d Hd) as (v & Hv & Hext). congruence.
Qed.

Lemma instance_refused allowed protected log j e io1 io2 j' error :
  instance_ok allowed protected log j → request_ok e → allowed e → ¬ slot_hazard j e io2 →
  reserve_entry j (e_position e) (e_message e) (e_safety e) io1 io2 = (j', Err error) →
  instance_ok allowed protected log j' ∧ (j' = j ∨ j_poisoned j' = true).
Proof using genesis_sized key_sized.
  intros Hi Hreq Hal Hhaz H. destruct (j_poisoned j) eqn:Hpo.
  { rewrite poisoned_reserve in H by done. injection H as <- _. split; [done|by left]. }
  destruct (instance_healthy _ _ _ _ Hi Hpo) as (Hwf & <- & Hlog & Hview).
  destruct (reserve_entry_cases j e io1 io2 Hwf Hreq)
    as [(err & E & _ & _)|[(He & Hv & E)|(He & Ha & Hc & E)]]; rewrite E in H.
  - injection H as <- _. split; [done|by left].
  - done.
  - destruct (write_decision_crash j e io1 io2 j' error Hwf He Ha Hc H) as (_ & Hpo' & [Hout|?]); [|done].
    split; [|by right].
    exists j. split_and!; [done..|]. right. split; [done|]. by exists e.
Qed.

Lemma instance_restart allowed protected log j j' :
  instance_ok allowed protected log j →
  journal_open context public_key (j_file j) true = Ok j' →
  instance_ok allowed protected log j' ∧ j_poisoned j' = false.
Proof using genesis_sized key_sized.
  intros (j0 & Hwf & Hp & Hlog & Hv & [-> |(_ & e & He & Ha & Hc & Hal & Hout)]) H.
  { rewrite wf_open in H by done. injection H as <-. split; [|by apply wf_ready].
    exists j0. split_and!; auto. }
  rewrite H in Hout. destruct Hout as [?|(j1 & [= <-] & Hwf' & [Hobs|Hw])]; [done|..];
    (split; [|by apply wf_ready]).
  - exists j'. split_and!; [done| | | |by left].
    + rewrite <- Hp. exact (f_equal (λ o, o.2) Hobs).
    + by rewrite (view_observe _ _ Hobs).
    + by rewrite (view_observe _ _ Hobs).
  - subst protected. destruct (write_decision_ok j0 e Hwf He Ha Hc) as (j1 & E1 & Hd).
    rewrite E1 in Hw. injection Hw as ->.
    pose proof (decided_extends j0 e j1 log Hwf He Ha Hd Hlog).
    destruct Hd as (_ & Hv' & _ & _ & Hp' & _). exists j1. split_and!; [done..| |by left].
    by intros v [= <-]%(eq_trans (eq_sym Hv')).
Qed.

Lemma instance_fresh allowed protected : instance_ok allowed protected [] (fresh protected).
Proof using genesis_sized key_sized.
  destruct (fresh_wf protected) as [Hwf Hv]. exists (fresh protected).
  split_and!; [done|done|by intros d Hd%elem_of_nil|by rewrite Hv|by left].
Qed.

Lemma runs_instance protected log j :
  runs protected log j → instance_ok (λ _, True) protected log j.
Proof using genesis_sized key_sized.
  induction 1 as [|log j e io1 io2 j' _ IH Hreq Hhaz H|log j e io1 io2 j' err _ IH Hreq Hhaz H
                 |log j j' _ IH H].
  - apply instance_fresh.
  - by apply (instance_authorised _ _ _ j e io1 io2 j').
  - by apply (instance_refused _ _ _ j e io1 io2 j' err).
  - by apply (instance_restart _ _ _ j).
Qed.

(** Later decisions extend earlier ones. *)
Lemma runs_ordered protected log j : runs protected log j → ForallOrdPairs extends log.
Proof using genesis_sized key_sized.
  induction 1 as [|log j e io1 io2 j' Hr IH Hreq _ H| |]; [constructor| |done..].
  constructor; [|done]. apply List.Forall_forall. intros d Hd%list_elem_of_In.
  apply runs_instance in Hr. by apply (instance_authorised _ _ _ _ _ _ _ _ Hr Hreq I H).
Qed.

Lemma ordered_pairs (log : list Entry) (i k : nat) later earlier :
  ForallOrdPairs extends log → (i < k)%nat → log !! i = Some later → log !! k = Some earlier →
  extends later earlier.
Proof.
  intros H. revert i k. induction H as [|d log Hd _ IH]; intros i k Hik Hi Hk; [done|].
  destruct k as [|k]; [lia|]. destruct i as [|i]; simpl in *.
  - injection Hi as ->. rewrite List.Forall_forall in Hd. apply Hd, list_elem_of_In.
    by apply list_elem_of_lookup_2 in Hk.
  - apply (IH i k); [lia|done..].
Qed.

Lemma extends_position e1 e2 : extends e1 e2 → e_position e1 = e_position e2 → e1 = e2.
Proof. intros [?|[Hlt _]] E; [done|]. rewrite E in Hlt. by apply lt_of_irrefl in Hlt. Qed.

(** C10: A signer never authorises two decisions at one position, and its locks
    never regress: over any number of reservations, refused or interrupted
    writes and restarts from the file, every authorised decision is either a
    repetition of an earlier one or strictly later than it, and within a height
    it keeps the committee root and the lock unless a later round replaces the
    lock. *)
Theorem signer_never_equivocates protected log j :
  runs protected log j →
  (∀ i k later earlier, (i < k)%nat → log !! i = Some later → log !! k = Some earlier →
     extends later earlier)
  ∧ (∀ d1 d2, d1 ∈ log → d2 ∈ log → e_position d1 = e_position d2 → d1 = d2).
Proof using genesis_sized key_sized.
  intros H%runs_ordered. split; [intros i k; intros; by apply (ordered_pairs log i k)|].
  intros d1 d2 [i Hi]%list_elem_of_lookup [k Hk]%list_elem_of_lookup Hp.
  destruct (Nat.lt_total i k) as [Hlt|[-> |Hlt]]; [|congruence|].
  - apply extends_position; [|done]. by apply (ordered_pairs log i k).
  - symmetry. apply extends_position; [|done]. by apply (ordered_pairs log k i).
Qed.

(** C11: Restarting reconstructs the running signer: in every reachable state
    whose writes all succeeded, replaying the journal file gives back exactly the
    instance in memory, count, tip, last decision, lock and rollover slots
    included. *)
Theorem restart_reconstructs protected log j :
  runs protected log j → j_poisoned j = false →
  journal_open context public_key (j_file j) true = Ok j.
Proof using genesis_sized key_sized.
  intros H%runs_instance Hpo. apply wf_open. by apply (instance_healthy _ _ _ _ H Hpo).
Qed.

(** What a reservation answers in a reachable healthy instance whose writes
    persist: it succeeds exactly for a well-formed request of the journal's kind
    that repeats the last decision, or lies behind it, keeps the safety metadata
    and finds room; then the request is the last decision.  Otherwise nothing
    changes. *)
Theorem reserve_decides protected log j e :
  runs protected log j → j_poisoned j = false → request_ok e →
  let outcome := reserve_entry j (e_position e) (e_message e) (e_safety e) Persisted Persisted in
  (snd outcome = Ok tt ↔ accepts j e)
  ∧ (snd outcome = Ok tt → view (fst outcome) = Some e)
  ∧ (snd outcome ≠ Ok tt → fst outcome = j).
Proof using genesis_sized key_sized.
  intros H%runs_instance Hpo Hreq.
  destruct (instance_healthy _ _ _ _ H Hpo) as (Hwf & <- & _). cbv zeta.
  destruct (reserve_entry_cases j e Persisted Persisted Hwf Hreq)
    as [(err & -> & _ & Hn)|[(He & Hv & ->)|(He & Ha & Hc & ->)]]; simpl.
  - done.
  - split_and!; [|done..]. split; [intros _|done]. split; auto.
  - destruct (write_decision_ok j e Hwf He Ha Hc) as (j' & -> & _ & Hv & _). simpl.
    split_and!; [|done..]. split; [intros _|done]. split; auto.
Qed.

(** An interrupted write is never mistaken for something else: if a
    reservation reports an unknown outcome, whatever part of the bytes reached
    the file, the instance refuses all further work, and reopening the file
    either fails or finds the decisions before or after exactly this one.  The
    only other possibility is a checksum collision between the old slot and the
    torn one. *)
Theorem interrupted_write_recovers protected log j e io1 io2 j' :
  runs protected log j → j_poisoned j = false → request_ok e →
  reserve_entry j (e_position e) (e_message e) (e_safety e) io1 io2 = (j', Err DurabilityUnknown) →
  j_poisoned j' = true
  ∧ (∀ p m s io io', reserve_entry j' p m s io io' = (j', Err DurabilityUnknown))
  ∧ (restart_outcome j e (journal_open context public_key (j_file j') true) ∨ slot_hazard j e io2).
Proof using genesis_sized key_sized.
  intros H%runs_instance Hpo Hreq E.
  destruct (instance_healthy _ _ _ _ H Hpo) as (Hwf & <- & _).
  destruct (reserve_entry_cases j e io1 io2 Hwf Hreq)
    as [(err & E' & Hn & _)|[(He & Hv & E')|(He & Ha & Hc & E')]]; rewrite E' in E.
  - by injection E.
  - done.
  - destruct (write_decision_crash j e io1 io2 j' _ Hwf He Ha Hc E) as (_ & Hpo' & Hout).
    split; [done|]. split; [|done]. intros p m s io io'. by apply poisoned_reserve.
Qed.
End recovery.

(** ** Witnesses *)

Definition sample_context : SigningContext := mkSigningContext 7 (le 32 9).
Definition sample_key : bytes := le 32 11.

(** A prevote and the precommit that locks its block. *)
Definition sample_prevote : Entry :=
  mkEntry (mkPosition 1 0 PREVOTE_PHASE) (le 32 101) (Some (mkSafety (le 32 5) None)).
Definition sample_precommit : Entry :=
  mkEntry (mkPosition 1 0 PRECOMMIT_PHASE) (le 32 102)
    (Some (mkSafety (le 32 5) (Some (mkLock 0 (le 32 6))))).

Definition sample_reserve (j : Journal) (e : Entry) (io : Persist)
    : Journal * result unit KeystoreError :=
  reserve_entry (blake := checksum_blake2s) j (e_position e) (e_message e) (e_safety e)
    Persisted io.

Definition sample_fresh : Journal := fresh (blake := checksum_blake2s) sample_context sample_key true.
Definition sample_voted : Journal := fst (sample_reserve sample_fresh sample_prevote Persisted).
Definition sample_torn (k : nat) : Journal :=
  fst (sample_reserve sample_voted sample_precommit (PersistFailed k)).
Definition sample_locked : Journal :=
  fst (sample_reserve sample_voted sample_precommit Persisted).

Abbreviation sample_runs :=
  (runs (blake := checksum_blake2s) sample_context sample_key true).

Lemma sample_request_ok : request_ok sample_prevote ∧ request_ok sample_precommit.
Proof. split; vm_compute; intuition congruence. Qed.

Lemma sample_run_voted : sample_runs [sample_prevote] sample_voted.
Proof.
  apply (run_authorised _ _ _ [] sample_fresh sample_prevote Persisted Persisted);
    [constructor|apply sample_request_ok|by intros []|vm_compute; reflexivity].
Qed.

(** The precommit is written completely, but the process stops before it learns
    so; after the restart the same precommit is authorised. *)
Lemma sample_run_locked : sample_runs [sample_precommit; sample_prevote] sample_locked.
Proof.
  assert (sample_runs [sample_prevote] (sample_torn 154)) as H1.
  { apply (run_refused _ _ _ _ sample_voted sample_precommit Persisted (PersistFailed 154) _
             DurabilityUnknown);
      [apply sample_run_voted|apply sample_request_ok|by intros []|vm_compute; reflexivity]. }
  assert (sample_runs [sample_prevote] sample_locked) as H2.
  { apply (run_restart _ _ _ _ (sample_torn 154)); [done|vm_compute; reflexivity]. }
  apply (run_authorised _ _ _ _ sample_locked sample_precommit Persisted Persisted);
    [done|apply sample_request_ok|by intros []|vm_compute; reflexivity].
Qed.

Lemma signer_never_equivocates_witness : extends sample_precommit sample_prevote.
Proof.
  apply (proj1 (signer_never_equivocates (blake := checksum_blake2s) sample_context sample_key
    eq_refl eq_refl true _ _ sample_run_locked) 0%nat 1%nat); [lia|reflexivity..].
Defined.

Lemma restart_reconstructs_witness :
  journal_open (blake := checksum_blake2s) sample_context sample_key (j_file sample_locked) true
  = Ok sample_locked.
Proof.
  apply (restart_reconstructs (blake := checksum_blake2s) sample_context sample_key
    eq_refl eq_refl true _ _ sample_run_locked). vm_compute. reflexivity.
Defined.

Lemma reserve_decides_witness :
  snd (sample_reserve sample_voted sample_precommit Persisted) = Ok tt
  ∧ ¬ accepts sample_locked sample_prevote.
Proof.
  split; [vm_compute; reflexivity|]. intros H.
  apply (proj1 (reserve_decides (blake := checksum_blake2s) sample_context sample_key
    eq_refl eq_refl true _ _ sample_prevote sample_run_locked eq_refl (proj1 sample_request_ok)))
    in H.
  vm_compute in H. discriminate H.
Defined.

Lemma interrupted_write_recovers_witness :
  j_poisoned (sample_torn 40) = true
  ∧ journal_open (blake := checksum_blake2s) sample_context sample_key (j_file (sample_torn 40)) true
    = Err InvalidJournal.
Proof.
  split.
  - apply (interrupted_write_recovers (blake := checksum_blake2s) sample_context sample_key
      eq_refl eq_refl true _ sample_voted sample_precommit Persisted (PersistFailed 40)
      (sample_torn 40) sample_run_voted eq_refl (proj2 sample_request_ok)).
    vm_compute. reflexivity.
  - vm_compute. reflexivity.
Defined.
