(* ===== verification/Anchor.v ===== *)
(** * Anchor: the independent witness of the journal's watermark
    ([src/crates/keystore/src/anchor.rs])

    The anchor file has a header that names one journal and two alternating slots
    with the last decisions the journal reached.  Its writes are interrupted the
    same way as the journal's.  The theorems show what a restart finds, and that
    an anchor refuses every journal older than the decisions it witnessed. *)

From S2P Require Import Prelude Ordered Codec Types Crypto Votes Disk Journal.

Definition ANCHOR_MAGIC : bytes := lit "ALSANCH1".
Definition ANCHOR_HEADER_BYTES : Z := 140.
Definition ANCHOR_SLOT_BYTES : Z := 118.
Definition ANCHOR_HEADER_DOMAIN : bytes := lit "astrolune.signing.anchor.v1".
Definition ANCHOR_BINDING_DOMAIN : bytes := lit "astrolune.signing.anchor.binding.v1".
Definition ANCHOR_SLOT_DOMAIN : bytes := lit "astrolune.signing.anchor.slot.v1".
Definition ANCHOR_BYTES : Z := ANCHOR_HEADER_BYTES + 2 * ANCHOR_SLOT_BYTES.

Record AnchorStore := mkAnchor {
  an_file : bytes;
  an_identity : Hash256;
  an_checksum : Hash256;
  an_slot0 : JournalState;
  an_slot1 : JournalState;
  an_poisoned : bool
}.

Definition no_position : SigningPosition := mkPosition 0 0 0.

Section anchor.
Context {blake : Blake2s}.

Definition anchor_header (context : SigningContext) (public_key identity : bytes) : bytes :=
  let prefix := ANCHOR_MAGIC ++ le 4 (sc_chain_id context) ++ sc_genesis context ++ public_key
                ++ identity in
  prefix ++ domain_hash ANCHOR_HEADER_DOMAIN prefix.

Definition anchor_binding (checksum : Hash256) (slot : Z) : Hash256 :=
  domain_hash ANCHOR_BINDING_DOMAIN (checksum ++ le 1 slot).

(** The slot fields in front of the digest. *)
Definition anchor_body (state : JournalState) : bytes :=
  let position := default no_position (js_position state) in
  le 8 (js_sequence state) ++ le 1 (Z.b2z (is_some (js_position state)))
  ++ le 8 (sp_height position) ++ le 4 (sp_round position) ++ le 1 (sp_phase position)
  ++ js_message state ++ js_tip state.

Definition anchor_digest (checksum : Hash256) (slot : Z) (body : bytes) : Hash256 :=
  domain_hash ANCHOR_SLOT_DOMAIN (anchor_binding checksum slot ++ body).

Definition anchor_record (checksum : Hash256) (slot : Z) (state : JournalState) : bytes :=
  anchor_body state ++ anchor_digest checksum slot (anchor_body state).

Definition read_anchor_slot
    : read (Z * Z * SigningPosition * Hash256 * Hash256 * Hash256) := λ d,
  let? (sequence, d) := read_u64 d in
  let? (present, d) := read_u8 d in
  let? (position, d) := read_position d in
  let? (message, d) := read_fixed 32 d in
  let? (tip, d) := read_fixed 32 d in
  let? (stored, d) := read_fixed 32 d in
  Ok (sequence, present, position, message, tip, stored, d).

Definition decode_anchor_slot (checksum : Hash256) (slot : Z) (bs : bytes)
    : result JournalState KeystoreError :=
  let? (sequence, present, position, message, tip, stored) :=
    map_err (λ _, InvalidJournal) (complete read_anchor_slot bs) in
  let? _ := reject_if (negb (bool_decide (stored = anchor_digest checksum slot (take 86 bs))))
              InvalidJournal in
  let? position :=
    (if (present =? 0) && (sequence =? 0) && (sp_height position =? 0) && (sp_round position =? 0)
        && (sp_phase position =? 0) && bool_decide (message = zero32)
     then Ok None
     else if (present =? 1) && (0 <? sequence) && (sp_phase position <=? PRECOMMIT_PHASE)
     then Ok (Some position)
     else Err InvalidJournal) in
  Ok (mkJournalState sequence position message tip).

Definition destination (sequence : Z) : Z := if sequence mod 2 =? 0 then 0 else 1.

Definition anchor_create (context : SigningContext) (public_key identity : bytes)
    (state : JournalState) (io : Persist) : bytes * result AnchorStore KeystoreError :=
  let header := anchor_header context public_key identity in
  let checksum := domain_hash ANCHOR_HEADER_DOMAIN (take 108 header) in
  let image := header ++ anchor_record checksum 0 state ++ anchor_record checksum 1 state in
  let '(file, ok) := persist io [] 0 image in
  (file, if ok then Ok (mkAnchor file identity checksum state state false)
         else Err JournalFailure).

Definition anchor_open (context : SigningContext) (public_key identity file : bytes)
    (sync_ok : bool) : result AnchorStore KeystoreError :=
  let? _ := reject_if (negb (len file =? ANCHOR_BYTES)) InvalidJournal in
  let checksum := domain_hash ANCHOR_HEADER_DOMAIN (take 108 file) in
  let? _ := reject_if (negb (bool_decide (take 8 file = ANCHOR_MAGIC))
                       || negb (bool_decide (take 32 (drop 108 file) = checksum))) InvalidJournal in
  let? _ := reject_if (negb (bool_decide (take 140 file = anchor_header context public_key identity)))
              ContextMismatch in
  let? a := decode_anchor_slot checksum 0 (take 118 (drop 140 file)) in
  let? b := decode_anchor_slot checksum 1 (take 118 (drop 258 file)) in
  let? _ :=
    (if bool_decide (a = b) then Ok tt
     else
       let '(older, newer, physical) :=
         if js_sequence a <? js_sequence b then (a, b, 1) else (b, a, 0) in
       reject_if (negb (bool_decide (checked_add 64 (js_sequence older) 1
                                     = Some (js_sequence newer)))
                  || negb (destination (js_sequence newer) =? physical)
                  || leb (js_position newer) (js_position older)) InvalidJournal) in
  let? _ := reject_if (negb sync_ok) JournalFailure in
  Ok (mkAnchor file identity checksum a b false).

Definition anchor_latest (a : AnchorStore) : JournalState :=
  if js_sequence (an_slot1 a) <? js_sequence (an_slot0 a) then an_slot0 a else an_slot1 a.

Definition anchor_poison (a : AnchorStore) (file : bytes) : AnchorStore :=
  mkAnchor file (an_identity a) (an_checksum a) (an_slot0 a) (an_slot1 a) true.

Definition anchor_publish (a : AnchorStore) (file : bytes) (slot : Z) (state : JournalState)
    : AnchorStore :=
  if slot =? 0 then mkAnchor file (an_identity a) (an_checksum a) state (an_slot1 a) false
  else mkAnchor file (an_identity a) (an_checksum a) (an_slot0 a) state false.

Definition anchor_commit (a : AnchorStore) (state : JournalState) (io : Persist)
    : AnchorStore * result unit KeystoreError :=
  if an_poisoned a then (a, Err DurabilityUnknown) else
  let latest := anchor_latest a in
  if bool_decide (latest = state) then (a, Ok tt) else
  if negb (bool_decide (checked_add 64 (js_sequence latest) 1 = Some (js_sequence state)))
     || leb (js_position state) (js_position latest)
  then (a, Err InvalidJournal) else
  let slot := destination (js_sequence state) in
  let bs := anchor_record (an_checksum a) slot state in
  let '(file, ok) :=
    persist io (an_file a) (ANCHOR_HEADER_BYTES + slot * ANCHOR_SLOT_BYTES) bs in
  if ok then (anchor_publish a file slot state, Ok tt)
  else (anchor_poison a file, Err DurabilityUnknown).

Definition anchor_reconcile (a : AnchorStore) (current : JournalState)
    (previous : option JournalState) (io : Persist) : AnchorStore * result unit KeystoreError :=
  let latest := anchor_latest a in
  if js_sequence current <? js_sequence latest then (a, Err StalePosition) else
  if js_sequence latest =? js_sequence current then
    (a, if bool_decide (latest = current) then Ok tt else Err ConflictingSign) else
  if negb (bool_decide (checked_add 64 (js_sequence latest) 1 = Some (js_sequence current)))
  then (a, Err StalePosition) else
  if bool_decide (previous = Some latest) then anchor_commit a current io
  else (a, Err ConflictingSign).
End anchor.

(** ** Slots *)

(** The states a journal hands to its anchor. *)
Definition state_ok (s : JournalState) : Prop :=
  u64 (js_sequence s) ∧ sized 32 (js_message s) ∧ sized 32 (js_tip s)
  ∧ match js_position s with
    | Some p => position_ok p ∧ 0 < js_sequence s
    | None => js_sequence s = 0 ∧ js_message s = zero32
    end.

Section anchor_facts.
Context {blake : Blake2s}.
Context (context : SigningContext) (public_key identity : bytes).
Context (genesis_sized : sized 32 (sc_genesis context)) (key_sized : sized 32 public_key).
Context (identity_sized : sized 32 identity).
Implicit Types (a : AnchorStore) (s : JournalState).

Lemma anchor_body_length s : state_ok s → length (anchor_body s) = 86%nat.
Proof.
  intros (_ & Hm & Ht & _). unfold anchor_body, sized in *. rewrite !length_app, !length_le.
  by rewrite Hm, Ht.
Qed.

Lemma anchor_record_split checksum slot s :
  state_ok s →
  length (anchor_record checksum slot s) = 118%nat
  ∧ take 86 (anchor_record checksum slot s) = anchor_body s
  ∧ drop 86 (anchor_record checksum slot s) = anchor_digest checksum slot (anchor_body s).
Proof.
  intros H. pose proof (anchor_body_length s H) as Hb. unfold anchor_record.
  rewrite length_app, Hb, take_app_length', drop_app_length' by done.
  split; [|done]. unfold anchor_digest. by rewrite domain_hash_sized.
Qed.

(** The fields of a slot on the wire. *)
Definition anchor_fields (t : Z * Z * SigningPosition * Hash256 * Hash256 * Hash256) : bytes :=
  let '(sequence, present, p, message, tip, stored) := t in
  le 8 sequence ++ le 1 present ++ (le 8 (sp_height p) ++ le 4 (sp_round p) ++ le 1 (sp_phase p))
  ++ message ++ tip ++ stored.

Definition anchor_fields_ok (t : Z * Z * SigningPosition * Hash256 * Hash256 * Hash256) : Prop :=
  let '(sequence, present, p, message, tip, stored) := t in
  u64 sequence ∧ u8 present ∧ (u64 (sp_height p) ∧ u32 (sp_round p) ∧ u8 (sp_phase p))
  ∧ sized 32 message ∧ sized 32 tip ∧ sized 32 stored.

#[local] Instance reads_anchor_slot : Reads read_anchor_slot anchor_fields anchor_fields_ok.
Proof.
  split; unfold read_anchor_slot, anchor_fields, anchor_fields_ok.
  - intros d [[[[[n f] p] m] t] c] ys (? & ? & ? & ? & ? & ?) Hd. rewrite <- !app_assoc in Hd.
    rewrite (app_assoc (le 4 _)), (app_assoc (le 8 (sp_height p))) in Hd.
    do 6 (read_fwd; [done|]). close_fwd.
  - intros d v d' zs Hd H. bind_inv H. read_inv. simplify_eq. eexists.
    rewrite <- !app_assoc. split; [reflexivity|cbv beta iota; tauto].
Qed.

Lemma anchor_record_fields checksum slot s :
  anchor_record checksum slot s
  = anchor_fields (js_sequence s, Z.b2z (is_some (js_position s)),
                   default no_position (js_position s), js_message s, js_tip s,
                   anchor_digest checksum slot (anchor_body s)).
Proof. unfold anchor_record at 1. unfold anchor_body at 1. by rewrite <- !app_assoc. Qed.

Lemma decode_anchor_record checksum slot s :
  state_ok s → decode_anchor_slot checksum slot (anchor_record checksum slot s) = Ok s.
Proof.
  intros Hs. destruct (anchor_record_split checksum slot s Hs) as (Hl & Ht & _).
  unfold decode_anchor_slot. rewrite Ht, anchor_record_fields, (complete_fwd _ _ anchor_fields_ok); cycle 1.
  { destruct Hs as (Hn & Hm & Htip & Hp). split; [done|]. split; [by destruct (js_position s)|].
    split; [|split; [done|split; [done|apply domain_hash_sized]]].
    unfold position_ok, PRECOMMIT_PHASE, fits in *. destruct (js_position s); simpl; lia. }
  { rewrite <- anchor_record_fields. unfold len. by rewrite Hl. }
  cbn [map_err]. rewrite bool_decide_eq_true_2 by done. cbn [negb reject_if].
  destruct Hs as (_ & _ & _ & Hp). destruct s as [n [p|] m t]; simpl in *.
  - destruct Hp as [(_ & _ & Hphase) Hn].
    rewrite (proj2 (Z.ltb_lt 0 n)), (proj2 (Z.leb_le (sp_phase p) PRECOMMIT_PHASE)) by lia. done.
  - destruct Hp as [-> ->]. by rewrite bool_decide_eq_true_2.
Qed.

Lemma decode_anchor_err checksum slot bs error :
  decode_anchor_slot checksum slot bs = Err error → error = InvalidJournal.
Proof.
  unfold decode_anchor_slot. destruct (complete _ _) as [[[[[[n f] p] m] t] c]|]; simpl; [|congruence].
  destruct (reject_if _ _) as [|] eqn:E1; [|apply reject_if_err in E1 as [_ ?]; congruence].
  repeat case_match; congruence.
Qed.

(** What decodes carries the digest of its fields. *)
Lemma decode_anchor_digest checksum slot bs s :
  length bs = 118%nat → decode_anchor_slot checksum slot bs = Ok s →
  drop 86 bs = anchor_digest checksum slot (take 86 bs).
Proof.
  intros Hl H. unfold decode_anchor_slot in H. bind_inv H. clear H. guards. subst.
  apply map_err_ok in E. apply (complete_inv _ anchor_fields anchor_fields_ok) in E as [E Hv]; [|unfold len; by rewrite Hl].
  destruct Hv as (_ & _ & _ & Hm & Ht & Hc).
  set (digest := anchor_digest checksum slot (take 86 bs)) in *. clearbody digest. rewrite E.
  unfold anchor_fields. rewrite !app_assoc. apply drop_app_length'.
  unfold sized in *. rewrite !length_app, !length_le. by rewrite Hm, Ht.
Qed.

(** ** The file *)

Abbreviation header := (anchor_header context public_key identity).

Definition checksum_of_header : Hash256 := domain_hash ANCHOR_HEADER_DOMAIN (take 108 header).

Definition anchor_file_of (slot0 slot1 : bytes) : bytes := header ++ slot0 ++ slot1.

Definition anchor_at s0 s1 : AnchorStore :=
  mkAnchor (anchor_file_of (anchor_record checksum_of_header 0 s0)
              (anchor_record checksum_of_header 1 s1))
    identity checksum_of_header s0 s1 false.

(** [new] is the decision after [old]. *)
Definition succeeds_state (old new : JournalState) : Prop :=
  js_sequence new = js_sequence old + 1 ∧ lt_of (js_position old) (js_position new).

Definition slots_agree s0 s1 : Prop :=
  s0 = s1
  ∨ (succeeds_state s0 s1 ∧ destination (js_sequence s1) = 1)
  ∨ (succeeds_state s1 s0 ∧ destination (js_sequence s0) = 0).

(** An anchor whose writes all succeeded. *)
Definition anchor_wf a : Prop :=
  ∃ s0 s1, state_ok s0 ∧ state_ok s1 ∧ slots_agree s0 s1 ∧ a = anchor_at s0 s1.

Lemma anchor_header_parts :
  length header = 140%nat ∧ take 8 header = ANCHOR_MAGIC ∧ drop 108 header = checksum_of_header.
Proof using genesis_sized key_sized identity_sized.
  unfold checksum_of_header, anchor_header.
  match goal with |- length (?p ++ _) = _ ∧ _ => assert (length p = 108%nat) as Hp end.
  { rewrite !length_app, !length_le; unfold sized in *.
    by rewrite genesis_sized, key_sized, identity_sized. }
  split_and!.
  - by rewrite length_app, Hp, domain_hash_sized.
  - rewrite <- !app_assoc. by apply take_app_length'.
  - by rewrite drop_app_length', take_app_length' by done.
Qed.

Lemma anchor_file_parts slot0 slot1 :
  length slot0 = 118%nat → length slot1 = 118%nat →
  let file := anchor_file_of slot0 slot1 in
  len file = ANCHOR_BYTES ∧ take 140 file = header ∧ take 108 file = take 108 header
  ∧ take 8 file = ANCHOR_MAGIC ∧ take 32 (drop 108 file) = checksum_of_header
  ∧ take 118 (drop 140 file) = slot0 ∧ take 118 (drop 258 file) = slot1.
Proof using genesis_sized key_sized identity_sized.
  intros L0 L1 file. destruct anchor_header_parts as (Hl & H8 & H108). unfold file, anchor_file_of.
  split_and!.
  - unfold len. by rewrite !length_app, Hl, L0, L1.
  - by apply take_app_length'.
  - apply take_app_le. lia.
  - rewrite take_app_le by lia. done.
  - rewrite drop_app_le by lia. rewrite H108. apply take_app_length'; symmetry; apply domain_hash_sized.
  - by apply window.
  - rewrite !app_assoc. rewrite drop_app_length' by (by rewrite !length_app, Hl, L0).
    by apply take_ge; rewrite L1.
Qed.

(** Opening a file with this header reads the two slots and compares them. *)
Lemma anchor_open_slots slot0 slot1 :
  length slot0 = 118%nat → length slot1 = 118%nat →
  anchor_open context public_key identity (anchor_file_of slot0 slot1) true
  = let? u := decode_anchor_slot checksum_of_header 0 slot0 in
    let? v := decode_anchor_slot checksum_of_header 1 slot1 in
    let? _ :=
      (if bool_decide (u = v) then Ok tt
       else
         let '(older, newer, physical) :=
           if js_sequence u <? js_sequence v then (u, v, 1) else (v, u, 0) in
         reject_if (negb (bool_decide (checked_add 64 (js_sequence older) 1
                                       = Some (js_sequence newer)))
                    || negb (destination (js_sequence newer) =? physical)
                    || leb (js_position newer) (js_position older)) InvalidJournal) in
    Ok (mkAnchor (anchor_file_of slot0 slot1) identity checksum_of_header u v false).
Proof using genesis_sized key_sized identity_sized.
  intros L0 L1. destruct (anchor_file_parts slot0 slot1 L0 L1) as (Hl & H140 & H108 & H8 & H32 & P0 & P1).
  unfold anchor_open. rewrite Hl, H140, H108, H8, H32, P0, P1.
  by rewrite Z.eqb_refl, !bool_decide_eq_true_2.
Qed.

Lemma succeeds_checks old new :
  state_ok new → succeeds_state old new →
  bool_decide (checked_add 64 (js_sequence old) 1 = Some (js_sequence new)) = true
  ∧ leb (js_position new) (js_position old) = false.
Proof.
  intros ([_ Hb] & _) [Hs Hlt]. split; [|by apply leb_false].
  apply bool_decide_eq_true_2, checked_add_some. lia.
Qed.

Lemma anchor_open_wf a :
  anchor_wf a → anchor_open context public_key identity (an_file a) true = Ok a.
Proof using genesis_sized key_sized identity_sized.
  intros (s0 & s1 & Ok0 & Ok1 & Hag & ->). cbn [anchor_at an_file].
  rewrite anchor_open_slots by (by apply anchor_record_split).
  rewrite !decode_anchor_record by done. unfold anchor_at.
  destruct (decide (s0 = s1)) as [->|Hne]; [by rewrite bool_decide_eq_true_2|].
  rewrite bool_decide_eq_false_2 by done.
  destruct Hag as [?|[[[Hs Hlt] Hd]|[[Hs Hlt] Hd]]]; [done|..].
  - rewrite (proj2 (Z.ltb_lt _ _)) by lia.
    destruct (succeeds_checks s0 s1 Ok1) as [-> ->]; [done|]. by rewrite Hd.
  - rewrite (proj2 (Z.ltb_ge _ _)) by lia.
    destruct (succeeds_checks s1 s0 Ok0) as [-> ->]; [done|]. by rewrite Hd.
Qed.

(** ** Commits *)

Lemma destination_cases n :
  destination n = 0 ∧ destination (n + 1) = 1 ∨ destination n = 1 ∧ destination (n + 1) = 0.
Proof.
  unfold destination.
  destruct (Z.eqb_spec (n mod 2) 0), (Z.eqb_spec ((n + 1) mod 2) 0);
    Z.to_euclidean_division_equations; lia.
Qed.

(** The anchor that recorded [s] behind its latest state. *)
Definition anchor_next a s : AnchorStore :=
  if destination (js_sequence s) =? 0 then anchor_at s (an_slot1 a) else anchor_at (an_slot0 a) s.

Lemma anchor_at_latest s0 s1 :
  state_ok s0 → state_ok s1 → slots_agree s0 s1 →
  anchor_latest (anchor_at s0 s1) = s0 ∨ anchor_latest (anchor_at s0 s1) = s1.
Proof. intros. unfold anchor_latest. cbn. case_test; auto. Qed.

Lemma latest_ok a : anchor_wf a → state_ok (anchor_latest a).
Proof.
  intros (s0 & s1 & Ok0 & Ok1 & Hag & ->).
  by destruct (anchor_at_latest s0 s1) as [-> | ->].
Qed.

(** The latest state is in the slot the next one does not overwrite. *)
Lemma latest_other s0 s1 s :
  slots_agree s0 s1 → succeeds_state (anchor_latest (anchor_at s0 s1)) s →
  (destination (js_sequence s) = 0 ∧ anchor_latest (anchor_at s0 s1) = s1)
  ∨ (destination (js_sequence s) = 1 ∧ anchor_latest (anchor_at s0 s1) = s0).
Proof.
  unfold anchor_latest. cbn. intros Hag [Hs _].
  destruct Hag as [-> |[[[Hn _] Hd]|[[Hn _] Hd]]].
  - rewrite Z.ltb_irrefl in *. destruct (destination_cases (js_sequence s1)) as [[_ H]|[_ H]];
      rewrite <- Hs in H; auto.
  - rewrite (proj2 (Z.ltb_ge _ _)) in * by lia. left. split; [|done].
    destruct (destination_cases (js_sequence s1)); rewrite <- Hs in *; lia.
  - rewrite (proj2 (Z.ltb_lt _ _)) in * by lia. right. split; [|done].
    destruct (destination_cases (js_sequence s0)); rewrite <- Hs in *; lia.
Qed.

Lemma anchor_next_wf a s :
  anchor_wf a → state_ok s → succeeds_state (anchor_latest a) s →
  anchor_wf (anchor_next a s) ∧ anchor_latest (anchor_next a s) = s.
Proof.
  intros (s0 & s1 & Ok0 & Ok1 & Hag & ->) Hs Hsucc. unfold anchor_next.
  destruct (latest_other s0 s1 s Hag Hsucc) as [[Hd Hl]|[Hd Hl]];
    rewrite Hl in Hsucc; rewrite Hd; cbn [Z.eqb anchor_at an_slot0 an_slot1].
  - split; [exists s, s1; split_and!; [done..| |done]; right; right; auto|].
    unfold anchor_latest. cbn. rewrite (proj2 (Z.ltb_lt _ _)); [done|]. destruct Hsucc; lia.
  - split; [exists s0, s; split_and!; [done..| |done]; right; left; auto|].
    unfold anchor_latest. cbn. rewrite (proj2 (Z.ltb_ge _ _)); [done|]. destruct Hsucc; lia.
Qed.

Lemma write_anchor_slot slot0 slot1 slot (data : bytes) :
  length slot0 = 118%nat → length slot1 = 118%nat → slot = 0 ∨ slot = 1 →
  (length data <= 118)%nat →
  write_at (anchor_file_of slot0 slot1) (ANCHOR_HEADER_BYTES + slot * ANCHOR_SLOT_BYTES) data
  = if slot =? 0 then anchor_file_of (overlay data slot0) slot1
    else anchor_file_of slot0 (overlay data slot1).
Proof using genesis_sized key_sized identity_sized.
  intros L0 L1 Hslot Hd. destruct anchor_header_parts as (Hl & _).
  unfold anchor_file_of, overlay. destruct Hslot as [-> | ->]; cbn [Z.eqb].
  - apply write_at_window; [unfold len; by rewrite Hl|lia].
  - replace (header ++ slot0 ++ slot1) with ((header ++ slot0) ++ slot1 ++ [])
      by (by rewrite app_nil_r, <- app_assoc).
    rewrite write_at_window; [|unfold len; by rewrite length_app, Hl, L0|lia].
    by rewrite app_nil_r, <- !app_assoc.
Qed.
Definition anchor_slot a (slot : Z) : JournalState := if slot =? 0 then an_slot0 a else an_slot1 a.

(** The bytes of the slot [s] goes to, after only [k] of them were written. *)
Definition anchor_torn a s (k : nat) : bytes :=
  let slot := destination (js_sequence s) in
  overlay (take k (anchor_record checksum_of_header slot s))
    (anchor_record checksum_of_header slot (anchor_slot a slot)).

Definition anchor_torn_file a s (k : nat) : bytes :=
  if destination (js_sequence s) =? 0
  then anchor_file_of (anchor_torn a s k) (anchor_record checksum_of_header 1 (an_slot1 a))
  else anchor_file_of (anchor_record checksum_of_header 0 (an_slot0 a)) (anchor_torn a s k).

(** The torn slot happens to have the digest of the old one. *)
Definition anchor_hazard a s (io : Persist) : Prop :=
  match io with
  | Persisted => False
  | PersistFailed k =>
      let slot := destination (js_sequence s) in
      let old := anchor_record checksum_of_header slot (anchor_slot a slot) in
      let preimage body :=
        domain_preimage ANCHOR_SLOT_DOMAIN (anchor_binding checksum_of_header slot ++ body) in
      collides (preimage (take 86 old)) (preimage (take 86 (anchor_torn a s k)))
  end.

Lemma destination_01 n : destination n = 0 ∨ destination n = 1.
Proof. destruct (destination_cases n) as [[-> _]|[-> _]]; auto. Qed.

Lemma anchor_commit_next a s io :
  anchor_wf a → state_ok s → succeeds_state (anchor_latest a) s →
  anchor_commit a s io
  = match io with
    | Persisted => (anchor_next a s, Ok tt)
    | PersistFailed k => (anchor_poison a (anchor_torn_file a s k), Err DurabilityUnknown)
    end.
Proof using genesis_sized key_sized identity_sized.
  intros (s0 & s1 & Ok0 & Ok1 & Hag & ->) Hs Hsucc.
  destruct (succeeds_checks _ _ Hs Hsucc) as [Hc Hp].
  assert (anchor_latest (anchor_at s0 s1) ≠ s) as Hne.
  { intros E. destruct Hsucc as [Hn _]. rewrite E in Hn. lia. }
  unfold anchor_commit. change (an_poisoned (anchor_at s0 s1)) with false. cbv iota.
  rewrite bool_decide_eq_false_2 by exact Hne. rewrite Hc, Hp. cbn [negb orb an_checksum anchor_at an_file].
  pose proof (anchor_record_split checksum_of_header 0 s0 Ok0) as [L0 _].
  pose proof (anchor_record_split checksum_of_header 1 s1 Ok1) as [L1 _].
  pose proof (anchor_record_split checksum_of_header (destination (js_sequence s)) s Hs) as [Ls _].
  destruct io as [|k]; cbn [persist];
    (rewrite write_anchor_slot; [|done|done|apply destination_01|rewrite ?length_take; lia]).
  - rewrite !overlay_full by lia. unfold anchor_publish, anchor_next.
    destruct (destination_01 (js_sequence s)) as [-> | ->]; reflexivity.
  - unfold anchor_torn_file, anchor_torn, anchor_slot.
    destruct (destination_01 (js_sequence s)) as [-> | ->]; reflexivity.
Qed.

Lemma anchor_torn_decodes a s k out :
  state_ok (anchor_slot a (destination (js_sequence s))) → state_ok s →
  let slot := destination (js_sequence s) in
  length (anchor_torn a s k) = 118%nat
  ∧ (decode_anchor_slot checksum_of_header slot (anchor_torn a s k) = Ok out →
     anchor_torn a s k = anchor_record checksum_of_header slot (anchor_slot a slot)
     ∨ anchor_torn a s k = anchor_record checksum_of_header slot s
     ∨ anchor_hazard a s (PersistFailed k)).
Proof.
  intros Ho Hs slot. fold slot in Ho.
  destruct (anchor_record_split checksum_of_header slot _ Ho) as (Lo & To & Do).
  destruct (anchor_record_split checksum_of_header slot _ Hs) as (Ln & Tn & Dn).
  assert (length (anchor_torn a s k) = 118%nat) as Lt.
  { unfold anchor_torn. fold slot. rewrite overlay_length; rewrite ?length_take, ?Lo; lia. }
  split; [done|]. intros H. apply decode_anchor_digest in H; [|done].
  rewrite <- To in Do. rewrite <- Tn in Dn.
  destruct (torn_checked 86 (anchor_digest checksum_of_header slot) _ _ k Lo Ln Do Dn H)
    as [?|[?|[Hne Heq]]]; [by left|by right; left|right; right].
  apply domain_hash_binding in Heq as [[_ E]|E]; [|done..]. by apply app_inv_head in E.
Qed.

(** A restart after an interrupted commit. *)
Lemma anchor_open_torn a s k :
  anchor_wf a → state_ok s → succeeds_state (anchor_latest a) s →
  let reopened := anchor_open context public_key identity (anchor_torn_file a s k) true in
  reopened = Err InvalidJournal ∨ reopened = Ok a ∨ reopened = Ok (anchor_next a s)
  ∨ anchor_hazard a s (PersistFailed k).
Proof using genesis_sized key_sized identity_sized.
  intros Hwf Hs Hsucc reopened. pose proof (anchor_open_wf a Hwf) as Hopen.
  destruct (anchor_next_wf a s Hwf Hs Hsucc) as [Hnext _]. apply anchor_open_wf in Hnext.
  destruct Hwf as (s0 & s1 & Ok0 & Ok1 & Hag & ->).
  set (slot := destination (js_sequence s)) in *.
  assert (state_ok (anchor_slot (anchor_at s0 s1) slot)) as Oko by (unfold anchor_slot; cbn; by case_match).
  pose proof (λ out, anchor_torn_decodes (anchor_at s0 s1) s k out Oko Hs) as Ht.
  destruct (Ht s) as [Lt _]. fold slot in Ht.
  pose proof (anchor_record_split checksum_of_header 0 s0 Ok0) as [L0 _].
  pose proof (anchor_record_split checksum_of_header 1 s1 Ok1) as [L1 _].
  destruct (decode_anchor_slot checksum_of_header slot (anchor_torn (anchor_at s0 s1) s k))
    as [out|err] eqn:Ed.
  - destruct (Ht out) as [_ [E|[E|E]]]; [done|..]; [right; left|right; right; left|by do 3 right].
    + rewrite <- Hopen. unfold reopened, anchor_torn_file. rewrite E. fold slot. f_equal.
      by destruct (destination_01 (js_sequence s)) as [Hd|Hd]; fold slot in Hd; rewrite Hd.
    + rewrite <- Hnext. unfold reopened, anchor_torn_file, anchor_next. rewrite E. fold slot. f_equal.
      by destruct (destination_01 (js_sequence s)) as [Hd|Hd]; fold slot in Hd; rewrite Hd.
  - left. assert (Herr := decode_anchor_err _ _ _ _ Ed). subst err.
    unfold reopened, anchor_torn_file. fold slot. cbn [an_slot0 an_slot1 anchor_at].
    destruct (destination_01 (js_sequence s)) as [Hd|Hd]; fold slot in Hd; rewrite Hd in Ed |- *;
      cbn [Z.eqb]; rewrite anchor_open_slots by done; rewrite ?decode_anchor_record by done;
      by rewrite Ed.
Qed.
(** An opened anchor is on the file it was opened from. *)
Lemma anchor_open_file (file : bytes) sync_ok a :
  anchor_open context public_key identity file sync_ok = Ok a → an_file a = file.
Proof. unfold anchor_open. intros H. bind_inv H. by subst. Qed.

Lemma reconcile_synced a s previous io :
  anchor_latest a = s → anchor_reconcile a s previous io = (a, Ok tt).
Proof.
  intros <-. unfold anchor_reconcile. rewrite Z.ltb_irrefl, Z.eqb_refl.
  by rewrite bool_decide_eq_true_2.
Qed.

Lemma reconcile_ahead a s io :
  state_ok s → succeeds_state (anchor_latest a) s →
  anchor_reconcile a s (Some (anchor_latest a)) io = anchor_commit a s io.
Proof.
  intros Hs Hsucc. destruct (succeeds_checks _ _ Hs Hsucc) as [Hc _]. destruct Hsucc as [Hn _].
  unfold anchor_reconcile. rewrite (proj2 (Z.ltb_ge _ _)), (proj2 (Z.eqb_neq _ _)) by lia.
  by rewrite Hc, bool_decide_eq_true_2.
Qed.
Lemma anchor_wf_header a : anchor_wf a → take 140 (an_file a) = header.
Proof using genesis_sized key_sized identity_sized.
  intros (s0 & s1 & Ok0 & Ok1 & _ & ->). cbn [anchor_at an_file].
  apply anchor_file_parts; by apply anchor_record_split.
Qed.

Lemma anchor_torn_header a s k : anchor_wf a → state_ok s → take 140 (anchor_torn_file a s k) = header.
Proof using genesis_sized key_sized identity_sized.
  intros (s0 & s1 & Ok0 & Ok1 & _ & ->) Hs.
  assert (state_ok (anchor_slot (anchor_at s0 s1) (destination (js_sequence s)))) as Oko
    by (unfold anchor_slot; cbn; by case_match).
  destruct (anchor_torn_decodes _ s k s Oko Hs) as [Lt _]. unfold anchor_torn_file.
  case_match; apply anchor_file_parts; first [done|by apply anchor_record_split].
Qed.
End anchor_facts.

(** The header names the journal. *)
Lemma anchor_header_identity `{!Blake2s} context public_key id1 id2 :
  sized 32 id1 → sized 32 id2 →
  anchor_header context public_key id1 = anchor_header context public_key id2 → id1 = id2.
Proof.
  intros H1 H2 E. unfold anchor_header in E. rewrite <- !app_assoc in E.
  do 4 (apply app_inv_head in E). unfold sized in *. by apply app_inj_1 in E as [? _]; [|congruence].
Qed.

Lemma anchor_open_header `{!Blake2s} context public_key identity file sync_ok a :
  anchor_open context public_key identity file sync_ok = Ok a →
  take 140 file = anchor_header context public_key identity.
Proof. unfold anchor_open. intros Ho. bind_inv Ho. guards. done. Qed.
