(* ===== verification/Durable.v ===== *)
(** * Durable: the signer behind a journal and its anchor
    ([src/crates/keystore/src/durable.rs], [admission.rs], [governance.rs])

    A signer owns a seed, a journal and optionally an anchor.  A consensus
    signature is released only after the journal reserved the decision and the
    anchor witnessed it.  Operator approvals are signed without a reservation, in
    digest domains of their own. *)

From S2P Require Import Prelude Ordered Codec Types Crypto Votes Disk Journal Recovery Anchor.

(** ** Handles ([key.rs]) *)

Inductive KeyPurpose := ConsensusKey | NetworkKey | ServiceKey | WalletKey.

#[global] Instance KeyPurpose_eq_dec : EqDecision KeyPurpose.
Proof. solve_decision. Defined.

Record KeyHandle := mkHandle {
  kh_id : bytes;
  kh_purpose : KeyPurpose
}.

(** [Display for Hash256]: lower-case hexadecimal. *)
Definition hex_digit (n : Z) : Byte.byte := byte_of (if n <? 10 then 48 + n else 87 + n).
Definition hash_to_string (h : Hash256) : bytes :=
  flat_map (λ b, [hex_digit (byte.unsigned b / 16); hex_digit (byte.unsigned b mod 16)]) h.

(** ** Operator approvals *)

Record AdmissionIntent := mkAdmission {
  ai_chain_id : Z;
  ai_genesis : Hash256;
  ai_height : Z;
  ai_parent : Hash256;
  ai_committee_root : Hash256;
  ai_public_key : bytes
}.

Definition ADMISSION_BYTES : Z := 140.

Record GovernanceIntent := mkGovernance {
  gi_chain_id : Z;
  gi_genesis : Hash256;
  gi_height : Z;
  gi_parent : Hash256;
  gi_committee_root : Hash256;
  gi_activate_at : Z;
  gi_capacity : Resources;
  gi_prices : Resources
}.

Definition GOVERNANCE_BYTES : Z := 188.
Definition GOVERNANCE_MAGIC : bytes := lit "ALGVRQ01".

Definition admission_to_bytes (i : AdmissionIntent) : bytes :=
  le 4 (ai_chain_id i) ++ ai_genesis i ++ le 8 (ai_height i) ++ ai_parent i
  ++ ai_committee_root i ++ ai_public_key i.

Definition read_admission : read AdmissionIntent := λ d,
  let? (chain_id, d) := read_u32 d in
  let? (genesis, d) := read_fixed 32 d in
  let? (height, d) := read_u64 d in
  let? (parent, d) := read_fixed 32 d in
  let? (committee_root, d) := read_fixed 32 d in
  let? (public_key, d) := read_fixed 32 d in
  Ok (mkAdmission chain_id genesis height parent committee_root public_key, d).

Definition governance_validate (i : GovernanceIntent) : result unit DecodeError :=
  reject_if ((gi_chain_id i =? 0) || hash_is_zero (gi_genesis i) || hash_is_zero (gi_parent i)
             || hash_is_zero (gi_committee_root i) || (gi_height i =? 0)
             || (gi_activate_at i <=? gi_height i)
             || (compute (gi_capacity i) =? 0) || (memory (gi_capacity i) =? 0)
             || (io (gi_capacity i) =? 0) || (bandwidth (gi_capacity i) =? 0)) NonCanonical.

Definition governance_to_bytes (i : GovernanceIntent) : bytes :=
  GOVERNANCE_MAGIC ++ le 4 (gi_chain_id i) ++ gi_genesis i ++ le 8 (gi_height i) ++ gi_parent i
  ++ gi_committee_root i ++ le 8 (gi_activate_at i) ++ encode_resources (gi_capacity i)
  ++ encode_resources (gi_prices i).

Definition read_governance : read GovernanceIntent := λ d,
  let? (chain_id, d) := read_u32 d in
  let? (genesis, d) := read_fixed 32 d in
  let? (height, d) := read_u64 d in
  let? (parent, d) := read_fixed 32 d in
  let? (committee_root, d) := read_fixed 32 d in
  let? (activate_at, d) := read_u64 d in
  let? (capacity, d) := read_resources d in
  let? (prices, d) := read_resources d in
  Ok (mkGovernance chain_id genesis height parent committee_root activate_at capacity prices, d).

(** The request behind its tag. *)
Definition read_governance_request : read GovernanceIntent := λ d,
  let? (magic, d) := read_fixed 8 d in
  let? _ := reject_if (negb (bool_decide (magic = GOVERNANCE_MAGIC))) Unsupported in
  read_governance d.

Definition governance_from_bytes (bs : bytes) : result GovernanceIntent DecodeError :=
  let? _ := reject_if (negb (len bs =? GOVERNANCE_BYTES)) NonCanonical in
  let? intent := complete read_governance_request bs in
  let? _ := governance_validate intent in
  Ok intent.

Section approvals.
Context {blake : Blake2s} {ed : Ed25519}.

Definition admission_validate (i : AdmissionIntent) : result unit DecodeError :=
  let? _ := reject_if ((ai_chain_id i =? 0) || hash_is_zero (ai_genesis i)
                       || hash_is_zero (ai_parent i) || hash_is_zero (ai_committee_root i)
                       || (ai_height i =? 0) || (ai_height i =? 2 ^ 64 - 1)) NonCanonical in
  let? _ := map_err (λ _, NonCanonical) (register_validator provider_new (ai_public_key i)) in
  Ok tt.

Definition admission_from_bytes (bs : bytes) : result AdmissionIntent DecodeError :=
  let? _ := reject_if (negb (len bs =? ADMISSION_BYTES)) NonCanonical in
  let? intent := complete read_admission bs in
  let? _ := admission_validate intent in
  Ok intent.

Definition ADMISSION_CONSENT : bytes := lit "astrolune.admission.consent.v1".
Definition ADMISSION_REQUEST : bytes := lit "astrolune.admission.request.v1".
Definition ADMISSION_APPROVAL : bytes := lit "astrolune.admission.approval.v1".
Definition GOVERNANCE_REQUEST : bytes := lit "astrolune.governance.request.v1".
Definition GOVERNANCE_APPROVAL : bytes := lit "astrolune.governance.approval.v1".

Definition consent_hash (i : AdmissionIntent) : Hash256 :=
  domain_hash ADMISSION_CONSENT (admission_to_bytes i).

Definition verify_consent (i : AdmissionIntent) (signature : bytes) : bool :=
  is_ok (admission_validate i) && ed25519_verify (ai_public_key i) (consent_hash i) signature.

Definition request_id (i : AdmissionIntent) (consent : bytes) : Hash256 :=
  domain_hash ADMISSION_REQUEST (admission_to_bytes i ++ consent).

Definition admission_approval_hash (i : AdmissionIntent) (consent : bytes) (voter : ValidatorId)
    : Hash256 :=
  domain_hash ADMISSION_APPROVAL (request_id i consent ++ voter).

Definition governance_id (i : GovernanceIntent) : Hash256 :=
  domain_hash GOVERNANCE_REQUEST (governance_to_bytes i).

Definition governance_approval_hash (i : GovernanceIntent) (voter : ValidatorId) : Hash256 :=
  domain_hash GOVERNANCE_APPROVAL (governance_id i ++ voter).
End approvals.

(** ** The signer *)

Section durable.
Context {blake : Blake2s} {ed : Ed25519}.

Record DurableSigner := mkSigner {
  ds_seed : bytes;
  ds_public_key : bytes;
  ds_validator : ValidatorId;
  ds_handle : KeyHandle;
  ds_context : SigningContext;
  ds_journal : Journal;
  ds_anchor : option AnchorStore
}.

Definition with_journal (s : DurableSigner) (j : Journal) : DurableSigner :=
  mkSigner (ds_seed s) (ds_public_key s) (ds_validator s) (ds_handle s) (ds_context s) j
    (ds_anchor s).

Definition with_anchor (s : DurableSigner) (a : option AnchorStore) : DurableSigner :=
  mkSigner (ds_seed s) (ds_public_key s) (ds_validator s) (ds_handle s) (ds_context s)
    (ds_journal s) a.

(** Where [initialize] takes the journal from. *)
Inductive JournalSource :=
| CreateJournal (protected : bool) (io : Persist)
| OpenJournal (file : bytes) (sync_ok : bool).

Definition initialize (context : SigningContext) (seed : bytes) (source : JournalSource)
    : result DurableSigner KeystoreError :=
  let? _ := reject_if (hash_is_zero (sc_genesis context)) ContextMismatch in
  let public_key := ed25519_public_key seed in
  let validator := blake2s public_key in
  let? journal := match source with
                  | CreateJournal protected io => snd (create_mode context public_key protected io)
                  | OpenJournal file sync_ok => journal_open context public_key file sync_ok
                  end in
  Ok (mkSigner seed public_key validator (mkHandle (hash_to_string validator) ConsensusKey) context
        journal None).

Definition create_anchor (context : SigningContext) (seed file : bytes) (sync_ok : bool)
    (io : Persist) : result DurableSigner KeystoreError :=
  let? signer := initialize context seed (OpenJournal file sync_ok) in
  let? store := snd (anchor_create context (ds_public_key signer) (j_identity (ds_journal signer))
                       (journal_state (ds_journal signer)) io) in
  Ok (with_anchor signer (Some store)).

(** The anchor file after the call, and the signer. *)
Definition open_with_anchor (context : SigningContext) (seed file anchor : bytes)
    (sync_ok anchor_sync_ok : bool) (io : Persist) : bytes * result DurableSigner KeystoreError :=
  match initialize context seed (OpenJournal file sync_ok) with
  | Err error => (anchor, Err error)
  | Ok signer =>
      match anchor_open context (ds_public_key signer) (j_identity (ds_journal signer)) anchor
              anchor_sync_ok with
      | Err error => (anchor, Err error)
      | Ok store =>
          let '(store, outcome) :=
            anchor_reconcile store (journal_state (ds_journal signer))
              (j_previous (ds_journal signer)) io in
          (an_file store, let? _ := outcome in Ok (with_anchor signer (Some store)))
      end
  end.

Definition anchor_sequence (s : DurableSigner) : option Z :=
  option_map (λ a, js_sequence (anchor_latest a)) (ds_anchor s).

Definition witness (s : DurableSigner) (io : Persist)
    : DurableSigner * result unit KeystoreError :=
  match ds_anchor s with
  | Some store =>
      let '(store, outcome) := anchor_commit store (journal_state (ds_journal s)) io in
      (with_anchor s (Some store), outcome)
  | None => (s, Ok tt)
  end.

Definition anchor_ready (s : DurableSigner) : result unit KeystoreError :=
  reject_if match ds_anchor s with Some store => an_poisoned store | None => false end
    DurabilityUnknown.

Definition signer_validator_id (s : DurableSigner) (handle : KeyHandle)
    : result ValidatorId KeystoreError :=
  let? _ := reject_if (negb (bool_decide (kh_purpose handle = ConsensusKey))) KeystoreWrongPurpose in
  let? _ := reject_if (negb (bool_decide (kh_id handle = kh_id (ds_handle s)))) UnknownKey in
  Ok (ds_validator s).

(** The outcomes of the three writes a signature may need. *)
Record Writes := mkWrites { io_activate : Persist; io_journal : Persist; io_anchor : Persist }.

Definition sign_entry (s : DurableSigner) (handle : KeyHandle) (position : SigningPosition)
    (message : Hash256) (safety : option SigningSafety) (w : Writes)
    : DurableSigner * result bytes KeystoreError :=
  match signer_validator_id s handle with
  | Err error => (s, Err error)
  | Ok _ =>
      match anchor_ready s with
      | Err error => (s, Err error)
      | Ok _ =>
          let '(journal, outcome) :=
            reserve_entry (ds_journal s) position message safety (io_activate w) (io_journal w) in
          let s := with_journal s journal in
          match outcome with
          | Err error => (s, Err error)
          | Ok _ =>
              let '(s, outcome) := witness s (io_anchor w) in
              (s, let? _ := outcome in Ok (ed25519_sign (ds_seed s) message))
          end
      end
  end.

Definition sign_protected (s : DurableSigner) (handle : KeyHandle) (position : SigningPosition)
    (message : Hash256) (safety : SigningSafety) (w : Writes)
    : DurableSigner * result bytes KeystoreError :=
  sign_entry s handle position message (Some safety) w.

Definition sign_consensus (s : DurableSigner) (handle : KeyHandle) (position : SigningPosition)
    (message : Hash256) (w : Writes) : DurableSigner * result bytes KeystoreError :=
  sign_entry s handle position message None w.

(** The height and committee an approval must not contradict. *)
Definition approval_context (s : DurableSigner) (height : Z) (committee_root : Hash256)
    : result unit KeystoreError :=
  match last_position (ds_journal s) with
  | None => Ok tt
  | Some position =>
      let? _ := reject_if (height <? sp_height position) StalePosition in
      reject_if ((sp_height position =? height)
                 && match j_safety (ds_journal s) with
                    | Some safety => negb (bool_decide (ss_committee_root safety = committee_root))
                    | None => true
                    end) InvalidSafety
  end.

Definition approve_admission (s : DurableSigner) (intent : AdmissionIntent) (consent : bytes)
    : result bytes KeystoreError :=
  let? _ := reject_if (negb (j_protected (ds_journal s))) InvalidSafety in
  let? _ := reject_if (negb (ai_chain_id intent =? sc_chain_id (ds_context s))
                       || negb (bool_decide (ai_genesis intent = sc_genesis (ds_context s))))
              ContextMismatch in
  let? _ := reject_if (negb (verify_consent intent consent)) InvalidSafety in
  let? _ := approval_context s (ai_height intent) (ai_committee_root intent) in
  Ok (ed25519_sign (ds_seed s) (admission_approval_hash intent consent (ds_validator s))).

Definition approve_governance (s : DurableSigner) (intent : GovernanceIntent)
    : result bytes KeystoreError :=
  let? _ := reject_if (negb (j_protected (ds_journal s)) || negb (is_ok (governance_validate intent)))
              InvalidSafety in
  let? _ := reject_if (negb (gi_chain_id intent =? sc_chain_id (ds_context s))
                       || negb (bool_decide (gi_genesis intent = sc_genesis (ds_context s))))
              ContextMismatch in
  let? _ := approval_context s (gi_height intent) (gi_committee_root intent) in
  Ok (ed25519_sign (ds_seed s) (governance_approval_hash intent (ds_validator s))).
End durable.

(** ** Journal states as the anchor sees them *)

Section anchored.
Context {blake : Blake2s} {ed : Ed25519}.
Context (context : SigningContext) (seed : bytes).
Context (genesis_sized : sized 32 (sc_genesis context)).
Implicit Types (j : Journal) (e : Entry) (a : AnchorStore).

Abbreviation public_key := (ed25519_public_key seed).

Lemma key_sized : sized 32 public_key.
Proof. apply sk_public_sized. Qed.

#[local] Hint Resolve key_sized : core.

Lemma wf_identity j :
  journal_wf context public_key j → j_identity j = header_checksum context public_key (j_protected j).
Proof.
  intros [protected es _|es r _].
  - destruct (flat_fixed context public_key protected es) as (_ & _ & -> & _ & -> & _). done.
  - apply (flat_fixed context public_key true es).
Qed.

Lemma apply_all_tip_sized j n es : sized 32 (j_tip j) → sized 32 (j_tip (apply_all j n es)).
Proof.
  revert j n. induction es as [|e es IH]; intros j n Hj; [done|]. apply IH. apply record_hash_length.
Qed.

Lemma flat_tip_sized protected es : sized 32 (j_tip (flat context public_key protected es)).
Proof. apply apply_all_tip_sized, domain_hash_sized. Qed.

Lemma view_state_ok j v :
  view j = Some v → entry_ok (j_protected j) v → u64 (j_count j) → 0 < j_count j →
  sized 32 (j_tip j) → state_ok (journal_state j).
Proof.
  unfold view, state_ok, journal_state, state_at, last_position. cbn.
  destruct (j_last j) as [[p m]|]; [|done]. intros [= <-] (Hp & Hm & _) Hc H0 Ht. cbn in *.
  by split_and!.
Qed.

Lemma wf_state_ok j : journal_wf context public_key j → state_ok (journal_state j).
Proof.
  intros Hwf. assert (Hv := λ v, view_entry_ok context public_key j v Hwf).
  destruct Hwf as [protected es Hok|es r Hro].
  - destruct (flat_fixed context public_key protected es) as (_ & Hc & _ & _ & Hp & _).
    destruct Hok as (_ & Hmax & _). unfold MAX_JOURNAL_RECORDS in Hmax.
    destruct es as [|e es _] using rev_ind; [|pose proof (flat_last context public_key protected es e) as [Hl Hs]].
    + unfold state_ok, journal_state, state_at. rewrite Hc. cbn. unfold fits.
      split_and!; [done|done|done|apply domain_hash_sized|done|done].
    + apply (view_state_ok _ (mkEntry (e_position e) (e_message e) (e_safety e))).
      * unfold view. by rewrite Hl, Hs.
      * apply Hv. unfold view. by rewrite Hl, Hs.
      * rewrite Hc. unfold fits. pose proof (len_nonneg (es ++ [e])). lia.
      * rewrite Hc. pose proof (len_nonneg es). len_lia.
      * apply flat_tip_sized.
  - destruct Hro as (_ & _ & b & _ & Hs). destruct (latest_slot _ _ Hs) as (i & Hu & _ & Hge & _).
    eapply view_state_ok; [done|by apply Hv|done| |apply flat_tip_sized].
    cbn [rolled j_count]. unfold MAX_JOURNAL_RECORDS in Hge. lia.
Qed.

(** A decision takes the journal to the state right behind the one before. *)
Lemma decided_succeeds j e j' :
  admits j e → decided context public_key j e j' →
  succeeds_state (journal_state j) (journal_state j').
Proof.
  intros [Hlt _] (_ & Hv & Hc & _). unfold succeeds_state, journal_state, state_at, last_position.
  cbn [js_sequence js_position]. split; [done|].
  unfold view in Hv. destruct (j_last j') as [[p' m']|]; [|done]. injection Hv as <-.
  destruct (j_last j) as [[p m]|]; done.
Qed.

Lemma reserve_decided protected log j e io1 io2 j' :
  instance_ok context public_key (λ _, True) protected log j → request_ok e →
  reserve_entry j (e_position e) (e_message e) (e_safety e) io1 io2 = (j', Ok tt) →
  journal_wf context public_key j ∧ (j' = j ∨ admits j e ∧ decided context public_key j e j').
Proof using genesis_sized.
  intros Hi Hreq H. destruct (j_poisoned j) eqn:Hpo; [by rewrite poisoned_reserve in H|].
  destruct (instance_healthy _ _ genesis_sized key_sized _ _ _ _ Hi Hpo) as (Hwf & _).
  split; [done|]. destruct (reserve_entry_cases _ _ genesis_sized key_sized j e io1 io2 Hwf Hreq)
    as [(err & E & _)|[(He & Hv & E)|(He & Ha & Hc & E)]]; rewrite E in H; [done|..].
  - left. congruence.
  - right. split; [done|]. apply write_decision_success in H.
    destruct (write_decision_ok _ _ genesis_sized key_sized j e Hwf He Ha Hc) as (j1 & E1 & Hd).
    congruence.
Qed.
(** ** The pair of files *)

Context (protected : bool) (genesis_nonzero : hash_is_zero (sc_genesis context) = false).

Abbreviation identity := (header_checksum context public_key protected).
Abbreviation anchor_reopen := (anchor_open context public_key identity).
Abbreviation journal_reopen := (journal_open context public_key).

Lemma identity_sized : sized 32 identity.
Proof. apply domain_hash_sized. Qed.

#[local] Hint Resolve identity_sized : core.

(** The file of [j0], or what an interrupted write of [pending] left of it. *)
Definition journal_side j0 (pending : option Entry) (file : bytes) : Prop :=
  journal_wf context public_key j0 ∧ j_protected j0 = protected
  ∧ match pending with
    | None => file = j_file j0
    | Some e => entry_ok protected e ∧ admits j0 e ∧ capacity j0
                ∧ restart_outcome context public_key j0 e (journal_reopen file true)
    end.

Definition anchor_side a0 (pending : option JournalState) (file : bytes) : Prop :=
  anchor_wf context public_key identity a0
  ∧ take 140 file = anchor_header context public_key identity
  ∧ match pending with
    | None => file = an_file a0
    | Some st => state_ok st ∧ succeeds_state (anchor_latest a0) st
                 ∧ (anchor_reopen file true = Err InvalidJournal
                    ∨ anchor_reopen file true = Ok a0
                    ∨ anchor_reopen file true = Ok (anchor_next context public_key identity a0 st))
    end.

(** The anchor witnessed the last decision, or all but the last one. *)
Definition synced j0 a0 : Prop := anchor_latest a0 = journal_state j0.
Definition ahead j0 a0 : Prop :=
  j_previous j0 = Some (anchor_latest a0) ∧ succeeds_state (anchor_latest a0) (journal_state j0).

(** No released decision is newer than the anchor. *)
Definition witnessed (released : list JournalState) a0 : Prop :=
  ∀ st, st ∈ released → st = anchor_latest a0 ∨ js_sequence st < js_sequence (anchor_latest a0).

Definition files_ok (released : list JournalState) (jf af : bytes) : Prop :=
  ∃ j0 pj a0 pa, journal_side j0 pj jf ∧ anchor_side a0 pa af ∧ witnessed released a0
    ∧ (synced j0 a0 ∧ pa = None
       ∨ ahead j0 a0 ∧ pj = None ∧ (pa = None ∨ pa = Some (journal_state j0))).

Definition signer_at j (anchor : option AnchorStore) : DurableSigner :=
  mkSigner seed public_key (blake2s public_key)
    (mkHandle (hash_to_string (blake2s public_key)) ConsensusKey) context j anchor.

(** A running signer: both halves healthy and in step, or one of them poisoned by
    an interrupted write. *)
Definition live_ok (released : list JournalState) (s : DurableSigner) : Prop :=
  ∃ j a j0 a0, s = signer_at j (Some a) ∧ witnessed released a0
    ∧ ((j = j0 ∧ a = a0 ∧ synced j0 a0 ∧ journal_side j0 None (j_file j)
          ∧ anchor_side a0 None (an_file a))
       ∨ (j_poisoned j = true ∧ a = a0 ∧ synced j0 a0 ∧ anchor_side a0 None (an_file a)
          ∧ ∃ e, journal_side j0 (Some e) (j_file j))
       ∨ (j = j0 ∧ an_poisoned a = true ∧ ahead j0 a0 ∧ journal_side j0 None (j_file j)
          ∧ anchor_side a0 (Some (journal_state j0)) (an_file a))).

Inductive Stage :=
| Live (s : DurableSigner)
| Stopped (journal anchor : bytes).

(** Hash collisions an interrupted write could run into. *)
Definition sign_hazard (s : DurableSigner) e (w : Writes) : Prop :=
  slot_hazard (ds_journal s) e (io_journal w)
  ∨ match ds_anchor s with
    | Some a => anchor_hazard context public_key identity a
                  (journal_state (fst (reserve_entry (ds_journal s) (e_position e) (e_message e)
                                         (e_safety e) (io_activate w) (io_journal w))))
                  (io_anchor w)
    | None => False
    end.

Definition start_hazard (jf af : bytes) (io : Persist) : Prop :=
  ∃ j a, journal_reopen jf true = Ok j ∧ anchor_reopen af true = Ok a
    ∧ anchor_hazard context public_key identity a (journal_state j) io.

(** A signer with an anchor: it is provisioned, asked for signatures, stopped at
    any moment (also in the middle of a write) and started again from the two
    files.  [released] are the journal states behind the released signatures. *)
Inductive anchored_runs : list JournalState → Stage → Prop :=
| ar_provision s0 s :
    initialize context seed (CreateJournal protected Persisted) = Ok s0 →
    create_anchor context seed (j_file (ds_journal s0)) true Persisted = Ok s →
    anchored_runs [] (Live s)
| ar_sign released s handle e w s' outcome :
    anchored_runs released (Live s) → request_ok e → ¬ sign_hazard s e w →
    sign_entry s handle (e_position e) (e_message e) (e_safety e) w = (s', outcome) →
    anchored_runs (if is_ok outcome then journal_state (ds_journal s') :: released else released)
      (Live s')
| ar_stop released s a :
    anchored_runs released (Live s) → ds_anchor s = Some a →
    anchored_runs released (Stopped (j_file (ds_journal s)) (an_file a))
| ar_start released jf af io af' outcome :
    anchored_runs released (Stopped jf af) → ¬ start_hazard jf af io →
    open_with_anchor context seed jf af true true io = (af', outcome) →
    anchored_runs released match outcome with Ok s => Live s | Err _ => Stopped jf af' end.

(** ** Signing *)

Lemma live_files released j a :
  live_ok released (signer_at j (Some a)) → files_ok released (j_file j) (an_file a).
Proof.
  intros (j1 & a1 & j0 & a0 & [= <- <-] & Hw & Hc).
  destruct Hc as [(-> & -> & Hs & Hj & Ha)|[(_ & -> & Hs & Ha & e & Hj)|(-> & _ & Hs & Hj & Ha)]].
  - exists j0, None, a0, None. auto 6.
  - exists j0, (Some e), a0, None. auto 6.
  - exists j0, None, a0, (Some (journal_state j0)). auto 8.
Qed.

Lemma witnessed_next released a0 st :
  witnessed released a0 → succeeds_state (anchor_latest a0) st →
  ∀ a1, anchor_latest a1 = st → witnessed (st :: released) a1 ∧ witnessed released a1.
Proof.
  intros Hw [Hn _] a1 Ha1.
  assert (witnessed released a1) as Hr.
  { intros x Hx. rewrite Ha1. right. destruct (Hw x Hx) as [-> |?]; lia. }
  split; [|done]. intros x [-> |Hx]%elem_of_cons; [by left|by apply Hr].
Qed.

Lemma sign_entry_cases j a handle e w s' outcome :
  sign_entry (signer_at j (Some a)) handle (e_position e) (e_message e) (e_safety e) w
  = (s', outcome) →
  (∃ error, s' = signer_at j (Some a) ∧ outcome = Err error)
  ∨ (an_poisoned a = false
     ∧ ∃ j' res, reserve_entry j (e_position e) (e_message e) (e_safety e) (io_activate w)
                   (io_journal w) = (j', res)
       ∧ match res with
         | Err error => s' = signer_at j' (Some a) ∧ outcome = Err error
         | Ok _ => ∃ a' r, anchor_commit a (journal_state j') (io_anchor w) = (a', r)
                     ∧ s' = signer_at j' (Some a')
                     ∧ outcome = match r with
                                 | Ok _ => Ok (ed25519_sign seed (e_message e))
                                 | Err error => Err error
                                 end
         end).
Proof.
  unfold sign_entry, anchor_ready. intros H.
  destruct (signer_validator_id _ _); [|left; injection H as <- <-; eauto].
  cbn [signer_at ds_anchor] in H. destruct (an_poisoned a) eqn:Hp; simpl in H.
  { left. injection H as <- <-. eauto. }
  right. split; [done|].
  destruct (reserve_entry _ _ _ _ _ _) as [j' res] eqn:Er. exists j', res. split; [done|].
  destruct res; [|by injection H as <- <-].
  unfold witness in H. cbn [with_journal ds_anchor signer_at ds_journal] in H.
  destruct (anchor_commit _ _ _) as [a' r]. exists a', r. split; [done|].
  by destruct r; injection H as <- <-.
Qed.

(** A commit of the state behind the latest one, with its outcome. *)
Lemma commit_ahead a0 st io a' r :
  anchor_wf context public_key identity a0 → state_ok st → succeeds_state (anchor_latest a0) st →
  ¬ anchor_hazard context public_key identity a0 st io →
  anchor_commit a0 st io = (a', r) →
  (r = Ok tt ∧ anchor_wf context public_key identity a' ∧ anchor_latest a' = st)
  ∨ (r = Err DurabilityUnknown ∧ an_poisoned a' = true ∧ anchor_side a0 (Some st) (an_file a')).
Proof using genesis_sized.
  intros Hwf Hst Hs Hhaz H.
  rewrite (anchor_commit_next _ _ _ genesis_sized key_sized identity_sized) in H by done.
  destruct io as [|k].
  - left. injection H as <- <-. split; [done|]. by apply anchor_next_wf.
  - right. injection H as <- <-. split; [done|]. split; [done|]. split; [done|].
    cbn [anchor_poison an_file]. split; [by apply anchor_torn_header|].
    split; [done|]. split; [done|].
    destruct (anchor_open_torn _ _ _ genesis_sized key_sized identity_sized a0 st k Hwf Hst Hs)
      as [E|[E|[E|E]]]; [auto..|done].
Qed.

Lemma commit_same a0 st io :
  an_poisoned a0 = false → anchor_latest a0 = st → anchor_commit a0 st io = (a0, Ok tt).
Proof. intros Hp Hl. unfold anchor_commit. by rewrite Hp, bool_decide_eq_true_2. Qed.

Lemma anchor_wf_side a0 :
  anchor_wf context public_key identity a0 → anchor_side a0 None (an_file a0).
Proof using genesis_sized.
  intros Hwf. split; [done|]. split; [|done].
  by apply (anchor_wf_header _ _ _ genesis_sized key_sized identity_sized).
Qed.

Lemma anchor_wf_healthy a0 : anchor_wf context public_key identity a0 → an_poisoned a0 = false.
Proof. by intros (? & ? & _ & _ & _ & ->). Qed.
(** Reserving on a healthy journal. *)
Lemma reserve_side j0 e io1 io2 j' res :
  journal_side j0 None (j_file j0) → request_ok e → ¬ slot_hazard j0 e io2 →
  reserve_entry j0 (e_position e) (e_message e) (e_safety e) io1 io2 = (j', res) →
  (j' = j0 ∧ (res = Ok tt → view j0 = Some e))
  ∨ (res = Ok tt ∧ admits j0 e ∧ decided context public_key j0 e j')
  ∨ (∃ error, res = Err error ∧ j_poisoned j' = true ∧ journal_side j0 (Some e) (j_file j')).
Proof using genesis_sized.
  intros (Hwf & Hp & _) Hreq Hhaz H.
  destruct (reserve_entry_cases _ _ genesis_sized key_sized j0 e io1 io2 Hwf Hreq)
    as [(err & E & _)|[(He & Hv & E)|(He & Ha & Hc & E)]]; rewrite E in H.
  - left. injection H as <- <-. done.
  - left. by injection H as <- <-.
  - right. destruct res as [[]|err].
    + left. apply write_decision_success in H.
      destruct (write_decision_ok _ _ genesis_sized key_sized j0 e Hwf He Ha Hc) as (j1 & E1 & Hd).
      rewrite E1 in H. injection H as <-. done.
    + right. exists err. split; [done|].
      destruct (write_decision_crash _ _ genesis_sized key_sized j0 e io1 io2 j' err Hwf He Ha Hc H)
        as (_ & Hpo & [Hout|?]); [|done]. split; [done|]. rewrite Hp in He. by split_and!.
Qed.

Lemma decided_side j0 e j1 :
  journal_side j0 None (j_file j0) → decided context public_key j0 e j1 →
  journal_side j1 None (j_file j1).
Proof. intros (_ & Hp & _) (Hwf & _ & _ & _ & Hp' & _). split_and!; [done|congruence|done]. Qed.

Lemma sign_live released s handle e w s' outcome :
  live_ok released s → request_ok e → ¬ sign_hazard s e w →
  sign_entry s handle (e_position e) (e_message e) (e_safety e) w = (s', outcome) →
  live_ok (if is_ok outcome then journal_state (ds_journal s') :: released else released) s'.
Proof using genesis_sized.
  intros Hlive Hreq Hhaz H. assert (Hl := Hlive).
  destruct Hl as (j & a & j0 & a0 & -> & Hw & Hc).
  apply sign_entry_cases in H as [(err & -> & ->)|(Hap & j' & res & Er & H)]; [done|].
  destruct Hc as [(-> & -> & Hs & Hj & Ha)|[(Hpo & -> & Hs & Ha & e0 & Hj)|(_ & Hpa & _)]]; cycle 1.
  { rewrite poisoned_reserve in Er by done. injection Er as <- <-. destruct H as [-> ->]. done. }
  { congruence. }
  assert (¬ slot_hazard j0 e (io_journal w)) as Hh1 by (intros ?; apply Hhaz; by left).
  assert (¬ anchor_hazard context public_key identity a0 (journal_state j') (io_anchor w)) as Hh2.
  { intros ?. apply Hhaz. right. cbn [signer_at ds_anchor ds_journal]. by rewrite Er. }
  destruct (reserve_side _ _ _ _ _ _ Hj Hreq Hh1 Er) as [[-> Hv]|[(-> & Had & Hd)|(err & -> & Hpo & Hj')]].
  - destruct res as [[]|err]; [|by destruct H as [-> ->]]. destruct H as (a' & r & Ec & -> & ->).
    rewrite commit_same in Ec by done. injection Ec as <- <-. cbn [is_ok signer_at ds_journal].
    exists j0, a0, j0, a0. split; [done|]. split; [|left; done].
    intros x [-> |Hx]%elem_of_cons; [left; by rewrite Hs|by apply Hw].
  - destruct H as (a' & r & Ec & -> & ->). pose proof (decided_succeeds _ _ _ Had Hd) as Hsucc.
    rewrite <- Hs in Hsucc. assert (Hd' := Hd). destruct Hd' as (Hwf' & _ & _ & Hprev & _).
    pose proof (wf_state_ok _ Hwf') as Hst.
    destruct (commit_ahead a0 _ _ _ _ (proj1 Ha) Hst Hsucc Hh2 Ec)
      as [(-> & Hwa & Hla)|(-> & Hpa & Hsa)]; cbn [is_ok signer_at ds_journal].
    + destruct (witnessed_next released a0 _ Hw Hsucc a' Hla) as [Hw' _].
      exists j', a', j', a'. split; [done|]. split; [done|]. left.
      do 3 (split; [done|]). split; [by apply (decided_side j0 e j')|by apply anchor_wf_side].
    + exists j', a', j', a0. split; [done|]. split; [done|]. right; right.
      do 2 (split; [done|]). split; [split; [by rewrite Hprev, Hs|done]|].
      split; [by apply (decided_side j0 e j')|done].
  - destruct H as [-> ->]. cbn [is_ok]. exists j', a0, j0, a0. split; [done|]. split; [done|].
    right; left. do 4 (split; [done|]). by exists e.
Qed.
(** ** Starting *)

Lemma observe_sides j1 j0 a0 :
  observe j1 = observe j0 → (synced j0 a0 → synced j1 a0) ∧ (ahead j0 a0 → ahead j1 a0).
Proof.
  intros H. assert (journal_state j1 = journal_state j0) as Hs by exact (f_equal (λ o, o.1.1.1.1) H).
  assert (j_previous j1 = j_previous j0) as Hp by exact (f_equal (λ o, o.1.1.1.2) H).
  unfold synced, ahead. by rewrite Hs, Hp.
Qed.

(** Whatever was interrupted, a journal and an anchor that open fit together. *)
Lemma open_sides released jf af j a :
  files_ok released jf af → journal_reopen jf true = Ok j → anchor_reopen af true = Ok a →
  journal_side j None (j_file j) ∧ anchor_side a None (an_file a) ∧ witnessed released a
  ∧ (synced j a ∨ ahead j a).
Proof using genesis_sized.
  intros (j0 & pj & a0 & pa & (Hwf & Hp & Hj) & (Hwa & Hhd & Ha) & Hw & Hc) Ej Ea.
  destruct Hc as [[Hs ->]|(Hs & -> & Hpa)].
  - subst af. rewrite (anchor_open_wf _ _ _ genesis_sized key_sized identity_sized) in Ea by done.
    injection Ea as <-. destruct pj as [e|].
    + destruct Hj as (He & Had & Hcap & Hout). rewrite Ej in Hout.
      destruct Hout as [?|(j1 & [= <-] & Hwf' & [Hobs|Hdec])]; [done|..].
      * split; [split; [done|split; [|done]]|].
        { rewrite <- Hp. exact (f_equal (λ o, o.2) Hobs). }
        split; [by apply anchor_wf_side|]. split; [done|]. left. by apply (observe_sides j j0).
      * rewrite <- Hp in He.
        destruct (write_decision_ok _ _ genesis_sized key_sized j0 e Hwf He Had Hcap) as (j1 & E1 & Hd).
        rewrite E1 in Hdec. injection Hdec as ->.
        pose proof (decided_succeeds _ _ _ Had Hd) as Hsucc.
        destruct Hd as (_ & _ & _ & Hprev & Hp' & _). rewrite <- Hs in Hsucc, Hprev.
        split; [split_and!; [done|congruence|done]|]. split; [by apply anchor_wf_side|]. split; [done|].
        right. by split.
    + subst jf. rewrite (wf_open _ _ genesis_sized key_sized) in Ej by done. injection Ej as <-.
      split; [done|]. split; [by apply anchor_wf_side|]. split; [done|]. by left.
  - subst jf. rewrite (wf_open _ _ genesis_sized key_sized) in Ej by done. injection Ej as <-.
    split; [done|]. destruct Hpa as [-> | ->].
    + subst af. rewrite (anchor_open_wf _ _ _ genesis_sized key_sized identity_sized) in Ea by done.
      injection Ea as <-. split; [by apply anchor_wf_side|]. split; [done|]. by right.
    + destruct Ha as (Hst & Hsucc & Hout). rewrite Ea in Hout.
      destruct Hout as [?|[[= ->]|[= ->]]]; [done|..].
      * split; [by apply anchor_wf_side|]. split; [done|]. by right.
      * destruct (anchor_next_wf context public_key identity a0 _ Hwa Hst Hsucc) as [Hwn Hln].
        split; [by apply anchor_wf_side|]. split; [|by left].
        by apply (witnessed_next released a0 (journal_state j0)).
Qed.
Lemma open_identity released jf af j :
  files_ok released jf af → journal_reopen jf true = Ok j → j_identity j = identity.
Proof using genesis_sized.
  intros (j0 & pj & a0 & pa & (Hwf & Hp & Hj) & _) Ej.
  assert (journal_wf context public_key j ∧ j_protected j = protected) as [Hwj <-];
    [|by apply wf_identity].
  destruct pj as [e|].
  - destruct Hj as (He & Had & Hcap & Hout). rewrite Ej in Hout.
    destruct Hout as [?|(j1 & [= <-] & Hwf' & [Hobs|Hdec])]; [done|..]; (split; [done|]).
    + rewrite <- Hp. exact (f_equal (λ o, o.2) Hobs).
    + rewrite <- Hp in He |- *.
      destruct (write_decision_ok _ _ genesis_sized key_sized j0 e Hwf He Had Hcap) as (j1 & E1 & Hd).
      rewrite E1 in Hdec. injection Hdec as ->. apply Hd.
  - subst jf. rewrite (wf_open _ _ genesis_sized key_sized) in Ej by done. by injection Ej as <-.
Qed.

Lemma initialize_open file :
  initialize context seed (OpenJournal file true)
  = let? journal := journal_reopen file true in Ok (signer_at journal None).
Proof using genesis_nonzero. unfold initialize. by rewrite genesis_nonzero. Qed.

Lemma open_with_anchor_files released jf af io :
  files_ok released jf af →
  open_with_anchor context seed jf af true true io
  = match journal_reopen jf true, anchor_reopen af true with
    | Err error, _ | Ok _, Err error => (af, Err error)
    | Ok journal, Ok store =>
        let '(store, outcome) :=
          anchor_reconcile store (journal_state journal) (j_previous journal) io in
        (an_file store, let? _ := outcome in Ok (signer_at journal (Some store)))
    end.
Proof using genesis_sized genesis_nonzero.
  intros Hf. unfold open_with_anchor. rewrite initialize_open.
  destruct (journal_reopen jf true) as [j|] eqn:Ej; [|done].
  cbn [ds_journal ds_public_key signer_at]. rewrite (open_identity _ _ _ _ Hf Ej).
  destruct (anchor_reopen af true); done.
Qed.

Lemma start_live released jf af io af' outcome :
  files_ok released jf af → ¬ start_hazard jf af io →
  open_with_anchor context seed jf af true true io = (af', outcome) →
  match outcome with Ok s => live_ok released s | Err _ => files_ok released jf af' end.
Proof using genesis_sized genesis_nonzero.
  intros Hf Hhaz H. rewrite (open_with_anchor_files released) in H by done.
  destruct (journal_reopen jf true) as [j|] eqn:Ej; [|by injection H as <- <-].
  destruct (anchor_reopen af true) as [a|] eqn:Ea; [|by injection H as <- <-].
  destruct (open_sides _ _ _ _ _ Hf Ej Ea) as (Hj & Ha & Hw & Hc).
  assert (¬ anchor_hazard context public_key identity a (journal_state j) io) as Hh.
  { intros ?. apply Hhaz. by exists j, a. }
  destruct Hc as [Hs|[Hprev Hsucc]].
  - rewrite reconcile_synced in H by done. injection H as <- <-.
    exists j, a, j, a. split; [done|]. split; [done|]. left. by do 4 (split; [done|]).
  - pose proof (wf_state_ok j (proj1 Hj)) as Hst. rewrite Hprev, reconcile_ahead in H by done.
    destruct (anchor_commit a (journal_state j) io) as [a' r] eqn:Ec.
    destruct (commit_ahead a _ _ _ _ (proj1 Ha) Hst Hsucc Hh Ec) as [(-> & Hwa & Hla)|(-> & Hpa & Hsa)];
      injection H as <- <-.
    + exists j, a', j, a'. split; [done|].
      split; [by apply (witnessed_next released a (journal_state j))|]. left.
      do 4 (split; [done|]). by apply anchor_wf_side.
    + exists j, None, a, (Some (journal_state j)). rewrite (proj1 (open_file _ _ _ _ _ Ej)) in Hj.
      split; [done|]. split; [done|]. split; [done|]. right. split; [by split|]. auto.
Qed.

Lemma provision_live s0 s :
  initialize context seed (CreateJournal protected Persisted) = Ok s0 →
  create_anchor context seed (j_file (ds_journal s0)) true Persisted = Ok s → live_ok [] s.
Proof using genesis_sized genesis_nonzero.
  unfold initialize, create_anchor. rewrite genesis_nonzero. cbn [reject_if].
  rewrite create_fresh. intros [= <-]. cbn [ds_journal]. rewrite initialize_open.
  pose proof (fresh_wf context public_key protected) as [Hwf _].
  rewrite (wf_open _ _ genesis_sized key_sized) by done.
  cbn [signer_at ds_journal ds_public_key snd]. unfold anchor_create, persist, write_at.
  rewrite take_nil, drop_nil, app_nil_l, app_nil_r. intros [= <-].
  set (st := journal_state (fresh context public_key protected)).
  exists (fresh context public_key protected), (anchor_at context public_key identity st st),
    (fresh context public_key protected), (anchor_at context public_key identity st st).
  split; [done|]. split; [by intros x Hx%elem_of_nil|]. left. do 2 (split; [done|]).
  split; [unfold synced, anchor_latest; by case_match|]. split; [done|].
  apply (anchor_wf_side (anchor_at context public_key identity st st)).
  pose proof (wf_state_ok _ Hwf). exists st, st. split; [done|]. split; [done|]. split; [by left|done].
Qed.

Lemma anchored_inv released st :
  anchored_runs released st →
  match st with Live s => live_ok released s | Stopped jf af => files_ok released jf af end.
Proof using genesis_sized genesis_nonzero.
  induction 1 as [s0 s H0 H1|released s handle e w s' outcome _ IH Hreq Hhaz H
                 |released s a _ IH Ha|released jf af io af' outcome _ IH Hhaz H].
  - by apply (provision_live s0).
  - by apply (sign_live _ s handle e w).
  - assert (IH' := IH). destruct IH' as (j & a1 & j0 & a0 & -> & _).
    cbn in Ha. injection Ha as ->. by apply live_files.
  - pose proof (start_live _ _ _ _ _ _ IH Hhaz H). by destruct outcome.
Qed.
(** Opening the anchor of a run, under whatever journal identity. *)
Lemma stopped_anchor released jf af id a :
  files_ok released jf af → sized 32 id →
  anchor_open context public_key id af true = Ok a → witnessed released a.
Proof using genesis_sized.
  intros (j0 & pj & a0 & pa & _ & (Hwa & Hhd & Ha) & Hw & Hc) Hid Ea.
  assert (id = identity) as ->.
  { apply (anchor_header_identity context public_key); [done|apply identity_sized|].
    by rewrite <- (anchor_open_header _ _ _ _ _ _ Ea), Hhd. }
  destruct pa as [st|].
  - destruct Ha as (Hst & Hsucc & [E|[E|E]]); rewrite E in Ea; [done|by injection Ea as <-|].
    injection Ea as <-. destruct (anchor_next_wf context public_key identity a0 _ Hwa Hst Hsucc) as [_ Hl].
    by apply (witnessed_next released a0 st).
  - subst af. rewrite (anchor_open_wf _ _ _ genesis_sized key_sized identity_sized) in Ea by done.
    by injection Ea as <-.
Qed.

(** C12: An anchor refuses rolled-back journals: after any history of signatures,
    interruptions and restarts, whatever bytes are presented as the journal next
    to the current anchor file, if the signer starts at all then that journal is
    not behind any decision whose signature was released, and at the same
    decision count it is in exactly the released state. *)
Theorem rollback_refused released jf af file io af' s st :
  anchored_runs released (Stopped jf af) → st ∈ released →
  open_with_anchor context seed file af true true io = (af', Ok s) →
  st = journal_state (ds_journal s)
  ∨ js_sequence st < js_sequence (journal_state (ds_journal s)).
Proof using genesis_sized genesis_nonzero.
  intros Hf%anchored_inv Hst H. unfold open_with_anchor in H. rewrite initialize_open in H.
  destruct (journal_reopen file true) as [j|] eqn:Ej; [|done].
  cbn [signer_at ds_public_key ds_journal] in H.
  destruct (anchor_open _ _ _ _ _) as [a|] eqn:Ea; [|done].
  pose proof (stopped_anchor _ _ _ _ _ Hf (proj2 (open_file _ _ _ _ _ Ej)) Ea st Hst) as Hw.
  destruct (anchor_reconcile _ _ _ _) as [a' r] eqn:Er. injection H as _ H.
  destruct r as [[]|]; [|done]. injection H as <-. cbn [with_anchor signer_at ds_journal].
  unfold anchor_reconcile in Er.
  destruct (js_sequence (journal_state j) <? _) eqn:E1; [done|].
  destruct (js_sequence (anchor_latest a) =? _) eqn:E2; bool_props.
  { case_bool_decide; [|done]. destruct Hw as [->|?]; [by left|right; lia]. }
  right. destruct Hw as [->|?]; lia.
Qed.

(** C13: A stopped signer starts again: at whatever point of whatever operation it
    stopped, if the two files are readable (no torn record), the journal and the
    anchor agree or the anchor catches up by the one decision it missed, and the
    signer is running on that journal. *)
Theorem restart_available released jf af j a :
  anchored_runs released (Stopped jf af) →
  journal_reopen jf true = Ok j → anchor_reopen af true = Ok a →
  ∃ af' s, open_with_anchor context seed jf af true true Persisted = (af', Ok s)
         ∧ ds_journal s = j ∧ option_map anchor_latest (ds_anchor s) = Some (journal_state j).
Proof using genesis_sized genesis_nonzero.
  intros Hf%anchored_inv Ej Ea. rewrite (open_with_anchor_files released) by done. rewrite Ej, Ea.
  destruct (open_sides _ _ _ _ _ Hf Ej Ea) as (Hj & Ha & Hw & [Hs|[Hprev Hsucc]]).
  - rewrite reconcile_synced by done. do 2 eexists. split; [done|]. split; [done|]. cbn. by rewrite Hs.
  - pose proof (wf_state_ok j (proj1 Hj)) as Hst. rewrite Hprev, reconcile_ahead by done.
    rewrite (anchor_commit_next _ _ _ genesis_sized key_sized identity_sized) by (done || apply Ha).
    do 2 eexists. split; [done|]. split; [done|]. cbn.
    by rewrite (proj2 (anchor_next_wf _ _ _ a _ (proj1 Ha) Hst Hsucc)).
Qed.
End anchored.

(** ** Approvals are not votes *)

Section separation.
Context {blake : Blake2s} {ed : Ed25519}.

(** Operator approvals are domain separated: a digest the signer signs for an
    admission or governance approval is the digest of no vote and of no proposal,
    unless the two explicit preimages collide. *)
Theorem approvals_are_not_votes ai consent gi voter vote proposal digest :
  digest = admission_approval_hash ai consent voter ∨ digest = governance_approval_hash gi voter →
  let votes := domain_preimage domain.CONSENSUS_VOTE (vote_signing_bytes vote) in
  let proposals := domain_preimage domain.CONSENSUS_PROPOSAL (proposal_signing_bytes proposal) in
  let admissions := domain_preimage ADMISSION_APPROVAL (request_id ai consent ++ voter) in
  let governances := domain_preimage GOVERNANCE_APPROVAL (governance_id gi ++ voter) in
  (digest = vote_signing_hash vote → collides admissions votes ∨ collides governances votes)
  ∧ (digest = proposal_signing_hash proposal →
     collides admissions proposals ∨ collides governances proposals).
Proof.
  intros Hd. cbv zeta.
  split; intros E; rewrite E in Hd; destruct Hd as [Hd|Hd]; symmetry in Hd;
    apply domain_hash_binding in Hd as [[? _]|?]; try done; auto.
Qed.
End separation.

(** ** Witnesses *)

Section durable_examples.
#[local] Existing Instance checksum_blake2s.
#[local] Existing Instance checksum_ed25519.

Definition sample_owner : bytes := le 32 77.

Abbreviation owner_key := (ed25519_public_key sample_owner).

Definition sample_unsigned : DurableSigner :=
  signer_at sample_context sample_owner (fresh sample_context owner_key true) None.

Definition ok_or_unsigned {E : Type} (r : result DurableSigner E) : DurableSigner :=
  match r with Ok s => s | Err _ => sample_unsigned end.

Definition sample_anchored : DurableSigner :=
  ok_or_unsigned (create_anchor sample_context sample_owner (j_file (ds_journal sample_unsigned))
                    true Persisted).

Definition sample_sign (s : DurableSigner) (e : Entry) (w : Writes)
    : DurableSigner * result bytes KeystoreError :=
  sign_entry s (ds_handle s) (e_position e) (e_message e) (e_safety e) w.

Definition all_written : Writes := mkWrites Persisted Persisted Persisted.

(** The prevote is released; the precommit reaches the journal but not the anchor. *)
Definition sample_released : DurableSigner := fst (sample_sign sample_anchored sample_prevote all_written).
Definition sample_ahead : DurableSigner :=
  fst (sample_sign sample_released sample_precommit (mkWrites Persisted Persisted (PersistFailed 0))).

Definition sample_store : AnchorStore :=
  match ds_anchor sample_released with
  | Some a => a
  | None => anchor_at sample_context owner_key zero32 (mkJournalState 0 None zero32 zero32)
              (mkJournalState 0 None zero32 zero32)
  end.

Definition anchor_bytes (s : DurableSigner) : bytes :=
  match ds_anchor s with Some a => an_file a | None => [] end.

Abbreviation sample_stage s := (Stopped (j_file (ds_journal s)) (anchor_bytes s)).
Abbreviation owner_runs := (anchored_runs sample_context sample_owner true).

Lemma sample_anchor_some s :
  is_some (ds_anchor s) = true →
  ∃ a, ds_anchor s = Some a ∧ an_file a = anchor_bytes s.
Proof. unfold anchor_bytes. destruct (ds_anchor s); [eauto|done]. Qed.

Lemma sample_run_released :
  owner_runs [journal_state (ds_journal sample_released)] (Live sample_released).
Proof.
  apply (ar_sign _ _ _ [] sample_anchored (ds_handle sample_anchored) sample_prevote all_written
           sample_released (snd (sample_sign sample_anchored sample_prevote all_written))).
  - apply (ar_provision _ _ _ sample_unsigned); vm_compute; reflexivity.
  - apply sample_request_ok.
  - intros [[]|H]. vm_compute in H. done.
  - vm_compute. reflexivity.
Qed.

Lemma sample_run_ahead :
  owner_runs [journal_state (ds_journal sample_released)] (sample_stage sample_ahead).
Proof.
  destruct (sample_anchor_some sample_ahead) as (a & Ha & <-); [by vm_compute|].
  apply (ar_stop _ _ _ _ _ a); [|done].
  apply (ar_sign _ _ _ [journal_state (ds_journal sample_released)] sample_released
           (ds_handle sample_released) sample_precommit
           (mkWrites Persisted Persisted (PersistFailed 0)) sample_ahead (Err DurabilityUnknown)).
  - apply sample_run_released.
  - apply sample_request_ok.
  - intros [[]|H]. vm_compute in H. destruct H as [H _]. by apply H.
  - vm_compute. reflexivity.
Qed.

Definition sample_restarted : bytes * result DurableSigner KeystoreError :=
  open_with_anchor sample_context sample_owner (j_file (ds_journal sample_ahead))
    (anchor_bytes sample_ahead) true true Persisted.

(** The signer starts on its own journal, and not on the one of before. *)
Lemma rollback_refused_witness :
  js_sequence (journal_state (ds_journal sample_released))
  <= js_sequence (journal_state (ds_journal (ok_or_unsigned (snd sample_restarted))))
  ∧ snd (open_with_anchor sample_context sample_owner (j_file (ds_journal sample_anchored))
           (anchor_bytes sample_ahead) true true Persisted) = Err StalePosition.
Proof.
  split; [|vm_compute; reflexivity].
  destruct (rollback_refused sample_context sample_owner eq_refl true eq_refl
    [journal_state (ds_journal sample_released)] (j_file (ds_journal sample_ahead))
    (anchor_bytes sample_ahead) (j_file (ds_journal sample_ahead)) Persisted
    (fst sample_restarted) (ok_or_unsigned (snd sample_restarted))
    (journal_state (ds_journal sample_released)) sample_run_ahead) as [E|E].
  - by apply list_elem_of_here.
  - vm_compute. reflexivity.
  - rewrite E. apply Z.le_refl.
  - apply Z.lt_le_incl. exact E.
Defined.

Lemma restart_available_witness :
  ∃ af' s, open_with_anchor sample_context sample_owner (j_file (ds_journal sample_ahead))
             (anchor_bytes sample_ahead) true true Persisted = (af', Ok s)
           ∧ ds_journal s = ds_journal sample_ahead
           ∧ option_map anchor_latest (ds_anchor s) = Some (journal_state (ds_journal sample_ahead)).
Proof.
  apply (restart_available sample_context sample_owner eq_refl true eq_refl
    [journal_state (ds_journal sample_released)] _ _ _ sample_store sample_run_ahead);
    vm_compute; reflexivity.
Defined.

Definition sample_intent : AdmissionIntent :=
  mkAdmission 7 (le 32 9) 1 (le 32 3) (le 32 5) owner_key.

Definition sample_change : GovernanceIntent :=
  mkGovernance 7 (le 32 9) 1 (le 32 3) (le 32 5) 2 resources_zero resources_zero.
Definition sample_ballot : Vote := mkVote 7 (le 32 5) 1 0 Prevote None (le 32 1) zero64.
Definition sample_offer : Proposal :=
  mkProposal 7 (le 32 9) 1 0 (le 32 5) (le 32 6) (le 32 1) None zero64.

Abbreviation ballot_image :=
  (domain_preimage domain.CONSENSUS_VOTE (vote_signing_bytes sample_ballot)).
Abbreviation offer_image :=
  (domain_preimage domain.CONSENSUS_PROPOSAL (proposal_signing_bytes sample_offer)).
Abbreviation consent_image :=
  (domain_preimage ADMISSION_APPROVAL (request_id sample_intent zero64 ++ le 32 1)).
Abbreviation change_image :=
  (domain_preimage GOVERNANCE_APPROVAL (governance_id sample_change ++ le 32 1)).

Lemma approvals_are_not_votes_witness :
  (admission_approval_hash sample_intent zero64 (le 32 1) = vote_signing_hash sample_ballot →
   collides consent_image ballot_image ∨ collides change_image ballot_image)
  ∧ (admission_approval_hash sample_intent zero64 (le 32 1) = proposal_signing_hash sample_offer →
     collides consent_image offer_image ∨ collides change_image offer_image).
Proof.
  apply (approvals_are_not_votes sample_intent zero64 sample_change (le 32 1) sample_ballot
           sample_offer (admission_approval_hash sample_intent zero64 (le 32 1))).
  left. reflexivity.
Defined.
End durable_examples.
