(* ===== verification/LocalBft.v ===== *)
(** * LocalBft: the local voting rules of one height
    ([src/crates/consensus/src/local.rs])

    One validator's round, step and lock over its durable signer.  Every outgoing
    vote is reserved in the journal together with the lock it is cast under.  The
    checks that precede the reservation are definitions of their own
    ([proposal_draft], [prevote_choice], [precommit_choice]), and each operation is
    its checks followed by the signature.  The caller's validation callback is an
    argument of the operations, as it is in the source. *)

From S2P Require Import Prelude Ordered Codec Types Crypto Votes Committee.
From S2P Require Import Disk Journal Recovery Anchor Durable.

Inductive VotingStep := AwaitingProposal | Prevoted | Precommitted | Finalized.

#[global] Instance VotingStep_eq_dec : EqDecision VotingStep.
Proof. solve_decision. Defined.

Inductive LocalBftError :=
| ConsensusFailed (error : ConsensusError)
| SigningFailed (error : KeystoreError).

(** The journal phase of a vote, and the step behind it. *)
Definition journal_phase (phase : VotePhase) : Z :=
  match phase with Prevote => PREVOTE_PHASE | Precommit => PRECOMMIT_PHASE end.

Definition step_after (phase : VotePhase) : VotingStep :=
  match phase with Prevote => Prevoted | Precommit => Precommitted end.

Definition step_of_phase (phase : Z) : result VotingStep LocalBftError :=
  if phase =? PROPOSAL_PHASE then Ok AwaitingProposal
  else if phase =? PREVOTE_PHASE then Ok Prevoted
  else if phase =? PRECOMMIT_PHASE then Ok Precommitted
  else Err (SigningFailed InvalidPosition).

Section local.
Context {blake : Blake2s} {ed : Ed25519} {host : Host}.

Record LocalBft := mkLocal {
  lb_committee : AuthenticatedCommittee;
  lb_signer : DurableSigner;
  lb_handle : KeyHandle;
  lb_voter : ValidatorId;
  lb_round : Z;
  lb_step : VotingStep;
  lb_locked : option SigningLock;
  lb_finalized : option Hash256
}.

Definition with_signer (b : LocalBft) (signer : DurableSigner) : LocalBft :=
  mkLocal (lb_committee b) signer (lb_handle b) (lb_voter b) (lb_round b) (lb_step b) (lb_locked b)
    (lb_finalized b).

(** The voting position a journal restores at the committee's height. *)
Definition restore_position (c : AuthenticatedCommittee) (s : DurableSigner)
    : result (Z * VotingStep * option SigningLock) LocalBftError :=
  match last_position (ds_journal s) with
  | None => Ok (0, AwaitingProposal, None)
  | Some position =>
      let? _ := reject_if (ac_height c <? sp_height position) (SigningFailed StalePosition) in
      if sp_height position =? ac_height c then
        let? safety := ok_or (j_safety (ds_journal s)) (SigningFailed InvalidSafety) in
        let? _ := reject_if (negb (bool_decide (ss_committee_root safety = ac_root c)))
                    (SigningFailed ContextMismatch) in
        let? step := step_of_phase (sp_phase position) in
        Ok (sp_round position, step, ss_locked safety)
      else Ok (0, AwaitingProposal, None)
  end.

Definition local_new (c : AuthenticatedCommittee) (s : DurableSigner) (genesis : Hash256)
    : result LocalBft LocalBftError :=
  let? _ := reject_if (negb (j_protected (ds_journal s))) (SigningFailed InvalidSafety) in
  let? _ := reject_if (negb (sc_chain_id (ds_context s) =? ac_chain_id c)
                       || negb (bool_decide (sc_genesis (ds_context s) = genesis)))
              (SigningFailed ContextMismatch) in
  let handle := ds_handle s in
  let? voter := map_err SigningFailed (signer_validator_id s handle) in
  let? _ := reject_if (negb (is_some (voting_power c voter))) (ConsensusFailed UnknownVoter) in
  let? (position, locked) := restore_position c s in
  let '(round, step) := position in
  Ok (mkLocal c s handle voter round step locked None).

Definition valid_header (b : LocalBft) (header : BlockHeader) (validate : BlockHeader → bool)
    : bool :=
  (bh_height header =? ac_height (lb_committee b))
  && bool_decide (bh_committee_root header = ac_root (lb_committee b))
  && validate header.

(** The vote before its signature, and the decision the journal reserves for it. *)
Definition draft_vote (b : LocalBft) (phase : VotePhase) (block : option Hash256) : Vote :=
  mkVote (ac_chain_id (lb_committee b)) (ac_root (lb_committee b)) (ac_height (lb_committee b))
    (lb_round b) phase block (lb_voter b) zero64.

Definition vote_entry (vote : Vote) (locked : option SigningLock) : Entry :=
  mkEntry (mkPosition (v_height vote) (v_round vote) (journal_phase (v_phase vote)))
    (vote_signing_hash vote) (Some (mkSafety (v_committee_root vote) locked)).

Definition issue (b : LocalBft) (phase : VotePhase) (block : option Hash256)
    (locked : option SigningLock) (w : Writes) : LocalBft * result Vote LocalBftError :=
  let vote := draft_vote b phase block in
  let '(signer, outcome) :=
    sign_protected (lb_signer b) (lb_handle b)
      (mkPosition (v_height vote) (v_round vote) (journal_phase phase)) (vote_signing_hash vote)
      (mkSafety (v_committee_root vote) locked) w in
  let b := with_signer b signer in
  match outcome with
  | Err error => (b, Err (SigningFailed error))
  | Ok signature =>
      (mkLocal (lb_committee b) (lb_signer b) (lb_handle b) (lb_voter b) (lb_round b)
         (step_after phase) locked (lb_finalized b),
       Ok (mkVote (v_chain_id vote) (v_committee_root vote) (v_height vote) (v_round vote) phase block
             (v_voter vote) signature))
  end.

(** ** Proposals *)

Definition proposal_draft (b : LocalBft) (expected_proposer : ValidatorId) (header : BlockHeader)
    (valid_round : option PrevoteCertificate) (validate : BlockHeader → bool)
    : result Proposal LocalBftError :=
  let? _ := reject_if (negb (bool_decide (lb_step b = AwaitingProposal))
                       || negb (bool_decide (lb_voter b = expected_proposer))
                       || negb (valid_header b header validate))
              (ConsensusFailed InvalidTransition) in
  let proposal :=
    mkProposal (ac_chain_id (lb_committee b)) (sc_genesis (ds_context (lb_signer b)))
      (ac_height (lb_committee b)) (lb_round b) (ac_root (lb_committee b)) (header_hash header)
      (lb_voter b) (option_map pc_round valid_round) zero64 in
  let? _ := map_err ConsensusFailed (verify_valid_round proposal (lb_committee b) valid_round) in
  let? _ := reject_if match lb_locked b with
                      | Some locked =>
                          negb (bool_decide (lock_block locked = p_block proposal))
                          && match valid_round with
                             | Some proof => pc_round proof <=? lock_round locked
                             | None => true
                             end
                      | None => false
                      end (ConsensusFailed InvalidTransition) in
  Ok proposal.

Definition proposal_entry (p : Proposal) (locked : option SigningLock) : Entry :=
  mkEntry (mkPosition (p_height p) (p_round p) PROPOSAL_PHASE) (proposal_signing_hash p)
    (Some (mkSafety (p_committee_root p) locked)).

Definition propose (b : LocalBft) (expected_proposer : ValidatorId) (header : BlockHeader)
    (valid_round : option PrevoteCertificate) (validate : BlockHeader → bool) (w : Writes)
    : LocalBft * result Proposal LocalBftError :=
  match proposal_draft b expected_proposer header valid_round validate with
  | Err error => (b, Err error)
  | Ok p =>
      let '(signer, outcome) :=
        sign_protected (lb_signer b) (lb_handle b)
          (mkPosition (p_height p) (lb_round b) PROPOSAL_PHASE) (proposal_signing_hash p)
          (mkSafety (p_committee_root p) (lb_locked b)) w in
      (with_signer b signer,
       let? signature := map_err SigningFailed outcome in
       Ok (mkProposal (p_chain_id p) (p_genesis p) (p_height p) (p_round p) (p_committee_root p)
             (p_block p) (p_proposer p) (p_valid_round p) signature))
  end.

Definition local_verify_proposal (b : LocalBft) (expected_proposer : ValidatorId) (p : Proposal)
    (header : BlockHeader) (valid_round : option PrevoteCertificate) : result unit LocalBftError :=
  let? _ := reject_if (negb (p_round p =? lb_round b)) (ConsensusFailed InvalidTransition) in
  let? _ := map_err ConsensusFailed
              (verify_proposal (lb_committee b) p header expected_proposer
                 (sc_genesis (ds_context (lb_signer b)))) in
  map_err ConsensusFailed (verify_valid_round p (lb_committee b) valid_round).

(** ** Votes *)

(** The validated header's block, and whether the lock lets it be voted for. *)
Definition proposed_block (b : LocalBft) (header : option BlockHeader)
    (validate : BlockHeader → bool) : option Hash256 :=
  match header with
  | Some header => if valid_header b header validate then Some (header_hash header) else None
  | None => None
  end.

Definition permitted (b : LocalBft) (block : option Hash256)
    (valid_round : option PrevoteCertificate) : bool :=
  match lb_locked b with
  | Some locked =>
      bool_decide (block = Some (lock_block locked))
      || match valid_round with
         | Some proof => lock_round locked <? pc_round proof
         | None => false
         end
  | None => true
  end.

(** The block a prevote names: the validated header's, unless the lock forbids it. *)
Definition prevote_choice (b : LocalBft) (header : option BlockHeader)
    (valid_round : option PrevoteCertificate) (validate : BlockHeader → bool)
    : result (option Hash256) LocalBftError :=
  let? _ := reject_if (negb (bool_decide (lb_step b = AwaitingProposal)
                             || bool_decide (lb_step b = Prevoted)))
              (ConsensusFailed InvalidTransition) in
  let? _ := match valid_round with
            | Some proof =>
                let? _ := map_err ConsensusFailed (prevote_verify_context (lb_committee b) proof) in
                reject_if ((lb_round b <=? pc_round proof)
                           || match header with
                              | Some header => negb (bool_decide (header_hash header = pc_block proof))
                              | None => true
                              end) (ConsensusFailed InvalidCertificate)
            | None => Ok tt
            end in
  let block := proposed_block b header validate in
  Ok (if permitted b block valid_round then block else None).

Definition prevote (b : LocalBft) (header : option BlockHeader)
    (valid_round : option PrevoteCertificate) (validate : BlockHeader → bool) (w : Writes)
    : LocalBft * result Vote LocalBftError :=
  match prevote_choice b header valid_round validate with
  | Err error => (b, Err error)
  | Ok block => issue b Prevote block (lb_locked b) w
  end.

Definition prevote_proposal (b : LocalBft) (expected_proposer : ValidatorId) (p : Proposal)
    (header : BlockHeader) (valid_round : option PrevoteCertificate)
    (validate : BlockHeader → bool) (w : Writes) : LocalBft * result Vote LocalBftError :=
  match local_verify_proposal b expected_proposer p header valid_round with
  | Err error => (b, Err error)
  | Ok _ => prevote b (Some header) valid_round validate w
  end.

Definition precommit_choice (b : LocalBft) (header : BlockHeader) (proof : PrevoteCertificate)
    (validate : BlockHeader → bool) : result SigningLock LocalBftError :=
  let? _ := reject_if (negb (bool_decide (lb_step b = Prevoted)
                             || bool_decide (lb_step b = Precommitted)))
              (ConsensusFailed InvalidTransition) in
  let? _ := map_err ConsensusFailed (prevote_verify_context (lb_committee b) proof) in
  let? _ := reject_if (negb (pc_round proof =? lb_round b)
                       || negb (bool_decide (pc_block proof = header_hash header))
                       || negb (valid_header b header validate))
              (ConsensusFailed InvalidCertificate) in
  Ok (mkLock (lb_round b) (pc_block proof)).

Definition precommit (b : LocalBft) (header : BlockHeader) (proof : PrevoteCertificate)
    (validate : BlockHeader → bool) (w : Writes) : LocalBft * result Vote LocalBftError :=
  match precommit_choice b header proof validate with
  | Err error => (b, Err error)
  | Ok lock => issue b Precommit (Some (lock_block lock)) (Some lock) w
  end.

(** ** Timeouts and finality *)

Definition timely (b : LocalBft) (round : Z) (step : VotingStep) : bool :=
  (round =? lb_round b) && bool_decide (lb_step b = step).

Definition timeout_proposal (b : LocalBft) (round : Z) (w : Writes)
    : LocalBft * result Vote LocalBftError :=
  if timely b round AwaitingProposal then issue b Prevote None (lb_locked b) w
  else (b, Err (ConsensusFailed InvalidTransition)).

Definition timeout_prevote (b : LocalBft) (round : Z) (w : Writes)
    : LocalBft * result Vote LocalBftError :=
  if timely b round Prevoted then issue b Precommit None (lb_locked b) w
  else (b, Err (ConsensusFailed InvalidTransition)).

Definition timeout_precommit (b : LocalBft) (round : Z) : LocalBft * result unit LocalBftError :=
  if timely b round Precommitted then
    match checked_add 32 (lb_round b) 1 with
    | None => (b, Err (ConsensusFailed InvalidTransition))
    | Some next =>
        (mkLocal (lb_committee b) (lb_signer b) (lb_handle b) (lb_voter b) next AwaitingProposal
           (lb_locked b) (lb_finalized b), Ok tt)
    end
  else (b, Err (ConsensusFailed InvalidTransition)).

Definition local_finalize (b : LocalBft) (header : BlockHeader) (certificate : FinalityCertificate)
    (validate : BlockHeader → bool) : LocalBft * result unit LocalBftError :=
  match verify_certificate (lb_committee b) certificate header with
  | Err error => (b, Err (ConsensusFailed error))
  | Ok _ =>
      if negb (valid_header b header validate)
         || match lb_finalized b with
            | Some hash => negb (bool_decide (hash = fc_block certificate))
            | None => false
            end
      then (b, Err (ConsensusFailed InvalidTransition))
      else (mkLocal (lb_committee b) (lb_signer b) (lb_handle b) (lb_voter b) (lb_round b) Finalized
              (lb_locked b) (Some (fc_block certificate)), Ok tt)
  end.
End local.

(** ** One operation after another *)

Section operations.
Context {blake : Blake2s} {ed : Ed25519} {host : Host}.

(** The calls a caller may make. *)
Inductive Op :=
| Propose (proposer : ValidatorId) (header : BlockHeader) (proof : option PrevoteCertificate)
    (validate : BlockHeader → bool)
| PrevoteProposal (proposer : ValidatorId) (proposal : Proposal) (header : BlockHeader)
    (proof : option PrevoteCertificate) (validate : BlockHeader → bool)
| PrevoteHeader (header : option BlockHeader) (proof : option PrevoteCertificate)
    (validate : BlockHeader → bool)
| PrecommitHeader (header : BlockHeader) (proof : PrevoteCertificate)
    (validate : BlockHeader → bool)
| TimeoutProposal (round : Z)
| TimeoutPrevote (round : Z)
| TimeoutPrecommit (round : Z)
| Finalize (header : BlockHeader) (certificate : FinalityCertificate)
    (validate : BlockHeader → bool).

(** What a call releases to the network. *)
Inductive Released :=
| ReleasedVote (vote : Vote)
| ReleasedProposal (proposal : Proposal).

Definition released {A B E : Type} (wrap : A → Released) (outcome : B * result A E)
    : B * option Released :=
  (fst outcome, match snd outcome with Ok a => Some (wrap a) | Err _ => None end).

Definition perform (b : LocalBft) (op : Op) (w : Writes) : LocalBft * option Released :=
  match op with
  | Propose proposer header proof validate =>
      released ReleasedProposal (propose b proposer header proof validate w)
  | PrevoteProposal proposer proposal header proof validate =>
      released ReleasedVote (prevote_proposal b proposer proposal header proof validate w)
  | PrevoteHeader header proof validate =>
      released ReleasedVote (prevote b header proof validate w)
  | PrecommitHeader header proof validate =>
      released ReleasedVote (precommit b header proof validate w)
  | TimeoutProposal round => released ReleasedVote (timeout_proposal b round w)
  | TimeoutPrevote round => released ReleasedVote (timeout_prevote b round w)
  | TimeoutPrecommit round => (fst (timeout_precommit b round), None)
  | Finalize header certificate validate =>
      (fst (local_finalize b header certificate validate), None)
  end.

(** The message a call is about to sign, and the lock it reserves with it. *)
Definition drafted (b : LocalBft) (op : Op) : option (Released * option SigningLock) :=
  let vote phase block lock := Some (ReleasedVote (draft_vote b phase block), lock) in
  match op with
  | Propose proposer header proof validate =>
      match proposal_draft b proposer header proof validate with
      | Ok p => Some (ReleasedProposal p, lb_locked b)
      | Err _ => None
      end
  | PrevoteProposal proposer proposal header proof validate =>
      match local_verify_proposal b proposer proposal header proof with
      | Ok _ => match prevote_choice b (Some header) proof validate with
                | Ok block => vote Prevote block (lb_locked b)
                | Err _ => None
                end
      | Err _ => None
      end
  | PrevoteHeader header proof validate =>
      match prevote_choice b header proof validate with
      | Ok block => vote Prevote block (lb_locked b)
      | Err _ => None
      end
  | PrecommitHeader header proof validate =>
      match precommit_choice b header proof validate with
      | Ok lock => vote Precommit (Some (lock_block lock)) (Some lock)
      | Err _ => None
      end
  | TimeoutProposal round =>
      if timely b round AwaitingProposal then vote Prevote None (lb_locked b) else None
  | TimeoutPrevote round =>
      if timely b round Prevoted then vote Precommit None (lb_locked b) else None
  | TimeoutPrecommit _ | Finalize _ _ _ => None
  end.

Definition release_entry (r : Released) (lock : option SigningLock) : Entry :=
  match r with ReleasedVote v => vote_entry v lock | ReleasedProposal p => proposal_entry p lock end.

Definition release_hash (r : Released) : Hash256 :=
  match r with ReleasedVote v => vote_signing_hash v | ReleasedProposal p => proposal_signing_hash p end.

Definition with_signature (r : Released) (signature : bytes) : Released :=
  match r with
  | ReleasedVote v =>
      ReleasedVote (mkVote (v_chain_id v) (v_committee_root v) (v_height v) (v_round v) (v_phase v)
                      (v_block v) (v_voter v) signature)
  | ReleasedProposal p =>
      ReleasedProposal (mkProposal (p_chain_id p) (p_genesis p) (p_height p) (p_round p)
                          (p_committee_root p) (p_block p) (p_proposer p) (p_valid_round p) signature)
  end.

(** The instance after releasing [r]: votes move the step and set the lock. *)
Definition after_release (b : LocalBft) (s : DurableSigner) (r : Released)
    (lock : option SigningLock) : LocalBft :=
  match r with
  | ReleasedVote v =>
      mkLocal (lb_committee b) s (lb_handle b) (lb_voter b) (lb_round b) (step_after (v_phase v)) lock
        (lb_finalized b)
  | ReleasedProposal _ => with_signer b s
  end.

(** The certificates a call was handed. *)
Definition op_proofs (op : Op) : list PrevoteCertificate :=
  match op with
  | Propose _ _ proof _ | PrevoteProposal _ _ _ proof _ | PrevoteHeader _ proof _ => option_list proof
  | PrecommitHeader _ proof _ => [proof]
  | _ => []
  end.

Lemma release_entry_signature r signature lock :
  release_entry (with_signature r signature) lock = release_entry r lock.
Proof. by destruct r. Qed.

Lemma proposal_draft_shape b proposer header proof validate p :
  proposal_draft b proposer header proof validate = Ok p →
  valid_header b header validate = true ∧
  p = mkProposal (ac_chain_id (lb_committee b)) (sc_genesis (ds_context (lb_signer b)))
        (ac_height (lb_committee b)) (lb_round b) (ac_root (lb_committee b)) (header_hash header)
        (lb_voter b) (option_map pc_round proof) zero64.
Proof. unfold proposal_draft. intros H. bind_inv H. guards. done. Qed.

(** Every call that signs reserves its draft first, and releases the draft with the
    signature, or nothing. *)
Lemma perform_signs b op w r lock :
  drafted b op = Some (r, lock) →
  perform b op w
  = let e := release_entry r lock in
    let '(s, outcome) := sign_entry (lb_signer b) (lb_handle b) (e_position e) (e_message e)
                           (e_safety e) w in
    match outcome with
    | Err _ => (with_signer b s, None)
    | Ok signature => (after_release b s r lock, Some (with_signature r signature))
    end.
Proof.
  assert (∀ phase block lock, released ReleasedVote (issue b phase block lock w)
    = let e := vote_entry (draft_vote b phase block) lock in
      let '(s, outcome) := sign_entry (lb_signer b) (lb_handle b) (e_position e) (e_message e)
                             (e_safety e) w in
      match outcome with
      | Err _ => (with_signer b s, None)
      | Ok signature =>
          (after_release b s (ReleasedVote (draft_vote b phase block)) lock,
           Some (with_signature (ReleasedVote (draft_vote b phase block)) signature))
      end) as Hissue.
  { intros phase block lk. unfold issue, sign_protected. cbn.
    destruct (sign_entry _ _ _ _ _ _) as [s [signature|error]]; done. }
  destruct op; cbn [drafted perform]; try done.
  - destruct (proposal_draft _ _ _ _ _) as [p|] eqn:E; [|done]. intros [= <- <-].
    unfold propose, sign_protected. rewrite E. apply proposal_draft_shape in E as [_ ->]. cbn.
    destruct (sign_entry _ _ _ _ _ _) as [s [signature|error]]; done.
  - destruct (local_verify_proposal _ _ _ _ _) eqn:E1; [|done].
    destruct (prevote_choice _ _ _ _) eqn:E; [|done]. intros [= <- <-].
    unfold prevote_proposal, prevote. rewrite E1, E. apply Hissue.
  - destruct (prevote_choice _ _ _ _) eqn:E; [|done]. intros [= <- <-].
    unfold prevote. rewrite E. apply Hissue.
  - destruct (precommit_choice _ _ _ _) eqn:E; [|done]. intros [= <- <-].
    unfold precommit. rewrite E. apply Hissue.
  - unfold timeout_proposal. destruct (timely _ _ _); [|done]. intros [= <- <-]. apply Hissue.
  - unfold timeout_prevote. destruct (timely _ _ _); [|done]. intros [= <- <-]. apply Hissue.
Qed.

(** The calls that sign nothing: refused ones, the next round, and finality. *)
Lemma perform_quiet b op w b' out :
  drafted b op = None → perform b op w = (b', out) →
  out = None
  ∧ (b' = b
     ∨ (lb_step b = Precommitted ∧ lb_round b + 1 < 2 ^ 32
        ∧ b' = mkLocal (lb_committee b) (lb_signer b) (lb_handle b) (lb_voter b) (lb_round b + 1)
                 AwaitingProposal (lb_locked b) (lb_finalized b))
     ∨ ∃ header certificate validate, op = Finalize header certificate validate
       ∧ verify_certificate (lb_committee b) certificate header = Ok tt
       ∧ valid_header b header validate = true
       ∧ b' = mkLocal (lb_committee b) (lb_signer b) (lb_handle b) (lb_voter b) (lb_round b) Finalized
                (lb_locked b) (Some (fc_block certificate))).
Proof.
  destruct op; cbn [drafted perform].
  - unfold propose. destruct (proposal_draft _ _ _ _ _); [done|]. intros _ [= <- <-]. auto.
  - unfold prevote_proposal, prevote. destruct (local_verify_proposal _ _ _ _ _).
    + destruct (prevote_choice _ _ _ _); [done|]. intros _ [= <- <-]. auto.
    + intros _ [= <- <-]. auto.
  - unfold prevote. destruct (prevote_choice _ _ _ _); [done|]. intros _ [= <- <-]. auto.
  - unfold precommit. destruct (precommit_choice _ _ _ _); [done|]. intros _ [= <- <-]. auto.
  - unfold timeout_proposal. destruct (timely _ _ _); [done|]. intros _ [= <- <-]. auto.
  - unfold timeout_prevote. destruct (timely _ _ _); [done|]. intros _ [= <- <-]. auto.
  - unfold timeout_precommit, timely. intros _. destruct (_ && _) eqn:Et; [|intros [= <- <-]; auto].
    destruct (checked_add 32 (lb_round b) 1) eqn:Ea; intros [= <- <-]; [|by auto].
    apply checked_add_some in Ea as [? ->]. bool_props. split; [done|]. right; left.
    by split_and!.
  - unfold local_finalize. intros _.
    destruct (verify_certificate _ _ _) as [[]|] eqn:Ev; [|intros [= <- <-]; auto].
    destruct (_ || _) eqn:Eg; intros [= <- <-]; [by auto|]. bool_props.
    split; [done|]. right; right. eauto 10.
Qed.

Lemma drafted_locked b op r lock s :
  drafted b op = Some (r, lock) → lb_locked (after_release b s r lock) = lock.
Proof.
  destruct r as [v|p]; [done|]. destruct op; cbn; intros H;
    repeat (case_match; try done); by simplify_eq.
Qed.

Lemma released_vote_shape b op w b' v :
  perform b op w = (b', Some (ReleasedVote v)) →
  v_height v = ac_height (lb_committee b') ∧ v_committee_root v = ac_root (lb_committee b')
  ∧ v_round v = lb_round b' ∧ step_after (v_phase v) = lb_step b'.
Proof.
  destruct (drafted b op) as [[r lock]|] eqn:E.
  2:{ intros H. by destruct (perform_quiet _ _ _ _ _ E H). }
  rewrite (perform_signs _ _ _ _ _ E). cbv zeta.
  destruct (sign_entry _ _ _ _ _ _) as [s [signature|]]; [|done]. intros [= <- Hr].
  destruct r as [u|p]; [|done]. injection Hr as <-.
  assert (∃ phase block, u = draft_vote b phase block) as (phase & block & ->); [|done].
  destruct op; cbn in E; repeat (case_match; try done); simplify_eq; eauto.
Qed.
End operations.
