(* ===== verification/Voting.v ===== *)
(** * Voting: why locked voting with quorum certificates is safe

    The protocol argument apart from its implementation: what the votes of the
    correct validators of one committee must satisfy ([VotingRules]), and that
    then no two blocks gather a quorum of precommits, in whatever rounds
    ([rules_agree]).  [Agreement] shows that executions of the code follow these
    rules.  A rule may fail only together with [hazard], which the implementation
    instantiates with an explicit hash collision. *)

From S2P Require Import Prelude Ordered Codec Types Crypto Votes Committee Journal.

(** A vote of a correct validator at the height, with the lock it was cast under. *)
Record Cast := mkCast {
  ca_phase : VotePhase;
  ca_round : Z;
  ca_block : option Hash256;
  ca_lock : option SigningLock
}.

Section rules.
Context {blake : Blake2s} {ed : Ed25519}.
Context (ac : AuthenticatedCommittee) (faulty : ValidatorId → bool).
Context (cast : ValidatorId → Cast → Prop).
Implicit Types (id : ValidatorId) (B : Hash256).

(** A quorum of distinct members, of which each correct one cast this vote. *)
Definition backed (phase : VotePhase) (r : Z) B : Prop :=
  ∃ ids, NoDup ids ∧ (∀ id, id ∈ ids → id ∈ members ac)
    ∧ quorum ac <= sumZ (power ac) ids
    ∧ ∀ id, id ∈ ids → faulty id = false → ∃ lock, cast id (mkCast phase r (Some B) lock).

Class VotingRules (hazard : Prop) : Prop := {
  (** one vote per round and phase *)
  vr_single id c1 c2 :
    faulty id = false → cast id c1 → cast id c2 →
    ca_phase c1 = ca_phase c2 → ca_round c1 = ca_round c2 →
    ca_block c1 = ca_block c2 ∨ hazard;
  (** a precommit locks its block until a later lock replaces it *)
  vr_locks id c1 c2 B :
    faulty id = false → cast id c1 → cast id c2 →
    ca_phase c1 = Precommit → ca_block c1 = Some B → ca_round c1 < ca_round c2 →
    ∃ l, ca_lock c2 = Some l ∧ (ca_round c1 < lock_round l ∨ l = mkLock (ca_round c1) B);
  (** a prevote's lock comes from an earlier round that had a quorum for it *)
  vr_lock_backed id c l :
    faulty id = false → cast id c → ca_phase c = Prevote → ca_lock c = Some l →
    lock_round l < ca_round c ∧ (backed Prevote (lock_round l) (lock_block l) ∨ hazard);
  (** a prevote against the lock is justified by a quorum newer than the lock *)
  vr_unlock id c l B :
    faulty id = false → cast id c → ca_phase c = Prevote → ca_lock c = Some l →
    ca_block c = Some B →
    B = lock_block l ∨ ∃ r, lock_round l < r < ca_round c ∧ (backed Prevote r B ∨ hazard);
  (** a precommit follows a quorum of prevotes of its round *)
  vr_precommit id c B :
    faulty id = false → cast id c → ca_phase c = Precommit → ca_block c = Some B →
    backed Prevote (ca_round c) B ∨ hazard
}.

Context (committee_ok : context_ok ac).
Context (few_faulty : sumZ (λ id, if faulty id then power ac id else 0) (members ac)
                      < 2 * quorum ac - ac_total ac).

(** Some correct validator took part in both quorums. *)
Lemma backed_meet p1 r1 B1 p2 r2 B2 :
  backed p1 r1 B1 → backed p2 r2 B2 →
  ∃ id l1 l2, faulty id = false ∧ cast id (mkCast p1 r1 (Some B1) l1)
    ∧ cast id (mkCast p2 r2 (Some B2) l2).
Proof using committee_ok few_faulty.
  intros (ids1 & N1 & M1 & Q1 & C1) (ids2 & N2 & M2 & Q2 & C2).
  destruct (honest_in_both ac faulty ids1 ids2) as (id & I1 & I2 & Hf); [done..|].
  destruct (C1 id I1 Hf) as [l1 ?], (C2 id I2 Hf) as [l2 ?]. by exists id, l1, l2.
Qed.

Context (hazard : Prop) {rules : VotingRules hazard}.

(** After a quorum of precommits, later quorums of prevotes are for its block. *)
Lemma later_prevotes r B :
  backed Precommit r B →
  ∀ (n : nat) r' B', r < r' <= r + Z.of_nat n → backed Prevote r' B' → B' = B ∨ hazard.
Proof using committee_ok few_faulty rules.
  intros Hc. induction n as [|n IH]; intros r' B' Hr Hb; [lia|].
  destruct (backed_meet _ _ _ _ _ _ Hc Hb) as (id & l1 & l2 & Hf & Cc & Cp).
  destruct (vr_locks id _ _ B Hf Cc Cp eq_refl eq_refl) as (l & Hl & Hlock); [simpl; lia|].
  simpl in Hl, Hlock. subst l2.
  destruct (vr_lock_backed id _ l Hf Cp eq_refl eq_refl) as [Hlr Hlb]. simpl in Hlr.
  destruct (vr_unlock id _ l B' Hf Cp eq_refl eq_refl eq_refl) as [->|(v & Hv & [Hvb|?])].
  - destruct Hlock as [Hlt| ->]; [|by left]. destruct Hlb as [Hlb|?]; [|by right].
    apply (IH (lock_round l)); [lia|done].
  - simpl in Hv. apply (IH v); [|done]. destruct Hlock as [?| ->]; simpl in *; lia.
  - by right.
Qed.

(** No two blocks gather a quorum of precommits. *)
Lemma rules_agree r1 B1 r2 B2 :
  backed Precommit r1 B1 → backed Precommit r2 B2 → B1 = B2 ∨ hazard.
Proof using committee_ok few_faulty rules.
  assert (∀ r1 B1 r2 B2, r1 < r2 → backed Precommit r1 B1 → backed Precommit r2 B2 →
          B2 = B1 ∨ hazard) as Hlt.
  { clear r1 B1 r2 B2. intros r1 B1 r2 B2 Hr H1 H2.
    destruct (backed_meet _ _ _ _ _ _ H2 H2) as (id & l1 & _ & Hf & Cc & _).
    destruct (vr_precommit id _ B2 Hf Cc eq_refl eq_refl) as [Hb|?]; [|by right].
    apply (later_prevotes r1 B1 H1 (Z.to_nat (r2 - r1)) r2); [lia|done]. }
  intros H1 H2. destruct (Z.lt_trichotomy r1 r2) as [H|[->|H]].
  - destruct (Hlt r1 B1 r2 B2 H H1 H2) as [->|?]; auto.
  - destruct (backed_meet _ _ _ _ _ _ H1 H2) as (id & l1 & l2 & Hf & C1 & C2).
    destruct (vr_single id _ _ Hf C1 C2 eq_refl eq_refl) as [E|?]; [|by right].
    left. simpl in E. congruence.
  - by apply (Hlt r2 B2 r1 B1).
Qed.
End rules.
