(* ===== verification/Agreement.v ===== *)
(** * Agreement: a committee of [LocalBft] nodes never finalizes two blocks

    A network of correct validators, each running [LocalBft] over its durable
    signer, beside faulty members and a network that may say anything.  Correct
    nodes crash in the middle of writes, reopen their journal (with or without an
    anchor), vote at any heights and take any calls in any order.  The theorems
    show that the votes follow [VotingRules], and so that the blocks of two verified
    finality certificates of one height are equal. *)

From S2P Require Import Prelude Ordered Codec Types Crypto Votes Committee.
From S2P Require Import Disk Journal Recovery Anchor Durable LocalBft Voting.

Section network.
Context {blake : Blake2s} {ed : Ed25519} {host : Host}.

(** The chain, the correct validators with their keys, and the committees callers
    trust.  A committee is fixed by its height. *)
Record Network := mkNetwork {
  net_context : SigningContext;
  net_seed : ValidatorId → option bytes;
  net_trusted : AuthenticatedCommittee → Prop
}.

Record network_ok (net : Network) : Prop := {
  net_chain_ok : u32 (sc_chain_id (net_context net));
  net_genesis_ok : sized 32 (sc_genesis (net_context net));
  net_identity id seed : net_seed net id = Some seed → id = blake2s (ed25519_public_key seed);
  net_authenticated c : net_trusted net c → authenticated c ∧ u64 (ac_height c);
  net_unique c1 c2 :
    net_trusted net c1 → net_trusted net c2 → ac_height c1 = ac_height c2 → c1 = c2
}.

Context (net : Network).

Abbreviation context := (net_context net).
Abbreviation trusted := (net_trusted net).

Definition correct (id : ValidatorId) : bool := is_some (net_seed net id).

(** ** One validator *)

Inductive NodeStage :=
| Off (journal : bytes)
| Ready (s : DurableSigner)
| Voting (b : LocalBft).

(** What a node is doing, and all it ever released with the locks reserved for it
    (latest first). *)
Record Node := mkNode {
  n_stage : NodeStage;
  n_log : list (Released * option SigningLock)
}.

Definition stage_file (stage : NodeStage) : bytes :=
  match stage with
  | Off file => file
  | Ready s => j_file (ds_journal s)
  | Voting b => j_file (ds_journal (lb_signer b))
  end.

(** The ways a process comes by its signer: without an anchor, creating one, or
    with whatever anchor file there is. *)
Inductive opens (seed file : bytes) : DurableSigner → Prop :=
| opens_plain s :
    initialize context seed (OpenJournal file true) = Ok s → opens seed file s
| opens_create_anchor io s :
    create_anchor context seed file true io = Ok s → opens seed file s
| opens_with_anchor anchor anchor_sync io anchor' s :
    open_with_anchor context seed file anchor true anchor_sync io = (anchor', Ok s) →
    opens seed file s.

(** A certificate assembled from votes of the network by [from_votes]. *)
Definition known (pool : list Vote) (pc : PrevoteCertificate) : Prop :=
  (∀ v, v ∈ pc_votes pc → v ∈ pool)
  ∧ ∃ c, trusted c ∧ prevote_from_votes c (pc_votes pc) = Ok pc.

(** The finality certificate of a call is assembled from votes of the network. *)
Definition op_certificate_known (pool : list Vote) (op : Op) : Prop :=
  match op with
  | Finalize _ certificate _ =>
      ∀ v, v ∈ map (certificate_vote certificate) (fc_signatures certificate) → v ∈ pool
  | _ => True
  end.

(** A hash collision the slot write of this call could run into. *)
Definition op_hazard (b : LocalBft) (op : Op) (w : Writes) : Prop :=
  match drafted b op with
  | Some (r, lock) => slot_hazard (ds_journal (lb_signer b)) (release_entry r lock) (io_journal w)
  | None => False
  end.

Inductive node_step (pool : list Vote) (seed : bytes) : Node → Node → option Released → Prop :=
| node_open file s log :
    opens seed file s →
    node_step pool seed (mkNode (Off file) log) (mkNode (Ready s) log) None
| node_start s c genesis b log :
    trusted c → local_new c s genesis = Ok b →
    node_step pool seed (mkNode (Ready s) log) (mkNode (Voting b) log) None
| node_silent b op w b' log :
    Forall (known pool) (op_proofs op) → op_certificate_known pool op → ¬ op_hazard b op w →
    perform b op w = (b', None) →
    node_step pool seed (mkNode (Voting b) log) (mkNode (Voting b') log) None
| node_releases b op w b' r log :
    Forall (known pool) (op_proofs op) → op_certificate_known pool op → ¬ op_hazard b op w →
    perform b op w = (b', Some r) →
    node_step pool seed (mkNode (Voting b) log) (mkNode (Voting b') ((r, lb_locked b') :: log))
      (Some r)
| node_into_signer b log :
    node_step pool seed (mkNode (Voting b) log) (mkNode (Ready (lb_signer b)) log) None
| node_crash stage log :
    node_step pool seed (mkNode stage log) (mkNode (Off (stage_file stage)) log) None.

(** ** The network *)

Record World := mkWorld {
  w_pool : list Vote;
  w_node : ValidatorId → Node
}.

Definition world_init : World :=
  mkWorld [] (λ id, mkNode (Off match net_seed net id with
                                | Some seed => header_version context (ed25519_public_key seed) true
                                | None => []
                                end) []).

Definition released_votes (out : option Released) : list Vote :=
  match out with Some (ReleasedVote v) => [v] | _ => [] end.

(** Signatures are unforgeable: a vote that verifies as a correct validator's has a
    digest which that validator signed. *)
Definition unforged (w : World) (vote : Vote) : Prop :=
  ∀ c, trusted c → vote_valid c vote → correct (v_voter vote) = true →
  ∃ r lock, (r, lock) ∈ n_log (w_node w (v_voter vote)) ∧ vote_signing_hash vote = release_hash r.

Inductive world_step : World → World → Prop :=
| step_node w id seed n out :
    net_seed net id = Some seed → node_step (w_pool w) seed (w_node w id) n out →
    world_step w (mkWorld (released_votes out ++ w_pool w)
                    (λ i, if decide (i = id) then n else w_node w i))
| step_network w vote :
    vote_ok vote → unforged w vote → world_step w (mkWorld (vote :: w_pool w) (w_node w)).

Definition reachable : World → Prop := rtc world_step world_init.

(** ** What is claimed *)

(** A verified finality certificate of [c] for [B] out of votes of the network. *)
Definition committed (pool : list Vote) (c : AuthenticatedCommittee) (B : Hash256) : Prop :=
  ∃ certificate header, verify_certificate c certificate header = Ok tt
    ∧ (∀ v, v ∈ map (certificate_vote certificate) (fc_signatures certificate) → v ∈ pool)
    ∧ fc_block certificate = B.

Definition release_preimage (r : Released) : bytes :=
  match r with
  | ReleasedVote v => domain_preimage domain.CONSENSUS_VOTE (vote_signing_bytes v)
  | ReleasedProposal p => domain_preimage domain.CONSENSUS_PROPOSAL (proposal_signing_bytes p)
  end.

(** The messages signed or seen in a world. *)
Definition message_of (w : World) (r : Released) : Prop :=
  (∃ id lock, (r, lock) ∈ n_log (w_node w id)) ∨ (∃ v, v ∈ w_pool w ∧ r = ReleasedVote v).

(** Two of them with one digest. *)
Definition digest_collision (w : World) : Prop :=
  ∃ r1 r2, message_of w r1 ∧ message_of w r2 ∧ collides (release_preimage r1) (release_preimage r2).

Definition faulty_power (c : AuthenticatedCommittee) : Z :=
  sumZ (λ id, if correct id then 0 else power c id) (members c).
End network.

(** ** What a correct validator's journal and memory satisfy *)

Section node_facts.
Context {blake : Blake2s} {ed : Ed25519} {host : Host}.
Context (net : Network) (Hnet : network_ok net).
Context (id : ValidatorId) (seed : bytes) (Hseed : net_seed net id = Some seed).
Implicit Types (pool : list Vote) (b : LocalBft) (lock : option SigningLock).

Abbreviation context := (net_context net).
Abbreviation trusted := (net_trusted net).
Abbreviation public_key := (ed25519_public_key seed).

(** The network holds a quorum of prevotes. *)
Definition polka pool (height r : Z) (B : Hash256) : Prop :=
  ∃ c pc, trusted c ∧ ac_height c = height ∧ (∀ v, v ∈ pc_votes pc → v ∈ pool)
    ∧ prevote_from_votes c (pc_votes pc) = Ok pc ∧ pc_round pc = r ∧ pc_block pc = B.

(** A lock stems from a quorum of an earlier round, or of this one once it is
    precommitted. *)
Definition lock_lawful pool (height round : Z) (final : bool) lock : Prop :=
  ∀ l, lock = Some l → polka pool height (lock_round l) (lock_block l)
    ∧ (lock_round l < round ∨ lock_round l = round ∧ final = true).

(** A decision the journal may hold. *)
Definition lawful pool (e : Entry) : Prop :=
  ∃ c safety, trusted c ∧ ac_height c = sp_height (e_position e) ∧ e_safety e = Some safety
    ∧ ss_committee_root safety = ac_root c
    ∧ lock_lawful pool (ac_height c) (sp_round (e_position e))
        (sp_phase (e_position e) =? PRECOMMIT_PHASE) (ss_locked safety).

(** A vote under its lock. *)
Definition vote_lawful pool (v : Vote) lock : Prop :=
  ∀ B, v_block v = Some B →
  match v_phase v with
  | Prevote => ∀ l, lock = Some l → B = lock_block l
      ∨ ∃ r, lock_round l < r < v_round v ∧ polka pool (v_height v) r B
  | Precommit => lock = Some (mkLock (v_round v) B)
  end.

Definition release_lawful pool (r : Released) lock : Prop :=
  match r with
  | ReleasedVote v => vote_ok v ∧ v_voter v = id ∧ vote_lawful pool v lock
  | ReleasedProposal _ => True
  end.

Definition step_final (step : VotingStep) : bool :=
  match step with Precommitted | Finalized => true | AwaitingProposal | Prevoted => false end.

Definition lock_sized lock : Prop :=
  match lock with Some l => u32 (lock_round l) ∧ sized 32 (lock_block l) | None => True end.

Record local_ok pool b : Prop := {
  lo_trusted : trusted (lb_committee b);
  lo_chain : ac_chain_id (lb_committee b) = sc_chain_id context;
  lo_voter : lb_voter b = id;
  lo_member : is_some (voting_power (lb_committee b) (lb_voter b)) = true;
  lo_round : u32 (lb_round b);
  lo_sized : lock_sized (lb_locked b);
  lo_lock : lock_lawful pool (ac_height (lb_committee b)) (lb_round b) (step_final (lb_step b))
              (lb_locked b);
  lo_finalized B : lb_finalized b = Some B → committed pool (lb_committee b) B
}.

Lemma polka_mono pool pool' h r B : pool ⊆ pool' → polka pool h r B → polka pool' h r B.
Proof. intros Hp (c & pc & Ht & Hh & Hv & H). exists c, pc. split_and!; naive_solver. Qed.

Lemma lawful_mono pool pool' e : pool ⊆ pool' → lawful pool e → lawful pool' e.
Proof.
  intros Hp (c & s & Ht & Hh & Hs & Hr & Hl). exists c, s. split_and!; try done.
  intros l E. destruct (Hl l E) as [? ?]. split; [by eapply polka_mono|done].
Qed.

Lemma release_lawful_mono pool pool' r lock :
  pool ⊆ pool' → release_lawful pool r lock → release_lawful pool' r lock.
Proof.
  intros Hp. destruct r as [v|]; [|done]. intros (Ho & Hv & Hl). split_and!; [done..|].
  intros B EB. specialize (Hl B EB). destruct (v_phase v); [|done]. intros l El.
  destruct (Hl l El) as [?|(r & ? & ?)]; [by left|right]. exists r. split; [done|].
  by eapply polka_mono.
Qed.

Lemma committed_mono pool pool' c B : pool ⊆ pool' → committed pool c B → committed pool' c B.
Proof. intros Hp (cert & h & ? & Hv & ?). exists cert, h. naive_solver. Qed.

Lemma local_ok_mono pool pool' b : pool ⊆ pool' → local_ok pool b → local_ok pool' b.
Proof.
  intros Hp []. split; try done.
  - intros l E. destruct (lo_lock0 l E) as [? ?]. split; [by eapply polka_mono|done].
  - intros B E. by eapply committed_mono; [|apply lo_finalized0].
Qed.

Lemma trusted_context c : trusted c → context_ok c ∧ u64 (ac_height c) ∧ sized 32 (ac_root c).
Proof using Hnet.
  intros [Ha Hh]%(net_authenticated net Hnet). split_and!; [by apply context_ok_new|done..|].
  destruct Ha as (chain & committee & keys & _ & H). unfold authenticated_new in H. bind_inv H. subst c.
  cbn. unfold committee_commitment in E0. bind_inv E0. subst a0. apply domain_hash_sized.
Qed.

(** A certificate that passes the context check belongs to the committee. *)
Lemma known_polka pool pc c :
  trusted c → known net pool pc → prevote_verify_context c pc = Ok tt →
  polka pool (ac_height c) (pc_round pc) (pc_block pc).
Proof using Hnet.
  intros Ht (Hv & c' & Ht' & Hf) Hctx. exists c', pc. split_and!; try done.
  pose proof (proj1 (trusted_context c' Ht')) as Hc'.
  apply (prevote_from_votes_ok c' _ _ Hc') in Hf as (_ & _ & _ & _ & Hval & _).
  unfold prevote_verify_context in Hctx. destruct (pc_votes pc) as [|v vs]; [done|].
  apply Forall_cons in Hval as [(_ & Hh & _) _]. guards. congruence.
Qed.

(** ** Drafts *)

(** What the journal is asked to reserve for a draft, and what the vote obeys. *)
Definition draft_ok pool b (r : Released) lock : Prop :=
  request_ok (release_entry r lock) ∧ lawful pool (release_entry r lock)
  ∧ (∀ signature, sized 64 signature → release_lawful pool (with_signature r signature) lock)
  ∧ ∀ s, local_ok pool (after_release b s r lock).

(** The part all votes of an instance share. *)
Lemma draft_vote_ok pool b phase block lock :
  local_ok pool b → opt_sized block → lock_sized lock →
  lock_lawful pool (ac_height (lb_committee b)) (lb_round b)
    (step_final (step_after phase)) lock →
  vote_lawful pool (draft_vote b phase block) lock →
  draft_ok pool b (ReleasedVote (draft_vote b phase block)) lock.
Proof using Hnet Hseed.
  intros [Ht Hchain Hvoter Hmember Hround _ _ Hfin] Hblock Hsized Hlock Hrule.
  destruct (trusted_context _ Ht) as (_ & Hh & Hroot).
  assert (sized 32 id) as Hid by (rewrite (net_identity net Hnet _ _ Hseed); apply blake2s256_sized).
  split; [|split; [|split]].
  - repeat (split; [first [done|by destruct phase|apply domain_hash_sized]|]). by destruct lock.
  - eexists _, _. split_and!; [exact Ht|done|reflexivity|done|].
    cbn. by destruct phase.
  - intros signature Hsig. split_and!; [|done..]. cbn. unfold vote_ok. cbn.
    rewrite Hchain, Hvoter. split_and!; try done. apply Hnet.
  - intros s. by split.
Qed.

Lemma prevote_draft_ok pool b header proof validate block :
  local_ok pool b → Forall (known net pool) (option_list proof) →
  prevote_choice b header proof validate = Ok block →
  draft_ok pool b (ReleasedVote (draft_vote b Prevote block)) (lb_locked b).
Proof using Hnet Hseed.
  intros Hb Hk H. unfold prevote_choice in H. bind_inv H. guards.
  assert (step_final (lb_step b) = false) as Hstep.
  { by destruct (lb_step b); rewrite ?orb_false_r in *; bool_props. }
  apply draft_vote_ok; [done| |apply Hb| |].
  - subst block. destruct (permitted _ _ _); [|done]. unfold proposed_block.
    destruct header as [h|]; [|done]. destruct (valid_header b h validate); [|done].
    apply domain_hash_sized.
  - intros l El. destruct (lo_lock _ _ Hb l El) as [? ?]. rewrite Hstep in *. naive_solver.
  - intros B EB l El. cbn in EB |- *. rewrite EB in H.
    destruct (permitted _ _ _) eqn:Ep; [|done]. unfold permitted in Ep. rewrite El in Ep. unfold proposed_block in H, Ep.
    destruct header as [h|]; [|done]. destruct (valid_header b h validate); [|done].
    injection H as <-.
    apply orb_true_iff in Ep as [Ep|Ep]; bool_props; [left; congruence|right].
    destruct proof as [pc|]; [|done]. cbn in Hk. apply Forall_cons in Hk as [Hk _].
    bind_inv E0. apply map_err_ok in E1. guards. exists (pc_round pc).
    split; [lia|]. destruct a1. pose proof (known_polka pool pc _ (lo_trusted _ _ Hb) Hk E1). congruence.
Qed.

Lemma precommit_draft_ok pool b header proof validate l :
  local_ok pool b → known net pool proof →
  precommit_choice b header proof validate = Ok l →
  draft_ok pool b (ReleasedVote (draft_vote b Precommit (Some (lock_block l)))) (Some l).
Proof using Hnet Hseed.
  intros Hb Hk H. unfold precommit_choice in H. bind_inv H. guards. apply map_err_ok in E0.
  destruct a0. pose proof (known_polka pool proof _ (lo_trusted _ _ Hb) Hk E0) as Hp.
  assert (sized 32 (pc_block proof)) as Hblock.
  { match goal with H : pc_block proof = _ |- _ => rewrite H end. apply domain_hash_sized. }
  subst l. cbn [lock_block]. apply draft_vote_ok; [done..| | |].
  - split; [apply Hb|done].
  - intros k [= <-]. cbn. split; [congruence|by right].
  - intros B [= <-]. done.
Qed.

(** A lock kept by a vote or a proposal of a step that has not precommitted. *)
Lemma timeout_draft_ok pool b phase step :
  local_ok pool b → lb_step b = step → step_final step = false →
  draft_ok pool b (ReleasedVote (draft_vote b phase None)) (lb_locked b).
Proof using Hnet Hseed.
  intros Hb <- Hs. apply draft_vote_ok; [done..|apply Hb| |done].
  intros l El. destruct (lo_lock _ _ Hb l El) as [? [?|[_ ?]]]; [by auto|congruence].
Qed.

Lemma proposal_draft_ok pool b proposer header proof validate p :
  local_ok pool b → proposal_draft b proposer header proof validate = Ok p →
  draft_ok pool b (ReleasedProposal p) (lb_locked b).
Proof using Hnet Hseed.
  intros Hb H. assert (lb_step b = AwaitingProposal) as Hstep.
  { unfold proposal_draft in H. bind_inv H. by guards. }
  apply proposal_draft_shape in H as [_ ->].
  destruct (trusted_context _ (lo_trusted _ _ Hb)) as (_ & Hh & Hroot).
  split; [|split; [|split]].
  - repeat (split; [first [done|apply Hb|apply domain_hash_sized]|]). apply Hb.
  - eexists _, _. split_and!; [apply Hb|done|reflexivity|done|].
    intros l El. destruct (lo_lock _ _ Hb l El) as [? [?|[_ Hf]]]; [by auto|].
    by rewrite Hstep in Hf.
  - done.
  - intros s. destruct Hb. by split.
Qed.

Lemma drafted_ok pool b op r lock :
  local_ok pool b → Forall (known net pool) (op_proofs op) → drafted b op = Some (r, lock) →
  draft_ok pool b r lock.
Proof using Hnet Hseed.
  intros Hb Hk H. destruct op; cbn [drafted op_proofs] in H, Hk; try done.
  - destruct (proposal_draft _ _ _ _ _) eqn:E; [|done]. injection H as <- <-.
    by eapply proposal_draft_ok.
  - destruct (local_verify_proposal _ _ _ _ _); [|done].
    destruct (prevote_choice _ _ _ _) eqn:E; [|done]. injection H as <- <-.
    by eapply prevote_draft_ok.
  - destruct (prevote_choice _ _ _ _) eqn:E; [|done]. injection H as <- <-.
    by eapply prevote_draft_ok.
  - destruct (precommit_choice _ _ _ _) eqn:E; [|done]. injection H as <- <-.
    apply Forall_cons in Hk as [Hk _]. by eapply precommit_draft_ok.
  - unfold timely in H. destruct (_ && _) eqn:E; [|done]. bool_props. injection H as <- <-.
    by eapply timeout_draft_ok.
  - unfold timely in H. destruct (_ && _) eqn:E; [|done]. bool_props. injection H as <- <-.
    by eapply timeout_draft_ok.
Qed.

(** ** The invariant of a node *)

Definition finality_ok pool b : Prop :=
  trusted (lb_committee b) ∧ ∀ B, lb_finalized b = Some B → committed pool (lb_committee b) B.

(** The stage over journal [j]; a poisoned journal signs nothing any more. *)
Definition stage_ok pool (j : Journal) (stage : NodeStage) : Prop :=
  match stage with
  | Off file => file = j_file j
  | Ready s => ∃ anchor, s = signer_at context seed j anchor
  | Voting b =>
      (∃ anchor, lb_signer b = signer_at context seed j anchor) ∧ finality_ok pool b
      ∧ (j_poisoned j = false → local_ok pool b)
  end.

Definition log_entry (item : Released * option SigningLock) : Entry :=
  release_entry (fst item) (snd item).

Lemma log_entry_signed r signature lock :
  log_entry (with_signature r signature, lock) = release_entry r lock.
Proof. by destruct r. Qed.

Definition item_ok pool (item : Released * option SigningLock) : Prop :=
  lawful pool (log_entry item) ∧ release_lawful pool (fst item) (snd item).

Definition node_ok pool (n : Node) : Prop :=
  (∃ j, instance_ok context public_key (lawful pool) true (map log_entry (n_log n)) j
        ∧ stage_ok pool j (n_stage n))
  ∧ Forall (item_ok pool) (n_log n)
  ∧ ForallOrdPairs (λ new old, extends (log_entry new) (log_entry old)) (n_log n).

Lemma stage_ok_mono pool pool' j stage :
  pool ⊆ pool' → stage_ok pool j stage → stage_ok pool' j stage.
Proof.
  intros Hp. destruct stage as [|s|b]; [done..|]. intros (Ha & [Ht Hf] & Hl). split_and!; [done| |].
  - split; [done|]. intros B HB. by eapply committed_mono; [|apply Hf].
  - intros Hj. by eapply local_ok_mono; [|apply Hl].
Qed.

Lemma node_ok_mono pool pool' n : pool ⊆ pool' → node_ok pool n → node_ok pool' n.
Proof.
  intros Hp ((j & Hi & Hs) & Hf & Ho). split_and!; [| |done].
  - exists j. split; [|by eapply stage_ok_mono].
    eapply instance_mono; [|done]. intros e. by apply lawful_mono.
  - eapply Forall_impl; [exact Hf|]. intros [r lock] [? ?].
    split; [by eapply lawful_mono|by eapply release_lawful_mono].
Qed.

Lemma opens_signer file s :
  opens net seed file s →
  ∃ j anchor, journal_open context public_key file true = Ok j ∧ s = signer_at context seed j anchor.
Proof.
  assert (∀ s, initialize context seed (OpenJournal file true) = Ok s →
    ∃ j, journal_open context public_key file true = Ok j ∧ s = signer_at context seed j None) as Hinit.
  { clear s. intros s H. unfold initialize in H. bind_inv H. subst s. eauto. }
  intros [s' H|io s' H|anchor sync io anchor' s' H].
  - apply Hinit in H as (j & ? & ->). eauto.
  - unfold create_anchor in H. bind_inv H. apply Hinit in E as (j & ? & ->). subst s'. eauto.
  - unfold open_with_anchor in H. destruct (initialize _ _ _) as [s1|]; [|done].
    destruct (Hinit s1 eq_refl) as (j & ? & ->). destruct (anchor_open _ _ _ _ _); [|done].
    destruct (anchor_reconcile _ _ _ _) as [store outcome]. injection H as _ H.
    bind_inv H. subst s'. eauto.
Qed.

(** A signature is released only after its reservation. *)
Lemma sign_entry_effect j anchor handle e w s' outcome :
  sign_entry (signer_at context seed j anchor) handle (e_position e) (e_message e) (e_safety e) w
  = (s', outcome) →
  (s' = signer_at context seed j anchor ∧ is_ok outcome = false)
  ∨ ∃ j' reserved anchor',
      reserve_entry j (e_position e) (e_message e) (e_safety e) (io_activate w) (io_journal w)
      = (j', reserved)
      ∧ s' = signer_at context seed j' anchor'
      ∧ ∀ signature, outcome = Ok signature → reserved = Ok tt
          ∧ signature = ed25519_sign seed (e_message e).
Proof.
  unfold sign_entry. destruct (signer_validator_id _ _); [|by intros [= <- <-]; left].
  destruct (anchor_ready _); [|by intros [= <- <-]; left].
  cbn [signer_at ds_journal with_journal].
  destruct (reserve_entry j _ _ _ _ _) as [j' [[]|error]]; intros H; right.
  - unfold witness in H. destruct anchor as [store|]; cbn in H.
    + destruct (anchor_commit store _ _) as [store' [[]|]]; injection H as <- <-;
        exists j', (Ok tt), (Some store'); split_and!; try done; by intros ? [= <-].
    + injection H as <- <-. exists j', (Ok tt), None. split_and!; try done. by intros ? [= <-].
  - injection H as <- <-. exists j', (Err error), anchor. by split_and!.
Qed.

Lemma key_ok : sized 32 public_key.
Proof. apply sk_public_sized. Qed.

Lemma instance_forget allowed e log j :
  instance_ok context public_key allowed true (e :: log) j →
  instance_ok context public_key allowed true log j.
Proof.
  intros (j0 & Hwf & Hp & Hlog & Hrest). exists j0. split; [done|]. split; [done|].
  split; [|done]. intros d Hd. apply Hlog. by right.
Qed.

Lemma step_of_phase_final phase step :
  step_of_phase phase = Ok step → step_final step = (phase =? PRECOMMIT_PHASE).
Proof.
  unfold step_of_phase, PROPOSAL_PHASE, PREVOTE_PHASE, PRECOMMIT_PHASE.
  destruct (Z.eqb_spec phase 0) as [->|]; [by intros [= <-]|].
  destruct (Z.eqb_spec phase 1) as [->|]; [by intros [= <-]|].
  destruct (Z.eqb_spec phase 2) as [->|]; [by intros [= <-]|done].
Qed.

(** What [LocalBft::new] restores from a healthy journal. *)
Lemma restore_ok pool c j anchor round step locked :
  (∀ v, view j = Some v → entry_ok true v ∧ lawful pool v) → trusted c →
  restore_position c (signer_at context seed j anchor) = Ok (round, step, locked) →
  u32 round ∧ lock_sized locked ∧ lock_lawful pool (ac_height c) round (step_final step) locked.
Proof using Hnet.
  intros Hv Ht H. unfold restore_position in H. cbn [signer_at ds_journal] in H.
  unfold view, last_position in *. destruct (j_last j) as [[position m]|]; cbn in H.
  2:{ by simplify_eq. }
  bind_inv H. guards. destruct (_ =? _) eqn:Eh; [|by simplify_eq].
  destruct (Hv _ eq_refl) as [((_ & Hr & _) & _ & Hs) (c' & safety & Ht' & Hh & Es & Hroot & Hl)].
  cbn in *. rewrite Es in *. destruct Hs as [_ [_ Hs]]. bind_inv H. guards.
  assert (c' = c) as ->; [apply (net_unique net Hnet); [done..|lia]|].
  simplify_eq/=. split; [done|]. split; [done|]. by erewrite step_of_phase_final.
Qed.

Lemma start_ok pool log c j anchor genesis b :
  instance_ok context public_key (lawful pool) true log j → trusted c →
  local_new c (signer_at context seed j anchor) genesis = Ok b →
  stage_ok pool j (Voting b).
Proof using Hnet Hseed.
  intros Hi Ht H. unfold local_new in H. bind_inv H. guards. subst b. apply map_err_ok in E1.
  cbn [stage_ok lb_signer]. split_and!; [by exists anchor|by split|]. intros Hpo.
  destruct (instance_healthy _ _ (net_genesis_ok net Hnet) key_ok _ _ _ _ Hi Hpo)
    as (Hwf & Hp & _ & Hv).
  assert (∀ e, view j = Some e → entry_ok true e ∧ lawful pool e) as Hview.
  { intros e Ee. split; [|by apply Hv]. rewrite <- Hp. by apply (view_entry_ok context public_key). }
  destruct (restore_ok pool c j anchor _ _ _ Hview Ht E3) as (? & ? & ?).
  unfold signer_validator_id in E1. bind_inv E1. cbn in E1. subst a1.
  split; cbn; try done. by rewrite (net_identity net Hnet _ _ Hseed).
Qed.

(** A call that signs nothing keeps the invariant. *)
Lemma quiet_ok pool j b op w b' out :
  stage_ok pool j (Voting b) → op_certificate_known pool op →
  drafted b op = None → perform b op w = (b', out) →
  out = None ∧ stage_ok pool j (Voting b').
Proof.
  intros (Ha & [Ht Hf] & Hl) Hcert Hd H.
  destruct (perform_quiet _ _ _ _ _ Hd H) as (-> & Hb'). split; [done|].
  destruct Hb' as [->|[(Hstep & Hmax & ->)|(h & cert & validate & -> & Hv & _ & ->)]].
  - by split_and!.
  - split_and!; [done..|]. intros Hj. destruct (Hl Hj) as [? ? ? ? Hr ? Hlock ?].
    split; try done; cbn; [unfold fits in *; lia|]. intros l El. destruct (Hlock l El) as [? Hle].
    split; [done|]. left. lia.
  - assert (committed pool (lb_committee b) (fc_block cert)) as Hc by (by exists cert, h).
    split_and!; [done| |].
    + split; [done|]. by intros B [= <-].
    + intros Hj. destruct (Hl Hj) as [? ? ? ? ? ? Hlock ?].
      split; try done; cbn; [|by intros B [= <-]].
      intros l El. destruct (Hlock l El) as [? [?|[? ?]]]; auto.
Qed.

(** A failed signature changes the signer at most. *)
Lemma stage_with_signer pool j j' b anchor :
  (j' = j ∨ j_poisoned j' = true ∨ local_ok pool b) → stage_ok pool j (Voting b) →
  stage_ok pool j' (Voting (with_signer b (signer_at context seed j' anchor))).
Proof.
  intros Hj (_ & Hf & Hl). split_and!; [by exists anchor|done|]. intros Hpo.
  enough (local_ok pool b) as [] by (by split).
  destruct Hj as [->|[Hj|?]]; [by apply Hl|congruence|done].
Qed.

Lemma act_ok pool b op w b' out log :
  node_ok pool (mkNode (Voting b) log) → Forall (known net pool) (op_proofs op) →
  op_certificate_known pool op → ¬ op_hazard b op w → perform b op w = (b', out) →
  node_ok pool (mkNode (Voting b')
    match out with Some r => (r, lb_locked b') :: log | None => log end).
Proof using Hnet Hseed.
  intros ((j & Hi & Hs) & Hitems & Hord) Hk Hcert Hhaz H. cbn [n_log n_stage] in *.
  destruct (drafted b op) as [[r lock]|] eqn:Ed.
  2:{ destruct (quiet_ok _ _ _ _ _ _ _ Hs Hcert Ed H) as [-> ?]. split_and!; [by exists j|done..]. }
  pose proof (drafted_locked b op r lock) as Hlocked.
  unfold op_hazard in Hhaz. rewrite Ed in Hhaz. rewrite (perform_signs _ _ _ _ _ Ed) in H.
  pose proof Hs as ([anchor Hsig] & Hfin & Hlocal). rewrite Hsig in *. cbv zeta in H.
  destruct (sign_entry _ _ _ _ _ _) as [s' outcome] eqn:Es.
  apply sign_entry_effect in Es as [[-> Ho]|(j' & reserved & anchor' & Hres & -> & Hout)].
  { destruct outcome; [done|]. injection H as <- <-. split_and!; [|done..].
    exists j. split; [done|]. apply (stage_with_signer _ j); [by left|done]. }
  destruct (j_poisoned j) eqn:Hpo.
  { rewrite poisoned_reserve in Hres by done. injection Hres as <- <-.
    destruct outcome; [by destruct (Hout _ eq_refl)|]. injection H as <- <-. split_and!; [|done..].
    exists j. split; [done|]. apply (stage_with_signer _ j); [by left|done]. }
  specialize (Hlocal eq_refl).
  destruct (drafted_ok pool b op r lock Hlocal Hk Ed) as (Hreq & Hlaw & Hrel & Hafter).
  destruct reserved as [[]|error].
  - pose proof (instance_authorised _ _ (net_genesis_ok net Hnet) key_ok _ _ _ _ _ _ _ _ Hi Hreq Hlaw
      Hres) as (Hi' & Hpo' & _ & Hext).
    destruct outcome as [signature|error]; injection H as <- <-.
    + destruct (Hout _ eq_refl) as [_ ->]. rewrite Hlocked by done.
      split_and!.
      * exists j'. cbn [n_log map]. rewrite log_entry_signed.
        split; [exact Hi'|]. split_and!; [|split|done].
        -- exists anchor'. by destruct r.
        -- by destruct r; apply Hfin.
        -- intros B HB. destruct r; by apply Hfin.
      * constructor; [|done]. split; [by rewrite log_entry_signed|].
        apply Hrel. apply sk_sign_sized.
      * constructor; [|done]. apply Forall_forall. intros item Hin. rewrite log_entry_signed. apply Hext. by apply list_elem_of_fmap_2.
    + split_and!; [|done..]. exists j'. split; [by eapply instance_forget|].
      apply (stage_with_signer _ j); [by right; right|done].
  - destruct outcome; [by destruct (Hout _ eq_refl)|]. injection H as <- <-. split_and!; [|done..].
    destruct (instance_refused _ _ (net_genesis_ok net Hnet) key_ok _ _ _ _ _ _ _ _ _ Hi Hreq Hlaw
      Hhaz Hres) as [Hi' _].
    exists j'. split; [done|]. apply (stage_with_signer _ j); [by right; right|done].
Qed.

(** Behind a released message the journal is healthy and ends in its decision. *)
Lemma released_journal pool b op w b' r log :
  node_ok pool (mkNode (Voting b) log) → Forall (known net pool) (op_proofs op) →
  perform b op w = (b', Some r) →
  ∃ j anchor, lb_signer b' = signer_at context seed j anchor ∧ journal_wf context public_key j
    ∧ j_protected j = true ∧ view j = Some (release_entry r (lb_locked b')) ∧ local_ok pool b'.
Proof using Hnet Hseed.
  intros ((j & Hi & Hs) & _) Hk H. cbn [n_log n_stage] in *.
  destruct (drafted b op) as [[d lock]|] eqn:Ed.
  2:{ by destruct (perform_quiet _ _ _ _ _ Ed H). }
  pose proof (drafted_locked b op d lock) as Hlocked. rewrite (perform_signs _ _ _ _ _ Ed) in H.
  destruct Hs as ([anchor Hsig] & _ & Hlocal). rewrite Hsig in H. cbv zeta in H.
  destruct (sign_entry _ _ _ _ _ _) as [s' outcome] eqn:Es.
  destruct outcome as [signature|]; [|done]. injection H as <- <-.
  apply sign_entry_effect in Es as [[_ ?]|(j' & reserved & anchor' & Hres & -> & Hout)]; [done|].
  destruct (Hout _ eq_refl) as [-> _].
  destruct (j_poisoned j) eqn:Hpo; [by rewrite poisoned_reserve in Hres|].
  destruct (drafted_ok pool b op d lock (Hlocal eq_refl) Hk Ed) as (Hreq & Hlaw & _ & Hafter).
  destruct (instance_authorised _ _ (net_genesis_ok net Hnet) key_ok _ _ _ _ _ _ _ _ Hi Hreq Hlaw
    Hres) as (Hi' & Hpo' & Hv & _).
  destruct (instance_healthy _ _ (net_genesis_ok net Hnet) key_ok _ _ _ _ Hi' Hpo') as (Hwf & Hp & _).
  exists j', anchor'. rewrite Hlocked, release_entry_signature by done.
  split_and!; try done. by destruct d.
Qed.

(** [LocalBft::new] over that journal resumes where the vote left off. *)
Lemma resume_ok pool b j v :
  hash_is_zero (sc_genesis context) = false → local_ok pool b →
  journal_wf context public_key j → j_protected j = true →
  view j = Some (vote_entry v (lb_locked b)) → v_height v = ac_height (lb_committee b) →
  v_committee_root v = ac_root (lb_committee b) → v_round v = lb_round b →
  step_after (v_phase v) = lb_step b →
  ∃ s resumed, initialize context seed (OpenJournal (j_file j) true) = Ok s
    ∧ local_new (lb_committee b) s (sc_genesis context) = Ok resumed
    ∧ lb_round resumed = lb_round b ∧ lb_step resumed = lb_step b ∧ lb_locked resumed = lb_locked b.
Proof using Hnet Hseed.
  intros Hz Hb Hwf Hp Hv Hh Hroot Hr Hstep.
  exists (signer_at context seed j None). unfold initialize.
  rewrite Hz, (wf_open _ _ (net_genesis_ok net Hnet) key_ok j Hwf). cbn [reject_if].
  unfold local_new, restore_position, signer_validator_id, last_position.
  unfold view in Hv. destruct (j_last j) as [[position m]|] eqn:El; [|done].
  cbn [option_map fst snd] in Hv. injection Hv as -> _ Hs. cbn.
  rewrite El, Hs, Hp, (lo_chain _ _ Hb), Z.eqb_refl, !bool_decide_eq_true_2 by done. cbn.
  pose proof (lo_member _ _ Hb) as Hm. rewrite (lo_voter _ _ Hb) in Hm.
  rewrite (net_identity net Hnet _ _ Hseed) in Hm. rewrite Hm, Hh, Z.ltb_irrefl, Z.eqb_refl. cbn.
  rewrite Hroot, bool_decide_eq_true_2 by done. cbn.
  assert (step_of_phase (journal_phase (v_phase v)) = Ok (step_after (v_phase v))) as ->
    by (by destruct (v_phase v)).
  cbn. eexists. split; [done|]. split; [done|]. cbn. by rewrite Hr, Hstep.
Qed.

Lemma node_step_ok pool n n' out :
  node_ok pool n → node_step net pool seed n n' out → node_ok pool n'.
Proof using Hnet Hseed.
  intros Hn Hstep. destruct Hstep as [file s log Ho|s c genesis b log Ht Hb|b op w b' log|
    b op w b' r log|b log|stage log].
  - destruct Hn as ((j & Hi & ->) & Hitems). split; [|done].
    apply opens_signer in Ho as (j' & anchor & Ho & ->). exists j'.
    destruct (instance_restart _ _ (net_genesis_ok net Hnet) key_ok _ _ _ _ _ Hi Ho) as [? _].
    split; [done|by exists anchor].
  - destruct Hn as ((j & Hi & [anchor ->]) & Hitems). split; [|done]. exists j.
    split; [done|]. by eapply start_ok.
  - by eapply (act_ok pool b op w b' None).
  - by eapply (act_ok pool b op w b' (Some r)).
  - destruct Hn as ((j & Hi & Ha & _) & Hitems). split; [|done]. by exists j.
  - destruct Hn as ((j & Hi & Hs) & Hitems). split; [|done]. exists j. split; [done|].
    destruct stage as [file|s|b]; cbn in *; [done| |].
    + by destruct Hs as [anchor ->].
    + by destruct Hs as [[anchor ->] _].
Qed.
End node_facts.

(** ** Executions follow the rules *)

Section network_facts.
Context {blake : Blake2s} {ed : Ed25519} {host : Host}.
Context (net : Network) (Hnet : network_ok net).
Implicit Types (w : World) (id : ValidatorId) (c : AuthenticatedCommittee) (v : Vote).

Abbreviation trusted := (net_trusted net).

Definition world_ok w : Prop :=
  (∀ id seed, net_seed net id = Some seed → node_ok net id seed (w_pool w) (w_node w id))
  ∧ ∀ v, v ∈ w_pool w → vote_ok v ∧ unforged net w v.

Lemma world_init_ok : world_ok (world_init net).
Proof using Hnet.
  split; [|by intros v ?%elem_of_nil]. intros id seed Hs. cbn. rewrite Hs.
  split_and!; [|constructor..]. exists (fresh (net_context net) (ed25519_public_key seed) true).
  split; [|done]. apply (instance_fresh _ _ (net_genesis_ok net Hnet) (key_ok seed)).
Qed.

Lemma node_step_log pool seed n n' out :
  node_step net pool seed n n' out → n_log n ⊆ n_log n'
  ∧ ∀ r, out = Some r → ∃ lock, (r, lock) ∈ n_log n'.
Proof.
  intros []; cbn; (split; [|try done]); try done.
  - intros x Hx. by right.
  - intros ? [= <-]. eexists. by left.
Qed.

Lemma unforged_mono w w' v :
  (∀ id, n_log (w_node w id) ⊆ n_log (w_node w' id)) → unforged net w v → unforged net w' v.
Proof.
  intros Hlog Hu c Ht Hv Hc. destruct (Hu c Ht Hv Hc) as (r & lock & Hin & E).
  exists r, lock. split; [|done]. by apply Hlog.
Qed.

Lemma world_step_ok w w' : world_ok w → world_step net w w' → world_ok w'.
Proof using Hnet.
  intros [Hn Hp] Hstep. destruct Hstep as [w id seed n out Hs Hstep|w v Hv Hu].
  - pose proof (node_step_log _ _ _ _ _ Hstep) as [Hlog Hout].
    assert (∀ i, n_log (w_node w i) ⊆ n_log (if decide (i = id) then n else w_node w i)) as Hgrow.
    { intros i. case_decide; [by subst|done]. }
    assert (node_ok net id seed (w_pool w) n) as Hn' by (eapply node_step_ok; eauto).
    split.
    + intros i s Hi. cbn. apply node_ok_mono with (pool := w_pool w).
      { intros u Hu. apply elem_of_app. by right. }
      case_decide; [subst i|by apply Hn]. by simplify_eq.
    + intros u [Hu|Hu]%elem_of_app.
      * destruct out as [[u'|]|]; cbn in Hu; [|by apply elem_of_nil in Hu..].
        apply list_elem_of_singleton in Hu as ->. destruct (Hout _ eq_refl) as [lock Hin].
        destruct Hn' as (_ & Hitems & _). rewrite Forall_forall in Hitems.
        destruct (Hitems _ Hin) as [_ (Hok & Hid & _)]. split; [done|].
        intros c _ _ _. exists (ReleasedVote u'), lock. split; [|done]. cbn.
        by rewrite Hid, decide_True by done.
      * destruct (Hp u Hu) as [? Hun]. split; [done|]. by eapply unforged_mono; [|exact Hun].
  - split.
    + intros i s Hi. apply node_ok_mono with (pool := w_pool w); [by intros u; right|by apply Hn].
    + intros u [->|Hin]%elem_of_cons; [done|]. by apply Hp.
Qed.

Lemma reachable_ok w : reachable net w → world_ok w.
Proof using Hnet.
  intros H. assert (world_ok (world_init net)) as H0 by apply world_init_ok.
  induction H as [|w1 w2 w3 Hs _ IH]; [done|]. apply IH. by eapply world_step_ok.
Qed.

(** The votes of correct validators at the height of [c]. *)
Definition cast_at w c id (ca : Cast) : Prop :=
  ∃ v lock, (ReleasedVote v, lock) ∈ n_log (w_node w id) ∧ v_height v = ac_height c
    ∧ ca = mkCast (v_phase v) (v_round v) (v_block v) lock.

Definition faulty id : bool := negb (correct net id).

Lemma message_log w id r lock : (r, lock) ∈ n_log (w_node w id) → message_of w r.
Proof. intros H. left. eauto. Qed.

(** A valid vote of a correct validator was cast by it. *)
Lemma pool_cast w c v :
  world_ok w → trusted c → v ∈ w_pool w → vote_valid c v → faulty (v_voter v) = false →
  (∃ lock, cast_at w c (v_voter v) (mkCast (v_phase v) (v_round v) (v_block v) lock))
  ∨ digest_collision w.
Proof.
  intros [Hn Hp] Ht Hin Hval Hf. destruct (Hp v Hin) as [Hok Hu].
  apply negb_false_iff in Hf. destruct (Hu c Ht Hval Hf) as (r & lock & Hlog & E).
  assert (message_of w (ReleasedVote v)) as Hm by (right; eauto).
  destruct r as [u|p]; cbn in E.
  - unfold correct in Hf. destruct (net_seed net (v_voter v)) as [seed|] eqn:Es; [|done].
    destruct (Hn _ _ Es) as (_ & Hitems & _). rewrite Forall_forall in Hitems.
    destruct (Hitems _ Hlog) as [_ (Huok & _)]. apply vote_digest_binding in E as [E|Hc]; [| |done..].
    + left. exists lock, u, lock. split; [done|]. destruct Hval as (_ & Hh & _).
      unfold vote_unsigned in E. injection E as _ _ E1 E2 E3 E4 _.
      by rewrite <- E1, E2, E3, E4.
    + right. exists (ReleasedVote v), (ReleasedVote u). split_and!; [done|by eapply message_log|done].
  - right. exists (ReleasedVote v), (ReleasedProposal p).
    split_and!; [done|by eapply message_log|]. cbn.
    apply domain_hash_binding in E as [[? _]|?]; [done|done|by vm_compute..].
Qed.

Lemma forall_or_hazard {A : Type} (P : A → Prop) (H : Prop) (xs : list A) :
  (∀ x, x ∈ xs → P x ∨ H) → (∀ x, x ∈ xs → P x) ∨ H.
Proof.
  induction xs as [|x xs IH]; intros Hx; [left; by intros y ?%elem_of_nil|].
  destruct (Hx x ltac:(by left)) as [Hp|?]; [|by right].
  destruct IH as [Hps|?]; [|left|by right].
  - intros y Hy. apply Hx. by right.
  - intros y [->|Hy]%elem_of_cons; auto.
Qed.

(** A quorum of valid votes of the network for one block backs it. *)
Lemma quorum_backed w c phase r B (votes : list Vote) :
  world_ok w → trusted c → (∀ v, v ∈ votes → v ∈ w_pool w) → Forall (vote_valid c) votes →
  Forall (λ v, v_phase v = phase ∧ v_round v = r ∧ v_block v = Some B) votes →
  NoDup (map v_voter votes) → quorum c <= sumZ (power c) (map v_voter votes) →
  backed c faulty (cast_at w c) phase r B ∨ digest_collision w.
Proof.
  intros Hw Ht Hpool Hval Hshape Hnd Hq. rewrite Forall_forall in Hval, Hshape.
  destruct (forall_or_hazard (λ v, faulty (v_voter v) = false →
    ∃ lock, cast_at w c (v_voter v) (mkCast phase r (Some B) lock)) (digest_collision w) votes)
    as [Hcast|?]; [|left|by right].
  - intros v Hv. destruct (faulty (v_voter v)) eqn:Ef; [by left|].
    destruct (Hshape v Hv) as (<- & <- & <-).
    destruct (pool_cast w c v) as [?|?]; auto.
  - exists (map v_voter votes). split_and!; [done| |done|].
    + intros id (v & -> & Hv)%list_elem_of_fmap. by apply Hval.
    + intros id (v & -> & Hv)%list_elem_of_fmap. by apply Hcast.
Qed.

Lemma polka_backed w c height r B :
  world_ok w → trusted c → ac_height c = height → polka net (w_pool w) height r B →
  backed c faulty (cast_at w c) Prevote r B ∨ digest_collision w.
Proof using Hnet.
  intros Hw Ht <- (c' & pc & Ht' & Hh & Hpool & Hpc & <- & <-).
  assert (c' = c) as -> by (by apply (net_unique net Hnet)).
  destruct (trusted_context net Hnet c Ht) as (Hc & _).
  apply (prevote_from_votes_ok c _ _ Hc) in Hpc as (_ & Hlen & Hasc & (r & B & Hx) & Hval & Hq).
  eapply quorum_backed; eauto; [|by apply ascending_nodup].
  unfold pc_round, pc_block. destruct (pc_votes pc) as [|v vs]; [done|].
  pose proof Hx as [(_ & <- & ->) _]%Forall_cons. done.
Qed.

Lemma committed_backed w c B :
  world_ok w → trusted c → committed (w_pool w) c B →
  (∃ r, backed c faulty (cast_at w c) Precommit r B) ∨ digest_collision w.
Proof using Hnet.
  intros Hw Ht (cert & header & Hv & Hpool & <-). destruct (trusted_context net Hnet c Ht) as (Hc & _).
  apply (verify_certificate_ok c _ _ Hc) in Hv as (Hshape & _ & Hval & Hq).
  apply validate_shape_ok in Hshape as [_ Hasc]. apply ascending_nodup in Hasc.
  enough (backed c faulty (cast_at w c) Precommit (fc_round cert) (fc_block cert)
          ∨ digest_collision w) as [?|?] by eauto.
  apply (quorum_backed w c Precommit (fc_round cert) (fc_block cert)
    (map (certificate_vote cert) (fc_signatures cert))); try done.
  - apply Forall_forall. by intros v (s & -> & _)%list_elem_of_fmap.
  - by rewrite cert_votes_voters.
  - by rewrite cert_votes_voters.
Qed.

Lemma faulty_seed id : faulty id = false → ∃ seed, net_seed net id = Some seed.
Proof.
  unfold faulty, correct. destruct (net_seed net id) as [seed|]; [by exists seed|done].
Qed.

(** What the log of a correct validator tells about its casts. *)
Lemma cast_item w c id ca :
  world_ok w → trusted c → faulty id = false → cast_at w c id ca →
  ∃ v lock, (ReleasedVote v, lock) ∈ n_log (w_node w id) ∧ v_height v = ac_height c
    ∧ ca = mkCast (v_phase v) (v_round v) (v_block v) lock ∧ vote_ok v
    ∧ vote_lawful net (w_pool w) v lock
    ∧ lock_lawful net (w_pool w) (ac_height c) (v_round v)
        (journal_phase (v_phase v) =? PRECOMMIT_PHASE) lock.
Proof.
  intros [Hn _] Ht (seed & Hs)%faulty_seed (v & lock & Hin & Hh & ->).
  destruct (Hn _ _ Hs) as (_ & Hitems & _). rewrite Forall_forall in Hitems.
  destruct (Hitems _ Hin) as [(c' & safety & Ht' & Hh' & [= <-] & _ & Hl) (Hok & _ & Hv)].
  exists v, lock. split_and!; try done. cbn in Hh', Hl. by rewrite Hh', Hh in Hl.
Qed.

(** Two casts of one validator are two entries of its journal, one after the other. *)
Lemma cast_pair w id i1 i2 :
  world_ok w → faulty id = false → i1 ∈ n_log (w_node w id) → i2 ∈ n_log (w_node w id) →
  extends (log_entry i1) (log_entry i2) ∨ extends (log_entry i2) (log_entry i1).
Proof.
  intros [Hn _] (seed & Hs)%faulty_seed H1 H2. destruct (Hn _ _ Hs) as (_ & _ & Ho).
  apply list_elem_of_In in H1, H2.
  destruct (ForallOrdPairs_In Ho _ _ H1 H2) as [->|[?|?]]; [|by auto..]. left. by left.
Qed.

Lemma cast_rules w c :
  world_ok w → trusted c → VotingRules c faulty (cast_at w c) (digest_collision w).
Proof using Hnet.
  intros Hw Ht. split.
  - intros id c1 c2 Hf (v1 & l1 & I1 & H1 & -> & O1 & _)%cast_item (v2 & l2 & I2 & H2 & -> & O2 & _)%cast_item
      Hp Hr; try done. cbn in *.
    assert (log_entry (ReleasedVote v1, l1) = log_entry (ReleasedVote v2, l2)) as E.
    { assert (e_position (log_entry (ReleasedVote v1, l1))
              = e_position (log_entry (ReleasedVote v2, l2))) as Epos by (cbn; congruence).
      destruct (cast_pair w id _ _ Hw Hf I1 I2) as [He|He]; [|symmetry];
        by apply extends_position. }
    injection E as _ _ _ Em _ _. apply vote_digest_binding in Em as [Em|Hc]; [| |done..].
    + left. by injection Em.
    + right. exists (ReleasedVote v1), (ReleasedVote v2).
      split_and!; [by eapply message_log..|done].
  - intros id c1 c2 B Hf (v1 & l1 & I1 & H1 & -> & _ & V1 & _)%cast_item
      (v2 & l2 & I2 & H2 & -> & _)%cast_item Hp Hb Hr; try done. cbn in *.
    specialize (V1 B Hb). rewrite Hp in V1. subst l1.
    assert (extends (log_entry (ReleasedVote v2, l2))
              (log_entry (ReleasedVote v1, Some (mkLock (v_round v1) B)))) as He.
    { destruct (cast_pair w id _ _ Hw Hf I1 I2) as [[E|[Hlt _]]|He]; [| |done].
      - injection E as _ E _ _ _ _. lia.
      - rewrite lt_position in Hlt. cbn in Hlt. lia. }
    destruct He as [E|[_ Hpres]]; [injection E as _ E _ _ _ _; lia|].
    destruct (Hpres _ _ eq_refl eq_refl) as [_ Hl]; [cbn; congruence|].
    destruct (Hl _ eq_refl) as (l & El & [?|?]); exists l; auto.
  - intros id ca l Hf (v & lock & I & H & -> & _ & _ & L)%cast_item Hp Hl; try done. cbn in *.
    rewrite Hp in L. destruct (L l Hl) as [Hpk [?|[_ ?]]]; [|done]. split; [done|].
    by apply (polka_backed w c (ac_height c)).
  - intros id ca l B Hf (v & lock & I & H & -> & _ & V & _)%cast_item Hp Hl Hb; try done. cbn in *.
    specialize (V B Hb). rewrite Hp in V. destruct (V l Hl) as [?|(r & Hr & Hpk)]; [by left|right].
    exists r. split; [done|]. by apply (polka_backed w c (v_height v)).
  - intros id ca B Hf (v & lock & I & H & -> & _ & V & L)%cast_item Hp Hb; try done. cbn in *.
    specialize (V B Hb). rewrite Hp in V. subst lock. destruct (L _ eq_refl) as [Hpk _].
    by apply (polka_backed w c (ac_height c)).
Qed.

Lemma faulty_power_eq c :
  sumZ (λ id, if faulty id then power c id else 0) (members c) = faulty_power net c.
Proof. apply sumZ_ext. intros id _. unfold faulty. by destruct (correct net id). Qed.

Lemma committed_agree w c B1 B2 :
  reachable net w → trusted c → faulty_power net c < 2 * quorum c - ac_total c →
  committed (w_pool w) c B1 → committed (w_pool w) c B2 → B1 = B2 ∨ digest_collision w.
Proof using Hnet.
  intros Hw%reachable_ok Ht Hfew H1 H2. destruct (trusted_context net Hnet c Ht) as (Hc & _).
  destruct (committed_backed w c B1 Hw Ht H1) as [[r1 K1]|?]; [|by right].
  destruct (committed_backed w c B2 Hw Ht H2) as [[r2 K2]|?]; [|by right].
  rewrite <- faulty_power_eq in Hfew. pose proof (cast_rules w c Hw Ht) as Hrules.
  by apply (rules_agree c faulty (cast_at w c) Hc Hfew _ r1 B1 r2 B2).
Qed.

Lemma voting_finality w id b :
  reachable net w → faulty id = false → n_stage (w_node w id) = Voting b →
  finality_ok net (w_pool w) b.
Proof using Hnet.
  intros [Hn _]%reachable_ok (seed & Hs)%faulty_seed Hb. destruct (Hn _ _ Hs) as ((j & _ & Hst) & _).
  rewrite Hb in Hst. apply Hst.
Qed.
End network_facts.

(** ** The theorems *)

Section agreement.
Context {blake : Blake2s} {ed : Ed25519} {host : Host}.
Implicit Types (net : Network) (w : World) (c : AuthenticatedCommittee).

(** C14: Agreement.  In every execution of correct [LocalBft] nodes, with crashes in the
    middle of writes, restarts, faulty members and an arbitrary network, any two
    verified finality certificates of one height certify the same block, unless two
    signed messages of the execution collide.  The faulty members' power must stay
    below the overlap of two quorums. *)
Theorem agreement net w c B1 B2 :
  network_ok net → reachable net w → net_trusted net c →
  faulty_power net c < 2 * quorum c - ac_total c →
  committed (w_pool w) c B1 → committed (w_pool w) c B2 →
  B1 = B2 ∨ digest_collision w.
Proof. intros Hnet. by apply committed_agree. Qed.

(** C15: The blocks two correct nodes have accepted as final at one height, each
    through its own [LocalBft::finalize], are the same, unless two signed messages of
    the execution collide.  The power of the faulty members of that height's committee
    must stay below the overlap of two of its quorums. *)
Theorem finalized_nodes_agree net w id1 id2 b1 b2 B1 B2 :
  network_ok net → reachable net w → correct net id1 = true → correct net id2 = true →
  n_stage (w_node w id1) = Voting b1 → n_stage (w_node w id2) = Voting b2 →
  ac_height (lb_committee b1) = ac_height (lb_committee b2) →
  lb_finalized b1 = Some B1 → lb_finalized b2 = Some B2 →
  faulty_power net (lb_committee b1) < 2 * quorum (lb_committee b1) - ac_total (lb_committee b1) →
  B1 = B2 ∨ digest_collision w.
Proof.
  intros Hnet Hw C1 C2 S1 S2 Hh F1 F2 Hfew.
  destruct (voting_finality net Hnet w id1 b1 Hw) as [T1 K1]; [by apply negb_false_iff|done|].
  destruct (voting_finality net Hnet w id2 b2 Hw) as [T2 K2]; [by apply negb_false_iff|done|].
  pose proof (net_unique net Hnet _ _ T1 T2 Hh) as E.
  apply (committed_agree net Hnet w (lb_committee b1)); [done..|by apply K1|].
  rewrite E. by apply K2.
Qed.

(** C16: A released vote survives a crash: reopening the journal file the vote left
    behind succeeds, and [LocalBft::new] over it resumes with exactly the round, the
    step and the lock the node had in memory. *)
Theorem vote_survives_restart net w id seed b op writes b' v :
  network_ok net → hash_is_zero (sc_genesis (net_context net)) = false →
  reachable net w → net_seed net id = Some seed → n_stage (w_node w id) = Voting b →
  Forall (known net (w_pool w)) (op_proofs op) →
  perform b op writes = (b', Some (ReleasedVote v)) →
  ∃ s resumed,
    initialize (net_context net) seed (OpenJournal (j_file (ds_journal (lb_signer b'))) true) = Ok s
    ∧ local_new (lb_committee b') s (sc_genesis (net_context net)) = Ok resumed
    ∧ lb_round resumed = lb_round b' ∧ lb_step resumed = lb_step b'
    ∧ lb_locked resumed = lb_locked b'.
Proof.
  intros Hnet Hz Hw Hs Hb Hk H. destruct (reachable_ok net Hnet w Hw) as [Hn _].
  pose proof (Hn _ _ Hs) as Hnode. destruct (w_node w id) as [stage log]. cbn in Hb. subst stage.
  destruct (released_journal net Hnet id seed Hs _ _ _ _ _ _ _ Hnode Hk H)
    as (j & anchor & -> & Hwf & Hp & Hv & Hl).
  destruct (released_vote_shape _ _ _ _ _ H) as (? & ? & ? & ?).
  by apply (resume_ok net Hnet id seed Hs (w_pool w) b' j v).
Qed.
End agreement.

(** ** Witnesses: three correct validators of a four-member committee finalize *)

Section agreement_examples.
#[local] Existing Instance checksum_blake2s.
#[local] Existing Instance checksum_ed25519.
#[local] Existing Instance serial_host.

Definition sample_net : Network :=
  mkNetwork sample_context
    (λ id, List.find (λ s, bool_decide (seed_id s = id)) (take 3 sample_seeds))
    (λ c, c = sample_ac).

Lemma sample_net_ok : network_ok sample_net.
Proof.
  split; try done.
  - intros id seed H. apply find_some in H as [_ H]. by bool_props.
  - intros c ->. split; [exact sample_authenticated|]. by vm_compute.
  - by intros c1 c2 -> ->.
Qed.

(** The steps of a round, evaluated. *)
Definition sample_signer (seed : bytes) : DurableSigner :=
  ok_or_unsigned (initialize sample_context seed
    (OpenJournal (header_version sample_context (ed25519_public_key seed) true) true)).

Definition sample_idle : LocalBft :=
  mkLocal empty_context sample_unsigned (mkHandle [] ConsensusKey) [] 0 AwaitingProposal None None.

Definition sample_start (seed : bytes) : LocalBft :=
  match local_new sample_ac (sample_signer seed) (le 32 9) with Ok b => b | Err _ => sample_idle end.

Definition all_persisted : Writes := mkWrites Persisted Persisted Persisted.

Definition act (b : LocalBft) (op : Op) : LocalBft := fst (perform b op all_persisted).
Definition vote_of (b : LocalBft) (op : Op) : Vote :=
  match snd (perform b op all_persisted) with
  | Some (ReleasedVote v) => v
  | _ => sample_vote 0 Prevote None []
  end.

(** The call released a vote (or nothing). *)
Definition votes (b : LocalBft) (op : Op) : bool :=
  match snd (perform b op all_persisted) with Some (ReleasedVote _) => true | _ => false end.
Definition is_silent (b : LocalBft) (op : Op) : bool :=
  negb (is_some (snd (perform b op all_persisted))).

Definition prevote_op : Op := PrevoteHeader (Some sample_header) None (λ _, true).
Definition prevoted (seed : bytes) : LocalBft := act (sample_start seed) prevote_op.
Definition prevote_of (seed : bytes) : Vote := vote_of (sample_start seed) prevote_op.

Definition sample_polka : PrevoteCertificate :=
  mkPrevoteCertificate (map prevote_of sample_signers).
Definition precommit_op : Op := PrecommitHeader sample_header sample_polka (λ _, true).
Definition precommitted (seed : bytes) : LocalBft := act (prevoted seed) precommit_op.
Definition precommit_of (seed : bytes) : Vote := vote_of (prevoted seed) precommit_op.

Definition sample_block : Hash256 := header_hash sample_header.
Definition sample_finality : FinalityCertificate :=
  mkCertificate 7 5 0 (ac_root sample_ac) sample_block
    (map (λ s, mkCertSig (seed_id s) (v_signature (precommit_of s))) sample_signers).
Definition finalize_op : Op := Finalize sample_header sample_finality (λ _, true).
Definition finalized (seed : bytes) : LocalBft := act (precommitted seed) finalize_op.

Definition first_log (seed : bytes) : list (Released * option SigningLock) :=
  [(ReleasedVote (prevote_of seed), lb_locked (prevoted seed))].
Definition second_log (seed : bytes) : list (Released * option SigningLock) :=
  (ReleasedVote (precommit_of seed), lb_locked (precommitted seed)) :: first_log seed.

Definition put (w : World) (id : ValidatorId) (votes : list Vote) (n : Node) : World :=
  mkWorld (votes ++ w_pool w) (λ i, if decide (i = id) then n else w_node w i).

Definition sample_open (seed : bytes) (w : World) : World :=
  put w (seed_id seed) [] (mkNode (Ready (sample_signer seed)) []).
Definition sample_join (seed : bytes) (w : World) : World :=
  put w (seed_id seed) [] (mkNode (Voting (sample_start seed)) []).
Definition sample_enter (seed : bytes) (w : World) : World := sample_join seed (sample_open seed w).
Definition sample_first (seed : bytes) (w : World) : World :=
  put w (seed_id seed) [prevote_of seed] (mkNode (Voting (prevoted seed)) (first_log seed)).
Definition sample_second (seed : bytes) (w : World) : World :=
  put w (seed_id seed) [precommit_of seed] (mkNode (Voting (precommitted seed)) (second_log seed)).
Definition sample_last (seed : bytes) (w : World) : World :=
  put w (seed_id seed) [] (mkNode (Voting (finalized seed)) (second_log seed)).

(** All of it succeeds, for each of the three seeds. *)
Definition calls_succeed (seed : bytes) : bool :=
  bool_decide (net_seed sample_net (seed_id seed) = Some seed)
  && is_ok (initialize sample_context seed
       (OpenJournal (header_version sample_context (ed25519_public_key seed) true) true))
  && is_ok (local_new sample_ac (sample_signer seed) (le 32 9))
  && votes (sample_start seed) prevote_op && votes (prevoted seed) precommit_op
  && is_silent (precommitted seed) finalize_op.

Lemma votes_perform b op :
  votes b op = true → perform b op all_persisted = (act b op, Some (ReleasedVote (vote_of b op))).
Proof.
  unfold votes, act, vote_of. by destruct (perform b op all_persisted) as [b' [[v|p]|]].
Qed.

Lemma silent_perform b op : is_silent b op = true → perform b op all_persisted = (act b op, None).
Proof. unfold is_silent, act. by destruct (perform b op all_persisted) as [b' [r|]]. Qed.

Lemma put_reachable w id seed n out :
  reachable sample_net w → net_seed sample_net id = Some seed →
  node_step sample_net (w_pool w) seed (w_node w id) n out →
  reachable sample_net (put w id (released_votes out) n).
Proof. intros Hw Hs Hn. eapply rtc_r; [exact Hw|]. by apply (step_node sample_net w id seed). Qed.

Lemma put_same w id votes n : w_node (put w id votes n) id = n.
Proof. cbn. by rewrite decide_True. Qed.

Lemma put_other w id i votes n : i ≠ id → w_node (put w id votes n) i = w_node w i.
Proof. intros H. cbn. by rewrite decide_False. Qed.

Lemma no_hazard b op : ¬ op_hazard b op all_persisted.
Proof.
  unfold op_hazard. destruct (drafted b op) as [[r lock]|]; [|tauto]. unfold slot_hazard. cbn. tauto.
Qed.

Lemma enter_reachable seed w :
  calls_succeed seed = true → reachable sample_net w →
  w_node w (seed_id seed)
  = mkNode (Off (header_version sample_context (ed25519_public_key seed) true)) [] →
  reachable sample_net (sample_enter seed w).
Proof.
  unfold calls_succeed. intros Hc Hw Hn. bool_props.
  apply (put_reachable _ _ seed _ None); [apply (put_reachable _ _ seed _ None); [done..|]|done|].
  - rewrite Hn. constructor. apply opens_plain. unfold sample_signer.
    by destruct (initialize _ _ _).
  - unfold sample_open. rewrite put_same. apply (node_start _ _ _ _ sample_ac (le 32 9)); [done|].
    unfold sample_start. by destruct (local_new _ _ _).
Qed.

Lemma first_reachable seed w :
  calls_succeed seed = true → reachable sample_net w →
  w_node w (seed_id seed) = mkNode (Voting (sample_start seed)) [] →
  reachable sample_net (sample_first seed w).
Proof.
  unfold calls_succeed. intros Hc Hw Hn. bool_props.
  apply (put_reachable _ _ seed _ (Some (ReleasedVote _))); [done..|]. rewrite Hn.
  exact (node_releases sample_net (w_pool w) seed _ prevote_op all_persisted _ _ []
    (Forall_nil_2 _) I (no_hazard _ _) (votes_perform (sample_start seed) _ ltac:(eassumption))).
Qed.

Definition holds_all (votes : list Vote) (pool : list Vote) : bool :=
  forallb (λ v, bool_decide (v ∈ pool)) votes.

Lemma holds_all_spec votes pool : holds_all votes pool = true → ∀ v, v ∈ votes → v ∈ pool.
Proof.
  unfold holds_all. rewrite forallb_forall. intros H v Hv%list_elem_of_In.
  by apply H, bool_decide_eq_true in Hv.
Qed.

Lemma sample_polka_ok : prevote_from_votes sample_ac (pc_votes sample_polka) = Ok sample_polka.
Proof.
  assert (is_ok (prevote_from_votes sample_ac (pc_votes sample_polka)) = true) as H by evaluate.
  destruct (prevote_from_votes _ _) as [pc|] eqn:E; [|done]. f_equal.
  apply (prevote_from_votes_ok _ _ _ (context_ok_new _ sample_authenticated)) in E as [-> _].
  done.
Qed.

Lemma second_reachable seed w :
  calls_succeed seed = true → reachable sample_net w →
  w_node w (seed_id seed) = mkNode (Voting (prevoted seed)) (first_log seed) →
  holds_all (pc_votes sample_polka) (w_pool w) = true →
  reachable sample_net (sample_second seed w).
Proof.
  unfold calls_succeed. intros Hc Hw Hn Hpool. bool_props.
  apply (put_reachable _ _ seed _ (Some (ReleasedVote _))); [done..|]. rewrite Hn.
  refine (node_releases sample_net (w_pool w) seed _ precommit_op all_persisted _ _
    (first_log seed) _ I (no_hazard _ _) (votes_perform (prevoted seed) _ ltac:(eassumption))).
  constructor; [|constructor]. split; [by apply holds_all_spec|].
  exists sample_ac. split; [reflexivity|exact sample_polka_ok].
Qed.

Abbreviation finality_votes :=
  (map (certificate_vote sample_finality) (fc_signatures sample_finality)).

Lemma last_reachable seed w :
  calls_succeed seed = true → reachable sample_net w →
  w_node w (seed_id seed) = mkNode (Voting (precommitted seed)) (second_log seed) →
  holds_all finality_votes (w_pool w) = true →
  reachable sample_net (sample_last seed w).
Proof.
  unfold calls_succeed. intros Hc Hw Hn Hpool. bool_props.
  apply (put_reachable _ _ seed _ None); [done..|]. rewrite Hn.
  exact (node_silent sample_net (w_pool w) seed _ finalize_op all_persisted _ _
    (Forall_nil_2 _) (holds_all_spec _ _ Hpool) (no_hazard _ _)
    (silent_perform (precommitted seed) _ ltac:(eassumption))).
Qed.

Definition seed1 : bytes := repeat (byte_of 1) 32.
Definition seed2 : bytes := repeat (byte_of 2) 32.
Definition seed3 : bytes := repeat (byte_of 3) 32.

Lemma seeds_succeed :
  calls_succeed seed1 = true ∧ calls_succeed seed2 = true ∧ calls_succeed seed3 = true.
Proof. split_and!; evaluate. Qed.

Lemma seeds_differ :
  seed_id seed1 ≠ seed_id seed2 ∧ seed_id seed1 ≠ seed_id seed3 ∧ seed_id seed2 ≠ seed_id seed3.
Proof. split_and!; apply (bool_decide_eq_false_1 _); evaluate. Qed.

Definition sample_started : World :=
  sample_enter seed3 (sample_enter seed2 (sample_enter seed1 (world_init sample_net))).
Definition sample_voted : World :=
  sample_first seed3 (sample_first seed2 (sample_first seed1 sample_started)).
Definition sample_precommits : World :=
  sample_second seed3 (sample_second seed2 (sample_second seed1 sample_voted)).
Definition sample_done : World := sample_last seed2 (sample_last seed1 sample_precommits).

Ltac find_node :=
  unfold sample_done, sample_precommits, sample_voted, sample_started, sample_enter, sample_last,
    sample_second, sample_first, sample_join, sample_open;
  pose proof seeds_differ as (? & ? & ?);
  repeat first [rewrite put_same; reflexivity | rewrite put_other by congruence].

Lemma init_node seed :
  calls_succeed seed = true →
  w_node (world_init sample_net) (seed_id seed)
  = mkNode (Off (header_version sample_context (ed25519_public_key seed) true)) [].
Proof. unfold calls_succeed. intros Hc. bool_props. cbn [world_init w_node]. by rewrite H. Qed.

Lemma sample_started_reachable : reachable sample_net sample_started.
Proof.
  destruct seeds_succeed as (H1 & H2 & H3).
  apply enter_reachable; [done| |find_node; by apply init_node].
  apply enter_reachable; [done| |find_node; by apply init_node].
  apply enter_reachable; [done|apply rtc_refl|by apply init_node].
Qed.

Lemma sample_done_reachable : reachable sample_net sample_done.
Proof.
  destruct seeds_succeed as (H1 & H2 & H3).
  apply last_reachable; [done| |find_node|evaluate].
  apply last_reachable; [done| |find_node|evaluate].
  apply second_reachable; [done| |find_node|evaluate].
  apply second_reachable; [done| |find_node|evaluate].
  apply second_reachable; [done| |find_node|evaluate].
  apply first_reachable; [done| |find_node].
  apply first_reachable; [done| |find_node].
  apply first_reachable; [done| |find_node].
  apply sample_started_reachable.
Qed.

Lemma sample_committed : committed (w_pool sample_done) sample_ac sample_block.
Proof.
  exists sample_finality, sample_header. split; [|split; [|reflexivity]].
  - assert (is_ok (verify_certificate sample_ac sample_finality sample_header) = true) as H by evaluate.
    by destruct (verify_certificate _ _ _) as [[]|].
  - apply holds_all_spec. evaluate.
Qed.

Lemma sample_few_faulty :
  faulty_power sample_net sample_ac < 2 * quorum sample_ac - ac_total sample_ac.
Proof. apply Z.ltb_lt. evaluate. Qed.

Lemma agreement_witness : sample_block = sample_block ∨ digest_collision sample_done.
Proof.
  exact (agreement sample_net sample_done sample_ac sample_block sample_block sample_net_ok
    sample_done_reachable eq_refl sample_few_faulty sample_committed sample_committed).
Defined.

(** The committee and the final block of the first two nodes. *)
Lemma sample_final seed :
  seed ∈ [seed1; seed2] →
  bool_decide (correct sample_net (seed_id seed) = true)
  && bool_decide (lb_finalized (finalized seed) = Some sample_block)
  && (ac_height (lb_committee (finalized seed)) =? 5)
  && (faulty_power sample_net (lb_committee (finalized seed))
      <? 2 * quorum (lb_committee (finalized seed)) - ac_total (lb_committee (finalized seed))) = true.
Proof. intros [->|[->|[]%elem_of_nil]%elem_of_cons]%elem_of_cons; evaluate. Qed.

Lemma finalized_nodes_agree_witness : sample_block = sample_block ∨ digest_collision sample_done.
Proof.
  assert (K1 := sample_final seed1 ltac:(by left)).
  assert (K2 := sample_final seed2 ltac:(by right; left)). bool_props.
  apply (finalized_nodes_agree sample_net sample_done (seed_id seed1) (seed_id seed2)
    (finalized seed1) (finalized seed2) sample_block sample_block sample_net_ok
    sample_done_reachable); [done|done|by find_node|by find_node|congruence|done..].
Defined.

Lemma vote_survives_restart_witness :
  ∃ s resumed,
    initialize sample_context seed1
      (OpenJournal (j_file (ds_journal (lb_signer (prevoted seed1)))) true) = Ok s
    ∧ local_new (lb_committee (prevoted seed1)) s (le 32 9) = Ok resumed
    ∧ lb_round resumed = lb_round (prevoted seed1)
    ∧ lb_step resumed = lb_step (prevoted seed1)
    ∧ lb_locked resumed = lb_locked (prevoted seed1).
Proof.
  destruct seeds_succeed as (H1 & _ & _). unfold calls_succeed in H1. bool_props.
  apply (vote_survives_restart sample_net sample_started (seed_id seed1) seed1 (sample_start seed1)
    prevote_op all_persisted (prevoted seed1) (prevote_of seed1) sample_net_ok);
    [evaluate|exact sample_started_reachable|done|by find_node|constructor|].
  by apply votes_perform.
Defined.
End agreement_examples.
