(* ===== verification/State.v ===== *)
(** * State: changes, leases and staged transitions
    ([diff.rs], [lease.rs], [account.rs], [database.rs] and the staging half of
    [snapshot.rs] in [src/crates/state/src])

    A block changes the state through ordered diffs.  [stage] is the reference
    transition over an ordered map, with its bounds checked in operation order. *)

From S2P Require Import Prelude Ordered Codec Types.

Inductive StateError :=
| StateCorrupt
| LeaseViolation
| StaleSnapshot
| StateLimitExceeded
| RootMismatch
| StateLocked
| StateIo
| StateDurabilityUnknown.

(** ** Diffs *)

Inductive StateChange :=
| Put (key : StateKey) (value : bytes)
| Delete (key : StateKey).

#[global] Instance StateChange_eq_dec : EqDecision StateChange.
Proof. solve_decision. Defined.

Definition change_key (c : StateChange) : StateKey :=
  match c with Put key _ | Delete key => key end.

Record StateDiff := mkDiff { changes : list StateChange }.

Definition StateMap : Type := BTreeMap StateKey bytes.

Definition diff_new : StateDiff := mkDiff [].
Definition diff_put (d : StateDiff) (key : StateKey) (value : bytes) : StateDiff :=
  mkDiff (changes d ++ [Put key value]).
Definition diff_delete (d : StateDiff) (key : StateKey) : StateDiff :=
  mkDiff (changes d ++ [Delete key]).
Definition diff_merge (d other : StateDiff) : StateDiff := mkDiff (changes d ++ changes other).

(** [sort_by] is stable. *)
Fixpoint insert_change (c : StateChange) (cs : list StateChange) : list StateChange :=
  match cs with
  | [] => [c]
  | c' :: cs' => if leb (change_key c) (change_key c') then c :: cs else c' :: insert_change c cs'
  end.

Definition sort_changes (cs : list StateChange) : list StateChange := foldr insert_change [] cs.

Definition sort_canonical (d : StateDiff) : StateDiff := mkDiff (sort_changes (changes d)).

Definition apply_change (state : StateMap) (c : StateChange) : StateMap :=
  match c with Put key value => bt_insert key value state | Delete key => bt_remove key state end.

Definition apply_to (d : StateDiff) (state : StateMap) : StateMap :=
  fold_left apply_change (changes d) state.

Definition encode_change (c : StateChange) : bytes :=
  match c with
  | Put key value => le 1 1 ++ encode_bytes key ++ encode_bytes value
  | Delete key => le 1 2 ++ encode_bytes key
  end.

Definition encode_diff (d : StateDiff) : bytes :=
  encode_length (len (changes d)) ++ encode_all encode_change (changes d).

Definition diff_commitment `{!Blake2s} (d : StateDiff) : Hash256 :=
  domain_hash domain.STATE_DIFF (encode_diff d).

(** ** Leases *)

Inductive AccessMode := ReadAccess | WriteAccess.

#[global] Instance AccessMode_eq_dec : EqDecision AccessMode.
Proof. solve_decision. Defined.

Record AccessRequest := mkRequest { ar_key : StateKey; ar_mode : AccessMode }.

Record StateLease := mkLease { sl_requests : list AccessRequest }.

(** [entry().and_modify().or_insert()]: write access wins. *)
Definition lease_step (modes : BTreeMap StateKey AccessMode) (r : AccessRequest)
    : BTreeMap StateKey AccessMode :=
  match bt_get (ar_key r) modes with
  | Some mode =>
      bt_insert (ar_key r)
        (if bool_decide (ar_mode r = WriteAccess) then WriteAccess else mode) modes
  | None => bt_insert (ar_key r) (ar_mode r) modes
  end.

Definition lease_new (requests : list AccessRequest) : StateLease :=
  mkLease (map (λ kv, mkRequest (fst kv) (snd kv)) (fold_left lease_step requests [])).

Definition lease_covers (l : StateLease) (key : StateKey) (mode : AccessMode) : bool :=
  existsb (λ r, bool_decide (ar_key r = key)
                && (bool_decide (ar_mode r = WriteAccess) || bool_decide (ar_mode r = mode)))
    (sl_requests l).

Definition requests_conflict (left right : AccessRequest) : bool :=
  bool_decide (ar_key left = ar_key right)
  && (bool_decide (ar_mode left = WriteAccess) || bool_decide (ar_mode right = WriteAccess)).

Definition conflicts_with (l other : StateLease) : bool :=
  existsb (λ left, existsb (requests_conflict left) (sl_requests other)) (sl_requests l).

Definition has_writes (l : StateLease) : bool :=
  existsb (λ r, bool_decide (ar_mode r = WriteAccess)) (sl_requests l).

Definition write_keys (l : StateLease) : list StateKey :=
  map ar_key (filter (λ r, ar_mode r = WriteAccess) (sl_requests l)).

(** ** Accounts *)

Definition ACCOUNT_NAMESPACE : bytes := lit "astrolune/account/v1/".

Definition account_key (address : Address) : StateKey := ACCOUNT_NAMESPACE ++ address.

(** A snapshot is what it answers; reads of a corrupt backend may fail. *)
Definition StateView : Type := StateKey → result (option bytes) StateError.

Definition view_account (view : StateView) (address : Address)
    : result (option AccountState) StateError :=
  let? found := view (account_key address) in
  match found with
  | None => Ok None
  | Some bs =>
      let? account := map_err (λ _, StateCorrupt) (account_decode bs) in
      Ok (Some account)
  end.

(** ** Bounds *)

Definition MAX_STATE_ENTRIES : Z := 1048576.
Definition MAX_STATE_KEY_BYTES : Z := 256.
Definition MAX_STATE_VALUE_BYTES : Z := 1048576.
Definition MAX_SNAPSHOT_BYTES : Z := 64 * 1024 * 1024.
Definition SNAPSHOT_HEADER_BYTES : Z := 8 + 2 + 8 + 32.

Definition entry_size (key : StateKey) (value : bytes) : Z := 16 + len key + len value.

Definition encoded_size (data : StateMap) : result Z StateError :=
  try_fold (λ size kv, ok_or (checked_add 64 size (entry_size (fst kv) (snd kv))) StateLimitExceeded)
    SNAPSHOT_HEADER_BYTES data.

(** One operation of [stage]: the next map and its encoded size. *)
Definition stage_step (acc : StateMap * Z) (c : StateChange) : result (StateMap * Z) StateError :=
  let '(next, size) := acc in
  let? _ := reject_if (MAX_STATE_KEY_BYTES <? len (change_key c)) StateLimitExceeded in
  match c with
  | Put key value =>
      let? _ := reject_if (MAX_STATE_VALUE_BYTES <? len value) StateLimitExceeded in
      let size := match bt_get key next with Some old => size - entry_size key old | None => size end in
      let? size := ok_or (checked_add 64 size (entry_size key value)) StateLimitExceeded in
      let? _ := reject_if ((MAX_SNAPSHOT_BYTES <? size)
                           || (negb (bt_contains key next) && (len next =? MAX_STATE_ENTRIES)))
                  StateLimitExceeded in
      Ok (bt_insert key value next, size)
  | Delete key =>
      Ok match bt_get key next with
         | Some old => (bt_remove key next, size - entry_size key old)
         | None => (next, size)
         end
  end.

(** The operations of a commit, in order. *)
Definition all_changes (diffs : list StateDiff) : list StateChange := flat_map changes diffs.

Definition stage (next : StateMap) (diffs : list StateDiff) : result StateMap StateError :=
  let? size := encoded_size next in
  let? (staged, _) := try_fold stage_step (next, size) (all_changes diffs) in
  Ok staged.
