(* ===== verification/StateTree.v ===== *)
(** * StateTree: the persistent Merkle tree behind a state root
    ([tree.rs], [commitment.rs] and [memory.rs] in [src/crates/state/src])

    The tree caches hashes, key bounds, counts and sizes in its nodes and replaces
    values along shared paths, optionally reusing subtrees that were hashed ahead of
    time ([CommitSeals]).  The theorems relate all of this to the ordered map the
    tree stands for.

    [Arc::ptr_eq] may answer anything as long as it never identifies different
    nodes; the reuse counter of [CommitSeals] is a statistic and left out. *)

From Stdlib Require Import Sorting.Sorted.
From S2P Require Import Prelude Ordered Codec Types State.

(** ** Commitments *)

Definition leaf_data (key : StateKey) (value : bytes) : bytes :=
  le 8 (len key) ++ key ++ le 8 (len value) ++ value.
Definition node_data (left right : Hash256) : bytes := left ++ right.
Definition root_data (count : Z) (top : Hash256) : bytes := le 8 count ++ top.

Section commitments.
Context {blake : Blake2s}.

Definition leaf_hash (key : StateKey) (value : bytes) : Hash256 :=
  domain_hash domain.STATE_LEAF (leaf_data key value).
Definition node_hash (left right : Hash256) : Hash256 :=
  domain_hash domain.STATE_NODE (node_data left right).
Definition root_hash (count : Z) (top : Hash256) : Hash256 :=
  domain_hash domain.STATE_ROOT (root_data count top).
Definition empty_root : Hash256 := root_hash 0 zero32.
End commitments.

(** ** Nodes *)

Inductive Node :=
| LeafNode (hash : Hash256) (last_key : StateKey) (count size : Z) (value : bytes)
| BranchNode (hash : Hash256) (last_key : StateKey) (count size : Z) (left right : Node).

Definition n_hash (n : Node) : Hash256 :=
  match n with LeafNode hash _ _ _ _ | BranchNode hash _ _ _ _ _ => hash end.
Definition n_last_key (n : Node) : StateKey :=
  match n with LeafNode _ key _ _ _ | BranchNode _ key _ _ _ _ => key end.
Definition n_count (n : Node) : Z :=
  match n with LeafNode _ _ count _ _ | BranchNode _ _ count _ _ _ => count end.
Definition n_size (n : Node) : Z :=
  match n with LeafNode _ _ _ size _ | BranchNode _ _ _ size _ _ => size end.

(** [Arc::ptr_eq]: pointers to one allocation are one node. *)
Class Arcs := {
  ptr_eq : Node → Node → bool;
  ptr_eq_sound : ∀ a b, ptr_eq a b = true → a = b
}.

(** Subtrees hashed before the commit. *)
Record Partition := mkPartition {
  pt_base : Node;
  pt_remaining : Z;
  pt_values : list (StateKey * option bytes);
  pt_result : option Node
}.

Record CommitSeals := mkSeals {
  seal_parent : Hash256;
  seal_transaction_root : Hash256;
  seal_partitions : BTreeMap StateKey Partition;
  seal_writers : BTreeMap StateKey (Z * StateKey * Z)
}.

(** Final values by key, in key order. *)
Definition Writes : Type := list (StateKey * bytes).

(** [slice::partition_point] of a partitioned slice. *)
Fixpoint split_writes {V : Type} (last_key : StateKey) (writes : list (StateKey * V))
    : list (StateKey * V) * list (StateKey * V) :=
  match writes with
  | [] => ([], [])
  | kv :: writes' =>
      if leb (fst kv) last_key
      then let '(low, high) := split_writes last_key writes' in (kv :: low, high)
      else ([], writes)
  end.

Section tree.
Context {blake : Blake2s} {arcs : Arcs}.

Definition make_leaf (key : StateKey) (value : bytes) : Node :=
  LeafNode (leaf_hash key value) key 1 (entry_size key value) value.

Definition make_branch (left right : Node) : Node :=
  BranchNode (node_hash (n_hash left) (n_hash right)) (n_last_key right)
    (n_count left + n_count right) (n_size left + n_size right) left right.

(** The recorded values are exactly the writes. *)
Definition values_match (values : list (StateKey * option bytes)) (writes : Writes) : bool :=
  (len values =? len writes)
  && forallb (λ '((key, slot), (actual, value)),
       bool_decide (key = actual) && bool_decide (slot = Some value)) (zip values writes).

(** The subtree a seal offers for these writes. *)
Definition seal_result (seals : option CommitSeals) (node : Node) (writes : Writes) : option Node :=
  match seals with
  | Some seals =>
      match bt_get (n_last_key node) (seal_partitions seals) with
      | Some p =>
          if ptr_eq node (pt_base p)
          then match pt_result p with
               | Some result => if values_match (pt_values p) writes then Some result else None
               | None => None
               end
          else None
      | None => None
      end
  | None => None
  end.

Fixpoint replace_sealed (seals : option CommitSeals) (node : Node) (writes : Writes) : Node :=
  match writes with
  | [] => node
  | (_, first) :: _ =>
      match seal_result seals node writes with
      | Some result => result
      | None =>
          match node with
          | LeafNode _ key _ _ value =>
              if bool_decide (value = first) then node else make_leaf key first
          | BranchNode _ _ _ _ l r =>
              let '(low, high) := split_writes (n_last_key l) writes in
              let next_left := replace_sealed seals l low in
              let next_right := replace_sealed seals r high in
              if ptr_eq l next_left && ptr_eq r next_right then node
              else make_branch next_left next_right
          end
      end
  end.

Definition replace : Node → Writes → Node := replace_sealed None.

(** ** Trees *)

Definition Tree : Type := option Node.

(** One round of [from_map]: pair neighbours, promote the last of an odd level. *)
Fixpoint pair_level (level : list Node) : list Node :=
  match level with
  | l :: r :: rest => make_branch l r :: pair_level rest
  | _ => level
  end.

Fixpoint build (fuel : nat) (level : list Node) : Tree :=
  match level with
  | [] => None
  | [node] => Some node
  | _ => match fuel with O => None | S fuel => build fuel (pair_level level) end
  end.

Definition leaves (data : StateMap) : list Node := map (λ kv, make_leaf (fst kv) (snd kv)) data.

Definition from_map (data : StateMap) : Tree := build (length data) (leaves data).

Definition tree_len (t : Tree) : Z := match t with Some node => n_count node | None => 0 end.

Definition tree_hash (t : Tree) : Hash256 :=
  root_hash (tree_len t) match t with Some node => n_hash node | None => zero32 end.

Fixpoint node_get (key : StateKey) (node : Node) : option bytes :=
  match node with
  | LeafNode _ last_key _ _ value => if bool_decide (key = last_key) then Some value else None
  | BranchNode _ _ _ _ l r =>
      if leb key (n_last_key l) then node_get key l else node_get key r
  end.

Definition tree_get (t : Tree) (key : StateKey) : option bytes :=
  match t with Some node => node_get key node | None => None end.

(** The in-order entries, and the explicit stack [Entries] visits them with. *)
Fixpoint node_entries (node : Node) : StateMap :=
  match node with
  | LeafNode _ key _ _ value => [(key, value)]
  | BranchNode _ _ _ _ l r => node_entries l ++ node_entries r
  end.

Definition tree_entries (t : Tree) : StateMap :=
  match t with Some node => node_entries node | None => [] end.

(** [Iterator::next]; each pop of a branch is one unit of fuel. *)
Fixpoint entries_next (fuel : nat) (pending : list Node)
    : option ((StateKey * bytes) * list Node) :=
  match pending with
  | [] => None
  | LeafNode _ key _ _ value :: pending => Some ((key, value), pending)
  | BranchNode _ _ _ _ l r :: pending =>
      match fuel with O => None | S fuel => entries_next fuel (l :: r :: pending) end
  end.

(** The iterator, run until it is exhausted. *)
Fixpoint entries_all (steps fuel : nat) (pending : list Node) : StateMap :=
  match steps with
  | O => []
  | S steps =>
      match entries_next fuel pending with
      | None => []
      | Some (entry, pending) => entry :: entries_all steps fuel pending
      end
  end.

(** [to_map]: the visited entries, collected. *)
Definition to_map (t : Tree) : StateMap := bt_collect (tree_entries t).

(** The loop of [prepare]: the encoded size and the final writes so far.  [Ok None]
    asks for the path that changes the topology. *)
Fixpoint prepare_loop (t : Tree) (cs : list StateChange) (size : Z) (writes : BTreeMap StateKey bytes)
    : result (option (BTreeMap StateKey bytes)) StateError :=
  match cs with
  | [] => Ok (Some writes)
  | c :: cs' =>
      let? _ := reject_if (MAX_STATE_KEY_BYTES <? len (change_key c)) StateLimitExceeded in
      match c with
      | Put key value =>
          let? _ := reject_if (MAX_STATE_VALUE_BYTES <? len value) StateLimitExceeded in
          match tree_get t key with
          | None => Ok None
          | Some original =>
              let old := default original (bt_get key writes) in
              let? size := ok_or (checked_add 64 (size - len old) (len value)) StateLimitExceeded in
              let? _ := reject_if (MAX_SNAPSHOT_BYTES <? size) StateLimitExceeded in
              prepare_loop t cs' size (bt_insert key value writes)
          end
      | Delete key =>
          match tree_get t key with
          | Some _ => Ok None
          | None => prepare_loop t cs' size writes
          end
      end
  end.

Definition tree_prepare_sealed (t : Tree) (diffs : list StateDiff) (seals : option CommitSeals)
    : result (option Tree) StateError :=
  let size := SNAPSHOT_HEADER_BYTES + match t with Some node => n_size node | None => 0 end in
  let? prepared := prepare_loop t (all_changes diffs) size [] in
  Ok match prepared with
     | Some writes => Some match t with
                           | Some node => Some (replace_sealed seals node writes)
                           | None => None
                           end
     | None => None
     end.

Definition tree_prepare (t : Tree) (diffs : list StateDiff) : result (option Tree) StateError :=
  tree_prepare_sealed t diffs None.

(** ** Sealing subtrees ahead of the commit *)

Definition with_partitions (s : CommitSeals) (partitions : BTreeMap StateKey Partition) : CommitSeals :=
  mkSeals (seal_parent s) (seal_transaction_root s) partitions (seal_writers s).

(** The writer, the partition and the slot of each planned key. *)
Fixpoint plan_writers (partition_key : StateKey) (slot : Z) (keys : list (StateKey * Z))
    (writers : BTreeMap StateKey (Z * StateKey * Z)) : BTreeMap StateKey (Z * StateKey * Z) :=
  match keys with
  | [] => writers
  | (key, writer) :: keys =>
      plan_writers partition_key (slot + 1) keys (bt_insert key (writer, partition_key, slot) writers)
  end.

Fixpoint plan_partition (node : Node) (keys : list (StateKey * Z)) (seals : CommitSeals)
    : CommitSeals :=
  match keys with
  | [] => seals
  | _ =>
      let small :=
        mkSeals (seal_parent seals) (seal_transaction_root seals)
          (bt_insert (n_last_key node)
             (mkPartition node (len keys) (map (λ kw, (fst kw, None)) keys) None)
             (seal_partitions seals))
          (plan_writers (n_last_key node) 0 keys (seal_writers seals)) in
      if n_count node <=? 64 then small
      else
        match node with
        | BranchNode _ _ _ _ l r =>
            let '(low, high) := split_writes (n_last_key l) keys in
            plan_partition r high (plan_partition l low seals)
        | LeafNode _ _ _ _ _ => seals
        end
  end.

(** The last writer of every key, [None] when a plan is not worthwhile. *)
Fixpoint last_writers (t : Tree) (index : Z) (writes : list (list StateKey))
    (last : BTreeMap StateKey Z) : option (BTreeMap StateKey Z) :=
  match writes with
  | [] => Some last
  | keys :: writes =>
      if 2 <? len keys then None
      else if forallb (λ key, is_some (tree_get t key)) keys
      then last_writers t (index + 1) writes (fold_left (λ m key, bt_insert key index m) keys last)
      else None
  end.

Definition plan_seals (t : Tree) (transaction_root : Hash256) (writes : list (list StateKey))
    : option CommitSeals :=
  if 8192 <? len writes then None
  else
    match last_writers t 0 writes [] with
    | None => None
    | Some last =>
        if len last <? 512 then None
        else match t with
             | Some node => Some (plan_partition node last (mkSeals (tree_hash t) transaction_root [] []))
             | None => None
             end
    end.

(** [OnceLock::set] of one slot. *)
Fixpoint set_slot (slot : nat) (value : bytes) (values : list (StateKey * option bytes))
    : option (list (StateKey * option bytes)) :=
  match values, slot with
  | (key, None) :: values, O => Some ((key, Some value) :: values)
  | kv :: values, S slot =>
      match set_slot slot value values with Some values => Some (kv :: values) | None => None end
  | _, _ => None
  end.

(** All the recorded values, once every slot is set. *)
Fixpoint recorded (values : list (StateKey * option bytes)) : option Writes :=
  match values with
  | [] => Some []
  | (key, Some value) :: values =>
      match recorded values with Some writes => Some ((key, value) :: writes) | None => None end
  | (_, None) :: _ => None
  end.

(** One change of [CommitSeals::record].  A planned key names a partition of the
    plan, so the lookup of the source cannot fail. *)
Definition record_change (index : Z) (seals : CommitSeals) (c : StateChange)
    : result CommitSeals StateError :=
  match c with
  | Delete _ => Err LeaseViolation
  | Put key value =>
      let? (writer, slot) := ok_or (bt_get key (seal_writers seals)) LeaseViolation in
      let '(last_writer, partition_key) := writer in
      let? _ := reject_if ((last_writer <? index) || (MAX_STATE_VALUE_BYTES <? len value))
                  LeaseViolation in
      if negb (index =? last_writer) then Ok seals
      else
        let? p := ok_or (bt_get partition_key (seal_partitions seals)) StateCorrupt in
        let? values := ok_or (set_slot (Z.to_nat slot) value (pt_values p)) LeaseViolation in
        let? result :=
          (if pt_remaining p =? 1
           then let? writes := ok_or (recorded values) StateCorrupt in
                let? _ := reject_if (is_some (pt_result p)) StateCorrupt in
                Ok (Some (replace (pt_base p) writes))
           else Ok (pt_result p)) in
        Ok (with_partitions seals
              (bt_insert partition_key
                 (mkPartition (pt_base p) (pt_remaining p - 1) values result)
                 (seal_partitions seals)))
  end.

Definition record (seals : CommitSeals) (index : Z) (diff : StateDiff)
    : result CommitSeals StateError :=
  try_fold (record_change index) seals (changes diff).

(** ** The in-memory database ([memory.rs]) *)

Record InMemoryState := mkState {
  im_data : Tree;
  im_root : Hash256
}.

Definition state_new : InMemoryState := mkState None empty_root.

Definition state_get (s : InMemoryState) (key : StateKey) : option bytes := tree_get (im_data s) key.

Definition prepare_sealed (s : InMemoryState) (parent : Hash256) (diffs : list StateDiff)
    (seals : option CommitSeals) : result InMemoryState StateError :=
  let? _ := reject_if (negb (bool_decide (parent = im_root s))) StaleSnapshot in
  let? prepared :=
    match seals with
    | Some plan =>
        if bool_decide (seal_parent plan = parent)
        then tree_prepare_sealed (im_data s) diffs (Some plan)
        else tree_prepare (im_data s) diffs
    | None => tree_prepare (im_data s) diffs
    end in
  let? data := match prepared with
               | Some data => Ok data
               | None => let? staged := stage (to_map (im_data s)) diffs in Ok (from_map staged)
               end in
  Ok (mkState data (tree_hash data)).

Definition prepare (s : InMemoryState) (parent : Hash256) (diffs : list StateDiff)
    : result InMemoryState StateError :=
  prepare_sealed s parent diffs None.

(** The state after a call, and its outcome. *)
Definition publish (s : InMemoryState) (next : result InMemoryState StateError)
    : InMemoryState * result Hash256 StateError :=
  match next with Ok next => (next, Ok (im_root next)) | Err error => (s, Err error) end.

Definition commit (s : InMemoryState) (parent : Hash256) (diffs : list StateDiff)
    : InMemoryState * result Hash256 StateError := publish s (prepare s parent diffs).

Definition commit_sealed (s : InMemoryState) (parent : Hash256) (diffs : list StateDiff)
    (seals : option CommitSeals) : InMemoryState * result Hash256 StateError :=
  publish s (prepare_sealed s parent diffs seals).

Definition commit_verified (s : InMemoryState) (parent : Hash256) (diffs : list StateDiff)
    (expected : Hash256) : InMemoryState * result Hash256 StateError :=
  publish s (let? next := prepare s parent diffs in
             let? _ := reject_if (negb (bool_decide (im_root next = expected))) RootMismatch in
             Ok next).
End tree.

(** ** Nodes and the entries they hold *)

#[local] Arguments cmp : simpl never.

Section node_facts.
Context {blake : Blake2s} {arcs : Arcs}.
Implicit Types (n l r : Node) (m : StateMap) (ws : Writes).

(** The cached fields of a node are those of its children. *)
Fixpoint node_ok n : Prop :=
  match n with
  | LeafNode _ key _ _ value => n = make_leaf key value
  | BranchNode _ _ _ _ l r => n = make_branch l r ∧ node_ok l ∧ node_ok r
  end.

Lemma node_entries_last n : node_ok n → ∃ m v, node_entries n = m ++ [(n_last_key n, v)].
Proof.
  induction n as [h k c s v|h k c s l IHl r IHr]; simpl.
  - intros [= -> -> ->]. by exists [], v.
  - intros (E & _ & Hr). destruct (IHr Hr) as (m & v & ->). exists (node_entries l ++ m), v.
    rewrite <- app_assoc. unfold make_branch in E. by injection E as _ -> _ _.
Qed.

Lemma node_last_in n : node_ok n → n_last_key n ∈ bt_keys (node_entries n).
Proof.
  intros (m & v & ->)%node_entries_last. rewrite bt_keys_app, elem_of_app. right. by left.
Qed.

Lemma node_last_max n k :
  node_ok n → bt_ok (node_entries n) → k ∈ bt_keys (node_entries n) →
  leb k (n_last_key n) = true.
Proof.
  intros (m & v & ->)%node_entries_last (_ & _ & H)%bt_ok_app.
  rewrite bt_keys_app, elem_of_app. intros [Hk|Hk]; apply leb_iff.
  - left. apply H; [done|by left].
  - right. by apply list_elem_of_singleton in Hk.
Qed.

Lemma node_counts n :
  node_ok n → n_count n = len (node_entries n)
  ∧ n_size n = sumZ (λ kv, entry_size (fst kv) (snd kv)) (node_entries n).
Proof.
  induction n as [h k c s v|h k c s l IHl r IHr]; simpl.
  - intros [= -> -> ->]. unfold len. simpl. lia.
  - intros (E & Hl & Hr). destruct (IHl Hl), (IHr Hr). unfold make_branch in E.
    injection E as _ _ -> ->. rewrite len_app, sumZ_app. lia.
Qed.

(** Descending by the cached bounds is a lookup. *)
Lemma node_get_spec n k :
  node_ok n → bt_ok (node_entries n) → node_get k n = bt_get k (node_entries n).
Proof.
  induction n as [h key c s v|h key c s l IHl r IHr]; simpl.
  - intros _ _. case_bool_decide as E; [subst; by rewrite cmp_refl|].
    rewrite <- cmp_eq_iff in E. by destruct (cmp k key).
  - intros (_ & Hl & Hr) (Ol & Or & Hlr)%bt_ok_app. rewrite bt_get_app. case_match eqn:E.
    + rewrite IHl by done. destruct (bt_get k (node_entries l)) eqn:G; [done|].
      symmetry. apply bt_get_none_keys. intros Hk.
      assert (lt_of (n_last_key l) k) as Hlt by (apply Hlr; [by apply node_last_in|done]).
      apply leb_false in Hlt. congruence.
    + assert (bt_get k (node_entries l) = None) as ->; [|by apply IHr].
      apply bt_get_none_keys. intros Hk. rewrite node_last_max in E by done. done.
Qed.

(** ** Building a level *)

Lemma node_pair_ind (P : list Node → Prop) :
  P [] → (∀ a, P [a]) → (∀ a b level, P level → P (a :: b :: level)) → ∀ level, P level.
Proof.
  intros H0 H1 H2 level. enough (P level ∧ ∀ a, P (a :: level)) by tauto.
  induction level as [|b level [IH1 IH2]]; [by auto|]. split; [done|]. intros a. by apply H2.
Qed.

Lemma pair_level_length level : (length (pair_level level) = Nat.div2 (S (length level)))%nat.
Proof. induction level as [|a|a b level IH] using node_pair_ind; simpl; [done..|]. by rewrite IH. Qed.

Lemma pair_level_shrinks level :
  (2 <= length level → length (pair_level level) < length level)%nat.
Proof.
  intros H. rewrite pair_level_length, Nat.div2_div. apply Nat.Div0.div_lt_upper_bound. lia.
Qed.

Lemma pair_level_ok level : Forall node_ok level → Forall node_ok (pair_level level).
Proof.
  induction level as [|a|a b level IH] using node_pair_ind; simpl; [done..|].
  intros (Ha & (Hb & H)%Forall_cons)%Forall_cons. constructor; [done|auto].
Qed.

Lemma pair_level_entries level :
  flat_map node_entries (pair_level level) = flat_map node_entries level.
Proof.
  induction level as [|a|a b level IH] using node_pair_ind; simpl; [done..|].
  by rewrite IH, app_assoc.
Qed.

(** Enough fuel builds one node over all the entries. *)
Lemma build_spec fuel level :
  (length level <= S fuel)%nat → Forall node_ok level → level ≠ [] →
  ∃ n, build fuel level = Some n ∧ node_ok n ∧ node_entries n = flat_map node_entries level.
Proof.
  revert level. induction fuel as [|fuel IH]; intros [|a [|b level]] Hf Hok Hne; simpl in Hf; try lia;
    try done; try (exists a; rewrite Forall_singleton in Hok; simpl; by rewrite app_nil_r).
  cbn [build]. pose proof (pair_level_shrinks (a :: b :: level) ltac:(simpl; lia)) as Hs.
  destruct (IH (pair_level (a :: b :: level))) as (n & Hn & Hok' & He); [simpl in *; lia| |done|].
  - by apply pair_level_ok.
  - exists n. split_and!; [done..|]. by rewrite He, pair_level_entries.
Qed.

Lemma leaves_ok m : Forall node_ok (leaves m).
Proof. apply Forall_forall. by intros n (kv & -> & _)%list_elem_of_fmap. Qed.

Lemma leaves_entries m : flat_map node_entries (leaves m) = m.
Proof. induction m as [|[k v] m IH]; simpl; [done|]. by rewrite IH. Qed.

Lemma from_map_spec m :
  match from_map m with
  | Some n => node_ok n ∧ node_entries n = m
  | None => m = []
  end.
Proof.
  unfold from_map. destruct m as [|kv m]; [done|].
  destruct (build_spec (length (kv :: m)) (leaves (kv :: m))) as (n & -> & Hok & He);
    [unfold leaves; rewrite length_map; simpl; lia|apply leaves_ok|done|].
  by rewrite He, leaves_entries.
Qed.

Lemma from_map_entries m : tree_entries (from_map m) = m.
Proof. pose proof (from_map_spec m). by destruct (from_map m) as [n|]; [apply H|]. Qed.

Lemma from_map_get m k : bt_ok m → tree_get (from_map m) k = bt_get k m.
Proof.
  intros Hm. pose proof (from_map_spec m) as H. destruct (from_map m) as [n|]; simpl; [|by subst].
  destruct H as [Hok <-]. by apply node_get_spec.
Qed.

Lemma from_map_len m : tree_len (from_map m) = len m.
Proof.
  pose proof (from_map_spec m) as H. destruct (from_map m) as [n|]; simpl; [|by subst].
  destruct H as [Hok <-]. by apply node_counts.
Qed.
End node_facts.

(** ** Replacing values *)

Section replace_facts.
Context {blake : Blake2s} {arcs : Arcs}.
Implicit Types (n l r : Node) (m : StateMap) (ws : Writes).

(** The tree of the same shape with every value rewritten. *)
Fixpoint remap (f : StateKey → bytes → bytes) n : Node :=
  match n with
  | LeafNode _ key _ _ value => make_leaf key (f key value)
  | BranchNode _ _ _ _ l r => make_branch (remap f l) (remap f r)
  end.

Definition overwrite ws (key : StateKey) (value : bytes) : bytes := default value (bt_get key ws).

(** The map with the final writes in place of the old values. *)
Definition overlay_map m ws : StateMap := map (λ kv, (fst kv, overwrite ws (fst kv) (snd kv))) m.

Lemma remap_ext f g n :
  (∀ k v, (k, v) ∈ node_entries n → f k v = g k v) → remap f n = remap g n.
Proof.
  induction n as [h k c s v|h k c s l IHl r IHr]; simpl; intros H.
  - rewrite H; [done|by left].
  - f_equal; [apply IHl|apply IHr]; intros k' v' Hin; apply H, elem_of_app; auto.
Qed.

Lemma remap_id f n : node_ok n → (∀ k v, (k, v) ∈ node_entries n → f k v = v) → remap f n = n.
Proof.
  induction n as [h k c s v|h k c s l IHl r IHr]; simpl.
  - intros -> H. rewrite H; [done|by left].
  - intros (-> & Hl & Hr) H. rewrite IHl, IHr; [done|done| |done|];
      intros k' v' Hin; apply H, elem_of_app; auto.
Qed.

Lemma pair_level_remap f level : pair_level (map (remap f) level) = map (remap f) (pair_level level).
Proof. induction level as [|a|a b level IH] using node_pair_ind; simpl; [done..|]. by rewrite IH. Qed.

Lemma build_remap f fuel level :
  build fuel (map (remap f) level) = option_map (remap f) (build fuel level).
Proof.
  revert level. induction fuel as [|fuel IH]; intros [|a [|b level]]; try done.
  cbn [build map]. rewrite <- IH, <- pair_level_remap. done.
Qed.

Lemma from_map_remap m ws :
  from_map (overlay_map m ws) = option_map (remap (overwrite ws)) (from_map m).
Proof.
  unfold from_map, overlay_map. rewrite length_map, <- build_remap. f_equal.
  unfold leaves. rewrite !map_map. apply map_ext. by intros [k v].
Qed.

(** ** Splitting sorted writes at a bound *)

Lemma split_writes_app {V : Type} (last : StateKey) (ws low high : list (StateKey * V)) :
  split_writes last ws = (low, high) → ws = low ++ high ∧ Forall (λ kv, leb (fst kv) last = true) low.
Proof.
  revert low. induction ws as [|kv ws IH]; intros low; simpl; [by intros [= <- <-]|].
  case_match eqn:E; [|by intros [= <- <-]].
  destruct (split_writes last ws) as [low' high']. intros [= <- <-].
  destruct (IH low' eq_refl) as [-> Hl]. split; [done|]. by constructor.
Qed.

Lemma split_writes_high {V : Type} (last : StateKey) (ws low high : BTreeMap StateKey V) k :
  bt_ok ws → split_writes last ws = (low, high) → k ∈ bt_keys high → lt_of last k.
Proof.
  revert low. induction ws as [|[k1 v1] ws IH]; intros low; simpl; [by intros _ [= <- <-] ?%elem_of_nil|].
  intros [Hok Hall]%bt_ok_cons_inv. case_match eqn:E.
  - destruct (split_writes last ws) as [low' high'] eqn:Es. intros [= <- <-]. by apply (IH low').
  - intros [= <- <-]. simpl. apply leb_false in E.
    intros [->|Hk]%elem_of_cons; [done|]. apply (lt_of_trans _ k1); auto.
Qed.

Definition covers (m : StateMap) ws : Prop := ∀ k, k ∈ bt_keys ws → k ∈ bt_keys m.

(** The two halves of the writes belong to the two children. *)
Lemma split_children l r ws low high :
  node_ok l → bt_ok (node_entries l ++ node_entries r) → bt_ok ws →
  covers (node_entries l ++ node_entries r) ws → split_writes (n_last_key l) ws = (low, high) →
  bt_ok low ∧ bt_ok high ∧ covers (node_entries l) low ∧ covers (node_entries r) high
  ∧ (∀ k, k ∈ bt_keys (node_entries l) → bt_get k ws = bt_get k low)
  ∧ (∀ k, k ∈ bt_keys (node_entries r) → bt_get k ws = bt_get k high).
Proof.
  intros Hl (Ol & Or & Hlr)%bt_ok_app Hws Hcov Hsp.
  assert (∀ k, k ∈ bt_keys high → lt_of (n_last_key l) k) as Hh
    by (intros k; by apply (split_writes_high _ ws low)).
  destruct (split_writes_app _ _ _ _ Hsp) as [-> Hlow].
  apply bt_ok_app in Hws as (H1 & H2 & H3).
  assert (∀ k, k ∈ bt_keys low → leb k (n_last_key l) = true) as Hlo.
  { intros k ([k' v] & -> & Hin)%list_elem_of_fmap. rewrite Forall_forall in Hlow. by apply (Hlow (k', v)). }
  assert (∀ k, k ∈ bt_keys (node_entries r) → lt_of (n_last_key l) k) as Hr
    by (intros k; apply Hlr, node_last_in, Hl).
  split_and!; [done|done| | | |].
  - intros k Hk. assert (k ∈ bt_keys (node_entries l ++ node_entries r)) as Hin.
    { apply Hcov. rewrite bt_keys_app, elem_of_app. auto. }
    rewrite bt_keys_app, elem_of_app in Hin. destruct Hin as [?|Hin]; [done|].
    apply Hr, leb_false in Hin. rewrite Hlo in Hin; done.
  - intros k Hk. assert (k ∈ bt_keys (node_entries l ++ node_entries r)) as Hin.
    { apply Hcov. rewrite bt_keys_app, elem_of_app. auto. }
    rewrite bt_keys_app, elem_of_app in Hin. destruct Hin as [Hin|?]; [|done].
    apply node_last_max in Hin; [|done..]. apply Hh, leb_false in Hk. congruence.
  - intros k Hk. rewrite bt_get_app. destruct (bt_get k low); [done|].
    apply bt_get_none_keys. intros Hin%Hh%leb_false. rewrite node_last_max in Hin; done.
  - intros k Hk. rewrite bt_get_app.
    assert (bt_get k low = None) as ->; [|done]. apply bt_get_none_keys. intros Hin%Hlo.
    apply Hr, leb_false in Hk. congruence.
Qed.

(** Values that were recorded for a subtree describe its replacement. *)
Definition partition_ok (p : Partition) : Prop :=
  ∀ result, pt_result p = Some result →
  ∃ ws, recorded (pt_values p) = Some ws ∧ result = replace (pt_base p) ws.

Definition seals_ok (seals : CommitSeals) : Prop :=
  ∀ key p, bt_get key (seal_partitions seals) = Some p → partition_ok p.

Definition opt_seals_ok (seals : option CommitSeals) : Prop :=
  match seals with Some seals => seals_ok seals | None => True end.

Lemma values_match_recorded values ws : values_match values ws = true → recorded values = Some ws.
Proof.
  unfold values_match. intros [Hl Hz]%andb_true_iff. apply Z.eqb_eq in Hl. revert ws Hl Hz.
  induction values as [|[k s] values IH]; intros [|[k' v] ws] Hl Hz; try done.
  rewrite !len_cons in Hl.
  simpl in Hz. apply andb_true_iff in Hz as [Hk Hz]. bool_props. subst. simpl.
  rewrite (IH ws); [done|lia|done].
Qed.

Lemma seal_result_ok seals n ws result :
  opt_seals_ok seals → seal_result seals n ws = Some result → result = replace n ws.
Proof.
  unfold seal_result. destruct seals as [seals|]; [|done]. intros Hs.
  destruct (bt_get _ _) as [p|] eqn:Ep; [|done]. destruct (ptr_eq n (pt_base p)) eqn:Eq; [|done].
  apply ptr_eq_sound in Eq as ->. destruct (pt_result p) as [result'|] eqn:Er; [|done].
  destruct (values_match _ _) eqn:Ev; [|done]. intros [= <-].
  destruct (Hs _ _ Ep _ Er) as (ws' & Hrec & ->). apply values_match_recorded in Ev. congruence.
Qed.

Lemma overwrite_nil key value : overwrite [] key value = value.
Proof. done. Qed.

(** Replacement along the paths is rewriting every value, as long as the seals
    used on the way offer nothing else. *)
Lemma replace_remap seals n ws :
  (∀ n ws result, node_ok n → bt_ok (node_entries n) → bt_ok ws → covers (node_entries n) ws →
     seal_result seals n ws = Some result → result = remap (overwrite ws) n) →
  node_ok n → bt_ok (node_entries n) → bt_ok ws → covers (node_entries n) ws →
  replace_sealed seals n ws = remap (overwrite ws) n.
Proof.
  intros Hseal. revert ws. induction n as [h k c s v|h k c s l IHl r IHr]; intros ws Hn Hs Hws Hcov;
    destruct ws as [|[k1 v1] ws]; try (by symmetry; apply remap_id); cbn [replace_sealed].
  - destruct (seal_result _ _ _) as [result|] eqn:E; [by apply (Hseal _ _ result) in E|].
    assert (k1 = k) as ->.
    { assert (k1 ∈ bt_keys (node_entries (LeafNode h k c s v))) as Hin by (apply Hcov; by left).
      by apply list_elem_of_singleton in Hin. }
    cbn [remap]. unfold overwrite. cbn [bt_get]. rewrite cmp_refl. cbn [default].
    case_bool_decide; [by subst|done].
  - destruct (seal_result _ _ _) as [result|] eqn:E; [by apply (Hseal _ _ result) in E|]. clear E.
    set (all := (k1, v1) :: ws) in *. destruct Hn as (Hb & Hl & Hr). cbn [node_entries] in *.
    destruct (split_writes (n_last_key l) all) as [low high] eqn:Es.
    destruct (split_children l r all low high Hl Hs Hws Hcov Es) as (Ol & Oh & Cl & Ch & Gl & Gh).
    apply bt_ok_app in Hs as (Sl & Sr & _).
    rewrite (IHl low), (IHr high) by done.
    rewrite (remap_ext (overwrite low) (overwrite all) l), (remap_ext (overwrite high) (overwrite all) r).
    2:{ intros k' v' Hin%bt_in_keys. unfold overwrite. by rewrite Gh. }
    2:{ intros k' v' Hin%bt_in_keys. unfold overwrite. by rewrite Gl. }
    cbn [remap]. destruct (ptr_eq l _ && ptr_eq r _) eqn:Ep; [|done].
    apply andb_true_iff in Ep as [<-%ptr_eq_sound <-%ptr_eq_sound]. done.
Qed.

Lemma replace_spec n ws :
  node_ok n → bt_ok (node_entries n) → bt_ok ws → covers (node_entries n) ws →
  replace n ws = remap (overwrite ws) n.
Proof. by apply replace_remap. Qed.

Lemma replace_sealed_spec seals n ws :
  opt_seals_ok seals → node_ok n → bt_ok (node_entries n) → bt_ok ws →
  covers (node_entries n) ws → replace_sealed seals n ws = remap (overwrite ws) n.
Proof.
  intros Hs. apply replace_remap. intros n' ws' result Hn Hk Hw Hc E.
  apply seal_result_ok in E as ->; [|done]. by apply replace_spec.
Qed.

(** ** Staging and its fast path agree *)

Definition map_size m : Z :=
  SNAPSHOT_HEADER_BYTES + sumZ (λ kv, entry_size (fst kv) (snd kv)) m.

(** What a state database maintains about its map. *)
Definition bounded m : Prop :=
  bt_ok m ∧ len m <= MAX_STATE_ENTRIES ∧ map_size m <= MAX_SNAPSHOT_BYTES
  ∧ Forall (λ kv, len (fst kv) <= MAX_STATE_KEY_BYTES ∧ len (snd kv) <= MAX_STATE_VALUE_BYTES) m.

Lemma entry_size_nonneg k v : 0 <= entry_size k v.
Proof. unfold entry_size. pose proof (len_nonneg k). pose proof (len_nonneg v). lia. Qed.

Lemma encoded_size_fold size m :
  0 <= size → size + sumZ (λ kv, entry_size (fst kv) (snd kv)) m < 2 ^ 64 →
  try_fold (λ size kv, ok_or (checked_add 64 size (entry_size (fst kv) (snd kv))) StateLimitExceeded)
    size m = Ok (size + sumZ (λ kv, entry_size (fst kv) (snd kv)) m).
Proof.
  revert size. induction m as [|kv m IH]; intros size H0 Hb; cbn [try_fold sumZ] in *; [f_equal; lia|].
  pose proof (entry_size_nonneg (fst kv) (snd kv)).
  assert (0 <= sumZ (λ kv, entry_size (fst kv) (snd kv)) m)
    by (apply sumZ_nonneg; intros; apply entry_size_nonneg).
  rewrite (proj2 (checked_add_some 64 size _ _)) by (split; [lia|reflexivity]). cbn [ok_or].
  rewrite IH by lia. f_equal. lia.
Qed.

Lemma encoded_size_ok m : map_size m <= MAX_SNAPSHOT_BYTES → encoded_size m = Ok (map_size m).
Proof.
  unfold map_size, encoded_size, SNAPSHOT_HEADER_BYTES, MAX_SNAPSHOT_BYTES. intros H.
  apply encoded_size_fold; lia.
Qed.

Lemma map_size_perm m1 m2 : Permutation m1 m2 → map_size m1 = map_size m2.
Proof. intros H. unfold map_size. by rewrite (sumZ_perm _ _ _ H). Qed.

Lemma map_size_remove k old m :
  bt_get k m = Some old → map_size (bt_remove k m) = map_size m - entry_size k old.
Proof.
  intros H. rewrite (map_size_perm _ _ (bt_remove_perm k old m H)). unfold map_size. cbn [sumZ fst snd]. lia.
Qed.

Lemma map_size_insert k v m :
  bt_ok m →
  map_size (bt_insert k v m)
  = match bt_get k m with Some old => map_size m - entry_size k old | None => map_size m end
    + entry_size k v.
Proof.
  intros Hm. rewrite (map_size_perm _ _ (bt_insert_perm k v m Hm)).
  assert (map_size ((k, v) :: bt_remove k m) = entry_size k v + map_size (bt_remove k m)) as ->
    by (unfold map_size; cbn [sumZ fst snd]; lia).
  destruct (bt_get k m) as [old|] eqn:E; [rewrite (map_size_remove _ old) by done; lia|].
  rewrite bt_remove_absent by done. lia.
Qed.

Lemma overlay_keys m ws : bt_keys (overlay_map m ws) = bt_keys m.
Proof. unfold overlay_map, bt_keys. by rewrite map_map. Qed.

Lemma overlay_ok m ws : bt_ok m → bt_ok (overlay_map m ws).
Proof. unfold bt_ok. by rewrite overlay_keys. Qed.

Lemma overlay_get m ws k :
  bt_get k (overlay_map m ws) = option_map (overwrite ws k) (bt_get k m).
Proof.
  induction m as [|[k1 v1] m IH]; simpl; [done|].
  destruct (cmp k k1) eqn:E; [|done..]. by apply cmp_eq_iff in E as ->.
Qed.

Lemma overlay_nil m : overlay_map m [] = m.
Proof. unfold overlay_map. rewrite <- (map_id m) at 2. apply map_ext. by intros []. Qed.

Lemma overlay_insert m ws k v :
  bt_ok m → k ∈ bt_keys m → bt_insert k v (overlay_map m ws) = overlay_map m (bt_insert k v ws).
Proof.
  intros Hm Hk. apply bt_ext; [by apply bt_ok_insert, overlay_ok|by apply overlay_ok|].
  intros k'. rewrite overlay_get. unfold overwrite. destruct (decide (k' = k)) as [->|Hne].
  - rewrite !bt_get_insert_eq. apply bt_key_get in Hk as [v0 ->]. done.
  - by rewrite !bt_get_insert_ne, overlay_get by done.
Qed.

(** The loop of the fast path follows the reference staging step by step. *)
Lemma prepare_loop_stage m cs size ws :
  bt_ok m → bt_ok ws → covers m ws → size = map_size (overlay_map m ws) →
  match prepare_loop (from_map m) cs size ws with
  | Ok (Some ws') => bt_ok ws' ∧ covers m ws'
      ∧ ∃ size', try_fold stage_step (overlay_map m ws, size) cs = Ok (overlay_map m ws', size')
  | Ok None => True
  | Err e => try_fold stage_step (overlay_map m ws, size) cs = Err e
  end.
Proof.
  intros Hm. revert size ws. induction cs as [|c cs IH]; intros size ws Hws Hcov Hsize.
  { cbn. split_and!; eauto. }
  cbn [prepare_loop try_fold stage_step]. destruct (reject_if (MAX_STATE_KEY_BYTES <? _) _) as [[]|] eqn:Ek;
    [|done]. destruct c as [key value|key]; cbn [change_key] in *.
  - destruct (reject_if (MAX_STATE_VALUE_BYTES <? _) _) as [[]|] eqn:Ev; [|done].
    rewrite from_map_get by done. destruct (bt_get key m) as [original|] eqn:Eo; [|done].
    assert (bt_get key (overlay_map m ws) = Some (default original (bt_get key ws))) as Eg
      by (by rewrite overlay_get, Eo).
    unfold bt_contains. rewrite Eg. cbn [negb andb orb].
    set (old := default original (bt_get key ws)) in *.
    assert (checked_add 64 (size - entry_size key old) (entry_size key value)
            = checked_add 64 (size - len old) (len value)) as ->.
    { unfold checked_add.
      replace (size - entry_size key old + entry_size key value) with (size - len old + len value);
        [done|unfold entry_size; lia]. }
    destruct (checked_add 64 (size - len old) (len value)) as [size'|] eqn:Ea; [|done]. cbn [ok_or].
    rewrite orb_false_r. destruct (reject_if (MAX_SNAPSHOT_BYTES <? size') _) as [[]|] eqn:Er; [|done].
    assert (key ∈ bt_keys m) as Hk by (apply bt_key_get; eauto).
    rewrite overlay_insert by done. apply IH.
    + by apply bt_ok_insert.
    + intros k [->|?]%bt_keys_insert; auto.
    + apply checked_add_some in Ea as [_ ->]. rewrite <- overlay_insert by done.
      rewrite map_size_insert, Eg by (by apply overlay_ok). subst size. unfold entry_size. lia.
  - rewrite from_map_get by done. destruct (bt_get key m) as [original|] eqn:Eo; [done|].
    assert (bt_get key (overlay_map m ws) = None) as -> by (by rewrite overlay_get, Eo).
    by apply IH.
Qed.

(** A staged map obeys the bounds and is the changes applied in order. *)
Lemma stage_step_ok m size c m' size' :
  bounded m → size = map_size m → stage_step (m, size) c = Ok (m', size') →
  bounded m' ∧ size' = map_size m' ∧ m' = apply_change m c.
Proof.
  intros (Hm & Hlen & Hsz & Hall) -> H. unfold stage_step in H. bind_inv H.
  apply reject_if_ok in E. apply Z.ltb_ge in E. destruct c as [key value|key]; cbn [change_key] in E.
  - bind_inv H. simplify_eq. apply reject_if_ok in E0, E2. apply Z.ltb_ge in E0.
    apply ok_or_ok, checked_add_some in E1 as [_ ->]. apply orb_false_iff in E2 as [E2 E3].
    apply Z.ltb_ge in E2.
    assert (map_size (bt_insert key value m)
            = match bt_get key m with Some old => map_size m - entry_size key old | None => map_size m end
              + entry_size key value) as Hs by (by apply map_size_insert).
    split; [|by rewrite Hs]. split_and!.
    + by apply bt_ok_insert.
    + pose proof (bt_insert_perm key value m Hm) as Hp. unfold len in *.
      rewrite (Permutation_length Hp). cbn [length].
      unfold bt_contains in E3. destruct (bt_get key m) as [old|] eqn:Eo.
      * rewrite (Permutation_length (bt_remove_perm key old m Eo)) in Hlen. done.
      * rewrite bt_remove_absent by done. apply Z.eqb_neq in E3. unfold MAX_STATE_ENTRIES in *. lia.
    + by rewrite Hs.
    + rewrite (bt_insert_perm key value m Hm). constructor; [done|].
      apply Forall_forall. intros [k v] Hin. rewrite Forall_forall in Hall. apply Hall.
      destruct (bt_get key m) as [old|] eqn:Eo; [|by rewrite bt_remove_absent in Hin].
      rewrite (bt_remove_perm key old m Eo). by right.
  - destruct (bt_get key m) as [old|] eqn:Eo; injection H as <- <-.
    + pose proof (bt_remove_perm key old m Eo) as Hp. pose proof (entry_size_nonneg key old).
      rewrite (map_size_remove _ old) by done. split_and!; [split_and!|done|done].
      * by apply bt_ok_remove.
      * unfold len in *. rewrite (Permutation_length Hp) in Hlen. cbn [length] in Hlen. lia.
      * rewrite (map_size_remove _ old) by done. lia.
      * rewrite Hp in Hall. by apply Forall_cons in Hall as [_ ?].
    + cbn [apply_change]. by rewrite bt_remove_absent.
Qed.
End replace_facts.

(** ** The database is an ordered map with a root *)

Section refinement.
Context {blake : Blake2s} {arcs : Arcs}.
Implicit Types (s : InMemoryState) (m : StateMap) (seals : option CommitSeals).

Definition map_root m : Hash256 := tree_hash (from_map m).

(** [s] stands for the map [m]. *)
Definition represents s m : Prop :=
  bounded m ∧ s = mkState (from_map m) (map_root m).

Lemma stage_fold_ok m cs m' size :
  bounded m → try_fold stage_step (m, map_size m) cs = Ok (m', size) →
  bounded m' ∧ m' = fold_left apply_change cs m.
Proof.
  revert m. induction cs as [|c cs IH]; intros m Hm H; cbn [try_fold fold_left] in *.
  - by simplify_eq.
  - bind_inv H. destruct a as [m1 size1].
    destruct (stage_step_ok m _ c m1 size1 Hm eq_refl E) as (Hm1 & -> & <-). by apply IH.
Qed.

Lemma stage_ok m diffs m' :
  bounded m → stage m diffs = Ok m' →
  bounded m' ∧ m' = fold_left apply_change (all_changes diffs) m.
Proof.
  intros Hm H. unfold stage in H. rewrite encoded_size_ok in H by apply Hm. bind_inv H. subst m'.
  by apply (stage_fold_ok m _ _ z).
Qed.

Lemma from_map_size m :
  SNAPSHOT_HEADER_BYTES + match from_map m with Some node => n_size node | None => 0 end = map_size m.
Proof.
  pose proof (from_map_spec m) as H. unfold map_size. destruct (from_map m) as [n|]; [|by subst].
  destruct H as [Hok <-]. by rewrite (proj2 (node_counts n Hok)).
Qed.

(** The fast path, when it applies, ends in the tree of the staged map. *)
Lemma tree_prepare_stage m diffs seals :
  bounded m → opt_seals_ok seals →
  match tree_prepare_sealed (from_map m) diffs seals with
  | Ok (Some t) => ∃ m', stage m diffs = Ok m' ∧ t = from_map m'
  | Ok None => True
  | Err e => stage m diffs = Err e
  end.
Proof.
  intros Hm Hs. unfold tree_prepare_sealed, stage. rewrite from_map_size.
  rewrite encoded_size_ok by apply Hm.
  pose proof (prepare_loop_stage m (all_changes diffs) (map_size m) [] (proj1 Hm) bt_ok_nil) as H.
  rewrite overlay_nil in H. specialize (H ltac:(by intros k ?%elem_of_nil) eq_refl).
  destruct (prepare_loop _ _ _ _) as [[ws|]|e]; cbn in *; [|done|by rewrite H].
  destruct H as (Hws & Hcov & size & ->). eexists. split; [done|].
  rewrite from_map_remap. pose proof (from_map_spec m) as Hn.
  destruct (from_map m) as [n|]; [|done]. destruct Hn as [Hok He]. cbn. f_equal.
  apply replace_sealed_spec; [done..| |done|]; rewrite He; [apply Hm|done].
Qed.

Lemma prepare_spec s m parent diffs seals :
  represents s m → opt_seals_ok seals →
  prepare_sealed s parent diffs seals
  = if bool_decide (parent = map_root m)
    then let? staged := stage m diffs in Ok (mkState (from_map staged) (map_root staged))
    else Err StaleSnapshot.
Proof.
  intros [Hm ->] Hs. unfold prepare_sealed. cbn [im_root im_data].
  case_bool_decide as Hp; [|done]. cbn [negb reject_if].
  assert (match seals with
          | Some plan => if bool_decide (seal_parent plan = parent)
                         then tree_prepare_sealed (from_map m) diffs (Some plan)
                         else tree_prepare (from_map m) diffs
          | None => tree_prepare (from_map m) diffs
          end = tree_prepare_sealed (from_map m) diffs
                  match seals with
                  | Some plan => if bool_decide (seal_parent plan = parent) then Some plan else None
                  | None => None
                  end) as ->
    by (destruct seals; [case_bool_decide|]; done).
  set (used := match seals with Some _ => _ | None => _ end).
  assert (opt_seals_ok used) as Hu by (unfold used; destruct seals; [case_bool_decide|]; done).
  pose proof (tree_prepare_stage m diffs used Hm Hu) as H.
  destruct (tree_prepare_sealed _ _ _) as [[t|]|e]; cbn.
  - by destruct H as (m' & -> & ->).
  - unfold to_map. rewrite from_map_entries, bt_collect_sorted by apply Hm. by destruct (stage m diffs).
  - by rewrite H.
Qed.

(** ** Seals that come from a plan *)

Inductive sealing : CommitSeals → Prop :=
| sealing_plan t transaction_root writes plan :
    plan_seals t transaction_root writes = Some plan → sealing plan
| sealing_record plan index diff plan' :
    sealing plan → record plan index diff = Ok plan' → sealing plan'.

Lemma set_slot_full slot value values ws : recorded values = Some ws → set_slot slot value values = None.
Proof.
  revert slot ws. induction values as [|[k [v|]] values IH]; intros slot ws; simpl; [by destruct slot| |done].
  destruct (recorded values) as [ws'|]; [|done]. intros _. destruct slot as [|slot]; [done|].
  cbn [set_slot]. by rewrite (IH slot ws').
Qed.

Lemma seals_insert plan key p :
  seals_ok plan → partition_ok p →
  seals_ok (with_partitions plan (bt_insert key p (seal_partitions plan))).
Proof.
  intros Hs Hp k q. cbn [with_partitions seal_partitions]. destruct (decide (k = key)) as [->|Hne].
  - rewrite bt_get_insert_eq. by intros [= <-].
  - rewrite bt_get_insert_ne by done. apply Hs.
Qed.

Lemma record_change_ok index plan c plan' :
  seals_ok plan → record_change index plan c = Ok plan' → seals_ok plan'.
Proof.
  intros Hs H. destruct c as [key value|]; [|done]. unfold record_change in H. bind_inv H.
  destruct (negb _); [by simplify_eq|].
  bind_inv H. subst plan'. apply ok_or_ok in E1, E2. apply seals_insert; [done|].
  intros result Hr. cbn [pt_result pt_values pt_base] in *. destruct (pt_remaining a0 =? 1).
  - subst a2. bind_inv E3. simplify_eq. apply ok_or_ok in E4. eauto.
  - injection E3 as <-. destruct (Hs _ _ E1 _ Hr) as (ws & Hrec & _).
    by rewrite (set_slot_full _ _ _ _ Hrec) in E2.
Qed.

Lemma plan_partition_ok n keys plan : seals_ok plan → seals_ok (plan_partition n keys plan).
Proof.
  revert keys plan. induction n as [h k c sz v|h k c sz l IHl r IHr]; intros [|kw keys] plan Hs; try done;
    cbn [plan_partition]; (destruct (_ <=? 64); [by apply (seals_insert plan _ (mkPartition _ _ _ None))|]).
  - done.
  - destruct (split_writes _ _) as [low high]. auto.
Qed.

Lemma sealing_ok plan : sealing plan → seals_ok plan.
Proof.
  induction 1 as [t root writes plan H|plan index diff plan' _ IH H].
  - unfold plan_seals in H. destruct (_ <? _); [done|]. destruct (last_writers _ _ _ _); [|done].
    destruct (_ <? _); [done|]. destruct t as [n|]; [|done]. injection H as <-.
    by apply plan_partition_ok.
  - unfold record in H. revert plan IH H. induction (changes diff) as [|c cs IHc]; intros plan Hs H.
    + by simplify_eq/=.
    + cbn [try_fold] in H. bind_inv H. eapply IHc; [|done]. by eapply record_change_ok.
Qed.

(** ** Every reachable database *)

Inductive state_reach : InMemoryState → Prop :=
| reach_new : state_reach state_new
| reach_commit s parent diffs seals :
    state_reach s → (∀ plan, seals = Some plan → sealing plan) →
    state_reach (fst (commit_sealed s parent diffs seals))
| reach_commit_verified s parent diffs expected :
    state_reach s → state_reach (fst (commit_verified s parent diffs expected)).

Lemma planned_ok seals : (∀ plan, seals = Some plan → sealing plan) → opt_seals_ok seals.
Proof. destruct seals as [plan|]; [|done]. intros H. by apply sealing_ok, H. Qed.

Lemma state_reach_map s : state_reach s → ∃ m, represents s m.
Proof.
  assert (∀ s m parent diffs seals next, represents s m → opt_seals_ok seals →
    prepare_sealed s parent diffs seals = Ok next → ∃ m', represents next m') as Hstep.
  { intros s0 m parent diffs seals next Hm Hs. rewrite (prepare_spec s0 m) by done.
    case_bool_decide; [|done]. intros H'. bind_inv H'. subst next.
    exists a. split; [|done]. destruct Hm as [Hm _]. by apply (stage_ok m diffs). }
  induction 1 as [|s parent diffs seals _ [m Hm] Hp|s parent diffs expected _ [m Hm]].
  - exists []. split; [|done]. split_and!; [apply bt_ok_nil|by rewrite len_nil|done|constructor].
  - unfold commit_sealed, publish. destruct (prepare_sealed _ _ _ _) eqn:E; [|by exists m].
    by apply (Hstep _ _ _ _ _ _ Hm (planned_ok _ Hp) E).
  - unfold commit_verified, publish. destruct (prepare s parent diffs) as [next|] eqn:E; [|by exists m].
    cbn. destruct (reject_if _ _); [|by exists m]. by apply (Hstep s m parent diffs None).
Qed.
End refinement.

(** ** The abstract database and the refinement *)

Section state_theorems.
Context {blake : Blake2s} {arcs : Arcs}.
Implicit Types (s : InMemoryState) (m : StateMap).

(** The specification: an ordered map, committed to by its root, that takes the
    changes of a block in order or refuses the block as a whole. *)
Definition map_commit m (parent : Hash256) (diffs : list StateDiff)
    : StateMap * result Hash256 StateError :=
  if bool_decide (parent = map_root m)
  then match stage m diffs with
       | Ok next => (next, Ok (map_root next))
       | Err error => (m, Err error)
       end
  else (m, Err StaleSnapshot).

Lemma commit_simulates s m parent diffs seals :
  represents s m → opt_seals_ok seals →
  represents (fst (commit_sealed s parent diffs seals)) (fst (map_commit m parent diffs))
  ∧ snd (commit_sealed s parent diffs seals) = snd (map_commit m parent diffs).
Proof.
  intros Hm Hs. unfold commit_sealed, publish, map_commit. rewrite (prepare_spec s m) by done.
  case_bool_decide; [|done]. destruct (stage m diffs) as [next|] eqn:E; [|done]. cbn.
  split; [|done]. split; [|done]. by apply (stage_ok m diffs), E; apply Hm.
Qed.

Lemma represents_get s m k : represents s m → state_get s k = bt_get k m.
Proof. intros [Hm ->]. apply from_map_get, Hm. Qed.

(** C17: The Merkle-tree database refines the ordered map: every state it reaches
    stands for one bounded map, reads agree with the map, and a commit, on the fast
    path, through seals or by rebuilding, has the outcome, the root and the next
    state of the specification, whose next map is the changes applied in order. *)
Theorem state_refines_map s :
  state_reach s →
  ∃ m, represents s m ∧ (∀ k, state_get s k = bt_get k m)
  ∧ ∀ parent diffs seals, (∀ plan, seals = Some plan → sealing plan) →
    represents (fst (commit_sealed s parent diffs seals)) (fst (map_commit m parent diffs))
    ∧ snd (commit_sealed s parent diffs seals) = snd (map_commit m parent diffs)
    ∧ (is_ok (snd (map_commit m parent diffs)) = true →
       fst (map_commit m parent diffs) = fold_left apply_change (all_changes diffs) m).
Proof.
  intros [m Hm]%state_reach_map. exists m. split; [done|]. split; [by intros; apply represents_get|].
  intros parent diffs seals Hp%planned_ok.
  destruct (commit_simulates s m parent diffs seals Hm Hp) as [? ?]. split_and!; [done..|].
  unfold map_commit. case_bool_decide; [|done]. destruct (stage m diffs) eqn:E; [|done]. intros _.
  by apply (stage_ok m diffs), E; apply Hm.
Qed.

(** Seals are only a cache: whatever was planned and recorded ahead of time, a
    sealed commit returns and publishes exactly what the ordinary commit does. *)
Lemma seals_change_nothing s plan parent diffs :
  state_reach s → sealing plan →
  commit_sealed s parent diffs (Some plan) = commit s parent diffs.
Proof.
  intros [m Hm]%state_reach_map Hp%sealing_ok. unfold commit, commit_sealed, prepare.
  by rewrite !(prepare_spec s m).
Qed.
End state_theorems.

Section state_examples.
#[local] Existing Instance checksum_blake2s.

(** An implementation of [Arc::ptr_eq] that never shares. *)
Definition fresh_arcs : Arcs := {| ptr_eq := λ _ _, false; ptr_eq_sound := λ _ _, ltac:(done) |}.
#[local] Existing Instance fresh_arcs.

Definition sample_diff : StateDiff := mkDiff [Put (lit "b") (lit "2"); Put (lit "a") (lit "1")].
Definition sample_update : StateDiff := mkDiff [Put (lit "b") (lit "3"); Delete (lit "c")].
Definition sample_state : InMemoryState := fst (commit_sealed state_new empty_root [sample_diff] None).

Lemma sample_reach : state_reach sample_state.
Proof. by apply reach_commit; [constructor|]. Qed.

Lemma state_refines_map_witness :
  ∃ m, represents sample_state m ∧ (∀ k, state_get sample_state k = bt_get k m)
  ∧ ∀ parent diffs seals, (∀ plan, seals = Some plan → sealing plan) →
    represents (fst (commit_sealed sample_state parent diffs seals)) (fst (map_commit m parent diffs))
    ∧ snd (commit_sealed sample_state parent diffs seals) = snd (map_commit m parent diffs)
    ∧ (is_ok (snd (map_commit m parent diffs)) = true →
       fst (map_commit m parent diffs) = fold_left apply_change (all_changes diffs) m).
Proof. exact (state_refines_map sample_state sample_reach). Defined.

(** Six hundred accounts, enough for a plan. *)
Definition many_keys : list StateKey := map (λ i, le 2 (Z.of_nat i)) (seq 0 600).
Definition many_state : InMemoryState :=
  fst (commit_sealed state_new empty_root [mkDiff (map (λ k, Put k []) many_keys)] None).
Definition many_plan : CommitSeals :=
  match plan_seals (im_data many_state) zero32 (map (λ k, [k]) many_keys) with
  | Some plan => plan
  | None => mkSeals zero32 zero32 [] []
  end.

Lemma seals_change_nothing_witness :
  commit_sealed many_state zero32 [sample_update] (Some many_plan)
  = commit many_state zero32 [sample_update].
Proof.
  apply seals_change_nothing.
  - by apply reach_commit; [constructor|].
  - assert (is_some (plan_seals (im_data many_state) zero32 (map (λ k, [k]) many_keys)) = true) as H
      by evaluate.
    apply (sealing_plan (im_data many_state) zero32 (map (λ k, [k]) many_keys)).
    unfold many_plan. by destruct (plan_seals _ _ _).
Defined.
End state_examples.
