(* ===== verification/StateProofs.v ===== *)
(** * StateProofs: authenticated reads of the state
    ([commitment.rs], [value_proof.rs] and the proof half of [tree.rs] in
    [src/crates/state/src])

    Membership and absence proofs, how the tree produces them and how a client
    checks them against a root it trusts.  Proofs a tree produces verify; proofs that
    verify under the root of a state tell the truth about it, unless a buffer hashed
    on the way collides with a buffer hashed by the tree. *)

From Stdlib Require Import Sorting.Sorted.
From S2P Require Import Prelude Ordered Codec Types Crypto State StateTree.

Record StateProof := mkProof {
  pf_index : Z;
  pf_leaf_count : Z;
  pf_siblings : list Hash256
}.

#[global] Instance StateProof_eq_dec : EqDecision StateProof.
Proof. solve_decision. Defined.

Record StateWitness := mkWitness {
  wt_key : StateKey;
  wt_value : bytes;
  wt_proof : StateProof
}.

#[global] Instance StateWitness_eq_dec : EqDecision StateWitness.
Proof. solve_decision. Defined.

Record StateAbsenceProof := mkAbsence {
  ap_lower : option StateWitness;
  ap_upper : option StateWitness
}.

Inductive StateValueProof :=
| Present (witness : StateWitness)
| Absent (proof : StateAbsenceProof).

(** Levels above a leaf: a width below [2 ^ 64] is halved at most 64 times. *)
Definition MAX_LEVELS : nat := 64.

Section proofs.
Context {blake : Blake2s}.

(** ** Checking *)

(** The loop of [StateProof::verify]: the top hash and the unused siblings. *)
Fixpoint verify_loop (fuel : nat) (hash : Hash256) (index width : Z) (siblings : list Hash256)
    : option (Hash256 * list Hash256) :=
  if 1 <? width then
    match fuel with
    | O => None
    | S fuel =>
        let up hash siblings := verify_loop fuel hash (index / 2) ((width + 1) / 2) siblings in
        if index mod 2 =? 1 then
          match siblings with [] => None | sibling :: rest => up (node_hash sibling hash) rest end
        else if index + 1 <? width then
          match siblings with [] => None | sibling :: rest => up (node_hash hash sibling) rest end
        else up hash siblings
    end
  else Some (hash, siblings).

Definition proof_verify (p : StateProof) (root : Hash256) (key : StateKey) (value : bytes) : bool :=
  if (pf_leaf_count p =? 0) || (MAX_STATE_ENTRIES <? pf_leaf_count p)
     || (pf_leaf_count p <=? pf_index p) || (20 <? len (pf_siblings p))
     || (MAX_STATE_KEY_BYTES <? len key) || (MAX_STATE_VALUE_BYTES <? len value)
  then false
  else
    match verify_loop MAX_LEVELS (leaf_hash key value) (pf_index p) (pf_leaf_count p) (pf_siblings p) with
    | Some (hash, []) => bool_decide (root_hash (pf_leaf_count p) hash = root)
    | _ => false
    end.

Definition witness_verify (w : StateWitness) (root : Hash256) : bool :=
  proof_verify (wt_proof w) root (wt_key w) (wt_value w).

Definition absence_verify (p : StateAbsenceProof) (root : Hash256) (key : StateKey) : bool :=
  if MAX_STATE_KEY_BYTES <? len key then false
  else if match ap_lower p with
          | Some lower => leb key (wt_key lower) || negb (witness_verify lower root)
          | None => false
          end then false
  else if match ap_upper p with
          | Some upper => leb (wt_key upper) key || negb (witness_verify upper root)
          | None => false
          end then false
  else
    match ap_lower p, ap_upper p with
    | None, None => bool_decide (root = empty_root)
    | None, Some upper => pf_index (wt_proof upper) =? 0
    | Some lower, None => pf_index (wt_proof lower) + 1 =? pf_leaf_count (wt_proof lower)
    | Some lower, Some upper =>
        (pf_leaf_count (wt_proof lower) =? pf_leaf_count (wt_proof upper))
        && (pf_index (wt_proof lower) + 1 =? pf_index (wt_proof upper))
    end.

Definition value_verify (p : StateValueProof) (root : Hash256) (key : StateKey)
    : result (option bytes) StateError :=
  match p with
  | Present witness =>
      if bool_decide (wt_key witness = key) && proof_verify (wt_proof witness) root key (wt_value witness)
      then Ok (Some (wt_value witness))
      else Err StateCorrupt
  | Absent proof => if absence_verify proof root key then Ok None else Err StateCorrupt
  end.

(** ** Proving *)

(** [Tree::position]: the index of the key, or where it would be inserted. *)
Fixpoint node_position (key : StateKey) (index : Z) (node : Node) : Z + Z :=
  match node with
  | LeafNode _ last_key _ _ _ =>
      match cmp key last_key with
      | Eq => inl index
      | Lt => inr index
      | Gt => inr (index + 1)
      end
  | BranchNode _ _ _ _ l r =>
      if leb key (n_last_key l) then node_position key index l
      else node_position key (index + n_count l) r
  end.

Definition tree_position (t : Tree) (key : StateKey) : Z + Z :=
  match t with Some node => node_position key 0 node | None => inr 0 end.

(** The descent of [entry_proof]; the siblings are pushed on the way down and
    reversed at the leaf. *)
Fixpoint descend (node : Node) (position : Z) (siblings : list Hash256)
    : StateKey * bytes * list Hash256 :=
  match node with
  | LeafNode _ key _ _ value => (key, value, siblings)
  | BranchNode _ _ _ _ l r =>
      if position <? n_count l then descend l position (n_hash r :: siblings)
      else descend r (position - n_count l) (n_hash l :: siblings)
  end.

Definition entry_proof (t : Tree) (index : Z) : option StateWitness :=
  if tree_len t <=? index then None
  else match t with
       | Some node =>
           let '(key, value, siblings) := descend node index [] in
           Some (mkWitness key value (mkProof index (tree_len t) siblings))
       | None => None
       end.

Definition tree_prove (t : Tree) (key : StateKey) : option StateProof :=
  match tree_position t key with
  | inl index => option_map wt_proof (entry_proof t index)
  | inr _ => None
  end.

Definition tree_prove_absence (t : Tree) (key : StateKey)
    : result (option StateAbsenceProof) StateError :=
  let? _ := reject_if (MAX_STATE_KEY_BYTES <? len key) StateLimitExceeded in
  Ok match tree_position t key with
     | inl _ => None
     | inr index =>
         Some (mkAbsence (if index =? 0 then None else entry_proof t (index - 1)) (entry_proof t index))
     end.

(** [StateValueProof::create] over an in-memory snapshot. *)
Definition value_create (s : InMemoryState) (key : StateKey) : result StateValueProof StateError :=
  let? _ := reject_if (MAX_STATE_KEY_BYTES <? len key) StateLimitExceeded in
  match state_get s key with
  | Some value =>
      let? proof := ok_or (tree_prove (im_data s) key) StateCorrupt in
      Ok (Present (mkWitness key value proof))
  | None =>
      let? found := tree_prove_absence (im_data s) key in
      let? proof := ok_or found StateCorrupt in
      Ok (Absent proof)
  end.

(** ** Hashed buffers *)

(** What the tree hashed, and what the check hashed. *)
Fixpoint node_buffers (n : Node) : list bytes :=
  match n with
  | LeafNode _ key _ _ value => [domain_preimage domain.STATE_LEAF (leaf_data key value)]
  | BranchNode _ _ _ _ l r =>
      domain_preimage domain.STATE_NODE (node_data (n_hash l) (n_hash r))
      :: node_buffers l ++ node_buffers r
  end.

Definition tree_buffers (t : Tree) : list bytes :=
  domain_preimage domain.STATE_ROOT
    (root_data (tree_len t) match t with Some n => n_hash n | None => zero32 end)
  :: match t with Some n => node_buffers n | None => [] end.

Fixpoint loop_buffers (fuel : nat) (hash : Hash256) (index width : Z) (siblings : list Hash256)
    : list bytes :=
  match fuel with
  | O => []
  | S fuel =>
      let node l r := domain_preimage domain.STATE_NODE (node_data l r) in
      if 1 <? width then
        if index mod 2 =? 1 then
          match siblings with
          | [] => []
          | sibling :: rest =>
              node sibling hash
              :: loop_buffers fuel (node_hash sibling hash) (index / 2) ((width + 1) / 2) rest
          end
        else if index + 1 <? width then
          match siblings with
          | [] => []
          | sibling :: rest =>
              node hash sibling
              :: loop_buffers fuel (node_hash hash sibling) (index / 2) ((width + 1) / 2) rest
          end
        else loop_buffers fuel hash (index / 2) ((width + 1) / 2) siblings
      else []
  end.

Definition witness_buffers (w : StateWitness) : list bytes :=
  let p := wt_proof w in
  domain_preimage domain.STATE_LEAF (leaf_data (wt_key w) (wt_value w))
  :: match verify_loop MAX_LEVELS (leaf_hash (wt_key w) (wt_value w)) (pf_index p) (pf_leaf_count p)
             (pf_siblings p) with
     | Some (top, _) => [domain_preimage domain.STATE_ROOT (root_data (pf_leaf_count p) top)]
     | None => []
     end
  ++ loop_buffers MAX_LEVELS (leaf_hash (wt_key w) (wt_value w)) (pf_index p) (pf_leaf_count p)
       (pf_siblings p).

Definition value_buffers (p : StateValueProof) : list bytes :=
  match p with
  | Present witness => witness_buffers witness
  | Absent proof =>
      domain_preimage domain.STATE_ROOT (root_data 0 zero32)
      :: match ap_lower proof with Some w => witness_buffers w | None => [] end
      ++ match ap_upper proof with Some w => witness_buffers w | None => [] end
  end.

(** The fields of a proof inside their types. *)
Definition proof_sized (p : StateProof) : Prop :=
  u64 (pf_index p) ∧ u64 (pf_leaf_count p) ∧ Forall (sized 32) (pf_siblings p).
Definition witness_sized (w : option StateWitness) : Prop :=
  match w with Some w => proof_sized (wt_proof w) | None => True end.
Definition value_sized (p : StateValueProof) : Prop :=
  match p with
  | Present w => proof_sized (wt_proof w)
  | Absent proof => witness_sized (ap_lower proof) ∧ witness_sized (ap_upper proof)
  end.

(** Bounds every witness in transit satisfies. *)
Definition witness_bounded (w : option StateWitness) : Prop :=
  match w with
  | Some w => len (wt_key w) <= MAX_STATE_KEY_BYTES ∧ len (wt_value w) <= MAX_STATE_VALUE_BYTES
      ∧ len (pf_siblings (wt_proof w)) <= 20
      ∧ 0 <= pf_index (wt_proof w) < pf_leaf_count (wt_proof w)
      ∧ pf_leaf_count (wt_proof w) <= MAX_STATE_ENTRIES
  | None => True
  end.
Definition value_bounds (p : StateValueProof) : Prop :=
  match p with
  | Present w => witness_bounded (Some w) ∧ True
  | Absent proof => witness_bounded (ap_lower proof) ∧ witness_bounded (ap_upper proof)
  end.
End proofs.

(** ** Levels of the tree *)

Section level_facts.
Context {blake : Blake2s}.
Implicit Types (n l r : Node) (level : list Node) (m : StateMap) (i : nat).

(** A node of a level under its parent. *)
Lemma pair_lookup level i n :
  level !! i = Some n →
  (Nat.Odd i → ∃ l, level !! pred i = Some l ∧ pair_level level !! Nat.div2 i = Some (make_branch l n))
  ∧ (Nat.Even i → pair_level level !! Nat.div2 i
       = Some match level !! S i with Some r => make_branch n r | None => n end).
Proof.
  revert i. induction level as [|a|a b level IH] using node_pair_ind; intros i H; [done|..].
  - destruct i as [|i]; [|done]. injection H as <-. split; [by intros [k Hk]; lia|done].
  - destruct i as [|[|i]]; simpl in H.
    + injection H as <-. split; [by intros [k Hk]; lia|done].
    + injection H as <-. split; [by exists a|]. intros [k Hk]; lia.
    + destruct (IH i H) as [Ho He]. split.
      * intros [k Hk]. destruct (Ho ltac:(exists (pred k); lia)) as (l & Hl & Hp). exists l.
        split; [|done]. destruct i as [|i]; [lia|done].
      * intros [k Hk]. apply He. exists (pred k). lia.
Qed.

Lemma pair_level_len level : len (pair_level level) = (len level + 1) / 2.
Proof.
  unfold len. rewrite pair_level_length, Nat.div2_div, Nat2Z.inj_div. f_equal. lia.
Qed.

Lemma div2_Z i : Z.of_nat (Nat.div2 i) = Z.of_nat i / 2.
Proof. by rewrite Nat.div2_div, Nat2Z.inj_div. Qed.

Lemma odd_Z i : (Z.of_nat i mod 2 =? 1) = Nat.odd i.
Proof.
  destruct (Nat.odd i) eqn:E.
  - apply Nat.odd_spec in E as [k ->]. apply Z.eqb_eq.
    replace (Z.of_nat (2 * k + 1)) with (1 + Z.of_nat k * 2) by lia. by rewrite Z_mod_plus_full.
  - apply Z.eqb_neq. apply not_true_iff_false in E. intros Hm. apply E, Nat.odd_spec.
    exists (i / 2)%nat. pose proof (Nat.div_mod_eq i 2) as Hd.
    assert (Z.of_nat (i mod 2) = 1) by (rewrite Nat2Z.inj_mod; done). lia.
Qed.

(** The siblings of position [i] from the level upwards. *)
Definition sibling level i : option Node :=
  if Nat.odd i then level !! pred i else level !! S i.

Fixpoint path (fuel : nat) level i : list Hash256 :=
  match fuel with
  | O => []
  | S fuel =>
      match level with
      | [] | [_] => []
      | _ => option_list (n_hash <$> sibling level i) ++ path fuel (pair_level level) (Nat.div2 i)
      end
  end.

Lemma path_step fuel a b level i :
  path (S fuel) (a :: b :: level) i
  = option_list (n_hash <$> sibling (a :: b :: level) i)
    ++ path fuel (pair_level (a :: b :: level)) (Nat.div2 i).
Proof. done. Qed.

Lemma half_levels (w : Z) (f : nat) : 1 < w <= 2 ^ Z.of_nat (S f) → (w + 1) / 2 <= 2 ^ Z.of_nat f.
Proof.
  intros H. assert (2 ^ Z.of_nat (S f) = 2 * 2 ^ Z.of_nat f) as E
    by (rewrite Nat2Z.inj_succ, Z.pow_succ_r; lia).
  enough ((w + 1) / 2 < 2 ^ Z.of_nat f + 1) by lia. apply Z.div_lt_upper_bound; lia.
Qed.

(** Climbing from the node at [i] along its path ends at the root. *)
Lemma verify_path fuel f level i n root rest :
  build fuel level = Some root → level !! i = Some n → len level <= 2 ^ Z.of_nat f →
  verify_loop f (n_hash n) (Z.of_nat i) (len level) (path fuel level i ++ rest)
  = Some (n_hash root, rest).
Proof.
  revert f level i n. induction fuel as [|fuel IH]; intros f level i n Hb Hi Hf;
    destruct level as [|a [|b level]]; try done.
  1,2: destruct i; [|done]; injection Hi as <-; injection Hb as <-; by destruct f.
  rewrite path_step. set (whole := a :: b :: level) in *.
  assert (1 < len whole) as Hw by (unfold whole, len; simpl; lia).
  cbn [build] in Hb. fold whole in Hb. destruct f as [|f]; [simpl in Hf; lia|].
  cbn [verify_loop]. rewrite (proj2 (Z.ltb_lt _ _) Hw).
  rewrite odd_Z, <- pair_level_len, <- div2_Z.
  pose proof (pair_lookup whole i n Hi) as [Ho He].
  assert (len (pair_level whole) <= 2 ^ Z.of_nat f) as Hf'
    by (rewrite pair_level_len; apply half_levels; lia).
  unfold sibling. destruct (Nat.odd i) eqn:Eo.
  - apply Nat.odd_spec in Eo. destruct (Ho Eo) as (l & Hl & Hp). rewrite Hl.
    cbn [fmap option_fmap option_map option_list app].
    by apply (IH f (pair_level whole) (Nat.div2 i) (make_branch l n)).
  - rewrite <- Nat.negb_even, negb_false_iff, Nat.even_spec in Eo. specialize (He Eo).
    destruct (whole !! S i) as [r|] eqn:Er.
    + assert (Z.of_nat i + 1 < len whole) as Hlt.
      { apply lookup_lt_Some in Er. unfold len. lia. }
      rewrite (proj2 (Z.ltb_lt _ _) Hlt). cbn [fmap option_fmap option_map option_list app].
      by apply (IH f (pair_level whole) (Nat.div2 i) (make_branch n r)).
    + assert (len whole <= Z.of_nat i + 1) as Hge.
      { apply lookup_ge_None in Er. unfold len. lia. }
      rewrite (proj2 (Z.ltb_ge _ _) Hge). cbn [fmap option_fmap option_map option_list app].
      by apply (IH f (pair_level whole) (Nat.div2 i) n).
Qed.

Lemma path_length fuel f level i :
  len level <= 2 ^ Z.of_nat f → (length (path fuel level i) <= f)%nat.
Proof.
  revert f level i. induction fuel as [|fuel IH]; intros f level i Hf; [simpl; lia|].
  destruct level as [|a [|b level]]; [simpl; lia..|]. rewrite path_step.
  set (whole := a :: b :: level) in *.
  assert (1 < len whole) by (unfold whole, len; simpl; lia).
  destruct f as [|f]; [simpl in Hf; lia|].
  rewrite length_app.
  assert (length (option_list (n_hash <$> sibling whole i)) <= 1)%nat
    by (destruct (sibling whole i); simpl; lia).
  enough (length (path fuel (pair_level whole) (Nat.div2 i)) <= f)%nat by lia.
  apply IH. rewrite pair_level_len. apply half_levels. lia.
Qed.

Lemma take_pair_count level j :
  sumZ n_count (take j (pair_level level)) = sumZ n_count (take (2 * j) level).
Proof.
  revert j. induction level as [|a|a b level IH] using node_pair_ind; intros j.
  - cbn [pair_level]. by rewrite !take_nil.
  - destruct j as [|j]; [done|]. replace (2 * S j)%nat with (S (S (2 * j))) by lia.
    simpl. by rewrite !take_nil.
  - destruct j as [|j]; [done|]. replace (2 * S j)%nat with (S (S (2 * j))) by lia.
    cbn [pair_level take sumZ]. rewrite IH. cbn. lia.
Qed.

Lemma take_S_count level i n :
  level !! i = Some n → sumZ n_count (take (S i) level) = sumZ n_count (take i level) + n_count n.
Proof. intros H. rewrite (take_S_r _ _ _ H), sumZ_app. simpl. lia. Qed.

Lemma pair_level_counts level :
  Forall (λ n, 0 <= n_count n) level → Forall (λ n, 0 <= n_count n) (pair_level level).
Proof.
  induction level as [|a|a b level IH] using node_pair_ind; simpl; [done..|].
  intros (Ha & (Hb & H)%Forall_cons)%Forall_cons. constructor; [simpl; lia|auto].
Qed.

(** Descending by the cached counts collects the path. *)
Lemma descend_path fuel level i n root q acc :
  Forall (λ n, 0 <= n_count n) level → build fuel level = Some root → level !! i = Some n →
  0 <= q < n_count n →
  descend root (sumZ n_count (take i level) + q) acc = descend n q (path fuel level i ++ acc).
Proof.
  revert level i n q acc. induction fuel as [|fuel IH]; intros level i n q acc Hc Hb Hi Hq;
    destruct level as [|a [|b level]]; try done.
  1,2: destruct i; [|done]; injection Hi as <-; by injection Hb as <-.
  rewrite path_step. set (whole := a :: b :: level) in *. cbn [build] in Hb. fold whole in Hb.
  pose proof (pair_lookup whole i n Hi) as [Ho He].
  unfold sibling. destruct (Nat.odd i) eqn:Eo.
  - apply Nat.odd_spec in Eo. pose proof Eo as [k Hk]. destruct (Ho Eo) as (l & Hl & Hp). rewrite Hl.
    assert (Nat.div2 i = k) as Hd by (rewrite Nat.div2_div, Hk, Nat.mul_comm, Nat.div_add_l; simpl; lia).
    rewrite Hd in *. cbn [fmap option_fmap option_map option_list app].
    assert (sumZ n_count (take i whole) + q
            = sumZ n_count (take k (pair_level whole)) + (n_count l + q)) as ->.
    { rewrite take_pair_count. replace i with (S (pred i)) by lia. rewrite (take_S_count _ _ l Hl).
      replace (pred i) with (2 * k)%nat by lia. lia. }
    assert (0 <= n_count l) as Hnl by (rewrite Forall_forall in Hc; by eapply Hc, list_elem_of_lookup_2).
    rewrite (IH _ _ (make_branch l n)) by first [done|by apply pair_level_counts|cbn [n_count make_branch]; lia].
    cbn [descend make_branch]. rewrite (proj2 (Z.ltb_ge _ _)) by lia. f_equal. lia.
  - rewrite <- Nat.negb_even, negb_false_iff, Nat.even_spec in Eo. pose proof Eo as [k Hk].
    specialize (He Eo).
    assert (Nat.div2 i = k) as Hd by (rewrite Nat.div2_div, Hk, Nat.mul_comm, Nat.div_mul; simpl; lia).
    rewrite Hd in *.
    assert (sumZ n_count (take i whole) = sumZ n_count (take k (pair_level whole))) as ->
      by (rewrite take_pair_count; by f_equal; f_equal).
    destruct (whole !! S i) as [r|] eqn:Er; cbn [fmap option_fmap option_map option_list app].
    + assert (0 <= n_count r) as Hnr by (rewrite Forall_forall in Hc; by eapply Hc, list_elem_of_lookup_2).
      rewrite (IH _ _ (make_branch n r)) by first [done|by apply pair_level_counts|cbn [n_count make_branch]; lia].
      cbn [descend make_branch]. by rewrite (proj2 (Z.ltb_lt _ _)) by lia.
    + rewrite (IH _ _ n); [done|by apply pair_level_counts|done..].
Qed.
End level_facts.

(** ** Positions *)

Section position_facts.
Context {blake : Blake2s}.
Implicit Types (n l r : Node) (m : StateMap) (key : StateKey).

#[local] Arguments cmp : simpl never.

(** The number of keys below [key]. *)
Fixpoint rank key m : nat :=
  match m with
  | [] => O
  | (k, _) :: m' => if ltb k key then S (rank key m') else O
  end.

Lemma rank_app_low key m1 m2 :
  (∀ k, k ∈ bt_keys m1 → lt_of k key) → rank key (m1 ++ m2) = (length m1 + rank key m2)%nat.
Proof.
  induction m1 as [|[k v] m1 IH]; intros H; simpl; [done|].
  rewrite (proj2 (ltb_lt_of _ _)) by (apply H; by left). rewrite IH; [done|]. intros k' Hk. apply H. by right.
Qed.

Lemma rank_app_high key m1 m2 k :
  k ∈ bt_keys m1 → leb key k = true → rank key (m1 ++ m2) = rank key m1.
Proof.
  induction m1 as [|[k1 v1] m1 IH]; [by intros ?%elem_of_nil|]. simpl.
  intros Hk Hle. destruct (ltb k1 key) eqn:E; [|done]. f_equal. apply IH; [|done].
  apply elem_of_cons in Hk as [->|?]; [|done].
  apply ltb_lt_of, leb_false in E. congruence.
Qed.

Lemma rank_below key m i kv : bt_ok m → m !! i = Some kv → (i < rank key m)%nat → lt_of (fst kv) key.
Proof.
  revert i. induction m as [|[k v] m IH]; intros i; [done|]. intros [Hok Hall]%bt_ok_cons_inv. simpl.
  destruct (ltb k key) eqn:E; [|lia]. destruct i as [|i]; simpl.
  - intros [= <-] _. by apply ltb_lt_of.
  - intros H Hlt. apply (IH i); [done..|lia].
Qed.

Lemma rank_above key m i kv :
  bt_ok m → m !! i = Some kv → (rank key m <= i)%nat → leb key (fst kv) = true.
Proof.
  revert i. induction m as [|[k v] m IH]; intros i; [done|]. intros [Hok Hall]%bt_ok_cons_inv. simpl.
  destruct (ltb k key) eqn:E; destruct i as [|i]; simpl; intros H Hle; [lia| | |].
  - apply (IH i); [done..|lia].
  - injection H as <-. by apply ltb_false.
  - apply leb_iff. left. apply ltb_false in E. apply (leb_lt_trans _ _ _ E). apply Hall.
    destruct kv as [k' v']. by apply (bt_in_keys k' v'), (list_elem_of_lookup_2 _ i).
Qed.

Lemma rank_get key m : bt_ok m → bt_get key m = match m !! rank key m with
  | Some (k, v) => if bool_decide (k = key) then Some v else None
  | None => None
  end.
Proof.
  induction m as [|[k v] m IH]; [done|]. intros [Hok Hall]%bt_ok_cons_inv. simpl.
  destruct (ltb k key) eqn:E; simpl.
  - apply ltb_lt_of in E. assert (cmp key k = Gt) as -> by (by apply cmp_gt_lt). by apply IH.
  - case_bool_decide as Ek; [subst; by rewrite cmp_refl|]. apply ltb_false, leb_iff in E as [E|E]; [|done].
    unfold lt_of in E. rewrite E. apply bt_get_none_keys. intros Hin%Hall.
    by apply (lt_of_asym _ _ E).
Qed.

Lemma rank_le key m : (rank key m <= length m)%nat.
Proof. induction m as [|[k v] m IH]; simpl; [lia|]. case_match; lia. Qed.

(** Descending by the cached bounds and counts finds the rank. *)
Lemma node_position_spec key index n :
  node_ok n → bt_ok (node_entries n) →
  node_position key index n
  = let rank := index + Z.of_nat (rank key (node_entries n)) in
    match bt_get key (node_entries n) with Some _ => inl rank | None => inr rank end.
Proof.
  revert index. induction n as [h k c s v|h k c s l IHl r IHr]; intros index; simpl.
  - intros _ _. unfold ltb. rewrite (cmp_opp key k). destruct (cmp key k); simpl; f_equal; lia.
  - intros (_ & Hl & Hr) Hs. pose proof Hs as (Ol & Or & Hlr)%bt_ok_app.
    destruct (leb key (n_last_key l)) eqn:E.
    + rewrite IHl by done. rewrite (rank_app_high key _ _ (n_last_key l)) 
        by first [by apply node_last_in|done].
      rewrite bt_get_app. destruct (bt_get key (node_entries l)) eqn:G; [done|].
      assert (bt_get key (node_entries r) = None) as ->; [|done].
      apply bt_get_none_keys. intros Hk.
      assert (lt_of (n_last_key l) key) as Hlt%leb_false by (apply Hlr; [by apply node_last_in|done]).
      congruence.
    + rewrite IHr by done. apply leb_false in E. rewrite rank_app_low.
      2:{ intros k' Hk'. apply (leb_lt_trans _ (n_last_key l)); [|done]. by apply node_last_max. }
      rewrite bt_get_app. assert (bt_get key (node_entries l) = None) as ->.
      { apply bt_get_none_keys. intros Hk%node_last_max; [|done..]. apply leb_false in E. congruence. }
      rewrite (proj1 (node_counts l Hl)). unfold len.
      destruct (bt_get key (node_entries r)); f_equal; lia.
Qed.

Lemma tree_position_spec key m :
  bt_ok m →
  tree_position (from_map m) key
  = let rank := Z.of_nat (rank key m) in
    match bt_get key m with Some _ => inl rank | None => inr rank end.
Proof.
  intros Hm. pose proof (from_map_spec m) as H. destruct (from_map m) as [n|]; simpl; [|by subst].
  destruct H as [Hok <-]. by rewrite node_position_spec.
Qed.

(** ** Proofs of entries *)

Definition entry_path m (i : nat) : StateProof :=
  mkProof (Z.of_nat i) (len m) (path (length m) (leaves m) i).

Lemma leaves_lookup m i k v : m !! i = Some (k, v) → leaves m !! i = Some (make_leaf k v).
Proof. intros H. unfold leaves. etrans; [apply list_lookup_fmap|]. by apply fmap_Some; exists (k, v). Qed.

Lemma leaves_count m i : (i <= length m)%nat → sumZ n_count (take i (leaves m)) = Z.of_nat i.
Proof.
  revert i. induction m as [|kv m IH]; intros [|i] Hi; simpl in *; try done; [lia|].
  fold (leaves m). rewrite IH; lia.
Qed.

Lemma from_map_some m : m ≠ [] → ∃ n, from_map m = Some n.
Proof. pose proof (from_map_spec m) as H. destruct (from_map m) as [n|]; [by exists n|done]. Qed.

Lemma entry_proof_some m i k v :
  m !! i = Some (k, v) →
  entry_proof (from_map m) (Z.of_nat i) = Some (mkWitness k v (entry_path m i)).
Proof.
  intros H. pose proof (lookup_lt_Some _ _ _ H) as Hlt. unfold entry_proof.
  rewrite from_map_len. rewrite (proj2 (Z.leb_gt _ _)) by (unfold len; lia).
  destruct (from_map_some m) as [root Hr]; [by intros ->|]. rewrite Hr.
  assert (descend root (Z.of_nat i) [] = (k, v, path (length m) (leaves m) i)) as ->.
  { rewrite <- (leaves_count m i) by lia.
    rewrite <- (Z.add_0_r (sumZ _ _)), (descend_path (length m) (leaves m) i (make_leaf k v) root).
    - cbn. by rewrite app_nil_r.
    - apply Forall_forall. by intros n (kv & -> & _)%list_elem_of_fmap.
    - done.
    - by apply leaves_lookup.
    - cbn. lia. }
  done.
Qed.

Lemma entry_proof_none m i : (length m <= i)%nat → entry_proof (from_map m) (Z.of_nat i) = None.
Proof.
  intros H. unfold entry_proof. rewrite from_map_len. by rewrite (proj2 (Z.leb_le _ _)) by (unfold len; lia).
Qed.

(** A proof the tree produces verifies. *)
Lemma entry_path_verifies m i k v :
  bounded m → m !! i = Some (k, v) → proof_verify (entry_path m i) (map_root m) k v = true.
Proof.
  intros (Hm & Hlen & _ & Hall) H. pose proof (lookup_lt_Some _ _ _ H) as Hlt.
  destruct (from_map_some m) as [root Hr]; [by intros ->|].
  assert (len m <= 2 ^ Z.of_nat 20) as H20 by exact Hlen.
  assert (length (leaves m) = length m) as Hll by apply length_map.
  rewrite Forall_forall in Hall. destruct (Hall (k, v)) as [Hk Hv]; [by eapply list_elem_of_lookup_2|].
  unfold proof_verify. cbn [pf_index pf_leaf_count pf_siblings entry_path].
  pose proof (path_length (length m) 20 (leaves m) i) as Hp. unfold len in *. rewrite Hll in Hp.
  specialize (Hp H20). cbn [fst snd] in *.
  rewrite (proj2 (Z.eqb_neq _ _)) by lia. rewrite (proj2 (Z.ltb_ge MAX_STATE_ENTRIES _)) by lia.
  rewrite (proj2 (Z.leb_gt _ _)) by lia. rewrite !(proj2 (Z.ltb_ge _ _)) by lia. cbn [orb].
  rewrite <- (app_nil_r (path _ _ _)).
  pose proof (verify_path (length m) MAX_LEVELS (leaves m) i (make_leaf k v) root [] Hr
    (leaves_lookup _ _ _ _ H)) as Hv'.
  unfold len in Hv'. rewrite Hll in Hv'. cbn [n_hash make_leaf] in Hv'. rewrite Hv'.
  - apply bool_decide_eq_true. unfold map_root, tree_hash. rewrite from_map_len, Hr. done.
  - unfold MAX_STATE_ENTRIES, MAX_LEVELS in *. lia.
Qed.
End position_facts.

(** ** Soundness of the check *)

Section soundness.
Context {blake : Blake2s}.
Implicit Types (n l r : Node) (level : list Node) (m : StateMap) (i : nat) (w : StateWitness).

Lemma node_data_inj (l r l' r' : Hash256) :
  sized 32 l → sized 32 l' → node_data l r = node_data l' r' → l = l' ∧ r = r'.
Proof. unfold sized, node_data. intros H H' E. apply app_inj_1 in E; [done|]. lia. Qed.

Lemma node_hash_binding (l r l' r' : Hash256) d1 d2 :
  sized 32 l → sized 32 l' → node_hash l r = node_hash l' r' →
  domain_preimage domain.STATE_NODE (node_data l r) ∈ d1 →
  domain_preimage domain.STATE_NODE (node_data l' r') ∈ d2 →
  (l = l' ∧ r = r') ∨ data_collide d1 d2.
Proof.
  intros Hl Hl' E H1 H2. apply domain_hash_binding in E as [[_ E]|C]; [|by right; eexists _, _|done..].
  left. by apply node_data_inj.
Qed.

Lemma data_collide_incl (d1 d1' d2 d2' : list bytes) :
  d1 ⊆ d1' → d2 ⊆ d2' → data_collide d1 d2 → data_collide d1' d2'.
Proof. intros H1 H2 (x & y & Hx & Hy & Hc). exists x, y. auto. Qed.

Lemma buffers_cons (d : list bytes) x : d ⊆ x :: d.
Proof. intros y Hy. by right. Qed.

Definition hash_sized n : Prop := sized 32 (n_hash n).

Lemma pair_level_sized level : Forall hash_sized level → Forall hash_sized (pair_level level).
Proof.
  induction level as [|a|a b level IH] using node_pair_ind; simpl; [done..|].
  intros (_ & (_ & H)%Forall_cons)%Forall_cons. constructor; [apply domain_hash_sized|auto].
Qed.

(** A level's buffers are among the root's. *)
Lemma pair_level_buffers level n :
  n ∈ level → ∃ n', n' ∈ pair_level level ∧ node_buffers n ⊆ node_buffers n'.
Proof.
  induction level as [|a|a b level IH] using node_pair_ind; cbn [pair_level].
  - by intros ?%elem_of_nil.
  - intros ?. by exists n.
  - rewrite !elem_of_cons. intros [->|[->|(n' & ? & ?)%IH]].
    3:{ exists n'. rewrite elem_of_cons. auto. }
    all: exists (make_branch a b); split; [by left|]; simpl; set_solver.
Qed.

Lemma build_buffers fuel level root n :
  build fuel level = Some root → n ∈ level → node_buffers n ⊆ node_buffers root.
Proof.
  revert level n. induction fuel as [|fuel IH]; intros level n Hb Hn;
    destruct level as [|a [|b level]]; try done.
  1,2: injection Hb as <-; by apply list_elem_of_singleton in Hn as ->.
  cbn [build] in Hb. destruct (pair_level_buffers _ _ Hn) as (n' & Hn' & Hsub).
  etrans; [exact Hsub|]. by apply (IH _ _ Hb).
Qed.

(** One step of the climb: the digest of a branch is its children's. *)
Lemma parent_binding fuel parents root j l r (s t : Hash256) d :
  build fuel parents = Some root → parents !! j = Some (make_branch l r) →
  sized 32 (n_hash l) → sized 32 s →
  (∃ n, parents !! j = Some n ∧ n_hash n = node_hash s t) ∨ data_collide (node_buffers root) d →
  (n_hash l = s ∧ n_hash r = t)
  ∨ data_collide (node_buffers root) (domain_preimage domain.STATE_NODE (node_data s t) :: d).
Proof.
  intros Hb Hp Hl Hs [(n & Hn & E)|Hc].
  2:{ right. apply (data_collide_incl _ _ _ _ (reflexivity _) (buffers_cons d _) Hc). }
  rewrite Hp in Hn. injection Hn as <-. apply (node_hash_binding _ _ _ _ (node_buffers root)); [done..| |].
  - apply (build_buffers _ _ _ _ Hb (list_elem_of_lookup_2 _ _ _ Hp)). by left.
  - by left.
Qed.

(** A climb that ends at the root's digest started at the node of its index. *)
Lemma verify_sound fuel f level i h siblings root rest :
  build fuel level = Some root → Forall hash_sized level → (i < length level)%nat →
  sized 32 h → Forall (sized 32) siblings →
  verify_loop f h (Z.of_nat i) (len level) siblings = Some (n_hash root, rest) →
  (∃ n, level !! i = Some n ∧ n_hash n = h)
  ∨ data_collide (node_buffers root) (loop_buffers f h (Z.of_nat i) (len level) siblings).
Proof.
  revert f level i h siblings. induction fuel as [|fuel IH]; intros f level i h siblings Hb Hl Hi Hh Hs;
    destruct level as [|a [|b level]]; try done.
  1,2: intros Hv; left; exists a; simpl in Hi; replace i with O by lia; split; [done|];
    injection Hb as <-; destruct f; simpl in Hv; by simplify_eq.
  set (whole := a :: b :: level) in *.
  assert (1 < len whole) as Hw by (unfold whole, len; simpl; lia).
  cbn [build] in Hb. fold whole in Hb. destruct (lookup_lt_is_Some_2 _ _ Hi) as [n Hn].
  pose proof (pair_lookup whole i n Hn) as [Ho He].
  assert (∀ j n', whole !! j = Some n' → sized 32 (n_hash n')) as Hsz.
  { rewrite Forall_forall in Hl. intros j n' Hj. by eapply Hl, list_elem_of_lookup_2. }
  destruct f as [|f]; cbn [verify_loop loop_buffers].
  { by rewrite (proj2 (Z.ltb_lt _ _) Hw). }
  rewrite (proj2 (Z.ltb_lt _ _) Hw), odd_Z, <- pair_level_len, <- div2_Z.
  assert (Nat.div2 i < length (pair_level whole))%nat as Hi'.
  { destruct (Nat.Even_or_Odd i) as [E|E]; [eapply lookup_lt_Some, He, E|].
    destruct (Ho E) as (l & _ & Hp). by eapply lookup_lt_Some. }
  pose proof (pair_level_sized _ Hl) as Hl'.
  destruct (Nat.odd i) eqn:Eo.
  - apply Nat.odd_spec in Eo. destruct (Ho Eo) as (l & Hll & Hp).
    destruct siblings as [|s siblings]; [done|]. apply Forall_cons in Hs as [Hs1 Hs]. intros Hv.
    pose proof (IH _ _ _ _ _ Hb Hl' Hi' (domain_hash_sized _ _) Hs Hv) as Hup.
    apply (parent_binding _ _ _ _ _ _ _ _ _ Hb Hp) in Hup as [[_ E]|Hc]; [|by right|by eauto..].
    left. by exists n.
  - rewrite <- Nat.negb_even, negb_false_iff, Nat.even_spec in Eo. specialize (He Eo).
    destruct (whole !! S i) as [r|] eqn:Er.
    + assert (Z.of_nat i + 1 < len whole) as Hlt.
      { apply lookup_lt_Some in Er. unfold len. lia. }
      rewrite (proj2 (Z.ltb_lt _ _) Hlt).
      destruct siblings as [|s siblings]; [done|]. apply Forall_cons in Hs as [Hs1 Hs]. intros Hv.
      pose proof (IH _ _ _ _ _ Hb Hl' Hi' (domain_hash_sized _ _) Hs Hv) as Hup.
      apply (parent_binding _ _ _ _ _ _ _ _ _ Hb He) in Hup as [[E _]|Hc]; [|by right|by eauto..].
      left. by exists n.
    + assert (len whole <= Z.of_nat i + 1) as Hge.
      { apply lookup_ge_None in Er. unfold len. lia. }
      rewrite (proj2 (Z.ltb_ge _ _) Hge). intros Hv.
      destruct (IH _ _ _ _ _ Hb Hl' Hi' Hh Hs Hv) as [(n' & Hn' & E)|Hc]; [left|by right].
      rewrite He in Hn'. injection Hn' as <-. by exists n.
Qed.

Lemma leaf_data_inj k v k' v' :
  len k < 2 ^ 64 → len k' < 2 ^ 64 → leaf_data k v = leaf_data k' v' → k = k' ∧ v = v'.
Proof.
  unfold leaf_data. intros Hk Hk' E. apply app_inj_1 in E as [El E]; [|by rewrite !length_le].
  apply le_inj in El; [|split; auto with astro..].
  apply app_inj_1 in E as [-> E]; [|unfold len in El; lia].
  apply app_inj_1 in E as [_ ->]; [done|by rewrite !length_le].
Qed.

Lemma root_hash_binding m c top d :
  u64 c → u64 (len m) → root_hash c top = map_root m →
  domain_preimage domain.STATE_ROOT (root_data c top) ∈ d →
  (c = len m ∧ top = match from_map m with Some n => n_hash n | None => zero32 end)
  ∨ data_collide (tree_buffers (from_map m)) d.
Proof.
  intros Hc Hm E Hd. symmetry in E. unfold map_root, tree_hash in E.
  apply domain_hash_binding in E as [[_ E]|C]; [|right; eexists _, _|done..].
  - left. unfold root_data in E. apply app_inj_1 in E as [El E]; [|by rewrite !length_le].
    rewrite from_map_len in El. apply le_inj in El; [|done..]. by subst.
  - split; [|split; [exact Hd|exact C]]. by left.
Qed.

Lemma bounded_len m : bounded m → u64 (len m).
Proof. intros (_ & H & _). unfold u64, MAX_STATE_ENTRIES in *. pose proof (len_nonneg m). lia. Qed.

(** A witness that verifies is the entry at its index, or a collision. *)
Lemma witness_sound m w :
  bounded m → proof_sized (wt_proof w) → witness_verify w (map_root m) = true →
  (∃ i, pf_index (wt_proof w) = Z.of_nat i ∧ pf_leaf_count (wt_proof w) = len m
        ∧ m !! i = Some (wt_key w, wt_value w))
  ∨ data_collide (tree_buffers (from_map m)) (witness_buffers w).
Proof.
  intros Hm (Hi & Hc & Hs). destruct w as [k v [ix c sibs]]. unfold witness_verify, proof_verify, witness_buffers.
  cbn [wt_key wt_value wt_proof pf_index pf_leaf_count pf_siblings] in *. intros H.
  destruct (_ || _) eqn:G in H; [done|]. repeat (apply orb_false_elim in G as [G ?]). bool_props.
  destruct (verify_loop _ _ _ _ _) as [[top [|]]|] eqn:Hv; [|done..].
  apply bool_decide_eq_true in H. set (d := _ :: _ ++ _).
  assert (domain_preimage domain.STATE_ROOT (root_data c top) ∈ d) as Hd by (right; by left).
  destruct (root_hash_binding m c top d Hc (bounded_len _ Hm) H Hd) as [[-> ->]|]; [|by right].
  destruct (from_map_some m) as [root Hr]; [by intros ->|]. rewrite Hr in Hv.
  destruct (Z_of_nat_complete ix) as [i ->]; [apply Hi|].
  assert (length (leaves m) = length m) as Hll by apply length_map.
  assert (len m = len (leaves m)) as Hlen by (unfold len; lia).
  assert (i < length (leaves m))%nat as Hil by (unfold len in *; lia).
  destruct (verify_sound (length m) MAX_LEVELS (leaves m) i (leaf_hash k v) sibs root [])
    as [(n & Hn & E)|C]; [done| |done|apply domain_hash_sized|done|by rewrite <- Hlen| |].
  { apply Forall_forall. intros n (kv & -> & _)%list_elem_of_fmap. apply domain_hash_sized. }
  2:{ right. rewrite <- Hlen in C. revert C. unfold tree_buffers. rewrite Hr.
      apply data_collide_incl; [apply buffers_cons|]. intros x Hx. right. by right. }
  rewrite Hll in Hil. destruct (lookup_lt_is_Some_2 _ _ Hil) as [[k' v'] Hkv].
  pose proof (leaves_lookup _ _ _ _ Hkv) as Hleaf. rewrite Hn in Hleaf. injection Hleaf as ->.
  apply domain_hash_binding in E as [[_ E]|C]; [left; exists i|right|done..].
  - destruct Hm as (_ & _ & _ & Hall). rewrite Forall_forall in Hall.
    destruct (Hall (k', v')) as [Hk' _]; [by eapply list_elem_of_lookup_2|]. cbn in Hk'.
    unfold MAX_STATE_KEY_BYTES in *. apply leaf_data_inj in E as [-> ->]; [done|lia..].
  - eexists _, _. split; [|split; [by left|exact C]]. right. rewrite Hr.
    apply (build_buffers _ _ _ _ Hr (list_elem_of_lookup_2 _ _ _ Hn)). by left.
Qed.
End soundness.

(** ** Value proofs *)

Section value_proofs.
Context {blake : Blake2s} {arcs : Arcs}.
Implicit Types (m : StateMap) (key : StateKey) (s : InMemoryState) (p : StateValueProof).

Lemma value_create_present m key v :
  bounded m → len key <= MAX_STATE_KEY_BYTES → bt_get key m = Some v →
  value_create (mkState (from_map m) (map_root m)) key
  = Ok (Present (mkWitness key v (entry_path m (rank key m))))
  ∧ m !! rank key m = Some (key, v).
Proof.
  intros Hm Hk Hg. pose proof (proj1 Hm) as Hok.
  assert (m !! rank key m = Some (key, v)) as Hr.
  { rewrite (rank_get key m Hok) in Hg. destruct (m !! rank key m) as [[k' v']|]; [|done].
    case_bool_decide; [|done]. by simplify_eq. }
  split; [|done]. unfold value_create, state_get. cbn [im_data].
  rewrite (proj2 (Z.ltb_ge _ _) Hk). cbn [reject_if]. rewrite from_map_get, Hg by done.
  unfold tree_prove. rewrite tree_position_spec, Hg by done. cbv beta zeta iota.
  by rewrite (entry_proof_some _ _ _ _ Hr).
Qed.

Definition entry_witness m (i : nat) : option StateWitness :=
  (λ kv, mkWitness (fst kv) (snd kv) (entry_path m i)) <$> (m !! i).

Lemma entry_proof_spec m i : entry_proof (from_map m) (Z.of_nat i) = entry_witness m i.
Proof.
  unfold entry_witness. destruct (m !! i) as [[k v]|] eqn:E; [by apply entry_proof_some|].
  apply entry_proof_none, lookup_ge_None, E.
Qed.

Definition neighbours m key : StateAbsenceProof :=
  mkAbsence (match rank key m with O => None | S i => entry_witness m i end)
    (entry_witness m (rank key m)).

Lemma value_create_absent m key :
  bounded m → len key <= MAX_STATE_KEY_BYTES → bt_get key m = None →
  value_create (mkState (from_map m) (map_root m)) key = Ok (Absent (neighbours m key)).
Proof.
  intros Hm Hk Hg. pose proof (proj1 Hm) as Hok. unfold value_create, state_get. cbn [im_data].
  rewrite (proj2 (Z.ltb_ge _ _) Hk). cbn [reject_if]. rewrite from_map_get, Hg by done.
  unfold tree_prove_absence. rewrite (proj2 (Z.ltb_ge _ _) Hk). cbn [reject_if].
  rewrite tree_position_spec, Hg by done. cbv beta zeta iota. unfold neighbours.
  rewrite entry_proof_spec. destruct (rank key m) as [|i]; [done|].
  replace (Z.of_nat (S i) - 1) with (Z.of_nat i) by lia. by rewrite entry_proof_spec.
Qed.

Lemma lower_neighbour m key i :
  bounded m → rank key m = S i →
  ∃ w, entry_witness m i = Some w ∧ leb key (wt_key w) = false
  ∧ witness_verify w (map_root m) = true ∧ wt_proof w = entry_path m i.
Proof.
  intros Hm Hr. pose proof (rank_le key m).
  unfold entry_witness. destruct (m !! i) as [[k v]|] eqn:Hi; [|apply lookup_ge_None in Hi; lia].
  eexists. split; [done|]. cbn. split; [|split; [|done]].
  - apply leb_false. apply (rank_below key m i (k, v)); [apply Hm|done|lia].
  - by apply entry_path_verifies.
Qed.

Lemma upper_neighbour m key w :
  bounded m → bt_get key m = None → entry_witness m (rank key m) = Some w →
  leb (wt_key w) key = false ∧ witness_verify w (map_root m) = true
  ∧ wt_proof w = entry_path m (rank key m).
Proof.
  intros Hm Hg. rewrite rank_get in Hg by apply Hm. unfold entry_witness.
  destruct (m !! rank key m) as [[k v]|] eqn:E; [|done]. intros [= <-].
  case_bool_decide as Ek; [done|]. cbn. split; [|split; [|done]].
  - apply leb_false. apply (rank_above key) in E as [?|?]%leb_iff; [done..|apply Hm|done].
  - by apply entry_path_verifies.
Qed.

Lemma neighbours_verify m key :
  bounded m → len key <= MAX_STATE_KEY_BYTES → bt_get key m = None →
  absence_verify (neighbours m key) (map_root m) key = true.
Proof.
  intros Hm Hk Hg. unfold absence_verify.
  rewrite (proj2 (Z.ltb_ge _ _) Hk). cbn [ap_lower ap_upper neighbours].
  destruct (entry_witness m (rank key m)) as [u|] eqn:Eu.
  - destruct (upper_neighbour m key u Hm Hg Eu) as (Hu1 & Hu2 & Hu3). rewrite Hu1, Hu2, Hu3.
    destruct (rank key m) as [|i] eqn:Er; [done|].
    destruct (lower_neighbour m key i Hm Er) as (w & -> & -> & -> & ->). cbn.
    rewrite Z.eqb_refl. apply Z.eqb_eq. lia.
  - assert (length m <= rank key m)%nat as Hle.
    { unfold entry_witness in Eu. destruct (m !! rank key m) eqn:E; [done|]. by apply lookup_ge_None. }
    pose proof (rank_le key m). destruct (rank key m) as [|i] eqn:Er.
    + destruct m; [|simpl in Hle; lia]. by apply bool_decide_eq_true.
    + destruct (lower_neighbour m key i Hm Er) as (w & -> & -> & -> & ->). cbn.
      apply Z.eqb_eq. unfold len. lia.
Qed.

(** ** Absence *)

Lemma present_rank m key v : bt_ok m → bt_get key m = Some v → m !! rank key m = Some (key, v).
Proof.
  intros Hok. rewrite rank_get by done. destruct (m !! rank key m) as [[k' v']|]; [|done].
  case_bool_decide; [|done]. intros. by simplify_eq.
Qed.

Lemma below_rank m key i k v :
  bt_ok m → m !! i = Some (k, v) → leb key k = false → (i < rank key m)%nat.
Proof.
  intros Hok Hi Hk. apply Nat.nle_gt. intros Hle. pose proof (rank_above key m i _ Hok Hi Hle). cbn in *.
  congruence.
Qed.

Lemma above_rank m key i k v v' :
  bt_ok m → m !! i = Some (k, v) → leb k key = false → m !! rank key m = Some (key, v') →
  (rank key m < i)%nat.
Proof.
  intros Hok Hi Hk Hr. apply Nat.nle_gt. intros Hle.
  assert (lt_of key k) as Hlt by (by apply leb_false).
  destruct (decide (i = rank key m)) as [->|Hne].
  - rewrite Hr in Hi. simplify_eq. by apply (lt_of_asym _ _ Hlt).
  - apply (lt_of_asym _ _ Hlt). apply (rank_below key m i (k, v)); [done..|lia].
Qed.

Lemma lower_sound m key v w d :
  bounded m → m !! rank key m = Some (key, v) → proof_sized (wt_proof w) →
  leb key (wt_key w) || negb (witness_verify w (map_root m)) = false → witness_buffers w ⊆ d →
  (pf_leaf_count (wt_proof w) = len m ∧ pf_index (wt_proof w) < Z.of_nat (rank key m))
  ∨ data_collide (tree_buffers (from_map m)) d.
Proof.
  intros Hm Hr Hs [Hk Hv%negb_false_iff]%orb_false_elim Hd.
  destruct (witness_sound m w Hm Hs Hv) as [(i & -> & -> & Hi)|C]; [left|right].
  - pose proof (below_rank m key i _ _ (proj1 Hm) Hi Hk). split; [done|lia].
  - by apply (data_collide_incl _ _ _ _ (reflexivity _) Hd C).
Qed.

Lemma upper_sound m key v w d :
  bounded m → m !! rank key m = Some (key, v) → proof_sized (wt_proof w) →
  leb (wt_key w) key || negb (witness_verify w (map_root m)) = false → witness_buffers w ⊆ d →
  (pf_leaf_count (wt_proof w) = len m ∧ Z.of_nat (rank key m) < pf_index (wt_proof w))
  ∨ data_collide (tree_buffers (from_map m)) d.
Proof.
  intros Hm Hr Hs [Hk Hv%negb_false_iff]%orb_false_elim Hd.
  destruct (witness_sound m w Hm Hs Hv) as [(i & -> & -> & Hi)|C]; [left|right].
  - pose proof (above_rank m key i _ _ _ (proj1 Hm) Hi Hk Hr). split; [done|lia].
  - by apply (data_collide_incl _ _ _ _ (reflexivity _) Hd C).
Qed.

Lemma absence_sound m key (p : StateAbsenceProof) :
  bounded m → value_sized (Absent p) → absence_verify p (map_root m) key = true →
  bt_get key m = None ∨ data_collide (tree_buffers (from_map m)) (value_buffers (Absent p)).
Proof.
  intros Hm [Hl Hu] H. destruct (bt_get key m) as [v|] eqn:Hg; [right|by left].
  apply present_rank in Hg; [|apply Hm].
  pose proof (lookup_lt_Some _ _ _ Hg) as Hlt. unfold absence_verify in H.
  destruct (MAX_STATE_KEY_BYTES <? len key); [done|].
  destruct p as [lower upper]. cbn [ap_lower ap_upper] in *.
  set (d := value_buffers (Absent (mkAbsence lower upper))).
  assert (match lower with Some w => witness_buffers w | None => [] end ⊆ d) as Hdl.
  { intros x Hx. right. apply elem_of_app. by left. }
  assert (match upper with Some w => witness_buffers w | None => [] end ⊆ d) as Hdu.
  { intros x Hx. right. apply elem_of_app. by right. }
  destruct lower as [lo|]; cbn [witness_sized] in *.
  - destruct (_ || _) eqn:El in H; [done|].
    destruct (lower_sound m key v lo d Hm Hg Hl El Hdl) as [[Hc Hi]|]; [|done].
    destruct upper as [up|]; cbn [witness_sized] in *.
    + destruct (_ || _) eqn:Eu in H; [done|].
      destruct (upper_sound m key v up d Hm Hg Hu Eu Hdu) as [[Hc' Hi']|]; [bool_props; lia|done].
    + bool_props. unfold len in *. lia.
  - destruct upper as [up|]; cbn [witness_sized] in *.
    + destruct (_ || _) eqn:Eu in H; [done|].
      destruct (upper_sound m key v up d Hm Hg Hu Eu Hdu) as [[Hc' Hi']|]; [bool_props; lia|done].
    + apply bool_decide_eq_true in H. symmetry in H.
      destruct (root_hash_binding m 0 zero32 d ltac:(done) (bounded_len _ Hm) H) as [[Hz _]|];
        [by left| |done]. unfold len in Hz. lia.
Qed.

Lemma path_sized fuel level (i : nat) : Forall hash_sized level → Forall (sized 32) (path fuel level i).
Proof.
  revert level i. induction fuel as [|fuel IH]; intros level i Hl; [constructor|].
  destruct level as [|a [|b level]]; [constructor..|]. rewrite path_step.
  apply Forall_app. split; [|by apply IH, pair_level_sized].
  destruct (sibling (a :: b :: level) i) as [n|] eqn:E; repeat constructor.
  rewrite Forall_forall in Hl. apply Hl. unfold sibling in E.
  destruct (Nat.odd i); by eapply list_elem_of_lookup_2.
Qed.

Lemma entry_path_ok m i kv :
  bounded m → m !! i = Some kv →
  proof_sized (entry_path m i) ∧ witness_bounded (Some (mkWitness (fst kv) (snd kv) (entry_path m i))).
Proof.
  intros Hm Hi. pose proof (bounded_len m Hm) as Hu. destruct Hm as (_ & Hlen & _ & Hall).
  pose proof (lookup_lt_Some _ _ _ Hi) as Hlt. rewrite Forall_forall in Hall.
  destruct (Hall kv) as [Hk Hv]; [by eapply list_elem_of_lookup_2|].
  pose proof (path_length (length m) 20 (leaves m) i) as Hp.
  assert (length (leaves m) = length m) as Hll by apply length_map.
  unfold MAX_STATE_ENTRIES in *. cbn in *. unfold len in *. rewrite Hll in Hp. specialize (Hp Hlen). split.
  - split; [unfold u64, fits in *; cbn; lia|]. split; [exact Hu|].
    apply path_sized, Forall_forall. intros n (kv' & -> & _)%list_elem_of_fmap. apply domain_hash_sized.
  - cbn. unfold len. split; [done|]. split; [done|]. split; [lia|]. unfold MAX_STATE_ENTRIES. lia.
Qed.

Lemma entry_witness_ok m i :
  bounded m → witness_sized (entry_witness m i) ∧ witness_bounded (entry_witness m i).
Proof.
  intros Hm. unfold entry_witness. destruct (m !! i) as [kv|] eqn:E; [|done].
  by apply entry_path_ok.
Qed.

Lemma neighbours_ok m key :
  bounded m → value_sized (Absent (neighbours m key)) ∧ value_bounds (Absent (neighbours m key)).
Proof.
  intros Hm. destruct (entry_witness_ok m (rank key m) Hm) as [Su Bu].
  cbn [value_sized value_bounds neighbours ap_lower ap_upper].
  destruct (rank key m) as [|i]; [done|]. by destruct (entry_witness_ok m i Hm) as [Sl Bl].
Qed.

(** A reachable state proves every key within the limit. *)
Lemma value_proof_complete s key :
  state_reach s → len key <= MAX_STATE_KEY_BYTES →
  ∃ p, value_create s key = Ok p ∧ value_sized p ∧ value_bounds p
  ∧ value_verify p (im_root s) key = Ok (state_get s key).
Proof.
  intros [m [Hm ->]]%state_reach_map Hk. cbn [im_root]. unfold state_get. cbn [im_data].
  rewrite from_map_get by apply Hm. destruct (bt_get key m) as [v|] eqn:Hg.
  - destruct (value_create_present m key v Hm Hk Hg) as [Hc Hr]. eexists. split; [exact Hc|].
    destruct (entry_path_ok m (rank key m) (key, v) Hm Hr) as [Hs Hb].
    split; [exact Hs|]. split; [split; [exact Hb|done]|].
    cbn. rewrite bool_decide_eq_true_2 by done. by rewrite entry_path_verifies.
  - eexists. split; [by apply value_create_absent|].
    destruct (neighbours_ok m key Hm) as [Hs Hb]. split; [exact Hs|]. split; [exact Hb|].
    cbn. by rewrite neighbours_verify.
Qed.

(** A proof that verifies states what the state holds, or shows a collision. *)
Lemma value_proof_sound s p key v :
  state_reach s → value_sized p → value_verify p (im_root s) key = Ok v →
  v = state_get s key ∨ data_collide (tree_buffers (im_data s)) (value_buffers p).
Proof.
  intros [m [Hm ->]]%state_reach_map Hs. cbn [im_root im_data]. unfold state_get. cbn [im_data].
  rewrite from_map_get by apply Hm. destruct p as [w|p]; cbn [value_verify].
  - destruct (_ && _) eqn:E; [|done]. bool_props. subst key. intros [= <-].
    destruct (witness_sound m w Hm Hs) as [(i & _ & _ & Hi)|]; [done| |by right]. left. symmetry.
    apply bt_in_get; [apply Hm|]. by eapply list_elem_of_lookup_2.
  - destruct (absence_verify _ _ _) eqn:E; [|done]. intros [= <-].
    destruct (absence_sound m key p Hm Hs E) as [->|]; auto.
Qed.
End value_proofs.
