(* ===== verification/Snapshot.v ===== *)
(** * Snapshot: the canonical encodings of the state crate
    ([src/crates/state/src/{snapshot,absence,value_proof}.rs])

    The whole-state snapshot, written through the tree's iterator and read back in
    two passes, and the transport form of membership and absence proofs.  Both
    decoders accept exactly what the encoders produce: loading a snapshot is the
    inverse of exporting one, and a decoded proof re-encodes to the bytes received. *)

From S2P Require Import Prelude Ordered Codec Types State StateTree StateProofs.

(** ** Bounded reads *)

(** [bounded_length]; a [u64] always fits a 64-bit [usize]. *)
Definition bounded_length (max : Z) : reader StateError Z := λ d,
  let? (length, d) := with_err StateCorrupt read_u64 d in
  let? _ := reject_if (max <? length) StateLimitExceeded in
  Ok (length, d).

Definition read_bounded (max : Z) : reader StateError bytes := λ d,
  let? (length, d) := bounded_length max d in
  with_err StateCorrupt (read_exact length) d.

Definition encode_bounded (bs : bytes) : bytes := le 8 (len bs) ++ bs.

#[global] Instance reads_bounded_length max :
  max < 2 ^ 64 → Reads (bounded_length max) (le 8) (λ n, 0 <= n <= max).
Proof.
  intros Hmax. split; unfold bounded_length.
  - intros d v ys Hv Hd. read_fwd; [unfold fits; lia|].
    rewrite (proj2 (Z.ltb_ge _ _)) by lia. close_fwd.
  - intros d v d' zs Hd H. bind_inv H. apply reject_if_ok in E0. bool_props. read_inv. simplify_eq.
    eexists. split; [done|]. split; [unfold fits in *; lia|done].
Qed.

Lemma reads_read_bounded max :
  max < 2 ^ 64 → Reads (read_bounded max) encode_bounded (λ bs, len bs <= max).
Proof.
  intros Hmax. pose proof (reads_bounded_length max Hmax) as Hreads. split; unfold read_bounded, encode_bounded.
  - intros d v ys Hv Hd. rewrite <- app_assoc in Hd. read_fwd; [split; [apply len_nonneg|done]|].
    destruct (read_exact_fwd (len v) _ v ys eq_refl Hd) as (d' & E & ?). unfold with_err. rewrite E.
    close_fwd.
  - intros d v d' zs Hd H. bind_inv H. read_inv. apply map_err_ok in H.
    apply read_exact_inv with (zs := ys) in H as (ys' & -> & <- & ?); [|done].
    exists ys'. rewrite app_assoc. split; [done|]. split; [lia|done].
Qed.

#[global] Instance reads_key : Reads (read_bounded MAX_STATE_KEY_BYTES) encode_bounded
  (λ bs, len bs <= MAX_STATE_KEY_BYTES) := reads_read_bounded MAX_STATE_KEY_BYTES eq_refl.
#[global] Instance reads_value : Reads (read_bounded MAX_STATE_VALUE_BYTES) encode_bounded
  (λ bs, len bs <= MAX_STATE_VALUE_BYTES) := reads_read_bounded MAX_STATE_VALUE_BYTES eq_refl.
#[global] Instance reads_count : Reads (bounded_length MAX_STATE_ENTRIES) (le 8)
  (λ n, 0 <= n <= MAX_STATE_ENTRIES) := reads_bounded_length MAX_STATE_ENTRIES eq_refl.

(** ** The snapshot *)

Definition SNAPSHOT_MAGIC : bytes := lit "ASTSTATE".
Definition SNAPSHOT_VERSION : Z := 1.

Definition encode_entry (kv : StateKey * bytes) : bytes :=
  encode_bounded (fst kv) ++ encode_bounded (snd kv).

Definition snapshot_encode (count : Z) (entries : list (StateKey * bytes)) (root : Hash256) : bytes :=
  SNAPSHOT_MAGIC ++ le 2 SNAPSHOT_VERSION ++ le 8 count ++ root ++ encode_all encode_entry entries.

(** The first pass: order, bounds and framing. *)
Fixpoint validate_entries (count : nat) (previous : option bytes) (d : Decoder)
    : result Decoder StateError :=
  match count with
  | O => Ok d
  | S count =>
      let? (key, d) := read_bounded MAX_STATE_KEY_BYTES d in
      let? _ := reject_if (match previous with Some p => leb key p | None => false end) StateCorrupt in
      let? (_, d) := read_bounded MAX_STATE_VALUE_BYTES d in
      validate_entries count (Some key) d
  end.

(** The second pass: the entries, inserted. *)
Fixpoint load_entries (count : nat) (data : StateMap) (d : Decoder) : result StateMap StateError :=
  match count with
  | O => Ok data
  | S count =>
      let? (key, d) := read_bounded MAX_STATE_KEY_BYTES d in
      let? (value, d) := read_bounded MAX_STATE_VALUE_BYTES d in
      load_entries count (bt_insert key value data) d
  end.

Section snapshot.
Context {blake : Blake2s}.

Definition snapshot_decode (bs : bytes) : result (Tree * Hash256) StateError :=
  let? _ := reject_if (MAX_SNAPSHOT_BYTES <? len bs) StateLimitExceeded in
  let d := decoder_new bs in
  let? (magic, d) := with_err StateCorrupt (read_fixed 8) d in
  let? _ := reject_if (negb (bool_decide (magic = SNAPSHOT_MAGIC))) StateCorrupt in
  let? (version, d) := with_err StateCorrupt read_u16 d in
  let? _ := reject_if (negb (version =? SNAPSHOT_VERSION)) StateCorrupt in
  let? (count, d) := bounded_length MAX_STATE_ENTRIES d in
  let? (root, entries) := with_err StateCorrupt (read_fixed 32) d in
  let? d := validate_entries (Z.to_nat count) None entries in
  let? _ := map_err (λ _, StateCorrupt) (finish d) in
  let? data := load_entries (Z.to_nat count) [] entries in
  let data := from_map data in
  let? _ := reject_if (negb (bool_decide (tree_hash data = root))) RootMismatch in
  Ok (data, root).

(** The iterator over a tree, run to its end. *)
Definition tree_iterate (t : Tree) : list (StateKey * bytes) :=
  entries_all (S (Z.to_nat (tree_len t))) (Z.to_nat (tree_len t)) (option_list t).

Definition export_snapshot (s : InMemoryState) : bytes :=
  snapshot_encode (tree_len (im_data s)) (tree_iterate (im_data s)) (im_root s).

Definition decode_snapshot (bs : bytes) : result InMemoryState StateError :=
  let? (data, root) := snapshot_decode bs in
  Ok (mkState data root).

Definition from_snapshot (bs : bytes) (expected : Hash256) : result InMemoryState StateError :=
  let? state := decode_snapshot bs in
  let? _ := reject_if (negb (bool_decide (im_root state = expected))) RootMismatch in
  Ok state.
End snapshot.

(** ** The iterator *)

Section iterator.
Context {blake : Blake2s}.
Implicit Types (n l r : Node) (pending : list Node).

Lemma node_entries_pos n : (0 < length (node_entries n))%nat.
Proof. induction n; simpl; [lia|]. rewrite length_app. lia. Qed.

Lemma entries_next_spec (bound fuel : nat) pending :
  Forall (λ n, length (node_entries n) <= bound)%nat pending →
  match pending with n :: _ => (length (node_entries n) <= S fuel)%nat | [] => True end →
  match flat_map node_entries pending with
  | [] => entries_next fuel pending = None
  | entry :: rest => ∃ pending', entries_next fuel pending = Some (entry, pending')
      ∧ flat_map node_entries pending' = rest
      ∧ Forall (λ n, length (node_entries n) <= bound)%nat pending'
  end.
Proof.
  revert pending. induction fuel as [|fuel IH]; intros [|[h k c s v|h k c s l r] pending] Hb Hf;
    try done; cbn [flat_map node_entries] in *.
  - apply Forall_cons in Hb as [_ Hb]. by exists pending.
  - pose proof (node_entries_pos l). pose proof (node_entries_pos r). rewrite length_app in Hf. lia.
  - apply Forall_cons in Hb as [_ Hb]. by exists pending.
  - apply Forall_cons in Hb as [Hn Hb]. cbn [node_entries] in Hn. rewrite length_app in Hn, Hf.
    pose proof (node_entries_pos r).
    specialize (IH (l :: r :: pending)). cbn [flat_map] in IH. rewrite <- app_assoc. apply IH; [|lia].
    repeat constructor; [lia..|done].
Qed.

Lemma entries_all_spec (steps fuel : nat) pending :
  Forall (λ n, length (node_entries n) <= S fuel)%nat pending →
  (length (flat_map node_entries pending) <= steps)%nat →
  entries_all steps fuel pending = flat_map node_entries pending.
Proof.
  revert pending. induction steps as [|steps IH]; intros pending Hb Hs.
  { symmetry. apply nil_length_inv. lia. }
  cbn [entries_all].
  pose proof (entries_next_spec (S fuel) fuel pending Hb) as Hn.
  specialize (Hn ltac:(destruct pending; [done|by inversion Hb])).
  destruct (flat_map node_entries pending) as [|entry rest]; [by rewrite Hn|].
  destruct Hn as (pending' & -> & <- & Hb'). rewrite IH; [done..|simpl in Hs; lia].
Qed.

Lemma from_map_iterates m (steps fuel : nat) :
  (length m <= steps)%nat → (length m <= S fuel)%nat →
  entries_all steps fuel (option_list (from_map m)) = m.
Proof.
  intros Hs Hf. pose proof (from_map_spec m) as H. destruct (from_map m) as [n|].
  - destruct H as [_ <-]. change (option_list (Some n)) with [n].
    assert (flat_map node_entries [n] = node_entries n) as E by apply app_nil_r.
    rewrite entries_all_spec; rewrite ?E; [done|by constructor; [|constructor]|done].
  - subst. by destruct steps, fuel.
Qed.

Lemma tree_iterate_spec m : tree_iterate (from_map m) = m.
Proof.
  unfold tree_iterate. rewrite from_map_len. unfold len. rewrite Nat2Z.id.
  apply from_map_iterates; lia.
Qed.
End iterator.

(** ** Loading is the inverse of exporting *)

Section snapshot_facts.
Context {blake : Blake2s}.
Implicit Types (m : StateMap) (s : InMemoryState).

Definition entry_ok (kv : StateKey * bytes) : Prop :=
  len (fst kv) <= MAX_STATE_KEY_BYTES ∧ len (snd kv) <= MAX_STATE_VALUE_BYTES.

(** Keys ascending above [previous]. *)
Definition above (previous : option bytes) m : Prop :=
  match previous, m with Some p, (k, _) :: _ => lt_of p k | _, _ => True end.

Lemma bt_ok_cons_above k v m : bt_ok m → above (Some k) m → bt_ok ((k, v) :: m).
Proof.
  intros Hok Ha. apply bt_ok_cons_inv. split; [done|]. intros k'.
  destruct m as [|[k1 v1] m]; [by intros ?%elem_of_nil|]. apply bt_ok_cons_inv in Hok as [_ Hk1].
  intros [->|H]%elem_of_cons; [done|]. by apply (lt_of_trans _ k1), Hk1.
Qed.

Lemma validate_fwd m previous d ys :
  bt_ok m → above previous m → Forall entry_ok m → dview d (encode_all encode_entry m ++ ys) →
  ∃ d', validate_entries (length m) previous d = Ok d' ∧ dview d' ys.
Proof.
  revert previous d. induction m as [|[k v] m IH]; intros previous d Hok Ha Hall Hd; [by exists d|].
  apply bt_ok_cons_inv in Hok as [Hok Hk]. apply Forall_cons in Hall as [[Hlk Hlv] Hall].
  cbn [length validate_entries encode_all flat_map] in *. unfold encode_entry in Hd at 1. cbn [fst snd] in *.
  rewrite <- !app_assoc in Hd. read_fwd; [done|].
  assert (match previous with Some p => leb k p | None => false end = false) as ->.
  { destruct previous; [by apply leb_false|done]. }
  cbn [reject_if]. read_fwd; [done|]. apply IH; try done.
  destruct m as [|[k' v'] m]; [done|]. apply Hk. by left.
Qed.

Lemma validate_inv count previous d d' zs :
  dview d zs → validate_entries count previous d = Ok d' →
  ∃ m ys, zs = encode_all encode_entry m ++ ys ∧ length m = count ∧ bt_ok m ∧ above previous m
  ∧ Forall entry_ok m ∧ dview d' ys.
Proof.
  revert previous d zs. induction count as [|count IH]; intros previous d zs Hd H.
  { injection H as <-. exists [], zs.
    split; [done|]. split; [done|]. split; [apply bt_ok_nil|]. split; [by destruct previous|]. done. }
  cbn [validate_entries] in H. bind_inv H. apply reject_if_ok in E0. read_inv.
  destruct (IH _ _ _ Hd H) as (m & ys' & -> & Hl & Hok & Ha & Hall & Hd').
  exists ((l, l0) :: m), ys'.
  cbn [encode_all flat_map length]. split; [|split; [by f_equal|split; [|split; [|split]]]].
  - unfold encode_entry at 2. cbn [fst snd]. by rewrite <- !app_assoc.
  - by apply bt_ok_cons_above.
  - destruct previous; [by apply leb_false|done].
  - by constructor.
  - done.
Qed.

Lemma load_fwd m data d ys :
  bt_ok (data ++ m) → Forall entry_ok m → dview d (encode_all encode_entry m ++ ys) →
  load_entries (length m) data d = Ok (data ++ m).
Proof.
  revert data d. induction m as [|[k v] m IH]; intros data d Hok Hall Hd; [by rewrite app_nil_r|].
  apply Forall_cons in Hall as [[Hlk Hlv] Hall].
  cbn [length load_entries encode_all flat_map] in *. unfold encode_entry in Hd at 1. cbn [fst snd] in *.
  rewrite <- !app_assoc in Hd. read_fwd; [done|]. read_fwd; [done|].
  assert (bt_insert k v data = data ++ [(k, v)]) as ->.
  { apply bt_insert_last. intros k' Hk'. apply bt_ok_app in Hok as (_ & _ & H). apply H; [done|by left]. }
  change ((k, v) :: m) with ([(k, v)] ++ m). rewrite app_assoc. apply (IH _ _); [by rewrite <- app_assoc|done..].
Qed.

(** The bytes of a snapshot of a map. *)
Definition map_snapshot m (root : Hash256) : bytes := snapshot_encode (len m) m root.

Lemma encode_entries_len m : len (encode_all encode_entry m) = sumZ (λ kv, entry_size (fst kv) (snd kv)) m.
Proof.
  induction m as [|[k v] m IH]; [done|]. cbn [encode_all flat_map sumZ fst snd].
  rewrite len_app. unfold encode_all in IH. rewrite IH. unfold encode_entry, encode_bounded, entry_size.
  autorewrite with len. rewrite !len_le. cbn [fst snd]. lia.
Qed.

Lemma map_snapshot_len m root : sized 32 root → len (map_snapshot m root) = map_size m.
Proof.
  intros Hr. unfold map_snapshot, snapshot_encode, map_size. autorewrite with len.
  assert (len root = 32) as -> by (unfold len; by rewrite Hr).
  rewrite !len_le, encode_entries_len. change (len SNAPSHOT_MAGIC) with 8. unfold SNAPSHOT_HEADER_BYTES. lia.
Qed.

Lemma snapshot_decode_fwd m :
  bounded m → snapshot_decode (map_snapshot m (map_root m)) = Ok (from_map m, map_root m).
Proof.
  intros (Hok & Hlen & Hsize & Hall). assert (sized 32 (map_root m)) as Hr by apply domain_hash_sized.
  unfold snapshot_decode. rewrite map_snapshot_len, (proj2 (Z.ltb_ge _ _) Hsize) by done. cbn [reject_if].
  assert (dview (decoder_new (map_snapshot m (map_root m))) (map_snapshot m (map_root m))) as Hd.
  { apply dview_new. rewrite map_snapshot_len by done. unfold MAX_SNAPSHOT_BYTES in *. lia. }
  cbv zeta. unfold map_snapshot at 2, snapshot_encode in Hd.
  change SNAPSHOT_MAGIC with (id SNAPSHOT_MAGIC) in Hd. read_fwd; [done|].
  rewrite bool_decide_eq_true_2 by done. cbn [negb reject_if]. read_fwd; [done|].
  rewrite Z.eqb_refl. cbn [negb reject_if]. read_fwd; [split; [apply len_nonneg|done]|].
  change (map_root m ++ encode_all encode_entry m)
    with (id (map_root m) ++ encode_all encode_entry m) in Hd. read_fwd; [done|].
  rewrite <- (app_nil_r (encode_all _ _)) in Hd. replace (Z.to_nat (len m)) with (length m) by (unfold len; lia).
  destruct (validate_fwd m None _ [] Hok I Hall Hd) as (d' & -> & Hd').
  rewrite (proj2 (finish_ok _ _ tt Hd') eq_refl). cbn [map_err].
  rewrite (load_fwd m [] _ [] Hok Hall Hd). cbn [app].
  by rewrite bool_decide_eq_true_2.
Qed.

Lemma snapshot_decode_inv bs t root :
  snapshot_decode bs = Ok (t, root) →
  ∃ m, bounded m ∧ t = from_map m ∧ root = map_root m ∧ bs = map_snapshot m root.
Proof.
  unfold snapshot_decode. intros H. bind_inv H. guards.
  assert (dview (decoder_new bs) bs) as Hd by (apply dview_new; unfold MAX_SNAPSHOT_BYTES in *; lia).
  read_inv. apply map_err_ok in E7. destruct (validate_inv _ _ _ _ _ Hd E6)
    as (m & ys & -> & Hl & Hok & _ & Hall & Hd').
  eapply finish_ok in E7; [|exact Hd']. subst ys. rewrite <- Hl in E8.
  rewrite (load_fwd m [] _ [] Hok Hall Hd) in E8. injection E8 as <-. cbn [app] in *.
  exists m. assert (len m = z0) as Hz by (unfold len; lia).
  assert (id SNAPSHOT_MAGIC ++ le 2 SNAPSHOT_VERSION ++ le 8 z0 ++ id root ++ encode_all encode_entry m ++ []
    = map_snapshot m root) as Es.
  { unfold map_snapshot, snapshot_encode. by rewrite Hz, app_nil_r. }
  subst. rewrite Es in *. rewrite map_snapshot_len in E by done.
  split; [|done]. split; [done|]. split; [lia|]. done.
Qed.

Lemma represents_export s m : represents s m → export_snapshot s = map_snapshot m (map_root m).
Proof. intros [_ ->]. unfold export_snapshot. cbn [im_data im_root]. by rewrite tree_iterate_spec, from_map_len. Qed.

Lemma decode_snapshot_spec bs s :
  decode_snapshot bs = Ok s ↔ (∃ m, represents s m) ∧ bs = export_snapshot s.
Proof.
  unfold decode_snapshot. split.
  - intros H. bind_inv H. subst s. apply snapshot_decode_inv in E as (m & Hm & -> & -> & ->).
    assert (represents (mkState (from_map m) (map_root m)) m) as Hr by done.
    split; [by exists m|]. by rewrite (represents_export _ m).
  - intros [[m Hr] ->]. rewrite (represents_export _ m) by done. destruct Hr as [Hm ->].
    by rewrite snapshot_decode_fwd.
Qed.

Lemma from_snapshot_spec bs expected s :
  from_snapshot bs expected = Ok s ↔ (∃ m, represents s m) ∧ bs = export_snapshot s ∧ expected = im_root s.
Proof.
  unfold from_snapshot. split.
  - intros H. bind_inv H. guards. subst a. apply decode_snapshot_spec in E as [? ?]. by subst.
  - intros (Hm & -> & ->). rewrite (proj2 (decode_snapshot_spec _ s)) by done.
    by rewrite bool_decide_eq_true_2.
Qed.

(** C20: A snapshot loads exactly when it is the export of a well-formed state with the
    trusted root, and loads as that state: every other byte string, reordered,
    truncated, extended, over a limit or under another root, is refused. *)
Theorem snapshot_exact bs expected s :
  from_snapshot bs expected = Ok s
  ↔ (∃ m, represents s m) ∧ bs = export_snapshot s ∧ expected = im_root s.
Proof. apply from_snapshot_spec. Qed.

(** The tree's iterator terminates: over the tree of a map it yields every entry
    once, in key order, and stops by itself, however often it is polled, and no
    step descends further than the tree has leaves. *)
Theorem iterator_terminates m (polls pops : nat) :
  (length m <= polls)%nat → (length m <= S pops)%nat →
  entries_all polls pops (option_list (from_map m)) = m.
Proof. apply from_map_iterates. Qed.
End snapshot_facts.

Section snapshot_examples.
#[local] Existing Instance checksum_blake2s.

Definition sample_entries : StateMap := [(lit "a", lit "1"); (lit "b", lit "2"); (lit "c", lit "3")].

Lemma iterator_terminates_witness :
  entries_all 5 2 (option_list (from_map sample_entries)) = sample_entries.
Proof. apply iterator_terminates; simpl; lia. Defined.
End snapshot_examples.
