(* ===== verification/ProofWire.v ===== *)
(** * ProofWire: state proofs in transit
    ([src/crates/state/src/{absence,value_proof}.rs])

    The bounded transport encoding of absence and value proofs, and the remote
    read built from it: one side creates and encodes a proof, the other decodes
    it and checks it against a root it trusts. *)

From S2P Require Import Prelude Ordered Codec Types Crypto State StateTree StateProofs Snapshot.

(** ** Witnesses *)

Definition ABSENCE_MAGIC : bytes := lit "ASTABSEN".
Definition ABSENCE_VERSION : Z := 1.
Definition MAX_SIBLINGS : Z := 20.
Definition MAX_ABSENCE_PROOF_BYTES : Z :=
  12 + 2 * (33 + MAX_STATE_KEY_BYTES + MAX_STATE_VALUE_BYTES + 32 * MAX_SIBLINGS).

Definition validate_bounds (key_len value_len index leaf_count sibling_count : Z)
    : result unit StateError :=
  let? _ := reject_if ((MAX_STATE_KEY_BYTES <? key_len) || (MAX_STATE_VALUE_BYTES <? value_len)
                       || (MAX_STATE_ENTRIES <? leaf_count) || (MAX_SIBLINGS <? sibling_count))
              StateLimitExceeded in
  reject_if ((leaf_count =? 0) || (leaf_count <=? index)) StateCorrupt.

Definition witness_bounds (w : StateWitness) : result unit StateError :=
  validate_bounds (len (wt_key w)) (len (wt_value w)) (pf_index (wt_proof w))
    (pf_leaf_count (wt_proof w)) (len (pf_siblings (wt_proof w))).

(** [validate_bounds] has accepted the witness, so its sibling count fits a byte. *)
Definition encode_witness (w : StateWitness) : bytes :=
  encode_bounded (wt_key w) ++ encode_bounded (wt_value w)
  ++ le 8 (pf_index (wt_proof w)) ++ le 8 (pf_leaf_count (wt_proof w))
  ++ le 1 (len (pf_siblings (wt_proof w))) ++ encode_all id (pf_siblings (wt_proof w)).

Definition encode_side (side : option StateWitness) : bytes :=
  match side with Some w => le 1 1 ++ encode_witness w | None => le 1 0 end.

Definition side_bounds (side : option StateWitness) : result unit StateError :=
  match side with Some w => witness_bounds w | None => Ok tt end.

Definition absence_to_bytes (p : StateAbsenceProof) : result bytes StateError :=
  let? _ := side_bounds (ap_lower p) in
  let? _ := side_bounds (ap_upper p) in
  Ok (ABSENCE_MAGIC ++ le 2 ABSENCE_VERSION ++ encode_side (ap_lower p) ++ encode_side (ap_upper p)).

(** [as_chunks::<32>().0]: the whole chunks of a slice. *)
Fixpoint chunks32 (n : nat) (bs : bytes) : list Hash256 :=
  match n with O => [] | S n => take 32 bs :: chunks32 n (drop 32 bs) end.

Definition as_chunks (bs : bytes) : list Hash256 := chunks32 (length bs / 32) bs.
#[global] Arguments as_chunks : simpl never.

(** [BorrowedWitness::read] and [into_owned]. *)
Definition read_witness : reader StateError StateWitness := λ d,
  let? (key, d) := read_bounded MAX_STATE_KEY_BYTES d in
  let? (value, d) := read_bounded MAX_STATE_VALUE_BYTES d in
  let? (index, d) := with_err StateCorrupt read_u64 d in
  let? (leaf_count, d) := with_err StateCorrupt read_u64 d in
  let? (sibling_count, d) := with_err StateCorrupt read_u8 d in
  let? _ := validate_bounds (len key) (len value) index leaf_count sibling_count in
  let? (siblings, d) := with_err StateCorrupt (read_exact (sibling_count * 32)) d in
  Ok (mkWitness key value
        (mkProof index leaf_count (as_chunks siblings)), d).

Definition read_side : reader StateError (option StateWitness) := λ d,
  let? (present, d) := with_err StateCorrupt read_u8 d in
  if present =? 0 then Ok (None, d)
  else
    let? _ := reject_if (negb (present =? 1)) StateCorrupt in
    let? (w, d) := read_witness d in
    Ok (Some w, d).

Definition absence_from_bytes (bs : bytes) : result StateAbsenceProof StateError :=
  let? _ := reject_if (MAX_ABSENCE_PROOF_BYTES <? len bs) StateLimitExceeded in
  let d := decoder_new bs in
  let? (magic, d) := with_err StateCorrupt (read_fixed 8) d in
  let? _ := reject_if (negb (bool_decide (magic = ABSENCE_MAGIC))) StateCorrupt in
  let? (version, d) := with_err StateCorrupt read_u16 d in
  let? _ := reject_if (negb (version =? ABSENCE_VERSION)) StateCorrupt in
  let? (lower, d) := read_side d in
  let? (upper, d) := read_side d in
  let? _ := map_err (λ _, StateCorrupt) (finish d) in
  Ok (mkAbsence lower upper).

(** ** Value proofs *)

Definition MAX_VALUE_PROOF_BYTES : Z := 1 + MAX_ABSENCE_PROOF_BYTES.

Definition transferable (w : StateWitness) : bool :=
  negb ((MAX_STATE_KEY_BYTES <? len (wt_key w)) || (MAX_STATE_VALUE_BYTES <? len (wt_value w))
        || (20 <? len (pf_siblings (wt_proof w))) || (pf_leaf_count (wt_proof w) =? 0)
        || (MAX_STATE_ENTRIES <? pf_leaf_count (wt_proof w))
        || (pf_leaf_count (wt_proof w) <=? pf_index (wt_proof w))).

(** The tag and the framing of [to_bytes]. *)
Definition value_tag (p : StateValueProof) : Z := match p with Present _ => 1 | Absent _ => 0 end.
Definition value_frame (p : StateValueProof) : StateAbsenceProof :=
  match p with Present w => mkAbsence (Some w) None | Absent proof => proof end.

Definition value_to_bytes (p : StateValueProof) : result bytes StateError :=
  let? _ := reject_if
    (negb (forallb transferable (option_list (ap_lower (value_frame p)) ++ option_list (ap_upper (value_frame p)))))
    StateLimitExceeded in
  let? bs := absence_to_bytes (value_frame p) in
  Ok (byte_of (value_tag p) :: bs).

Definition value_from_bytes (bs : bytes) : result StateValueProof StateError :=
  match bs with
  | [] => Err StateLimitExceeded
  | tag :: rest =>
      let? _ := reject_if (MAX_VALUE_PROOF_BYTES <? len bs) StateLimitExceeded in
      let? proof := absence_from_bytes rest in
      if byte.unsigned tag =? 0 then Ok (Absent proof)
      else if byte.unsigned tag =? 1 then
        match proof with
        | mkAbsence (Some w) None => Ok (Present w)
        | _ => Err StateCorrupt
        end
      else Err StateCorrupt
  end.

(** ** Decoding is the inverse of encoding *)

Lemma encode_hashes_len (hs : list Hash256) :
  Forall (sized 32) hs → length (encode_all id hs) = (length hs * 32)%nat.
Proof.
  induction 1 as [|h hs Hh _ IH]; [done|]. cbn [encode_all flat_map]. rewrite length_app.
  unfold encode_all in IH. rewrite IH. unfold id, sized in *. simpl. lia.
Qed.

Lemma chunks32_all (hs : list Hash256) :
  Forall (sized 32) hs → chunks32 (length hs) (encode_all id hs) = hs.
Proof.
  induction 1 as [|h hs Hh _ IH]; [done|]. cbn [encode_all flat_map length chunks32].
  change (id h) with h. rewrite <- Hh, take_app_length, drop_app_length.
  f_equal. exact IH.
Qed.

Lemma chunks32_inv n (bs : bytes) :
  length bs = (n * 32)%nat →
  encode_all id (chunks32 n bs) = bs ∧ length (chunks32 n bs) = n ∧ Forall (sized 32) (chunks32 n bs).
Proof.
  revert bs. induction n as [|n IH]; intros bs Hl; [by destruct bs|].
  destruct (IH (drop 32 bs)) as (E & L & F); [rewrite length_drop; lia|].
  cbn [chunks32 encode_all flat_map length]. unfold encode_all in E. rewrite E. unfold id at 1.
  rewrite take_drop, L. split; [done|]. split; [done|]. constructor; [|done].
  unfold sized. rewrite length_take. lia.
Qed.

Definition wire_ok (w : StateWitness) : Prop := witness_bounds w = Ok tt ∧ proof_sized (wt_proof w).

Lemma validate_bounds_ok k v i c n :
  validate_bounds k v i c n = Ok tt ↔
  k <= MAX_STATE_KEY_BYTES ∧ v <= MAX_STATE_VALUE_BYTES ∧ c <= MAX_STATE_ENTRIES ∧ n <= MAX_SIBLINGS
  ∧ c ≠ 0 ∧ i < c.
Proof.
  unfold validate_bounds. split.
  - intros H. bind_inv H. guards. bool_props. lia.
  - intros. rewrite !(proj2 (Z.ltb_ge _ _)) by lia. cbn [orb reject_if].
    rewrite (proj2 (Z.eqb_neq _ _)), (proj2 (Z.leb_gt _ _)) by lia. done.
Qed.

#[global] Instance reads_witness : Reads read_witness encode_witness wire_ok.
Proof.
  split; unfold read_witness, encode_witness.
  - intros d [k v [i c sibs]] ys [Hb (Hi & Hc & Hs)] Hd.
    cbn [wt_key wt_value wt_proof pf_index pf_leaf_count pf_siblings] in *. unfold witness_bounds in Hb.
    cbn [wt_key wt_value wt_proof pf_index pf_leaf_count pf_siblings] in *.
    pose proof (proj1 (validate_bounds_ok _ _ _ _ _) Hb) as (Hk & Hv & _ & Hn & _).
    rewrite <- !app_assoc in Hd. read_fwd; [done|]. read_fwd; [done|]. read_fwd; [done|].
    read_fwd; [done|]. read_fwd; [unfold fits, MAX_SIBLINGS in *; pose proof (len_nonneg sibs); lia|].
    rewrite Hb. assert (len (encode_all id sibs) = len sibs * 32) as Hl.
    { unfold len. rewrite encode_hashes_len by done. lia. }
    destruct (read_exact_fwd _ _ (encode_all id sibs) ys Hl Hd) as (d' & E & Hd').
    unfold with_err at 1. rewrite E. cbn [map_err].
    unfold as_chunks. rewrite encode_hashes_len, Nat.div_mul, chunks32_all by done. close_fwd.
  - intros d w d' zs Hd H. bind_inv H. read_inv. subst w d'. apply map_err_ok in E5.
    apply read_exact_inv with (zs := ys) in E5 as (ys' & -> & Hl & Hd'); [|done].
    destruct a. set (n := Z.to_nat z1).
    assert (length l1 = (n * 32)%nat) as Hn by (unfold fits, len in *; lia).
    unfold as_chunks. rewrite Hn, Nat.div_mul by done. destruct (chunks32_inv n l1 Hn) as (Ec & Lc & Fc).
    assert (len (chunks32 n l1) = z1) as Lz by (unfold fits, len in *; lia).
    exists ys'. unfold wire_ok, witness_bounds.
    cbn [wt_key wt_value wt_proof pf_index pf_leaf_count pf_siblings]. rewrite Ec, Lz.
    rewrite <- !app_assoc. done.
Qed.

Definition side_ok (side : option StateWitness) : Prop :=
  match side with Some w => wire_ok w | None => True end.

#[global] Instance reads_side : Reads read_side encode_side side_ok.
Proof.
  split; unfold read_side, encode_side.
  - intros d [w|] ys Hw Hd; rewrite <- ?app_assoc in Hd; (read_fwd; [done|]); [|close_fwd].
    cbn [Z.eqb Pos.eqb negb reject_if]. read_fwd; [done|]. close_fwd.
  - intros d w d' zs Hd H. bind_inv H. read_inv. case_in H; bool_props; subst.
    + simplify_eq. by exists ys.
    + bind_inv H. guards. subst. read_inv. eexists. by rewrite <- app_assoc.
Qed.

Lemma side_bounds_ok side : side_bounds side = Ok tt → witness_sized side → side_ok side.
Proof. by destruct side. Qed.

Lemma side_ok_inv side : side_ok side → side_bounds side = Ok tt ∧ witness_sized side.
Proof. by destruct side. Qed.

Lemma encode_side_len side :
  side_ok side →
  1 <= len (encode_side side) <= 1 + (33 + MAX_STATE_KEY_BYTES + MAX_STATE_VALUE_BYTES + 32 * MAX_SIBLINGS).
Proof.
  unfold encode_side, MAX_SIBLINGS, MAX_STATE_KEY_BYTES, MAX_STATE_VALUE_BYTES. destruct side as [w|]; [|done].
  intros [Hb%validate_bounds_ok (_ & _ & Hs)]. unfold encode_witness, encode_bounded. autorewrite with len.
  rewrite !len_le. assert (len (encode_all id (pf_siblings (wt_proof w))) = len (pf_siblings (wt_proof w)) * 32) as ->.
  { unfold len. rewrite encode_hashes_len by done. lia. }
  unfold MAX_SIBLINGS, MAX_STATE_KEY_BYTES, MAX_STATE_VALUE_BYTES in *.
  pose proof (len_nonneg (wt_key w)). pose proof (len_nonneg (wt_value w)).
  pose proof (len_nonneg (pf_siblings (wt_proof w))). lia.
Qed.

Definition absence_bytes (p : StateAbsenceProof) : bytes :=
  ABSENCE_MAGIC ++ le 2 ABSENCE_VERSION ++ encode_side (ap_lower p) ++ encode_side (ap_upper p).
Definition absence_ok (p : StateAbsenceProof) : Prop := side_ok (ap_lower p) ∧ side_ok (ap_upper p).

Lemma absence_bytes_len p : absence_ok p → len (absence_bytes p) <= MAX_ABSENCE_PROOF_BYTES.
Proof.
  intros [H1%encode_side_len H2%encode_side_len]. unfold absence_bytes, MAX_ABSENCE_PROOF_BYTES.
  autorewrite with len. rewrite len_le. change (len ABSENCE_MAGIC) with 8. lia.
Qed.

Lemma absence_from_fwd p : absence_ok p → absence_from_bytes (absence_bytes p) = Ok p.
Proof.
  intros Hp. pose proof (absence_bytes_len p Hp) as Hl. unfold absence_from_bytes.
  rewrite (proj2 (Z.ltb_ge _ _) Hl). cbn [reject_if].
  assert (dview (decoder_new (absence_bytes p)) (absence_bytes p)) as Hd.
  { apply dview_new. unfold MAX_ABSENCE_PROOF_BYTES, MAX_STATE_KEY_BYTES, MAX_STATE_VALUE_BYTES, MAX_SIBLINGS in *. lia. }
  destruct p as [lower upper], Hp as [H1 H2]. cbn [ap_lower ap_upper] in *.
  cbv zeta. unfold absence_bytes at 2 in Hd. change ABSENCE_MAGIC with (id ABSENCE_MAGIC) in Hd.
  cbn [ap_lower ap_upper] in Hd. read_fwd; [done|].
  rewrite bool_decide_eq_true_2 by done. cbn [negb reject_if]. read_fwd; [done|].
  rewrite Z.eqb_refl. cbn [negb reject_if]. read_fwd; [done|].
  rewrite <- (app_nil_r (encode_side upper)) in Hd. read_fwd; [done|].
  by rewrite (proj2 (finish_ok _ _ tt Hd) eq_refl).
Qed.

Lemma absence_from_inv bs p : absence_from_bytes bs = Ok p → absence_ok p ∧ bs = absence_bytes p.
Proof.
  unfold absence_from_bytes. intros H. bind_inv H. guards.
  assert (dview (decoder_new bs) bs) as Hd.
  { apply dview_new. unfold MAX_ABSENCE_PROOF_BYTES, MAX_STATE_KEY_BYTES, MAX_STATE_VALUE_BYTES, MAX_SIBLINGS in *. lia. }
  read_inv. apply map_err_ok in E6. eapply finish_ok in E6; [|exact Hd]. subst.
  split; [done|]. unfold absence_bytes. cbn [ap_lower ap_upper]. by rewrite app_nil_r.
Qed.

Lemma transferable_bounds w : transferable w = true ↔ witness_bounds w = Ok tt.
Proof.
  unfold transferable, witness_bounds. rewrite negb_true_iff. split.
  - intros H. bool_props. apply validate_bounds_ok. unfold MAX_SIBLINGS. lia.
  - intros H%validate_bounds_ok. unfold MAX_SIBLINGS in H.
    rewrite !(proj2 (Z.ltb_ge _ _)), (proj2 (Z.eqb_neq _ _)), (proj2 (Z.leb_gt _ _)) by lia. done.
Qed.

Lemma frame_sized p :
  value_sized p ↔ witness_sized (ap_lower (value_frame p)) ∧ witness_sized (ap_upper (value_frame p)).
Proof. destruct p; cbn; tauto. Qed.

Lemma frame_transferable p :
  forallb transferable (option_list (ap_lower (value_frame p)) ++ option_list (ap_upper (value_frame p))) = true
  ↔ side_bounds (ap_lower (value_frame p)) = Ok tt ∧ side_bounds (ap_upper (value_frame p)) = Ok tt.
Proof.
  rewrite forallb_app, andb_true_iff.
  destruct (ap_lower (value_frame p)), (ap_upper (value_frame p)); cbn;
    rewrite ?andb_true_r, ?transferable_bounds; naive_solver.
Qed.

Definition value_bytes (p : StateValueProof) : bytes :=
  byte_of (value_tag p) :: absence_bytes (value_frame p).

Lemma value_to_bytes_spec p bs :
  value_sized p → value_to_bytes p = Ok bs ↔ absence_ok (value_frame p) ∧ bs = value_bytes p.
Proof.
  intros [Hl Hu]%frame_sized. unfold value_to_bytes, absence_to_bytes. split.
  - intros H. bind_inv H. apply reject_if_ok, negb_false_iff, frame_transferable in E as [Bl Bu].
    subst bs. rewrite Bl, Bu in E0. injection E0 as <-.
    split; [split; by apply side_bounds_ok|done].
  - intros [[[Bl _]%side_ok_inv [Bu _]%side_ok_inv] ->].
    rewrite (proj2 (frame_transferable p) (conj Bl Bu)). cbn [negb reject_if]. by rewrite Bl, Bu.
Qed.

Lemma value_wire_exact bs p :
  value_from_bytes bs = Ok p ↔ value_sized p ∧ value_to_bytes p = Ok bs.
Proof.
  split.
  - intros H. enough (absence_ok (value_frame p) ∧ bs = value_bytes p) as [Hp E].
    { assert (value_sized p) as Hs.
      { apply frame_sized. destruct Hp as [[_ ?]%side_ok_inv [_ ?]%side_ok_inv]. done. }
      split; [done|]. by apply value_to_bytes_spec. }
    destruct bs as [|tag rest]; [done|]. cbn [value_from_bytes] in H. bind_inv H. guards.
    apply absence_from_inv in E0 as [Hp ->].
    assert (tag = byte_of (byte.unsigned tag)) as Et by (symmetry; apply byte.of_Z_unsigned).
    destruct (byte.unsigned tag =? 0) eqn:T0.
    { bool_props. injection H as <-. split; [done|]. unfold value_bytes. cbn. by rewrite Et, T0. }
    destruct (byte.unsigned tag =? 1) eqn:T1; [|done]. bool_props.
    destruct a0 as [[w|] [w'|]]; simplify_eq. split; [done|]. unfold value_bytes. cbn. by rewrite Et, T1.
  - intros [Hs H]. apply (value_to_bytes_spec p bs Hs) in H as [Hp ->]. unfold value_bytes, value_from_bytes.
    pose proof (absence_bytes_len _ Hp). rewrite (proj2 (Z.ltb_ge _ _)); cbn [reject_if].
    2:{ rewrite len_cons. unfold MAX_VALUE_PROOF_BYTES. lia. }
    rewrite absence_from_fwd by done. by destruct p.
Qed.

(** ** Remote reads *)

Section remote.
Context {blake : Blake2s} {arcs : Arcs}.
Implicit Types (s : InMemoryState) (p : StateValueProof) (key : StateKey).

Lemma bounds_transferable w : witness_bounded w → side_bounds w = Ok tt.
Proof.
  destruct w as [w|]; [|done]. intros (? & ? & ? & ? & ?). apply validate_bounds_ok.
  unfold MAX_SIBLINGS. lia.
Qed.

(** C19: A remote read succeeds: for every key within the limit, a reachable state
    creates a proof, the proof encodes, its bytes decode to it, and checking it
    against the state's root returns what the state holds, the value of a present
    key or the absence of another one. *)
Theorem remote_read_complete s key :
  state_reach s → len key <= MAX_STATE_KEY_BYTES →
  ∃ p bs, value_create s key = Ok p ∧ value_to_bytes p = Ok bs ∧ value_from_bytes bs = Ok p
  ∧ value_verify p (im_root s) key = Ok (state_get s key).
Proof.
  intros Hs Hk. destruct (value_proof_complete s key Hs Hk) as (p & Hc & Hz & Hb & Hv).
  assert (value_to_bytes p = Ok (value_bytes p)) as He.
  { apply value_to_bytes_spec; [done|]. split; [|done]. pose proof (proj1 (frame_sized p) Hz) as [? ?].
    destruct p; destruct Hb as [? ?]; split; apply side_bounds_ok; try done; by apply bounds_transferable. }
  exists p, (value_bytes p). split; [done|]. split; [done|]. split; [|done]. by apply value_wire_exact.
Qed.

(** C18: No peer can prove a wrong value: whatever bytes it sends, if they decode and
    the proof verifies against the root of a reachable state, then it states what
    that state holds for the key, or two hashed buffers, one of the tree and one of
    the check, collide. *)
Theorem remote_read_sound s bs p key v :
  state_reach s → value_from_bytes bs = Ok p → value_verify p (im_root s) key = Ok v →
  v = state_get s key ∨ data_collide (tree_buffers (im_data s)) (value_buffers p).
Proof. intros Hs [Hz _]%value_wire_exact. by apply value_proof_sound. Qed.
End remote.

Section remote_examples.
#[local] Existing Instance checksum_blake2s.
#[local] Existing Instance fresh_arcs.

Lemma remote_read_complete_witness :
  ∃ p bs, value_create sample_state (lit "a") = Ok p ∧ value_to_bytes p = Ok bs
  ∧ value_from_bytes bs = Ok p
  ∧ value_verify p (im_root sample_state) (lit "a") = Ok (state_get sample_state (lit "a")).
Proof. apply remote_read_complete; [exact sample_reach|by vm_compute]. Defined.

(** The proof that the two-entry state does not hold [c]. *)
Definition sample_absence : StateValueProof :=
  match value_create sample_state (lit "c") with
  | Ok p => p
  | Err _ => Absent (mkAbsence None None)
  end.

Lemma remote_read_sound_witness :
  None = state_get sample_state (lit "c")
  ∨ data_collide (tree_buffers (im_data sample_state)) (value_buffers sample_absence).
Proof.
  apply (remote_read_sound sample_state (value_bytes sample_absence) sample_absence (lit "c") None
    sample_reach); by vm_compute.
Defined.
End remote_examples.
