(* ===== verification/StateFile.v ===== *)
(** * StateFile: the file-backed state database
    ([src/crates/state/src/persistent.rs])

    [FileBackedState] keeps the in-memory tree and publishes each new version by
    writing a staging file, synchronising it, renaming it over the published one
    and, on Unix, synchronising the directory.  Every call of the operating system has
    an explicit outcome.  After a power loss the directory may still name any version
    renamed since it was last synchronised; the staging file may hold anything.  On other
    targets nothing synchronises the directory: versions are replaced atomically there,
    but a power loss may go back to an earlier one. *)

From S2P Require Import Prelude Ordered Codec Disk Types State StateTree Snapshot.

(** ** The directory *)

(** The published file as processes see it, the entries a power loss may leave,
    the staging file, and whether a process holds the lock. *)
Record StateDisk := mkDisk {
  sd_visible : option bytes;
  sd_possible : list (option bytes);
  sd_pending : option bytes;
  sd_locked : bool
}.

Definition empty_disk : StateDisk := mkDisk None [None] None false.

Definition with_pending (d : StateDisk) (pending : option bytes) : StateDisk :=
  mkDisk (sd_visible d) (sd_possible d) pending (sd_locked d).
Definition with_lock (d : StateDisk) (locked : bool) : StateDisk :=
  mkDisk (sd_visible d) (sd_possible d) (sd_pending d) locked.

(** [rename] replaces the published file by the staging file. *)
Definition renamed (d : StateDisk) : StateDisk :=
  mkDisk (sd_pending d) (sd_pending d :: sd_possible d) None (sd_locked d).

(** Synchronising the directory settles its entry. *)
Definition dir_synced (d : StateDisk) : StateDisk :=
  mkDisk (sd_visible d) [sd_visible d] (sd_pending d) (sd_locked d).

(** The target the program is compiled for: [cfg(unix)] or [cfg(not(unix))]. *)
Inductive Target := Unix | NotUnix.

(** [sync_parent]: opening and synchronising the directory on Unix, nothing elsewhere. *)
Definition sync_parent (target : Target) (works : bool) (d : StateDisk) : StateDisk * bool :=
  match target with
  | Unix => if works then (dir_synced d, true) else (d, false)
  | NotUnix => (d, true)
  end.

(** The outcomes of the calls of one [publish], [true] for success. *)
Record PublishIO := mkPublishIO {
  io_remove : bool;
  io_create : bool;
  io_write : Persist;
  io_sync : bool;
  io_rename : bool;
  io_cleanup : bool;
  io_dir : bool
}.

(** The outcomes of the calls of [open]: resolving the path to a plain file,
    opening and locking the sidecar, opening and reading the data file. *)
Record OpenIO := mkOpenIO {
  io_path : bool;
  io_sidecar : bool;
  io_lock : bool;
  io_open : bool;
  io_read : bool;
  io_publish : PublishIO
}.

Definition working_publish : PublishIO := mkPublishIO true true Persisted true true true true.
Definition working_open : OpenIO := mkOpenIO true true true true true working_publish.

(** ** The database *)

Record FileBackedState := mkFileBacked {
  fb_state : InMemoryState;
  fb_recovery_required : bool
}.

Section file_backed.
Context {blake : Blake2s} {arcs : Arcs} (target : Target).

(** The closure of [publish]: write, synchronise and rename the staging file. *)
Definition write_staged (io : PublishIO) (d : StateDisk) (next : InMemoryState) : StateDisk * bool :=
  if negb (io_create io) || is_some (sd_pending d) then (d, false)
  else
    let '(content, written) := persist (io_write io) [] 0 (export_snapshot next) in
    let d := with_pending d (Some content) in
    if written && io_sync io && io_rename io then (renamed d, true) else (d, false).

Definition file_publish (io : PublishIO) (d : StateDisk) (db : FileBackedState) (next : InMemoryState)
    : StateDisk * FileBackedState * result unit StateError :=
  if fb_recovery_required db then (d, db, Err StateDurabilityUnknown)
  else if negb (io_remove io) then (d, db, Err StateIo)
  else
    match write_staged io (with_pending d None) next with
    | (d, false) =>
        ((if io_cleanup io then with_pending d None else d), db, Err StateIo)
    | (d, true) =>
        match sync_parent target (io_dir io) d with
        | (d, true) => (d, mkFileBacked next false, Ok tt)
        | (d, false) => (d, mkFileBacked next true, Err StateDurabilityUnknown)
        end
    end.

(** [commit] and [commit_verified]. *)
Definition file_commit_next (io : PublishIO) (d : StateDisk) (db : FileBackedState)
    (next : result InMemoryState StateError) : StateDisk * FileBackedState * result Hash256 StateError :=
  match next with
  | Err error => (d, db, Err error)
  | Ok next =>
      match file_publish io d db next with
      | (d, db, Ok _) => (d, db, Ok (im_root (fb_state db)))
      | (d, db, Err error) => (d, db, Err error)
      end
  end.

Definition file_commit (io : PublishIO) (d : StateDisk) (db : FileBackedState) (parent : Hash256)
    (diffs : list StateDiff) : StateDisk * FileBackedState * result Hash256 StateError :=
  file_commit_next io d db (prepare (fb_state db) parent diffs).

Definition file_commit_verified (io : PublishIO) (d : StateDisk) (db : FileBackedState) (parent : Hash256)
    (diffs : list StateDiff) (expected : Hash256)
    : StateDisk * FileBackedState * result Hash256 StateError :=
  file_commit_next io d db
    (let? next := prepare (fb_state db) parent diffs in
     let? _ := reject_if (negb (bool_decide (im_root next = expected))) RootMismatch in
     Ok next).

(** The published state and whether it has to be created. *)
Definition load_published (io : OpenIO) (d : StateDisk) : result (InMemoryState * bool) StateError :=
  if negb (io_open io) then Err StateIo
  else
    match sd_visible d with
    | Some content =>
        let? _ := reject_if (negb (io_read io)) StateIo in
        let? state := decode_snapshot (take (Z.to_nat (MAX_SNAPSHOT_BYTES + 1)) content) in
        Ok (state, false)
    | None => Ok (state_new, true)
    end.

(** [open]; every failure after the lock was taken drops it. *)
Definition file_open (io : OpenIO) (d : StateDisk) : StateDisk * result FileBackedState StateError :=
  if negb (io_path io) || negb (io_sidecar io) then (d, Err StateIo)
  else if sd_locked d then (d, Err StateLocked)
  else if negb (io_lock io) then (d, Err StateIo)
  else
    match load_published io d with
    | Err error => (d, Err error)
    | Ok (state, create) =>
        let db := mkFileBacked state false in
        if create then
          match file_publish (io_publish io) (with_lock d true) db state with
          | (d, db, Ok _) => (d, Ok db)
          | (d, _, Err error) => (with_lock d false, Err error)
          end
        else (with_lock d true, Ok db)
    end.

Definition file_close (d : StateDisk) : StateDisk := with_lock d false.

(** A power loss: one possible entry is found, the staging file may hold anything. *)
Definition power_loss (entry pending : option bytes) : StateDisk := mkDisk entry [entry] pending false.

(** ** Executions *)

(** Directories and the open database a single program can reach.  A crash inside
    an operation is the operation run with failing outcomes from that call on,
    followed by the end of the process: with [io_cleanup] failing too, the
    directory is left as it was when the process died. *)
Inductive file_reach : StateDisk → option FileBackedState → Prop :=
| reach_empty : file_reach empty_disk None
| reach_open d io d' db :
    file_reach d None → file_open io d = (d', Ok db) → file_reach d' (Some db)
| reach_open_failed d db io d' error :
    file_reach d db → file_open io d = (d', Err error) → file_reach d' db
| reach_file_commit d db io parent diffs d' db' r :
    file_reach d (Some db) → file_commit io d db parent diffs = (d', db', r) → file_reach d' (Some db')
| reach_file_commit_verified d db io parent diffs expected d' db' r :
    file_reach d (Some db) → file_commit_verified io d db parent diffs expected = (d', db', r) →
    file_reach d' (Some db')
| reach_close d db : file_reach d (Some db) → file_reach (file_close d) None
| reach_power_loss d db entry pending :
    file_reach d db → entry ∈ sd_possible d → file_reach (power_loss entry pending) None.

(** The state that reopening after a power loss finds, whatever the staging file. *)
Definition recovers (entry : option bytes) (s : InMemoryState) : Prop :=
  ∀ pending, ∃ d', file_open working_open (power_loss entry pending) = (d', Ok (mkFileBacked s false)).

Definition may_recover (d : StateDisk) (s : InMemoryState) : Prop :=
  ∃ entry, entry ∈ sd_possible d ∧ recovers entry s.

(** ** Invariant *)

Implicit Types (s : InMemoryState) (d : StateDisk) (db : FileBackedState).

Definition well_formed s : Prop := ∃ m, represents s m.

Definition entry_good (entry : option bytes) : Prop :=
  match entry with
  | Some content => ∃ s, well_formed s ∧ content = export_snapshot s
  | None => True
  end.

Definition disk_ok d : Prop := Forall entry_good (sd_possible d) ∧ sd_visible d ∈ sd_possible d.

Definition db_ok d db : Prop :=
  well_formed (fb_state db) ∧ sd_visible d = Some (export_snapshot (fb_state db)) ∧ sd_locked d = true.

Lemma new_well_formed : well_formed state_new.
Proof. exists []. split; [|done]. split; [apply bt_ok_nil|]. split; [done|]. split; [done|constructor]. Qed.

Lemma prepare_well_formed s parent diffs next :
  well_formed s → prepare s parent diffs = Ok next → well_formed next.
Proof.
  intros [m Hm] H. unfold prepare in H. rewrite (prepare_spec s m) in H by done.
  case_bool_decide; [|done]. bind_inv H. subst next. exists a. split; [|done].
  by apply (stage_ok m diffs), E; apply Hm.
Qed.

(** The entries a power loss may leave after a version was published without an error. *)
Definition settled d (visible : option bytes) : list (option bytes) :=
  match target with Unix => [visible] | NotUnix => visible :: sd_possible d end.

Lemma publish_cases io d db next d' db' r :
  file_publish io d db next = (d', db', r) →
  match r with
  | Ok _ => db' = mkFileBacked next false ∧ sd_visible d' = Some (export_snapshot next)
      ∧ sd_possible d' = settled d (sd_visible d') ∧ sd_locked d' = sd_locked d
  | Err error =>
      (db' = db ∧ sd_visible d' = sd_visible d ∧ sd_possible d' = sd_possible d ∧ sd_locked d' = sd_locked d
       ∧ (error = StateIo ∨ fb_recovery_required db = true ∧ error = StateDurabilityUnknown))
      ∨ (error = StateDurabilityUnknown ∧ db' = mkFileBacked next true
         ∧ sd_visible d' = Some (export_snapshot next)
         ∧ sd_possible d' = sd_visible d' :: sd_possible d ∧ sd_locked d' = sd_locked d)
  end.
Proof.
  unfold file_publish, write_staged, persist. destruct io as [rm cr wr sy rn cl dir]. cbn.
  intros H. destruct (fb_recovery_required db) eqn:Er; [simplify_eq; by auto 10|].
  destruct rm; cbn in H; [|simplify_eq; by auto 10].
  destruct cr; cbn in H; [|destruct cl; simplify_eq; by auto 10].
  destruct wr as [|torn]; cbn in H; [|destruct cl; simplify_eq; by auto 10].
  destruct sy; cbn in H; [|destruct cl; simplify_eq; by auto 10].
  destruct rn; cbn in H; [|destruct cl; simplify_eq; by auto 10].
  change (write_at [] 0 (export_snapshot next)) with (export_snapshot next ++ []) in H.
  rewrite app_nil_r in H. unfold sync_parent, settled in *. destruct target, dir; simplify_eq; cbn; by auto 10.
Qed.

Lemma publish_disk_ok io d db next d' db' r :
  disk_ok d → well_formed next → file_publish io d db next = (d', db', r) → disk_ok d'.
Proof.
  intros [Hp Hv] Hn H%publish_cases. unfold disk_ok.
  assert (entry_good (Some (export_snapshot next))) as Hg by (by exists next).
  destruct r as [u|e].
  - destruct H as (_ & Hv' & -> & _). rewrite Hv'. unfold settled. destruct target; (split; [by repeat constructor|by left]).
  - destruct H as [(_ & -> & -> & _)|(_ & _ & Hv' & -> & _)]; [done|]. rewrite Hv'.
    split; [by constructor|by left].
Qed.

Lemma publish_db_ok io d db next d' db' r :
  db_ok d db → well_formed next → file_publish io d db next = (d', db', r) → db_ok d' db'.
Proof.
  intros (Hw & Hv & Hl) Hn H%publish_cases. destruct r as [u|e].
  - destruct H as (-> & Hv' & _ & Hl'). split; [done|]. split; [done|]. congruence.
  - destruct H as [(-> & Hv' & _ & Hl' & _)|(_ & -> & Hv' & _ & Hl')];
      (split; [done|]; cbn; split; congruence).
Qed.

Lemma commit_next_ok io d db next d' db' r :
  disk_ok d → db_ok d db → (∀ s, next = Ok s → well_formed s) →
  file_commit_next io d db next = (d', db', r) → disk_ok d' ∧ db_ok d' db'.
Proof.
  intros Hd Hdb Hn. unfold file_commit_next. destruct next as [next|]; [|by intros; simplify_eq].
  destruct (file_publish io d db next) as [[d1 db1] r1] eqn:E.
  assert (disk_ok d1 ∧ db_ok d1 db1).
  { split; [by eapply publish_disk_ok; eauto|by eapply publish_db_ok; eauto]. }
  destruct r1; intros; by simplify_eq.
Qed.

Lemma export_read s :
  well_formed s → take (Z.to_nat (MAX_SNAPSHOT_BYTES + 1)) (export_snapshot s) = export_snapshot s.
Proof.
  intros [m Hm]. rewrite (represents_export s m Hm). destruct Hm as [(_ & _ & Hs & _) _].
  apply take_ge. rewrite <- (map_snapshot_len m (map_root m)) in Hs by apply domain_hash_sized.
  unfold len in Hs. lia.
Qed.

Lemma load_published_ok io d s create :
  entry_good (sd_visible d) → load_published io d = Ok (s, create) →
  well_formed s ∧ sd_visible d = if create then None else Some (export_snapshot s).
Proof.
  unfold load_published. destruct (io_open io); [|done]. cbn [negb].
  destruct (sd_visible d) as [content|]; intros Hg H.
  - destruct Hg as (s' & Hs' & ->). rewrite export_read in H by done. bind_inv H. simplify_eq.
    apply decode_snapshot_spec in E0 as [? ->]. done.
  - simplify_eq. split; [apply new_well_formed|done].
Qed.

Lemma disk_visible_good d : disk_ok d → entry_good (sd_visible d).
Proof. intros [H1 H2]. rewrite Forall_forall in H1. by apply H1. Qed.

Lemma open_ok io d d' r :
  disk_ok d → file_open io d = (d', r) →
  disk_ok d' ∧ (sd_locked d = true → d' = d) ∧ match r with Ok db => db_ok d' db | Err _ => True end.
Proof.
  intros Hd. unfold file_open.
  destruct (_ || _); [intros; by simplify_eq|]. destruct (sd_locked d) eqn:El; [intros; by simplify_eq|].
  destruct (negb (io_lock io)); [intros; by simplify_eq|].
  destruct (load_published io d) as [[s create]|] eqn:Eld; [|intros; by simplify_eq].
  apply load_published_ok in Eld as [Hs Hv]; [|by apply disk_visible_good].
  destruct create; [|by intros; simplify_eq].
  destruct (file_publish _ _ _ _) as [[d1 db1] r1] eqn:E. pose proof E as Hd1.
  apply publish_disk_ok in Hd1; [|done..].
  apply publish_cases in E. destruct r1 as [u|e]; intros; simplify_eq; [|done].
  destruct E as (-> & Hv' & _ & Hl). done.
Qed.

Definition file_inv d (open : option FileBackedState) : Prop :=
  disk_ok d ∧ match open with Some db => db_ok d db | None => True end.

Lemma file_reach_inv d open : file_reach d open → file_inv d open.
Proof.
  induction 1 as [|d io d' db H [Hd _] E|d db io d' e H [Hd Hdb] E|d db io parent diffs d' db' r H [Hd Hdb] E
    |d db io parent diffs expected d' db' r H [Hd Hdb] E|d db H [Hd Hdb]|d db entry pending H [[Hd _] _] Hin].
  - split; [|done]. split; [by repeat constructor|by left].
  - destruct (open_ok _ _ _ _ Hd E) as (? & _ & ?). done.
  - destruct (open_ok _ _ _ _ Hd E) as (? & Hsame & _). split; [done|]. destruct db as [db|]; [|done].
    by rewrite (Hsame (proj2 (proj2 Hdb))).
  - apply commit_next_ok in E as [? ?]; [done..|]. intros s Hs. by eapply prepare_well_formed, Hs; apply Hdb.
  - apply commit_next_ok in E as [? ?]; [done..|]. intros s Hs. bind_inv Hs. subst.
    by eapply prepare_well_formed; [apply Hdb|].
  - done.
  - split; [|done]. rewrite Forall_forall in Hd. split; [|by left]. constructor; [by apply Hd|constructor].
Qed.

(** ** Recovery *)

Lemma recovers_some s : well_formed s → recovers (Some (export_snapshot s)) s.
Proof.
  intros Hs pending. unfold file_open, load_published, power_loss. cbn -[MAX_SNAPSHOT_BYTES decode_snapshot].
  rewrite export_read by done. rewrite (proj2 (decode_snapshot_spec _ s)) by done. by eexists.
Qed.

Lemma recovers_none : recovers None state_new.
Proof.
  intros pending. unfold file_open, load_published, power_loss. cbn.
  destruct target; by eexists.
Qed.

Lemma recovers_inj entry s s' : recovers entry s → recovers entry s' → s = s'.
Proof. intros H H'. destruct (H None) as [d E], (H' None) as [d' E']. rewrite E in E'. by simplify_eq. Qed.

Lemma entry_recovers entry : entry_good entry → ∃ s, recovers entry s.
Proof.
  destruct entry as [content|]; [|intros _; exists state_new; apply recovers_none].
  intros (s & Hs & ->). exists s. by apply recovers_some.
Qed.

(** C21: Commits of the file-backed database are atomic and, on Unix, durable.  Whatever the
    operating system's calls returned and wherever an earlier run was cut short,
    every entry a power loss can leave reopens.  On Unix a commit that returned a root is
    the only state recovery can find afterwards; elsewhere, where the directory is not
    synchronised, recovery finds that state or one it could find before.  A commit refused
    for any other reason than unknown durability changed nothing; with unknown durability
    recovery finds a state it could find before or the new one. *)
Theorem commit_durable io d db parent diffs d' db' r :
  file_reach d (Some db) → file_commit io d db parent diffs = (d', db', r) →
  (∀ entry, entry ∈ sd_possible d' → ∃ s, recovers entry s)
  ∧ match r with
    | Ok root => prepare (fb_state db) parent diffs = Ok (fb_state db') ∧ im_root (fb_state db') = root
        ∧ ∀ s, may_recover d' s ↔
            match target with Unix => s = fb_state db' | NotUnix => s = fb_state db' ∨ may_recover d s end
    | Err StateDurabilityUnknown =>
        ∀ s, may_recover d' s → may_recover d s ∨ prepare (fb_state db) parent diffs = Ok s
    | Err _ => db' = db ∧ ∀ s, may_recover d' s ↔ may_recover d s
    end.
Proof.
  intros Hr E. pose proof (reach_file_commit _ _ _ _ _ _ _ _ Hr E) as [[Hd' _] _]%file_reach_inv.
  split; [intros entry Hin; rewrite Forall_forall in Hd'; by apply entry_recovers, Hd'|]. clear Hd'.
  apply file_reach_inv in Hr as [_ (Hw & _)]. unfold file_commit, file_commit_next in E.
  destruct (prepare (fb_state db) parent diffs) as [next|e] eqn:Ep;
    [|simplify_eq; destruct e; auto; by intros; left].
  assert (well_formed next) as Hn by (by eapply prepare_well_formed).
  destruct (file_publish io d db next) as [[d1 db1] r1] eqn:Epub. apply publish_cases in Epub.
  unfold may_recover. destruct r1 as [u|e]; simplify_eq.
  - destruct Epub as (-> & Hv & Hposs & _). rewrite Hposs, Hv. cbn [fb_state].
    split; [done|]. split; [done|]. intros s. assert (recovers (Some (export_snapshot next)) next) as Hrec by by apply recovers_some.
    transitivity (s = next ∨ ∃ entry, entry ∈ (match target with Unix => [] | NotUnix => sd_possible d end) ∧ recovers entry s).
    + unfold settled. destruct target; setoid_rewrite elem_of_cons; naive_solver eauto using recovers_inj.
    + destruct target; set_solver.
  - destruct Epub as [(-> & _ & -> & _ & [->|[_ ->]])|(-> & -> & Hv & -> & _)]; [done|by left|].
    rewrite Hv. intros s (entry & [->|Hin]%elem_of_cons & Hs); [right|left; by exists entry].
    f_equal. eapply recovers_inj; [|exact Hs]. by apply recovers_some.
Qed.
End file_backed.

Section file_examples.
#[local] Existing Instance checksum_blake2s.
#[local] Existing Instance fresh_arcs.

(** A first start on an empty directory, then one commit. *)
Definition sample_dir : StateDisk := fst (file_open Unix working_open empty_disk).
Definition sample_db : FileBackedState := mkFileBacked state_new false.
Definition sample_commit : StateDisk * FileBackedState * result Hash256 StateError :=
  file_commit Unix working_publish sample_dir sample_db empty_root [sample_diff].

Lemma sample_file_reach : file_reach Unix sample_dir (Some sample_db).
Proof. refine (reach_open Unix empty_disk working_open _ _ (reach_empty Unix) _). evaluate. Qed.

Lemma commit_durable_witness :
  is_ok (snd sample_commit) = true
  ∧ (∀ entry, entry ∈ sd_possible (fst (fst sample_commit)) → ∃ s, recovers Unix entry s)
  ∧ match snd sample_commit with
    | Ok root => prepare state_new empty_root [sample_diff] = Ok (fb_state (snd (fst sample_commit)))
        ∧ im_root (fb_state (snd (fst sample_commit))) = root
        ∧ ∀ s, may_recover Unix (fst (fst sample_commit)) s ↔ s = fb_state (snd (fst sample_commit))
    | Err StateDurabilityUnknown =>
        ∀ s, may_recover Unix (fst (fst sample_commit)) s →
             may_recover Unix sample_dir s ∨ prepare state_new empty_root [sample_diff] = Ok s
    | Err _ => snd (fst sample_commit) = sample_db
        ∧ ∀ s, may_recover Unix (fst (fst sample_commit)) s ↔ may_recover Unix sample_dir s
    end.
Proof.
  split; [evaluate|].
  refine (commit_durable Unix working_publish sample_dir sample_db empty_root [sample_diff]
    (fst (fst sample_commit)) (snd (fst sample_commit)) (snd sample_commit) sample_file_reach _).
  fold sample_commit. rewrite <- !surjective_pairing. reflexivity.
Defined.
End file_examples.
