(* ===== verification/Transactions.v ===== *)
(** * Transactions: payloads, identities and admission ([src/crates/transaction])

    The versioned payment and contract payloads, the digest a sender signs and the
    identifier that binds every field, the size check that runs before encoding,
    and the two validators.  The payload decoders are inverses of the encoders, and
    the arithmetic size is the length of the canonical encoding. *)

From S2P Require Import Prelude Ordered Codec Types Crypto State.

Inductive TransactionError :=
| InvalidEnvelope
| WrongChain
| Expired
| UnknownSender
| InvalidNonce
| InsufficientResources
| InvalidTxSignature
| UnsupportedPayload.

#[global] Instance TransactionError_eq_dec : EqDecision TransactionError.
Proof. solve_decision. Defined.

(** ** Payments ([payment.rs]) *)

Definition PAYMENT_TAG : bytes := lit "ALPAY001".
Definition PAYMENT_ENCODED_LEN : Z := 80.

Record Payment := mkPayment {
  pay_public_key : bytes;
  pay_recipient : Address;
  pay_amount : Z
}.

Definition payment_to_bytes (p : Payment) : bytes :=
  PAYMENT_TAG ++ pay_public_key p ++ pay_recipient p ++ le 8 (pay_amount p).

(** [bytes[a..b]] of a slice known to be long enough. *)
Definition range (bs : bytes) (a b : nat) : bytes := take (b - a) (drop a bs).

Definition payment_decode (bs : bytes) : result Payment TransactionError :=
  let? _ := reject_if (negb (len bs =? PAYMENT_ENCODED_LEN)
                       || negb (bool_decide (range bs 0 8 = PAYMENT_TAG))) UnsupportedPayload in
  let recipient := range bs 40 72 in
  let amount := from_le (range bs 72 80) in
  let? _ := reject_if (bool_decide (recipient = zero32) || (amount =? 0)) UnsupportedPayload in
  Ok (mkPayment (range bs 8 40) recipient amount).

(** ** Contracts ([contract.rs]) *)

Definition MAX_CONTRACT_CODE : Z := 1000000.
Definition MAX_CONTRACT_KEYS : Z := 1024.
Definition MAX_TROCTO_SOURCE : Z := 65536.

Inductive ContractAction :=
| Deploy (code : bytes)
| Call (address : Address) (input : bytes) (keys : list bytes)
| DeployTrocto (source : bytes)
| CallTrocto (address : Address) (input : bytes) (keys : list bytes).

Record ContractPayload := mkContractPayload {
  cp_public_key : bytes;
  cp_action : ContractAction
}.

Definition encode_field (bs : bytes) : bytes := le 4 (len bs) ++ bs.

Definition native_action (a : ContractAction) : bool :=
  match a with DeployTrocto _ | CallTrocto _ _ _ => true | _ => false end.

Definition contract_tag (native : bool) : bytes :=
  if native then lit "ALCON003" else lit "ALCON002".

Definition encode_action (a : ContractAction) : bytes :=
  match a with
  | Deploy code | DeployTrocto code => le 1 0 ++ encode_field code
  | Call address input keys | CallTrocto address input keys =>
      le 1 1 ++ address ++ encode_field input ++ le 4 (len keys) ++ encode_all encode_field keys
  end.

Definition contract_to_bytes (p : ContractPayload) : bytes :=
  contract_tag (native_action (cp_action p)) ++ cp_public_key p ++ encode_action (cp_action p).

Definition decode_field (max : Z) : read bytes := λ d,
  let? (length, d) := read_u32 d in
  let? _ := reject_if (max <? length) LimitExceeded in
  read_exact length d.

(** The loop over the call's keys: nonempty and strictly increasing. *)
Fixpoint read_keys (count : nat) (previous : option bytes) : read (list bytes) := λ d,
  match count with
  | O => Ok ([], d)
  | S count =>
      let? (key, d) := decode_field 256 d in
      let? _ := reject_if ((len key =? 0) || match previous with Some p => leb key p | None => false end)
                  NonCanonical in
      let? (keys, d) := read_keys count (Some key) d in
      Ok (key :: keys, d)
  end.

Definition read_deploy (native : bool) : read ContractAction := λ d,
  let? (code, d) := decode_field (if native then MAX_TROCTO_SOURCE else MAX_CONTRACT_CODE) d in
  let? _ := reject_if (len code =? 0) NonCanonical in
  if native then
    let? _ := reject_if (negb (valid_utf8 code)) NonCanonical in
    Ok (DeployTrocto code, d)
  else Ok (Deploy code, d).

Definition read_call (native : bool) : read ContractAction := λ d,
  let? (address, d) := read_fixed 32 d in
  let? _ := reject_if (bool_decide (address = zero32)) NonCanonical in
  let? (input, d) := decode_field 65536 d in
  let? _ := reject_if (native && negb (len input =? 8)) NonCanonical in
  let? (count, d) := read_u32 d in
  let? _ := reject_if ((MAX_CONTRACT_KEYS <? count) || (remaining d / 5 <? count)) LimitExceeded in
  let? (keys, d) := read_keys (Z.to_nat count) None d in
  Ok (if native then CallTrocto address input keys else Call address input keys, d).

Definition read_action (native : bool) : read ContractAction := λ d,
  let? (kind, d) := read_u8 d in
  if kind =? 0 then read_deploy native d
  else if kind =? 1 then read_call native d
  else Err NonCanonical.

Definition contract_decode_inner (bs : bytes) : result ContractPayload DecodeError :=
  let? _ := reject_if (MAX_CONTRACT_CODE + 45 <? len bs) LimitExceeded in
  let? (tag, d) := read_fixed 8 (decoder_new bs) in
  let? native := if bool_decide (tag = contract_tag false) then Ok false
                 else if bool_decide (tag = contract_tag true) then Ok true
                 else Err NonCanonical in
  let? (public_key, d) := read_fixed 32 d in
  let? (action, d) := read_action native d in
  let? _ := finish d in
  Ok (mkContractPayload public_key action).

Definition contract_decode (bs : bytes) : result ContractPayload TransactionError :=
  map_err (λ _, UnsupportedPayload) (contract_decode_inner bs).

Section contract_keys.
Context {blake : Blake2s}.

Definition deployment_bytes (chain_id : Z) (sender : Address) (nonce : Z) : bytes :=
  le 4 chain_id ++ sender ++ le 8 nonce.

Definition contract_address (chain_id : Z) (sender : Address) (nonce : Z) : Address :=
  domain_hash (lit "astrolune.contract.address.v2") (deployment_bytes chain_id sender nonce).
Definition contract_code_key (address : Address) : StateKey :=
  lit "astrolune/contract/code/v2/" ++ address.
Definition contract_state_key (address : Address) (local : bytes) : StateKey :=
  lit "astrolune/contract/state/v2/" ++ address ++ domain_hash (lit "astrolune.contract.key.v2") local.

Definition trocto_contract_address (chain_id : Z) (sender : Address) (nonce : Z) : Address :=
  domain_hash (lit "astrolune.contract.address.v3") (deployment_bytes chain_id sender nonce).
Definition trocto_contract_code_key (address : Address) : StateKey :=
  lit "astrolune/contract/code/v3/" ++ address.
Definition trocto_contract_state_key (address : Address) (local : bytes) : StateKey :=
  lit "astrolune/contract/state/v3/" ++ address ++ domain_hash (lit "astrolune.contract.key.v3") local.
End contract_keys.

(** ** Identity and signing ([signing.rs]) *)

Section identity.
Context {blake : Blake2s}.

Definition address_from_public_key (public_key : bytes) : Address :=
  domain_hash domain.ACCOUNT_ADDRESS public_key.

Definition signing_hash (t : Transaction) : Hash256 :=
  domain_hash domain.TRANSACTION (encode_unsigned_transaction t).

Definition compute_tx_id (t : Transaction) : Hash256 :=
  domain_hash domain.TRANSACTION_ID (encode_transaction t).
End identity.

(** ** Envelopes ([envelope.rs]) *)

Record Envelope := mkEnvelope {
  env_transaction : Transaction;
  env_signature : bytes
}.

Definition with_signature (t : Transaction) (signature : bytes) : Transaction :=
  mkTransaction (tx_version t) (tx_expires_at t) (tx_lane t) (tx_resource_prices t) (tx_chain_id t)
    (tx_sender t) (tx_nonce t) (tx_access_list t) (tx_resource_limit t) (tx_payload t) signature.

Definition envelope_new (t : Transaction) (signature : bytes) : Envelope :=
  mkEnvelope (with_signature t signature) signature.

Definition envelope_id `{!Blake2s} (e : Envelope) : Hash256 :=
  compute_tx_id (with_signature (env_transaction e) (env_signature e)).

Definition is_well_formed (e : Envelope) : bool :=
  (tx_version (env_transaction e) =? TRANSACTION_VERSION)
  && negb (bool_decide (env_signature e = zero64))
  && bool_decide (env_signature e = tx_signature (env_transaction e))
  && negb (tx_chain_id (env_transaction e) =? 0)
  && negb (bool_decide (tx_sender (env_transaction e) = zero32)).

(** ** Sizes and shapes ([validator.rs]) *)

Definition prefix_len (length : Z) : option Z :=
  if length <? 2 ^ 32 then Some (if length <? 128 then 1 else 5) else None.

(** One field: its prefix and its bytes, in [usize]. *)
Definition add_field (size : Z) (bs : bytes) : option Z :=
  prefix ← prefix_len (len bs);
  size ← checked_add 64 size prefix;
  checked_add 64 size (len bs).

Definition fold_fields (size : Z) (fields : list bytes) : option Z :=
  fold_left (λ size field, size ≫= λ size, add_field size field) fields (Some size).

Definition encoded_len (t : Transaction) : option Z :=
  let size := 8 + 4 + 32 + 8 + 8 + 1 + 32 + 32 + 64 in
  prefix ← prefix_len (len (tx_access_list t));
  size ← checked_add 64 size prefix;
  size ← fold_fields size (tx_access_list t);
  add_field size (tx_payload t).

(** [usize::MAX] when the size overflows. *)
Definition estimate_encoded_len (t : Transaction) : Z := default (max_of 64) (encoded_len t).

Definition validate_shape (t : Transaction) (max_bytes : Z) : result unit TransactionError :=
  reject_if (negb (tx_version t =? TRANSACTION_VERSION)
             || (MAX_LIST_LEN <? len (tx_access_list t))
             || existsb (λ key, MAX_STATE_KEY_LEN <? len key) (tx_access_list t)
             || (MAX_PAYLOAD <? len (tx_payload t))
             || match encoded_len t with Some length => max_bytes <? length | None => true end)
    InvalidEnvelope.

Record ValidationContext := mkContext {
  vc_chain_id : Z;
  vc_next_height : Z;
  vc_max_transaction_bytes : Z
}.

Record ValidatedTransaction := mkValidated {
  vt_id : Hash256;
  vt_lane : TransactionLane;
  vt_transaction : Transaction
}.

Section validators.
Context {blake : Blake2s} {ed : Ed25519}.

(** *** [BasicValidator] *)

Definition BasicValidator : Type := BTreeMap Address AccountState.

Definition advance_nonce (v : BasicValidator) (address : Address)
    : result BasicValidator TransactionError :=
  match bt_get address v with
  | Some account =>
      let? next := ok_or (checked_add 64 (nonce account) 1) InvalidNonce in
      Ok (bt_insert address (mkAccount next (balance account)) v)
  | None => Ok v
  end.

Definition basic_validate (v : BasicValidator) (t : Transaction) (c : ValidationContext)
    : result ValidatedTransaction TransactionError :=
  let? _ := validate_shape t (vc_max_transaction_bytes c) in
  let? _ := reject_if (negb (tx_chain_id t =? vc_chain_id c)) WrongChain in
  let? _ := reject_if (tx_expires_at t <? vc_next_height c) Expired in
  let? _ := reject_if (tx_nonce t =? max_of 64) InvalidNonce in
  let? _ :=
    match bt_get (tx_sender t) v with
    | None => reject_if (negb (tx_nonce t =? 0)) InvalidNonce
    | Some account =>
        let? _ := reject_if (negb (tx_nonce t =? nonce account)) InvalidNonce in
        let? cost := ok_or (checked_cost (tx_resource_limit t) (tx_resource_prices t))
                       InsufficientResources in
        reject_if (balance account <? cost) InsufficientResources
    end in
  let? _ := reject_if (bool_decide (tx_signature t = zero64)) InvalidTxSignature in
  Ok (mkValidated (compute_tx_id t) (tx_lane t) t).

(** *** [SignedValidator] ([signed_validator.rs]) *)

Record RegisteredAccount := mkRegistered {
  ra_state : AccountState;
  ra_public_key : bytes
}.

Record SignedValidator := mkSignedValidator {
  sv_accounts : BTreeMap Address RegisteredAccount;
  sv_resource_limits : Resources;
  sv_resource_prices : Resources
}.

(** The key the payload of the transaction's lane names. *)
Definition payload_key (t : Transaction) : result bytes TransactionError :=
  match tx_lane t with
  | Payments => let? payment := payment_decode (tx_payload t) in Ok (pay_public_key payment)
  | Contracts => let? payload := contract_decode (tx_payload t) in Ok (cp_public_key payload)
  | System => Err UnsupportedPayload
  end.

Definition signed_validate (v : SignedValidator) (t : Transaction) (c : ValidationContext)
    : result ValidatedTransaction TransactionError :=
  let? _ := validate_shape t (vc_max_transaction_bytes c) in
  let? _ := reject_if (negb (tx_chain_id t =? vc_chain_id c)) WrongChain in
  let? _ := reject_if (tx_expires_at t <? vc_next_height c) Expired in
  let? account := ok_or (bt_get (tx_sender t) (sv_accounts v)) UnknownSender in
  let? _ := reject_if (negb (bool_decide (address_from_public_key (ra_public_key account) = tx_sender t)))
              UnknownSender in
  let? _ := reject_if (negb (tx_nonce t =? nonce (ra_state account)) || (tx_nonce t =? max_of 64))
              InvalidNonce in
  let? _ := reject_if (negb (bool_decide (tx_resource_prices t = sv_resource_prices v)))
              InsufficientResources in
  let? cost := ok_or (checked_cost (tx_resource_limit t) (sv_resource_prices v)) InsufficientResources in
  let? _ := reject_if (negb (fits_in (tx_resource_limit t) (sv_resource_limits v))
                       || (balance (ra_state account) <? cost)) InsufficientResources in
  let? _ := reject_if
    (negb (ed25519_verify (ra_public_key account) (signing_hash t) (tx_signature t))) InvalidTxSignature in
  let? public_key := payload_key t in
  let? _ := reject_if (negb (bool_decide (public_key = ra_public_key account))) UnsupportedPayload in
  Ok (mkValidated (compute_tx_id t) (tx_lane t) t).
End validators.

(** ** Payloads are canonical *)

Definition payment_ok (p : Payment) : Prop :=
  sized 32 (pay_public_key p) ∧ sized 32 (pay_recipient p) ∧ pay_recipient p ≠ zero32
  ∧ u64 (pay_amount p) ∧ pay_amount p ≠ 0.

Lemma range_app (xs ys zs : bytes) a b :
  length xs = a → (b - a)%nat = length ys → range (xs ++ ys ++ zs) a b = ys.
Proof. intros <- E. unfold range. rewrite drop_app_length, E. apply take_app_length. Qed.

Lemma range_split (bs : bytes) a b :
  (a <= b)%nat → range bs a b ++ drop b bs = drop a bs.
Proof.
  intros H. unfold range. rewrite <- (take_drop (b - a) (drop a bs)) at 2.
  f_equal. rewrite drop_drop. f_equal. lia.
Qed.

Lemma range_length (bs : bytes) a b : (b <= length bs)%nat → length (range bs a b) = (b - a)%nat.
Proof. intros H. unfold range. rewrite length_take, length_drop. lia. Qed.

Lemma payment_exact bs p : payment_decode bs = Ok p ↔ payment_ok p ∧ bs = payment_to_bytes p.
Proof.
  unfold payment_decode. split.
  - intros H. bind_inv H. guards. subst p.
    assert (length bs = 80%nat) as Hl by (unfold len, PAYMENT_ENCODED_LEN in *; lia).
    assert (∀ a b, (b <= 80)%nat → length (range bs a b) = (b - a)%nat) as Hr
      by (intros; apply range_length; lia).
    split; [split; [|split; [|split; [|split]]]|]; cbn [pay_public_key pay_recipient pay_amount].
    + unfold sized. by rewrite Hr by lia.
    + unfold sized. by rewrite Hr by lia.
    + done.
    + pose proof (from_le_fits (range bs 72 80)) as Hf. unfold len in Hf. by rewrite Hr in Hf by lia.
    + done.
    + unfold payment_to_bytes. cbn [pay_public_key pay_recipient pay_amount]. rewrite <- (drop_0 bs) at 1.
      rewrite <- (range_split bs 0 8), <- (range_split bs 8 40), <- (range_split bs 40 72),
        <- (range_split bs 72 80) by lia.
      rewrite (drop_ge bs 80) by lia. rewrite app_nil_r.
      pose proof (le_from_le (range bs 72 80)) as E. rewrite Hr in E by lia. cbn [Nat.sub] in E.
      rewrite E. congruence.
  - intros [(Hk & Hr & Hz & Ha & Hn) ->]. unfold payment_to_bytes, sized in *. destruct p as [k r a].
    cbn [pay_public_key pay_recipient pay_amount] in *.
    assert (len (PAYMENT_TAG ++ k ++ r ++ le 8 a) = 80) as Hl.
    { unfold len. rewrite !length_app, length_le, Hk, Hr. done. }
    unfold PAYMENT_ENCODED_LEN. rewrite Hl. cbn [Z.eqb Pos.eqb negb orb].
    pose proof (range_app [] PAYMENT_TAG (k ++ r ++ le 8 a) 0 8 eq_refl eq_refl) as E1. cbn [app] in E1.
    pose proof (range_app PAYMENT_TAG k (r ++ le 8 a) 8 40 eq_refl (eq_sym Hk)) as E2.
    pose proof (range_app (PAYMENT_TAG ++ k) r (le 8 a) 40 72
      ltac:(by rewrite length_app, Hk) (eq_sym Hr)) as E3.
    pose proof (range_app ((PAYMENT_TAG ++ k) ++ r) (le 8 a) [] 72 80
      ltac:(by rewrite !length_app, Hk, Hr) ltac:(by rewrite length_le)) as E4.
    rewrite app_nil_r in E4. rewrite <- app_assoc in E3. rewrite <- !app_assoc in E4.
    rewrite E1, E2, E3, E4. rewrite bool_decide_eq_true_2 by done. cbn [negb reject_if].
    rewrite from_le_le by done. rewrite bool_decide_eq_false_2, (proj2 (Z.eqb_neq _ _)) by done. done.
Qed.

(** *** Contract payloads *)

Lemma reads_field max :
  max < 2 ^ 32 → Reads (decode_field max) encode_field (λ bs, len bs <= max).
Proof.
  intros Hmax. split; unfold decode_field, encode_field.
  - intros d v ys Hv Hd. rewrite <- app_assoc in Hd. pose proof (len_nonneg v).
    read_fwd; [unfold fits; lia|]. rewrite (proj2 (Z.ltb_ge _ _)) by lia. by apply read_exact_fwd.
  - intros d v d' zs Hd H. bind_inv H. guards. read_inv.
    apply read_exact_inv with (zs := ys) in H as (ys' & -> & <- & ?); [|done].
    exists ys'. rewrite app_assoc. split; [done|]. split; [lia|done].
Qed.

#[global] Instance reads_code (native : bool) :
  Reads (decode_field (if native then MAX_TROCTO_SOURCE else MAX_CONTRACT_CODE)) encode_field
    (λ bs, len bs <= if native then MAX_TROCTO_SOURCE else MAX_CONTRACT_CODE).
Proof. apply reads_field. by destruct native. Qed.
#[global] Instance reads_input : Reads (decode_field 65536) encode_field (λ bs, len bs <= 65536) :=
  reads_field 65536 eq_refl.
#[global] Instance reads_local_key : Reads (decode_field 256) encode_field (λ bs, len bs <= 256) :=
  reads_field 256 eq_refl.

(** Nonempty keys of at most 256 bytes, increasing above [previous]. *)
Fixpoint keys_above (previous : option bytes) (keys : list bytes) : Prop :=
  match keys with
  | [] => True
  | key :: keys => 0 < len key <= 256 ∧ match previous with Some p => lt_of p key | None => True end
      ∧ keys_above (Some key) keys
  end.

Lemma read_keys_fwd keys previous d ys :
  keys_above previous keys → dview d (encode_all encode_field keys ++ ys) →
  ∃ d', read_keys (length keys) previous d = Ok (keys, d') ∧ dview d' ys.
Proof.
  revert previous d. induction keys as [|key keys IH]; intros previous d Hk Hd; [by exists d|].
  destruct Hk as (Hlen & Hp & Hk). cbn [length read_keys encode_all flat_map] in *.
  rewrite <- app_assoc in Hd. read_fwd; [lia|]. rewrite (proj2 (Z.eqb_neq _ _)) by lia.
  assert (match previous with Some p => leb key p | None => false end = false) as ->
    by (destruct previous; [by apply leb_false|done]).
  cbn [orb reject_if]. destruct (IH _ _ Hk Hd) as (d' & -> & Hd'). by exists d'.
Qed.

Lemma read_keys_inv count previous d keys d' zs :
  dview d zs → read_keys count previous d = Ok (keys, d') →
  ∃ ys, zs = encode_all encode_field keys ++ ys ∧ length keys = count ∧ keys_above previous keys ∧ dview d' ys.
Proof.
  revert previous d keys zs. induction count as [|count IH]; intros previous d keys zs Hd H.
  { simpl in H. simplify_eq. by exists zs. }
  cbn [read_keys] in H. bind_inv H. apply reject_if_ok, orb_false_elim in E0 as [E0 Ep]. read_inv.
  subst. destruct (IH _ _ _ _ Hd0 E1) as (ys' & -> & Hl & Hk & Hd'). exists ys'.
  cbn [encode_all flat_map length keys_above]. rewrite <- app_assoc. bool_props.
  pose proof (len_nonneg l). split; [done|]. split; [by rewrite Hl|]. split; [|done]. split; [lia|].
  split; [|done]. destruct previous; [by apply leb_false|done].
Qed.

Definition call_ok (native : bool) (address : Address) (input : bytes) (keys : list bytes) : Prop :=
  sized 32 address ∧ address ≠ zero32 ∧ (if native then len input = 8 else len input <= 65536)
  ∧ len keys <= MAX_CONTRACT_KEYS ∧ keys_above None keys.

Definition action_ok (a : ContractAction) : Prop :=
  match a with
  | Deploy code => 0 < len code <= MAX_CONTRACT_CODE
  | DeployTrocto source => 0 < len source <= MAX_TROCTO_SOURCE ∧ valid_utf8 source = true
  | Call address input keys => call_ok false address input keys
  | CallTrocto address input keys => call_ok true address input keys
  end.

Definition contract_ok (p : ContractPayload) : Prop :=
  sized 32 (cp_public_key p) ∧ action_ok (cp_action p)
  ∧ len (contract_to_bytes p) <= MAX_CONTRACT_CODE + 45.

Definition call_of (native : bool) address input keys : ContractAction :=
  if native then CallTrocto address input keys else Call address input keys.
Definition deploy_of (native : bool) code : ContractAction :=
  if native then DeployTrocto code else Deploy code.

Lemma keys_encoded_len previous keys :
  keys_above previous keys → 5 * len keys <= len (encode_all encode_field keys).
Proof.
  revert previous. induction keys as [|key keys IH]; intros previous Hk; [done|].
  destruct Hk as (Hlen & _ & Hk). specialize (IH _ Hk). cbn [encode_all flat_map].
  unfold encode_all in IH. rewrite len_cons, len_app. unfold encode_field at 1. rewrite len_app, len_le. lia.
Qed.

#[global] Instance reads_deploy native :
  Reads (read_deploy native) (λ a, drop 1 (encode_action a))
    (λ a, action_ok a ∧ ∃ code, a = deploy_of native code).
Proof.
  split; unfold read_deploy.
  - intros d a ys [Ha [code ->]] Hd.
    assert (drop 1 (encode_action (deploy_of native code)) = encode_field code) as E by (by destruct native).
    rewrite E in Hd. read_fwd; [destruct native; apply Ha|].
    assert (0 < len code) by (destruct native; apply Ha). rewrite (proj2 (Z.eqb_neq _ _)) by lia.
    cbn [reject_if]. destruct native; [|close_fwd]. destruct Ha as [_ ->]. close_fwd.
  - intros d a d' zs Hd H. bind_inv H. guards. read_inv. pose proof (len_nonneg l). destruct native.
    + bind_inv H. guards. subst. exists ys. split; [done|]. split; [|done].
      split; [split; [lia|done]|by exists l].
    + simplify_eq. exists ys. split; [done|]. split; [|done]. split; [cbn; lia|by exists l].
Qed.

Lemma drop_call native address input keys :
  drop 1 (encode_action (call_of native address input keys))
  = id address ++ encode_field input ++ le 4 (len keys) ++ encode_all encode_field keys.
Proof. by destruct native. Qed.

#[global] Instance reads_call native :
  Reads (read_call native) (λ a, drop 1 (encode_action a))
    (λ a, action_ok a ∧ ∃ address input keys, a = call_of native address input keys).
Proof.
  split; unfold read_call.
  - intros d a ys [Ha (address & input & keys & ->)] Hd.
    rewrite drop_call, <- !app_assoc in Hd.
    assert (call_ok native address input keys) as (Hs & Hz & Hi & Hn & Hk) by (by destruct native).
    pose proof (len_nonneg keys). unfold MAX_CONTRACT_KEYS in *.
    read_fwd; [done|]. rewrite bool_decide_eq_false_2 by done. cbn [reject_if].
    read_fwd; [destruct native; lia|].
    assert (native && negb (len input =? 8) = false) as -> by (destruct native; [rewrite Hi|]; done).
    cbn [reject_if]. read_fwd; [unfold fits; lia|].
    rewrite (proj2 (Z.ltb_ge 1024 _)) by lia. rewrite (dview_remaining _ _ Hd), len_app.
    pose proof (keys_encoded_len None keys Hk). pose proof (len_nonneg ys).
    rewrite (proj2 (Z.ltb_ge _ _)) by (apply Z.div_le_lower_bound; lia). cbn [orb reject_if].
    replace (Z.to_nat (len keys)) with (length keys) by (unfold len; lia).
    destruct (read_keys_fwd keys None _ ys Hk Hd) as (d' & -> & Hd'). by exists d'.
  - intros d a d' zs Hd H. bind_inv H. guards. read_inv.
    destruct (read_keys_inv _ _ _ _ _ _ Hd0 E5) as (ys' & -> & Hl & Hk & Hd'). subst.
    exists ys'. assert (len l1 = z) as Hz by (unfold fits, len in *; lia).
    change (if native then CallTrocto l l0 l1 else Call l l0 l1) with (call_of native l l0 l1).
    split; [|split; [|done]].
    + by rewrite drop_call, Hz, <- !app_assoc.
    + split; [|by exists l, l0, l1; destruct native].
      assert (call_ok native l l0 l1); [|by destruct native].
      unfold call_ok. rewrite Hz. destruct native; cbn [andb] in E2; bool_props; done.
Qed.

Lemma encode_deploy native code :
  encode_action (deploy_of native code) = le 1 0 ++ drop 1 (encode_action (deploy_of native code)).
Proof. by destruct native. Qed.

Lemma encode_call native address input keys :
  encode_action (call_of native address input keys)
  = le 1 1 ++ drop 1 (encode_action (call_of native address input keys)).
Proof. by destruct native. Qed.

#[global] Instance reads_action native :
  Reads (read_action native) encode_action (λ a, action_ok a ∧ native_action a = native).
Proof.
  split; unfold read_action.
  - intros d a ys [Ha <-] Hd.
    assert ((∃ code, a = deploy_of (native_action a) code)
      ∨ ∃ address input keys, a = call_of (native_action a) address input keys) as [Hd'|Hc].
    { destruct a; [left|right|left|right]; cbn; eauto. }
    + destruct Hd' as [code E]. rewrite E, encode_deploy, <- E, <- app_assoc in Hd. read_fwd; [done|]. cbn [Z.eqb].
      apply (reads_fwd (rd := read_deploy (native_action a)) _ a ys); [|exact Hd]. split; [done|]. by exists code.
    + destruct Hc as (address & input & keys & E). rewrite E, encode_call, <- E, <- app_assoc in Hd.
      read_fwd; [done|]. cbn [Z.eqb Pos.eqb].
      apply (reads_fwd (rd := read_call (native_action a)) _ a ys); [|exact Hd]. split; [done|]. by eexists _, _, _.
  - intros d a d' zs Hd H. bind_inv H. read_inv. destruct (z =? 0) eqn:Z0; [|destruct (z =? 1) eqn:Z1; [|done]].
    + apply (reads_inv (rd := read_deploy native) _ _ _ _ Hd0) in H as (ys' & -> & [Ha [code ->]] & Hd').
      bool_props. subst z. exists ys'. rewrite encode_deploy at 2. rewrite <- app_assoc.
      split; [done|]. split; [|done]. split; [done|]. by destruct native.
    + apply (reads_inv (rd := read_call native) _ _ _ _ Hd0) in H as (ys' & -> & [Ha (x & y & w & ->)] & Hd').
      bool_props. subst z. exists ys'. rewrite encode_call at 2. rewrite <- app_assoc.
      split; [done|]. split; [|done]. split; [done|]. by destruct native.
Qed.

(** Contract payloads decode exactly when they are canonical. *)
Lemma contract_exact bs p : contract_decode bs = Ok p ↔ contract_ok p ∧ bs = contract_to_bytes p.
Proof.
  unfold contract_decode. split.
  - intros H%map_err_ok. unfold contract_decode_inner in H. bind_inv H. guards.
    assert (dview (decoder_new bs) bs) as Hd by (apply dview_new; unfold MAX_CONTRACT_CODE in *; lia).
    assert (l = contract_tag a0) as Ht by (repeat case_bool_decide; by simplify_eq).
    read_inv. eapply finish_ok in E4; [|exact Hd0]. subst p l ys.
    destruct Hv1 as [Ha Hn]. unfold contract_ok, contract_to_bytes. cbn [cp_public_key cp_action].
    rewrite Hn. rewrite app_nil_r in *. done.
  - intros [(Hk & Ha & Hl) ->]. destruct p as [key action]. unfold contract_to_bytes in *.
    cbn [cp_public_key cp_action] in *. set (bs := contract_tag _ ++ _) in *. unfold contract_decode_inner.
    assert (dview (decoder_new bs) (id (contract_tag (native_action action)) ++ id key ++ encode_action action ++ [])) as Hd.
    { rewrite app_nil_r. assert (len bs < 2 ^ 64) as Hlt by (unfold MAX_CONTRACT_CODE in Hl; lia).
      exact (dview_new bs Hlt). }
    rewrite (proj2 (Z.ltb_ge _ _) Hl). cbn [reject_if]. read_fwd; [by destruct (native_action action)|].
    assert ((if bool_decide (contract_tag (native_action action) = contract_tag false) then Ok false
      else if bool_decide (contract_tag (native_action action) = contract_tag true) then Ok true
      else Err NonCanonical) = Ok (native_action action)) as -> by (by destruct (native_action action)).
    read_fwd; [done|]. read_fwd; [done|]. by rewrite (proj2 (finish_ok _ _ tt Hd) eq_refl).
Qed.

(** ** Sizes are exact *)

Definition field_len (bs : bytes) : Z := len (encode_bytes bs).

Lemma prefix_len_some n p : prefix_len n = Some p ↔ encode_length_panics n = false ∧ p = len (encode_length n).
Proof.
  unfold prefix_len, encode_length_panics, encode_length. destruct (n <? 2 ^ 32) eqn:E; bool_props.
  - rewrite (proj2 (Z.leb_gt _ _)) by lia. destruct (n <? 128); rewrite ?len_cons, ?len_le; cbn; naive_solver.
  - rewrite (proj2 (Z.leb_le _ _)) by lia. naive_solver.
Qed.

Lemma add_field_some size bs n :
  add_field size bs = Some n → encode_length_panics (len bs) = false ∧ n = size + field_len bs.
Proof.
  unfold add_field, field_len, encode_bytes. rewrite len_app.
  destruct (prefix_len (len bs)) as [p|] eqn:Ep; [|done]. apply prefix_len_some in Ep as [? ->]. cbn [mbind option_bind].
  destruct (checked_add 64 size _) as [s1|] eqn:E1; [|done]. cbn [mbind option_bind].
  apply checked_add_some in E1 as [_ ->]. intros [_ ->]%checked_add_some. split; [done|lia].
Qed.

Lemma fold_none fields : fold_left (λ size field, size ≫= λ size, add_field size field) fields None = None.
Proof. by induction fields. Qed.

Lemma fold_fields_some fields size n :
  fold_fields size fields = Some n →
  existsb (λ k, encode_length_panics (len k)) fields = false ∧ n = size + len (encode_all encode_bytes fields).
Proof.
  revert size. induction fields as [|f fields IH]; intros size; unfold fold_fields; cbn.
  - intros [= ->]. split; [done|]. change (len []) with 0. lia.
  - destruct (add_field size f) as [s1|] eqn:E; [|by rewrite fold_none]. intros H.
    apply add_field_some in E as [-> ->]. destruct (IH _ H) as [-> ->]. split; [done|].
    rewrite len_app. unfold field_len, encode_all. lia.
Qed.

Lemma encoded_len_exact t n :
  sized 32 (tx_sender t) → sized 64 (tx_signature t) → encoded_len t = Some n →
  n = len (encode_transaction t) ∧ encode_transaction_panics t = false.
Proof.
  unfold sized, encoded_len. intros Hs Hg H.
  destruct (prefix_len _) as [p|] eqn:Ep; [|done]. apply prefix_len_some in Ep as [P1 ->]. cbn [mbind option_bind] in H.
  destruct (checked_add 64 _ _) as [s1|] eqn:E1; [|done]. apply checked_add_some in E1 as [_ ->]. cbn [mbind option_bind] in H.
  destruct (fold_fields _ _) as [s2|] eqn:E2; [|done]. apply fold_fields_some in E2 as [P2 ->]. cbn [mbind option_bind] in H.
  apply add_field_some in H as [P3 ->]. unfold encode_transaction_panics. rewrite P1, P2, P3. split; [|done].
  unfold encode_transaction, encode_unsigned_transaction, encode_resources, field_len.
  autorewrite with len. rewrite !len_le.
  assert (len (tx_sender t) = 32) as -> by (unfold len; by rewrite Hs).
  assert (len (tx_signature t) = 64) as -> by (unfold len; by rewrite Hg).
  change (len (lit "ALTX")) with 4. lia.
Qed.

Lemma add_field_bound size bs n : add_field size bs = Some n → n < 2 ^ 64.
Proof.
  unfold add_field. destruct (prefix_len _); [|done]. cbn [mbind option_bind].
  destruct (checked_add 64 size _); [|done]. cbn [mbind option_bind]. by intros [? ->]%checked_add_some.
Qed.

Lemma encoded_len_bound t n : encoded_len t = Some n → 0 <= n < 2 ^ 64.
Proof.
  unfold encoded_len. intros H.
  destruct (prefix_len _) as [p|] eqn:Ep; [|done]. apply prefix_len_some in Ep as [_ ->]. cbn [mbind option_bind] in H.
  destruct (checked_add 64 _ _) as [s1|] eqn:E1; [|done]. apply checked_add_some in E1 as [_ ->]. cbn [mbind option_bind] in H.
  destruct (fold_fields _ _) as [s2|] eqn:E2; [|done]. apply fold_fields_some in E2 as [_ ->]. cbn [mbind option_bind] in H.
  pose proof (add_field_bound _ _ _ H). apply add_field_some in H as [_ ->]. unfold field_len in *.
  repeat match goal with |- context [len ?x] => pose proof (len_nonneg x); generalize dependent (len x); intros end.
  lia.
Qed.

Lemma estimate_typed t : u64 (estimate_encoded_len t).
Proof.
  unfold estimate_encoded_len. destruct (encoded_len t) eqn:E; [by apply encoded_len_bound in E|done].
Qed.

(** ** Admission *)

(** Sizes and limits [validate_shape] enforces, in terms of the canonical encoding. *)
Definition shape_ok (t : Transaction) (max_bytes : Z) : Prop :=
  tx_version t = TRANSACTION_VERSION ∧ len (tx_access_list t) <= MAX_LIST_LEN
  ∧ Forall (λ key, len key <= MAX_STATE_KEY_LEN) (tx_access_list t) ∧ len (tx_payload t) <= MAX_PAYLOAD
  ∧ len (encode_transaction t) <= max_bytes.

Lemma prefix_len_total n : n < 2 ^ 32 → ∃ p, prefix_len n = Some p ∧ 1 <= p <= 5.
Proof.
  intros H. unfold prefix_len. rewrite (proj2 (Z.ltb_lt _ _) H). eexists. split; [done|]. case_match; lia.
Qed.

Lemma add_field_total size (bs : bytes) :
  len bs < 2 ^ 32 → 0 <= size → size + 5 + len bs < 2 ^ 64 →
  ∃ n, add_field size bs = Some n ∧ 0 <= n <= size + 5 + len bs.
Proof.
  intros Hl H0 Hb. pose proof (len_nonneg bs). unfold add_field.
  destruct (prefix_len_total (len bs) Hl) as (p & -> & Hp). cbn [mbind option_bind].
  rewrite (proj2 (checked_add_some _ _ _ (size + p))) by (split; [lia|done]). cbn [mbind option_bind].
  rewrite (proj2 (checked_add_some _ _ _ (size + p + len bs))) by (split; [lia|done]).
  eexists. split; [done|]. lia.
Qed.

Lemma fold_fields_total fields size :
  Forall (λ key, len key <= MAX_STATE_KEY_LEN) fields → 0 <= size →
  size + 261 * len fields < 2 ^ 64 → ∃ n, fold_fields size fields = Some n ∧ 0 <= n <= size + 261 * len fields.
Proof.
  unfold MAX_STATE_KEY_LEN. intros H. revert size. induction H as [|f fields Hf _ IH]; intros size H0 Hb.
  { exists size. change (len []) with 0. split; [done|lia]. }
  rewrite len_cons in *. pose proof (len_nonneg f). pose proof (len_nonneg fields).
  destruct (add_field_total size f) as (n & E & Hn); [lia..|].
  unfold fold_fields. cbn [fold_left mbind option_bind]. rewrite E.
  destruct (IH n) as (n' & Hn' & Hb'); [lia..|]. exists n'. split; [exact Hn'|]. lia.
Qed.

Lemma encoded_len_total t :
  len (tx_access_list t) <= MAX_LIST_LEN → Forall (λ key, len key <= MAX_STATE_KEY_LEN) (tx_access_list t) →
  len (tx_payload t) <= MAX_PAYLOAD → ∃ n, encoded_len t = Some n.
Proof.
  change MAX_LIST_LEN with 1048576. change MAX_PAYLOAD with 1048576. intros Hl Hk Hp.
  pose proof (len_nonneg (tx_access_list t)). pose proof (len_nonneg (tx_payload t)).
  unfold encoded_len. destruct (prefix_len_total (len (tx_access_list t))) as (p & -> & Hpr); [lia|].
  cbn [mbind option_bind]. unfold checked_add at 1. rewrite (proj2 (Z.ltb_lt _ _)) by lia. cbn [mbind option_bind].
  destruct (fold_fields_total (tx_access_list t) (8 + 4 + 32 + 8 + 8 + 1 + 32 + 32 + 64 + p) Hk)
    as (n & -> & Hn); [lia..|]. cbn [mbind option_bind].
  destruct (add_field_total n (tx_payload t)) as (n' & -> & _); [lia..|]. by exists n'.
Qed.

Lemma validate_shape_iff t max_bytes :
  sized 32 (tx_sender t) → sized 64 (tx_signature t) →
  validate_shape t max_bytes = Ok tt ↔ shape_ok t max_bytes.
Proof.
  intros Hs Hg. unfold validate_shape, shape_ok. rewrite reject_if_ok, !orb_false_iff. split.
  - intros ((((Hv & Hl) & Hk) & Hp) & Hn). bool_props.
    destruct (encoded_len t) as [n|] eqn:E; [|done]. apply encoded_len_exact in E as [-> _]; [|done..]. bool_props.
    split; [done|]. split; [done|]. split; [|done]. apply Forall_forall. intros key Hin.
    apply Z.ltb_ge. apply not_true_iff_false. intros Hc. apply not_true_iff_false in Hk. apply Hk.
    apply existsb_exists. exists key. by rewrite <- list_elem_of_In.
  - intros (Hv & Hl & Hk & Hp & Hn). destruct (encoded_len_total t Hl Hk Hp) as [n E]. rewrite E.
    apply encoded_len_exact in E as [-> _]; [|done..]. rewrite Hv.
    rewrite !(proj2 (Z.ltb_ge _ _)) by done. split; [|done]. split; [|done]. split; [done|].
    apply not_true_iff_false. rewrite existsb_exists. intros (key & Hin & Hc). rewrite Forall_forall in Hk.
    specialize (Hk key). rewrite list_elem_of_In in Hk. specialize (Hk Hin). bool_props. lia.
Qed.

(** C24: Payment and contract payloads have one encoding each: a byte string decodes
    exactly when it is the encoding of a payload within the bounds, with a nonzero
    recipient and amount or with nonempty, strictly increasing call keys, and decodes
    to that payload; any other length, tag, order or trailing byte is refused. *)
Theorem payloads_exact bs payment payload :
  (payment_decode bs = Ok payment ↔ payment_ok payment ∧ bs = payment_to_bytes payment)
  ∧ (contract_decode bs = Ok payload ↔ contract_ok payload ∧ bs = contract_to_bytes payload).
Proof. split; [apply payment_exact|apply contract_exact]. Qed.

Section admission.
Context {blake : Blake2s} {ed : Ed25519}.

(** Fields inside their Rust types. *)
Definition tx_typed (t : Transaction) : Prop :=
  sized 32 (tx_sender t) ∧ sized 64 (tx_signature t) ∧ resources_ok (tx_resource_limit t).
Definition validator_typed (v : SignedValidator) : Prop :=
  resources_ok (sv_resource_prices v)
  ∧ ∀ address account, bt_get address (sv_accounts v) = Some account → account_ok (ra_state account).

(** What an admitted transaction satisfies. *)
Definition admitted (v : SignedValidator) (t : Transaction) (c : ValidationContext)
    (account : RegisteredAccount) : Prop :=
  shape_ok t (vc_max_transaction_bytes c) ∧ tx_chain_id t = vc_chain_id c
  ∧ vc_next_height c <= tx_expires_at t
  ∧ bt_get (tx_sender t) (sv_accounts v) = Some account
  ∧ address_from_public_key (ra_public_key account) = tx_sender t
  ∧ tx_nonce t = nonce (ra_state account) ∧ tx_nonce t ≠ max_of 64
  ∧ tx_resource_prices t = sv_resource_prices v
  ∧ exact_cost (tx_resource_limit t) (sv_resource_prices v) <= balance (ra_state account)
  ∧ fits_in (tx_resource_limit t) (sv_resource_limits v) = true
  ∧ ed25519_verify (ra_public_key account) (signing_hash t) (tx_signature t) = true
  ∧ payload_key t = Ok (ra_public_key account).

Lemma signed_validate_iff v t c validated :
  tx_typed t → validator_typed v →
  signed_validate v t c = Ok validated
  ↔ validated = mkValidated (compute_tx_id t) (tx_lane t) t ∧ ∃ account, admitted v t c account.
Proof.
  intros (Hs & Hg & Hr) [Hp Hacc]. unfold signed_validate, admitted. split.
  - intros H. bind_inv H. destruct a. apply validate_shape_iff in E; [|done..].
    apply ok_or_ok in E2, E6. guards. apply checked_cost_iff in E6 as [? ->]; [|done..].
    split; [done|]. exists a2. subst. rewrite E9. naive_solver.
  - intros (-> & account & Hsh & Hch & Hh & Ha & Hadr & Hn & Hm & Hpr & Hc & Hf & Hv & Hk).
    rewrite (proj2 (validate_shape_iff _ _ Hs Hg) Hsh). rewrite (proj2 (Z.eqb_eq _ _) Hch).
    rewrite (proj2 (Z.ltb_ge _ _)) by done. rewrite Ha. cbn [negb reject_if ok_or].
    rewrite bool_decide_eq_true_2 by done. rewrite (proj2 (Z.eqb_eq _ _) Hn), (proj2 (Z.eqb_neq _ _) Hm).
    cbn [negb orb reject_if]. rewrite bool_decide_eq_true_2 by done. cbn [negb reject_if].
    destruct (Hacc _ _ Ha) as [_ Hb].
    rewrite (proj2 (checked_cost_iff _ _ (exact_cost _ _) Hr Hp)) by (unfold fits in Hb; split; [lia|done]).
    cbn [ok_or]. rewrite Hf, (proj2 (Z.ltb_ge _ _)) by done. cbn [negb orb reject_if]. rewrite Hv, Hk.
    cbn [negb reject_if]. by rewrite bool_decide_eq_true_2.
Qed.

(** C23: Signed admission is exact: a transaction is admitted precisely when its
    canonical encoding and its fields are within the limits, chain and expiry match,
    the sender's registered key derives the sender's address and verifies the
    signature over every other field, the nonce is the account's next one and not
    the last, the prices are the policy's, the account can pay the exact charge of
    its whole limit, and the payload of its lane names that same key. *)
Theorem admission_iff v t c validated :
  tx_typed t → validator_typed v →
  signed_validate v t c = Ok validated
  ↔ validated = mkValidated (compute_tx_id t) (tx_lane t) t ∧ ∃ account, admitted v t c account.
Proof. apply signed_validate_iff. Qed.
End admission.

Section admission_examples.
#[local] Existing Instance checksum_blake2s.
#[local] Existing Instance checksum_ed25519.

(** A signed payment of [amount] with the given nonce. *)
Definition sample_key : bytes := sk_public sample_seed.
Definition sample_sender : Address := address_from_public_key sample_key.
Definition sample_prices : Resources := mkResources 1 0 0 0.
Definition unsigned_payment (recipient : Address) (n amount : Z) : Transaction :=
  mkTransaction 1 100 Payments sample_prices 7 sample_sender n
    [account_key sample_sender; account_key recipient] (mkResources 2 100 10 1000)
    (payment_to_bytes (mkPayment sample_key recipient amount)) zero64.
Definition sample_payment (recipient : Address) (n amount : Z) : Transaction :=
  let t := unsigned_payment recipient n amount in
  with_signature t (sk_sign sample_seed (signing_hash t)).
Definition sample_recipient : Address := repeat (byte_of 9) 32.
Definition sample_context : ValidationContext := mkContext 7 50 2000.
Definition sample_validator : SignedValidator :=
  mkSignedValidator [(sample_sender, mkRegistered (mkAccount 3 1000) sample_key)]
    (mkResources 100 1000 100 100000) sample_prices.

Lemma sample_payment_typed : tx_typed (sample_payment sample_recipient 3 40).
Proof.
  split; [apply domain_hash_sized|]. split; [apply sk_sign_sized|].
  unfold resources_ok, fits. cbn. lia.
Qed.

Lemma admission_iff_witness :
  is_ok (signed_validate sample_validator (sample_payment sample_recipient 3 40) sample_context) = true
  ∧ (signed_validate sample_validator (sample_payment sample_recipient 3 40) sample_context
     = Ok (mkValidated (compute_tx_id (sample_payment sample_recipient 3 40)) Payments
             (sample_payment sample_recipient 3 40))
     ↔ mkValidated (compute_tx_id (sample_payment sample_recipient 3 40)) Payments
         (sample_payment sample_recipient 3 40)
       = mkValidated (compute_tx_id (sample_payment sample_recipient 3 40)) Payments
           (sample_payment sample_recipient 3 40)
     ∧ ∃ account, admitted sample_validator (sample_payment sample_recipient 3 40) sample_context account).
Proof.
  split; [evaluate|]. apply admission_iff; [exact sample_payment_typed|]. split.
  - unfold resources_ok, fits. cbn. lia.
  - intros address account. unfold sample_validator. cbn [sv_accounts bt_get].
    destruct (cmp address sample_sender); intros; simplify_eq. unfold account_ok, fits. cbn. lia.
Defined.
End admission_examples.
