(* ===== verification/Payments.v ===== *)
(** * Payments: signed transfers over a private overlay
    ([src/crates/execution/src/{payment,signed,error,executor}.rs])

    A session authenticates each payment against the accounts it has touched so
    far, then against the immutable parent.  Executing a block commits all diffs
    at once or nothing.  The theorems state what a committed block did to every
    account, that only the burned fees leave the total, and that no transaction is
    ever executed twice. *)

From S2P Require Import Prelude Ordered Codec Types Crypto State StateTree Transactions.

Inductive ExecutionError :=
| InvalidContract
| UndeclaredStateAccess
| ResourceLimit
| ExecutionConflict
| Trap
| NativeUnavailable
| TransactionValidation (error : TransactionError)
| StateFailed (error : StateError).

Record TransactionOutput := mkOutput {
  out_diff : StateDiff;
  out_receipt : ExecutionReceipt;
  out_observed_lease : StateLease
}.

Definition PAYMENT_PRICES : Resources := mkResources 1 0 0 0.

(** A [usize] always fits a [u64]. *)
Definition payment_resources (t : Transaction) : Resources :=
  mkResources 1 32 4 (estimate_encoded_len t).

Record PaymentSession := mkSession {
  ps_accounts : BTreeMap Address AccountState;
  ps_context : ValidationContext;
  ps_capacity : Resources;
  ps_used : Resources;
  ps_prices : Resources
}.

Definition session_new (context : ValidationContext) (capacity : Resources) : PaymentSession :=
  mkSession [] context capacity resources_zero PAYMENT_PRICES.

Definition session_with_prices (s : PaymentSession) (prices : Resources) : PaymentSession :=
  mkSession (ps_accounts s) (ps_context s) (ps_capacity s) (ps_used s) prices.

Section payments.
Context {blake : Blake2s} {ed : Ed25519}.

Definition session_account (view : StateView) (s : PaymentSession) (address : Address)
    : result (option AccountState) ExecutionError :=
  match bt_get address (ps_accounts s) with
  | Some account => Ok (Some account)
  | None => map_err StateFailed (view_account view address)
  end.

(** What the payment changes: the sender's next account, and the recipient's when
    it is another one. *)
Record Transfer := mkTransfer {
  tr_sender : AccountState;
  tr_recipient : option AccountState
}.

(** The checks and the arithmetic of [execute], up to the diff. *)
Definition transfer (view : StateView) (s : PaymentSession) (t : Transaction) (payment : Payment)
    (sender : AccountState) : result Transfer ExecutionError :=
  let? reserve := ok_or (fee ← checked_cost (tx_resource_limit t) (ps_prices s);
                         checked_add 64 fee (pay_amount payment))
                    (TransactionValidation InsufficientResources) in
  let? _ := reject_if (balance sender <? reserve) (TransactionValidation InsufficientResources) in
  let? fee := ok_or (checked_cost (payment_resources t) (ps_prices s)) ResourceLimit in
  let? next_nonce := ok_or (checked_add 64 (nonce sender) 1) (TransactionValidation InvalidNonce) in
  let? after_fee := ok_or (checked_sub (balance sender) fee) (TransactionValidation InsufficientResources) in
  if bool_decide (tx_sender t = pay_recipient payment) then
    Ok (mkTransfer (mkAccount next_nonce after_fee) None)
  else
    let? next_balance := ok_or (checked_sub after_fee (pay_amount payment))
                           (TransactionValidation InsufficientResources) in
    let? found := session_account view s (pay_recipient payment) in
    let recipient := default (mkAccount 0 0) found in
    let? credited := ok_or (checked_add 64 (balance recipient) (pay_amount payment)) Trap in
    Ok (mkTransfer (mkAccount next_nonce next_balance) (Some (mkAccount (nonce recipient) credited))).

(** The changes in canonical order. *)
Definition payment_diff (t : Transaction) (payment : Payment) (tr : Transfer) : StateDiff :=
  let diff := diff_put diff_new (account_key (tx_sender t)) (encode_account (tr_sender tr)) in
  sort_canonical
    match tr_recipient tr with
    | Some recipient => diff_put diff (account_key (pay_recipient payment)) (encode_account recipient)
    | None => diff
    end.

Definition session_execute (view : StateView) (s : PaymentSession) (t : Transaction)
    : result (TransactionOutput * PaymentSession) ExecutionError :=
  let? payment := map_err TransactionValidation (payment_decode (tx_payload t)) in
  let? found := session_account view s (tx_sender t) in
  let? sender := ok_or found (TransactionValidation UnknownSender) in
  let validator := mkSignedValidator [(tx_sender t, mkRegistered sender (pay_public_key payment))]
                     (ps_capacity s) (ps_prices s) in
  let? validated := map_err TransactionValidation (signed_validate validator t (ps_context s)) in
  let resources := payment_resources t in
  let? used := ok_or (resources_checked_add (ps_used s) resources) ResourceLimit in
  let? _ := reject_if (negb (fits_in resources (tx_resource_limit t)) || negb (fits_in used (ps_capacity s)))
              ResourceLimit in
  let sender_key := account_key (tx_sender t) in
  let recipient_key := account_key (pay_recipient payment) in
  let? _ := reject_if (negb (bool_decide (sender_key ∈ tx_access_list t))
                       || negb (bool_decide (recipient_key ∈ tx_access_list t))) UndeclaredStateAccess in
  let? tr := transfer view s t payment sender in
  let diff := payment_diff t payment tr in
  let receipt := mkReceipt (vt_id validated) true resources (diff_commitment diff) in
  let lease := lease_new [mkRequest sender_key WriteAccess; mkRequest recipient_key WriteAccess] in
  let accounts := bt_insert (tx_sender t) (tr_sender tr) (ps_accounts s) in
  let accounts := match tr_recipient tr with
                  | Some recipient => bt_insert (pay_recipient payment) recipient accounts
                  | None => accounts
                  end in
  Ok (mkOutput diff receipt lease, mkSession accounts (ps_context s) (ps_capacity s) used (ps_prices s)).

(** The outputs of a block in order, or the first error. *)
Fixpoint execute_all (view : StateView) (s : PaymentSession) (txs : list Transaction)
    : result (list TransactionOutput * PaymentSession) ExecutionError :=
  match txs with
  | [] => Ok ([], s)
  | t :: txs =>
      let? (output, s) := session_execute view s t in
      let? (outputs, s) := execute_all view s txs in
      Ok (output :: outputs, s)
  end.

Context {arcs : Arcs}.

(** [execute_payments] over the in-memory database, whose reads never fail and whose
    prefetch does nothing. *)
Definition database_view (db : InMemoryState) : StateView := λ key, Ok (state_get db key).

Definition execute_payments (db : InMemoryState) (txs : list Transaction) (parent : Hash256)
    (context : ValidationContext) (capacity : Resources)
    : InMemoryState * result (list TransactionOutput * Hash256) ExecutionError :=
  if negb (bool_decide (im_root db = parent)) then (db, Err (StateFailed StaleSnapshot))
  else
    match execute_all (database_view db) (session_new context capacity) txs with
    | Err error => (db, Err error)
    | Ok (outputs, _) =>
        match commit db parent (map out_diff outputs) with
        | (db, Ok root) => (db, Ok (outputs, root))
        | (db, Err error) => (db, Err (StateFailed error))
        end
    end.
End payments.

(** ** Accounts of a map *)

Section ledger.
Implicit Types (m : StateMap) (a b : Address) (acc : AccountState).

#[local] Arguments cmp : simpl never.

Definition map_view m : StateView := λ key, Ok (bt_get key m).
Definition ledger m a : result (option AccountState) StateError := view_account (map_view m) a.

(** The balance an entry of the state stands for. *)
Definition entry_balance (kv : StateKey * bytes) : Z :=
  if (len (fst kv) =? len ACCOUNT_NAMESPACE + 32)
     && bool_decide (take (length ACCOUNT_NAMESPACE) (fst kv) = ACCOUNT_NAMESPACE)
  then match account_decode (snd kv) with Ok acc => balance acc | Err _ => 0 end
  else 0.

(** All balances of the state. *)
Definition total m : Z := sumZ entry_balance m.

Lemma account_key_inj a b : account_key a = account_key b → a = b.
Proof. apply app_inv_head. Qed.

Lemma account_decode_encode acc : account_ok acc → account_decode (encode_account acc) = Ok acc.
Proof. intros H. apply (complete_fwd read_account encode_account account_ok); [done|]. by vm_compute. Qed.

Lemma read_u64_typed d v d' :
  0 <= dec_position d → read_u64 d = Ok (v, d') → u64 v ∧ 0 <= dec_position d'.
Proof.
  intros H0 H. unfold read_u64, read_int in H. bind_inv H. simplify_eq.
  unfold read_exact in E. bind_inv E. simplify_eq. apply ok_or_ok, checked_add_some in E0 as [_ ->].
  apply ok_or_ok, slice_some in E1 as (_ & _ & _ & _ & Hl & _); [|done]. split; [|cbn; lia]. pose proof (from_le_fits l) as Hf. by replace (8 * len l) with 64 in Hf by lia.
Qed.

Lemma account_decode_ok bs acc : account_decode bs = Ok acc → account_ok acc.
Proof.
  intros H. unfold account_decode, complete, read_account in H. bind_inv H. simplify_eq.
  bind_inv E. simplify_eq. apply read_u64_typed in E1 as [Hn Hp]; [|done]. apply read_u64_typed in E2 as [Hb _]; [|done]. done.
Qed.

Lemma ledger_insert m a b acc :
  account_ok acc →
  ledger (bt_insert (account_key b) (encode_account acc) m) a
  = if bool_decide (a = b) then Ok (Some acc) else ledger m a.
Proof.
  intros Hacc. unfold ledger, view_account, map_view. case_bool_decide as E.
  - subst. by rewrite bt_get_insert_eq, account_decode_encode.
  - by rewrite bt_get_insert_ne by (by intros ?%account_key_inj).
Qed.

Lemma entry_balance_account a acc :
  sized 32 a → account_ok acc → entry_balance (account_key a, encode_account acc) = balance acc.
Proof.
  intros Ha Hacc. unfold entry_balance, account_key. cbn [fst snd].
  rewrite len_app, take_app_length, bool_decide_eq_true_2 by done. unfold len at 2. rewrite Ha, Z.eqb_refl.
  cbn [andb]. by rewrite account_decode_encode.
Qed.

(** The balance of the account before an update. *)
Definition held m a : Z := match ledger m a with Ok (Some acc) => balance acc | _ => 0 end.

Lemma total_insert m a acc :
  bt_ok m → sized 32 a → account_ok acc →
  total (bt_insert (account_key a) (encode_account acc) m) = total m - held m a + balance acc.
Proof.
  intros Hm Ha Hacc. unfold total. rewrite (sumZ_perm _ _ _ (bt_insert_perm _ _ m Hm)). cbn [sumZ].
  rewrite entry_balance_account by done. unfold held, ledger, view_account, map_view.
  destruct (bt_get (account_key a) m) as [old|] eqn:E.
  - rewrite (sumZ_perm _ m _ (bt_remove_perm _ _ _ E)). cbn [sumZ].
    enough (entry_balance (account_key a, old)
      = match (let? x := map_err (λ _, StateCorrupt) (account_decode old) in Ok (Some x)) with
        | Ok (Some acc) => balance acc | _ => 0 end) as -> by lia.
    unfold entry_balance, account_key. cbn [fst snd].
    rewrite len_app, take_app_length, bool_decide_eq_true_2 by done. unfold len at 2. rewrite Ha, Z.eqb_refl.
    cbn [andb]. by destruct (account_decode old).
  - rewrite bt_remove_absent by done. lia.
Qed.

Lemma insert_comm m k1 v1 k2 v2 :
  bt_ok m → k1 ≠ k2 → bt_insert k1 v1 (bt_insert k2 v2 m) = bt_insert k2 v2 (bt_insert k1 v1 m).
Proof.
  intros Hm Hne. apply bt_ext; [by repeat apply bt_ok_insert..|]. intros k.
  destruct (decide (k = k1)) as [->|H1]; [rewrite bt_get_insert_eq, bt_get_insert_ne, bt_get_insert_eq by done; done|].
  destruct (decide (k = k2)) as [->|H2]; [rewrite bt_get_insert_ne, !bt_get_insert_eq by done; done|].
  by rewrite !bt_get_insert_ne.
Qed.

Lemma ledger_ok m a acc : ledger m a = Ok (Some acc) → account_ok acc.
Proof.
  unfold ledger, view_account, map_view. destruct (bt_get _ m) as [bs|]; [|done]. intros H. bind_inv H.
  simplify_eq. apply map_err_ok in E. by eapply account_decode_ok.
Qed.
End ledger.

(** ** What one payment does *)

Section execution.
Context {blake : Blake2s} {ed : Ed25519}.
Implicit Types (m : StateMap) (s : PaymentSession) (t : Transaction) (a : Address).

#[local] Arguments cmp : simpl never.

(** The overlay shows the accounts of [m]. *)
Definition tracks (view : StateView) s m : Prop :=
  ∀ a, session_account view s a = map_err StateFailed (ledger m a).

(** The fee a transaction pays under the given prices. *)
Definition fee_of (prices : Resources) t : Z := default 0 (checked_cost (payment_resources t) prices).

(** The accounts after a payment, in unbounded arithmetic. *)
Definition settle (fee : Transaction → Z) (accounts : Address → result (option AccountState) StateError) t
    : Address → result (option AccountState) StateError :=
  match payment_decode (tx_payload t), accounts (tx_sender t) with
  | Ok payment, Ok (Some sender) => λ a,
      let self := bool_decide (tx_sender t = pay_recipient payment) in
      if bool_decide (a = tx_sender t) then
        Ok (Some (mkAccount (nonce sender + 1)
                    (balance sender - fee t - if self then 0 else pay_amount payment)))
      else if bool_decide (a = pay_recipient payment) then
        match accounts a with
        | Ok found => let recipient := default (mkAccount 0 0) found in
            Ok (Some (mkAccount (nonce recipient) (balance recipient + pay_amount payment)))
        | Err error => Err error
        end
      else accounts a
  | _, _ => accounts
  end.

(** The sender's key signed the transaction. *)
Definition authentic t : Prop :=
  ∃ key, address_from_public_key key = tx_sender t
  ∧ ed25519_verify key (signing_hash t) (tx_signature t) = true.

Lemma validated_facts v t c validated account :
  sv_accounts v = [(tx_sender t, account)] → signed_validate v t c = Ok validated →
  vt_id validated = compute_tx_id t ∧ nonce (ra_state account) = tx_nonce t ∧ tx_nonce t ≠ max_of 64
  ∧ authentic t ∧ sized 32 (tx_sender t).
Proof.
  intros Ha H. unfold signed_validate in H. bind_inv H. guards. rewrite Ha in E2. cbn [bt_get] in E2.
  rewrite cmp_refl in E2. apply ok_or_ok in E2. simplify_eq. cbn. split; [done|]. split; [done|].
  split; [done|]. rewrite <- E3. split; [|apply domain_hash_sized]. exists (ra_public_key a2). done.
Qed.

(** The overlay after a payment. *)
Definition accounts_after (accounts : BTreeMap Address AccountState) t (payment : Payment) (tr : Transfer) :=
  let accounts := bt_insert (tx_sender t) (tr_sender tr) accounts in
  match tr_recipient tr with
  | Some recipient => bt_insert (pay_recipient payment) recipient accounts
  | None => accounts
  end.

Lemma session_execute_inv view s t out s' :
  session_execute view s t = Ok (out, s') →
  ∃ payment sender tr used,
    payment_decode (tx_payload t) = Ok payment ∧ session_account view s (tx_sender t) = Ok (Some sender)
    ∧ nonce sender = tx_nonce t ∧ tx_nonce t ≠ max_of 64 ∧ authentic t ∧ sized 32 (tx_sender t)
    ∧ transfer view s t payment sender = Ok tr ∧ out_diff out = payment_diff t payment tr
    ∧ rc_transaction (out_receipt out) = compute_tx_id t
    ∧ s' = mkSession (accounts_after (ps_accounts s) t payment tr) (ps_context s) (ps_capacity s) used (ps_prices s).
Proof.
  intros H. unfold session_execute in H. bind_inv H. guards. apply map_err_ok in E, E2. apply ok_or_ok in E1. subst a0.
  apply (validated_facts _ _ _ _ (mkRegistered a1 (pay_public_key a))) in E2 as (Hid & Hn & Hm & Hauth & Hs); [|done].
  exists a, a1, a6, a3. subst out s'. by rewrite <- Hid.
Qed.

Lemma payment_resources_ok t : resources_ok (payment_resources t).
Proof. unfold resources_ok. pose proof (estimate_typed t). unfold fits in *. cbn. lia. Qed.

Lemma fee_nonneg prices t : resources_ok prices → 0 <= fee_of prices t.
Proof.
  intros Hp. unfold fee_of. destruct (checked_cost _ _) as [c|] eqn:E; [|done].
  apply checked_cost_iff in E as [_ ->]; [|apply payment_resources_ok|done].
  pose proof (payment_resources_ok t) as Hr. cbn [default].
  unfold resources_ok, fits, exact_cost in *.
  repeat apply Z.add_nonneg_nonneg; apply Z.mul_nonneg_nonneg; lia.
Qed.

(** The accounts a transfer computes are inside their types, and are the ones
    [settle] describes. *)
Lemma transfer_facts view s m t payment sender tr :
  tracks view s m → resources_ok (ps_prices s) → payment_ok payment →
  ledger m (tx_sender t) = Ok (Some sender) → transfer view s t payment sender = Ok tr →
  account_ok (tr_sender tr)
  ∧ nonce (tr_sender tr) = nonce sender + 1
  ∧ match tr_recipient tr with
    | None => tx_sender t = pay_recipient payment
        ∧ balance (tr_sender tr) = balance sender - fee_of (ps_prices s) t
    | Some recipient => tx_sender t ≠ pay_recipient payment ∧ account_ok recipient
        ∧ balance (tr_sender tr) = balance sender - fee_of (ps_prices s) t - pay_amount payment
        ∧ ∃ found, ledger m (pay_recipient payment) = Ok found
          ∧ nonce recipient = nonce (default (mkAccount 0 0) found)
          ∧ balance recipient = balance (default (mkAccount 0 0) found) + pay_amount payment
    end.
Proof.
  intros Ht Hp (_ & _ & _ & Hamt & _) Hl H. pose proof (ledger_ok _ _ _ Hl) as [Hsn Hsb].
  pose proof (fee_nonneg (ps_prices s) t Hp) as Hfee. unfold account_ok, fits in *.
  unfold transfer in H. bind_inv H. guards. apply ok_or_ok in E1, E2, E3.
  apply checked_add_some in E2 as [? ->]. apply checked_sub_some in E3 as [? ->].
  unfold fee_of in *. rewrite E1 in *. change (default 0 (Some a1)) with a1 in *. case_bool_decide as Eself.
  - injection H as <-. cbn [tr_sender tr_recipient nonce balance]. split; [lia|]. done.
  - bind_inv H. apply ok_or_ok in E2, E4. apply checked_sub_some in E2 as [? ->].
    apply checked_add_some in E4 as [? ->]. subst tr. cbn [tr_sender tr_recipient nonce balance]. rewrite Ht in E3. apply map_err_ok in E3.
    assert (u64 (nonce (default (mkAccount 0 0) a3)) ∧ u64 (balance (default (mkAccount 0 0) a3))) as [Hrn Hrb].
    { destruct a3; [by apply ledger_ok in E3|done]. }
    unfold fits in *. split; [lia|]. split; [lia|]. split; [done|]. split; [lia|]. split; [lia|].
    exists a3. done.
Qed.

Lemma payment_diff_apply t payment tr m :
  bt_ok m → (tr_recipient tr ≠ None → tx_sender t ≠ pay_recipient payment) →
  apply_to (payment_diff t payment tr) m
  = match tr_recipient tr with
    | Some recipient => bt_insert (account_key (pay_recipient payment)) (encode_account recipient)
        (bt_insert (account_key (tx_sender t)) (encode_account (tr_sender tr)) m)
    | None => bt_insert (account_key (tx_sender t)) (encode_account (tr_sender tr)) m
    end.
Proof.
  intros Hm Hne. unfold payment_diff, apply_to, sort_canonical. destruct (tr_recipient tr) as [r|]; [|done].
  cbn. destruct (leb _ _); [done|]. cbn. apply insert_comm; [done|]. intros E%account_key_inj. by apply Hne.
Qed.

(** Storing an account in the overlay and in the map keeps them together. *)
Lemma tracks_insert view m accounts context capacity used prices b acc :
  tracks view (mkSession accounts context capacity used prices) m → account_ok acc →
  tracks view (mkSession (bt_insert b acc accounts) context capacity used prices)
    (bt_insert (account_key b) (encode_account acc) m).
Proof.
  intros Ht Hacc a. rewrite ledger_insert by done. specialize (Ht a). unfold session_account in *.
  cbn [ps_accounts] in *. case_bool_decide as E; [subst; by rewrite bt_get_insert_eq|].
  rewrite bt_get_insert_ne by done. exact Ht.
Qed.

Lemma tracks_session view s m used :
  tracks view s m → tracks view (mkSession (ps_accounts s) (ps_context s) (ps_capacity s) used (ps_prices s)) m.
Proof. intros H a. exact (H a). Qed.

Lemma held_insert_ne m a b acc :
  account_ok acc → a ≠ b → held (bt_insert (account_key b) (encode_account acc) m) a = held m a.
Proof. intros Hacc Hne. unfold held. by rewrite ledger_insert, bool_decide_eq_false_2. Qed.

Lemma payment_step view s m t out s' :
  bt_ok m → tracks view s m → resources_ok (ps_prices s) → session_execute view s t = Ok (out, s') →
  let m' := apply_to (out_diff out) m in
  (bt_ok m' ∧ tracks view s' m' ∧ ps_prices s' = ps_prices s)
  ∧ (∀ a, ledger m' a = settle (fee_of (ps_prices s)) (ledger m) t a)
  ∧ total m' = total m - fee_of (ps_prices s) t
  ∧ authentic t ∧ rc_transaction (out_receipt out) = compute_tx_id t
  ∧ ∃ sender, ledger m (tx_sender t) = Ok (Some sender) ∧ nonce sender = tx_nonce t.
Proof.
  intros Hm Ht Hp H m'. apply session_execute_inv in H
    as (payment & sender & tr & used & Hpay & Hsend & Hn & _ & Hauth & Hsz & Htr & Hdiff & Hid & ->).
  rewrite Ht in Hsend. apply map_err_ok in Hsend. pose proof (proj1 (payment_exact _ _) Hpay) as [Hpok _].
  destruct (transfer_facts _ _ _ _ _ _ _ Ht Hp Hpok Hsend Htr) as (Hok & Hnn & Hrec).
  unfold m'. rewrite Hdiff, payment_diff_apply; [|done|by destruct (tr_recipient tr); [destruct Hrec|]].
  pose proof (tracks_insert _ _ _ _ _ _ _ (tx_sender t) _ (tracks_session _ _ _ used Ht) Hok) as Ht1.
  unfold accounts_after, settle. rewrite Hpay, Hsend. cbn [ps_prices].
  pose proof (bt_ok_insert (account_key (tx_sender t)) (encode_account (tr_sender tr)) _ Hm) as Hm1.
  pose proof (total_insert m (tx_sender t) (tr_sender tr) Hm Hsz Hok) as Htot.
  assert (held m (tx_sender t) = balance sender) as Hheld by (unfold held; by rewrite Hsend). rewrite Hheld in Htot.
  destruct (tr_recipient tr) as [r|].
  - destruct Hrec as (Hne & Hrok & Hbal & found & Hfound & Hrn & Hrb). destruct Hpok as (_ & Hrsz & _).
    split; [split; [by apply bt_ok_insert|split; [by eapply tracks_insert|done]]|].
    split; [|split; [|split; [done|split; [done|by exists sender]]]].
    + intros a. rewrite !ledger_insert by done. rewrite (bool_decide_eq_false_2 (tx_sender t = _)) by done.
      case_bool_decide as E1; [subst a; rewrite bool_decide_eq_false_2 by done; rewrite Hfound|].
      * do 2 f_equal. rewrite <- Hrn, <- Hrb. by destruct r.
      * case_bool_decide; [|done]. do 2 f_equal. rewrite <- Hnn, <- Hbal. by destruct (tr_sender tr).
    + rewrite total_insert by done. rewrite held_insert_ne by done.
      assert (held m (pay_recipient payment) = balance (default (mkAccount 0 0) found)) as ->
        by (unfold held; rewrite Hfound; by destruct found). lia.
  - destruct Hrec as [Hself Hbal]. split; [split; [done|split; [done|done]]|].
    split; [|split; [|split; [done|split; [done|by exists sender]]]]; [|lia].
    intros a. rewrite ledger_insert by done. rewrite (bool_decide_eq_true_2 (tx_sender t = _)) by done.
    rewrite Z.sub_0_r, <- Hself. case_bool_decide; [|done]. do 2 f_equal. rewrite <- Hnn, <- Hbal.
    by destruct (tr_sender tr).
Qed.
End execution.

(** ** Blocks of payments *)

Section blocks.
Context {blake : Blake2s} {ed : Ed25519} {arcs : Arcs}.
Implicit Types (m : StateMap) (s : PaymentSession) (t : Transaction) (a : Address) (db : InMemoryState).

#[local] Arguments cmp : simpl never.

Lemma settle_ext fee l1 l2 t a : (∀ a, l1 a = l2 a) → settle fee l1 t a = settle fee l2 t a.
Proof. intros H. unfold settle. rewrite !H. destruct (payment_decode _), (l2 (tx_sender t)) as [[]|]; by rewrite ?H. Qed.

Lemma settle_all_ext fee txs l1 l2 a :
  (∀ a, l1 a = l2 a) → fold_left (settle fee) txs l1 a = fold_left (settle fee) txs l2 a.
Proof.
  revert l1 l2. induction txs as [|t txs IH]; intros l1 l2 H; [apply H|]. apply IH. intros a'.
  by apply settle_ext.
Qed.

(** The next nonce of an account; an absent one starts at zero. *)
Definition next_nonce m a : Z := match ledger m a with Ok (Some acc) => nonce acc | _ => 0 end.

Lemma payment_nonces view s m t out s' :
  bt_ok m → tracks view s m → resources_ok (ps_prices s) → session_execute view s t = Ok (out, s') →
  next_nonce m (tx_sender t) = tx_nonce t
  ∧ next_nonce (apply_to (out_diff out) m) (tx_sender t) = tx_nonce t + 1
  ∧ ∀ a, next_nonce m a <= next_nonce (apply_to (out_diff out) m) a.
Proof.
  intros Hm Ht Hp H. pose proof H as (payment & _ & _ & _ & Hpay & _)%session_execute_inv.
  apply (payment_step _ _ m) in H as (_ & Hl & _ & _ & _ & sender & Hs & Hn); [|done..].
  unfold next_nonce. rewrite Hs, Hl. unfold settle. rewrite Hpay, Hs. split; [done|].
  split; [rewrite bool_decide_eq_true_2 by done; cbn; lia|]. intros a. rewrite Hl. unfold settle. rewrite Hpay, Hs.
  case_bool_decide; [subst a; rewrite Hs; cbn; lia|]. case_bool_decide; [|done].
  destruct (ledger m a) as [[acc|]|]; cbn; lia.
Qed.

Definition block_map m (outs : list TransactionOutput) : StateMap :=
  fold_left apply_change (all_changes (map out_diff outs)) m.

Lemma block_map_cons m out outs : block_map m (out :: outs) = block_map (apply_to (out_diff out) m) outs.
Proof. unfold block_map. cbn [map all_changes flat_map]. by rewrite fold_left_app. Qed.

Lemma execute_all_spec view s m txs outs s' :
  bt_ok m → tracks view s m → resources_ok (ps_prices s) → execute_all view s txs = Ok (outs, s') →
  (∀ a, ledger (block_map m outs) a = fold_left (settle (fee_of (ps_prices s))) txs (ledger m) a)
  ∧ total (block_map m outs) = total m - sumZ (fee_of (ps_prices s)) txs
  ∧ Forall authentic txs
  ∧ map (λ o, rc_transaction (out_receipt o)) outs = map compute_tx_id txs.
Proof.
  revert s m outs. induction txs as [|t txs IH]; intros s m outs Hm Ht Hp H; cbn [execute_all] in H.
  { simplify_eq. split; [done|]. split; [change (block_map m []) with m; cbn [sumZ]; lia|]. done. }
  bind_inv H. simplify_eq. rewrite block_map_cons. pose proof E as Hstep.
  apply (payment_step _ _ m) in E as ((Hm' & Ht' & Hp') & Hl & Htot & Hauth & Hid & _); [|done..].
  rewrite <- Hp' in Hp. destruct (IH _ _ _ Hm' Ht' Hp E0) as (Hl' & Htot' & Hauth' & Hids). rewrite Hp' in *.
  split; [|split; [cbn [sumZ]; lia|split; [by constructor|cbn [map]; by rewrite Hid, Hids]]].
  intros a. rewrite Hl'. cbn [fold_left]. by apply settle_all_ext.
Qed.

Lemma execute_all_nonces view s m txs outs s' :
  bt_ok m → tracks view s m → resources_ok (ps_prices s) → execute_all view s txs = Ok (outs, s') →
  (∀ a, next_nonce m a <= next_nonce (block_map m outs) a)
  ∧ NoDup txs
  ∧ ∀ t, t ∈ txs → next_nonce m (tx_sender t) <= tx_nonce t < next_nonce (block_map m outs) (tx_sender t).
Proof.
  revert s m outs. induction txs as [|t txs IH]; intros s m outs Hm Ht Hp H; cbn [execute_all] in H.
  { simplify_eq. split; [done|]. split; [constructor|]. by intros t ?%elem_of_nil. }
  bind_inv H. simplify_eq. rewrite block_map_cons.
  destruct (payment_nonces _ _ m _ _ _ Hm Ht Hp E) as (Hn & Hn' & Hmono).
  apply (payment_step _ _ m) in E as ((Hm' & Ht' & Hp') & _); [|done..]. rewrite <- Hp' in Hp.
  destruct (IH _ _ _ Hm' Ht' Hp E0) as (Hmono' & Hnd & Hin).
  split; [intros a; specialize (Hmono a); specialize (Hmono' a); lia|]. split.
  - constructor; [|done]. intros Hd%Hin. lia.
  - intros t' [->|Ht'']%elem_of_cons.
    + specialize (Hmono' (tx_sender t)). lia.
    + specialize (Hin _ Ht''). specialize (Hmono (tx_sender t')). lia.
Qed.

Lemma payment_prices_ok : resources_ok PAYMENT_PRICES.
Proof. unfold resources_ok, fits. cbn. lia. Qed.

Lemma payment_fee t : fee_of PAYMENT_PRICES t = 1.
Proof.
  unfold fee_of. rewrite (proj2 (checked_cost_iff _ _ 1 (payment_resources_ok t) payment_prices_ok)); [done|].
  unfold exact_cost, PAYMENT_PRICES, payment_resources. cbn [compute memory io bandwidth]. lia.
Qed.

Lemma payment_fees txs : sumZ (fee_of PAYMENT_PRICES) txs = len txs.
Proof. induction txs as [|t txs IH]; [done|]. cbn [sumZ]. rewrite IH, payment_fee, len_cons. lia. Qed.

Lemma settle_fee_ext (f g : Transaction → Z) txs l a :
  (∀ t, f t = g t) → fold_left (settle f) txs l a = fold_left (settle g) txs l a.
Proof.
  intros H. revert l. induction txs as [|t txs IH]; intros l; [done|]. cbn [fold_left]. rewrite IH.
  apply settle_all_ext. intros a'. unfold settle. by rewrite H.
Qed.

Lemma database_tracks db m context capacity :
  represents db m → tracks (database_view db) (session_new context capacity) m.
Proof.
  intros Hr a. unfold session_account, ledger, view_account, database_view, map_view. cbn [ps_accounts session_new bt_get].
  by rewrite (represents_get _ _ _ Hr).
Qed.

Lemma execute_payments_ok db m txs parent context capacity db' outs root :
  represents db m → execute_payments db txs parent context capacity = (db', Ok (outs, root)) →
  ∃ s', execute_all (database_view db) (session_new context capacity) txs = Ok (outs, s')
  ∧ represents db' (block_map m outs) ∧ im_root db' = root.
Proof.
  intros Hr H. unfold execute_payments in H. case_bool_decide; [|done]. cbn [negb] in H.
  destruct (execute_all _ _ _) as [[outs' s']|] eqn:E; [|done]. exists s'.
  destruct (commit_simulates db m parent (map out_diff outs') None Hr I) as [Hsim Hres].
  unfold commit, prepare in H. unfold commit_sealed in Hsim, Hres.
  destruct (publish _ _) as [db1 r1] eqn:Epub. cbn [fst snd] in *. destruct r1 as [root'|]; [|by simplify_eq].
  simplify_eq. split; [done|]. unfold map_commit in *. case_bool_decide; [|done].
  destruct (stage m _) as [next|] eqn:Est; [|done]. cbn [fst snd] in *.
  apply stage_ok in Est as [_ ->]; [|apply Hr]. split; [done|]. injection Hres as ->. by destruct Hsim as [_ ->].
Qed.

Lemma block_nonces db m txs parent context capacity db' outs root :
  represents db m → execute_payments db txs parent context capacity = (db', Ok (outs, root)) →
  represents db' (block_map m outs) ∧ NoDup txs
  ∧ (∀ a, next_nonce m a <= next_nonce (block_map m outs) a)
  ∧ ∀ t, t ∈ txs → next_nonce m (tx_sender t) <= tx_nonce t < next_nonce (block_map m outs) (tx_sender t).
Proof.
  intros Hr H. destruct (execute_payments_ok _ _ _ _ _ _ _ _ _ Hr H) as (s' & E & Hr' & _). split; [done|].
  apply (execute_all_nonces _ _ m) in E as (? & ? & ?); [done|apply Hr|by apply database_tracks|apply payment_prices_ok].
Qed.

(** Any number of committed blocks. *)
Inductive payment_chain : InMemoryState → InMemoryState → Prop :=
| chain_done db : payment_chain db db
| chain_block db txs parent context capacity db' r db'' :
    execute_payments db txs parent context capacity = (db', Ok r) → payment_chain db' db'' →
    payment_chain db db''.

Lemma chain_nonces db db' m :
  represents db m → payment_chain db db' →
  ∃ m', represents db' m' ∧ ∀ a, next_nonce m a <= next_nonce m' a.
Proof.
  intros Hr H. revert m Hr. induction H as [db|db txs parent context capacity db1 [outs root] db2 E _ IH]; intros m Hr.
  - by exists m.
  - destruct (block_nonces _ _ _ _ _ _ _ _ _ Hr E) as (Hr1 & _ & Hmono & _).
    destruct (IH _ Hr1) as (m2 & Hr2 & Hmono2). exists m2. split; [done|]. intros a.
    specialize (Hmono a). specialize (Hmono2 a). lia.
Qed.

(** C22: A block of payments settles exactly or not at all.  When it is committed, every
    sender had signed its transaction, the receipts name the transactions in order,
    every account is the one that paying one unit of fee and moving the amounts in
    order gives, computed without bounds, and the sum of all balances falls by
    exactly one unit per transaction.  On any error the database is unchanged. *)
Theorem payments_exact db m txs parent context capacity db' r :
  represents db m → execute_payments db txs parent context capacity = (db', r) →
  match r with
  | Err _ => db' = db
  | Ok (outs, root) => im_root db' = root ∧ Forall authentic txs
      ∧ map (λ o, rc_transaction (out_receipt o)) outs = map compute_tx_id txs
      ∧ ∃ m', represents db' m'
        ∧ (∀ a, ledger m' a = fold_left (settle (λ _, 1)) txs (ledger m) a)
        ∧ total m' = total m - len txs
  end.
Proof.
  intros Hr H. destruct r as [[outs root]|e].
  - destruct (execute_payments_ok _ _ _ _ _ _ _ _ _ Hr H) as (s' & E & Hr' & Hroot).
    apply (execute_all_spec _ _ m) in E as (Hl & Htot & Hauth & Hids);
      [|apply Hr|by apply database_tracks|apply payment_prices_ok].
    split; [done|]. split; [done|]. split; [done|]. exists (block_map m outs). split; [done|].
    cbn [ps_prices session_new] in *. split.
    + intros a. rewrite Hl. apply settle_fee_ext, payment_fee.
    + by rewrite Htot, payment_fees.
  - unfold execute_payments in H. case_bool_decide; cbn [negb] in H; [|by simplify_eq].
    destruct (execute_all _ _ _) as [[outs' s']|]; [|by simplify_eq].
    unfold commit, publish in H. destruct (prepare db parent _); by simplify_eq.
Qed.

(** No payment is ever executed twice: a committed block has no repeated
    transaction, and after any further committed blocks every block that contains
    one of its transactions again is refused. *)
Theorem no_replay db m txs parent context capacity db1 r db2 t :
  represents db m → execute_payments db txs parent context capacity = (db1, Ok r) →
  payment_chain db1 db2 → t ∈ txs →
  NoDup txs
  ∧ ∀ txs' parent' context' capacity', t ∈ txs' →
    is_ok (snd (execute_payments db2 txs' parent' context' capacity')) = false.
Proof.
  intros Hr E Hc Hin. destruct r as [outs root].
  destruct (block_nonces _ _ _ _ _ _ _ _ _ Hr E) as (Hr1 & Hnd & _ & Hn).
  destruct (chain_nonces _ _ _ Hr1 Hc) as (m2 & Hr2 & Hmono). split; [done|]. intros txs' p' c' cap' Hin'.
  destruct (execute_payments db2 txs' p' c' cap') as [db3 [[outs3 root3]|]] eqn:E3; [|done].
  destruct (block_nonces _ _ _ _ _ _ _ _ _ Hr2 E3) as (_ & _ & _ & Hn3).
  specialize (Hn _ Hin). specialize (Hn3 _ Hin'). specialize (Hmono (tx_sender t)). lia.
Qed.
End blocks.

Section payment_examples.
#[local] Existing Instance checksum_blake2s.
#[local] Existing Instance checksum_ed25519.
#[local] Existing Instance fresh_arcs.

(** One funded account and two payments from it, the second to itself. *)
Definition sample_ledger : InMemoryState :=
  fst (commit_sealed state_new empty_root
    [mkDiff [Put (account_key sample_sender) (encode_account (mkAccount 3 1000))]] None).
Definition sample_block : list Transaction :=
  [sample_payment sample_recipient 3 40; sample_payment sample_sender 4 7].
Definition sample_capacity : Resources := mkResources 100 1000 100 100000.
Definition sample_run : InMemoryState * result (list TransactionOutput * Hash256) ExecutionError :=
  execute_payments sample_ledger sample_block (im_root sample_ledger) sample_context sample_capacity.

Lemma sample_ledger_represents : ∃ m, represents sample_ledger m.
Proof. apply state_reach_map. by apply reach_commit; [constructor|]. Qed.

Lemma payments_exact_witness :
  is_ok (snd sample_run) = true
  ∧ ∃ m, represents sample_ledger m
  ∧ match snd sample_run with
    | Err _ => fst sample_run = sample_ledger
    | Ok (outs, root) => im_root (fst sample_run) = root ∧ Forall authentic sample_block
        ∧ map (λ o, rc_transaction (out_receipt o)) outs = map compute_tx_id sample_block
        ∧ ∃ m', represents (fst sample_run) m'
          ∧ (∀ a, ledger m' a = fold_left (settle (λ _, 1)) sample_block (ledger m) a)
          ∧ total m' = total m - len sample_block
    end.
Proof.
  split; [evaluate|]. destruct sample_ledger_represents as [m Hm]. exists m. split; [exact Hm|].
  refine (payments_exact sample_ledger m sample_block (im_root sample_ledger) sample_context sample_capacity
    (fst sample_run) (snd sample_run) Hm _).
  fold sample_run. apply surjective_pairing.
Defined.

Definition sample_outcome : list TransactionOutput * Hash256 :=
  match snd sample_run with Ok r => r | Err _ => ([], zero32) end.

Lemma no_replay_witness :
  NoDup sample_block
  ∧ ∀ txs' parent' context' capacity', sample_payment sample_recipient 3 40 ∈ txs' →
    is_ok (snd (execute_payments (fst sample_run) txs' parent' context' capacity')) = false.
Proof.
  destruct sample_ledger_represents as [m Hm].
  refine (no_replay sample_ledger m sample_block (im_root sample_ledger) sample_context sample_capacity
    (fst sample_run) sample_outcome (fst sample_run) (sample_payment sample_recipient 3 40) Hm _
    (chain_done (fst sample_run)) (list_elem_of_here _ _)).
  fold sample_run. assert (is_ok (snd sample_run) = true) as Hok by evaluate.
  unfold sample_outcome. destruct sample_run as [db [r|e]]; [reflexivity|discriminate].
Defined.
End payment_examples.
