(* ===== verification/Trocto.v ===== *)
(** * Trocto: what both versions of the contract language share
    ([src/crates/trocto-compiler/src/lib.rs] and the two lexers)

    Limits, errors, arithmetic operators, tokens and the lexing loop.  Sources are
    byte strings.  A front end either accepts, or refuses with an offset and a
    message; [CompilePanic] stands for an index out of range and [Unfinished] for a
    recursion that outlives the fuel the model gives it.  [compile_total] of
    TroctoProgram shows that neither happens. *)

From S2P Require Import Prelude Ordered Codec.

Definition LANGUAGE_VERSION : Z := 1.
Definition METERING_VERSION : Z := 1.
Definition STATEFUL_LANGUAGE_VERSION : Z := 2.
Definition STATEFUL_METERING_VERSION : Z := 2.
Definition MAX_SOURCE_BYTES : Z := 65536.
Definition MAX_TOKENS : Z := 16384.
Definition MAX_INSTRUCTIONS : Z := 4096.
Definition MAX_NESTING : Z := 64.
Definition MAX_LOCALS : Z := 1024.
Definition MAX_IDENTIFIER_BYTES : Z := 64.
Definition MAX_STATE_KEYS : Z := 1024.
Definition MAX_STATE_KEY_BYTES : Z := 256.
Definition MAX_EVENTS : Z := 256.

Record CompileError := mkCompileError {
  ce_offset : Z;
  ce_message : string
}.

Inductive CompileFailure :=
| Refused (error : CompileError)
| CompilePanic
| Unfinished.

Definition refuse {A : Type} (offset : Z) (message : string) : result A CompileFailure :=
  Err (Refused (mkCompileError offset message)).
Arguments refuse {A} offset message%_string.

(** ** Execution *)

Inductive ExecutionError :=
| FuelExhausted
| Overflow
| DivisionByZero
| AccessDenied
| EventLimit
| InvalidContext
| Bounds.

(** The same for a run: an error of the language, an index out of range, or a loop
    that outlives its fuel. *)
Inductive RunFailure :=
| Failed (error : ExecutionError)
| RunPanic
| Running.

Inductive Operator := Add | Subtract | Multiply | Divide | Remainder.

#[global] Instance Operator_eq_dec : EqDecision Operator.
Proof. solve_decision. Defined.

Definition operator_apply (o : Operator) (left right : Z) : result Z ExecutionError :=
  match o with
  | Add => ok_or (checked_add 64 left right) Overflow
  | Subtract => ok_or (checked_sub left right) Overflow
  | Multiply => ok_or (checked_mul 64 left right) Overflow
  | Divide => if right =? 0 then Err DivisionByZero else Ok (left / right)
  | Remainder => if right =? 0 then Err DivisionByZero else Ok (left mod right)
  end.

(** ** Lexing *)

Definition is_ascii_whitespace (b : Byte.byte) : bool :=
  in_range 9 10 b || in_range 12 13 b || in_range 32 32 b.
Definition is_ascii_digit (b : Byte.byte) : bool := in_range 48 57 b.
Definition is_ascii_alphabetic (b : Byte.byte) : bool := in_range 65 90 b || in_range 97 122 b.
Definition is_byte (z : Z) (b : Byte.byte) : bool := in_range z z b.

(** [b'_'] or a letter starts an identifier; digits continue it. *)
Definition word_start (b : Byte.byte) : bool := is_ascii_alphabetic b || is_byte 95 b.
Definition word_byte (b : Byte.byte) : bool := word_start b || is_ascii_digit b.

(** How far a [while] loop over the bytes advances. *)
Fixpoint run_length (p : Byte.byte → bool) (bs : bytes) : nat :=
  match bs with
  | b :: bs => if p b then S (run_length p bs) else O
  | [] => O
  end.

(** [str::parse::<u64>] on a run of digits. *)
Definition digits_value (bs : bytes) : Z :=
  fold_left (λ v b, 10 * v + (byte.unsigned b - 48)) bs 0.
Definition parse_u64 (bs : bytes) : option Z := try_from 64 (digits_value bs).

Record Token (K : Type) := mkToken {
  tok_kind : K;
  tok_offset : Z
}.
Arguments mkToken {K} tok_kind tok_offset.
Arguments tok_kind {K} t : rename.
Arguments tok_offset {K} t : rename.

(** An identifier or a number, with the number of bytes it takes. *)
Definition lex_word (offset : Z) (rest : bytes) : result (bytes * nat) CompileFailure :=
  let n := run_length word_byte rest in
  if MAX_IDENTIFIER_BYTES <? Z.of_nat n then refuse offset "identifier byte limit exceeded"
  else Ok (take n rest, n).

Definition lex_number (offset : Z) (rest : bytes) : result (Z * nat) CompileFailure :=
  let n := run_length is_ascii_digit rest in
  match parse_u64 (take n rest) with
  | Some v => Ok (v, n)
  | None => refuse offset "integer literal exceeds u64"
  end.

(** The loop over the source, which [token] extends by one token at a time. *)
Section lexer.
Context {K : Type} (token : Z → bytes → result (K * nat) CompileFailure).

Definition is_comment (rest : bytes) : bool :=
  match rest with a :: b :: _ => is_byte 47 a && is_byte 47 b | _ => false end.

Fixpoint lex_loop (fuel : nat) (position : Z) (rest : bytes) (tokens : list (Token K))
    : result (list (Token K)) CompileFailure :=
  match rest, fuel with
  | [], _ => Ok tokens
  | _, O => Err Unfinished
  | byte :: after, S fuel =>
      if is_ascii_whitespace byte then lex_loop fuel (position + 1) after tokens
      else if is_comment rest then
        let n := (2 + run_length (λ b, negb (is_byte 10 b)) (drop 2 rest))%nat in
        lex_loop fuel (position + Z.of_nat n) (drop n rest) tokens
      else if MAX_TOKENS <=? len tokens then refuse position "token limit exceeded"
      else
        let? (kind, n) := token position rest in
        lex_loop fuel (position + Z.of_nat n) (drop n rest) (tokens ++ [mkToken kind position])
  end.

Definition lex_source (end_ : K) (source : bytes) : result (list (Token K)) CompileFailure :=
  if MAX_SOURCE_BYTES <? len source then refuse MAX_SOURCE_BYTES "source byte limit exceeded"
  else
    let? tokens := lex_loop (length source) 0 source [] in
    Ok (tokens ++ [mkToken end_ (len source)]).
End lexer.

(** ** Orderly front ends *)

(** A front end that accepts with [Q] or refuses, and neither panics nor runs out of
    fuel. *)
Definition orderly {A : Type} (r : result A CompileFailure) (Q : A → Prop) : Prop :=
  match r with
  | Ok a => Q a
  | Err (Refused _) => True
  | Err _ => False
  end.

Lemma orderly_bind {A B : Type} (r : result A CompileFailure) (k : A → result B CompileFailure) Q1 Q :
  orderly r Q1 → (∀ a, r = Ok a → Q1 a → orderly (k a) Q) → orderly (let? a := r in k a) Q.
Proof. intros Hr Hk. destruct r as [a|[]]; [by apply Hk|done..]. Qed.

Lemma orderly_mono {A : Type} (r : result A CompileFailure) (Q1 Q : A → Prop) :
  orderly r Q1 → (∀ a, Q1 a → Q a) → orderly r Q.
Proof. intros Hr Hk. destruct r as [a|[]]; [by apply Hk|done..]. Qed.

Lemma lex_word_orderly offset b rest :
  word_start b = true → orderly (lex_word offset (b :: rest)) (λ x, (1 <= x.2)%nat).
Proof.
  intros Hb. unfold lex_word. cbn [run_length].
  assert (word_byte b = true) as -> by (unfold word_byte; by rewrite Hb). case_test; cbn; [done|lia].
Qed.

Lemma lex_number_orderly offset b rest :
  is_ascii_digit b = true → orderly (lex_number offset (b :: rest)) (λ x, (1 <= x.2)%nat).
Proof. intros Hb. unfold lex_number. cbn [run_length]. rewrite Hb. by destruct (parse_u64 _); cbn; [lia|]. Qed.

Lemma lex_loop_orderly {K : Type} (token : Z → bytes → result (K * nat) CompileFailure) fuel o rest acc :
  (∀ o b rest, orderly (token o (b :: rest)) (λ x, (1 <= x.2)%nat)) → (length rest <= fuel)%nat →
  orderly (lex_loop token fuel o rest acc) (λ _, True).
Proof.
  intros Ht. revert o rest acc. induction fuel as [|fuel IH]; intros o [|b rest] acc Hl; try done; [cbn in Hl; lia|].
  cbn [lex_loop]. cbn [length] in Hl. destruct (is_ascii_whitespace b); [apply IH; lia|].
  destruct (is_comment (b :: rest)); [apply IH; rewrite length_drop; cbn; lia|].
  case_test; [done|]. eapply orderly_bind; [apply Ht|]. intros [k n] _ Hn. cbn in Hn.
  apply IH. rewrite length_drop. cbn. lia.
Qed.

Lemma lex_source_orderly {K : Type} (token : Z → bytes → result (K * nat) CompileFailure) end_ source :
  (∀ o b rest, orderly (token o (b :: rest)) (λ x, (1 <= x.2)%nat)) →
  orderly (lex_source token end_ source) (λ _, True).
Proof.
  intros Ht. unfold lex_source. case_test; [done|]. eapply orderly_bind; [by apply lex_loop_orderly|]. done.
Qed.

(** ** The end marker *)

Lemma lex_loop_forall {K : Type} (f : Z → bytes → result (K * nat) CompileFailure) (P : K → Prop) fuel o rest acc ts :
  (∀ o rest k n, f o rest = Ok (k, n) → P k) → Forall (λ t, P (tok_kind t)) acc →
  lex_loop f fuel o rest acc = Ok ts → Forall (λ t, P (tok_kind t)) ts.
Proof.
  intros Hf. revert o rest acc. induction fuel as [|fuel IH]; intros o [|b rest] acc Hacc H; cbn in H; simplify_eq; try done.
  repeat case_in H; [by eapply IH..|]. bind_inv H. eapply IH; [|exact H].
  apply Forall_app. split; [done|]. repeat constructor. by eapply Hf.
Qed.

Lemma lex_source_shape {K : Type} (token : Z → bytes → result (K * nat) CompileFailure) end_ source ts :
  (∀ o rest k n, token o rest = Ok (k, n) → k ≠ end_) → lex_source token end_ source = Ok ts →
  ∃ ts0 e, ts = ts0 ++ [e] ∧ tok_kind e = end_ ∧ Forall (λ t, tok_kind t ≠ end_) ts0.
Proof.
  unfold lex_source. intros Hn H. case_in H. bind_inv H. subst. eexists _, _. split; [done|]. split; [done|].
  by eapply (lex_loop_forall token (λ k, k ≠ end_)); [|constructor|exact E].
Qed.

Lemma end_last {K : Type} (end_ : K) (ts : list (Token K)) before rest :
  (∃ ts0 e, ts = ts0 ++ [e] ∧ tok_kind e = end_ ∧ Forall (λ t, tok_kind t ≠ end_) ts0) →
  map tok_kind ts = before ++ end_ :: rest → rest = [].
Proof.
  intros (ts0 & e & -> & He & Hf) H. rewrite map_app in H. cbn in H. rewrite He in H.
  destruct rest as [|k rest _] using rev_ind; [done|].
  rewrite app_comm_cons, app_assoc in H. apply app_inj_tail in H as [H _].
  assert (end_ ∈ map tok_kind ts0) as Hin by (rewrite H; set_solver).
  apply list_elem_of_In, in_map_iff in Hin as (t & Ht & Hin). rewrite Forall_forall in Hf.
  exfalso. apply (Hf t); [by apply list_elem_of_In|done].
Qed.
