(* ===== verification/TroctoScalar.v ===== *)
(** * TroctoScalar: the scalar language, version one
    ([src/crates/trocto-compiler/src/frontend.rs], [Program::evaluate] of [lib.rs])

    A one-pass front end: it parses by precedence climbing and emits a flat sequence
    of instructions, each defining the value of its own index. *)

From S2P Require Import Prelude Ordered Codec Trocto.

Inductive Kind :=
| Word (text : bytes)
| Number (value : Z)
| LeftParen
| RightParen
| LeftBrace
| RightBrace
| Colon
| Semicolon
| Equal
| Arrow
| Plus
| Minus
| Star
| Slash
| Percent
| End_.

#[global] Instance Kind_eq_dec : EqDecision Kind.
Proof. solve_decision. Defined.

Inductive Instruction :=
| Constant (value : Z)
| Input
| Copy (index : nat)
| Binary (operator : Operator) (left right : nat).

(** ** Lexing *)

Definition symbol (offset : Z) (rest : bytes) : result (Kind * nat) CompileFailure :=
  match rest with
  | [] => Err CompilePanic
  | byte :: after =>
      if is_byte 40 byte then Ok (LeftParen, 1%nat)
      else if is_byte 41 byte then Ok (RightParen, 1%nat)
      else if is_byte 123 byte then Ok (LeftBrace, 1%nat)
      else if is_byte 125 byte then Ok (RightBrace, 1%nat)
      else if is_byte 58 byte then Ok (Colon, 1%nat)
      else if is_byte 59 byte then Ok (Semicolon, 1%nat)
      else if is_byte 61 byte then Ok (Equal, 1%nat)
      else if is_byte 43 byte then Ok (Plus, 1%nat)
      else if is_byte 45 byte then
        match after with
        | next :: _ => if is_byte 62 next then Ok (Arrow, 2%nat) else Ok (Minus, 1%nat)
        | [] => Ok (Minus, 1%nat)
        end
      else if is_byte 42 byte then Ok (Star, 1%nat)
      else if is_byte 47 byte then Ok (Slash, 1%nat)
      else if is_byte 37 byte then Ok (Percent, 1%nat)
      else refuse offset "unsupported source character"
  end.

Definition kind (offset : Z) (rest : bytes) : result (Kind * nat) CompileFailure :=
  match rest with
  | [] => Err CompilePanic
  | byte :: _ =>
      if word_start byte then let? (text, n) := lex_word offset rest in Ok (Word text, n)
      else if is_ascii_digit byte then let? (value, n) := lex_number offset rest in Ok (Number value, n)
      else symbol offset rest
  end.

Definition lex (source : bytes) : result (list (Token Kind)) CompileFailure :=
  lex_source kind End_ source.

(** ** Parsing *)

Record Parser := mkParser {
  tokens : list (Token Kind);
  position : nat;
  locals : BTreeMap bytes nat;
  instructions : list Instruction
}.

Definition advance (p : Parser) : Parser :=
  mkParser (tokens p) (S (position p)) (locals p) (instructions p).

Definition peek (p : Parser) : result (Token Kind) CompileFailure :=
  ok_or (tokens p !! position p) CompilePanic.

Definition expect (k : Kind) (message : string) (p : Parser) : result Parser CompileFailure :=
  let? token := peek p in
  if bool_decide (tok_kind token = k) then Ok (advance p) else refuse (tok_offset token) message.
Arguments expect k message%_string p.

Definition word (text : string) (p : Parser) : result Parser CompileFailure :=
  expect (Word (lit text)) "unexpected identifier or unsupported syntax" p.
Arguments word text%_string p.

Definition emit (i : Instruction) (offset : Z) (p : Parser) : result (nat * Parser) CompileFailure :=
  if MAX_INSTRUCTIONS <=? len (instructions p) then refuse offset "instruction limit exceeded"
  else Ok (length (instructions p),
           mkParser (tokens p) (position p) (locals p) (instructions p ++ [i])).

Definition operator_of (k : Kind) : option (Operator * Z) :=
  match k with
  | Plus => Some (Add, 1)
  | Minus => Some (Subtract, 1)
  | Star => Some (Multiply, 2)
  | Slash => Some (Divide, 2)
  | Percent => Some (Remainder, 2)
  | _ => None
  end.

(** [expression], its loop over the operators, and [atom]. *)
Fixpoint expression (fuel : nat) (minimum depth : Z) (p : Parser) : result (nat * Parser) CompileFailure :=
  match fuel with
  | O => Err Unfinished
  | S fuel =>
      if MAX_NESTING <=? depth then
        let? token := peek p in
        refuse (tok_offset token) "expression nesting limit exceeded"
      else
        let? (lhs, p) := atom fuel depth p in
        operators fuel minimum depth lhs p
  end
with operators (fuel : nat) (minimum depth : Z) (lhs : nat) (p : Parser)
    : result (nat * Parser) CompileFailure :=
  match fuel with
  | O => Err Unfinished
  | S fuel =>
      let? token := peek p in
      match operator_of (tok_kind token) with
      | None => Ok (lhs, p)
      | Some (operator, precedence) =>
          if precedence <? minimum then Ok (lhs, p)
          else
            let? (rhs, p) := expression fuel (precedence + 1) (depth + 1) (advance p) in
            let? (lhs, p) := emit (Binary operator lhs rhs) (tok_offset token) p in
            operators fuel minimum depth lhs p
      end
  end
with atom (fuel : nat) (depth : Z) (p : Parser) : result (nat * Parser) CompileFailure :=
  match fuel with
  | O => Err Unfinished
  | S fuel =>
      let? token := peek p in
      match tok_kind token with
      | Number value => emit (Constant value) (tok_offset token) (advance p)
      | Word name =>
          if bool_decide (name = lit "input") then emit Input (tok_offset token) (advance p)
          else
            match bt_get name (locals p) with
            | None => refuse (tok_offset token) "undefined local or unsupported expression"
            | Some value => emit (Copy value) (tok_offset token) (advance p)
            end
      | LeftParen =>
          let? (value, p) := expression fuel 0 (depth + 1) (advance p) in
          let? p := expect RightParen "closing parenthesis expected" p in
          Ok (value, p)
      | _ => refuse (tok_offset token) "u64 expression expected"
      end
  end.

(** Enough for every token to be a call, an operator and an atom. *)
Definition parse_fuel (p : Parser) : nat := (4 * length (tokens p) + 4)%nat.

Definition reserved : list bytes :=
  map lit ["input"; "fn"; "call"; "let"; "return"; "u64"; "mut"; "unsafe"; "import"; "extern";
           "if"; "else"; "while"; "for"; "loop"]%string.

Definition binding (p : Parser) : result Parser CompileFailure :=
  let? p := word "let" p in
  let? token := peek p in
  match tok_kind token with
  | Word name =>
      if bool_decide (name ∈ reserved) then refuse (tok_offset token) "reserved local identifier"
      else if bt_contains name (locals p) then
        refuse (tok_offset token) "immutable local cannot be redefined"
      else if MAX_LOCALS <=? len (locals p) then refuse (tok_offset token) "local binding limit exceeded"
      else
        let p := advance p in
        let? next := peek p in
        let? p := if bool_decide (tok_kind next = Colon) then word "u64" (advance p) else Ok p in
        let? p := expect Equal "local initializer expected" p in
        let? (value, p) := expression (parse_fuel p) 0 0 p in
        let? p := expect Semicolon "semicolon required after local initializer" p in
        Ok (mkParser (tokens p) (position p) (bt_insert name value (locals p)) (instructions p))
  | _ => refuse (tok_offset token) "local identifier expected"
  end.

(** [while peek is let]. *)
Fixpoint bindings (fuel : nat) (p : Parser) : result Parser CompileFailure :=
  match fuel with
  | O => Err Unfinished
  | S fuel =>
      let? token := peek p in
      if bool_decide (tok_kind token = Word (lit "let")) then
        let? p := binding p in
        bindings fuel p
      else Ok p
  end.

Definition parse (source : bytes) : result (list Instruction * nat) CompileFailure :=
  let? ts := lex source in
  let p := mkParser ts 0 [] [] in
  let? p := word "fn" p in
  let? p := word "call" p in
  let? p := expect LeftParen "call parameter list expected" p in
  let? p := word "input" p in
  let? p := expect Colon "call input type expected" p in
  let? p := word "u64" p in
  let? p := expect RightParen "exactly one input parameter is required" p in
  let? p := expect Arrow "call return type expected" p in
  let? p := word "u64" p in
  let? p := expect LeftBrace "call body expected" p in
  let? p := bindings (parse_fuel p) p in
  let? p := word "return" p in
  let? (value, p) := expression (parse_fuel p) 0 0 p in
  let? p := expect Semicolon "semicolon required after return value" p in
  let? p := expect RightBrace "only immutable locals and one return are supported" p in
  let? p := expect End_ "trailing source or additional functions are unsupported" p in
  Ok (instructions p, value).

(** ** Evaluation *)

Definition value_at (values : list Z) (i : nat) : result Z RunFailure := ok_or (values !! i) RunPanic.

Definition instruction_value (i : Instruction) (input : Z) (values : list Z) : result Z RunFailure :=
  match i with
  | Constant value => Ok value
  | Input => Ok input
  | Copy index => value_at values index
  | Binary operator lhs rhs =>
      let? lhs := value_at values lhs in
      let? rhs := value_at values rhs in
      map_err Failed (operator_apply operator lhs rhs)
  end.

(** The loop over the instructions: the fuel check comes first. *)
Fixpoint evaluate_loop (code : list Instruction) (input fuel : Z) (values : list Z) (used : Z)
    : result (list Z * Z) RunFailure :=
  match code with
  | [] => Ok (values, used)
  | i :: code =>
      if fuel <=? used then Err (Failed FuelExhausted)
      else
        let? value := instruction_value i input values in
        evaluate_loop code input fuel (values ++ [value]) (used + 1)
  end.

Record Execution := mkExecution {
  ex_value : Z;
  ex_fuel_used : Z
}.

Definition evaluate_scalar (code : list Instruction) (value : nat) (input fuel : Z) : result Execution RunFailure :=
  let? (values, used) := evaluate_loop code input fuel [] 0 in
  let? v := value_at values value in
  Ok (mkExecution v used).
