(* ===== verification/TroctoStateful.v ===== *)
(** * TroctoStateful: the stateful language, version two
    ([src/crates/trocto-compiler/src/{stateful_frontend,stateful}.rs])

    A one-pass front end checks types and lexical scopes while it emits flat control
    flow, patching branch targets once they are known.  The evaluator dispatches the
    instructions over registers, locals and the state slots of the call. *)

From S2P Require Import Prelude Ordered Codec Trocto.

Inductive TokenKind :=
| Word (text : bytes)
| Number (value : Z)
| Key (text : bytes)
| Symbol (text : bytes)
| End_.

#[global] Instance TokenKind_eq_dec : EqDecision TokenKind.
Proof. solve_decision. Defined.

(** ** Lexing *)

Definition key_byte (b : Byte.byte) : bool :=
  in_range 32 126 b && negb (is_byte 92 b).

(** The bytes of a key up to the closing quote or the end of the source. *)
Fixpoint key_loop (position : Z) (bs : bytes) : result nat CompileFailure :=
  match bs with
  | [] => Ok O
  | b :: bs =>
      if is_byte 34 b then Ok O
      else if negb (key_byte b) then
        refuse position "state keys require literal printable ASCII without escapes"
      else let? n := key_loop (position + 1) bs in Ok (S n)
  end.

Definition lex_key (offset : Z) (after : bytes) : result (TokenKind * nat) CompileFailure :=
  let? n := key_loop (offset + 1) after in
  if bool_decide (n = length after) then refuse offset "unterminated state key"
  else if bool_decide (n = 0%nat) || (MAX_STATE_KEY_BYTES <? Z.of_nat n) then
    refuse offset "state key byte limit exceeded"
  else Ok (Key (take n after), (n + 2)%nat).

Definition pairs : list bytes := map lit ["->"; "=="; "!="; "<="; ">="; "&&"; "||"]%string.
Definition singles : bytes := lit "(){}:;,+-*/%=!<>".

Definition lex_symbol (offset : Z) (rest : bytes) : result (TokenKind * nat) CompileFailure :=
  if bool_decide (take 2 rest ∈ pairs) then Ok (Symbol (take 2 rest), 2%nat)
  else
    match rest with
    | [] => Err CompilePanic
    | byte :: _ => if bool_decide (byte ∈ singles) then Ok (Symbol [byte], 1%nat)
                   else refuse offset "unsupported source character"
    end.

Definition token (offset : Z) (rest : bytes) : result (TokenKind * nat) CompileFailure :=
  match rest with
  | [] => Err CompilePanic
  | byte :: after =>
      if word_start byte then let? (text, n) := lex_word offset rest in Ok (Word text, n)
      else if is_ascii_digit byte then let? (value, n) := lex_number offset rest in Ok (Number value, n)
      else if is_byte 34 byte then lex_key offset after
      else lex_symbol offset rest
  end.

Definition lex (source : bytes) : result (list (Token TokenKind)) CompileFailure :=
  lex_source token End_ source.

(** ** Instructions *)

Inductive Typ := U64 | Boolean.

#[global] Instance Typ_eq_dec : EqDecision Typ.
Proof. solve_decision. Defined.

Inductive Binary :=
| Arithmetic (operator : Operator)
| Equal
| NotEqual
| Less
| LessEqual
| Greater
| GreaterEqual.

#[global] Instance Binary_eq_dec : EqDecision Binary.
Proof. solve_decision. Defined.

(** [u64::from(bool)]. *)
Definition flag (b : bool) : Z := if b then 1 else 0.

Definition binary_apply (b : Binary) (lhs rhs : Z) : result Z ExecutionError :=
  match b with
  | Arithmetic operator => operator_apply operator lhs rhs
  | Equal => Ok (flag (lhs =? rhs))
  | NotEqual => Ok (flag (negb (lhs =? rhs)))
  | Less => Ok (flag (lhs <? rhs))
  | LessEqual => Ok (flag (lhs <=? rhs))
  | Greater => Ok (flag (rhs <? lhs))
  | GreaterEqual => Ok (flag (rhs <=? lhs))
  end.

Inductive Step :=
| Constant (destination : nat) (value : Z)
| Input (destination : nat)
| Load (destination local : nat)
| Store (local source : nat) (charge : bool)
| Move (destination source : nat)
| BinaryStep (destination : nat) (operator : Binary) (lhs rhs : nat)
| Not (destination source : nat)
| Branch (condition yes no : nat)
| Jump (next : nat)
| Return (source : nat)
| Height (destination : nat)
| Caller (destination index : nat)
| KeyCount (destination : nat)
| KeyWord (destination key word : nat)
| GetAt (destination key : nat)
| SetAt (key source : nat)
| DeleteAt (key : nat)
| Get (destination key : nat)
| SetKey (key source : nat)
| Delete (key : nat)
| Emit (topic data : nat).

Definition charged (s : Step) : bool :=
  match s with
  | Store _ _ false | Move _ _ | Return _ => false
  | _ => true
  end.

Record CheckedProgram := mkChecked {
  cp_instructions : list Step;
  cp_registers : nat;
  cp_locals : nat;
  cp_keys : list bytes;
  cp_context : bool
}.

(** ** The parser *)

Record Value := mkValue {
  v_register : nat;
  v_ty : Typ
}.

Record Binding := mkBinding {
  b_local : nat;
  b_ty : Typ;
  b_mutable : bool
}.

Abbreviation Scope := (BTreeMap bytes Binding).

Record Parser := mkParser {
  tokens : list (Token TokenKind);
  pos : nat;
  instructions : list Step;
  registers : nat;
  locals : nat;
  scopes : list Scope;
  keys : BTreeMap bytes nat;
  context : bool
}.

Definition set_pos (n : nat) (p : Parser) : Parser :=
  mkParser (tokens p) n (instructions p) (registers p) (locals p) (scopes p) (keys p) (context p).
Definition set_instructions (code : list Step) (p : Parser) : Parser :=
  mkParser (tokens p) (pos p) code (registers p) (locals p) (scopes p) (keys p) (context p).
Definition set_registers (n : nat) (p : Parser) : Parser :=
  mkParser (tokens p) (pos p) (instructions p) n (locals p) (scopes p) (keys p) (context p).
Definition set_locals (n : nat) (p : Parser) : Parser :=
  mkParser (tokens p) (pos p) (instructions p) (registers p) n (scopes p) (keys p) (context p).
Definition set_scopes (ss : list Scope) (p : Parser) : Parser :=
  mkParser (tokens p) (pos p) (instructions p) (registers p) (locals p) ss (keys p) (context p).
Definition set_keys (ks : BTreeMap bytes nat) (p : Parser) : Parser :=
  mkParser (tokens p) (pos p) (instructions p) (registers p) (locals p) (scopes p) ks (context p).
Definition set_context (p : Parser) : Parser :=
  mkParser (tokens p) (pos p) (instructions p) (registers p) (locals p) (scopes p) (keys p) true.

Definition advance (p : Parser) : Parser := set_pos (S (pos p)) p.

Definition peek (p : Parser) : result (Token TokenKind) CompileFailure :=
  ok_or (tokens p !! pos p) CompilePanic.

Definition error {A : Type} (message : string) (p : Parser) : result A CompileFailure :=
  let? token := peek p in
  refuse (tok_offset token) message.
Arguments error {A} message%_string p.

Definition text_is (k : TokenKind) (text : string) : bool :=
  match k with
  | Word s | Symbol s => bool_decide (s = lit text)
  | _ => false
  end.
Arguments text_is k text%_string.

Definition has (text : string) (p : Parser) : result bool CompileFailure :=
  let? token := peek p in
  Ok (text_is (tok_kind token) text).
Arguments has text%_string p.

Definition take_text (text : string) (p : Parser) : result (bool * Parser) CompileFailure :=
  let? found := has text p in
  Ok (found, if found then advance p else p).
Arguments take_text text%_string p.

Definition expect (text : string) (p : Parser) : result Parser CompileFailure :=
  let? (found, p) := take_text text p in
  if found then Ok p else error "unexpected token or unsupported syntax" p.
Arguments expect text%_string p.

Definition emit (s : Step) (p : Parser) : result (nat * Parser) CompileFailure :=
  if MAX_INSTRUCTIONS <=? len (instructions p) then error "instruction limit exceeded" p
  else Ok (length (instructions p), set_instructions (instructions p ++ [s]) p).

(** [self.instructions[index] = step]. *)
Definition patch (index : nat) (s : Step) (p : Parser) : result Parser CompileFailure :=
  if bool_decide (index < length (instructions p))%nat
  then Ok (set_instructions (<[index := s]> (instructions p)) p)
  else Err CompilePanic.

Definition register (ty : Typ) (p : Parser) : result (Value * Parser) CompileFailure :=
  if MAX_INSTRUCTIONS <=? Z.of_nat (registers p) then error "instruction limit exceeded" p
  else Ok (mkValue (registers p) ty, set_registers (S (registers p)) p).

Definition typed (value : Value) (ty : Typ) (p : Parser) : result unit CompileFailure :=
  if bool_decide (v_ty value = ty) then Ok tt else error "incompatible value type" p.

(** The innermost binding.  The vector of scopes grows at its end; the model lists the
    innermost scope first. *)
Fixpoint find_binding (name : bytes) (ss : list Scope) : option Binding :=
  match ss with
  | [] => None
  | s :: ss => match bt_get name s with Some b => Some b | None => find_binding name ss end
  end.
Definition binding_for (name : bytes) (p : Parser) : option Binding := find_binding name (scopes p).

Definition key (p : Parser) : result (nat * Parser) CompileFailure :=
  let? t := peek p in
  match tok_kind t with
  | Key text =>
      let p := set_context (advance p) in
      match bt_get text (keys p) with
      | Some index => Ok (index, p)
      | None =>
          if MAX_STATE_KEYS <=? len (keys p) then error "state key count limit exceeded" p
          else Ok (length (keys p), set_keys (bt_insert text (length (keys p)) (keys p)) p)
      end
  | _ => error "literal state key required" p
  end.

(** ** Expressions *)

Definition symbol_of (k : TokenKind) : option bytes :=
  match k with Symbol s => Some s | _ => None end.

(** Operators by increasing binding strength. *)
Definition precedence_of (s : bytes) : option Z :=
  if bool_decide (s ∈ map lit ["||"]%string) then Some 1
  else if bool_decide (s ∈ map lit ["&&"]%string) then Some 2
  else if bool_decide (s ∈ map lit ["=="; "!="]%string) then Some 3
  else if bool_decide (s ∈ map lit ["<"; "<="; ">"; ">="]%string) then Some 4
  else if bool_decide (s ∈ map lit ["+"; "-"]%string) then Some 5
  else if bool_decide (s ∈ map lit ["*"; "/"; "%"]%string) then Some 6
  else None.

Definition is_text (s : bytes) (text : string) : bool := bool_decide (s = lit text).
Arguments is_text s text%_string.

Definition binary_type (operator : bytes) (lhs rhs : Value) (p : Parser)
    : result (Binary * Typ) CompileFailure :=
  if is_text operator "==" || is_text operator "!=" then
    if bool_decide (v_ty lhs = v_ty rhs) then
      Ok (if is_text operator "==" then Equal else NotEqual, Boolean)
    else error "comparison operand types differ" p
  else
    let? _ := typed lhs U64 p in
    let? _ := typed rhs U64 p in
    if is_text operator "<" then Ok (Less, Boolean)
    else if is_text operator "<=" then Ok (LessEqual, Boolean)
    else if is_text operator ">" then Ok (Greater, Boolean)
    else if is_text operator ">=" then Ok (GreaterEqual, Boolean)
    else Ok (Arithmetic (if is_text operator "+" then Add
                         else if is_text operator "-" then Subtract
                         else if is_text operator "*" then Multiply
                         else if is_text operator "/" then Divide
                         else Remainder), U64).

Definition limb (message : string) (p : Parser) : result (nat * Parser) CompileFailure :=
  let? t := peek p in
  match tok_kind t with
  | Number index =>
      if 3 <? index then error message p else Ok (Z.to_nat index, advance p)
  | _ => error message p
  end.
Arguments limb message%_string p.

(** One value into a fresh register. *)
Definition emit_value (ty : Typ) (s : nat → Step) (p : Parser) : result (Value * Parser) CompileFailure :=
  let? (value, p) := register ty p in
  let? (_, p) := emit (s (v_register value)) p in
  Ok (value, p).

Definition builtin_names : list bytes :=
  map lit ["state_get"; "height"; "caller"; "key_count"; "key_word"; "state_get_at"]%string.

Fixpoint expression (fuel : nat) (minimum depth : Z) (p : Parser) : result (Value * Parser) CompileFailure :=
  match fuel with
  | O => Err Unfinished
  | S fuel =>
      if MAX_NESTING <=? depth then error "expression nesting limit exceeded" p
      else
        let? (lhs, p) := atom fuel depth p in
        operators fuel minimum depth lhs p
  end
with operators (fuel : nat) (minimum depth : Z) (lhs : Value) (p : Parser)
    : result (Value * Parser) CompileFailure :=
  match fuel with
  | O => Err Unfinished
  | S fuel =>
      let? t := peek p in
      match symbol_of (tok_kind t) with
      | None => Ok (lhs, p)
      | Some operator =>
          match precedence_of operator with
          | None => Ok (lhs, p)
          | Some precedence =>
              if precedence <? minimum then Ok (lhs, p)
              else if is_text operator "&&" || is_text operator "||" then
                let p := advance p in
                let? _ := typed lhs Boolean p in
                let? (value, p) := register Boolean p in
                let? (_, p) := emit (Move (v_register value) (v_register lhs)) p in
                let? (branch, p) := emit (Branch (v_register lhs) 0 0) p in
                let start := length (instructions p) in
                let? (rhs, p) := expression fuel (precedence + 1) (depth + 1) p in
                let? _ := typed rhs Boolean p in
                let? (_, p) := emit (Move (v_register value) (v_register rhs)) p in
                let after := length (instructions p) in
                let? p := patch branch
                            (if is_text operator "&&" then Branch (v_register lhs) start after
                             else Branch (v_register lhs) after start) p in
                operators fuel minimum depth value p
              else
                let? (rhs, p) := expression fuel (precedence + 1) (depth + 1) (advance p) in
                let? (binary, ty) := binary_type operator lhs rhs p in
                let? (value, p) := emit_value ty (λ d, BinaryStep d binary (v_register lhs) (v_register rhs)) p in
                operators fuel minimum depth value p
          end
      end
  end
with atom (fuel : nat) (depth : Z) (p : Parser) : result (Value * Parser) CompileFailure :=
  match fuel with
  | O => Err Unfinished
  | S fuel =>
      let? t := peek p in
      match tok_kind t with
      | Number value => emit_value U64 (λ d, Constant d value) (advance p)
      | Symbol s =>
          if is_text s "!" then
            let? (source, p) := expression fuel 7 (depth + 1) (advance p) in
            let? _ := typed source Boolean p in
            emit_value Boolean (λ d, Not d (v_register source)) p
          else if is_text s "(" then
            let? (value, p) := expression fuel 0 (depth + 1) (advance p) in
            let? p := expect ")" p in
            Ok (value, p)
          else error "typed expression expected" p
      | Word name =>
          if is_text name "true" || is_text name "false" then
            emit_value Boolean (λ d, Constant d (flag (is_text name "true"))) (advance p)
          else if is_text name "input" then emit_value U64 Input (advance p)
          else if bool_decide (name ∈ builtin_names) then builtin fuel name depth p
          else
            match binding_for name p with
            | None => error "undefined local or unsupported expression" p
            | Some b => emit_value (b_ty b) (λ d, Load d (b_local b)) (advance p)
            end
      | _ => error "typed expression expected" p
      end
  end
with builtin (fuel : nat) (name : bytes) (depth : Z) (p : Parser) : result (Value * Parser) CompileFailure :=
  match fuel with
  | O => Err Unfinished
  | S fuel =>
      let? p := expect "(" (advance p) in
      let? (value, p) := register U64 p in
      let p := set_context p in
      let d := v_register value in
      let? (step, p) :=
        if is_text name "state_get" then
          let? (k, p) := key p in Ok (Get d k, p)
        else if is_text name "height" then Ok (Height d, p)
        else if is_text name "key_count" then Ok (KeyCount d, p)
        else if is_text name "state_get_at" then
          let? (k, p) := expression fuel 0 (depth + 1) p in
          let? _ := typed k U64 p in
          Ok (GetAt d (v_register k), p)
        else if is_text name "key_word" then
          let? (k, p) := expression fuel 0 (depth + 1) p in
          let? _ := typed k U64 p in
          let? p := expect "," p in
          let? (word, p) := limb "key word must be a literal 0..3" p in
          Ok (KeyWord d (v_register k) word, p)
        else
          let? (index, p) := limb "caller index must be a literal 0..3" p in
          Ok (Caller d index, p) in
      let? p := expect ")" p in
      let? (_, p) := emit step p in
      Ok (value, p)
  end.

(** ** Statements *)

(** Enough for every token to be a call, an operator, an atom and a builtin. *)
Definition parse_fuel (p : Parser) : nat := (5 * length (tokens p) + 5)%nat.

(** [self.expression(0, 0)] followed by [self.typed(value, ty)]. *)
Definition full_expression (p : Parser) : result (Value * Parser) CompileFailure :=
  expression (parse_fuel p) 0 0 p.
Definition typed_expression (ty : Typ) (p : Parser) : result (Value * Parser) CompileFailure :=
  let? (value, p) := full_expression p in
  let? _ := typed value ty p in
  Ok (value, p).

(** The end of a host statement: [");"] and its instruction. *)
Definition finish_host (s : Step) (p : Parser) : result Parser CompileFailure :=
  let? p := expect ")" p in
  let? p := expect ";" p in
  let? (_, p) := emit s p in
  Ok p.

Definition host_names : list bytes :=
  map lit ["state_set"; "state_delete"; "emit"; "state_set_at"; "state_delete_at"]%string.

Definition host_statement (name : bytes) (p : Parser) : result Parser CompileFailure :=
  let? p := expect "(" (advance p) in
  if is_text name "emit" then
    let? (topic, p) := typed_expression U64 p in
    let? p := expect "," p in
    let? (data, p) := typed_expression U64 p in
    let? p := expect ")" p in
    let? p := expect ";" p in
    let? (_, p) := emit (Emit (v_register topic) (v_register data)) (set_context p) in
    Ok p
  else if is_text name "state_set_at" || is_text name "state_delete_at" then
    let? (k, p) := typed_expression U64 (set_context p) in
    if is_text name "state_set_at" then
      let? p := expect "," p in
      let? (value, p) := typed_expression U64 p in
      finish_host (SetAt (v_register k) (v_register value)) p
    else finish_host (DeleteAt (v_register k)) p
  else
    let? (k, p) := key p in
    if is_text name "state_set" then
      let? p := expect "," p in
      let? (value, p) := typed_expression U64 p in
      finish_host (SetKey k (v_register value)) p
    else finish_host (Delete k) p.

Definition reserved : list bytes :=
  map lit ["input"; "fn"; "call"; "let"; "mut"; "return"; "u64"; "bool"; "true"; "false"; "if";
           "else"; "while"; "unsafe"; "extern"; "import"; "state_get"; "state_set";
           "state_delete"; "emit"; "height"; "caller"; "key_count"; "key_word"; "state_get_at";
           "state_set_at"; "state_delete_at"]%string.

(** [: u64] or [: bool], when there is one. *)
Definition declared_type (p : Parser) : result (option Typ * Parser) CompileFailure :=
  let? (colon, p) := take_text ":" p in
  if colon then
    let? (number, p) := take_text "u64" p in
    if number then Ok (Some U64, p)
    else
      let? (boolean, p) := take_text "bool" p in
      if boolean then Ok (Some Boolean, p) else error "only u64 and bool locals are supported" p
  else Ok (None, p).

(** [self.scopes.last_mut().expect(...).insert(name, binding)]. *)
Definition bind_local (name : bytes) (b : Binding) (p : Parser) : result Parser CompileFailure :=
  match scopes p with
  | [] => Err CompilePanic
  | s :: ss => Ok (set_scopes (bt_insert name b s :: ss) p)
  end.

Definition local_statement (p : Parser) : result Parser CompileFailure :=
  let? (mutable, p) := take_text "mut" p in
  let? t := peek p in
  match tok_kind t with
  | Word name =>
      if bool_decide (name ∈ reserved) then error "reserved local identifier" p
      else if match scopes p with s :: _ => bt_contains name s | [] => false end then
        error "local cannot be redefined in its scope" p
      else if MAX_LOCALS <=? Z.of_nat (locals p) then error "local binding limit exceeded" p
      else
        let? (declared, p) := declared_type (advance p) in
        let? p := expect "=" p in
        let? (value, p) := full_expression p in
        let? _ := match declared with Some ty => typed value ty p | None => Ok tt end in
        let? p := expect ";" p in
        let local := locals p in
        let? (_, p) := emit (Store local (v_register value) false) (set_locals (S local) p) in
        bind_local name (mkBinding local (v_ty value) mutable) p
  | _ => error "local identifier expected" p
  end.

Definition assignment (p : Parser) : result Parser CompileFailure :=
  let? t := peek p in
  match tok_kind t with
  | Word name =>
      match binding_for name p with
      | None => error "undefined assignment target" p
      | Some b =>
          if negb (b_mutable b) then error "assignment requires let mut" p
          else
            let? p := expect "=" (advance p) in
            let? (value, p) := typed_expression (b_ty b) p in
            let? p := expect ";" p in
            let? (_, p) := emit (Store (b_local b) (v_register value) true) p in
            Ok p
      end
  | _ => error "statement expected" p
  end.

Definition return_statement (p : Parser) : result Parser CompileFailure :=
  let? (value, p) := typed_expression U64 p in
  let? p := expect ";" p in
  let? (_, p) := emit (Return (v_register value)) p in
  Ok p.

(** The statements that contain no block: whether the next token starts a host call
    decides between a host statement and an assignment. *)
Definition plain_statement (p : Parser) : result Parser CompileFailure :=
  let? t := peek p in
  match tok_kind t with
  | Word name => if bool_decide (name ∈ host_names) then host_statement name p else assignment p
  | _ => assignment p
  end.

(** [block], its loop over the statements, and [statement]; each returns whether it
    always returns. *)
Fixpoint block (fuel : nat) (depth : Z) (p : Parser) : result (bool * Parser) CompileFailure :=
  match fuel with
  | O => Err Unfinished
  | S fuel =>
      if MAX_NESTING <=? depth then error "statement nesting limit exceeded" p
      else
        let? p := expect "{" p in
        let? (returns, p) := statements fuel depth false (set_scopes ([] :: scopes p) p) in
        let? p := expect "}" p in
        Ok (returns, set_scopes (tail (scopes p)) p)
  end
with statements (fuel : nat) (depth : Z) (returns : bool) (p : Parser)
    : result (bool * Parser) CompileFailure :=
  match fuel with
  | O => Err Unfinished
  | S fuel =>
      let? closing := has "}" p in
      if closing then Ok (returns, p)
      else
        let? t := peek p in
        if bool_decide (tok_kind t = End_) then error "closing brace expected" p
        else if returns then error "unreachable statement after unconditional return" p
        else
          let? (returns, p) := statement fuel depth p in
          statements fuel depth returns p
  end
with statement (fuel : nat) (depth : Z) (p : Parser) : result (bool * Parser) CompileFailure :=
  match fuel with
  | O => Err Unfinished
  | S fuel =>
      let? (is_let, p) := take_text "let" p in
      if is_let then let? p := local_statement p in Ok (false, p)
      else
        let? (is_return, p) := take_text "return" p in
        if is_return then let? p := return_statement p in Ok (true, p)
        else
          let? (is_if, p) := take_text "if" p in
          if is_if then if_statement fuel depth p
          else
            let? (is_while, p) := take_text "while" p in
            if is_while then while_statement fuel depth p
            else let? p := plain_statement p in Ok (false, p)
  end
with if_statement (fuel : nat) (depth : Z) (p : Parser) : result (bool * Parser) CompileFailure :=
  match fuel with
  | O => Err Unfinished
  | S fuel =>
      let? (condition, p) := typed_expression Boolean p in
      let? (branch, p) := emit (Branch (v_register condition) 0 0) p in
      let yes := length (instructions p) in
      let? (yes_returns, p) := block fuel (depth + 1) p in
      let? (skip, p) := if yes_returns then Ok (None, p)
                        else let? (skip, p) := emit (Jump 0) p in Ok (Some skip, p) in
      let no := length (instructions p) in
      let? (has_else, p) := take_text "else" p in
      let? (no_returns, p) := if has_else then block fuel (depth + 1) p else Ok (false, p) in
      let after := length (instructions p) in
      let? p := patch branch (Branch (v_register condition) yes no) p in
      let? p := match skip with Some skip => patch skip (Jump after) p | None => Ok p end in
      Ok (yes_returns && no_returns, p)
  end
with while_statement (fuel : nat) (depth : Z) (p : Parser) : result (bool * Parser) CompileFailure :=
  match fuel with
  | O => Err Unfinished
  | S fuel =>
      let start := length (instructions p) in
      let? (condition, p) := typed_expression Boolean p in
      let? (branch, p) := emit (Branch (v_register condition) 0 0) p in
      let yes := length (instructions p) in
      let? (body_returns, p) := block fuel (depth + 1) p in
      let? p := if body_returns then Ok p else let? (_, p) := emit (Jump start) p in Ok p in
      let no := length (instructions p) in
      let? p := patch branch (Branch (v_register condition) yes no) p in
      Ok (false, p)
  end.

(** ** The program *)

(** Static keys in canonical order, and the position of each one by first use. *)
Fixpoint key_mapping (entries : list (bytes * nat)) (mapping : list nat) (n : nat)
    : result (list nat) CompileFailure :=
  match entries with
  | [] => Ok mapping
  | (_, old) :: entries =>
      if bool_decide (old < length mapping)%nat
      then key_mapping entries (<[old := n]> mapping) (S n)
      else Err CompilePanic
  end.

Definition remap (mapping : list nat) (s : Step) : result Step CompileFailure :=
  match s with
  | Get d k => let? k := ok_or (mapping !! k) CompilePanic in Ok (Get d k)
  | SetKey k v => let? k := ok_or (mapping !! k) CompilePanic in Ok (SetKey k v)
  | Delete k => let? k := ok_or (mapping !! k) CompilePanic in Ok (Delete k)
  | s => Ok s
  end.

Fixpoint expect_all (texts : list string) (p : Parser) : result Parser CompileFailure :=
  match texts with
  | [] => Ok p
  | text :: texts => let? p := expect text p in expect_all texts p
  end.

Definition signature : list string := ["fn"; "call"; "("; "input"; ":"; "u64"; ")"; "->"; "u64"]%string.

Definition parse (source : bytes) : result CheckedProgram CompileFailure :=
  let? ts := lex source in
  let? p := expect_all signature (mkParser ts 0 [] 0 0 [] [] false) in
  let? (returns, p) := block (parse_fuel p) 0 p in
  if negb returns then error "every function path must return u64" p
  else
    let? t := peek p in
    if negb (bool_decide (tok_kind t = End_)) then
      error "trailing source or additional functions are unsupported" p
    else
      let? mapping := key_mapping (keys p) (replicate (length (keys p)) O) 0 in
      let? code := try_map (remap mapping) (instructions p) in
      Ok (mkChecked code (registers p) (locals p) (bt_keys (keys p)) (context p)).

(** ** Evaluation *)

Record ContractContext := mkContractContext {
  cc_height : Z;
  cc_caller : list Z;
  cc_keys : list bytes;
  cc_state : list (option Z);
  cc_access : list bool
}.

(** [windows(2).any(|pair| pair[0] >= pair[1])]. *)
Fixpoint unordered (xs : list bytes) : bool :=
  match xs with
  | x :: (y :: _) as rest => leb y x || unordered rest
  | _ => false
  end.

Definition starts_with (prefix xs : list bytes) : bool := bool_decide (take (length prefix) xs = prefix).

Definition validate (prefix : list bytes) (c : ContractContext) : result unit ExecutionError :=
  let count := len (cc_keys c) in
  reject_if ((MAX_STATE_KEYS <? count)
             || negb (len (cc_state c) =? count)
             || negb (len (cc_access c) =? count)
             || negb (starts_with prefix (cc_keys c))
             || existsb (λ k, (len k =? 0) || (MAX_STATE_KEY_BYTES <? len k)) (cc_keys c)
             || unordered (drop (length prefix) (cc_keys c))
             || negb (len (bt_collect (map (λ k, (k, tt)) (cc_keys c))) =? count))
    InvalidContext.

Record ContractExecution := mkContractExecution {
  ce_value : Z;
  ce_fuel_used : Z;
  ce_state : list (option Z);
  ce_writes : list bool;
  ce_events : list (Z * Z)
}.

(** What the loop mutates. *)
Record Machine := mkMachine {
  m_pc : nat;
  m_registers : list Z;
  m_locals : list Z;
  m_state : list (option Z);
  m_writes : list bool;
  m_events : list (Z * Z);
  m_used : Z
}.

(** Indexing panics out of range. *)
Definition index {A : Type} (xs : list A) (i : nat) : result A RunFailure := ok_or (xs !! i) RunPanic.
Definition update {A : Type} (xs : list A) (i : nat) (x : A) : result (list A) RunFailure :=
  if bool_decide (i < length xs)%nat then Ok (<[i := x]> xs) else Err RunPanic.

Definition checked_slot (i : Z) (c : ContractContext) : result nat RunFailure :=
  if len (cc_keys c) <=? i then Err (Failed Bounds)
  else
    let? allowed := index (cc_access c) (Z.to_nat i) in
    if negb allowed then Err (Failed AccessDenied) else Ok (Z.to_nat i).

(** The static slot of [Get], [SetKey] and [Delete]. *)
Definition static_slot (k : nat) (c : ContractContext) : result nat RunFailure :=
  let? allowed := index (cc_access c) k in
  if negb allowed then Err (Failed AccessDenied) else Ok k.

Section dispatch.
Context (program : CheckedProgram) (input : Z) (c : ContractContext) (fuel : Z).

(** [pc += 1] after writing a register. *)
Definition write_register (d : nat) (v : Z) (m : Machine) : result (Machine + ContractExecution) RunFailure :=
  let? registers := update (m_registers m) d v in
  Ok (inl (mkMachine (S (m_pc m)) registers (m_locals m) (m_state m) (m_writes m) (m_events m) (m_used m))).

Definition write_slot (k : nat) (v : option Z) (m : Machine) : result (Machine + ContractExecution) RunFailure :=
  let? state := update (m_state m) k v in
  let? writes := update (m_writes m) k true in
  Ok (inl (mkMachine (S (m_pc m)) (m_registers m) (m_locals m) state writes (m_events m) (m_used m))).

Definition jump (pc : nat) (m : Machine) : result (Machine + ContractExecution) RunFailure :=
  Ok (inl (mkMachine pc (m_registers m) (m_locals m) (m_state m) (m_writes m) (m_events m) (m_used m))).

Definition key_word (k : Z) (word : nat) : result Z RunFailure :=
  match cc_keys c !! Z.to_nat k with
  | None => Err (Failed Bounds)
  | Some bs =>
      if negb (len bs =? 32) then Err (Failed Bounds)
      else
        let? limb := ok_or (slice bs (Z.of_nat word * 8) (Z.of_nat word * 8 + 8)) RunPanic in
        Ok (from_le limb)
  end.

Definition execute (s : Step) (m : Machine) : result (Machine + ContractExecution) RunFailure :=
  let reg := index (m_registers m) in
  match s with
  | Constant d value => write_register d value m
  | Input d => write_register d input m
  | Load d l => let? v := index (m_locals m) l in write_register d v m
  | Store l source _ =>
      let? v := reg source in
      let? locals := update (m_locals m) l v in
      Ok (inl (mkMachine (S (m_pc m)) (m_registers m) locals (m_state m) (m_writes m) (m_events m) (m_used m)))
  | Move d source => let? v := reg source in write_register d v m
  | BinaryStep d operator lhs rhs =>
      let? lhs := reg lhs in
      let? rhs := reg rhs in
      let? v := map_err Failed (binary_apply operator lhs rhs) in
      write_register d v m
  | Not d source => let? v := reg source in write_register d (flag (v =? 0)) m
  | Branch condition yes no =>
      let? v := reg condition in
      jump (if negb (v =? 0) then yes else no) m
  | Jump next => jump next m
  | Return source =>
      let? v := reg source in
      Ok (inr (mkContractExecution v (m_used m) (m_state m) (m_writes m) (m_events m)))
  | Height d => write_register d (cc_height c) m
  | Caller d i => let? v := index (cc_caller c) i in write_register d v m
  | KeyCount d => write_register d (len (cc_keys c)) m
  | KeyWord d k word =>
      let? k := reg k in
      let? v := key_word k word in
      write_register d v m
  | GetAt d k =>
      let? k := reg k in
      let? k := checked_slot k c in
      let? v := index (m_state m) k in
      write_register d (default 0 v) m
  | SetAt k source =>
      let? k := reg k in
      let? k := checked_slot k c in
      let? v := reg source in
      write_slot k (Some v) m
  | DeleteAt k =>
      let? k := reg k in
      let? k := checked_slot k c in
      write_slot k None m
  | Get d k =>
      let? k := static_slot k c in
      let? v := index (m_state m) k in
      write_register d (default 0 v) m
  | SetKey k source =>
      let? k := static_slot k c in
      let? v := reg source in
      write_slot k (Some v) m
  | Delete k =>
      let? k := static_slot k c in
      write_slot k None m
  | Emit topic data =>
      if MAX_EVENTS <=? len (m_events m) then Err (Failed EventLimit)
      else
        let? topic := reg topic in
        let? data := reg data in
        Ok (inl (mkMachine (S (m_pc m)) (m_registers m) (m_locals m) (m_state m) (m_writes m)
                   (m_events m ++ [(topic, data)]) (m_used m)))
  end.

(** One pass through the loop: fetch, charge, execute. *)
Definition spend (m : Machine) : Machine :=
  mkMachine (m_pc m) (m_registers m) (m_locals m) (m_state m) (m_writes m) (m_events m) (m_used m + 1).

Definition dispatch (m : Machine) : result (Machine + ContractExecution) RunFailure :=
  match cp_instructions program !! m_pc m with
  | None => Err (Failed InvalidContext)
  | Some s =>
      if charged s then
        if fuel <=? m_used m then Err (Failed FuelExhausted) else execute s (spend m)
      else execute s m
  end.

(** A return asks the callback before it reads its register. *)
Definition returning (m : Machine) : bool :=
  match cp_instructions program !! m_pc m with Some (Return _) => true | _ => false end.

(** The loop, with the answers of the interrupt callback in the order it is asked. *)
Fixpoint evaluate_loop (interrupt : nat → bool) (gas : nat) (polls : nat) (dispatches : Z) (m : Machine)
    : result (option ContractExecution) RunFailure :=
  match gas with
  | O => Err Running
  | S gas =>
      let poll := dispatches =? 0 in
      if poll && interrupt polls then Ok None
      else
        let polls := if poll then S polls else polls in
        let dispatches := (dispatches + 1) mod 1024 in
        if returning m && interrupt polls then Ok None
        else
          let? next := dispatch m in
          match next with
          | inl m => evaluate_loop interrupt gas polls dispatches m
          | inr execution => Ok (Some execution)
          end
  end.

Definition initial : Machine :=
  mkMachine 0 (replicate (cp_registers program) 0) (replicate (cp_locals program) 0) (cc_state c)
    (replicate (length (cc_keys c)) false) [] 0.

(** Every dispatch is charged or moves forward: at most [fuel] charged ones, each
    followed by a straight run. *)
Definition gas_bound : nat := (S (Z.to_nat fuel) * S (length (cp_instructions program)))%nat.

Definition evaluate_with_interrupt (interrupt : nat → bool) : result (option ContractExecution) RunFailure :=
  let? _ := map_err Failed (validate (cp_keys program) c) in
  evaluate_loop interrupt gas_bound 0 0 initial.

(** [evaluate]: the callback that never interrupts. *)
Definition evaluate : result ContractExecution RunFailure :=
  let? r := evaluate_with_interrupt (λ _, false) in
  ok_or r RunPanic.
End dispatch.
