(* ===== verification/TroctoSource.v ===== *)
(** * TroctoSource: what Trocto programs mean

    The language itself, independently of the compiler: abstract syntax, the concrete
    grammar with its precedence levels, typing rules, and a definitional interpreter
    that charges one unit for every constant, read, operation, assignment and control
    edge ([Program::evaluate] of [src/crates/trocto-compiler/src/lib.rs] documents
    this).  The compiler is measured against these definitions. *)

From S2P Require Import Prelude Ordered Codec Trocto TroctoStateful.

(** ** Abstract syntax *)

Inductive connective :=
| CBinary (operator : Binary)
| CAnd
| COr.

Inductive expr :=
| ENumber (value : Z)
| EBool (value : bool)
| EInput
| ELocal (name : bytes)
| ENot (e : expr)
| EBin (c : connective) (lhs rhs : expr)
| EHeight
| ECaller (limb : nat)
| EKeyCount
| EKeyWord (slot : expr) (limb : nat)
| EStateGet (k : bytes)
| EStateGetAt (slot : expr).

Inductive stmt :=
| SLet (mutable : bool) (name : bytes) (declared : option Typ) (e : expr)
| SAssign (name : bytes) (e : expr)
| SReturn (e : expr)
| SIf (condition : expr) (yes no : body)
| SWhile (condition : expr) (inside : body)
| SStateSet (k : bytes) (e : expr)
| SStateDelete (k : bytes)
| SStateSetAt (slot e : expr)
| SStateDeleteAt (slot : expr)
| SEmit (topic data : expr)
with body :=
| BNil
| BCons (s : stmt) (rest : body).

Scheme stmt_body_ind := Induction for stmt Sort Prop
  with body_stmt_ind := Induction for body Sort Prop.
Combined Scheme syntax_ind from stmt_body_ind, body_stmt_ind.

(** Literal state keys of a program. *)
Fixpoint expr_keys (e : expr) : list bytes :=
  match e with
  | ENot e | EKeyWord e _ | EStateGetAt e => expr_keys e
  | EBin _ l r => expr_keys l ++ expr_keys r
  | EStateGet k => [k]
  | _ => []
  end.

Fixpoint stmt_keys (s : stmt) : list bytes :=
  match s with
  | SLet _ _ _ e | SAssign _ e | SReturn e | SStateDeleteAt e => expr_keys e
  | SIf e yes no => expr_keys e ++ body_keys yes ++ body_keys no
  | SWhile e b => expr_keys e ++ body_keys b
  | SStateSet k e => k :: expr_keys e
  | SStateDelete k => [k]
  | SStateSetAt a b | SEmit a b => expr_keys a ++ expr_keys b
  end
with body_keys (b : body) : list bytes :=
  match b with
  | BNil => []
  | BCons s b => stmt_keys s ++ body_keys b
  end.

(** Each of them once, in canonical order. *)
Definition static_keys (b : body) : list bytes := bt_keys (bt_collect (map (λ k, (k, tt)) (body_keys b))).

(** ** Grammar *)

Definition spelling (c : connective) : string :=
  match c with
  | COr => "||"
  | CAnd => "&&"
  | CBinary Equal => "=="
  | CBinary NotEqual => "!="
  | CBinary Less => "<"
  | CBinary LessEqual => "<="
  | CBinary Greater => ">"
  | CBinary GreaterEqual => ">="
  | CBinary (Arithmetic Add) => "+"
  | CBinary (Arithmetic Subtract) => "-"
  | CBinary (Arithmetic Multiply) => "*"
  | CBinary (Arithmetic Divide) => "/"
  | CBinary (Arithmetic Remainder) => "%"
  end%string.

(** From weakest to strongest. *)
Definition level (c : connective) : Z :=
  match c with
  | COr => 1
  | CAnd => 2
  | CBinary Equal | CBinary NotEqual => 3
  | CBinary (Less | LessEqual | Greater | GreaterEqual) => 4
  | CBinary (Arithmetic (Add | Subtract)) => 5
  | CBinary (Arithmetic (Multiply | Divide | Remainder)) => 6
  end.

(** A token spelled [text]. *)
Definition lexeme (text : string) (k : TokenKind) : Prop := text_is k text = true.
Arguments lexeme text%_string k.

Definition keyword (text : string) : TokenKind := Word (lit text).
Arguments keyword text%_string.
Definition sign (text : string) : TokenKind := Symbol (lit text).
Arguments sign text%_string.

Definition plain_name (name : bytes) : Prop :=
  (name ∉ map lit ["true"; "false"; "input"]%string) ∧ (name ∉ builtin_names).

(** [expr_toks m ts e]: the tokens [ts] spell [e], every operator outside parentheses
    being of level [m] or stronger.  Operators of one level associate to the left. *)
Inductive expr_toks : Z → list TokenKind → expr → Prop :=
| X_bin m c ts1 l ts2 r :
    m <= level c → expr_toks (level c) ts1 l → expr_toks (level c + 1) ts2 r →
    expr_toks m (ts1 ++ sign (spelling c) :: ts2) (EBin c l r)
| X_number m v : expr_toks m [Number v] (ENumber v)
| X_true m : expr_toks m [keyword "true"] (EBool true)
| X_false m : expr_toks m [keyword "false"] (EBool false)
| X_input m : expr_toks m [keyword "input"] EInput
| X_local m name : plain_name name → expr_toks m [Word name] (ELocal name)
| X_not m ts e : expr_toks 7 ts e → expr_toks m (sign "!" :: ts) (ENot e)
| X_paren m ts e close :
    expr_toks 0 ts e → lexeme ")" close → expr_toks m (sign "(" :: ts ++ [close]) e
| X_height m open close :
    lexeme "(" open → lexeme ")" close → expr_toks m [keyword "height"; open; close] EHeight
| X_key_count m open close :
    lexeme "(" open → lexeme ")" close → expr_toks m [keyword "key_count"; open; close] EKeyCount
| X_caller m i open close :
    lexeme "(" open → lexeme ")" close → i <= 3 →
    expr_toks m [keyword "caller"; open; Number i; close] (ECaller (Z.to_nat i))
| X_key_word m ts e i open comma close :
    lexeme "(" open → lexeme "," comma → lexeme ")" close → expr_toks 0 ts e → i <= 3 →
    expr_toks m (keyword "key_word" :: open :: ts ++ [comma; Number i; close]) (EKeyWord e (Z.to_nat i))
| X_state_get m k open close :
    lexeme "(" open → lexeme ")" close → expr_toks m [keyword "state_get"; open; Key k; close] (EStateGet k)
| X_state_get_at m ts e open close :
    lexeme "(" open → lexeme ")" close → expr_toks 0 ts e →
    expr_toks m (keyword "state_get_at" :: open :: ts ++ [close]) (EStateGetAt e).

(** An optional token and an optional type annotation. *)
Inductive optional (text : string) : bool → list TokenKind → Prop :=
| Opt_absent : optional text false []
| Opt_present k : lexeme text k → optional text true [k].
Arguments optional text%_string b ts.

Inductive annotation : option Typ → list TokenKind → Prop :=
| Ann_none : annotation None []
| Ann_u64 colon k : lexeme ":" colon → lexeme "u64" k → annotation (Some U64) [colon; k]
| Ann_bool colon k : lexeme ":" colon → lexeme "bool" k → annotation (Some Boolean) [colon; k].

Inductive stmt_toks : list TokenKind → stmt → Prop :=
| T_let mutable name declared e t ms anns ts equal semi :
    lexeme "let" t → optional "mut" mutable ms → annotation declared anns → lexeme "=" equal →
    expr_toks 0 ts e → lexeme ";" semi →
    stmt_toks (t :: ms ++ Word name :: anns ++ equal :: ts ++ [semi]) (SLet mutable name declared e)
| T_assign name e ts equal semi :
    lexeme "=" equal → expr_toks 0 ts e → lexeme ";" semi →
    stmt_toks (Word name :: equal :: ts ++ [semi]) (SAssign name e)
| T_return e t ts semi :
    lexeme "return" t → expr_toks 0 ts e → lexeme ";" semi → stmt_toks (t :: ts ++ [semi]) (SReturn e)
| T_if e yes t ts tys :
    lexeme "if" t → expr_toks 0 ts e → block_toks tys yes → stmt_toks (t :: ts ++ tys) (SIf e yes BNil)
| T_if_else e yes no t ts tys t2 tns :
    lexeme "if" t → expr_toks 0 ts e → block_toks tys yes → lexeme "else" t2 → block_toks tns no →
    stmt_toks (t :: ts ++ tys ++ t2 :: tns) (SIf e yes no)
| T_while e b t ts tbs :
    lexeme "while" t → expr_toks 0 ts e → block_toks tbs b → stmt_toks (t :: ts ++ tbs) (SWhile e b)
| T_state_set k e open comma ts close semi :
    lexeme "(" open → lexeme "," comma → expr_toks 0 ts e → lexeme ")" close → lexeme ";" semi →
    stmt_toks (keyword "state_set" :: open :: Key k :: comma :: ts ++ [close; semi]) (SStateSet k e)
| T_state_delete k open close semi :
    lexeme "(" open → lexeme ")" close → lexeme ";" semi →
    stmt_toks [keyword "state_delete"; open; Key k; close; semi] (SStateDelete k)
| T_state_set_at s e open ts1 comma ts2 close semi :
    lexeme "(" open → expr_toks 0 ts1 s → lexeme "," comma → expr_toks 0 ts2 e → lexeme ")" close →
    lexeme ";" semi →
    stmt_toks (keyword "state_set_at" :: open :: ts1 ++ comma :: ts2 ++ [close; semi]) (SStateSetAt s e)
| T_state_delete_at s open ts close semi :
    lexeme "(" open → expr_toks 0 ts s → lexeme ")" close → lexeme ";" semi →
    stmt_toks (keyword "state_delete_at" :: open :: ts ++ [close; semi]) (SStateDeleteAt s)
| T_emit a b open ts1 comma ts2 close semi :
    lexeme "(" open → expr_toks 0 ts1 a → lexeme "," comma → expr_toks 0 ts2 b → lexeme ")" close →
    lexeme ";" semi →
    stmt_toks (keyword "emit" :: open :: ts1 ++ comma :: ts2 ++ [close; semi]) (SEmit a b)
with body_toks : list TokenKind → body → Prop :=
| T_nil : body_toks [] BNil
| T_cons ts s rest b : stmt_toks ts s → body_toks rest b → body_toks (ts ++ rest) (BCons s b)
with block_toks : list TokenKind → body → Prop :=
| T_block open ts b close :
    lexeme "{" open → body_toks ts b → lexeme "}" close → block_toks (open :: ts ++ [close]) b.

(** [fn call(input: u64) -> u64 { ... }]. *)
Definition program_toks (ts : list TokenKind) (b : body) : Prop :=
  ∃ header inner, ts = header ++ inner ++ [End_]
    ∧ Forall2 lexeme signature header ∧ block_toks inner b.

(** ** Typing *)

(** Innermost scope first; each name with its type and whether it may be assigned. *)
Abbreviation TypeEnv := (list (BTreeMap bytes (Typ * bool))).

Fixpoint find_name {A : Type} (name : bytes) (env : list (BTreeMap bytes A)) : option A :=
  match env with
  | [] => None
  | s :: env => match bt_get name s with Some a => Some a | None => find_name name env end
  end.

Definition type_binary (b : Binary) (l r : Typ) : option Typ :=
  match b with
  | Equal | NotEqual => if bool_decide (l = r) then Some Boolean else None
  | Arithmetic _ => if bool_decide (l = U64 ∧ r = U64) then Some U64 else None
  | _ => if bool_decide (l = U64 ∧ r = U64) then Some Boolean else None
  end.

Definition type_connective (c : connective) (l r : Typ) : option Typ :=
  match c with
  | CBinary b => type_binary b l r
  | _ => if bool_decide (l = Boolean ∧ r = Boolean) then Some Boolean else None
  end.

Definition need (ty : Typ) (found : option Typ) (k : option Typ) : option Typ :=
  if bool_decide (found = Some ty) then k else None.

Fixpoint type_of (Γ : TypeEnv) (e : expr) : option Typ :=
  match e with
  | ENumber _ | EInput | EHeight | EKeyCount | EStateGet _ => Some U64
  | EBool _ => Some Boolean
  | ELocal name => fst <$> find_name name Γ
  | ENot e => need Boolean (type_of Γ e) (Some Boolean)
  | EBin c l r => l ← type_of Γ l; r ← type_of Γ r; type_connective c l r
  | ECaller i => if bool_decide (i <= 3)%nat then Some U64 else None
  | EKeyWord e i => if bool_decide (i <= 3)%nat then need U64 (type_of Γ e) (Some U64) else None
  | EStateGetAt e => need U64 (type_of Γ e) (Some U64)
  end.

Definition declare (name : bytes) (entry : Typ * bool) (Γ : TypeEnv) : option TypeEnv :=
  match Γ with
  | [] => None
  | s :: Γ => if bt_contains name s then None else Some (bt_insert name entry s :: Γ)
  end.

(** The environment behind the statement and whether it returns on every path.  No
    statement follows one that returns. *)
Fixpoint check_stmt (Γ : TypeEnv) (s : stmt) : option (TypeEnv * bool) :=
  match s with
  | SLet mutable name declared e =>
      ty ← type_of Γ e;
      if bool_decide (name ∈ reserved) || negb (bool_decide (declared = None ∨ declared = Some ty)) then None
      else Γ ← declare name (ty, mutable) Γ; Some (Γ, false)
  | SAssign name e =>
      match find_name name Γ with
      | Some (ty, true) => if bool_decide (type_of Γ e = Some ty) then Some (Γ, false) else None
      | _ => None
      end
  | SReturn e => if bool_decide (type_of Γ e = Some U64) then Some (Γ, true) else None
  | SIf e yes no =>
      if bool_decide (type_of Γ e = Some Boolean) then
        a ← check_body ([] :: Γ) yes; b ← check_body ([] :: Γ) no; Some (Γ, a && b)
      else None
  | SWhile e b =>
      if bool_decide (type_of Γ e = Some Boolean) then _ ← check_body ([] :: Γ) b; Some (Γ, false) else None
  | SStateDelete _ => Some (Γ, false)
  | SStateSet _ e | SStateDeleteAt e =>
      if bool_decide (type_of Γ e = Some U64) then Some (Γ, false) else None
  | SStateSetAt a b | SEmit a b =>
      if bool_decide (type_of Γ a = Some U64 ∧ type_of Γ b = Some U64) then Some (Γ, false) else None
  end
with check_body (Γ : TypeEnv) (b : body) : option bool :=
  match b with
  | BNil => Some false
  | BCons s b =>
      match check_stmt Γ s with
      | Some (Γ, false) => check_body Γ b
      | Some (_, true) => match b with BNil => Some true | BCons _ _ => None end
      | None => None
      end
  end.

(** A program: every path of its body returns a number. *)
Definition well_typed (b : body) : Prop := check_body [[]] b = Some true.

(** ** Meaning *)

Inductive value :=
| VNumber (z : Z)
| VBool (b : bool).

Definition type_of_value (v : value) : Typ := match v with VNumber _ => U64 | VBool _ => Boolean end.

(** How the machine represents a value. *)
Definition encode (v : value) : Z := match v with VNumber z => z | VBool b => flag b end.

(** A failure of the language, or a program that makes no sense. *)
Inductive SourceFailure :=
| Fault (error : ExecutionError)
| Wrong.

Definition fault (f : RunFailure) : SourceFailure :=
  match f with Failed e => Fault e | _ => Wrong end.

(** Slots, events and charged units. *)
Record world := mkWorld {
  w_state : list (option Z);
  w_writes : list bool;
  w_events : list (Z * Z);
  w_used : Z
}.

Abbreviation Env := (list (BTreeMap bytes value)).

Definition as_number (v : value) : result Z SourceFailure :=
  match v with VNumber z => Ok z | VBool _ => Err Wrong end.
Definition as_bool (v : value) : result bool SourceFailure :=
  match v with VBool b => Ok b | VNumber _ => Err Wrong end.

Definition compare_numbers (b : Binary) (x y : Z) : result value SourceFailure :=
  match b with
  | Arithmetic o => let? z := map_err Fault (operator_apply o x y) in Ok (VNumber z)
  | Equal => Ok (VBool (x =? y))
  | NotEqual => Ok (VBool (negb (x =? y)))
  | Less => Ok (VBool (x <? y))
  | LessEqual => Ok (VBool (x <=? y))
  | Greater => Ok (VBool (y <? x))
  | GreaterEqual => Ok (VBool (y <=? x))
  end.

Definition apply_binary (b : Binary) (x y : value) : result value SourceFailure :=
  match x, y with
  | VNumber x, VNumber y => compare_numbers b x y
  | VBool x, VBool y =>
      match b with
      | Equal => Ok (VBool (Bool.eqb x y))
      | NotEqual => Ok (VBool (negb (Bool.eqb x y)))
      | _ => Err Wrong
      end
  | _, _ => Err Wrong
  end.

(** The connectives that need their right operand only sometimes. *)
Definition decided (c : connective) (x : bool) : option value :=
  match c, x with
  | CAnd, false => Some (VBool false)
  | COr, true => Some (VBool true)
  | _, _ => None
  end.

Fixpoint assign (name : bytes) (v : value) (env : Env) : option Env :=
  match env with
  | [] => None
  | s :: env => if bt_contains name s then Some (bt_insert name v s :: env)
                else env ← assign name v env; Some (s :: env)
  end.

Definition bind (name : bytes) (v : value) (env : Env) : result Env SourceFailure :=
  match env with
  | [] => Err Wrong
  | s :: env => Ok (bt_insert name v s :: env)
  end.

Section meaning.
Context (input : Z) (c : ContractContext) (fuel : Z).

Definition charge (w : world) : result world SourceFailure :=
  if fuel <=? w_used w then Err (Fault FuelExhausted)
  else Ok (mkWorld (w_state w) (w_writes w) (w_events w) (w_used w + 1)).

(** The slot a literal key names. *)
Definition key_slot (k : bytes) : result nat SourceFailure :=
  let? (i, _) := ok_or (list_find (k =.) (cc_keys c)) Wrong in
  map_err fault (static_slot i c).

Definition read_slot (i : nat) (w : world) : result value SourceFailure :=
  let? v := ok_or (w_state w !! i) Wrong in
  Ok (VNumber (default 0 v)).

Definition write_world (i : nat) (v : option Z) (w : world) : world :=
  mkWorld (<[i := v]> (w_state w)) (<[i := true]> (w_writes w)) (w_events w) (w_used w).

(** Operands from left to right, then the charge, then the operation. *)
Fixpoint eval (env : Env) (e : expr) (w : world) : result (value * world) SourceFailure :=
  match e with
  | ENumber z => let? w := charge w in Ok (VNumber z, w)
  | EBool b => let? w := charge w in Ok (VBool b, w)
  | EInput => let? w := charge w in Ok (VNumber input, w)
  | ELocal name =>
      let? w := charge w in
      let? v := ok_or (find_name name env) Wrong in
      Ok (v, w)
  | ENot e =>
      let? (v, w) := eval env e w in
      let? w := charge w in
      let? b := as_bool v in
      Ok (VBool (negb b), w)
  | EBin (CBinary b) l r =>
      let? (x, w) := eval env l w in
      let? (y, w) := eval env r w in
      let? w := charge w in
      let? v := apply_binary b x y in
      Ok (v, w)
  | EBin c l r =>
      let? (x, w) := eval env l w in
      let? w := charge w in
      let? x := as_bool x in
      match decided c x with
      | Some v => Ok (v, w)
      | None =>
          let? (y, w) := eval env r w in
          let? y := as_bool y in
          Ok (VBool y, w)
      end
  | EHeight => let? w := charge w in Ok (VNumber (cc_height c), w)
  | ECaller i =>
      let? w := charge w in
      let? v := ok_or (cc_caller c !! i) Wrong in
      Ok (VNumber v, w)
  | EKeyCount => let? w := charge w in Ok (VNumber (len (cc_keys c)), w)
  | EKeyWord e i =>
      let? (k, w) := eval env e w in
      let? w := charge w in
      let? k := as_number k in
      let? v := map_err fault (key_word c k i) in
      Ok (VNumber v, w)
  | EStateGet k =>
      let? w := charge w in
      let? i := key_slot k in
      let? v := read_slot i w in
      Ok (v, w)
  | EStateGetAt e =>
      let? (k, w) := eval env e w in
      let? w := charge w in
      let? k := as_number k in
      let? i := map_err fault (checked_slot k c) in
      let? v := read_slot i w in
      Ok (v, w)
  end.

Definition eval_number (env : Env) (e : expr) (w : world) : result (Z * world) SourceFailure :=
  let? (v, w) := eval env e w in
  let? z := as_number v in
  Ok (z, w).

(** Evaluating a condition takes one control edge. *)
Definition eval_condition (env : Env) (e : expr) (w : world) : result (bool * world) SourceFailure :=
  let? (v, w) := eval env e w in
  let? w := charge w in
  let? b := as_bool v in
  Ok (b, w).

(** A returned number, or the environment to go on with. *)
Inductive outcome :=
| Returned (z : Z)
| Continues (env : Env).

Definition leave (o : outcome) : outcome :=
  match o with Continues env => Continues (tail env) | o => o end.

(** Every iteration charges, so that the remaining fuel bounds their number. *)
Fixpoint while_loop (condition : Env → world → result (bool * world) SourceFailure)
    (inside : Env → world → result (outcome * world) SourceFailure) (gas : nat) (env : Env) (w : world)
    : result (outcome * world) SourceFailure :=
  match gas with
  | O => Err Wrong
  | S gas =>
      let? (b, w) := condition env w in
      if b then
        let? (o, w) := inside env w in
        match leave o with
        | Continues env => let? w := charge w in while_loop condition inside gas env w
        | o => Ok (o, w)
        end
      else Ok (Continues env, w)
  end.

Fixpoint exec (env : Env) (s : stmt) (w : world) : result (outcome * world) SourceFailure :=
  match s with
  | SLet _ name _ e =>
      let? (v, w) := eval env e w in
      let? env := bind name v env in
      Ok (Continues env, w)
  | SAssign name e =>
      let? (v, w) := eval env e w in
      let? w := charge w in
      let? env := ok_or (assign name v env) Wrong in
      Ok (Continues env, w)
  | SReturn e => let? (z, w) := eval_number env e w in Ok (Returned z, w)
  | SIf e yes no =>
      let? (b, w) := eval_condition env e w in
      if b then
        let? (o, w) := exec_body ([] :: env) yes w in
        match leave o with
        | Continues env => let? w := charge w in Ok (Continues env, w)
        | o => Ok (o, w)
        end
      else
        let? (o, w) := exec_body ([] :: env) no w in
        Ok (leave o, w)
  | SWhile e inside =>
      while_loop (λ env w, eval_condition env e w) (λ env w, exec_body ([] :: env) inside w)
        (S (Z.to_nat (fuel - w_used w))) env w
  | SStateSet k e =>
      let? (z, w) := eval_number env e w in
      let? w := charge w in
      let? i := key_slot k in
      Ok (Continues env, write_world i (Some z) w)
  | SStateDelete k =>
      let? w := charge w in
      let? i := key_slot k in
      Ok (Continues env, write_world i None w)
  | SStateSetAt s e =>
      let? (k, w) := eval_number env s w in
      let? (z, w) := eval_number env e w in
      let? w := charge w in
      let? i := map_err fault (checked_slot k c) in
      Ok (Continues env, write_world i (Some z) w)
  | SStateDeleteAt s =>
      let? (k, w) := eval_number env s w in
      let? w := charge w in
      let? i := map_err fault (checked_slot k c) in
      Ok (Continues env, write_world i None w)
  | SEmit t d =>
      let? (t, w) := eval_number env t w in
      let? (d, w) := eval_number env d w in
      let? w := charge w in
      if MAX_EVENTS <=? len (w_events w) then Err (Fault EventLimit)
      else Ok (Continues env, mkWorld (w_state w) (w_writes w) (w_events w ++ [(t, d)]) (w_used w))
  end
with exec_body (env : Env) (b : body) (w : world) : result (outcome * world) SourceFailure :=
  match b with
  | BNil => Ok (Continues env, w)
  | BCons s b =>
      let? (o, w) := exec env s w in
      match o with
      | Continues env => exec_body env b w
      | o => Ok (o, w)
      end
  end.

(** A call: the context is checked against the literal keys of the program, and its
    effects are those of the body. *)
Definition run_source (b : body) : result ContractExecution SourceFailure :=
  let? _ := map_err Fault (validate (static_keys b) c) in
  let? (o, w) := exec_body [[]] b
                   (mkWorld (cc_state c) (replicate (length (cc_keys c)) false) [] 0) in
  match o with
  | Returned z => Ok (mkContractExecution z (w_used w) (w_state w) (w_writes w) (w_events w))
  | Continues _ => Err Wrong
  end.
End meaning.
