(* ===== verification/TroctoCompile.v ===== *)
(** * TroctoCompile: the one-pass front end is a parser followed by a code generator

    [gen_expr] and [gen_body] translate syntax trees into instructions with absolute
    branch targets.  Whenever the front end of version two accepts, the tokens it
    consumed spell a syntax tree, and the instructions it appended and patched are the
    ones generated for that tree. *)

From S2P Require Import Prelude Ordered Codec Trocto TroctoStateful TroctoSource.
From stdpp Require sorting.
From Stdlib Require Import Sorting.Sorted.

#[local] Arguments cmp : simpl never.

(** ** Code generation *)

Section gen.
Context (slot : bytes → nat).

Fixpoint gen_expr (sc : list Scope) (e : expr) (pc r : nat) : option (list Step * Value * nat) :=
  match e with
  | ENumber z => Some ([Constant r z], mkValue r U64, S r)
  | EBool b => Some ([Constant r (flag b)], mkValue r Boolean, S r)
  | EInput => Some ([Input r], mkValue r U64, S r)
  | ELocal name =>
      match find_binding name sc with
      | Some b => Some ([Load r (b_local b)], mkValue r (b_ty b), S r)
      | None => None
      end
  | ENot e =>
      match gen_expr sc e pc r with
      | Some (code, mkValue v Boolean, r) => Some (code ++ [Not r v], mkValue r Boolean, S r)
      | _ => None
      end
  | EBin (CBinary b) lhs rhs =>
      match gen_expr sc lhs pc r with
      | None => None
      | Some (cl, vl, r) =>
          match gen_expr sc rhs (pc + length cl) r with
          | None => None
          | Some (cr, vr, r) =>
              match type_binary b (v_ty vl) (v_ty vr) with
              | None => None
              | Some ty => Some (cl ++ cr ++ [BinaryStep r b (v_register vl) (v_register vr)], mkValue r ty, S r)
              end
          end
      end
  | EBin c lhs rhs =>
      match gen_expr sc lhs pc r with
      | Some (cl, mkValue vl Boolean, r) =>
          let start := (pc + length cl + 2)%nat in
          match gen_expr sc rhs start (S r) with
          | Some (cr, mkValue vr Boolean, r') =>
              let after := (start + length cr + 1)%nat in
              let branch := match c with CAnd => Branch vl start after | _ => Branch vl after start end in
              Some (cl ++ [Move r vl; branch] ++ cr ++ [Move r vr], mkValue r Boolean, r')
          | _ => None
          end
      | _ => None
      end
  | EHeight => Some ([Height r], mkValue r U64, S r)
  | ECaller i => if bool_decide (i <= 3)%nat then Some ([Caller r i], mkValue r U64, S r) else None
  | EKeyCount => Some ([KeyCount r], mkValue r U64, S r)
  | EKeyWord e i =>
      match gen_expr sc e pc (S r) with
      | Some (code, mkValue v U64, r') =>
          if bool_decide (i <= 3)%nat then Some (code ++ [KeyWord r v i], mkValue r U64, r') else None
      | _ => None
      end
  | EStateGet k => Some ([Get r (slot k)], mkValue r U64, S r)
  | EStateGetAt e =>
      match gen_expr sc e pc (S r) with
      | Some (code, mkValue v U64, r') => Some (code ++ [GetAt r v], mkValue r U64, r')
      | _ => None
      end
  end.

(** Code of a statement, with the scopes, locals and registers behind it and whether
    it returns on every path. *)
Record generated := mkGenerated {
  g_code : list Step;
  g_scopes : list Scope;
  g_locals : nat;
  g_registers : nat;
  g_returns : bool
}.

Definition gen_typed (ty : Typ) (sc : list Scope) (e : expr) (pc r : nat) : option (list Step * nat * nat) :=
  match gen_expr sc e pc r with
  | Some (code, mkValue v t, r) => if bool_decide (t = ty) then Some (code, v, r) else None
  | None => None
  end.

(** A host statement over two operands. *)
Definition gen_pair (step : nat → nat → Step) (sc : list Scope) (a b : expr) (l pc r : nat) : option generated :=
  match gen_typed U64 sc a pc r with
  | None => None
  | Some (ca, va, r) =>
      match gen_typed U64 sc b (pc + length ca) r with
      | None => None
      | Some (cb, vb, r) => Some (mkGenerated (ca ++ cb ++ [step va vb]) sc l r false)
      end
  end.

Definition gen_single (ty : Typ) (step : nat → Step) (returns : bool) (sc : list Scope) (e : expr) (l pc r : nat)
    : option generated :=
  match gen_typed ty sc e pc r with
  | None => None
  | Some (code, v, r) => Some (mkGenerated (code ++ [step v]) sc l r returns)
  end.

Fixpoint gen_stmt (sc : list Scope) (s : stmt) (l pc r : nat) : option generated :=
  match s with
  | SLet mutable name declared e =>
      match gen_expr sc e pc r, sc with
      | Some (code, v, r), s :: sc =>
          if bool_decide (name ∈ reserved) || bt_contains name s
             || negb (bool_decide (declared = None ∨ declared = Some (v_ty v))) then None
          else Some (mkGenerated (code ++ [Store l (v_register v) false])
                       (bt_insert name (mkBinding l (v_ty v) mutable) s :: sc) (S l) r false)
      | _, _ => None
      end
  | SAssign name e =>
      match find_binding name sc with
      | Some (mkBinding local ty true) => gen_single ty (λ v, Store local v true) false sc e l pc r
      | _ => None
      end
  | SReturn e => gen_single U64 Return true sc e l pc r
  | SIf e yes no =>
      match gen_typed Boolean sc e pc r with
      | None => None
      | Some (cc, v, r) =>
          let start := (pc + length cc + 1)%nat in
          match gen_body ([] :: sc) yes l start r with
          | None => None
          | Some gy =>
              let skip := if g_returns gy then O else 1%nat in
              let no_start := (start + length (g_code gy) + skip)%nat in
              match gen_body ([] :: sc) no (g_locals gy) no_start (g_registers gy) with
              | None => None
              | Some gn =>
                  let after := (no_start + length (g_code gn))%nat in
                  Some (mkGenerated (cc ++ [Branch v start no_start] ++ g_code gy
                                     ++ (if g_returns gy then [] else [Jump after]) ++ g_code gn)
                          sc (g_locals gn) (g_registers gn) (g_returns gy && g_returns gn))
              end
          end
      end
  | SWhile e b =>
      match gen_typed Boolean sc e pc r with
      | None => None
      | Some (cc, v, r) =>
          let start := (pc + length cc + 1)%nat in
          match gen_body ([] :: sc) b l start r with
          | None => None
          | Some g =>
              let back := if g_returns g then [] else [Jump pc] in
              let after := (start + length (g_code g) + length back)%nat in
              Some (mkGenerated (cc ++ [Branch v start after] ++ g_code g ++ back)
                      sc (g_locals g) (g_registers g) false)
          end
      end
  | SStateSet k e => gen_single U64 (SetKey (slot k)) false sc e l pc r
  | SStateDelete k => Some (mkGenerated [Delete (slot k)] sc l r false)
  | SStateSetAt a b => gen_pair SetAt sc a b l pc r
  | SStateDeleteAt e => gen_single U64 DeleteAt false sc e l pc r
  | SEmit a b => gen_pair Emit sc a b l pc r
  end
with gen_body (sc : list Scope) (b : body) (l pc r : nat) : option generated :=
  match b with
  | BNil => Some (mkGenerated [] sc l r false)
  | BCons s b =>
      match gen_stmt sc s l pc r with
      | None => None
      | Some g =>
          if g_returns g then match b with BNil => Some g | BCons _ _ => None end
          else
            match gen_body (g_scopes g) b (g_locals g) (pc + length (g_code g)) (g_registers g) with
            | None => None
            | Some h => Some (mkGenerated (g_code g ++ g_code h) (g_scopes h) (g_locals h) (g_registers h) (g_returns h))
            end
      end
  end.
End gen.

(** ** What a successful parse did *)

Definition kinds (p : Parser) : list TokenKind := map tok_kind (drop (pos p) (tokens p)).

(** Literal keys are numbered by first use. *)
Definition keys_ok (ks : BTreeMap bytes nat) : Prop := bt_ok ks ∧ bt_values ks ≡ₚ seq 0 (length ks).

Definition keys_step (ks ks' : BTreeMap bytes nat) (added : list bytes) : Prop :=
  keys_ok ks →
  keys_ok ks' ∧ (∀ k i, bt_get k ks = Some i → bt_get k ks' = Some i)
  ∧ ∀ k, k ∈ bt_keys ks' ↔ k ∈ bt_keys ks ∨ k ∈ added.

(** Tokens consumed, instructions appended, keys added. *)
Record emits (p p' : Parser) (ts : list TokenKind) (code : list Step) (added : list bytes) : Prop := {
  em_kinds : kinds p = ts ++ kinds p';
  em_code : instructions p' = instructions p ++ code;
  em_keys : keys_step (keys p) (keys p') added
}.

Lemma keys_step_refl ks : keys_step ks ks [].
Proof. intros Hok. split; [done|]. split; [done|]. set_solver. Qed.

Lemma keys_step_trans ks1 ks2 ks3 a b :
  keys_step ks1 ks2 a → keys_step ks2 ks3 b → keys_step ks1 ks3 (a ++ b).
Proof.
  intros H1 H2 Hok. destruct (H1 Hok) as (Hok2 & Hg2 & Hk2). destruct (H2 Hok2) as (Hok3 & Hg3 & Hk3).
  split; [done|]. split; [by auto|]. intros k. rewrite Hk3, Hk2, elem_of_app. tauto.
Qed.

Lemma emits_refl p p' :
  kinds p' = kinds p → instructions p' = instructions p → keys p' = keys p → emits p p' [] [] [].
Proof. intros Hk Hi Hs. split; [done|by rewrite app_nil_r|rewrite Hs; apply keys_step_refl]. Qed.

Lemma emits_trans p1 p2 p3 ts1 ts2 c1 c2 a b :
  emits p1 p2 ts1 c1 a → emits p2 p3 ts2 c2 b → emits p1 p3 (ts1 ++ ts2) (c1 ++ c2) (a ++ b).
Proof.
  intros [Hk1 Hi1 Hs1] [Hk2 Hi2 Hs2]. split.
  - by rewrite Hk1, Hk2, app_assoc.
  - by rewrite Hi2, Hi1, app_assoc.
  - by eapply keys_step_trans.
Qed.

Lemma peek_kinds p t : peek p = Ok t → kinds p = tok_kind t :: kinds (advance p).
Proof.
  unfold peek. intros H%ok_or_ok. unfold kinds, advance. cbn. by erewrite drop_S.
Qed.

Lemma emits_advance p t : peek p = Ok t → emits p (advance p) [tok_kind t] [] [].
Proof. intros H. split; [by apply peek_kinds|by rewrite app_nil_r|apply keys_step_refl]. Qed.

Lemma take_text_inv text p b p' :
  take_text text p = Ok (b, p') →
  if b then (∃ k, lexeme text k ∧ emits p p' [k] [] []) ∧ p' = advance p
  else p' = p ∧ ∃ t, peek p = Ok t ∧ text_is (tok_kind t) text = false.
Proof.
  unfold take_text, has. intros H. bind_inv H. bind_inv E. simplify_eq.
  destruct (text_is (tok_kind a0) text) eqn:Ht; [|eauto]. split; [|done]. eexists. split; [exact Ht|].
  by apply emits_advance.
Qed.

Lemma expect_inv text p p' :
  expect text p = Ok p' → (∃ k, lexeme text k ∧ emits p p' [k] [] []) ∧ p' = advance p.
Proof.
  unfold expect. intros H. bind_inv H. apply take_text_inv in E. case_in H.
  - by simplify_eq.
  - unfold error in H. by bind_inv H.
Qed.

Lemma error_inv {A : Type} message p (a : A) : error message p ≠ Ok a.
Proof. unfold error. intros H. by bind_inv H. Qed.

Lemma emit_inv s p i p' :
  emit s p = Ok (i, p') → i = length (instructions p) ∧ p' = set_instructions (instructions p ++ [s]) p.
Proof. unfold emit. intros H. case_in H; [by apply error_inv in H|]. by simplify_eq. Qed.

Lemma register_inv ty p v p' :
  register ty p = Ok (v, p') → v = mkValue (registers p) ty ∧ p' = set_registers (S (registers p)) p.
Proof. unfold register. intros H. case_in H; [by apply error_inv in H|]. by simplify_eq. Qed.

Lemma typed_inv v ty p u : typed v ty p = Ok u → v_ty v = ty.
Proof. unfold typed. intros H. case_in H; [done|]. by apply error_inv in H. Qed.

Lemma emit_value_inv ty s p v p' :
  emit_value ty s p = Ok (v, p') →
  v = mkValue (registers p) ty
  ∧ p' = set_instructions (instructions p ++ [s (registers p)]) (set_registers (S (registers p)) p).
Proof.
  unfold emit_value. intros H. bind_inv H. simplify_eq.
  apply register_inv in E as [-> ->]. apply emit_inv in E0 as [-> ->]. done.
Qed.

Lemma limb_inv message p i p' :
  limb message p = Ok (i, p') → ∃ z, z <= 3 ∧ i = Z.to_nat z ∧ emits p p' [Number z] [] [] ∧ p' = advance p.
Proof.
  unfold limb. intros H. bind_inv H. destruct (tok_kind a) eqn:Hk; try (by apply error_inv in H).
  case_in H; [by apply error_inv in H|]. simplify_eq. eexists. do 2 (split; [done|]).
  split; [|done]. rewrite <- Hk. by apply emits_advance.
Qed.

Lemma patch_inv i s p p' :
  patch i s p = Ok p' → (i < length (instructions p))%nat ∧ p' = set_instructions (<[i := s]> (instructions p)) p.
Proof. unfold patch. intros H. case_in H; by simplify_eq. Qed.

(** Patching replaces the placeholder the first part of the code ends with. *)
Lemma emits_patch p p' ts c1 x c2 a y i p'' :
  emits p p' ts (c1 ++ x :: c2) a → patch i y p' = Ok p'' → i = (length (instructions p) + length c1)%nat →
  emits p p'' ts (c1 ++ y :: c2) a ∧ p'' = set_instructions (instructions p ++ c1 ++ y :: c2) p'.
Proof.
  intros [Hk Hi Hs] [Hl ->]%patch_inv ->.
  assert (<[(length (instructions p) + length c1)%nat:=y]> (instructions p')
          = instructions p ++ c1 ++ y :: c2) as ->.
  { rewrite Hi. rewrite insert_app_r. rewrite <- (Nat.add_0_r (length c1)) at 1. by rewrite insert_app_r. }
  split; [|done]. split; [done|done|done].
Qed.

Definition agrees (slot : bytes → nat) (ks : BTreeMap bytes nat) : Prop :=
  ∀ k i, bt_get k ks = Some i → slot k = i.

Lemma agrees_before slot p p' ts code added :
  emits p p' ts code added → keys_ok (keys p) → agrees slot (keys p') → agrees slot (keys p).
Proof. intros [_ _ Hs] Hok Ha k i Hg. destruct (Hs Hok) as (_ & Hext & _). eauto. Qed.

Lemma emits_keys_ok p p' ts code added : emits p p' ts code added → keys_ok (keys p) → keys_ok (keys p').
Proof. intros [_ _ Hs] Hok. by destruct (Hs Hok). Qed.

Lemma keys_step_insert k ks :
  bt_get k ks = None → keys_step ks (bt_insert k (length ks) ks) [k].
Proof.
  intros Hk [Hok Hp]. pose proof (bt_insert_fresh_perm k (length ks) ks Hk) as Hperm.
  assert (length (bt_insert k (length ks) ks) = S (length ks)) as Hl by by rewrite Hperm.
  split; [split|split].
  - by apply bt_ok_insert.
  - rewrite Hl, seq_S. unfold bt_values. rewrite Hperm. cbn. unfold bt_values in Hp. rewrite Hp.
    by rewrite Permutation_app_comm.
  - intros k' i Hg. rewrite bt_get_insert_ne; [done|]. intros ->. congruence.
  - intros k'. rewrite bt_keys_insert. set_solver.
Qed.

Lemma key_inv p i p' :
  key p = Ok (i, p') →
  ∃ k, emits p p' [Key k] [] [k] ∧ bt_get k (keys p') = Some i
    ∧ scopes p' = scopes p ∧ locals p' = locals p ∧ registers p' = registers p.
Proof.
  unfold key. intros H. bind_inv H. apply peek_kinds in E.
  destruct (tok_kind a) as [| |k| |] eqn:Hk; try (by apply error_inv in H).
  change (keys (set_context (advance p))) with (keys p) in H. exists k.
  destruct (bt_get k (keys p)) as [j|] eqn:Hg.
  - simplify_eq. split; [split|done]; [done|by rewrite app_nil_r|].
    intros Hok. split; [done|]. split; [done|]. intros k'. rewrite list_elem_of_singleton.
    split; [tauto|]. intros [?| ->]; [done|]. apply bt_key_get. eauto.
  - case_in H; [by apply error_inv in H|]. simplify_eq.
    split; [split|]; [done|by rewrite app_nil_r|by apply keys_step_insert|].
    split; [apply bt_get_insert_eq|done].
Qed.

(** ** Expressions *)

Definition expr_result (m : Z) (p : Parser) (v : Value) (p' : Parser) (e : expr) : Prop :=
  ∃ ts code, emits p p' ts code (expr_keys e) ∧ scopes p' = scopes p ∧ locals p' = locals p
    ∧ expr_toks m ts e
    ∧ (keys_ok (keys p) → ∀ slot, agrees slot (keys p') →
       gen_expr slot (scopes p) e (length (instructions p)) (registers p) = Some (code, v, registers p')).

(** The next token is no operator of level [m] or stronger. *)
Definition stops (m : Z) (p : Parser) : Prop :=
  ∀ s rest pr, kinds p = Symbol s :: rest → precedence_of s = Some pr → pr < m.

Lemma expr_toks_weaken m m' ts e : expr_toks m ts e → m' <= m → expr_toks m' ts e.
Proof. intros H. destruct H; intros; econstructor; eauto. lia. Qed.

(** Operators of the language are spelled as the front end reads them. *)
Lemma precedence_inv s pr :
  precedence_of s = Some pr → ∃ c, s = lit (spelling c) ∧ level c = pr.
Proof.
  unfold precedence_of. intros H.
  repeat case_in H; simplify_eq;
    match goal with Hin : s ∈ _ |- _ => apply list_elem_of_In in Hin; cbn in Hin; destruct_or? Hin end;
    try done; subst s;
    first [by exists COr | by exists CAnd | by exists (CBinary Equal) | by exists (CBinary NotEqual)
      | by exists (CBinary Less) | by exists (CBinary LessEqual) | by exists (CBinary Greater)
      | by exists (CBinary GreaterEqual) | by exists (CBinary (Arithmetic Add))
      | by exists (CBinary (Arithmetic Subtract)) | by exists (CBinary (Arithmetic Multiply))
      | by exists (CBinary (Arithmetic Divide)) | by exists (CBinary (Arithmetic Remainder))].
Qed.

(** Compare literal spellings. *)
Ltac spell H :=
  cbn [spelling] in H;
  repeat match type of H with
  | context [is_text (lit ?a) ?b] =>
      let v := eval vm_compute in (is_text (lit a) b) in change (is_text (lit a) b) with v in H
  end; cbn [orb] in H.

Lemma binary_type_inv c l r p b ty :
  binary_type (lit (spelling c)) l r p = Ok (b, ty) →
  is_text (lit (spelling c)) "&&" || is_text (lit (spelling c)) "||" = false →
  c = CBinary b ∧ type_binary b (v_ty l) (v_ty r) = Some ty.
Proof.
  intros H Hs. unfold binary_type in H. destruct c as [[[]| | | | | |]| |]; spell Hs; try discriminate Hs; spell H.
  all: try (case_in H; [|by apply error_inv in H]; simplify_eq; split; [done|]; cbn; by rewrite bool_decide_true).
  all: bind_inv H; repeat match goal with E : typed _ _ _ = Ok _ |- _ => apply typed_inv in E end;
    simplify_eq; split; [done|]; cbn; by rewrite bool_decide_true.
Qed.

Lemma emits_eq p p' ts ts' c c' a a' :
  emits p p' ts c a → ts = ts' → c = c' → a = a' → emits p p' ts' c' a'.
Proof. by intros ? -> -> ->. Qed.

Lemma emits_emit s p : emits p (set_instructions (instructions p ++ [s]) p) [] [s] [].
Proof. split; [done|done|apply keys_step_refl]. Qed.

Lemma emits_value s p n : emits p (set_instructions (instructions p ++ [s]) (set_registers n p)) [] [s] [].
Proof. split; [done|done|apply keys_step_refl]. Qed.

(** Chain consecutive steps, then compare what they did with what is claimed. *)
Ltac chain :=
  lazymatch goal with
  | |- emits _ _ _ _ _ =>
      eapply emits_eq;
      [ repeat first [eassumption | eapply emits_advance; eassumption | eapply emits_emit | eapply emits_value
                     | eapply emits_trans; [first [eassumption | eapply emits_advance; eassumption
                                                  | eapply emits_emit | eapply emits_value]|]]
      | rewrite ?app_nil_r, ?app_nil_l, <- ?app_assoc; try done .. ]
  end.

Lemma code_length p p' ts code a : emits p p' ts code a → length (instructions p') = (length (instructions p) + length code)%nat.
Proof. intros [_ -> _]. by rewrite length_app. Qed.

Lemma binary_result q p0 p p1 p2 t lhs rhs value b ty e1 e2 :
  expr_result q p0 lhs p e1 → level (CBinary b) <= q → peek p = Ok t → tok_kind t = sign (spelling (CBinary b)) →
  expr_result (level (CBinary b) + 1) (advance p) rhs p1 e2 → type_binary b (v_ty lhs) (v_ty rhs) = Some ty →
  emit_value ty (λ d, BinaryStep d b (v_register lhs) (v_register rhs)) p1 = Ok (value, p2) →
  expr_result (level (CBinary b)) p0 value p2 (EBin (CBinary b) e1 e2).
Proof.
  intros (ts1 & c1 & E1 & Hs1 & Hl1 & T1 & G1) Hq Hp Ht (ts2 & c2 & E2 & Hs2 & Hl2 & T2 & G2) Hty
    [-> ->]%emit_value_inv.
  exists (ts1 ++ tok_kind t :: ts2), (c1 ++ c2 ++ [BinaryStep (registers p1) b (v_register lhs) (v_register rhs)]).
  split; [chain|]. cbn in Hs2, Hl2. split; [by cbn; rewrite Hs2|]. split; [by cbn; rewrite Hl2|].
  split; [rewrite Ht; econstructor; [done|by eapply expr_toks_weaken|done]|].
  intros Hok slot Ha. pose proof (emits_keys_ok _ _ _ _ _ E1 Hok) as Hok1.
  pose proof (agrees_before _ _ _ _ _ _ E2 Hok1 Ha) as Ha1.
  cbn [gen_expr]. rewrite (G1 Hok _ Ha1). specialize (G2 Hok1 _ Ha). cbn in G2.
  rewrite Hs1, (code_length _ _ _ _ _ E1) in G2. rewrite G2. by rewrite Hty.
Qed.

Lemma logic_result q p0 p p1 p2 p3 p4 p5 p6 t lhs rhs value branch i1 i2 c e1 e2 u1 u2 :
  (c = CAnd ∨ c = COr) →
  expr_result q p0 lhs p e1 → level c <= q → peek p = Ok t → tok_kind t = sign (spelling c) →
  typed lhs Boolean (advance p) = Ok u1 → register Boolean (advance p) = Ok (value, p1) →
  emit (Move (v_register value) (v_register lhs)) p1 = Ok (i1, p2) →
  emit (Branch (v_register lhs) 0 0) p2 = Ok (branch, p3) →
  expr_result (level c + 1) p3 rhs p4 e2 → typed rhs Boolean p4 = Ok u2 →
  emit (Move (v_register value) (v_register rhs)) p4 = Ok (i2, p5) →
  patch branch (match c with CAnd => Branch (v_register lhs) (length (instructions p3)) (length (instructions p5))
                | _ => Branch (v_register lhs) (length (instructions p5)) (length (instructions p3)) end) p5 = Ok p6 →
  expr_result (level c) p0 value p6 (EBin c e1 e2).
Proof.
  intros Hc (ts1 & c1 & E1 & Hs1 & Hl1 & T1 & G1) Hq Hp Ht Hb1%typed_inv [-> ->]%register_inv [_ ->]%emit_inv
    [-> ->]%emit_inv (ts2 & c2 & E2 & Hs2 & Hl2 & T2 & G2) Hb2%typed_inv [_ ->]%emit_inv Hpatch.
  cbn [v_register v_ty registers advance set_pos set_registers set_instructions instructions scopes locals keys] in *.
  set (p3 := set_instructions _ (set_instructions _ _)) in *.
  assert (emits p0 p3 (ts1 ++ [tok_kind t]) (c1 ++ [Move (registers p) (v_register lhs); Branch (v_register lhs) 0 0])
            (expr_keys e1)) as E3.
  { destruct (emits_trans _ _ _ _ _ _ _ _ _ E1 (emits_advance _ _ Hp)) as [Hk Hi Hks].
    rewrite !app_nil_r in *. change (instructions p = instructions p0 ++ c1) in Hi.
    split; [done| |done]. unfold p3. cbn. rewrite Hi. by rewrite <- !app_assoc. }
  pose proof (emits_trans _ _ _ _ _ _ _ _ _ E3 (emits_trans _ _ _ _ _ _ _ _ _ E2 (emits_emit (Move (registers p) (v_register rhs)) p4)))
    as E4.
  rewrite !app_nil_r in E4.
  assert (length (instructions p3) = (length (instructions p0) + length c1 + 2)%nat) as Hl3.
  { rewrite (code_length _ _ _ _ _ E3). len_lia. rewrite length_app. cbn. lia. }
  assert (length (instructions p4 ++ [Move (registers p) (v_register rhs)])
          = (length (instructions p3) + length c2 + 1)%nat) as Hl5.
  { rewrite length_app, (code_length _ _ _ _ _ E2). cbn. lia. }
  change (length ((instructions p ++ [Move (registers p) (v_register lhs)]) ++ [Branch (v_register lhs) 0 0]))
    with (length (instructions p3)) in *.
  replace ((c1 ++ [Move (registers p) (v_register lhs); Branch (v_register lhs) 0 0])
           ++ c2 ++ [Move (registers p) (v_register rhs)])
    with ((c1 ++ [Move (registers p) (v_register lhs)]) ++ Branch (v_register lhs) 0 0
           :: (c2 ++ [Move (registers p) (v_register rhs)])) in E4 by by rewrite <- !app_assoc.
  destruct (emits_patch _ _ _ _ _ _ _ _ _ _ E4 Hpatch) as [E6 ->].
  { rewrite !length_app. cbn. rewrite (code_length _ _ _ _ _ E1). lia. }
  eexists (ts1 ++ tok_kind t :: ts2), _. split; [chain|]. cbn [scopes locals set_instructions].
  split; [by rewrite Hs2|]. split; [by rewrite Hl2|].
  split; [rewrite Ht; econstructor; [done|by eapply expr_toks_weaken|done]|].
  intros Hok slot Ha. change (agrees slot (keys p4)) in Ha.
  pose proof (emits_keys_ok _ _ _ _ _ E1 Hok) as Hok1.
  pose proof (agrees_before _ p3 _ _ _ _ E2 Hok1 Ha) as Ha1.
  specialize (G1 Hok _ Ha1). specialize (G2 Hok1 _ Ha). rewrite Hs1, Hl3 in G2. rewrite Hl5, Hl3.
  destruct lhs as [vl ?], rhs as [vr ?]. cbn in Hb1, Hb2. subst.
  destruct Hc as [-> | ->]; cbn [gen_expr v_register registers set_instructions]; rewrite G1, G2;
    by rewrite <- ?app_assoc.
Qed.

Lemma leaf_result p p' t ty s v e :
  peek p = Ok t → emit_value ty s (advance p) = Ok (v, p') → expr_keys e = [] → expr_toks 7 [tok_kind t] e →
  (∀ slot, gen_expr slot (scopes p) e (length (instructions p)) (registers p)
           = Some ([s (registers p)], mkValue (registers p) ty, S (registers p))) →
  expr_result 7 p v p' e.
Proof.
  intros Hp [-> ->]%emit_value_inv Hk Ht Hg. exists [tok_kind t], [s (registers p)].
  split; [rewrite Hk; chain|]. cbn. split; [done|]. split; [done|]. split; [done|]. intros _ slot _. apply Hg.
Qed.

Lemma not_result p p1 p2 t src v e u :
  peek p = Ok t → tok_kind t = sign "!" → expr_result 7 (advance p) src p1 e → typed src Boolean p1 = Ok u →
  emit_value Boolean (λ d, Not d (v_register src)) p1 = Ok (v, p2) → expr_result 7 p v p2 (ENot e).
Proof.
  intros Hp Ht (ts & c & E & Hs & Hl & T & G) Hty%typed_inv [-> ->]%emit_value_inv.
  exists (tok_kind t :: ts), (c ++ [Not (registers p1) (v_register src)]).
  split; [cbn [expr_keys]; chain|]. split; [done|]. split; [done|]. split; [rewrite Ht; by constructor|].
  intros Hok slot Ha. specialize (G Hok slot Ha). cbn in G |- *. rewrite G.
  destruct src as [? ?]. cbn in Hty. by subst.
Qed.

Lemma paren_result p p1 p2 t v e :
  peek p = Ok t → tok_kind t = sign "(" → expr_result 0 (advance p) v p1 e → expect ")" p1 = Ok p2 →
  expr_result 7 p v p2 e.
Proof.
  intros Hp Ht (ts & c & E & Hs & Hl & T & G) [(k & Hk & E2) ->]%expect_inv.
  exists (tok_kind t :: ts ++ [k]), c.
  split; [chain|]. split; [done|]. split; [done|]. split; [rewrite Ht; by constructor|]. exact G.
Qed.

(** A host read without operands: name, opening, literal, closing. *)
Lemma host_leaf_result p p1 p3 p4 p5 p6 t v s i e lits added :
  peek p = Ok t → expect "(" (advance p) = Ok p1 → register U64 p1 = Ok (v, p3) →
  emits (set_context p3) p4 lits [] added → scopes p4 = scopes p → locals p4 = locals p →
  registers p4 = S (registers p) → expect ")" p4 = Ok p5 → expr_keys e = added →
  (∀ open close, lexeme "(" open → lexeme ")" close → expr_toks 7 (tok_kind t :: open :: lits ++ [close]) e) →
  (keys_ok (keys p) → ∀ slot, agrees slot (keys p4) →
     gen_expr slot (scopes p) e (length (instructions p)) (registers p)
     = Some ([s], mkValue (registers p) U64, S (registers p))) →
  emit s p5 = Ok (i, p6) → expr_result 7 p v p6 e.
Proof.
  intros Hp [(open & Ho & E1) ->]%expect_inv [-> ->]%register_inv E2 Hs Hl Hr [(close & Hc & E3) ->]%expect_inv
    Hk HT HG [-> ->]%emit_inv.
  assert (emits (advance (advance p)) p4 lits [] added) as E2'.
  { destruct E2. by split. }
  assert (instructions p4 = instructions p) as Hi.
  { destruct E2' as [_ H _]. by rewrite app_nil_r in H. }
  exists (tok_kind t :: open :: lits ++ [close]), [s].
  split; [rewrite Hk|].
  - eapply emits_eq; [eapply emits_trans; [by apply emits_advance|]; eapply emits_trans; [exact E1|];
      eapply emits_trans; [exact E2'|]; eapply emits_trans; [exact E3|]; apply (emits_emit s (advance p4))|..];
      cbn; by rewrite ?app_nil_r.
  - split; [done|]. split; [done|]. split; [by apply HT|]. intros Hok slot Ha. cbn [registers set_instructions advance set_pos].
    rewrite Hr. by apply HG.
Qed.

(** A host read with an operand. *)
Lemma host_operand_result p p1 p3 p4 p5 p6 p7 t v k s i e1 e lits u :
  peek p = Ok t → expect "(" (advance p) = Ok p1 → register U64 p1 = Ok (v, p3) →
  expr_result 0 (set_context p3) k p4 e1 → typed k U64 p4 = Ok u →
  emits p4 p5 lits [] [] → p5 = set_pos (pos p5) p4 → expect ")" p5 = Ok p6 → expr_keys e = expr_keys e1 →
  (∀ ts open close, expr_toks 0 ts e1 → lexeme "(" open → lexeme ")" close →
     expr_toks 7 (tok_kind t :: open :: ts ++ lits ++ [close]) e) →
  (∀ slot sc pc r code w r', gen_expr slot sc e1 pc (S r) = Some (code, mkValue w U64, r') →
     gen_expr slot sc e pc r = Some (code ++ [s r w], mkValue r U64, r')) →
  emit (s (registers p) (v_register k)) p6 = Ok (i, p7) → expr_result 7 p v p7 e.
Proof.
  intros Hp [(open & Ho & E1) ->]%expect_inv [-> ->]%register_inv (ts & c & E2 & Hs & Hl & T & G)
    Hty%typed_inv E3 H5 [(close & Hc & E4) ->]%expect_inv Hk HT HG [-> ->]%emit_inv.
  assert (emits (advance (advance p)) p4 ts c (expr_keys e1)) as E2' by by destruct E2.
  exists (tok_kind t :: open :: ts ++ lits ++ [close]), (c ++ [s (registers p) (v_register k)]).
  split; [rewrite Hk|].
  - eapply emits_eq; [eapply emits_trans; [by apply emits_advance|]; eapply emits_trans; [exact E1|];
      eapply emits_trans; [exact E2'|]; eapply emits_trans; [exact E3|]; eapply emits_trans; [exact E4|];
      apply (emits_emit _ (advance p5))|..]; cbn; by rewrite ?app_nil_r, <- ?app_assoc.
  - rewrite H5. cbn [scopes locals registers keys set_instructions advance set_pos]. split; [done|]. split; [done|].
    split; [by apply HT|]. intros Hok slot Ha. specialize (G Hok slot Ha). cbn in G. apply HG. rewrite G.
    destruct k as [? ?]. cbn in Hty. by subst.
Qed.

Lemma is_text_true s text : is_text s text = true → s = lit text.
Proof. apply bool_decide_eq_true_1. Qed.

Ltac texts := repeat match goal with H : is_text _ _ = true |- _ => apply is_text_true in H; subst end.

Lemma caller_name name :
  name ∈ builtin_names → is_text name "state_get" = false → is_text name "height" = false →
  is_text name "key_count" = false → is_text name "state_get_at" = false → is_text name "key_word" = false →
  name = lit "caller".
Proof.
  unfold is_text. intros Hn. rewrite !bool_decide_eq_false. intros.
  apply list_elem_of_In in Hn. cbn -[lit] in Hn. destruct_or! Hn; done.
Qed.

(** Every shape of a builtin call. *)
Lemma builtin_result fuel name d p t v p' :
  (∀ d p v p', expression fuel 0 d p = Ok (v, p') → ∃ e, expr_result 0 p v p' e) →
  peek p = Ok t → tok_kind t = Word name → name ∈ builtin_names → builtin (S fuel) name d p = Ok (v, p') →
  ∃ e, expr_result 7 p v p' e.
Proof.
  intros IH Hp Ht Hn H. cbn [builtin] in H. bind_inv H. subst. rename p0 into p3.
  assert (v_register v = registers p ∧ scopes p3 = scopes p ∧ locals p3 = locals p ∧ registers p3 = S (registers p))
    as (Hv & Hs & Hl & Hr).
  { pose proof (expect_inv _ _ _ E) as [_ ->]. by apply register_inv in E0 as [-> ->]. }
  rewrite Hv in E1. clear Hv.
  repeat case_in E1; bind_inv E1; texts; simplify_eq.
  - apply key_inv in E4 as (k & Ek & Hg & Hks & Hkl & Hkr). cbn in Hks, Hkl, Hkr. exists (EStateGet k).
    eapply host_leaf_result; [..|exact E3]; try done; try congruence.
    + intros. rewrite Ht. by constructor.
    + intros Hok slot Ha. cbn. by rewrite (Ha _ _ Hg).
  - exists EHeight.
    eapply (host_leaf_result p _ _ (set_context p3)); [..|exact E3]; try done; [by apply emits_refl|].
    intros. rewrite Ht. by constructor.
  - exists EKeyCount.
    eapply (host_leaf_result p _ _ (set_context p3)); [..|exact E3]; try done; [by apply emits_refl|].
    intros. rewrite Ht. by constructor.
  - destruct (IH _ _ _ _ E4) as [e He]. exists (EStateGetAt e).
    eapply (host_operand_result p _ _ _ _ _ _ t v v0 GetAt); [..|exact E3]; try done; [by apply emits_refl|by destruct p1| |].
    + intros. rewrite Ht. by constructor.
    + intros slot sc pc r code w r' Hg. cbn. by rewrite Hg.
  - destruct (IH _ _ _ _ E4) as [e He]. apply expect_inv in E6 as [(comma & Hc & Ec) ->].
    apply limb_inv in E7 as (z & Hz & -> & El & ->). exists (EKeyWord e (Z.to_nat z)).
    eapply (host_operand_result p _ _ _ (advance (advance p0)) _ _ t v v0 (λ d k, KeyWord d k (Z.to_nat z)));
      [..|exact E3]; try done; [exact (emits_trans _ _ _ _ _ _ _ _ _ Ec El)| |].
    + intros. rewrite Ht. cbn. by constructor.
    + intros slot sc pc r code w r' Hg. cbn. rewrite Hg, bool_decide_true by lia. done.
  - apply limb_inv in E4 as (z & Hz & -> & El & ->). exists (ECaller (Z.to_nat z)).
    rewrite (caller_name name) in Ht by done.
    eapply host_leaf_result; [..|exact E3]; try done.
    + intros. rewrite Ht. by constructor.
    + intros _ slot _. cbn. by rewrite bool_decide_true by lia.
Qed.

Definition expression_spec (fuel : nat) : Prop := ∀ m d p v p',
  m <= 7 → expression fuel m d p = Ok (v, p') → ∃ e, expr_result m p v p' e ∧ stops m p'.

Lemma precedence_bound s pr : precedence_of s = Some pr → 1 <= pr <= 6.
Proof. intros (c & _ & <-)%precedence_inv. destruct c as [[[]| | | | | |]| |]; cbn; lia. Qed.

Lemma expression_weak fuel :
  expression_spec fuel → ∀ d p v p', expression fuel 0 d p = Ok (v, p') → ∃ e, expr_result 0 p v p' e.
Proof. intros IH d p v p' (e & He & _)%IH; [eauto|lia]. Qed.

Lemma atom_result fuel d p v p' :
  expression_spec fuel → (∀ f, fuel = S f → expression_spec f) → atom (S fuel) d p = Ok (v, p') →
  ∃ e, expr_result 7 p v p' e.
Proof.
  intros IH IH' H. cbn [atom] in H. bind_inv H. rename a into t, E into Hp.
  destruct (tok_kind t) as [name|z| |s|] eqn:Ht; try (by apply error_inv in H).
  - repeat case_in H.
    + exists (EBool (is_text name "true")). eapply leaf_result; [done|exact H|done| |done].
      rewrite Ht. apply orb_true_iff in Heqb as [Hb|Hb]; texts; by constructor.
    + texts. exists EInput. eapply leaf_result; [done|exact H|done|rewrite Ht; by constructor|done].
    + destruct fuel as [|f]; [done|]. eapply builtin_result; [|done|done|done|exact H].
      apply expression_weak, IH'. done.
    + destruct (binding_for name p) as [b|] eqn:Hb; [|by apply error_inv in H].
      exists (ELocal name). eapply leaf_result; [done|exact H|done| |].
      * rewrite Ht. constructor. split; [|done].
        repeat match goal with Hx : is_text _ _ = false |- _ => apply bool_decide_eq_false_1 in Hx end.
        intros Hin. apply list_elem_of_In in Hin.
        cbn -[lit] in Hin. destruct_or! Hin; done.
      * intros slot. cbn. unfold binding_for in Hb. by rewrite Hb.
  - exists (ENumber z). eapply leaf_result; [done|exact H|done|rewrite Ht; by constructor|done].
  - repeat case_in H; texts; [..|by apply error_inv in H]; bind_inv H; simplify_eq.
    + apply IH in E as (e & He & _); [|lia]. exists (ENot e). eapply not_result; eauto.
    + apply IH in E as (e & He & _); [|lia]. exists e. eapply paren_result; eauto.
Qed.

Lemma operators_result fuel :
  (∀ f, (f < fuel)%nat → expression_spec f) →
  ∀ q m d p0 lhs p e v p', expr_result q p0 lhs p e → stops (q + 1) p → m <= q →
  operators fuel m d lhs p = Ok (v, p') → ∃ e', expr_result m p0 v p' e' ∧ stops m p'.
Proof.
  induction fuel as [|fuel IHf]; intros IH q m d p0 lhs p e v p' He Hst Hm H; [done|].
  cbn [operators] in H. bind_inv H. rename a into t, E into Hp.
  assert (expr_result m p0 lhs p e) as Hweak.
  { destruct He as (ts & c & ? & ? & ? & T & G). exists ts, c. eauto 6 using expr_toks_weaken. }
  assert (∀ pr s, tok_kind t = Symbol s → precedence_of s = Some pr → pr <= q) as Hpr.
  { intros pr s Ht Hpr. enough (pr < q + 1) by lia. eapply Hst; [|exact Hpr]. rewrite <- Ht. by apply peek_kinds. }
  destruct (symbol_of (tok_kind t)) as [s|] eqn:Hsym.
  2:{ simplify_eq. exists e. split; [done|]. intros s rest pr Hk _. rewrite (peek_kinds _ _ Hp) in Hk.
    injection Hk as Hk _. by rewrite Hk in Hsym. }
  destruct (tok_kind t) as [| | |s'|] eqn:Ht; simplify_eq/=.
  destruct (precedence_of s) as [pr|] eqn:Hprec.
  2:{ simplify_eq. exists e. split; [done|]. intros s' rest pr Hk Hp'. rewrite (peek_kinds _ _ Hp), Ht in Hk. by simplify_eq. }
  case_in H.
  { simplify_eq. exists e. split; [done|]. intros s' rest pr' Hk Hp'. rewrite (peek_kinds _ _ Hp), Ht in Hk.
    by simplify_eq. }
  destruct (precedence_inv _ _ Hprec) as (c & -> & <-). specialize (Hpr _ _ eq_refl Hprec).
  pose proof (precedence_bound _ _ Hprec) as Hb.
  destruct (is_text (lit (spelling c)) "&&" || is_text (lit (spelling c)) "||") eqn:Heqb0.
  - bind_inv H. assert (c = CAnd ∨ c = COr) as Hc.
    { destruct c as [[[]| | | | | |]| |]; spell Heqb0; try discriminate; eauto. }
    apply (IH _ (Nat.lt_succ_diag_r _)) in E3 as (e2 & He2 & Hst2); [|lia].
    eapply (IHf ltac:(intros; apply IH; lia) (level c)); [| |lia|exact H].
    + eapply logic_result; [exact Hc|exact He|exact Hpr|exact Hp|exact Ht|eauto..|].
      rewrite <- E6. f_equal. by destruct Hc as [-> | ->].
    + apply patch_inv in E6 as [_ ->]. apply emit_inv in E5 as [_ ->]. exact Hst2.
  - bind_inv H. apply (IH _ (Nat.lt_succ_diag_r _)) in E as (e2 & He2 & Hst2); [|lia].
    destruct (binary_type_inv _ _ _ _ _ _ E0 Heqb0) as [-> Hty].
    eapply (IHf ltac:(intros; apply IH; lia) (level (CBinary b))); [|..|exact H].
    + eapply binary_result; [exact He|exact Hpr|exact Hp|exact Ht|exact He2|exact Hty|exact E1].
    + apply emit_value_inv in E1 as [_ ->]. exact Hst2.
    + lia.
Qed.

(** The front end reads expressions of the grammar and generates their code. *)
Lemma expression_result fuel : expression_spec fuel.
Proof.
  induction fuel as [fuel IH] using lt_wf_ind. intros m d p v p' Hm H.
  destruct fuel as [|fuel]; [done|]. cbn [expression] in H. case_in H; [by apply error_inv in H|].
  bind_inv H. destruct fuel as [|fuel]; [done|].
  destruct (atom_result fuel d p v0 p0) as [e He]; [apply IH; lia|intros f ->; apply IH; lia|done|].
  eapply operators_result; [|exact He| |exact Hm|exact H].
  - intros f Hf. apply IH. lia.
  - intros s rest pr _ Hpr%precedence_bound. lia.
Qed.

(** ** Statements *)

Definition typed_result (ty : Typ) (p : Parser) (v : Value) (p' : Parser) (e : expr) : Prop :=
  ∃ ts code, emits p p' ts code (expr_keys e) ∧ scopes p' = scopes p ∧ locals p' = locals p
    ∧ expr_toks 0 ts e
    ∧ (keys_ok (keys p) → ∀ slot, agrees slot (keys p') →
       gen_typed slot ty (scopes p) e (length (instructions p)) (registers p)
       = Some (code, v_register v, registers p')).

Lemma full_expression_inv p v p' : full_expression p = Ok (v, p') → ∃ e, expr_result 0 p v p' e.
Proof. intros (e & He & _)%expression_result; [eauto|lia]. Qed.

Lemma typed_expression_inv ty p v p' : typed_expression ty p = Ok (v, p') → ∃ e, typed_result ty p v p' e.
Proof.
  unfold typed_expression. intros H. bind_inv H. simplify_eq. apply typed_inv in E0.
  apply full_expression_inv in E as (e & ts & c & He & Hs & Hl & T & G). exists e, ts, c.
  do 4 (split; [done|]). intros Hok slot Ha. unfold gen_typed. rewrite (G Hok slot Ha). destruct v. cbn in *.
  by rewrite bool_decide_true.
Qed.

(** Steps that consume tokens and may add a key, but generate nothing. *)
Record quiet (p p' : Parser) (ts : list TokenKind) (added : list bytes) : Prop := {
  qu_emits : emits p p' ts [] added;
  qu_scopes : scopes p' = scopes p;
  qu_locals : locals p' = locals p;
  qu_registers : registers p' = registers p
}.

Lemma quiet_refl p : quiet p p [] [].
Proof. split; [by apply emits_refl|done..]. Qed.

Lemma quiet_context p p' ts a : quiet p p' ts a → quiet p (set_context p') ts a.
Proof. intros [[] ? ? ?]. by split. Qed.

Lemma quiet_trans p1 p2 p3 ts1 ts2 a b : quiet p1 p2 ts1 a → quiet p2 p3 ts2 b → quiet p1 p3 (ts1 ++ ts2) (a ++ b).
Proof. intros [E1 ? ? ?] [E2 ? ? ?]. split; [exact (emits_trans _ _ _ _ _ _ _ _ _ E1 E2)|congruence..]. Qed.

Lemma quiet_advance p t : peek p = Ok t → quiet p (advance p) [tok_kind t] [].
Proof. intros H. split; [by apply emits_advance|done..]. Qed.

Lemma quiet_expect text p p' : expect text p = Ok p' → ∃ k, lexeme text k ∧ quiet p p' [k] [].
Proof. intros [(k & Hk & E) ->]%expect_inv. exists k. split; [done|]. by split. Qed.

Lemma quiet_key p i p' : key p = Ok (i, p') → ∃ k, quiet p p' [Key k] [k] ∧ bt_get k (keys p') = Some i.
Proof. intros (k & E & Hg & ? & ? & ?)%key_inv. exists k. split; [by split|done]. Qed.

Lemma quiet_code p p' ts a : quiet p p' ts a → instructions p' = instructions p.
Proof. intros [[_ H _] _ _ _]. by rewrite app_nil_r in H. Qed.

(** One operand between tokens, then an instruction. *)
Lemma single_result ty p p1 v p2 e p3 p4 ts0 a0 ts1 step i :
  quiet p p1 ts0 a0 → typed_result ty p1 v p2 e → quiet p2 p3 ts1 [] → emit (step (v_register v)) p3 = Ok (i, p4) →
  ∃ ts code, emits p p4 (ts0 ++ ts ++ ts1) code (a0 ++ expr_keys e) ∧ expr_toks 0 ts e
    ∧ scopes p4 = scopes p ∧ locals p4 = locals p
    ∧ (keys_ok (keys p) → ∀ slot returns, agrees slot (keys p4) →
       gen_single slot ty step returns (scopes p) e (locals p) (length (instructions p)) (registers p)
       = Some (mkGenerated code (scopes p4) (locals p4) (registers p4) returns)).
Proof.
  intros Q1 (ts & c & E2 & Hs & Hl & T & G) Q3 [-> ->]%emit_inv. pose proof (quiet_code _ _ _ _ Q1) as Hi.
  destruct Q1 as [E1 Hs1 Hl1 Hr1], Q3 as [E3 Hs3 Hl3 Hr3]. exists ts, (c ++ [step (v_register v)]).
  split; [chain|]. split; [done|]. cbn [scopes locals registers keys set_instructions].
  split; [congruence|]. split; [congruence|].
  intros Hok slot returns Ha. pose proof (emits_keys_ok _ _ _ _ _ E1 Hok) as Hok1.
  pose proof (agrees_before _ _ _ _ _ _ E3 (emits_keys_ok _ _ _ _ _ E2 Hok1) Ha) as Ha2.
  specialize (G Hok1 slot Ha2). rewrite Hi, Hs1, Hr1 in G. unfold gen_single. rewrite G, Hs3, Hl3, Hr3. by rewrite Hs, Hs1, Hl, Hl1.
Qed.

(** Two operands. *)
Lemma pair_result p p1 v1 p2 e1 p3 v2 p4 e2 p5 p6 ts0 ts1 ts2 step i :
  quiet p p1 ts0 [] → typed_result U64 p1 v1 p2 e1 → quiet p2 p3 ts1 [] → typed_result U64 p3 v2 p4 e2 →
  quiet p4 p5 ts2 [] → emit (step (v_register v1) (v_register v2)) p5 = Ok (i, p6) →
  ∃ tsa tsb code, emits p p6 (ts0 ++ tsa ++ ts1 ++ tsb ++ ts2) code (expr_keys e1 ++ expr_keys e2)
    ∧ expr_toks 0 tsa e1 ∧ expr_toks 0 tsb e2 ∧ scopes p6 = scopes p ∧ locals p6 = locals p
    ∧ (keys_ok (keys p) → ∀ slot, agrees slot (keys p6) →
       gen_pair slot step (scopes p) e1 e2 (locals p) (length (instructions p)) (registers p)
       = Some (mkGenerated code (scopes p6) (locals p6) (registers p6) false)).
Proof.
  intros Q1 (tsa & ca & E2 & Hs & Hl & T & G) Q3 (tsb & cb & E4 & Hs' & Hl' & T' & G') Q5 [-> ->]%emit_inv.
  pose proof (quiet_code _ _ _ _ Q1) as Hi. pose proof (quiet_code _ _ _ _ Q3) as Hi3.
  destruct Q1 as [E1 Hs1 Hl1 Hr1], Q3 as [E3 Hs3 Hl3 Hr3], Q5 as [E5 Hs5 Hl5 Hr5].
  exists tsa, tsb, (ca ++ cb ++ [step (v_register v1) (v_register v2)]).
  split; [chain|]. do 2 (split; [done|]). cbn [scopes locals registers keys set_instructions].
  split; [congruence|]. split; [congruence|].
  intros Hok slot Ha. pose proof (emits_keys_ok _ _ _ _ _ E1 Hok) as Hok1.
  pose proof (emits_keys_ok _ _ _ _ _ E2 Hok1) as Hok2. pose proof (emits_keys_ok _ _ _ _ _ E3 Hok2) as Hok3.
  pose proof (emits_keys_ok _ _ _ _ _ E4 Hok3) as Hok4.
  pose proof (agrees_before _ _ _ _ _ _ E5 Hok4 Ha) as Ha4.
  pose proof (agrees_before _ _ _ _ _ _ E3 Hok2 (agrees_before _ _ _ _ _ _ E4 Hok3 Ha4)) as Ha2.
  specialize (G Hok1 slot Ha2). specialize (G' Hok3 slot Ha4).
  rewrite Hi, Hs1, Hr1 in G. rewrite Hi3, (code_length _ _ _ _ _ E2), Hi, Hs3, Hs, Hs1, Hr3 in G'.
  unfold gen_pair. rewrite G, G', Hs5, Hl5, Hr5. by rewrite Hs', Hs3, Hs, Hs1, Hl', Hl3, Hl, Hl1.
Qed.

Definition stmt_result (p : Parser) (s : stmt) (p' : Parser) (returns : bool) : Prop :=
  ∃ ts code, emits p p' ts code (stmt_keys s) ∧ stmt_toks ts s
    ∧ (keys_ok (keys p) → ∀ slot, agrees slot (keys p') →
       gen_stmt slot (scopes p) s (locals p) (length (instructions p)) (registers p)
       = Some (mkGenerated code (scopes p') (locals p') (registers p') returns)).

Lemma return_result p p1 k p' :
  quiet p p1 [k] [] → lexeme "return" k → return_statement p1 = Ok p' → ∃ s, stmt_result p s p' true.
Proof.
  intros Q Hk H. unfold return_statement in H. bind_inv H. simplify_eq.
  apply typed_expression_inv in E as [e He]. apply quiet_expect in E0 as (semi & Hsemi & Q2).
  destruct (single_result _ _ _ _ _ _ _ _ _ _ _ _ _ Q He Q2 E1) as (ts & code & Em & T & _ & _ & G).
  exists (SReturn e), ([k] ++ ts ++ [semi]), code. split; [done|]. split; [by apply T_return|]. intros Hok slot Ha. by apply G.
Qed.

Lemma assignment_result p p' : assignment p = Ok p' → ∃ s, stmt_result p s p' false.
Proof.
  unfold assignment. intros H. bind_inv H. rename a into t. destruct (tok_kind t) as [name| | | |] eqn:Ht;
    try (by apply error_inv in H).
  destruct (binding_for name p) as [[local ty mut]|] eqn:Hb; [|by apply error_inv in H].
  cbn in H. destruct mut; [|by apply error_inv in H]. cbn in H. bind_inv H. simplify_eq.
  apply quiet_advance in E. rewrite Ht in E. apply quiet_expect in E0 as (equal & Heq & Q0).
  pose proof (quiet_trans _ _ _ _ _ _ _ E Q0) as Q.
  apply typed_expression_inv in E1 as [e He]. apply quiet_expect in E2 as (semi & Hsemi & Q2).
  destruct (single_result _ _ _ _ _ _ _ _ _ _ _ (λ v, Store local v true) _ Q He Q2 E3) as (ts & code & Em & T & Hs & Hl & G).
  exists (SAssign name e), (([Word name] ++ [equal]) ++ ts ++ [semi]), code.
  split; [exact Em|]. split; [by apply T_assign|].
  intros Hok slot Ha. cbn. unfold binding_for in Hb. rewrite Hb. by apply G.
Qed.

Lemma finish_host_inv s p p' :
  finish_host s p = Ok p' →
  ∃ close semi p1 i, lexeme ")" close ∧ lexeme ";" semi ∧ quiet p p1 [close; semi] [] ∧ emit s p1 = Ok (i, p').
Proof.
  unfold finish_host. intros H. bind_inv H. simplify_eq.
  apply quiet_expect in E as (close & Hc & Q1), E0 as (semi & Hs & Q2).
  exists close, semi, a0, n. do 2 (split; [done|]). split; [exact (quiet_trans _ _ _ _ _ _ _ Q1 Q2)|done].
Qed.

Lemma host_name name :
  name ∈ host_names → is_text name "emit" = false → is_text name "state_set_at" = false →
  is_text name "state_delete_at" = false → is_text name "state_set" = false → name = lit "state_delete".
Proof.
  unfold is_text. intros Hn. rewrite !bool_decide_eq_false. intros.
  apply list_elem_of_In in Hn. cbn -[lit] in Hn. destruct_or! Hn; done.
Qed.

(** Statements over two operands: [emit] and [state_set_at]. *)
Lemma host_pair_result name ctor step p p1 open v1 p2 p3 v2 p4 close semi p5 i p6 :
  quiet p p1 [Word name; open] [] → lexeme "(" open →
  typed_expression U64 p1 = Ok (v1, p2) → expect "," p2 = Ok p3 → typed_expression U64 p3 = Ok (v2, p4) →
  quiet p4 p5 [close; semi] [] → lexeme ")" close → lexeme ";" semi →
  emit (step (v_register v1) (v_register v2)) p5 = Ok (i, p6) →
  (∀ e1 e2, stmt_keys (ctor e1 e2) = expr_keys e1 ++ expr_keys e2) →
  (∀ e1 e2 ts1 comma ts2, lexeme "," comma → expr_toks 0 ts1 e1 → expr_toks 0 ts2 e2 →
     stmt_toks (Word name :: open :: ts1 ++ comma :: ts2 ++ [close; semi]) (ctor e1 e2)) →
  (∀ slot sc e1 e2 l pc r, gen_stmt slot sc (ctor e1 e2) l pc r = gen_pair slot step sc e1 e2 l pc r) →
  ∃ s, stmt_result p s p6 false.
Proof.
  intros Q Ho [e1 H1]%typed_expression_inv (comma & Hc & Q1)%quiet_expect [e2 H2]%typed_expression_inv Q2 Hcl Hse He
    Hk HT HG.
  destruct (pair_result _ _ _ _ _ _ _ _ _ _ _ _ _ _ _ _ Q H1 Q1 H2 Q2 He) as (tsa & tsb & code & Em & Ta & Tb & _ & _ & G).
  exists (ctor e1 e2), ([Word name; open] ++ tsa ++ [comma] ++ tsb ++ [close; semi]), code.
  split; [by rewrite Hk|]. split; [by apply HT|]. intros Hok slot Ha. rewrite HG. by apply G.
Qed.

Lemma emit_result p p1 open p' :
  quiet p p1 [Word (lit "emit"); open] [] → lexeme "(" open →
  (let? (topic, p) := typed_expression U64 p1 in
   let? p := expect "," p in
   let? (data, p) := typed_expression U64 p in
   let? p := expect ")" p in
   let? p := expect ";" p in
   let? (_, p) := emit (Emit (v_register topic) (v_register data)) (set_context p) in
   Ok p) = Ok p' →
  ∃ s, stmt_result p s p' false.
Proof.
  intros Q Ho H. bind_inv H. simplify_eq.
  apply quiet_expect in E2 as (close & Hc & Q1), E3 as (semi & Hs & Q2).
  pose proof (quiet_context _ _ _ _ (quiet_trans _ _ _ _ _ _ _ Q1 Q2)) as Q3.
  eapply (host_pair_result _ SEmit Emit); [exact Q|exact Ho|exact E|exact E0|exact E1|exact Q3|done|done|exact E4|done| |done].
  intros. by apply T_emit.
Qed.

(** Statements over a dynamic slot. *)
Lemma slot_result name p p1 open p' :
  quiet p p1 [Word name; open] [] → lexeme "(" open →
  (name = lit "state_set_at" ∨ name = lit "state_delete_at") →
  (let? (k, p) := typed_expression U64 (set_context p1) in
   if is_text name "state_set_at" then
     let? p := expect "," p in
     let? (value, p) := typed_expression U64 p in
     finish_host (SetAt (v_register k) (v_register value)) p
   else finish_host (DeleteAt (v_register k)) p) = Ok p' →
  ∃ s, stmt_result p s p' false.
Proof.
  intros Q Ho Hn H. apply quiet_context in Q. bind_inv H. case_in H.
  - texts. bind_inv H. apply finish_host_inv in H as (close & semi & p4 & i & Hc & Hs & Q2 & He).
    eapply (host_pair_result _ SStateSetAt SetAt); [exact Q|exact Ho|exact E|exact E0|exact E1|exact Q2|done|done|exact He|done| |done].
    intros. by apply T_state_set_at.
  - destruct Hn as [-> | ->]; [done|].
    apply finish_host_inv in H as (close & semi & p4 & i & Hc & Hs & Q2 & He).
    apply typed_expression_inv in E as [e Hr].
    destruct (single_result _ _ _ _ _ _ _ _ _ _ _ DeleteAt _ Q Hr Q2 He) as (ts & code & Em & T & _ & _ & G).
    exists (SStateDeleteAt e), ([Word (lit "state_delete_at"); open] ++ ts ++ [close; semi]), code.
    split; [exact Em|]. split; [by apply T_state_delete_at|]. intros Hok slot Ha. by apply G.
Qed.

(** Statements over a literal key. *)
Lemma key_result name p p1 open p' :
  quiet p p1 [Word name; open] [] → lexeme "(" open →
  (name = lit "state_set" ∨ name = lit "state_delete") →
  (let? (k, p) := key p1 in
   if is_text name "state_set" then
     let? p := expect "," p in
     let? (value, p) := typed_expression U64 p in
     finish_host (SetKey k (v_register value)) p
   else finish_host (Delete k) p) = Ok p' →
  ∃ s, stmt_result p s p' false.
Proof.
  intros Q Ho Hn H. bind_inv H. apply quiet_key in E as (k & Qk & Hg).
  pose proof (quiet_trans _ _ _ _ _ _ _ Q Qk) as Q1. case_in H.
  - texts. bind_inv H. apply quiet_expect in E as (comma & Hcm & Qc).
    pose proof (quiet_trans _ _ _ _ _ _ _ Q1 Qc) as Q2. apply typed_expression_inv in E0 as [e Hr].
    apply finish_host_inv in H as (close & semi & p4 & i & Hc & Hs & Q3 & He).
    destruct (single_result _ _ _ _ _ _ _ _ _ _ _ (SetKey n) _ Q2 Hr Q3 He) as (ts & code & Em & T & _ & _ & G).
    exists (SStateSet k e), ((([Word (lit "state_set"); open] ++ [Key k]) ++ [comma]) ++ ts ++ [close; semi]), code.
    destruct (single_result _ _ _ _ _ _ _ _ _ _ _ (SetKey n) _ Qc Hr Q3 He) as (? & ? & Em0 & _).
    split; [exact Em|]. split; [by apply T_state_set|]. intros Hok slot Ha. cbn.
    rewrite (agrees_before _ _ _ _ _ _ Em0 (emits_keys_ok _ _ _ _ _ (qu_emits _ _ _ _ Q1) Hok) Ha k n Hg). by apply G.
  - destruct Hn as [-> | ->]; [done|].
    apply finish_host_inv in H as (close & semi & p4 & i & Hc & Hs & Q2 & He). apply emit_inv in He as [_ ->].
    pose proof (quiet_trans _ _ _ _ _ _ _ Q1 Q2) as Q3. pose proof (quiet_code _ _ _ _ Q3) as Hi.
    pose proof (emits_keys_ok _ _ _ _ _ (qu_emits _ _ _ _ Q1)) as Hok1.
    destruct Q3 as [Em Hsc Hl Hr], Q2 as [Em0 _ _ _].
    exists (SStateDelete k), ([Word (lit "state_delete"); open; Key k; close; semi]), [Delete n].
    split; [chain|]. split; [by apply T_state_delete|].
    intros Hok slot Ha. cbn in *. rewrite (agrees_before _ _ _ _ _ _ Em0 (Hok1 Hok) Ha k n Hg).
    by rewrite Hsc, Hl, Hr.
Qed.

Lemma host_result name p t p' :
  peek p = Ok t → tok_kind t = Word name → name ∈ host_names → host_statement name p = Ok p' →
  ∃ s, stmt_result p s p' false.
Proof.
  intros Hp Ht Hn H. apply quiet_advance in Hp. rewrite Ht in Hp. unfold host_statement in H. bind_inv H.
  apply quiet_expect in E as (open & Ho & Q0). pose proof (quiet_trans _ _ _ _ _ _ _ Hp Q0) as Q. clear Hp Q0.
  destruct (is_text name "emit") eqn:He; [texts; eapply emit_result; [exact Q|exact Ho|exact H]|].
  destruct (is_text name "state_set_at" || is_text name "state_delete_at") eqn:Hat.
  - eapply slot_result; [exact Q|exact Ho| |exact H]. apply orb_true_iff in Hat as [Hx|Hx]; texts; eauto.
  - eapply key_result; [exact Q|exact Ho| |exact H]. apply orb_false_iff in Hat as [H1 H2].
    destruct (is_text name "state_set") eqn:Hset; [texts; eauto|]. right. by apply host_name.
Qed.

Lemma quiet_take text p b p' :
  take_text text p = Ok (b, p') → ∃ ts, optional text b ts ∧ quiet p p' ts [].
Proof.
  intros H%take_text_inv. destruct b.
  - destruct H as [(k & Hk & E) ->]. exists [k]. split; [by constructor|]. by split.
  - destruct H as [-> _]. exists []. split; [constructor|apply quiet_refl].
Qed.

Lemma declared_inv p d p' : declared_type p = Ok (d, p') → ∃ ts, annotation d ts ∧ quiet p p' ts [].
Proof.
  unfold declared_type. intros H. bind_inv H. apply quiet_take in E as (ts & Hc & Q). case_in H.
  - inversion Hc as [|k Hk]; subst. bind_inv H. apply quiet_take in E as (ts' & Hn & Q'). case_in H.
    + inversion Hn as [|k' Hk']; simplify_eq. exists ([k] ++ [k']). split; [by constructor|].
      exact (quiet_trans _ _ _ _ _ _ _ Q Q').
    + inversion Hn; subst. bind_inv H. apply quiet_take in E as (ts' & Hb & Q''). case_in H; [|by apply error_inv in H].
      inversion Hb as [|k' Hk']; simplify_eq. exists ([k] ++ [] ++ [k']). split; [by constructor|].
      exact (quiet_trans _ _ _ _ _ _ _ Q (quiet_trans _ _ _ _ _ _ _ Q' Q'')).
  - inversion Hc; simplify_eq. exists []. split; [constructor|done].
Qed.

Lemma local_result p p1 k p' :
  quiet p p1 [k] [] → lexeme "let" k → local_statement p1 = Ok p' → ∃ s, stmt_result p s p' false.
Proof.
  intros Q Hk H. unfold local_statement in H. bind_inv H. apply quiet_take in E as (ms & Hms & Q1). rename p0 into p2.
  destruct (tok_kind a) as [name| | | |] eqn:Ht; try (by apply error_inv in H).
  apply quiet_advance in E0. rewrite Ht in E0. case_in H; [by apply error_inv in H|].
  destruct (match scopes p2 with s :: _ => bt_contains name s | [] => false end) eqn:Hfresh; [by apply error_inv in H|].
  case_in H; [by apply error_inv in H|]. bind_inv H.
  apply declared_inv in E as (anns & Hann & Q2). apply quiet_expect in E1 as (equal & Heq & Q3).
  apply full_expression_inv in E2 as (e & ts & c & Ee & Hse & Hle & T & G).
  pose proof (quiet_trans _ _ _ _ _ _ _ (quiet_trans _ _ _ _ _ _ _ Q Q1)
    (quiet_trans _ _ _ _ _ _ _ E0 (quiet_trans _ _ _ _ _ _ _ Q2 Q3))) as Qall.
  apply quiet_expect in E4 as (semi & Hsemi & Q4). apply emit_inv in E5 as [_ ->].
  unfold bind_local in H. cbn [scopes set_instructions set_locals] in H.
  pose proof (quiet_code _ _ _ _ Qall) as Hi. pose proof (quiet_code _ _ _ _ Q4) as Hi4.
  assert (scopes p2 = scopes p) as Hs2 by (rewrite (qu_scopes _ _ _ _ Q1); apply Q).
  destruct Qall as [Eall Hsa Hla Hra], Q4 as [E4 Hs4 Hl4 Hr4].
  assert (scopes a2 = scopes p) as Hsc by congruence. assert (locals a2 = locals p) as Hlc by congruence.
  destruct (scopes a2) as [|s ss] eqn:Hss; [done|]. simplify_eq. rewrite <- Hsc in Hs2. rewrite Hs2 in Hfresh.
  exists (SLet b name o e), (k :: ms ++ Word name :: anns ++ equal :: ts ++ [semi]), (c ++ [Store (locals a2) (v_register v) false]).
  split; [|split; [by apply T_let|]].
  - assert (emits p a2 (k :: ms ++ Word name :: anns ++ equal :: ts ++ [semi]) c (expr_keys e)) as [? Hc ?] by chain.
    split; [done| |done]. cbn. by rewrite Hc, <- app_assoc.
  - intros Hok slot Ha. cbn in Ha. pose proof (emits_keys_ok _ _ _ _ _ Eall Hok) as Hok1.
    specialize (G Hok1 slot (agrees_before _ _ _ _ _ _ E4 (emits_keys_ok _ _ _ _ _ Ee Hok1) Ha)).
    rewrite Hi, Hsa, Hra, <- Hsc in G. cbn [gen_stmt]. rewrite <- Hsc, G, Hfresh.
    rewrite (bool_decide_false (name ∈ reserved)) by done. cbn [orb].
    rewrite bool_decide_true; [cbn; by rewrite Hlc, Hr4|].
    destruct o; [right|by left]. f_equal. by apply typed_inv in E3.
Qed.

(** ** Blocks *)

Lemma gen_tail slot :
  (∀ s sc l pc r g, gen_stmt slot sc s l pc r = Some g → tail (g_scopes g) = tail sc)
  ∧ (∀ b sc l pc r g, gen_body slot sc b l pc r = Some g → tail (g_scopes g) = tail sc).
Proof.
  apply syntax_ind; cbn [gen_stmt gen_body]; unfold gen_single, gen_pair; intros;
    repeat match goal with
    | H : match ?x with _ => _ end = Some _ |- _ => destruct x eqn:?; try discriminate H
    end; simplify_eq; cbn; try done.
  - by eapply H.
  - etrans; [by eapply H0|by eapply H].
Qed.

Definition body_result (p : Parser) (b : body) (p' : Parser) (returns : bool) : Prop :=
  ∃ ts code, emits p p' ts code (body_keys b) ∧ body_toks ts b
    ∧ (keys_ok (keys p) → ∀ slot, agrees slot (keys p') →
       gen_body slot (scopes p) b (locals p) (length (instructions p)) (registers p)
       = Some (mkGenerated code (scopes p') (locals p') (registers p') returns)).

(** The code of a block, whose scope is gone behind it. *)
Definition gen_inner (slot : bytes → nat) (p : Parser) (b : body) (p' : Parser) (code : list Step) (returns : bool) : Prop :=
  ∃ sc, gen_body slot ([] :: scopes p) b (locals p) (length (instructions p)) (registers p)
        = Some (mkGenerated code sc (locals p') (registers p') returns).

Definition block_result (p : Parser) (b : body) (p' : Parser) (returns : bool) : Prop :=
  ∃ ts code, emits p p' ts code (body_keys b) ∧ block_toks ts b
    ∧ (keys_ok (keys p) →
       scopes p' = scopes p ∧ ∀ slot, agrees slot (keys p') → gen_inner slot p b p' code returns).

(** A slot assignment that agrees with any table. *)
Definition table_slot (ks : BTreeMap bytes nat) (k : bytes) : nat := default O (bt_get k ks).
Lemma table_agrees ks : agrees (table_slot ks) ks.
Proof. intros k i H. unfold table_slot. by rewrite H. Qed.

Lemma block_body_result p p1 p2 p3 b returns :
  expect "{" p = Ok p1 → body_result (set_scopes ([] :: scopes p1) p1) b p2 returns → expect "}" p2 = Ok p3 →
  block_result p b (set_scopes (tail (scopes p3)) p3) returns.
Proof.
  intros [(open & Ho & E1) ->]%expect_inv (ts & code & E2 & T & G) [(close & Hc & E3) ->]%expect_inv.
  assert (emits (advance p) p2 ts code (body_keys b)) as E2' by by destruct E2.
  assert (emits p (advance p2) (open :: ts ++ [close]) code (body_keys b)) as [Hk Hcode Hks] by chain.
  exists (open :: ts ++ [close]), code. split; [by split|]. split; [by apply T_block|].
  intros Hok. split.
  - specialize (G Hok _ (table_agrees _)). apply gen_tail in G. exact G.
  - intros slot Ha. exists (scopes p2). exact (G Hok slot Ha).
Qed.

Lemma else_result fuel d p h p1 returns p2 :
  (∀ p ret p', block fuel d p = Ok (ret, p') → ∃ b, block_result p b p' ret) →
  take_text "else" p = Ok (h, p1) → (if h then block fuel d p1 else Ok (false, p1)) = Ok (returns, p2) →
  ∃ no ts code, emits p p2 ts code (body_keys no)
    ∧ (∀ e yes t tc ty, lexeme "if" t → expr_toks 0 tc e → block_toks ty yes →
         stmt_toks (t :: tc ++ ty ++ ts) (SIf e yes no))
    ∧ (keys_ok (keys p) → scopes p2 = scopes p ∧ ∀ slot, agrees slot (keys p2) → gen_inner slot p no p2 code returns).
Proof.
  intros IH Ht H. apply take_text_inv in Ht. destruct h.
  - destruct Ht as [(k & Hk & E1) ->]. apply IH in H as (no & ts & code & E2 & T & G). exists no, (k :: ts), code.
    split; [chain|]. split; [intros; by apply T_if_else|]. exact G.
  - destruct Ht as [-> _]. simplify_eq. exists BNil, [], []. split; [by apply emits_refl|].
    split; [intros; rewrite app_nil_r; by apply T_if|]. intros _. split; [done|]. intros slot _. by exists ([] :: scopes p2).
Qed.

(** The placeholder jump over the [else] part. *)
Lemma skip_inv (yes_returns : bool) p skip p' :
  (if yes_returns then Ok (None, p) else let? (skip, p) := emit (Jump 0) p in Ok (Some skip, p)) = Ok (skip, p') →
  emits p p' [] (if yes_returns then [] else [Jump 0]) []
  ∧ scopes p' = scopes p ∧ locals p' = locals p ∧ registers p' = registers p ∧ keys p' = keys p
  ∧ skip = (if yes_returns then None else Some (length (instructions p))).
Proof.
  destruct yes_returns; intros H; bind_inv H; simplify_eq.
  - split; [by apply emits_refl|done].
  - apply emit_inv in E as [-> ->]. split; [apply emits_emit|done].
Qed.

(** Both patches of an [if]. *)
Lemma patches_inv p p' ts cc v cy cn a (yes_returns : bool) skip yes no after p1 p2 :
  emits p p' ts (cc ++ Branch v 0 0 :: cy ++ (if yes_returns then [] else [Jump 0]) ++ cn) a →
  patch (length (instructions p) + length cc) (Branch v yes no) p' = Ok p1 →
  skip = (if yes_returns then None else Some (length (instructions p) + length cc + 1 + length cy)%nat) →
  match skip with Some skip => patch skip (Jump after) p1 | None => Ok p1 end = Ok p2 →
  emits p p2 ts (cc ++ [Branch v yes no] ++ cy ++ (if yes_returns then [] else [Jump after]) ++ cn) a
  ∧ scopes p2 = scopes p' ∧ locals p2 = locals p' ∧ registers p2 = registers p' ∧ keys p2 = keys p'.
Proof.
  intros E H1 -> H2. destruct (emits_patch _ _ _ _ _ _ _ _ _ _ E H1 eq_refl) as [E1 Hp1]. destruct yes_returns.
  - simplify_eq. split; [exact E1|done].
  - cbn [app] in E1. replace (cc ++ Branch v yes no :: cy ++ Jump 0 :: cn)
      with ((cc ++ Branch v yes no :: cy) ++ Jump 0 :: cn) in E1 by by rewrite <- app_assoc.
    destruct (emits_patch _ _ _ _ _ _ _ _ _ _ E1 H2) as [E2 ->]; [rewrite length_app; cbn; lia|].
    split; [|by subst]. eapply emits_eq; [exact E2|done| |done]. by rewrite <- app_assoc.
Qed.

Lemma if_result fuel d p p1 k ret p' :
  (∀ p ret p', block fuel (d + 1) p = Ok (ret, p') → ∃ b, block_result p b p' ret) →
  quiet p p1 [k] [] → lexeme "if" k → if_statement (S fuel) d p1 = Ok (ret, p') → ∃ s, stmt_result p s p' ret.
Proof.
  intros IH Q Hk H. cbn [if_statement] in H. bind_inv H. simplify_eq.
  apply typed_expression_inv in E as (e & tc & cc & Ec & Hsc & Hlc & Tc & Gc). apply emit_inv in E0 as [-> ->].
  apply IH in E1 as (yes & ty & cy & Ey & Ty & Gy). apply skip_inv in E2 as (Es & Hss & Hls & Hrs & Hks & ->).
  destruct (else_result _ _ _ _ _ _ _ IH E3 E4) as (no & tn & cn & En & Tn & Gn).
  set (pb := set_instructions _ _) in *.
  assert (emits p pb ([k] ++ tc) (cc ++ [Branch (v_register v) 0 0]) (expr_keys e)) as Eb.
  { destruct Q as [Eq _ _ _]. unfold pb. chain. }
  pose proof (code_length _ _ _ _ _ Eb) as Hlb. rewrite length_app in Hlb. cbn [length] in Hlb.
  pose proof (quiet_code _ _ _ _ Q) as Hi. pose proof (code_length _ _ _ _ _ Ec) as Hl0. rewrite Hi in Hl0.
  pose proof (code_length _ _ _ _ _ Ey) as Hl3. pose proof (code_length _ _ _ _ _ Es) as Hl4.
  pose proof (code_length _ _ _ _ _ En) as Hl6.
  assert (emits p p6 (k :: tc ++ ty ++ tn)
            (cc ++ Branch (v_register v) 0 0 :: cy ++ (if b then [] else [Jump 0]) ++ cn)
            (stmt_keys (SIf e yes no))) as Eall.
  { eapply emits_eq; [exact (emits_trans _ _ _ _ _ _ _ _ _ Eb (emits_trans _ _ _ _ _ _ _ _ _ Ey
      (emits_trans _ _ _ _ _ _ _ _ _ Es En)))|cbn; by rewrite <- ?app_assoc..]. }
  assert ((if b then None else Some (length (instructions p3)))
    = if b then None else Some (length (instructions p) + length cc + 1 + length cy)%nat) as Hskip
    by (destruct b; [done|f_equal; lia]).
  rewrite Hl0 in E5.
  destruct (patches_inv _ _ _ _ _ _ _ _ _ _ _ _ _ _ _ Eall E5 Hskip E6) as (Ef & Hsf & Hlf & Hrf & Hkf).
  exists (SIf e yes no). eexists _, _. split; [exact Ef|]. split; [by apply Tn|].
  intros Hok slot Ha. rewrite Hkf in Ha. destruct Q as [Eq Hsq Hlq Hrq].
  pose proof (emits_keys_ok _ _ _ _ _ Eq Hok) as Hok1. pose proof (emits_keys_ok _ _ _ _ _ Eb Hok) as Hokb.
  pose proof (emits_keys_ok _ _ _ _ _ Es (emits_keys_ok _ _ _ _ _ Ey Hokb)) as Hok4.
  pose proof (agrees_before _ _ _ _ _ _ En Hok4 Ha) as Ha4. rewrite Hks in Ha4.
  pose proof (agrees_before _ _ _ _ _ _ Ey Hokb Ha4) as Hab. specialize (Gc Hok1 slot Hab).
  destruct (Gy Hokb) as [Hsy Gy']. destruct (Gy' slot Ha4) as [sy Gy2]. destruct (Gn Hok4) as [Hsn Gn'].
  destruct (Gn' slot Ha) as [sn Gn2]. change (scopes pb) with (scopes p0) in *. change (locals pb) with (locals p0) in *.
  change (registers pb) with (registers p0) in *.
  rewrite Hi, Hsq, Hrq in Gc. rewrite Hsc, Hsq, Hlc, Hlq, Hlb in Gy2.
  rewrite Hl4, Hl3, Hlb, Hss, Hsy, Hsc, Hsq, Hls, Hrs in Gn2.
  cbn [gen_stmt]. rewrite Gc. replace (length (instructions p) + (length cc + 1))%nat
    with (length (instructions p) + length cc + 1)%nat in * by lia.
  rewrite Gy2. cbn [g_returns g_code g_locals g_registers].
  replace (length (if b then [] else [Jump 0])) with (if b then 0 else 1)%nat in * by by destruct b.
  rewrite Gn2. cbn [g_returns g_code g_locals g_registers]. rewrite Hl6, Hl4, Hl3, Hlb.
  by rewrite Hsf, Hlf, Hrf, Hsn, Hss, Hsy, Hsc, Hsq.
Qed.

(** The jump back to the condition. *)
Lemma back_emits (returns : bool) start p p' :
  (if returns then Ok p else let? (_, p) := emit (Jump start) p in Ok p) = Ok p' →
  emits p p' [] (if returns then [] else [Jump start]) [] ∧ scopes p' = scopes p ∧ locals p' = locals p
  ∧ registers p' = registers p ∧ keys p' = keys p.
Proof.
  destruct returns; intros H; bind_inv H; simplify_eq.
  - split; [by apply emits_refl|done].
  - apply emit_inv in E as [_ ->]. split; [apply emits_emit|done].
Qed.

Lemma while_result fuel d p p1 k ret p' :
  (∀ p ret p', block fuel (d + 1) p = Ok (ret, p') → ∃ b, block_result p b p' ret) →
  quiet p p1 [k] [] → lexeme "while" k → while_statement (S fuel) d p1 = Ok (ret, p') → ∃ s, stmt_result p s p' ret.
Proof.
  intros IH Q Hk H. cbn [while_statement] in H. bind_inv H. simplify_eq.
  apply typed_expression_inv in E as (e & tc & cc & Ec & Hsc & Hlc & Tc & Gc). apply emit_inv in E0 as [-> ->].
  apply IH in E1 as (inside & tb & cb & Eb & Tb & Gb). apply back_emits in E2 as (Ej & Hsj & Hlj & Hrj & Hkj).
  set (pb := set_instructions _ _) in *. pose proof (quiet_code _ _ _ _ Q) as Hi. destruct Q as [Eq Hsq Hlq Hrq].
  assert (emits p pb (k :: tc) (cc ++ [Branch (v_register v) 0 0]) (expr_keys e)) as Ebr.
  { unfold pb. chain. }
  pose proof (code_length _ _ _ _ _ Ebr) as Hlb. rewrite length_app in Hlb. cbn [length] in Hlb.
  pose proof (code_length _ _ _ _ _ Ec) as Hl0. pose proof (code_length _ _ _ _ _ Eb) as Hl3.
  pose proof (code_length _ _ _ _ _ Ej) as Hl4. rewrite Hi in *.
  assert (emits p a (k :: tc ++ tb)
            (cc ++ Branch (v_register v) 0 0 :: cb ++ (if b then [] else [Jump (length (instructions p))]))
            (stmt_keys (SWhile e inside))) as Eall.
  { eapply emits_eq; [exact (emits_trans _ _ _ _ _ _ _ _ _ Ebr (emits_trans _ _ _ _ _ _ _ _ _ Eb Ej))
      |cbn; by rewrite <- ?app_assoc, ?app_nil_r..]. }
  destruct (emits_patch _ _ _ _ _ _ _ _ _ _ Eall E3 Hl0) as [Ef ->].
  exists (SWhile e inside), (k :: tc ++ tb). eexists. split; [exact Ef|]. split; [by apply T_while|].
  intros Hok slot Ha. cbn [keys set_instructions] in Ha. rewrite Hkj in Ha.
  pose proof (emits_keys_ok _ _ _ _ _ Eq Hok) as Hok1. pose proof (emits_keys_ok _ _ _ _ _ Ebr Hok) as Hokb.
  pose proof (agrees_before _ _ _ _ _ _ Eb Hokb Ha) as Hab. specialize (Gc Hok1 slot Hab).
  destruct (Gb Hokb) as [Hsy Gb']. destruct (Gb' slot Ha) as [sy Gb2].
  change (scopes pb) with (scopes p0) in *. change (locals pb) with (locals p0) in *.
  change (registers pb) with (registers p0) in *.
  rewrite Hsq, Hrq in Gc. rewrite Hsc, Hsq, Hlc, Hlq, Hlb in Gb2.
  cbn [gen_stmt scopes locals registers set_instructions]. rewrite Gc.
  replace (length (instructions p) + (length cc + 1))%nat with (length (instructions p) + length cc + 1)%nat in * by lia.
  rewrite Gb2. cbn [g_returns g_code g_locals g_registers]. rewrite Hl4, Hl3, Hlb.
  by rewrite Hsj, Hlj, Hrj, Hsy, Hsc, Hsq.
Qed.

Definition block_spec (fuel : nat) : Prop := ∀ d p ret p',
  block fuel d p = Ok (ret, p') → ∃ b, block_result p b p' ret.

Lemma quiet_taken text p p' : take_text text p = Ok (true, p') → ∃ k, lexeme text k ∧ quiet p p' [k] [].
Proof. intros (ts & Ho & Q)%quiet_take. inversion Ho as [|k Hk]; subst. eauto. Qed.

Lemma not_taken text p p' : take_text text p = Ok (false, p') → p' = p.
Proof. intros [-> _]%take_text_inv. done. Qed.

Lemma statement_result fuel d p ret p' :
  (∀ f, (f < fuel)%nat → block_spec f) → statement fuel d p = Ok (ret, p') → ∃ s, stmt_result p s p' ret.
Proof.
  intros IH H. destruct fuel as [|fuel]; [done|]. cbn [statement] in H.
  assert (∀ f d p ret p', fuel = S f → block f d p = Ok (ret, p') → ∃ b, block_result p b p' ret) as IHb.
  { intros f ? ? ? ? ->. apply IH. lia. }
  bind_inv H. destruct b; [|apply not_taken in E as ->].
  { apply quiet_taken in E as (k & Hk & Q). bind_inv H. simplify_eq. by eapply local_result. }
  bind_inv H. destruct b; [|apply not_taken in E as ->].
  { apply quiet_taken in E as (k & Hk & Q). bind_inv H. simplify_eq. by eapply return_result. }
  bind_inv H. destruct b; [|apply not_taken in E as ->].
  { apply quiet_taken in E as (k & Hk & Q). destruct fuel as [|f]; [done|].
    eapply if_result; [|exact Q|exact Hk|exact H]. intros. by eapply IHb. }
  bind_inv H. destruct b; [|apply not_taken in E as ->].
  { apply quiet_taken in E as (k & Hk & Q). destruct fuel as [|f]; [done|].
    eapply while_result; [|exact Q|exact Hk|exact H]. intros. by eapply IHb. }
  bind_inv H. simplify_eq. unfold plain_statement in E. bind_inv E.
  destruct (tok_kind a) as [name| | | |] eqn:Ht; try by apply assignment_result.
  case_in E; [by eapply host_result|by apply assignment_result].
Qed.

Lemma statements_result fuel : (∀ f, (f < fuel)%nat → block_spec f) →
  ∀ d returns p ret p', statements fuel d returns p = Ok (ret, p') →
  if returns then ret = true ∧ p' = p else ∃ b, body_result p b p' ret.
Proof.
  induction fuel as [|fuel IHf]; intros IH d returns p ret p' H; [done|]. cbn [statements] in H. bind_inv H. case_in H.
  { simplify_eq. destruct ret; [done|]. exists BNil, [], []. split; [by apply emits_refl|]. split; [constructor|done]. }
  bind_inv H. case_in H; [by apply error_inv in H|]. destruct returns; [by apply error_inv in H|]. bind_inv H.
  destruct (statement_result fuel d p b p0) as (s & ts & code & Es & Ts & Gs); [intros; apply IH; lia|done|].
  apply IHf in H; [|intros; apply IH; lia]. destruct b.
  - destruct H as [-> ->]. exists (BCons s BNil), ts, code. split; [cbn; by rewrite app_nil_r|].
    split; [rewrite <- (app_nil_r ts); by repeat constructor|]. intros Hok slot Ha. cbn. by rewrite (Gs Hok slot Ha).
  - destruct H as (b & ts' & code' & Eb & Tb & Gb). exists (BCons s b), (ts ++ ts'), (code ++ code').
    split; [exact (emits_trans _ _ _ _ _ _ _ _ _ Es Eb)|]. split; [by constructor|].
    intros Hok slot Ha. pose proof (emits_keys_ok _ _ _ _ _ Es Hok) as Hok1.
    cbn. rewrite (Gs Hok slot (agrees_before _ _ _ _ _ _ Eb Hok1 Ha)). cbn.
    rewrite <- (code_length _ _ _ _ _ Es), (Gb Hok1 slot Ha). done.
Qed.

Lemma block_result_all fuel : block_spec fuel.
Proof.
  induction fuel as [fuel IH] using lt_wf_ind. intros d p ret p' H. destruct fuel as [|fuel]; [done|].
  cbn [block] in H. case_in H; [by apply error_inv in H|]. bind_inv H. simplify_eq.
  apply statements_result in E0 as [b Hb]; [|intros; apply IH; lia]. exists b. by eapply block_body_result.
Qed.

(** ** Programs *)

(** Renumber the slots of literal keys. *)
Definition renumber (m : nat → nat) (s : Step) : Step :=
  match s with
  | Get d k => Get d (m k)
  | SetKey k v => SetKey (m k) v
  | Delete k => Delete (m k)
  | s => s
  end.

Lemma gen_expr_renumber slot m sc e pc r :
  gen_expr (λ k, m (slot k)) sc e pc r
  = match gen_expr slot sc e pc r with Some (code, v, r') => Some (map (renumber m) code, v, r') | None => None end.
Proof.
  revert pc r. induction e as [| | | |e IH|[b| |] l IHl rh IHr| | | |e IH| |e IH]; intros pc r; cbn [gen_expr]; try done.
  - by destruct (find_binding name sc).
  - rewrite IH. destruct (gen_expr slot sc e pc r) as [[[? [? []]] ?]|]; cbn; rewrite ?map_app; done.
  - rewrite IHl. destruct (gen_expr slot sc l pc r) as [[[cl vl] r1]|]; [|done]. rewrite length_map, IHr.
    destruct (gen_expr slot sc rh _ _) as [[[cr vr] r2]|]; [|done].
    destruct (type_binary _ _ _); [|done]. by rewrite !map_app.
  - rewrite IHl. destruct (gen_expr slot sc l pc r) as [[[cl [vl []]] r1]|]; [done| |done]. rewrite length_map, IHr.
    destruct (gen_expr slot sc rh _ _) as [[[cr [vr []]] r2]|]; [done| |done]. by rewrite length_map, !map_app.
  - rewrite IHl. destruct (gen_expr slot sc l pc r) as [[[cl [vl []]] r1]|]; [done| |done]. rewrite length_map, IHr.
    destruct (gen_expr slot sc rh _ _) as [[[cr [vr []]] r2]|]; [done| |done]. by rewrite length_map, !map_app.
  - by case_bool_decide.
  - rewrite IH. destruct (gen_expr slot sc e pc (S r)) as [[[? [? []]] ?]|]; [|done..]. case_bool_decide; [|done].
    by rewrite map_app.
  - rewrite IH. destruct (gen_expr slot sc e pc (S r)) as [[[? [? []]] ?]|]; [|done..]. by rewrite map_app.
Qed.

Definition renumbered (m : nat → nat) (g : generated) : generated :=
  mkGenerated (map (renumber m) (g_code g)) (g_scopes g) (g_locals g) (g_registers g) (g_returns g).

Lemma gen_typed_renumber slot m ty sc e pc r :
  gen_typed (λ k, m (slot k)) ty sc e pc r
  = match gen_typed slot ty sc e pc r with Some (code, v, r') => Some (map (renumber m) code, v, r') | None => None end.
Proof.
  unfold gen_typed. rewrite gen_expr_renumber. destruct (gen_expr _ _ _ _ _) as [[[? [? ?]] ?]|]; [|done]. by case_bool_decide.
Qed.

Lemma gen_single_renumber slot m ty step step' returns sc e l pc r :
  (∀ v, step' v = renumber m (step v)) →
  gen_single (λ k, m (slot k)) ty step' returns sc e l pc r
  = renumbered m <$> gen_single slot ty step returns sc e l pc r.
Proof.
  intros Hs. unfold gen_single. rewrite gen_typed_renumber. destruct (gen_typed _ _ _ _ _ _) as [[[? ?] ?]|]; [|done].
  cbn. unfold renumbered. cbn. by rewrite map_app, Hs.
Qed.

Lemma gen_pair_renumber slot m step sc a b l pc r :
  (∀ v w, step v w = renumber m (step v w)) →
  gen_pair (λ k, m (slot k)) step sc a b l pc r = renumbered m <$> gen_pair slot step sc a b l pc r.
Proof.
  intros Hs. unfold gen_pair. rewrite gen_typed_renumber. destruct (gen_typed _ _ _ _ _ _) as [[[ca ?] ?]|]; [|done].
  rewrite gen_typed_renumber, length_map. destruct (gen_typed _ _ _ _ _ _) as [[[cb ?] ?]|]; [|done].
  cbn. unfold renumbered. cbn. rewrite !map_app. cbn. by rewrite <- Hs.
Qed.

Lemma gen_renumber slot m :
  (∀ s sc l pc r, gen_stmt (λ k, m (slot k)) sc s l pc r = renumbered m <$> gen_stmt slot sc s l pc r)
  ∧ (∀ b sc l pc r, gen_body (λ k, m (slot k)) sc b l pc r = renumbered m <$> gen_body slot sc b l pc r).
Proof.
  apply syntax_ind; intros; cbn [gen_stmt gen_body].
  - rewrite gen_expr_renumber. destruct (gen_expr _ _ _ _ _) as [[[? ?] ?]|]; [|done]. destruct sc; [done|].
    destruct (_ || _); [done|]. cbn. unfold renumbered. cbn. by rewrite map_app.
  - destruct (find_binding name sc) as [[? ? []]|]; [|done..]. by apply gen_single_renumber.
  - by apply gen_single_renumber.
  - rewrite gen_typed_renumber. destruct (gen_typed _ _ _ _ _ _) as [[[cc v] r1]|]; [|done]. rewrite length_map, H.
    destruct (gen_body slot _ yes _ _ _) as [gy|]; [|done]. cbn [fmap option_fmap option_map g_returns g_code g_locals g_registers renumbered].
    rewrite length_map, H0. destruct (gen_body slot _ no _ _ _) as [gn|]; [|done]. cbn. unfold renumbered. cbn.
    rewrite length_map, !map_app. cbn. by destruct (g_returns gy); rewrite map_app.
  - rewrite gen_typed_renumber. destruct (gen_typed _ _ _ _ _ _) as [[[cc v] r1]|]; [|done]. rewrite length_map, H.
    destruct (gen_body slot _ inside _ _ _) as [g|]; [|done]. cbn. unfold renumbered. cbn.
    rewrite length_map, !map_app. cbn. by destruct (g_returns g); rewrite map_app.
  - by apply gen_single_renumber.
  - done.
  - by apply gen_pair_renumber.
  - by apply gen_single_renumber.
  - by apply gen_pair_renumber.
  - done.
  - rewrite H. destruct (gen_stmt slot sc s l pc r) as [g|]; [|done]. cbn. destruct (g_returns g); [by destruct rest|].
    rewrite length_map, H0. destruct (gen_body slot _ rest _ _ _) as [h|]; [|done]. cbn. unfold renumbered. cbn. by rewrite map_app.
Qed.

Lemma key_mapping_ok entries mapping n mapping' :
  key_mapping entries mapping n = Ok mapping' → NoDup (map snd entries) →
  (∀ i k old, entries !! i = Some (k, old) → mapping' !! old = Some (n + i)%nat)
  ∧ (∀ j, j ∉ map snd entries → mapping' !! j = mapping !! j).
Proof.
  revert mapping n. induction entries as [|[k old] entries IH]; intros mapping n H Hnd; cbn in H.
  { simplify_eq. done. }
  case_in H. apply NoDup_cons in Hnd as [Hfresh Hnd]. destruct (IH _ _ H Hnd) as [Hin Hout]. split.
  - intros [|i] k' old' Hi; cbn in Hi; simplify_eq.
    + rewrite Hout by done. rewrite list_lookup_insert_eq by done. f_equal. lia.
    + rewrite (Hin _ _ _ Hi). f_equal. lia.
  - intros j Hj. cbn in Hj. apply not_elem_of_cons in Hj as [Hne Hj]. rewrite Hout by done. by rewrite list_lookup_insert_ne.
Qed.

Lemma remap_all mapping code code' :
  try_map (remap mapping) code = Ok code' → code' = map (renumber (λ i, default O (mapping !! i))) code.
Proof.
  revert code'. induction code as [|s code IH]; intros code' H; cbn in H; [by simplify_eq|]. bind_inv H. subst.
  rewrite (IH _ E0). cbn. f_equal.
  destruct s; cbn in E; bind_inv E; simplify_eq; try done;
    match goal with E : ok_or _ _ = Ok _ |- _ => apply ok_or_ok in E; cbn; by rewrite E end.
Qed.

Lemma bt_collect_elem {K V : Type} `{!TotalOrd K} (xs : list (K * V)) (m : BTreeMap K V) :
  bt_ok m → let m' := fold_left (λ m kv, bt_insert kv.1 kv.2 m) xs m in
  bt_ok m' ∧ ∀ k, k ∈ bt_keys m' ↔ k ∈ map fst xs ∨ k ∈ bt_keys m.
Proof.
  revert m. induction xs as [|[k v] xs IH]; intros m Hm; cbn.
  - split; [done|]. set_solver.
  - destruct (IH (bt_insert k v m)) as [Hok Hk]; [by apply bt_ok_insert|]. split; [done|].
    intros k'. rewrite Hk, bt_keys_insert. set_solver.
Qed.

Lemma sorted_same {K : Type} `{!TotalOrd K} (xs ys : list K) :
  StronglySorted lt_of xs → StronglySorted lt_of ys → (∀ k, k ∈ xs ↔ k ∈ ys) → xs = ys.
Proof.
  intros Hx Hy Hk. assert (AntiSymm (=) (lt_of (A := K))) by (intros a b H1 H2; by apply lt_of_asym in H1).
  eapply (sorting.StronglySorted_unique lt_of); [done..|].
  apply NoDup_Permutation; [by apply sorted_lt_nodup..|done].
Qed.

Lemma static_keys_of ks b :
  keys_ok ks → (∀ k, k ∈ bt_keys ks ↔ k ∈ body_keys b) → bt_keys ks = static_keys b.
Proof.
  intros [Hok _] Hk. unfold static_keys, bt_collect.
  destruct (bt_collect_elem (map (λ k, (k, tt)) (body_keys b)) [] bt_ok_nil) as [Hok' Hk'].
  apply sorted_same; [done..|]. intros k. rewrite Hk, Hk', map_map, map_id. set_solver.
Qed.

Lemma expect_all_inv texts p p' :
  expect_all texts p = Ok p' → ∃ ts, Forall2 lexeme texts ts ∧ quiet p p' ts [].
Proof.
  revert p. induction texts as [|text texts IH]; intros p H; cbn in H.
  - simplify_eq. exists []. split; [constructor|apply quiet_refl].
  - bind_inv H. apply quiet_expect in E as (k & Hk & Q). apply IH in H as (ts & Hts & Q').
    exists (k :: ts). split; [by constructor|]. exact (quiet_trans _ _ _ _ _ _ _ Q Q').
Qed.

(** The generated program: static keys in canonical order and the code of the tree. *)
Definition generates (program : CheckedProgram) (b : body) : Prop :=
  cp_keys program = static_keys b
  ∧ ∃ slot sc, (∀ k, k ∈ body_keys b → cp_keys program !! slot k = Some k)
    ∧ gen_body slot [[]] b 0 0 0
      = Some (mkGenerated (cp_instructions program) sc (cp_locals program) (cp_registers program) true).

Lemma mapping_slot ks mapping k :
  keys_ok ks → key_mapping ks (replicate (length ks) O) 0 = Ok mapping → k ∈ bt_keys ks →
  bt_keys ks !! default O (mapping !! table_slot ks k) = Some k.
Proof.
  intros [Hok Hv] Hm [old Hg]%bt_key_get. unfold table_slot. rewrite Hg. cbn.
  pose proof (bt_get_some_in _ _ _ Hg) as [i Hi]%list_elem_of_lookup.
  destruct (key_mapping_ok _ _ _ _ Hm) as [Hin _].
  { change (map snd ks) with (bt_values ks). rewrite Hv. apply NoDup_seq. }
  rewrite (Hin _ _ _ Hi). cbn. unfold bt_keys. by rewrite list_lookup_fmap, Hi.
Qed.

Lemma token_not_end o rest k n : token o rest = Ok (k, n) → k ≠ End_.
Proof.
  unfold token, lex_key, lex_symbol, refuse. intros H. destruct rest as [|b rest]; [done|].
  repeat first [case_in H | progress bind_inv H]; simplify_eq; congruence.
Qed.

Lemma lex_shape source ts :
  lex source = Ok ts → ∃ ts0 e, ts = ts0 ++ [e] ∧ tok_kind e = End_ ∧ Forall (λ t, tok_kind t ≠ End_) ts0.
Proof. apply lex_source_shape. intros ? ? ? ?. apply token_not_end. Qed.

Lemma parse_result source program :
  parse source = Ok program →
  ∃ ts b, lex source = Ok ts ∧ program_toks (map tok_kind ts) b ∧ generates program b.
Proof.
  unfold parse. intros H. bind_inv H. rename a into ts. case_in H; [by apply error_inv in H|].
  bind_inv H. case_in H; [by apply error_inv in H|]. bind_inv H. subst.
  apply expect_all_inv in E0 as (header & Hh & [Eh Hs Hl Hr]). apply block_result_all in E1 as (b' & inner & code & Eb & Tb & Gb).
  pose proof (emits_trans _ _ _ _ _ _ _ _ _ Eh Eb) as [Hk Hc Hks]. cbn in Hs, Hl, Hr, Hc, Hks.
  assert (keys_ok []) as Hok0 by by split; [constructor|].
  destruct (Hks Hok0) as (Hok & _ & Hdom). exists ts, b'. split; [done|]. split.
  - exists header, inner. split; [|done]. unfold kinds at 1 in Hk. cbn [pos tokens drop] in Hk. rewrite (peek_kinds _ _ E2), Heqb1 in Hk.
    change (map tok_kind ts = (header ++ inner) ++ End_ :: kinds (advance p)) in Hk.
    rewrite (end_last _ _ _ _ (lex_shape _ _ E) Hk) in Hk. by rewrite Hk, <- app_assoc.
  - split; cbn [cp_keys cp_instructions cp_locals cp_registers].
    { apply static_keys_of; [done|]. intros k. rewrite Hdom. set_solver. }
    destruct (Gb (emits_keys_ok _ _ _ _ _ Eh Hok0)) as [_ G]. destruct (G _ (table_agrees _)) as [sc Hg].
    destruct Eh as [_ Hi0 _]. cbn in Hi0. rewrite Hs, Hl, Hr, Hi0 in Hg. cbn in Hg.
    exists (λ k, default O (a1 !! table_slot (keys p) k)), sc. split.
    + intros k Hin. apply mapping_slot; [done|done|]. apply Hdom. by right.
    + etrans; [apply (proj2 (gen_renumber (table_slot (keys p)) (λ i, default O (a1 !! i))))|].
      etrans; [apply f_equal, Hg|]. cbn.
      apply remap_all in E4 as ->. unfold renumbered. cbn. by rewrite Hc.
Qed.
