(* ===== verification/TroctoTotal.v ===== *)
(** * TroctoTotal: the front end of version two is total

    Whatever the source, the front end accepts or refuses with an offset and a message:
    it never reads past the end marker, never patches an instruction or a key slot out
    of range, and its recursion is bounded by the number of tokens left. *)

From S2P Require Import Prelude Ordered Codec Trocto TroctoStateful TroctoSource TroctoCompile.

#[local] Arguments cmp : simpl never.

(** ** What the parser maintains *)

Definition slot_below (n : nat) (s : Step) : Prop :=
  match s with Get _ k | SetKey k _ | Delete k => (k < n)%nat | _ => True end.

(** The tokens end with the only end marker, the position has not passed it, and key
    slots of instructions exist. *)
Record sane (p : Parser) : Prop := {
  sane_tokens : ∃ ts0 e, tokens p = ts0 ++ [e] ∧ tok_kind e = End_ ∧ (pos p <= length ts0)%nat;
  sane_keys : keys_ok (keys p);
  sane_slots : Forall (slot_below (length (keys p))) (instructions p)
}.

(** At least [n] tokens on; code and keys only grow, scopes are balanced. *)
Record goes (n : nat) (p p' : Parser) : Prop := {
  goes_sane : sane p';
  goes_tokens : tokens p' = tokens p;
  goes_pos : (pos p + n <= pos p')%nat;
  goes_code : (length (instructions p) <= length (instructions p'))%nat;
  goes_scopes : length (scopes p') = length (scopes p);
  goes_keys : (length (keys p) <= length (keys p'))%nat
}.

(** Tokens left, the end marker included. *)
Definition left_of (p : Parser) : nat := length (tokens p) - pos p.

Lemma goes_refl p : sane p → goes 0 p p.
Proof. intros. split; [done|done|lia|lia|done|lia]. Qed.

Lemma goes_trans n m p p1 p2 : goes n p p1 → goes m p1 p2 → goes (n + m) p p2.
Proof. intros [] []. split; [done|congruence|lia|lia|congruence|lia]. Qed.

Lemma goes_less n m p p' : goes n p p' → (m <= n)%nat → goes m p p'.
Proof. intros [] ?. split; [done|done|lia|lia|done|lia]. Qed.

Lemma goes_left n p p' : goes n p p' → (left_of p' + n <= left_of p)%nat.
Proof.
  intros [[(ts0 & e & Ht & _ & Hp) _ _] Htok Hpos _ _ _]. unfold left_of. rewrite <- Htok, Ht, length_app. cbn. lia.
Qed.

Lemma goes_sane_from n p p' : goes n p p' → sane p'.
Proof. by intros []. Qed.

Lemma peek_sane p : sane p → ∃ t, peek p = Ok t ∧ (tok_kind t ≠ End_ → goes 1 p (advance p)).
Proof.
  intros [(ts0 & e & Ht & He & Hp) Hk Hs]. unfold peek.
  destruct (lookup_lt_is_Some_2 (tokens p) (pos p)) as [t Hl]; [rewrite Ht, length_app; cbn; lia|].
  exists t. rewrite Hl. split; [done|]. intros Hn. split; cbn; [|done|lia|lia|done|lia]. split; [|done|done].
  exists ts0, e. split; [done|]. split; [done|]. cbn.
  destruct (decide (pos p = length ts0)) as [Heq|]; [|lia].
  rewrite Ht, Heq, lookup_app_r, Nat.sub_diag in Hl by done. cbn in Hl. by simplify_eq.
Qed.

Lemma error_orderly {A : Type} message p (Q : A → Prop) : sane p → orderly (error message p) Q.
Proof. intros (t & Ht & _)%peek_sane. unfold error. by rewrite Ht. Qed.

Lemma peek_orderly p : sane p → orderly (peek p) (λ t, tok_kind t ≠ End_ → goes 1 p (advance p)).
Proof. intros (t & Ht & Hg)%peek_sane. by rewrite Ht. Qed.

Lemma text_not_end k text : text_is k text = true → k ≠ End_.
Proof. by destruct k. Qed.

Lemma take_text_orderly text p :
  sane p → orderly (take_text text p) (λ '(b, p'), if b then goes 1 p p' else p' = p).
Proof.
  intros (t & Ht & Hg)%peek_sane. unfold take_text, has. rewrite Ht. cbn.
  destruct (text_is (tok_kind t) text) eqn:Hk; [|done]. by eapply Hg, text_not_end.
Qed.

Lemma expect_orderly text p : sane p → orderly (expect text p) (goes 1 p).
Proof.
  intros Hs. unfold expect. eapply orderly_bind; [by apply take_text_orderly|].
  intros [[] p'] _ Hp; [done|]. subst. by apply error_orderly.
Qed.

Lemma emit_orderly s p :
  sane p → slot_below (length (keys p)) s →
  orderly (emit s p) (λ '(i, p'), goes 0 p p' ∧ i = length (instructions p) ∧ (i < length (instructions p'))%nat).
Proof.
  intros Hs Hk. unfold emit. case_test; [by apply error_orderly|]. cbn. rewrite length_app. cbn.
  split; [|lia]. split; cbn; [|done|lia|rewrite length_app; lia|done|lia].
  destruct Hs as [Ht Hok Hf]. split; [done|done|]. cbn. apply Forall_app. split; [done|by repeat constructor].
Qed.

Lemma register_orderly ty p : sane p → orderly (register ty p) (λ '(_, p'), goes 0 p p').
Proof.
  intros Hs. unfold register. case_test; [by apply error_orderly|]. cbn.
  split; [|done|cbn; lia|done|done|done]. by destruct Hs.
Qed.

Lemma typed_orderly v ty p : sane p → orderly (typed v ty p) (λ _, True).
Proof. intros Hs. unfold typed. case_test; [done|by apply error_orderly]. Qed.

Lemma emit_value_orderly ty s p :
  sane p → (∀ d n, slot_below n (s d)) → orderly (emit_value ty s p) (λ '(_, p'), goes 0 p p').
Proof.
  intros Hs Hk. unfold emit_value. eapply orderly_bind; [by apply register_orderly|]. intros [v p1] _ H1.
  eapply orderly_bind; [by apply emit_orderly; [apply H1|]|]. intros [i p2] _ (H2 & _). exact (goes_trans 0 0 _ _ _ H1 H2).
Qed.

Lemma set_context_goes p : sane p → goes 0 p (set_context p).
Proof. intros [Ht Hk Hf]. split; [by split|done|cbn; lia|done|done|done]. Qed.

Lemma slot_below_mono n m s : slot_below n s → (n <= m)%nat → slot_below m s.
Proof. destruct s; cbn; try done; lia. Qed.

Lemma keys_below ks k i : keys_ok ks → (k, i) ∈ ks → (i < length ks)%nat.
Proof.
  intros [_ Hp] Hin. assert (i ∈ bt_values ks) as Hv.
  { unfold bt_values. apply list_elem_of_In, in_map_iff. exists (k, i). split; [done|by apply list_elem_of_In]. }
  rewrite Hp in Hv. apply elem_of_seq in Hv. lia.
Qed.

Lemma key_orderly p :
  sane p → orderly (key p) (λ '(k, p'), goes 1 p p' ∧ (k < length (keys p'))%nat).
Proof.
  intros Hs. unfold key. destruct (peek_sane _ Hs) as (t & Ht & Hg). rewrite Ht.
  destruct (tok_kind t) eqn:Hk; try by apply error_orderly.
  specialize (Hg ltac:(done)). pose proof (goes_trans _ _ _ _ _ Hg (set_context_goes _ (goes_sane _ _ _ Hg))) as Hg1.
  set (p1 := set_context (advance p)) in *. destruct (bt_get text (keys p1)) as [i|] eqn:Hget.
  - cbn. split; [done|]. by eapply keys_below, bt_get_some_in; [apply Hs|].
  - case_test; [apply error_orderly, Hg1|]. cbn.
    pose proof (bt_insert_fresh_perm text (length (keys p)) _ Hget) as Hperm%Permutation_length. cbn in Hperm.
    split; [|cbn; lia]. destruct Hg1 as [[Ht1 Hk1 Hf1] ? ? ? ? ?]. split; cbn; [|done|cbn in *; lia|done|done|lia].
    split; [done| |].
    + by apply (keys_step_insert text (keys p)).
    + cbn. eapply Forall_impl; [exact Hf1|]. intros s Hb. eapply slot_below_mono; [exact Hb|]. cbn. lia.
Qed.

Lemma patch_orderly i s p :
  sane p → (i < length (instructions p))%nat → (∀ n, slot_below n s) → orderly (patch i s p) (goes 0 p).
Proof.
  intros [Ht Hk Hf] Hi Hs. unfold patch. rewrite bool_decide_true by done. cbn.
  split; cbn; [|done|lia|by rewrite length_insert|done|lia]. split; [done|done|]. cbn. by apply Forall_insert.
Qed.

Lemma limb_orderly message p : sane p → orderly (limb message p) (λ '(_, p'), goes 1 p p').
Proof.
  intros Hs. unfold limb. destruct (peek_sane _ Hs) as (t & Ht & Hg). rewrite Ht.
  destruct (tok_kind t) eqn:Hk; try by apply error_orderly. case_test; [by apply error_orderly|]. by apply Hg.
Qed.

Lemma binary_type_orderly operator lhs rhs p : sane p → orderly (binary_type operator lhs rhs p) (λ _, True).
Proof.
  intros Hs. unfold binary_type. case_match; [case_test; [done|by apply error_orderly]|].
  eapply orderly_bind; [by apply typed_orderly|]. intros _ _ _.
  eapply orderly_bind; [by apply typed_orderly|]. intros _ _ _. repeat case_match; done.
Qed.

(** ** Expressions *)

(** Sanity, progress and fuel from the steps taken so far. *)
Ltac solve_sane :=
  first [ assumption | match goal with H : goes _ _ ?p |- sane ?p => exact (goes_sane _ _ _ H) end ].
Ltac chain :=
  match goal with
  | |- goes _ ?p ?p => apply goes_refl; solve_sane
  | H : goes _ ?x ?q |- goes _ _ ?q => first [ exact H | eapply (goes_trans _ _ _ x); [chain | exact H] ]
  end.
Ltac solve_goes := eapply goes_less; [chain | lia].
Ltac solve_fuel := repeat match goal with H : goes _ _ _ |- _ => apply goes_left in H end; unfold left_of in *; cbn in *; lia.

(** One step of a front end. *)
Ltac walk_step :=
  lazymatch goal with
  | |- orderly (error _ _) _ => apply error_orderly; solve_sane
  | |- orderly (match expect _ _ with Ok _ => _ | Err _ => _ end) _ =>
      eapply orderly_bind; [apply expect_orderly; solve_sane | intros ? _ ?]
  | |- orderly (match take_text _ _ with Ok _ => _ | Err _ => _ end) _ =>
      eapply orderly_bind; [apply take_text_orderly; solve_sane | intros [[] ?] _ ?; subst; cbn [fst snd] in *]
  | |- orderly (match register _ _ with Ok _ => _ | Err _ => _ end) _ =>
      eapply orderly_bind; [apply register_orderly; solve_sane | intros [? ?] _ ?]
  | |- orderly (match emit _ _ with Ok _ => _ | Err _ => _ end) _ =>
      eapply orderly_bind; [apply emit_orderly; [solve_sane | cbn; try done; try lia] | intros [? ?] _ (? & ? & ?)]
  | |- orderly (match typed _ _ _ with Ok _ => _ | Err _ => _ end) _ =>
      eapply orderly_bind; [apply typed_orderly; solve_sane | intros _ _ _]
  | |- orderly (match emit_value _ _ _ with Ok _ => _ | Err _ => _ end) _ =>
      eapply orderly_bind; [apply emit_value_orderly; [solve_sane | done] | intros [? ?] _ ?]
  | |- orderly (match binary_type _ _ _ _ with Ok _ => _ | Err _ => _ end) _ =>
      eapply orderly_bind; [apply binary_type_orderly; solve_sane | intros [? ?] _ _]
  | |- orderly (match key _ with Ok _ => _ | Err _ => _ end) _ =>
      eapply orderly_bind; [apply key_orderly; solve_sane | intros [? ?] _ [? ?]]
  | |- orderly (match limb _ _ with Ok _ => _ | Err _ => _ end) _ =>
      eapply orderly_bind; [apply limb_orderly; solve_sane | intros [? ?] _ ?]
  | |- orderly (match patch _ _ _ with Ok _ => _ | Err _ => _ end) _ =>
      eapply orderly_bind; [apply patch_orderly; [solve_sane | | by intros; repeat case_match] | intros ? _ ?]
  | |- orderly (Ok _) _ => cbn; try solve_goes
  end.
Ltac walk := repeat walk_step.

(** The same parser once it needs a context. *)
Ltac enter_context r :=
  match goal with
  | H : goes _ _ ?q |- context [set_context ?q] =>
      pose proof (set_context_goes q (goes_sane _ _ _ H)); set (r := set_context q) in *; clearbody r
  end.

Lemma emit_value_goes n ty s p p0 :
  goes n p p0 → (∀ d k, slot_below k (s d)) → orderly (emit_value ty s p0) (λ '(_, p'), goes n p p').
Proof.
  intros Hg Hs. eapply orderly_mono; [by apply emit_value_orderly; [apply Hg|]|]. intros [v p'] H. solve_goes.
Qed.

Definition expression_total (fuel : nat) : Prop :=
  (∀ minimum depth p, sane p → (4 * left_of p <= fuel)%nat →
     orderly (expression fuel minimum depth p) (λ '(_, p'), goes 1 p p'))
  ∧ (∀ minimum depth lhs p, sane p → (4 * left_of p + 2 <= fuel)%nat →
     orderly (operators fuel minimum depth lhs p) (λ '(_, p'), goes 0 p p'))
  ∧ (∀ depth p, sane p → (4 * left_of p <= S fuel)%nat →
     orderly (atom fuel depth p) (λ '(_, p'), goes 1 p p'))
  ∧ (∀ name depth p, sane p → goes 1 p (advance p) → (4 * left_of p <= 2 + fuel)%nat →
     orderly (builtin fuel name depth p) (λ '(_, p'), goes 1 p p')).

Lemma left_pos p : sane p → (1 <= left_of p)%nat.
Proof. intros [(ts0 & e & Ht & _ & Hp) _ _]. unfold left_of. rewrite Ht, length_app. cbn. lia. Qed.

Lemma operators_total fuel minimum depth lhs p :
  expression_total fuel → sane p → (4 * left_of p + 2 <= S fuel)%nat →
  orderly (operators (S fuel) minimum depth lhs p) (λ '(_, p'), goes 0 p p').
Proof.
  intros (IHe & IHo & _ & _) Hs Hf. cbn [operators]. destruct (peek_sane _ Hs) as (t & Ht & Hg). rewrite Ht.
  destruct (tok_kind t); cbn [symbol_of]; try (by apply goes_refl).
  destruct (precedence_of text) as [prec|]; [|by apply goes_refl]. specialize (Hg ltac:(done)).
  case_test; [by apply goes_refl|]. destruct (is_text text "&&" || is_text text "||").
  - walk. eapply orderly_bind; [apply IHe; [solve_sane|solve_fuel]|]. intros [rhs q] _ ?. walk.
    { repeat match goal with H : goes _ _ _ |- _ => apply goes_code in H end. lia. }
    eapply orderly_mono; [apply IHo; [solve_sane|solve_fuel]|]. intros [? ?] ?. solve_goes.
  - eapply orderly_bind; [apply IHe; [solve_sane|solve_fuel]|]. intros [rhs q] _ ?. walk.
    eapply orderly_mono; [apply IHo; [solve_sane|solve_fuel]|]. intros [? ?] ?. solve_goes.
Qed.

Lemma atom_total fuel depth p :
  expression_total fuel → sane p → (4 * left_of p <= S (S fuel))%nat →
  orderly (atom (S fuel) depth p) (λ '(_, p'), goes 1 p p').
Proof.
  intros (IHe & _ & _ & IHb) Hs Hf. cbn [atom]. destruct (peek_sane _ Hs) as (t & Ht & Hg). rewrite Ht.
  pose proof (left_pos _ Hs). destruct (tok_kind t); try (by apply error_orderly); specialize (Hg ltac:(done)).
  - case_match; [by apply emit_value_goes|]. case_match; [by apply emit_value_goes|].
    case_match; [apply IHb; [done|done|lia]|]. destruct (binding_for text p); [by apply emit_value_goes|by apply error_orderly].
  - by apply emit_value_goes.
  - case_match; [|case_match; [|by apply error_orderly]];
      (eapply orderly_bind; [apply IHe; [solve_sane|solve_fuel]|]; intros [v q] _ ?; walk).
    apply emit_value_goes; [solve_goes|done].
Qed.

Lemma builtin_total fuel name depth p :
  expression_total fuel → sane p → goes 1 p (advance p) → (4 * left_of p <= 2 + S fuel)%nat →
  orderly (builtin (S fuel) name depth p) (λ '(_, p'), goes 1 p p').
Proof.
  intros (IHe & _) Hs Hg Hf. cbn [builtin]. walk.
  enter_context p1.
  eapply (orderly_bind _ _ (λ '(s, q), goes 0 p1 q ∧ slot_below (length (keys q)) s)).
  - destruct (is_text name "state_get"); [walk; split; [solve_goes|done]|].
    destruct (is_text name "height"); [walk; split; [solve_goes|done]|].
    destruct (is_text name "key_count"); [walk; split; [solve_goes|done]|].
    destruct (is_text name "state_get_at");
      [|destruct (is_text name "key_word"); [|by walk; split; [solve_goes|done]]];
      (eapply orderly_bind; [apply IHe; [solve_sane|solve_fuel]|]; intros [k q] _ ?; walk; split; [solve_goes|done]).
  - intros [s q] _ [? Hb]. walk. eapply slot_below_mono; [exact Hb|]. by eapply goes_keys.
Qed.

Lemma expression_total_all fuel : expression_total fuel.
Proof.
  induction fuel as [|fuel IH].
  - repeat split; intros; pose proof (left_pos p ltac:(done)); lia.
  - split; [|split; [|split]].
    + intros minimum depth p Hs Hf. cbn [expression]. case_test; [by apply error_orderly|].
      destruct IH as (IHe & IHo & IHa & IHb).
      eapply orderly_bind; [apply IHa; [done|lia]|]. intros [v q] _ ?.
      eapply orderly_mono; [apply IHo; [solve_sane|solve_fuel]|]. intros [? ?] ?. solve_goes.
    + intros. by apply operators_total.
    + intros. by apply atom_total.
    + intros. by apply builtin_total.
Qed.

Lemma full_expression_orderly p : sane p → orderly (full_expression p) (λ '(_, p'), goes 1 p p').
Proof.
  intros Hs. unfold full_expression. apply (expression_total_all (parse_fuel p)); [done|].
  unfold parse_fuel, left_of. lia.
Qed.

Lemma typed_expression_orderly ty p : sane p → orderly (typed_expression ty p) (λ '(_, p'), goes 1 p p').
Proof.
  intros Hs. unfold typed_expression. eapply orderly_bind; [by apply full_expression_orderly|]. intros [v q] _ ?. walk.
Qed.

(** ** Statements *)

Ltac walk_more :=
  repeat first
    [ walk_step
    | lazymatch goal with
      | |- orderly (match typed_expression _ _ with Ok _ => _ | Err _ => _ end) _ =>
          eapply orderly_bind; [apply typed_expression_orderly; solve_sane | intros [? ?] _ ?]
      | |- orderly (match full_expression _ with Ok _ => _ | Err _ => _ end) _ =>
          eapply orderly_bind; [apply full_expression_orderly; solve_sane | intros [? ?] _ ?]
      end ].

Lemma finish_host_orderly n s p p0 :
  goes n p p0 → slot_below (length (keys p0)) s → orderly (finish_host s p0) (goes n p).
Proof.
  intros Hg Hs. unfold finish_host. walk. eapply slot_below_mono; [exact Hs|].
  repeat match goal with H : goes _ _ _ |- _ => apply goes_keys in H end. lia.
Qed.

Lemma host_statement_orderly name p :
  sane p → goes 1 p (advance p) → orderly (host_statement name p) (goes 1 p).
Proof.
  intros Hs Hg. unfold host_statement. walk_more. destruct (is_text name "emit"); [|destruct (_ || _)].
  - walk_more. enter_context q. walk_more.
  - enter_context q. walk_more. destruct (is_text name "state_set_at"); walk_more;
      (apply finish_host_orderly; [solve_goes|done]).
  - walk_more. destruct (is_text name "state_set"); walk_more; (apply finish_host_orderly; [solve_goes|cbn]);
      repeat match goal with H : goes _ _ _ |- _ => apply goes_keys in H end; lia.
Qed.

Lemma declared_type_orderly p : sane p → orderly (declared_type p) (λ '(_, p'), goes 0 p p').
Proof. intros Hs. unfold declared_type. walk_more. Qed.

Lemma set_locals_goes n p : sane p → goes 0 p (set_locals n p).
Proof. intros [Ht Hk Hf]. split; [split; cbn; done|done|cbn; lia|done|done|done]. Qed.

Lemma bind_local_orderly n p0 name b p :
  goes n p0 p → (1 <= length (scopes p0))%nat → orderly (bind_local name b p) (goes n p0).
Proof.
  intros [[Ht Hk Hf] ? ? ? Hsc ?] Hl. unfold bind_local. destruct (scopes p) as [|s ss] eqn:Hss; [cbn in *; lia|].
  cbn. split; cbn; [by split|done|done|done|by cbn in Hsc|done].
Qed.

Lemma local_statement_orderly p :
  sane p → (1 <= length (scopes p))%nat → orderly (local_statement p) (goes 1 p).
Proof.
  intros Hs Hl. unfold local_statement. eapply orderly_bind; [by apply take_text_orderly|]. intros [mutable q] _ Hq.
  assert (goes 0 p q) as Hq0 by (destruct mutable; [solve_goes|subst; by apply goes_refl]). clear Hq.
  destruct (peek_sane q ltac:(solve_sane)) as (t & Ht & Hg). rewrite Ht.
  destruct (tok_kind t); try (by apply error_orderly, Hq0). specialize (Hg ltac:(done)).
  do 3 match goal with |- orderly (if ?b then _ else _) _ => destruct b; [by apply error_orderly, Hq0|] end.
  eapply orderly_bind; [apply declared_type_orderly; solve_sane|]. intros [declared q1] _ ?. walk_more.
  eapply (orderly_bind _ _ (λ _, True)); [destruct declared; [apply typed_orderly; solve_sane|done]|]. intros _ _ _. walk_more.
  match goal with H : goes _ _ ?q |- context [set_locals ?n ?q] =>
    pose proof (set_locals_goes n q (goes_sane _ _ _ H)); set (q4 := set_locals n q) in * end.
  walk_more. apply bind_local_orderly; [solve_goes|done].
Qed.

Lemma assignment_orderly p : sane p → orderly (assignment p) (goes 1 p).
Proof.
  intros Hs. unfold assignment. destruct (peek_sane _ Hs) as (t & Ht & Hg). rewrite Ht.
  destruct (tok_kind t); try (by apply error_orderly). specialize (Hg ltac:(done)).
  destruct (binding_for text p) as [b|]; [|by apply error_orderly]. case_match; [by apply error_orderly|]. walk_more.
Qed.

Lemma return_statement_orderly p : sane p → orderly (return_statement p) (goes 1 p).
Proof. intros Hs. unfold return_statement. walk_more. Qed.

Lemma plain_statement_orderly p : sane p → orderly (plain_statement p) (goes 1 p).
Proof.
  intros Hs. unfold plain_statement. destruct (peek_sane _ Hs) as (t & Ht & Hg). rewrite Ht.
  destruct (tok_kind t); try (by apply assignment_orderly). case_test; [|by apply assignment_orderly].
  apply host_statement_orderly; [done|by apply Hg].
Qed.

(** ** Blocks *)

Lemma sane_scopes ss p : sane p → sane (set_scopes ss p).
Proof. intros [Ht Hk Hf]. split; cbn; done. Qed.

(** A block opens a scope and drops it at the end. *)
Lemma goes_scope n m p q :
  goes n p q → ∀ r, goes m (set_scopes ([] :: scopes q) q) r → goes (n + m) p (set_scopes (tail (scopes r)) r).
Proof.
  intros [Hq Htq Hpq Hcq Hsq Hkq] r [Hr Htr Hpr Hcr Hsr Hkr]. cbn in *.
  split; cbn; [by apply sane_scopes|congruence|lia|lia| |lia]. destruct (scopes r); cbn in *; lia.
Qed.

Definition block_total (fuel : nat) : Prop :=
  (∀ depth p, sane p → (4 * left_of p <= fuel)%nat → orderly (block fuel depth p) (λ '(_, p'), goes 1 p p'))
  ∧ (∀ depth returns p, sane p → (1 <= length (scopes p))%nat → (4 * left_of p + 2 <= fuel)%nat →
     orderly (statements fuel depth returns p) (λ '(_, p'), goes 0 p p'))
  ∧ (∀ depth p, sane p → (1 <= length (scopes p))%nat → (4 * left_of p + 1 <= fuel)%nat →
     orderly (statement fuel depth p) (λ '(_, p'), goes 1 p p'))
  ∧ (∀ depth p, sane p → (4 * left_of p + 1 <= fuel)%nat →
     orderly (if_statement fuel depth p) (λ '(_, p'), goes 1 p p'))
  ∧ (∀ depth p, sane p → (4 * left_of p + 1 <= fuel)%nat →
     orderly (while_statement fuel depth p) (λ '(_, p'), goes 1 p p')).

Ltac solve_code := repeat match goal with H : goes _ _ _ |- _ => apply goes_code in H end; lia.

Lemma if_total fuel depth p :
  block_total fuel → sane p → (4 * left_of p + 1 <= S fuel)%nat →
  orderly (if_statement (S fuel) depth p) (λ '(_, p'), goes 1 p p').
Proof.
  intros (IHb & _) Hs Hf. cbn [if_statement]. walk_more.
  eapply orderly_bind; [apply IHb; [solve_sane|solve_fuel]|]. intros [yes q] _ ?.
  eapply (orderly_bind _ _ (λ '(skip, q'), goes 0 q q'
    ∧ match skip with Some i => (i < length (instructions q'))%nat | None => True end)).
  { destruct yes; walk_more; (split; [solve_goes|done]). }
  intros [skip q1] _ [? Hskip]. eapply orderly_bind; [apply take_text_orderly; solve_sane|]. intros [has_else q2] _ Hq2.
  assert (goes 0 q1 q2) by (destruct has_else; [solve_goes|subst; apply goes_refl; solve_sane]). clear Hq2.
  eapply (orderly_bind _ _ (λ '(_, q3), goes 0 q2 q3)).
  { destruct has_else; [|by apply goes_refl; solve_sane]. eapply orderly_mono; [apply IHb; [solve_sane|solve_fuel]|].
    intros [? ?] ?. solve_goes. }
  intros [no q3] _ ?. walk_more; [solve_code|].
  eapply (orderly_bind _ _ (goes 0 a)); [|intros; walk_more]. destruct skip as [i|]; [|walk_more].
  apply patch_orderly; [solve_sane|solve_code|done].
Qed.

Lemma while_total fuel depth p :
  block_total fuel → sane p → (4 * left_of p + 1 <= S fuel)%nat →
  orderly (while_statement (S fuel) depth p) (λ '(_, p'), goes 1 p p').
Proof.
  intros (IHb & _) Hs Hf. cbn [while_statement]. walk_more.
  eapply orderly_bind; [apply IHb; [solve_sane|solve_fuel]|]. intros [returns q] _ ?.
  eapply (orderly_bind _ _ (goes 0 q)); [destruct returns; walk_more|]. intros q1 _ ?. walk_more. solve_code.
Qed.

Lemma statement_total fuel depth p :
  block_total fuel → sane p → (1 <= length (scopes p))%nat → (4 * left_of p + 1 <= S fuel)%nat →
  orderly (statement (S fuel) depth p) (λ '(_, p'), goes 1 p p').
Proof.
  intros (_ & _ & _ & IHi & IHw) Hs Hl Hf. cbn [statement].
  eapply orderly_bind; [by apply take_text_orderly|]. intros [[] q] _ Hq.
  { eapply orderly_bind; [apply local_statement_orderly; [solve_sane|rewrite (goes_scopes _ _ _ Hq); done]|]. intros; walk_more. }
  subst q. eapply orderly_bind; [by apply take_text_orderly|]. intros [[] q] _ Hq.
  { eapply orderly_bind; [apply return_statement_orderly; solve_sane|]. intros; walk_more. }
  subst q. eapply orderly_bind; [by apply take_text_orderly|]. intros [[] q] _ Hq.
  { eapply orderly_mono; [apply IHi; [solve_sane|solve_fuel]|]. intros [? ?] ?. solve_goes. }
  subst q. eapply orderly_bind; [by apply take_text_orderly|]. intros [[] q] _ Hq.
  { eapply orderly_mono; [apply IHw; [solve_sane|solve_fuel]|]. intros [? ?] ?. solve_goes. }
  subst q. eapply orderly_bind; [by apply plain_statement_orderly|]. intros; walk_more.
Qed.

Lemma statements_total fuel depth returns p :
  block_total fuel → sane p → (1 <= length (scopes p))%nat → (4 * left_of p + 2 <= S fuel)%nat →
  orderly (statements (S fuel) depth returns p) (λ '(_, p'), goes 0 p p').
Proof.
  intros (_ & IHs & IH1 & _) Hs Hl Hf. cbn [statements]. unfold has. destruct (peek_sane _ Hs) as (t & Ht & Hg). rewrite Ht.
  destruct (text_is (tok_kind t) "}"); [by apply goes_refl|]. case_test; [by apply error_orderly|].
  destruct returns; [by apply error_orderly|].
  eapply orderly_bind; [apply IH1; [done|done|lia]|]. intros [r q] _ Hq.
  eapply orderly_mono; [apply IHs; [solve_sane|rewrite (goes_scopes _ _ _ Hq); done|solve_fuel]|]. intros [? ?] ?. solve_goes.
Qed.

Lemma block_total_all fuel : block_total fuel.
Proof.
  induction fuel as [|fuel IH].
  - repeat split; intros; pose proof (left_pos p ltac:(done)); lia.
  - split; [|split; [|split; [|split]]]; intros.
    + cbn [block]. destruct IH as (_ & IHs & _). case_test; [by apply error_orderly|].
      eapply orderly_bind; [by apply expect_orderly|]. intros q _ Hq.
      eapply orderly_bind.
      { apply IHs; [apply sane_scopes; solve_sane|cbn; lia|]. apply goes_left in Hq. unfold left_of in *. cbn. lia. }
      intros [r q1] _ H1. eapply orderly_bind; [by apply expect_orderly, H1|]. intros q2 _ H2. cbn.
      eapply goes_less; [apply (goes_scope 1 1 _ q Hq)|lia]. exact (goes_trans 0 1 _ _ _ H1 H2).
    + by apply statements_total.
    + by apply statement_total.
    + by apply if_total.
    + by apply while_total.
Qed.

(** ** Sources *)

Lemma token_orderly o b rest : orderly (token o (b :: rest)) (λ x, (1 <= x.2)%nat).
Proof.
  unfold token. destruct (word_start b) eqn:Hw.
  { eapply orderly_bind; [by apply lex_word_orderly|]. by intros [? ?]. }
  destruct (is_ascii_digit b) eqn:Hd.
  { eapply orderly_bind; [by apply lex_number_orderly|]. by intros [? ?]. }
  destruct (is_byte 34 b).
  - unfold lex_key. eapply (orderly_bind _ _ (λ _, True)).
    + generalize (o + 1) as o'. clear. induction rest as [|b rest IH]; intros o'; cbn; [done|].
      case_match; [done|]. case_match; [done|]. eapply orderly_bind; [apply IH|done].
    + intros n _ _. repeat case_match; cbn; try done; lia.
  - unfold lex_symbol. repeat case_match; cbn; try done; lia.
Qed.

Lemma expect_all_orderly texts p : sane p → orderly (expect_all texts p) (goes 0 p).
Proof.
  revert p. induction texts as [|text texts IH]; intros p Hs; cbn; [by apply goes_refl|].
  walk. eapply orderly_mono; [apply IH; solve_sane|]. intros. solve_goes.
Qed.

Lemma key_mapping_orderly ks mapping n :
  Forall (λ x, (x.2 < length mapping)%nat) ks → orderly (key_mapping ks mapping n) (λ m, length m = length mapping).
Proof.
  revert mapping n. induction ks as [|[k old] ks IH]; intros mapping n Hf; cbn; [done|]. inversion Hf; subst. cbn in *.
  rewrite bool_decide_true by done. eapply orderly_mono; [apply IH; by rewrite length_insert|].
  intros m ->. by rewrite length_insert.
Qed.

Lemma remap_orderly mapping code :
  Forall (slot_below (length mapping)) code → orderly (try_map (remap mapping) code) (λ _, True).
Proof.
  induction 1 as [|s code Hs _ IH]; [done|]. cbn. eapply (orderly_bind _ _ (λ _, True)).
  - destruct s; cbn in *; try done;
      (match goal with |- context [mapping !! ?k] => destruct (lookup_lt_is_Some_2 mapping k) as [? ->]; [done|done] end).
  - intros s' _ _. eapply orderly_bind; [exact IH|done].
Qed.

Lemma parse_orderly source : orderly (parse source) (λ _, True).
Proof.
  unfold parse. eapply orderly_bind; [apply lex_source_orderly, token_orderly|]. intros ts Hts _.
  apply lex_shape in Hts as (ts0 & e & -> & He & _).
  assert (sane (mkParser (ts0 ++ [e]) 0 [] 0 0 [] [] false)) as Hs.
  { split; cbn; [exists ts0, e; split; [done|]; split; [done|lia]|by split; [constructor|]|constructor]. }
  eapply orderly_bind; [by apply expect_all_orderly|]. intros p _ Hp.
  eapply orderly_bind; [apply block_total_all; [solve_sane|unfold parse_fuel, left_of; lia]|]. intros [returns q] _ Hq.
  case_match; [apply error_orderly; solve_sane|].
  eapply orderly_bind; [apply peek_orderly; solve_sane|]. intros t _ _. case_match; [apply error_orderly; solve_sane|].
  destruct (goes_sane _ _ _ Hq) as [_ Hkeys Hslots].
  eapply orderly_bind; [apply key_mapping_orderly|].
  { rewrite length_replicate. apply Forall_forall. intros [k old] Hin. by eapply keys_below. }
  intros m _ Hm. rewrite length_replicate in Hm. eapply orderly_bind; [apply remap_orderly; by rewrite Hm|]. done.
Qed.
