(* ===== verification/TroctoCorrect.v ===== *)
(** * TroctoCorrect: generated code does what the source means

    A simulation: wherever the machine stands in front of the code of an expression or
    a statement, with registers, locals and slots that represent the environment and
    the world of the interpreter, it runs to the end of that code with the represented
    result, fails with the same error, or returns the same number.  Well-typed syntax
    never makes the interpreter go [Wrong]. *)

From S2P Require Import Prelude Ordered Codec Trocto TroctoStateful TroctoSource TroctoCompile.

#[local] Arguments cmp : simpl never.

(** Number literals of a program. *)
Fixpoint expr_numbers (e : expr) : list Z :=
  match e with
  | ENumber z => [z]
  | ENot e | EKeyWord e _ | EStateGetAt e => expr_numbers e
  | EBin _ l r => expr_numbers l ++ expr_numbers r
  | _ => []
  end.

Fixpoint stmt_numbers (s : stmt) : list Z :=
  match s with
  | SLet _ _ _ e | SAssign _ e | SReturn e | SStateDeleteAt e | SStateSet _ e => expr_numbers e
  | SIf e yes no => expr_numbers e ++ body_numbers yes ++ body_numbers no
  | SWhile e b => expr_numbers e ++ body_numbers b
  | SStateDelete _ => []
  | SStateSetAt a b | SEmit a b => expr_numbers a ++ expr_numbers b
  end
with body_numbers (b : body) : list Z :=
  match b with
  | BNil => []
  | BCons s b => stmt_numbers s ++ body_numbers b
  end.

(** ** Operations on values *)

Lemma operator_range o x y z : operator_apply o x y = Ok z → u64 x → u64 y → u64 z.
Proof.
  unfold fits. intros H Hx Hy. destruct o; cbn in H.
  - apply ok_or_ok, checked_add_some in H. lia.
  - apply ok_or_ok, checked_sub_some in H. lia.
  - apply ok_or_ok, checked_mul_some in H. nia.
  - case_in H. simplify_eq. split; [apply Z.div_pos; lia|]. eapply Z.le_lt_trans; [apply Z.div_le_upper_bound with (q := x); nia|lia].
  - case_in H. simplify_eq. pose proof (Z.mod_pos_bound x y). lia.
Qed.

(** Numbers are 64-bit. *)
Definition value_ok (v : value) : Prop := match v with VNumber z => u64 z | VBool _ => True end.

Lemma apply_binary_ok b x y t :
  type_binary b (type_of_value x) (type_of_value y) = Some t → value_ok x → value_ok y →
  match apply_binary b x y with
  | Ok v => binary_apply b (encode x) (encode y) = Ok (encode v) ∧ type_of_value v = t ∧ value_ok v
  | Err (Fault e) => binary_apply b (encode x) (encode y) = Err e
  | Err Wrong => False
  end.
Proof.
  intros Ht Hx Hy. destruct x as [x|x], y as [y|y]; destruct b as [o| | | | | |]; cbn in Ht;
    case_bool_decide; simplify_eq; try naive_solver; try (by destruct x, y).
  cbn. destruct (operator_apply o x y) as [z|] eqn:E; cbn; [|done]. split; [done|]. split; [done|].
  by eapply operator_range.
Qed.

Lemma key_word_ok c k i :
  (i <= 3)%nat → (∃ z, key_word c k i = Ok z ∧ u64 z) ∨ key_word c k i = Err (Failed Bounds).
Proof.
  intros Hi. unfold key_word. destruct (cc_keys c !! Z.to_nat k) as [bs|]; [|by right].
  destruct (len bs =? 32) eqn:Hl; [|by right]. apply Z.eqb_eq in Hl. cbn. left. unfold slice.
  rewrite (proj2 (Z.leb_le _ _)), (proj2 (Z.leb_le _ _)) by lia. cbn. eexists. split; [done|].
  match goal with |- context [from_le ?x] => pose proof (from_le_fits x) as Hb end.
  unfold len in Hb, Hl. rewrite length_take, length_drop in Hb.
  replace (Nat.min _ _) with 8%nat in Hb by lia. exact Hb.
Qed.

Section simulation.
Context (P : CheckedProgram) (input : Z) (c : ContractContext) (fuel : Z) (slot : bytes → nat).

(** ** Running the machine *)

Definition steps : Machine → Machine → Prop := rtc (λ m m', dispatch P input c fuel m = Ok (inl m')).

Definition fails (m : Machine) (e : ExecutionError) : Prop :=
  ∃ m', steps m m' ∧ dispatch P input c fuel m' = Err (Failed e).

(** The machine [m] follows the interpreter: it reaches a state [Q] relates to the
    result, or fails with the same error. *)
Definition follows {A : Type} (m : Machine) (r : result A SourceFailure) (Q : A → Machine → Prop) : Prop :=
  match r with
  | Ok a => ∃ m', steps m m' ∧ Q a m'
  | Err (Fault e) => fails m e
  | Err Wrong => False
  end.

(** The same from the outcome of one instruction. *)
Definition follows_from {A : Type} (d : result (Machine + ContractExecution) RunFailure)
    (r : result A SourceFailure) (Q : A → Machine → Prop) : Prop :=
  (∃ m, d = Ok (inl m) ∧ follows m r Q) ∨ (∃ e, d = Err (Failed e) ∧ r = Err (Fault e)).

Lemma follows_ret {A : Type} m (a : A) (Q : A → Machine → Prop) : Q a m → follows m (Ok a) Q.
Proof. intros H. exists m. split; [apply rtc_refl|done]. Qed.

Lemma follows_steps {A : Type} m m' (r : result A SourceFailure) Q : steps m m' → follows m' r Q → follows m r Q.
Proof.
  intros Hs. destruct r as [a|[e|]]; cbn; [|intros (m2 & H2 & H3)|done].
  - intros (m2 & H2 & Hq). exists m2. split; [by etrans|done].
  - exists m2. split; [by etrans|done].
Qed.

Lemma follows_bind {A B : Type} m (r : result A SourceFailure) (k : A → result B SourceFailure) Q1 Q :
  follows m r Q1 → (∀ a m', r = Ok a → Q1 a m' → follows m' (k a) Q) → follows m (let? a := r in k a) Q.
Proof.
  intros Hr Hk. destruct r as [a|e]; [|exact Hr]. destruct Hr as (m' & Hs & Hq).
  eapply follows_steps; [exact Hs|]. by apply Hk.
Qed.

Lemma follows_mono {A : Type} m (r : result A SourceFailure) (Q1 Q : A → Machine → Prop) :
  follows m r Q1 → (∀ a m', Q1 a m' → Q a m') → follows m r Q.
Proof. intros Hr HQ. destruct r as [a|e]; [|exact Hr]. destruct Hr as (m' & Hs & Hq). exists m'. auto. Qed.

(** The machine state that represents a world. *)
Definition machine (pc : nat) (regs L : list Z) (w : world) : Machine :=
  mkMachine pc regs L (w_state w) (w_writes w) (w_events w) (w_used w).

(** An instruction that costs nothing. *)
Lemma follows_free {A : Type} pc regs L w s m' (r : result A SourceFailure) Q :
  cp_instructions P !! pc = Some s → charged s = false →
  execute input c s (machine pc regs L w) = Ok (inl m') → follows m' r Q → follows (machine pc regs L w) r Q.
Proof.
  intros Hs Hc He. apply follows_steps, rtc_once. unfold dispatch. cbn. by rewrite Hs, Hc.
Qed.

(** An instruction that costs a unit, where the interpreter charges one. *)
Lemma follows_charge {A : Type} pc regs L w s (k : world → result A SourceFailure) Q :
  cp_instructions P !! pc = Some s → charged s = true →
  (∀ w', charge fuel w = Ok w' → w_state w' = w_state w → w_writes w' = w_writes w → w_events w' = w_events w →
     follows_from (execute input c s (machine pc regs L w')) (k w') Q) →
  follows (machine pc regs L w) (let? w := charge fuel w in k w) Q.
Proof.
  intros Hs Hc Hk. unfold charge in *. case_test.
  - exists (machine pc regs L w). split; [apply rtc_refl|]. unfold dispatch. cbn. rewrite Hs, Hc.
    by rewrite (proj2 (Z.leb_le _ _)).
  - specialize (Hk _ eq_refl eq_refl eq_refl eq_refl).
    assert (dispatch P input c fuel (machine pc regs L w)
      = execute input c s (machine pc regs L (mkWorld (w_state w) (w_writes w) (w_events w) (w_used w + 1)))) as Hd.
    { unfold dispatch. cbn. rewrite Hs, Hc. by rewrite (proj2 (Z.leb_gt _ _)). }
    destruct Hk as [(m & He & Hf)|(e & He & ->)].
    + eapply follows_steps; [|exact Hf]. apply rtc_once. by rewrite Hd.
    + exists (machine pc regs L w). split; [apply rtc_refl|]. by rewrite Hd.
Qed.

#[local] Arguments follows : simpl never.

(** ** Environments *)

Definition entry_match (L : list Z) (x : bytes * Binding) (y : bytes * value) : Prop :=
  x.1 = y.1 ∧ type_of_value y.2 = b_ty x.2 ∧ L !! b_local x.2 = Some (encode y.2) ∧ value_ok y.2.
Definition scope_match (L : list Z) : Scope → BTreeMap bytes value → Prop := Forall2 (entry_match L).
Definition scope_locals (s : Scope) : list nat := map (λ x, b_local x.2) s.
Definition all_locals (sc : list Scope) : list nat := concat (map scope_locals sc).

(** Each visible binding owns its local, whose value is the variable's. *)
Record env_match (sc : list Scope) (env : Env) (L : list Z) (l : nat) : Prop := {
  em_scopes : Forall2 (scope_match L) sc env;
  em_sorted : Forall bt_ok sc;
  em_distinct : NoDup (all_locals sc);
  em_below : Forall (λ i, (i < l)%nat) (all_locals sc)
}.

Lemma scope_match_get L s d name :
  scope_match L s d →
  match bt_get name s, bt_get name d with
  | Some b, Some v => type_of_value v = b_ty b ∧ L !! b_local b = Some (encode v) ∧ value_ok v
  | None, None => True
  | _, _ => False
  end.
Proof.
  induction 1 as [|[n b] [n' v] s d (Hn & Ht & Hl & Hv) _ IH]; [done|]. cbn in Hn, Ht, Hl, Hv |- *. subst n'.
  by destruct (cmp name n).
Qed.

Lemma find_match L sc env name :
  Forall2 (scope_match L) sc env →
  match find_binding name sc, find_name name env with
  | Some b, Some v => type_of_value v = b_ty b ∧ L !! b_local b = Some (encode v) ∧ value_ok v
  | None, None => True
  | _, _ => False
  end.
Proof.
  induction 1 as [|s d sc env Hs _ IH]; [done|]. cbn. pose proof (scope_match_get _ _ _ name Hs) as Hg.
  by destruct (bt_get name s), (bt_get name d).
Qed.

Lemma scope_match_ext L L' s d :
  scope_match L s d → (∀ i, i ∈ scope_locals s → L' !! i = L !! i) → scope_match L' s d.
Proof.
  induction 1 as [|x y s d (Hn & Ht & Hl & Hv) _ IH]; intros Hx; constructor.
  - split; [done|]. split; [done|]. split; [|done]. rewrite Hx; [done|left].
  - apply IH. intros i Hi. apply Hx. by right.
Qed.

Lemma scopes_match_ext L L' sc env :
  Forall2 (scope_match L) sc env → (∀ i, i ∈ all_locals sc → L' !! i = L !! i) → Forall2 (scope_match L') sc env.
Proof.
  induction 1 as [|s d sc env Hs _ IH]; intros Hx; constructor.
  - eapply scope_match_ext; [done|]. intros i Hi. apply Hx. unfold all_locals. cbn. apply elem_of_app. by left.
  - apply IH. intros i Hi. apply Hx. unfold all_locals. cbn. apply elem_of_app. by right.
Qed.

Lemma scope_match_insert L s d name b v :
  scope_match L s d → type_of_value v = b_ty b → L !! b_local b = Some (encode v) → value_ok v →
  scope_match L (bt_insert name b s) (bt_insert name v d).
Proof.
  intros Hs Ht Hl Hv. induction Hs as [|[n b'] [n' v'] s d (Hn & Ht' & Hl' & Hv') Hs IH]; cbn.
  - by repeat constructor.
  - cbn in Hn. subst n'. destruct (cmp name n); repeat (constructor; try done).
Qed.

Lemma bt_insert_same {K V : Type} `{!TotalOrd K} (k : K) (v : V) (m : BTreeMap K V) :
  bt_ok m → bt_get k m = Some v → bt_insert k v m = m.
Proof.
  intros Hm Hg. apply bt_ext; [by apply bt_ok_insert|done|]. intros k'. destruct (decide (cmp k' k = Eq)) as [E|E].
  - apply cmp_eq_iff in E as ->. by rewrite bt_get_insert_eq.
  - apply bt_get_insert_ne. intros ->. by rewrite cmp_refl in E.
Qed.

Lemma env_match_enter sc env L l : env_match sc env L l → env_match ([] :: sc) ([] :: env) L l.
Proof. intros []. split; [by repeat constructor..|done|done]. Qed.

Lemma env_match_leave s sc env L l : env_match (s :: sc) env L l → env_match sc (tail env) L l.
Proof.
  intros [Hs Ho Hd Hb]. inversion Hs; inversion Ho; subst. unfold all_locals in *. cbn in *.
  apply NoDup_app in Hd as (_ & _ & Hd). apply Forall_app in Hb as [_ Hb]. by split.
Qed.

Lemma env_match_weaken sc env L l l' : env_match sc env L l → (l <= l')%nat → env_match sc env L l'.
Proof. intros [? ? ? Hb] Hl. split; [done..|]. eapply Forall_impl; [exact Hb|]. cbn. lia. Qed.

Lemma env_match_below sc env L l l' : env_match sc env L l' → Forall (λ i, (i < l)%nat) (all_locals sc) → env_match sc env L l.
Proof. by intros [] ?. Qed.

(** A new local. *)
Lemma env_match_bind s sc d env L l name v ty mutable :
  env_match (s :: sc) (d :: env) L l → bt_contains name s = false → (l < length L)%nat →
  type_of_value v = ty → value_ok v →
  env_match (bt_insert name (mkBinding l ty mutable) s :: sc) (bt_insert name v d :: env) (<[l := encode v]> L) (S l).
Proof.
  intros [Hs Ho Hd Hb] Hf Hl Ht Hv.
  assert (∀ i, i ∈ all_locals (s :: sc) → <[l := encode v]> L !! i = L !! i) as Hkeep.
  { intros i Hi. apply list_lookup_insert_ne. intros <-. eapply Forall_forall in Hb; [|exact Hi]. cbn in Hb. lia. }
  pose proof (scopes_match_ext _ _ _ _ Hs Hkeep) as Hs'. inversion Hs' as [|? ? ? ? H1 H2]; inversion Ho; subst.
  assert (bt_get name s = None) as Hg by (unfold bt_contains in Hf; by destruct (bt_get name s)).
  assert (all_locals (bt_insert name (mkBinding l (type_of_value v) mutable) s :: sc) ≡ₚ l :: all_locals (s :: sc)) as Hp.
  { unfold all_locals, scope_locals. cbn. rewrite (bt_insert_fresh_perm name _ s Hg). done. }
  split.
  - constructor; [|done]. apply scope_match_insert; [done|done| |done]. cbn. by apply list_lookup_insert_eq.
  - constructor; [by apply bt_ok_insert|done].
  - rewrite Hp. constructor; [|done]. intros Hin. eapply Forall_forall in Hb; [|exact Hin]. cbn in Hb. lia.
  - rewrite Hp. constructor; [lia|]. eapply Forall_impl; [exact Hb|]. cbn. lia.
Qed.

Lemma scope_get_local name b s : bt_get name s = Some b → b_local b ∈ scope_locals s.
Proof.
  intros H%bt_get_some_in. unfold scope_locals. apply list_elem_of_In, in_map_iff. exists (name, b).
  split; [done|]. by apply list_elem_of_In.
Qed.

(** Only the entry of the name refers to its local. *)
Lemma scope_match_assign L s d name b v :
  scope_match L s d → bt_ok s → NoDup (scope_locals s) → bt_get name s = Some b →
  type_of_value v = b_ty b → value_ok v → scope_match (<[b_local b := encode v]> L) s (bt_insert name v d).
Proof.
  intros Hs Ho Hd Hg Ht Hv.
  induction Hs as [|[n b'] [n' v'] s d (Hn & Ht' & Hl' & Hv') Hs IH]; [done|]. cbn in *. subst n'.
  apply NoDup_cons in Hd as [Hfresh Hd]. apply bt_ok_cons_inv in Ho as [Ho Hlt]. destruct (cmp name n) eqn:Hc.
  - simplify_eq. apply cmp_eq_iff in Hc as ->. constructor.
    + split; [done|]. split; [done|]. split; [|done]. apply list_lookup_insert_eq. by apply lookup_lt_Some in Hl'.
    + eapply scope_match_ext; [done|]. intros i Hi. apply list_lookup_insert_ne. by intros <-.
  - exfalso. apply bt_get_some_in, bt_in_keys, Hlt in Hg. by apply (lt_of_asym _ _ Hc).
  - constructor; [|by apply IH]. split; [done|]. split; [done|]. split; [|done].
    rewrite list_lookup_insert_ne; [done|]. cbn. intros Heq. apply Hfresh. rewrite <- Heq. by eapply scope_get_local.
Qed.

(** Assigning a visible variable. *)
Lemma env_match_assign sc env L l name b v :
  env_match sc env L l → find_binding name sc = Some b → type_of_value v = b_ty b → value_ok v →
  ∃ env', assign name v env = Some env' ∧ env_match sc env' (<[b_local b := encode v]> L) l.
Proof.
  intros [Hs Ho Hd Hb] Hf Ht Hv. enough (∃ env', assign name v env = Some env'
    ∧ Forall2 (scope_match (<[b_local b := encode v]> L)) sc env') as (env' & ? & ?) by (exists env'; by split; [|split]).
  clear Hb. induction Hs as [|s d sc env Hm Hs IH]; [done|]. cbn in *. inversion Ho; subst.
  unfold all_locals in Hd. cbn in Hd. apply NoDup_app in Hd as (Hd1 & Hdis & Hd2).
  pose proof (scope_match_get _ _ _ name Hm) as Hg. unfold bt_contains.
  destruct (bt_get name s) as [b'|] eqn:Hb'; simplify_eq.
  - destruct (bt_get name d) as [v'|] eqn:Hv'; [|done]. eexists. split; [done|]. constructor; [by apply scope_match_assign|].
    eapply scopes_match_ext; [done|]. intros i Hi. apply list_lookup_insert_ne. intros <-.
    by eapply Hdis; [eapply scope_get_local|].
  - destruct (bt_get name d) as [v'|]; [done|]. destruct IH as (env' & -> & IH); [done..|]. cbn. eexists. split; [done|].
    constructor; [|done]. eapply scope_match_ext; [done|]. intros i Hi. apply list_lookup_insert_ne. intros <-.
    eapply Hdis; [done|]. clear -Hf. induction sc as [|s' sc IH]; [done|]. cbn in Hf. apply elem_of_app.
    destruct (bt_get name s') eqn:E; simplify_eq; [left; by eapply scope_get_local|right; by apply IH].
Qed.

(** ** Expressions *)

Definition code_at (pc : nat) (code : list Step) : Prop :=
  ∀ i s, code !! i = Some s → cp_instructions P !! (pc + i)%nat = Some s.

Lemma code_at_app pc c1 c2 : code_at pc (c1 ++ c2) → code_at pc c1 ∧ code_at (pc + length c1) c2.
Proof.
  intros H. split; intros i s Hi.
  - apply H. by apply lookup_app_l_Some.
  - rewrite <- Nat.add_assoc. apply H. rewrite lookup_app_r by lia. by rewrite Nat.add_comm, Nat.add_sub.
Qed.

Lemma code_at_cons pc s code : code_at pc (s :: code) → cp_instructions P !! pc = Some s ∧ code_at (S pc) code.
Proof.
  intros H. split; [rewrite <- (Nat.add_0_r pc); by apply H|]. intros i s' Hi.
  rewrite Nat.add_succ_comm. by apply H.
Qed.

Lemma gen_expr_bounds slot' sc e pc r code v r' :
  gen_expr slot' sc e pc r = Some (code, v, r') → (r < r')%nat ∧ (v_register v < r')%nat.
Proof.
  revert pc r code v r'. induction e as [| | | |e IH|[b| |] l IHl rh IHr| | | |e IH| |e IH]; intros pc r code v r' H;
    cbn [gen_expr] in H;
    repeat match type of H with
    | match ?x with _ => _ end = Some _ => destruct x eqn:?; try discriminate H
    end; simplify_eq; cbn;
    repeat match goal with
    | IH : ∀ pc r code v r', gen_expr _ _ ?e _ _ = _ → _, H : gen_expr _ _ ?e _ _ = _ |- _ =>
        apply IH in H as [? ?]; cbn in *
    end; try lia.
Qed.

(** Slots of the call's context. *)
Record world_ok (w : world) : Prop := {
  wo_state : length (w_state w) = length (cc_keys c);
  wo_values : Forall (λ v, u64 (default 0 v)) (w_state w);
  wo_writes : length (w_writes w) = length (cc_keys c)
}.

Lemma world_ok_eq w w' :
  world_ok w → w_state w' = w_state w → w_writes w' = w_writes w → world_ok w'.
Proof. intros [? ? ?] H1 H2. split; congruence. Qed.

(** What the registers hold behind the code of an expression. *)
Definition computed (pc r : nat) (regs L : list Z) (v : Value) (xw : value * world) (m : Machine) : Prop :=
  ∃ regs', m = machine pc regs' L xw.2 ∧ world_ok xw.2 ∧ value_ok xw.1 ∧ regs' !! v_register v = Some (encode xw.1)
    ∧ type_of_value xw.1 = v_ty v ∧ length regs' = length regs ∧ ∀ i, (i < r)%nat → regs' !! i = regs !! i.

Lemma write_ok pc regs L w d v :
  (d < length regs)%nat →
  write_register d v (machine pc regs L w) = Ok (inl (machine (S pc) (<[d := v]> regs) L w)).
Proof. intros Hd. unfold write_register, update. cbn. by rewrite bool_decide_true. Qed.

(** One charged instruction writes a register above those to keep. *)
Lemma follows_write pc r d regs0 regs L w s ty (look : world → result value SourceFailure) :
  cp_instructions P !! pc = Some s → charged s = true → (r <= d < length regs)%nat → world_ok w →
  length regs = length regs0 → (∀ i, (i < r)%nat → regs !! i = regs0 !! i) →
  (∀ w', world_ok w' →
     match look w' with
     | Ok x => execute input c s (machine pc regs L w') = write_register d (encode x) (machine pc regs L w')
         ∧ type_of_value x = ty ∧ value_ok x
     | Err (Fault e) => execute input c s (machine pc regs L w') = Err (Failed e)
     | Err Wrong => False
     end) →
  follows (machine pc regs L w) (let? w := charge fuel w in let? v := look w in Ok (v, w))
    (computed (pc + 1) r regs0 L (mkValue d ty)).
Proof.
  intros Hs Hc Hr Hw Hlen Hkeep He. eapply follows_charge; [done|done|]. intros w' _ H1 H2 _.
  assert (world_ok w') as Hw' by by eapply world_ok_eq. specialize (He w' Hw').
  destruct (look w') as [v|[e|]]; [|right; eauto|done]. destruct He as (He & Ht & Hv). left. rewrite He, write_ok by lia.
  eexists. split; [done|]. apply follows_ret. exists (<[d := encode v]> regs). cbn.
  rewrite Nat.add_1_r, list_lookup_insert_eq, length_insert by lia. do 6 (split; [done|]).
  intros i Hi. rewrite list_lookup_insert_ne; [by apply Hkeep|lia].
Qed.

(** What the types of a call's context promise, and what its validation adds. *)
Record context_ok : Prop := {
  co_input : u64 input;
  co_height : u64 (cc_height c);
  co_caller : length (cc_caller c) = 4%nat ∧ Forall u64 (cc_caller c);
  co_count : u64 (len (cc_keys c));
  co_access : length (cc_access c) = length (cc_keys c)
}.
Context (Hctx : context_ok).

(** The slot of a literal key is where the context holds it. *)
Definition key_at (k : bytes) : Prop := list_find (k =.) (cc_keys c) = Some (slot k, k).

Lemma static_slot_cases i :
  (i < length (cc_keys c))%nat →
  static_slot i c = Ok i ∨ static_slot i c = Err (Failed AccessDenied).
Proof.
  intros Hi. unfold static_slot, index. pose proof (co_access Hctx).
  destruct (lookup_lt_is_Some_2 (cc_access c) i) as [b Hb]; [lia|]. rewrite Hb. cbn. destruct b; eauto.
Qed.

Lemma checked_slot_cases z :
  0 <= z → (∃ i, checked_slot z c = Ok i ∧ (i < length (cc_keys c))%nat) ∨ ∃ e, checked_slot z c = Err (Failed e).
Proof.
  intros Hz. unfold checked_slot. case_test; [eauto|]. unfold len in *.
  destruct (static_slot_cases (Z.to_nat z)) as [H|H]; [lia|..]; unfold static_slot in H;
    destruct (index _ _) as [[]|]; cbn in *; simplify_eq; eauto.
  left. eexists. split; [done|]. lia.
Qed.

Definition expr_follows (e : expr) : Prop := ∀ sc pc r code v r' env regs L w,
  gen_expr slot sc e pc r = Some (code, v, r') → code_at pc code → Forall2 (scope_match L) sc env →
  (∀ k, k ∈ expr_keys e → key_at k) → Forall u64 (expr_numbers e) → (r' <= length regs)%nat → world_ok w →
  follows (machine pc regs L w) (eval input c fuel env e w) (computed (pc + length code) r regs L v).

(** An expression that is one instruction. *)
Lemma leaf_follows sc pc r code v r' env regs L w e s ty look :
  gen_expr slot sc e pc r = Some (code, v, r') → code_at pc code → (r' <= length regs)%nat → world_ok w →
  code = [s] → v = mkValue r ty → charged s = true →
  eval input c fuel env e w = (let? w := charge fuel w in let? v := look w in Ok (v, w)) →
  (∀ w', world_ok w' →
     match look w' with
     | Ok x => execute input c s (machine pc regs L w') = write_register r (encode x) (machine pc regs L w')
         ∧ type_of_value x = ty ∧ value_ok x
     | Err (Fault e) => execute input c s (machine pc regs L w') = Err (Failed e)
     | Err Wrong => False
     end) →
  follows (machine pc regs L w) (eval input c fuel env e w) (computed (pc + length code) r regs L v).
Proof.
  intros Hg Hc Hr Hw -> -> Hch -> He. apply gen_expr_bounds in Hg as [Hlt _]. apply code_at_cons in Hc as [Hc _].
  eapply follows_write with (s := s) (look := look); try done; lia.
Qed.

Lemma slot_value w i :
  world_ok w → (i < length (cc_keys c))%nat →
  ∃ v, w_state w !! i = Some v ∧ u64 (default 0 v).
Proof.
  intros [Hl Hv _] Hi. destruct (lookup_lt_is_Some_2 (w_state w) i) as [v Hs]; [lia|]. exists v. split; [done|].
  by eapply Forall_lookup_1 in Hv.
Qed.

Lemma key_slot_cases k :
  key_at k → (key_slot c k = Ok (slot k) ∧ static_slot (slot k) c = Ok (slot k)
              ∨ key_slot c k = Err (Fault AccessDenied) ∧ static_slot (slot k) c = Err (Failed AccessDenied))
  ∧ (slot k < length (cc_keys c))%nat.
Proof.
  intros Hk. unfold key_slot. rewrite Hk. cbn. apply list_find_Some in Hk as (Hk & _). apply lookup_lt_Some in Hk.
  split; [|done]. destruct (static_slot_cases _ Hk) as [-> | ->]; eauto.
Qed.

Lemma leaves_follow e :
  match e with ENumber _ | EBool _ | EInput | ELocal _ | EHeight | ECaller _ | EKeyCount | EStateGet _ => True | _ => False end →
  expr_follows e.
Proof.
  intros He sc pc r code v r' env regs L w Hg Hc Henv Hk Hn Hr Hw.
  destruct e; try done; cbn [gen_expr] in Hg.
  - simplify_eq. eapply leaf_follows with (sc := sc) (look := λ _, Ok (VNumber value)); try done.
    inversion Hn; subst. done.
  - simplify_eq. eapply leaf_follows with (sc := sc) (look := λ _, Ok (VBool value)); done.
  - simplify_eq. eapply leaf_follows with (sc := sc) (look := λ _, Ok (VNumber input)); try done. intros. by destruct Hctx.
  - pose proof (find_match _ _ _ name Henv) as Hf. destruct (find_binding name sc) as [b|] eqn:Hb; [|done]. simplify_eq.
    destruct (find_name name env) as [x|] eqn:Hx; [|done]. destruct Hf as (Ht & Hl & Hv).
    eapply leaf_follows with (sc := sc) (look := λ _, ok_or (find_name name env) Wrong); try done.
    { cbn. by rewrite Hb. }
    intros w' _. rewrite Hx. cbn. unfold index. by rewrite Hl.
  - simplify_eq. eapply leaf_follows with (sc := sc) (look := λ _, Ok (VNumber (cc_height c))); try done. intros. by destruct Hctx.
  - case_bool_decide; simplify_eq. destruct (co_caller Hctx) as [Hl Hu].
    destruct (lookup_lt_is_Some_2 (cc_caller c) limb) as [z Hz]; [lia|].
    eapply leaf_follows with (sc := sc) (look := λ _, let? v := ok_or (cc_caller c !! limb) Wrong in Ok (VNumber v)); try done.
    { cbn. by rewrite bool_decide_true. }
    { cbn. destruct (charge fuel w); [|done]. by rewrite Hz. }
    intros w' _. rewrite Hz. cbn. unfold index. rewrite Hz. split; [done|]. split; [done|].
    by eapply Forall_lookup_1 in Hu.
  - simplify_eq. eapply leaf_follows with (sc := sc) (look := λ _, Ok (VNumber (len (cc_keys c)))); try done. intros. by destruct Hctx.
  - simplify_eq. destruct (key_slot_cases k) as [Hs Hi]; [apply Hk; left|].
    eapply leaf_follows with (sc := sc) (look := λ w, let? i := key_slot c k in read_slot i w); try done.
    { cbn. destruct (charge fuel w); [|done]. by destruct (key_slot c k). }
    intros w' Hw'. destruct (slot_value w' (slot k) Hw' Hi) as (z & Hz & Hzu).
    cbn [execute]. destruct Hs as [[-> ->]|[-> ->]]; [|done]. unfold read_slot, index. cbn. by rewrite Hz.
Qed.

(** One operand, then one instruction. *)
Lemma unary_follows sc pc r r0 c1 v1 r1 d ty s env regs L w e look :
  expr_follows e → gen_expr slot sc e pc r0 = Some (c1, v1, r1) → (r <= r0)%nat → (r <= d < length regs)%nat →
  (r1 <= length regs)%nat → code_at pc (c1 ++ [s]) → Forall2 (scope_match L) sc env →
  (∀ k, k ∈ expr_keys e → key_at k) → Forall u64 (expr_numbers e) → world_ok w → charged s = true →
  (∀ x w' regs', world_ok w' → value_ok x → type_of_value x = v_ty v1 → regs' !! v_register v1 = Some (encode x) →
     match look x w' with
     | Ok y => execute input c s (machine (pc + length c1) regs' L w')
               = write_register d (encode y) (machine (pc + length c1) regs' L w') ∧ type_of_value y = ty ∧ value_ok y
     | Err (Fault e) => execute input c s (machine (pc + length c1) regs' L w') = Err (Failed e)
     | Err Wrong => False
     end) →
  follows (machine pc regs L w)
    (let? (x, w) := eval input c fuel env e w in let? w := charge fuel w in let? y := look x w in Ok (y, w))
    (computed (pc + length (c1 ++ [s])) r regs L (mkValue d ty)).
Proof.
  intros IH Hg Hr0 Hd Hr1 Hc Henv Hk Hn Hw Hch Hl. apply code_at_app in Hc as [Hc1 Hc2].
  apply code_at_cons in Hc2 as [Hs _].
  eapply follows_bind; [by eapply IH|].
  intros [x w1] m _ (regs' & -> & Hw1 & Hx & Hreg & Hty & Hlen & Hkeep). cbn in *.
  rewrite length_app, Nat.add_assoc.
  eapply follows_write with (s := s) (look := look x); try done; [lia|by intros; apply Hkeep; lia|].
  intros w' Hw'. by apply Hl.
Qed.

Lemma eval_not env e w :
  eval input c fuel env (ENot e) w
  = (let? (x, w) := eval input c fuel env e w in let? w := charge fuel w in
     let? y := (let? b := as_bool x in Ok (VBool (negb b))) in Ok (y, w)).
Proof. cbn. destruct (eval _ _ _ _ _ _) as [[x ?]|]; [|done]. destruct (charge _ _); [|done]. by destruct x. Qed.

Lemma eval_key_word env e i w :
  eval input c fuel env (EKeyWord e i) w
  = (let? (x, w) := eval input c fuel env e w in let? w := charge fuel w in
     let? y := (let? k := as_number x in let? v := map_err fault (key_word c k i) in Ok (VNumber v)) in Ok (y, w)).
Proof.
  cbn. destruct (eval _ _ _ _ _ _) as [[x ?]|]; [|done]. destruct (charge _ _); [|done].
  destruct x; cbn; [|done]. by destruct (key_word _ _ _).
Qed.

Lemma eval_get_at env e w :
  eval input c fuel env (EStateGetAt e) w
  = (let? (x, w) := eval input c fuel env e w in let? w := charge fuel w in
     let? y := (let? k := as_number x in let? i := map_err fault (checked_slot k c) in read_slot i w) in Ok (y, w)).
Proof.
  cbn. destruct (eval _ _ _ _ _ _) as [[x ?]|]; [|done]. destruct (charge _ _); [|done].
  destruct x; cbn; [|done]. by destruct (checked_slot _ _).
Qed.

Lemma unaries_follow e' :
  match e' with
  | ENot e | EKeyWord e _ | EStateGetAt e => expr_follows e
  | _ => False
  end → expr_follows e'.
Proof.
  intros IH sc pc r code v r' env regs L w Hg Hc Henv Hk Hn Hr Hw.
  destruct e'; try done; cbn [gen_expr] in Hg.
  - destruct (gen_expr slot sc e' pc r) as [[[c1 [v1 []]] r1]|] eqn:Hg1; simplify_eq.
    pose proof (gen_expr_bounds _ _ _ _ _ _ _ _ Hg1) as [Hb1 Hb2]. rewrite eval_not.
    eapply unary_follows with (look := λ x _, let? b := as_bool x in Ok (VBool (negb b))); try done; try lia.
    intros [|b] w' regs' Hw' _ Hty Hreg; [done|]. cbn in *. unfold index. rewrite Hreg. by destruct b.
  - destruct (gen_expr slot sc e' pc (S r)) as [[[c1 [v1 []]] r1]|] eqn:Hg1; simplify_eq.
    case_bool_decide; simplify_eq.
    pose proof (gen_expr_bounds _ _ _ _ _ _ _ _ Hg1) as [Hb1 Hb2]. rewrite eval_key_word.
    eapply unary_follows with (look := λ x _, let? k := as_number x in
      let? v := map_err fault (key_word c k limb) in Ok (VNumber v)); try done; try lia.
    intros [z|] w' regs' Hw' _ Hty Hreg; [|done]. cbn in *. unfold index. rewrite Hreg. cbn.
    destruct (key_word_ok c z limb) as [(y & -> & Hy)| ->]; done.
  - destruct (gen_expr slot sc e' pc (S r)) as [[[c1 [v1 []]] r1]|] eqn:Hg1; simplify_eq.
    pose proof (gen_expr_bounds _ _ _ _ _ _ _ _ Hg1) as [Hb1 Hb2]. rewrite eval_get_at.
    eapply unary_follows with (look := λ x w, let? k := as_number x in
      let? i := map_err fault (checked_slot k c) in read_slot i w); try done; try lia.
    intros [z|] w' regs' Hw' Hz Hty Hreg; [|done]. cbn in *. unfold index. rewrite Hreg. cbn.
    destruct (checked_slot_cases z) as [(i & -> & Hi)|(e & ->)]; [apply Hz| |done]. cbn.
    destruct (slot_value w' i Hw' Hi) as (y & Hy & Hyu). unfold read_slot. by rewrite Hy.
Qed.

Lemma binary_follows b l rh : expr_follows l → expr_follows rh → expr_follows (EBin (CBinary b) l rh).
Proof.
  intros IHl IHr sc pc r code v r' env regs L w Hg Hc Henv Hk Hn Hr Hw. cbn [gen_expr] in Hg.
  destruct (gen_expr slot sc l pc r) as [[[cl vl] r1]|] eqn:Hgl; [|done].
  destruct (gen_expr slot sc rh _ _) as [[[cr vr] r2]|] eqn:Hgr; [|done].
  destruct (type_binary _ _ _) as [ty|] eqn:Hty; [|done]. simplify_eq.
  pose proof (gen_expr_bounds _ _ _ _ _ _ _ _ Hgl) as [Hb1 Hb2]. pose proof (gen_expr_bounds _ _ _ _ _ _ _ _ Hgr) as [Hb3 Hb4].
  apply code_at_app in Hc as [Hcl Hc]. apply code_at_app in Hc as [Hcr Hc]. apply code_at_cons in Hc as [Hs _].
  cbn in Hn. apply Forall_app in Hn as [Hnl Hnr]. cbn [eval].
  eapply follows_bind; [eapply IHl; try done; [intros; apply Hk; set_solver|lia]|].
  intros [x w1] m _ (regs1 & -> & Hw1 & Hx & Hreg1 & Hty1 & Hlen1 & Hkeep1). cbn in *.
  eapply follows_bind; [eapply IHr; try done; [intros; apply Hk; set_solver|lia]|].
  intros [y w2] m _ (regs2 & -> & Hw2 & Hy & Hreg2 & Hty2 & Hlen2 & Hkeep2). cbn in *.
  rewrite !length_app. cbn [length]. rewrite !Nat.add_assoc.
  eapply follows_write with (s := BinaryStep r2 b (v_register vl) (v_register vr)) (look := λ _, apply_binary b x y);
    try done; [lia|lia|by intros i Hi; rewrite Hkeep2, Hkeep1 by lia|].
  intros w' _. rewrite <- Hty1, <- Hty2 in Hty. pose proof (apply_binary_ok b x y ty Hty Hx Hy) as Ha.
  cbn [execute]. unfold index. cbn [machine m_registers]. rewrite Hkeep2, Hreg1, Hreg2 by lia. cbn.
  destruct (apply_binary b x y) as [z|[e|]]; [|by rewrite Ha|done]. destruct Ha as (-> & ? & ?). done.
Qed.

Lemma move_follows {A : Type} pc regs L w d s v (r : result A SourceFailure) Q :
  cp_instructions P !! pc = Some (Move d s) → regs !! s = Some v → (d < length regs)%nat →
  follows (machine (S pc) (<[d := v]> regs) L w) r Q → follows (machine pc regs L w) r Q.
Proof.
  intros Hs Hv Hd. eapply follows_free; [done|done|]. cbn. unfold index. rewrite Hv. cbn. by rewrite write_ok.
Qed.

(** A branch goes where the condition says. *)
Lemma branch_follows {A : Type} pc regs L w d yes no b (k : world → result A SourceFailure) Q :
  cp_instructions P !! pc = Some (Branch d yes no) → regs !! d = Some (flag b) → world_ok w →
  (∀ w', world_ok w' → charge fuel w = Ok w' → follows (machine (if b then yes else no) regs L w') (k w') Q) →
  follows (machine pc regs L w) (let? w := charge fuel w in k w) Q.
Proof.
  intros Hs Hd Hw Hk. eapply follows_charge; [done|done|]. intros w' Hch H1 H2 _. left.
  eexists. split; [cbn; unfold index; rewrite Hd; cbn; reflexivity|]. destruct b; apply Hk; try done; by eapply world_ok_eq.
Qed.

Lemma gen_logic_inv cn l rh sc pc r code v r' :
  cn = CAnd ∨ cn = COr → gen_expr slot sc (EBin cn l rh) pc r = Some (code, v, r') →
  ∃ cl vl r1 cr vr start after, gen_expr slot sc l pc r = Some (cl, mkValue vl Boolean, r1)
    ∧ gen_expr slot sc rh start (S r1) = Some (cr, mkValue vr Boolean, r') ∧ v = mkValue r1 Boolean
    ∧ start = (pc + length cl + 2)%nat ∧ after = (start + length cr + 1)%nat
    ∧ code = cl ++ [Move r1 vl; match cn with CAnd => Branch vl start after | _ => Branch vl after start end]
             ++ cr ++ [Move r1 vr].
Proof.
  intros Hcn Hg. cbn [gen_expr] in Hg. destruct Hcn as [-> | ->];
    destruct (gen_expr slot sc l pc r) as [[[cl [vl []]] r1]|]; try done;
    destruct (gen_expr slot sc rh _ _) as [[[cr [vr []]] r2]|] eqn:Hgr; simplify_eq; naive_solver.
Qed.

Lemma eval_logic cn l rh env w :
  cn = CAnd ∨ cn = COr →
  eval input c fuel env (EBin cn l rh) w = (let? (x, w) := eval input c fuel env l w in
    let? w := charge fuel w in let? x := as_bool x in
    match decided cn x with Some v => Ok (v, w) | None =>
      let? (y, w) := eval input c fuel env rh w in let? y := as_bool y in Ok (VBool y, w) end).
Proof. by intros [-> | ->]. Qed.

Lemma logic_follows cn l rh :
  cn = CAnd ∨ cn = COr → expr_follows l → expr_follows rh → expr_follows (EBin cn l rh).
Proof.
  intros Hcn IHl IHr sc pc r code v r' env regs L w Hg Hc Henv Hk Hn Hr Hw.
  destruct (gen_logic_inv _ _ _ _ _ _ _ _ _ Hcn Hg) as (cl & vl & r1 & cr & vr & start & after & Hgl & Hgr & -> & Hst & Haf & Hcode).
  pose proof (gen_expr_bounds _ _ _ _ _ _ _ _ Hgl) as [Hb1 Hb2]. pose proof (gen_expr_bounds _ _ _ _ _ _ _ _ Hgr) as [Hb3 Hb4].
  cbn in Hb2, Hb4.
  assert ((pc + length code)%nat = after) as -> by (subst code; rewrite !length_app; cbn; lia).
  rewrite Hcode in Hc. apply code_at_app in Hc as [Hcl Hc]. apply code_at_cons in Hc as [Hmove Hc].
  apply code_at_cons in Hc as [Hbranch Hc]. change ([] ++ cr ++ [Move r1 vr]) with (cr ++ [Move r1 vr]) in Hc.
  replace (S (S (pc + length cl))) with start in Hc by lia. apply code_at_app in Hc as [Hcr Hc]. apply code_at_cons in Hc as [Hlast _].
  cbn in Hn. apply Forall_app in Hn as [Hnl Hnr]. rewrite eval_logic by done.
  eapply follows_bind; [eapply IHl; try done; [intros; apply Hk; cbn; set_solver|lia]|].
  intros [x w1] m _ (regs1 & -> & Hw1 & Hx & Hreg1 & Hty1 & Hlen1 & Hkeep1). cbn in Hreg1, Hty1, Hw1.
  destruct x as [|x]; [done|]. cbn [encode] in Hreg1. cbn [fst snd].
  eapply move_follows; [exact Hmove|exact Hreg1|lia|].
  eapply (branch_follows _ _ _ _ vl (match cn with CAnd => start | _ => after end) (match cn with CAnd => after | _ => start end));
    [by destruct Hcn as [-> | ->]|rewrite list_lookup_insert_ne by lia; exact Hreg1|done|].
  intros w2 Hw2 _. cbn [as_bool]. destruct (decided cn x) as [z|] eqn:Hdec.
  - replace (if x then _ else _) with after by (by destruct Hcn as [-> | ->], x).
    apply follows_ret. exists (<[r1:=flag x]> regs1). cbn. rewrite list_lookup_insert_eq, length_insert by lia.
    assert (z = VBool x) as -> by (destruct Hcn as [-> | ->], x; cbn in Hdec; by simplify_eq).
    do 6 (split; [done|]). intros i Hi. rewrite list_lookup_insert_ne by lia. by apply Hkeep1.
  - replace (if x then _ else _) with start by (by destruct Hcn as [-> | ->], x).
    eapply follows_bind; [eapply IHr; try done; [intros; apply Hk; cbn; set_solver|rewrite length_insert; lia]|].
    intros [y w3] m _ (regs2 & -> & Hw3 & Hy & Hreg2 & Hty2 & Hlen2 & Hkeep2). cbn in Hreg2, Hty2, Hw3, Hlen2.
    rewrite length_insert in Hlen2. destruct y as [|y]; [done|]. cbn [encode fst snd as_bool] in *.
    eapply move_follows; [exact Hlast|exact Hreg2|lia|]. apply follows_ret.
    exists (<[r1:=flag y]> regs2). cbn. rewrite list_lookup_insert_eq, length_insert by lia.
    replace (S (start + length cr)) with after by lia. do 6 (split; [by try lia|]).
    intros i Hi. rewrite list_lookup_insert_ne by lia. rewrite Hkeep2 by lia. rewrite list_lookup_insert_ne by lia. by apply Hkeep1.
Qed.

(** Generated expressions follow the interpreter. *)
Lemma exprs_follow e : expr_follows e.
Proof.
  induction e as [| | | |e IH|[b| |] l IHl rh IHr| | | |e IH| |e IH]; try by apply leaves_follow.
  - by apply unaries_follow.
  - by apply binary_follows.
  - apply logic_follows; eauto.
  - apply logic_follows; eauto.
  - by apply unaries_follow.
  - by apply unaries_follow.
Qed.

(** ** Statements *)

Lemma charge_inv w w' : charge fuel w = Ok w' → w_used w < fuel ∧ w_used w' = w_used w + 1.
Proof. unfold charge. intros H. case_in H. by simplify_eq/=. Qed.

Lemma eval_used env e w x w' : eval input c fuel env e w = Ok (x, w') → w_used w <= w_used w'.
Proof.
  revert w x w'. induction e as [| | | |e IH|[b| |] l IHl rh IHr| | | |e IH| |e IH]; intros w x w' H; cbn in H;
    bind_inv H; subst;
    repeat match goal with
    | H : match ?o with Some _ => _ | None => _ end = Ok _ |- _ => destruct o; bind_inv H; subst
    | E : charge _ _ = Ok _ |- _ => apply charge_inv in E as [? ?]
    | IH : ∀ w x w', eval _ _ _ _ ?e w = _ → _, E : eval _ _ _ _ ?e _ = _ |- _ => apply IH in E
    end; simplify_eq; lia.
Qed.

Lemma gen_typed_inv ty sc e pc r code v r' :
  gen_typed slot ty sc e pc r = Some (code, v, r') → gen_expr slot sc e pc r = Some (code, mkValue v ty, r').
Proof.
  unfold gen_typed. intros H. destruct (gen_expr slot sc e pc r) as [[[? [? ?]] ?]|]; [|done]. case_bool_decide; by simplify_eq.
Qed.

Lemma gen_grows :
  (∀ s sc l pc r g, gen_stmt slot sc s l pc r = Some g → (l <= g_locals g)%nat ∧ (r <= g_registers g)%nat)
  ∧ (∀ b sc l pc r g, gen_body slot sc b l pc r = Some g → (l <= g_locals g)%nat ∧ (r <= g_registers g)%nat).
Proof.
  apply syntax_ind; cbn [gen_stmt gen_body]; unfold gen_single, gen_pair; intros;
    repeat match goal with
    | H : match ?x with _ => _ end = Some _ |- _ => destruct x eqn:?; try discriminate H
    end; simplify_eq; cbn;
    repeat match goal with
    | H : gen_typed _ _ _ _ _ _ = Some _ |- _ => apply gen_typed_inv, gen_expr_bounds in H as [? _]
    | H : gen_expr _ _ _ _ _ = Some _ |- _ => apply gen_expr_bounds in H as [? _]
    | IH : ∀ sc l pc r g, gen_body _ sc ?b l pc r = _ → _, H : gen_body _ _ ?b _ _ _ = _ |- _ => apply IH in H as [? ?]
    | IH : ∀ sc l pc r g, gen_stmt _ sc ?s l pc r = _ → _, H : gen_stmt _ _ ?s _ _ _ = _ |- _ => apply IH in H as [? ?]
    end; cbn in *; lia.
Qed.

Definition execution_of (z : Z) (w : world) : ContractExecution :=
  mkContractExecution z (w_used w) (w_state w) (w_writes w) (w_events w).

(** Behind the code of a statement, or in front of the return it reached. *)
Definition finished (pc : nat) (g : generated) (regs L : list Z) (ow : outcome * world) (m : Machine) : Prop :=
  match ow.1 with
  | Returned z => u64 z ∧ dispatch P input c fuel m = Ok (inr (execution_of z ow.2))
  | Continues env => ∃ regs' L', m = machine pc regs' L' ow.2 ∧ world_ok ow.2
      ∧ env_match (g_scopes g) env L' (g_locals g) ∧ length regs' = length regs ∧ length L' = length L
      ∧ g_returns g = false
  end.

Definition stmt_follows (s : stmt) : Prop := ∀ sc l pc r g env regs L w,
  gen_stmt slot sc s l pc r = Some g → code_at pc (g_code g) → env_match sc env L l →
  (∀ k, k ∈ stmt_keys s → key_at k) → Forall u64 (stmt_numbers s) →
  (g_registers g <= length regs)%nat → (g_locals g <= length L)%nat → world_ok w →
  follows (machine pc regs L w) (exec input c fuel env s w) (finished (pc + length (g_code g)) g regs L).

Definition body_follows (b : body) : Prop := ∀ sc l pc r g env regs L w,
  gen_body slot sc b l pc r = Some g → code_at pc (g_code g) → env_match sc env L l →
  (∀ k, k ∈ body_keys b → key_at k) → Forall u64 (body_numbers b) →
  (g_registers g <= length regs)%nat → (g_locals g <= length L)%nat → world_ok w →
  follows (machine pc regs L w) (exec_body input c fuel env b w) (finished (pc + length (g_code g)) g regs L).

(** A number in a register. *)
Definition number_at (pc r : nat) (regs L : list Z) (v : nat) (zw : Z * world) (m : Machine) : Prop :=
  ∃ regs', m = machine pc regs' L zw.2 ∧ world_ok zw.2 ∧ u64 zw.1 ∧ regs' !! v = Some zw.1
    ∧ length regs' = length regs ∧ ∀ i, (i < r)%nat → regs' !! i = regs !! i.

Lemma number_follows sc e pc r code v r' env regs L w :
  gen_typed slot U64 sc e pc r = Some (code, v, r') → code_at pc code → Forall2 (scope_match L) sc env →
  (∀ k, k ∈ expr_keys e → key_at k) → Forall u64 (expr_numbers e) → (r' <= length regs)%nat → world_ok w →
  follows (machine pc regs L w) (eval_number input c fuel env e w) (number_at (pc + length code) r regs L v).
Proof.
  intros Hg%gen_typed_inv Hc Henv Hk Hn Hr Hw. unfold eval_number.
  eapply follows_bind; [by eapply exprs_follow|].
  intros [x w'] m _ (regs' & -> & Hw' & Hx & Hreg & Hty & Hlen & Hkeep). destruct x as [z|]; [|done]. cbn in *.
  apply follows_ret. by exists regs'.
Qed.

Lemma finished_same pc code sc l r regs regs' L env w :
  world_ok w → env_match sc env L l → length regs' = length regs →
  finished pc (mkGenerated code sc l r false) regs L (Continues env, w) (machine pc regs' L w).
Proof. intros. by exists regs', L. Qed.

Lemma write_slot_ok pc regs L w i v :
  world_ok w → (i < length (cc_keys c))%nat → u64 (default 0 v) →
  write_slot i v (machine pc regs L w) = Ok (inl (machine (S pc) regs L (write_world i v w)))
  ∧ world_ok (write_world i v w).
Proof.
  intros [Hs Hu Hwr] Hi Hv. unfold write_slot, update. cbn. rewrite !bool_decide_true by lia. split; [done|].
  split; cbn; [by rewrite length_insert| |by rewrite length_insert]. by apply Forall_insert.
Qed.

(** A charged write to the slot a look-up finds. *)
Lemma follows_slot pc code sc l r regs regs' L env w s v look :
  cp_instructions P !! pc = Some s → charged s = true → world_ok w → env_match sc env L l →
  length regs' = length regs → u64 (default 0 v) →
  (∀ w', world_ok w' → match look with
     | Ok i => (i < length (cc_keys c))%nat
         ∧ execute input c s (machine pc regs' L w') = write_slot i v (machine pc regs' L w')
     | Err (Fault e) => execute input c s (machine pc regs' L w') = Err (Failed e)
     | Err Wrong => False
     end) →
  follows (machine pc regs' L w)
    (let? w := charge fuel w in let? i := look in Ok (Continues env, write_world i v w))
    (finished (S pc) (mkGenerated code sc l r false) regs L).
Proof.
  intros Hs Hc Hw Henv Hlen Hv Hl. eapply follows_charge; [done|done|]. intros w' _ H1 H2 _.
  assert (world_ok w') as Hw' by by eapply world_ok_eq. specialize (Hl w' Hw').
  destruct look as [i|[e|]]; [|right; eauto|done]. destruct Hl as [Hi ->].
  destruct (write_slot_ok pc regs' L w' i v Hw' Hi Hv) as [-> Hw2]. left. eexists. split; [done|].
  apply follows_ret. by apply finished_same.
Qed.

Ltac single_inv Hg :=
  unfold gen_single in Hg;
  match type of Hg with match ?x with _ => _ end = Some _ => destruct x as [[[c1 v1] r1]|] eqn:Hg1; [|done] end;
  simplify_eq; cbn [g_code g_scopes g_locals g_registers g_returns] in *.

Lemma return_follows e : stmt_follows (SReturn e).
Proof.
  intros sc l pc r g env regs L w Hg Hc Henv Hk Hn Hr Hl Hw. cbn [gen_stmt] in Hg. single_inv Hg.
  apply code_at_app in Hc as [Hc1 Hc2]. apply code_at_cons in Hc2 as [Hs _]. cbn [exec].
  eapply follows_bind; [by eapply number_follows; try done; apply Henv|].
  intros [z w'] m _ (regs' & -> & Hw' & Hz & Hreg & _). cbn in Hw', Hz, Hreg. apply follows_ret. split; [done|].
  unfold dispatch. cbn. rewrite Hs. cbn. unfold index. by rewrite Hreg.
Qed.

Lemma assign_follows name e : stmt_follows (SAssign name e).
Proof.
  intros sc l pc r g env regs L w Hg Hc Henv Hk Hn Hr Hl Hw. cbn [gen_stmt] in Hg.
  destruct (find_binding name sc) as [[local ty []]|] eqn:Hb; [|done..]. single_inv Hg.
  apply code_at_app in Hc as [Hc1 Hc2]. apply code_at_cons in Hc2 as [Hs _]. apply gen_typed_inv in Hg1.
  assert (local < length L)%nat as Hlo.
  { pose proof (find_match _ _ _ name (em_scopes _ _ _ _ Henv)) as Hf. rewrite Hb in Hf.
    destruct (find_name name env); [|done]. by destruct Hf as (_ & Hx%lookup_lt_Some & _). }
  cbn [exec]. eapply follows_bind; [by eapply exprs_follow; try done; apply Henv|].
  intros [x w1] m _ (regs' & -> & Hw1 & Hx & Hreg & Hty & Hlen & _). cbn in Hreg, Hty, Hw1, Hx.
  eapply follows_charge; [done|done|]. intros w2 _ H1 H2 _. left. cbn. unfold index, update. rewrite Hreg. cbn.
  rewrite bool_decide_true by done. eexists. split; [reflexivity|].
  destruct (env_match_assign _ _ _ _ _ _ x Henv Hb Hty Hx) as (env' & -> & Henv'). cbn.
  apply follows_ret. exists regs', (<[local:=encode x]> L). rewrite length_app, length_insert. cbn.
  replace (pc + (length c1 + 1))%nat with (S (pc + length c1)) by lia.
  split; [done|]. split; [by eapply world_ok_eq|]. done.
Qed.

Lemma let_follows mutable name declared e : stmt_follows (SLet mutable name declared e).
Proof.
  intros sc l pc r g env regs L w Hg Hc Henv Hk Hn Hr Hl Hw. cbn [gen_stmt] in Hg.
  destruct (gen_expr slot sc e pc r) as [[[c1 v1] r1]|] eqn:Hg1; [|done]. destruct sc as [|s sc]; [done|].
  destruct (_ || _ || _) eqn:Hguard; [done|]. simplify_eq. cbn [g_code g_scopes g_locals g_registers g_returns] in *.
  apply orb_false_iff in Hguard as [[_ Hfresh]%orb_false_iff _].
  apply code_at_app in Hc as [Hc1 Hc2]. apply code_at_cons in Hc2 as [Hs _].
  cbn [exec]. eapply follows_bind; [by eapply exprs_follow; try done; apply Henv|].
  intros [x w1] m _ (regs' & -> & Hw1 & Hx & Hreg & Hty & Hlen & _). cbn in Hreg, Hty, Hw1, Hx.
  pose proof (em_scopes _ _ _ _ Henv) as Hsc. inversion Hsc as [|? d ? env0 ? ?]; subst. cbn [bind].
  eapply follows_free; [exact Hs|done| |].
  { cbn. unfold index, update. rewrite Hreg. cbn. by rewrite bool_decide_true by lia. }
  apply follows_ret. exists regs', (<[l:=encode x]> L). rewrite length_app, length_insert. cbn.
  replace (pc + (length c1 + 1))%nat with (S (pc + length c1)) by lia. split; [done|]. split; [done|].
  split; [by apply env_match_bind|done].
Qed.

Lemma at_end {A : Type} pc (c1 : list A) : (pc + (length c1 + 1))%nat = S (pc + length c1).
Proof. lia. Qed.

Lemma checked_execute pc regs L w z s v :
  u64 z → execute input c s (machine pc regs L w)
          = (let? k := checked_slot z c in write_slot k v (machine pc regs L w)) →
  match map_err fault (checked_slot z c) with
  | Ok i => (i < length (cc_keys c))%nat
      ∧ execute input c s (machine pc regs L w) = write_slot i v (machine pc regs L w)
  | Err (Fault e) => execute input c s (machine pc regs L w) = Err (Failed e)
  | Err Wrong => False
  end.
Proof. intros Hz ->. destruct (checked_slot_cases z) as [(i & -> & Hi)|(e & ->)]; [apply Hz|done|done]. Qed.

Lemma static_execute pc regs L w k s v :
  key_at k → execute input c s (machine pc regs L w)
             = (let? k := static_slot (slot k) c in write_slot k v (machine pc regs L w)) →
  match key_slot c k with
  | Ok i => (i < length (cc_keys c))%nat
      ∧ execute input c s (machine pc regs L w) = write_slot i v (machine pc regs L w)
  | Err (Fault e) => execute input c s (machine pc regs L w) = Err (Failed e)
  | Err Wrong => False
  end.
Proof. intros Hk ->. destruct (key_slot_cases k Hk) as [[[-> ->]|[-> ->]] Hi]; done. Qed.

Lemma state_set_follows k e : stmt_follows (SStateSet k e).
Proof.
  intros sc l pc r g env regs L w Hg Hc Henv Hk Hn Hr Hl Hw. cbn [gen_stmt] in Hg. single_inv Hg.
  apply code_at_app in Hc as [Hc1 Hc2]. apply code_at_cons in Hc2 as [Hs _]. cbn [exec].
  eapply follows_bind; [eapply number_follows; try done; [apply Henv|intros; apply Hk; cbn; set_solver]|].
  intros [z w'] m _ (regs' & -> & Hw' & Hz & Hreg & Hlen & _). cbn in Hw', Hz, Hreg |- *. rewrite length_app, at_end.
  eapply follows_slot; [done|done|done|done|done|done|].
  intros w2 _. apply static_execute; [apply Hk; left|]. cbn. unfold index. rewrite Hreg. by destruct (static_slot _ _).
Qed.

Lemma state_delete_follows k : stmt_follows (SStateDelete k).
Proof.
  intros sc l pc r g env regs L w Hg Hc Henv Hk Hn Hr Hl Hw. cbn [gen_stmt] in Hg. simplify_eq.
  apply code_at_cons in Hc as [Hs _]. cbn [exec g_code]. rewrite Nat.add_1_r.
  eapply follows_slot; [done|done|done|done|done|done|].
  intros w2 _. apply static_execute; [apply Hk; left|]. done.
Qed.

Lemma state_delete_at_follows e : stmt_follows (SStateDeleteAt e).
Proof.
  intros sc l pc r g env regs L w Hg Hc Henv Hk Hn Hr Hl Hw. cbn [gen_stmt] in Hg. single_inv Hg.
  apply code_at_app in Hc as [Hc1 Hc2]. apply code_at_cons in Hc2 as [Hs _]. cbn [exec].
  eapply follows_bind; [by eapply number_follows; try done; apply Henv|].
  intros [z w'] m _ (regs' & -> & Hw' & Hz & Hreg & Hlen & _). cbn in Hw', Hz, Hreg |- *. rewrite length_app, at_end.
  eapply follows_slot; [done|done|done|done|done|done|].
  intros w2 _. apply checked_execute; [done|]. cbn. unfold index. by rewrite Hreg.
Qed.

(** Two numbers in registers. *)
Lemma pair_follows {A : Type} step sc a b l pc r g env regs L w (k : Z → Z → world → result A SourceFailure) Q :
  gen_pair slot step sc a b l pc r = Some g → code_at pc (g_code g) → Forall2 (scope_match L) sc env →
  (∀ k, k ∈ expr_keys a ++ expr_keys b → key_at k) → Forall u64 (expr_numbers a ++ expr_numbers b) →
  (g_registers g <= length regs)%nat → world_ok w →
  (∀ va vb x y w' regs', world_ok w' → u64 x → u64 y → regs' !! va = Some x → regs' !! vb = Some y →
     length regs' = length regs → g_scopes g = sc → g_locals g = l → g_returns g = false →
     cp_instructions P !! (pc + length (g_code g) - 1)%nat = Some (step va vb) → (0 < length (g_code g))%nat →
     follows (machine (pc + length (g_code g) - 1) regs' L w') (k x y w') Q) →
  follows (machine pc regs L w)
    (let? (x, w) := eval_number input c fuel env a w in let? (y, w) := eval_number input c fuel env b w in k x y w) Q.
Proof.
  unfold gen_pair. intros Hg Hc Henv Hk Hn Hr Hw Hcont.
  destruct (gen_typed slot U64 sc a pc r) as [[[ca va] r1]|] eqn:Hga; [|done].
  destruct (gen_typed slot U64 sc b _ _) as [[[cb vb] r2]|] eqn:Hgb; [|done]. simplify_eq. cbn in *.
  pose proof (gen_expr_bounds _ _ _ _ _ _ _ _ (gen_typed_inv _ _ _ _ _ _ _ _ Hga)) as [Hb1 Hb2].
  pose proof (gen_expr_bounds _ _ _ _ _ _ _ _ (gen_typed_inv _ _ _ _ _ _ _ _ Hgb)) as [Hb3 Hb4]. cbn in Hb2, Hb4.
  apply code_at_app in Hc as [Hc1 Hc]. apply code_at_app in Hc as [Hc2 Hc]. apply code_at_cons in Hc as [Hs _].
  apply Forall_app in Hn as [Hna Hnb]. rewrite !length_app in Hcont. cbn [length] in Hcont.
  replace (pc + (length ca + (length cb + 1)) - 1)%nat with (pc + length ca + length cb)%nat in Hcont by lia.
  eapply follows_bind; [eapply number_follows; try done; [intros; apply Hk; set_solver|lia]|].
  intros [x w1] m _ (regs1 & -> & Hw1 & Hx & Hreg1 & Hlen1 & _). cbn in Hw1, Hx, Hreg1 |- *.
  eapply follows_bind; [eapply number_follows; try done; [intros; apply Hk; set_solver|lia]|].
  intros [y w2] m _ (regs2 & -> & Hw2 & Hy & Hreg2 & Hlen2 & Hkeep2). cbn in Hw2, Hy, Hreg2 |- *.
  eapply Hcont; try done; [rewrite Hkeep2 by lia; exact Hreg1|lia|lia].
Qed.

Lemma state_set_at_follows a b : stmt_follows (SStateSetAt a b).
Proof.
  intros sc l pc r g env regs L w Hg Hc Henv Hk Hn Hr Hl Hw. cbn [gen_stmt] in Hg. cbn [exec].
  eapply pair_follows; try done; [apply Henv|].
  intros va vb x y w' regs' Hw' Hx Hy Hrx Hry Hlen Hsc Hlo Hre Hs Hpos.
  destruct g as [code ? ? ? ?]. cbn in *. subst.
  replace (pc + length code)%nat with (S (pc + length code - 1)) at 2 by lia.
  eapply follows_slot; [done|done|done|done|done|done|].
  intros w2 _. apply checked_execute; [done|]. cbn. unfold index. rewrite Hrx. cbn.
  destruct (checked_slot x c); [|done]. cbn. by rewrite Hry.
Qed.

Lemma emit_follows a b : stmt_follows (SEmit a b).
Proof.
  intros sc l pc r g env regs L w Hg Hc Henv Hk Hn Hr Hl Hw. cbn [gen_stmt] in Hg. cbn [exec].
  eapply pair_follows; try done; [apply Henv|].
  intros va vb x y w' regs' Hw' Hx Hy Hrx Hry Hlen Hsc Hlo Hre Hs Hpos.
  destruct g as [code ? ? ? ?]. cbn in *. subst.
  replace (pc + length code)%nat with (S (pc + length code - 1)) at 2 by lia.
  eapply follows_charge; [done|done|]. intros w2 _ H1 H2 H3. unfold follows_from. cbn. case_test.
  - right. eauto.
  - left. unfold index. rewrite Hrx, Hry. cbn. eexists. split; [reflexivity|]. apply follows_ret.
    by apply (finished_same _ _ _ _ _ _ _ _ _ (mkWorld (w_state w2) (w_writes w2) (w_events w2 ++ [(x, y)]) (w_used w2)));
      [eapply world_ok_eq|..].
Qed.

Lemma eval_number_used env e w z w' : eval_number input c fuel env e w = Ok (z, w') → w_used w <= w_used w'.
Proof. unfold eval_number. intros H. bind_inv H. subst. by eapply eval_used. Qed.

Lemma condition_used env e w b w' :
  eval_condition input c fuel env e w = Ok (b, w') → w_used w < w_used w' ∧ w_used w < fuel.
Proof. unfold eval_condition. intros H. bind_inv H. subst. apply eval_used in E. apply charge_inv in E0. lia. Qed.

(** Follow a successful run and add up what its steps charged. *)
Ltac used H :=
  repeat first
    [ progress (bind_inv H; subst)
    | match type of H with
      | (if ?b then _ else _) = Ok _ => destruct b eqn:?; try discriminate H
      | match ?o with Returned _ => _ | Continues _ => _ end = Ok _ => destruct o eqn:?; try discriminate H
      end ];
  repeat match goal with
  | E : charge _ _ = Ok _ |- _ => apply charge_inv in E as [? ?]
  | E : eval _ _ _ _ _ _ = Ok _ |- _ => apply eval_used in E
  | E : eval_number _ _ _ _ _ _ = Ok _ |- _ => apply eval_number_used in E
  | E : eval_condition _ _ _ _ _ _ = Ok _ |- _ => apply condition_used in E as [? ?]
  | IH : ∀ env w o w', _ = Ok (o, w') → _, E : _ = Ok _ |- _ => apply IH in E
  end; simplify_eq/=; try lia.

Lemma while_used condition inside gas env w o w' :
  (∀ env w b w', condition env w = Ok (b, w') → w_used w <= w_used w') →
  (∀ env w o w', inside env w = Ok (o, w') → w_used w <= w_used w') →
  while_loop fuel condition inside gas env w = Ok (o, w') → w_used w <= w_used w'.
Proof.
  intros Hc Hi. revert env w. induction gas as [|gas IH]; intros env w H; [done|]. cbn in H. used H.
  - apply IH in H. lia.
Qed.

Lemma exec_used :
  (∀ s env w o w', exec input c fuel env s w = Ok (o, w') → w_used w <= w_used w')
  ∧ (∀ b env w o w', exec_body input c fuel env b w = Ok (o, w') → w_used w <= w_used w').
Proof.
  apply syntax_ind; cbn [exec exec_body]; intros;
    match goal with
    | H : while_loop _ _ _ _ _ _ = Ok _ |- _ =>
        eapply while_used in H; [done| |by eauto]; intros ? ? ? ? Hc; apply condition_used in Hc; lia
    | H : _ = Ok _ |- _ => used H
    end.
Qed.

(** The edge a condition takes. *)
Definition condition_at (yes no : nat) (regs L : list Z) (bw : bool * world) (m : Machine) : Prop :=
  ∃ regs', m = machine (if bw.1 then yes else no) regs' L bw.2 ∧ world_ok bw.2 ∧ length regs' = length regs.

Lemma condition_follows sc e pc r code v r' yes no env regs L w :
  gen_typed slot Boolean sc e pc r = Some (code, v, r') → code_at pc code →
  cp_instructions P !! (pc + length code)%nat = Some (Branch v yes no) → Forall2 (scope_match L) sc env →
  (∀ k, k ∈ expr_keys e → key_at k) → Forall u64 (expr_numbers e) → (r' <= length regs)%nat → world_ok w →
  follows (machine pc regs L w) (eval_condition input c fuel env e w) (condition_at yes no regs L).
Proof.
  intros Hg%gen_typed_inv Hc Hs Henv Hk Hn Hr Hw. unfold eval_condition.
  eapply follows_bind; [by eapply exprs_follow|].
  intros [x w'] m _ (regs' & -> & Hw' & Hx & Hreg & Hty & Hlen & _). destruct x as [|x]; [done|]. cbn in Hw', Hreg |- *.
  eapply branch_follows; [done|exact Hreg|done|]. intros w2 Hw2 _. apply follows_ret. by exists regs'.
Qed.

Lemma env_match_tail sc env L l : env_match sc env L l → env_match (tail sc) (tail env) L l.
Proof.
  destruct sc as [|s sc]; [|apply env_match_leave]. intros [Hs ? ? ?]. inversion Hs; subst. by split.
Qed.

(** Leaving the block drops its variables. *)
Lemma finished_leave pc g regs L o w m code sc l r :
  finished pc g regs L (o, w) m → tail (g_scopes g) = sc → Forall (λ i, (i < l)%nat) (all_locals sc) →
  finished pc (mkGenerated code sc l r (g_returns g)) regs L (leave o, w) m.
Proof.
  intros Hf Hs Hl. destruct o as [z|env]; [exact Hf|]. destruct Hf as (regs' & L' & -> & Hw & Henv & Hr & HL & Hret).
  exists regs', L'. cbn in *. do 2 (split; [done|]). split; [|done]. subst sc.
  by eapply env_match_below; [by apply env_match_tail|].
Qed.

Lemma finished_weaken pc g regs regs0 L L0 l' ow m :
  finished pc g regs L ow m → length regs = length regs0 → length L = length L0 → (g_locals g <= l')%nat →
  finished pc (mkGenerated (g_code g) (g_scopes g) l' (g_registers g) (g_returns g)) regs0 L0 ow m.
Proof.
  unfold finished. destruct ow as [[z|env] w]; [done|]. cbn. intros (regs' & L' & -> & Hw & Henv & Hr & HL & Hret) H1 H2 H3.
  exists regs', L'. do 2 (split; [done|]). split; [by eapply env_match_weaken|]. split; [congruence|]. split; [congruence|done].
Qed.

(** A jump behind the block. *)
Lemma jump_follows {A : Type} pc regs L w target (k : world → result A SourceFailure) Q :
  cp_instructions P !! pc = Some (Jump target) → world_ok w →
  (∀ w', world_ok w' → charge fuel w = Ok w' → follows (machine target regs L w') (k w') Q) →
  follows (machine pc regs L w) (let? w := charge fuel w in k w) Q.
Proof.
  intros Hs Hw Hk. eapply follows_charge; [done|done|]. intros w' Hch H1 H2 _. left.
  eexists. split; [reflexivity|]. apply Hk; [by eapply world_ok_eq|done].
Qed.

Lemma body_cons_follows s b : stmt_follows s → body_follows b → body_follows (BCons s b).
Proof.
  intros Hs Hb sc l pc r g env regs L w Hg Hc Henv Hk Hn Hr Hl Hw. cbn [gen_body body_numbers exec_body] in *.
  destruct (gen_stmt slot sc s l pc r) as [g1|] eqn:Hg1; [|done]. apply Forall_app in Hn as [Hn1 Hn2].
  destruct (g_returns g1) eqn:Hret.
  - destruct b; [|done]. simplify_eq. eapply follows_bind; [eapply Hs; try done; intros; apply Hk; cbn; set_solver|].
    intros [[z|env'] w'] m _ Hf; [by apply follows_ret|]. destruct Hf as (? & ? & _ & _ & _ & _ & _ & Hf). congruence.
  - destruct (gen_body slot (g_scopes g1) b _ _ _) as [g2|] eqn:Hg2; [|done]. simplify_eq. cbn in Hc, Hr, Hl |- *.
    apply code_at_app in Hc as [Hc1 Hc2]. pose proof (proj2 gen_grows _ _ _ _ _ _ Hg2) as [? ?].
    eapply follows_bind; [eapply Hs; try done; [intros; apply Hk; cbn; set_solver|lia|lia]|].
    intros [[z|env'] w'] m _ Hf; [by apply follows_ret|].
    destruct Hf as (regs' & L' & -> & Hw' & Henv' & Hlr & HlL & _). cbn in Hw', Henv'.
    rewrite length_app, Nat.add_assoc. eapply follows_mono.
    + eapply Hb; try done; [intros; apply Hk; cbn; set_solver|lia|lia].
    + intros ow m Hf. by apply (finished_weaken _ _ _ regs _ L (g_locals g2)) in Hf.
Qed.

(** A nested block, up to the variables it declared. *)
Lemma block_follows b sc l l0 pc r g env regs L w :
  body_follows b → gen_body slot ([] :: sc) b l pc r = Some g → code_at pc (g_code g) → env_match sc env L l0 →
  (l0 <= l)%nat → (∀ k, k ∈ body_keys b → key_at k) → Forall u64 (body_numbers b) →
  (g_registers g <= length regs)%nat → (g_locals g <= length L)%nat → world_ok w →
  follows (machine pc regs L w) (exec_body input c fuel ([] :: env) b w)
    (λ ow, finished (pc + length (g_code g)) (mkGenerated [] sc l0 0 (g_returns g)) regs L (leave ow.1, ow.2)).
Proof.
  intros Hb Hg Hc Henv Hl0 Hk Hn Hr Hl Hw. eapply follows_mono.
  - eapply Hb; try done. by eapply env_match_enter, env_match_weaken.
  - intros [o w'] m Hf. eapply finished_leave; [exact Hf|by apply gen_tail in Hg|apply Henv].
Qed.

Lemma if_gen_inv sc e yes no l pc r g :
  gen_stmt slot sc (SIf e yes no) l pc r = Some g →
  ∃ cc v r1 gy gn, let start := (pc + length cc + 1)%nat in
    let no_start := (start + length (g_code gy) + if g_returns gy then 0 else 1)%nat in
    let after := (no_start + length (g_code gn))%nat in
    gen_typed slot Boolean sc e pc r = Some (cc, v, r1)
    ∧ gen_body slot ([] :: sc) yes l start r1 = Some gy
    ∧ gen_body slot ([] :: sc) no (g_locals gy) no_start (g_registers gy) = Some gn
    ∧ g = mkGenerated (cc ++ [Branch v start no_start] ++ g_code gy
                       ++ (if g_returns gy then [] else [Jump after]) ++ g_code gn)
            sc (g_locals gn) (g_registers gn) (g_returns gy && g_returns gn)
    ∧ (pc + length (g_code g))%nat = after.
Proof.
  cbn [gen_stmt]. intros H. destruct (gen_typed slot Boolean sc e pc r) as [[[cc v] r1]|]; [|done].
  destruct (gen_body slot _ yes _ _ _) as [gy|] eqn:Hy; [|done].
  destruct (gen_body slot _ no _ _ _) as [gn|] eqn:Hn; [|done]. simplify_eq.
  exists cc, v, r1, gy, gn. cbn. do 4 (split; [done|]). rewrite !length_app. cbn. rewrite !length_app.
  destruct (g_returns gy); cbn; lia.
Qed.

Lemma if_follows e yes no : body_follows yes → body_follows no → stmt_follows (SIf e yes no).
Proof.
  intros Hy Hn sc l pc r g env regs L w Hg Hc Henv Hk Hnum Hr Hl Hw.
  apply if_gen_inv in Hg as (cc & v & r1 & gy & gn & Hge & Hgy & Hgn & Hg & Hafter). rewrite Hafter. clear Hafter. subst g.
  cbn [stmt_numbers stmt_keys g_code g_registers g_locals exec] in *.
  apply code_at_app in Hc as [Hc1 Hc]. cbn [app] in Hc. apply code_at_cons in Hc as [Hs Hc].
  rewrite <- Nat.add_1_r in Hc. apply code_at_app in Hc as [Hcy Hc]. apply code_at_app in Hc as [Hcj Hcn].
  apply Forall_app in Hnum as [Hne Hnum]. apply Forall_app in Hnum as [Hny Hnn].
  pose proof (proj2 gen_grows _ _ _ _ _ _ Hgy) as [? ?]. pose proof (proj2 gen_grows _ _ _ _ _ _ Hgn) as [? ?].
  eapply follows_bind; [eapply condition_follows; try done; [apply Henv|set_solver|lia]|].
  intros [b w1] m _ (regs1 & -> & Hw1 & Hlen1). cbn in Hw1. destruct b; cbn [fst snd].
  - eapply follows_bind; [eapply (block_follows _ _ _ l); try done; [set_solver|lia|lia]|].
    intros [o w2] m _ Hf. cbn [fst snd] in Hf. destruct (leave o) as [z|env'].
    { by apply follows_ret. }
    destruct Hf as (regs2 & L2 & -> & Hw2 & Henv2 & Hlr & HlL & Hret). cbn in Hret, Hw2, Henv2. rewrite Hret in *.
    apply code_at_cons in Hcj as [Hj _]. eapply jump_follows; [exact Hj|done|]. intros w3 Hw3 _. apply follows_ret.
    exists regs2, L2. cbn. do 2 (split; [done|]). split; [eapply env_match_weaken; [done|lia]|]. split; [congruence|done].
  - assert (code_at (pc + length cc + 1 + length (g_code gy) + if g_returns gy then 0 else 1) (g_code gn)) as Hcn'
      by by destruct (g_returns gy).
    eapply follows_bind; [eapply (block_follows _ _ _ l _ _ gn); try done; first [lia|set_solver]|].
    intros [o w2] m _ Hf. cbn [fst snd] in Hf. apply follows_ret.
    apply (finished_weaken _ _ _ regs _ L (g_locals gn)) in Hf; [|done|done|cbn; lia].
    destruct (leave o) as [z|env']; [done|]. cbn in *.
    destruct Hf as (regs2 & L2 & -> & Hw2 & Henv2 & Hlr & HlL & Hret). exists regs2, L2. cbn in Hret. rewrite Hret.
    by rewrite andb_false_r.
Qed.

Lemma while_gen_inv sc e b l pc r g :
  gen_stmt slot sc (SWhile e b) l pc r = Some g →
  ∃ cc v r1 gb, let start := (pc + length cc + 1)%nat in
    gen_typed slot Boolean sc e pc r = Some (cc, v, r1) ∧ gen_body slot ([] :: sc) b l start r1 = Some gb
    ∧ g = mkGenerated (cc ++ [Branch v start (pc + length (g_code g))] ++ g_code gb
                       ++ (if g_returns gb then [] else [Jump pc])) sc (g_locals gb) (g_registers gb) false.
Proof.
  cbn [gen_stmt]. intros H. destruct (gen_typed slot Boolean sc e pc r) as [[[cc v] r1]|]; [|done].
  destruct (gen_body slot _ b _ _ _) as [gb|] eqn:Hb; [|done]. simplify_eq.
  exists cc, v, r1, gb. cbn. do 2 (split; [done|]). rewrite !length_app. cbn. rewrite !length_app.
  by replace (pc + (length cc + S _))%nat
    with (pc + length cc + 1 + length (g_code gb) + length (if g_returns gb then [] else [Jump pc]))%nat by lia.
Qed.

Lemma while_follows e b : body_follows b → stmt_follows (SWhile e b).
Proof.
  intros Hb sc l pc r g env regs L w Hg Hc Henv Hk Hnum Hr Hl Hw.
  apply while_gen_inv in Hg as (cc & v & r1 & gb & Hge & Hgb & Hg). set (after := (pc + length (g_code g))%nat) in *.
  clearbody after. subst g. cbn [stmt_numbers stmt_keys g_code g_registers g_locals exec] in *.
  apply code_at_app in Hc as [Hc1 Hc]. cbn [app] in Hc. apply code_at_cons in Hc as [Hs Hc].
  rewrite <- Nat.add_1_r in Hc. apply code_at_app in Hc as [Hcb Hcj]. apply Forall_app in Hnum as [Hne Hnb].
  pose proof (proj2 gen_grows _ _ _ _ _ _ Hgb) as [? ?].
  assert (Z.to_nat (fuel - w_used w) < S (Z.to_nat (fuel - w_used w)))%nat as Hgas by lia. revert Hgas.
  generalize (S (Z.to_nat (fuel - w_used w))) as gas. intros gas. revert env regs L w Henv Hr Hl Hw.
  induction gas as [|gas IH]; intros env regs L w Henv Hr Hl Hw Hgas; [lia|]. cbn [while_loop].
  eapply follows_bind; [eapply condition_follows; try done; [apply Henv|set_solver|lia]|].
  intros [x w1] m Hu1 (regs1 & -> & Hw1 & Hlen1). apply condition_used in Hu1. cbn in Hw1. destruct x; cbn [fst snd].
  - eapply follows_bind; [eapply (block_follows _ _ _ l _ _ gb); try done; first [lia|set_solver]|].
    intros [o w2] m Hu2 Hf. apply (proj2 exec_used) in Hu2. cbn [fst snd] in Hf. destruct (leave o) as [z|env'].
    { by apply follows_ret. }
    destruct Hf as (regs2 & L2 & -> & Hw2 & Henv2 & Hlr & HlL & Hret). cbn in Hret, Hw2, Henv2. rewrite Hret in *.
    apply code_at_cons in Hcj as [Hj _]. eapply jump_follows; [exact Hj|done|]. intros w3 Hw3 Hch%charge_inv.
    eapply follows_mono; [apply IH; [done|lia|lia|done|lia]|]. intros ow m Hf.
    by apply (finished_weaken _ _ _ regs _ L (g_locals gb)) in Hf; [|congruence..|].
  - apply follows_ret. exists regs1, L. cbn. do 2 (split; [done|]). split; [eapply env_match_weaken; [done|lia]|done].
Qed.

Lemma source_follows : (∀ s, stmt_follows s) ∧ (∀ b, body_follows b).
Proof.
  apply syntax_ind.
  - apply let_follows.
  - apply assign_follows.
  - apply return_follows.
  - intros. by apply if_follows.
  - apply while_follows.
  - apply state_set_follows.
  - apply state_delete_follows.
  - apply state_set_at_follows.
  - apply state_delete_at_follows.
  - apply emit_follows.
  - intros sc l pc r g env regs L w Hg _ Henv _ _ _ _ Hw. cbn in Hg |- *. simplify_eq. cbn. rewrite Nat.add_0_r.
    apply follows_ret. by apply finished_same.
  - intros. by apply body_cons_follows.
Qed.
End simulation.
