(* ===== verification/TroctoRun.v ===== *)
(** * TroctoRun: compiled contracts run as their source says

    Accepted sources are well typed; the evaluator halts for every program, context and
    fuel, and asks its callback at least once every 1024 dispatches; and a compiled
    program evaluates to exactly what the definitional interpreter computes, error
    included. *)

From S2P Require Import Prelude Ordered Codec Trocto TroctoStateful TroctoSource TroctoCompile TroctoCorrect.

#[local] Arguments cmp : simpl never.

(** ** Accepted programs are well typed *)

Definition types (sc : list Scope) : TypeEnv := map (map (λ x, (x.1, (b_ty x.2, b_mutable x.2)))) sc.

Lemma bt_get_map {A B : Type} (f : A → B) name (s : BTreeMap bytes A) :
  bt_get name (map (λ x, (x.1, f x.2)) s) = f <$> bt_get name s.
Proof. induction s as [|[n a] s IH]; cbn; [done|]. by destruct (cmp name n). Qed.

Lemma bt_insert_map {A B : Type} (f : A → B) name a (s : BTreeMap bytes A) :
  map (λ x, (x.1, f x.2)) (bt_insert name a s) = bt_insert name (f a) (map (λ x, (x.1, f x.2)) s).
Proof. induction s as [|[n b] s IH]; cbn; [done|]. destruct (cmp name n); cbn; [done..|]. by rewrite IH. Qed.

Lemma find_types name sc :
  find_name name (types sc) = (λ b, (b_ty b, b_mutable b)) <$> find_binding name sc.
Proof.
  induction sc as [|s sc IH]; [done|]. cbn. rewrite (bt_get_map (λ b, (b_ty b, b_mutable b))).
  by destruct (bt_get name s).
Qed.

(** Unfold one look-up after the other. *)
Ltac gen_inv :=
  repeat match goal with
  | H : match ?x with _ => _ end = Some _ |- _ => destruct x eqn:?; try discriminate H
  end; simplify_eq/=.

(** Rewrite with the tests known to succeed. *)
Ltac known :=
  repeat match goal with
  | H : bool_decide _ = true |- _ => rewrite H
  | |- context [bool_decide (?x = ?x)] => rewrite (bool_decide_true (x = x)) by done
  end.

Lemma gen_expr_typed slot sc e pc r code v r' :
  gen_expr slot sc e pc r = Some (code, v, r') → type_of (types sc) e = Some (v_ty v).
Proof.
  revert pc r code v r'. induction e as [| | | |e IH|[b| |] l IHl rh IHr| | | |e IH| |e IH]; intros pc r code v r' H;
    cbn [gen_expr] in H; gen_inv; try done;
    repeat match goal with
    | IH : ∀ pc r code v r', gen_expr _ _ ?e _ _ = _ → _, H : gen_expr _ _ ?e _ _ = _ |- _ => apply IH in H; cbn in H; rewrite H
    end; cbn; unfold need; known; try done.
  by rewrite find_types, Heqo.
Qed.

Lemma gen_typed_typed slot ty sc e pc r code v r' :
  gen_typed slot ty sc e pc r = Some (code, v, r') → type_of (types sc) e = Some ty.
Proof. intros H%gen_typed_inv. by apply gen_expr_typed in H. Qed.

Lemma let_typed slot mutable name declared e s sc l pc r code v r' :
  gen_expr slot (s :: sc) e pc r = Some (code, v, r') →
  bool_decide (name ∈ reserved) || bt_contains name s
    || negb (bool_decide (declared = None ∨ declared = Some (v_ty v))) = false →
  check_stmt (types (s :: sc)) (SLet mutable name declared e)
  = Some (types (bt_insert name (mkBinding l (v_ty v) mutable) s :: sc), false).
Proof.
  intros He%gen_expr_typed [[Hr Hf]%orb_false_iff Hd]%orb_false_iff. apply bool_decide_eq_false in Hr.
  apply negb_false_iff, bool_decide_eq_true in Hd. cbn [check_stmt]. rewrite He. cbn.
  rewrite bool_decide_false, bool_decide_true by done. cbn.
  unfold bt_contains in *. rewrite (bt_get_map (λ b, (b_ty b, b_mutable b))).
  destruct (bt_get name s); [done|]. cbn. by rewrite (bt_insert_map (λ b, (b_ty b, b_mutable b))).
Qed.

Lemma gen_well_typed slot :
  (∀ s sc l pc r g, gen_stmt slot sc s l pc r = Some g →
     check_stmt (types sc) s = Some (types (g_scopes g), g_returns g))
  ∧ (∀ b sc l pc r g, gen_body slot sc b l pc r = Some g → check_body (types sc) b = Some (g_returns g)).
Proof.
  apply syntax_ind; cbn [gen_stmt gen_body check_stmt check_body]; unfold gen_single, gen_pair; intros;
    gen_inv;
    repeat match goal with
    | H : gen_typed _ _ _ _ _ _ = Some _ |- _ => apply gen_typed_typed in H; rewrite H
    | H : gen_expr _ _ _ _ _ = Some _ |- _ => apply gen_expr_typed in H; rewrite H; cbn
    | IH : ∀ sc l pc r g, gen_body _ sc ?b l pc r = _ → _, H : gen_body _ _ ?b _ _ _ = _ |- _ => apply IH in H; try rewrite H
    | IH : ∀ sc l pc r g, gen_stmt _ sc ?s l pc r = _ → _, H : gen_stmt _ _ ?s _ _ _ = _ |- _ => apply IH in H; try rewrite H
    end; known; try done.
  - by eapply let_typed.
  - rewrite find_types, Heqo. cbn. by known.
  - change ([] :: types sc) with (types ([] :: sc)). by rewrite Heqo0, Heqo1.
  - change ([] :: types sc) with (types ([] :: sc)). by rewrite Heqo0.
  - by destruct (g_returns g).
  - match goal with H : g_returns g0 = false |- _ => by rewrite H end.
Qed.

Lemma generates_typed program b : generates program b → well_typed b.
Proof. intros (_ & slot & sc & _ & Hg). by apply (proj2 (gen_well_typed slot)) in Hg. Qed.

(** ** The loop *)

Section loop.
Context (P : CheckedProgram) (input : Z) (c : ContractContext) (fuel : Z).

Definition measure (m : Machine) : nat :=
  (Z.to_nat (fuel - m_used m) * S (length (cp_instructions P)) + (length (cp_instructions P) - m_pc m) + 1)%nat.

Lemma measure_pos m : (1 <= measure m)%nat.
Proof. unfold measure. generalize (Z.to_nat (fuel - m_used m) * S (length (cp_instructions P)))%nat. lia. Qed.

Lemma execute_used s m m' : execute input c s m = Ok (inl m') → m_used m' = m_used m.
Proof.
  unfold execute, write_register, write_slot, jump. intros H. destruct s;
    repeat first [progress bind_inv H | case_in H]; by simplify_eq.
Qed.

Lemma execute_forward s m m' : execute input c s m = Ok (inl m') → charged s = false → m_pc m' = S (m_pc m).
Proof.
  unfold execute, write_register. intros H Hc. destruct s; try done; bind_inv H; by simplify_eq.
Qed.

Lemma dispatch_decreases m m' : dispatch P input c fuel m = Ok (inl m') → (measure m' < measure m)%nat.
Proof.
  unfold dispatch, measure. intros H. destruct (cp_instructions P !! m_pc m) as [s|] eqn:Hs; [|done].
  apply lookup_lt_Some in Hs. destruct (charged s) eqn:Hc.
  - case_in H. apply execute_used in H as ->. cbn.
    replace (Z.to_nat (fuel - m_used m)) with (S (Z.to_nat (fuel - (m_used m + 1)))) by lia. lia.
  - rewrite (execute_used _ _ _ H), (execute_forward _ _ _ H Hc). lia.
Qed.

(** The run without a callback. *)
Inductive halts : nat → Machine → result ContractExecution RunFailure → Prop :=
| H_return m e : dispatch P input c fuel m = Ok (inr e) → halts 1 m (Ok e)
| H_fail m f : dispatch P input c fuel m = Err f → halts 1 m (Err f)
| H_step n m m' r : dispatch P input c fuel m = Ok (inl m') → halts n m' r → halts (S n) m r.

Lemma halts_total m : ∃ n r, halts n m r ∧ (n <= measure m)%nat.
Proof.
  remember (measure m) as k eqn:Hk. revert m Hk. induction k as [k IH] using lt_wf_ind. intros m ->.
  destruct (dispatch P input c fuel m) as [[m'|e]|f] eqn:Hd.
  - pose proof (dispatch_decreases _ _ Hd) as Hlt. destruct (IH _ Hlt m' eq_refl) as (n & r & Hh & Hn).
    exists (S n), r. split; [by eapply H_step|lia].
  - exists 1%nat, (Ok e). split; [by constructor|apply measure_pos].
  - exists 1%nat, (Err f). split; [by constructor|apply measure_pos].
Qed.

Lemma halts_det n m r n' r' : halts n m r → halts n' m r' → n' = n ∧ r' = r.
Proof.
  intros H. revert n' r'. induction H as [m e Hd|m f Hd|n m m' r Hd _ IH]; intros n' r' H';
    inversion H' as [? ? Hd'|? ? Hd'|? ? ? ? Hd' Hh']; subst; rewrite Hd in Hd'; simplify_eq; try done.
  by destruct (IH _ _ Hh') as [-> ->].
Qed.

Lemma steps_halt m m' r : steps P input c fuel m m' → (∃ n, halts n m' r) → ∃ n, halts n m r.
Proof. induction 1 as [|m m1 m2 Hd _ IH]; intros Hn; [done|]. destruct (IH Hn) as [n Hh]. exists (S n). by eapply H_step. Qed.

(** How often the callback is asked in [n] dispatches. *)
Fixpoint asked (n : nat) (dispatches : Z) : nat :=
  match n with
  | O => O
  | S n => ((if (dispatches =? 0)%Z then 1 else 0) + asked n ((dispatches + 1) mod 1024)%Z)%nat
  end.

Lemma asked_count n d :
  0 <= d < 1024 → Z.of_nat (asked n d) = (Z.of_nat n + (d + 1023) mod 1024) / 1024.
Proof.
  revert d. induction n as [|n IH]; intros d Hd; cbn [asked].
  - rewrite Z.add_0_l, (Z.div_small _ 1024); [done|]. apply Z.mod_pos_bound. lia.
  - rewrite Nat2Z.inj_add, IH by (apply Z.mod_pos_bound; lia). rewrite Nat2Z.inj_succ.
    case_test; Z.div_mod_to_equations; lia.
Qed.

Lemma dispatch_not_running m : dispatch P input c fuel m ≠ Err Running.
Proof.
  unfold dispatch. destruct (cp_instructions P !! m_pc m) as [s|]; [|done]. generalize (spend m) as m1. intros m1.
  assert (∀ m, execute input c s m ≠ Err Running) as H; [|destruct (charged s); [case_test|]; by try apply H].
  clear. intros m. unfold execute, write_register, write_slot, jump, checked_slot, static_slot, key_word, index, update, ok_or, map_err.
  destruct s; repeat case_match; simplify_eq/=; done.
Qed.

Definition is_return (s : Step) : bool := match s with Return _ => true | _ => false end.

Lemma execute_return s m :
  match execute input c s m with
  | Ok (inr _) => is_return s = true
  | Ok (inl _) | Err (Failed _) => is_return s = false
  | Err _ => True
  end.
Proof.
  unfold execute, write_register, write_slot, jump, checked_slot, static_slot, key_word, index, update, ok_or, map_err.
  destruct s; repeat case_match; simplify_eq/=; done.
Qed.

Lemma returning_dispatch m :
  match dispatch P input c fuel m with
  | Ok (inr _) => returning P m = true
  | Ok (inl _) | Err (Failed _) => returning P m = false
  | Err _ => True
  end.
Proof.
  unfold dispatch, returning. destruct (cp_instructions P !! m_pc m) as [s|]; [|done].
  change (match s with Return _ => true | _ => false end) with (is_return s).
  destruct (charged s) eqn:Hc; [|apply execute_return]. case_test; [by destruct s|apply execute_return].
Qed.

Lemma loop_halts interrupt n m r gas polls d :
  halts n m r → r ≠ Err RunPanic → (n <= gas)%nat →
  evaluate_loop P input c fuel interrupt gas polls d m
  = if existsb interrupt (seq polls (asked n d)) then Ok None
    else match r with
         | Ok e => if interrupt (polls + asked n d)%nat then Ok None else Ok (Some e)
         | Err f => Err f
         end.
Proof.
  intros H. revert gas polls d. induction H as [m e Hd|m f Hd|n m m' r Hd _ IH]; intros gas polls d Hp Hg;
    (destruct gas as [|gas]; [lia|]); cbn [evaluate_loop asked]; pose proof (returning_dispatch m) as Hr;
    pose proof (dispatch_not_running m) as Hn; rewrite Hd in Hr, Hn |- *; [|destruct f; try done|];
    rewrite Hr; destruct (d =? 0) eqn:E; cbn.
  - rewrite Nat.add_1_r. by destruct (interrupt polls).
  - by rewrite Nat.add_0_r.
  - by destruct (interrupt polls).
  - done.
  - rewrite IH by (done || lia). rewrite <- Nat.add_succ_comm. by destruct (interrupt polls).
  - by rewrite IH by (done || lia).
Qed.

(** Nobody interrupts. *)
Lemma loop_free n m r gas polls d :
  halts n m r → (n <= gas)%nat →
  evaluate_loop P input c fuel (λ _, false) gas polls d m = (let? e := r in Ok (Some e)).
Proof.
  intros H. revert gas polls d. induction H as [m e Hd|m f Hd|n m m' r Hd _ IH]; intros gas polls d Hg;
    (destruct gas as [|gas]; [lia|]); cbn [evaluate_loop]; rewrite !andb_false_r, Hd; cbn; [done|done|].
  apply IH. lia.
Qed.

Lemma bound_enough : (measure (initial P c) <= gas_bound P fuel)%nat.
Proof. unfold measure, gas_bound, initial. cbn [m_used m_pc]. rewrite Z.sub_0_r. lia. Qed.

(** The run of a call, independently of the callback. *)
Lemma run_total :
  ∃ n r, halts n (initial P c) r ∧ (n <= gas_bound P fuel)%nat.
Proof. destruct (halts_total (initial P c)) as (n & r & H & Hn). pose proof bound_enough. exists n, r. split; [done|lia]. Qed.

Lemma evaluate_halts n r :
  map_err Failed (validate (cp_keys P) c) = Ok tt → halts n (initial P c) r → evaluate P input c fuel = r.
Proof.
  intros Hv Hh. unfold evaluate, evaluate_with_interrupt. rewrite Hv.
  destruct run_total as (n' & r' & Hh' & Hn). destruct (halts_det _ _ _ _ _ Hh Hh') as [-> ->].
  rewrite (loop_free _ _ _ _ _ _ Hh Hn). by destruct r.
Qed.

Lemma evaluate_steps m r :
  map_err Failed (validate (cp_keys P) c) = Ok tt → steps P input c fuel (initial P c) m → halts 1 m r →
  evaluate P input c fuel = r.
Proof. intros Hv Hs Hh. destruct (steps_halt _ _ r Hs) as [n Hn]; [eauto|]. by eapply evaluate_halts. Qed.
End loop.

(** ** Literals *)

Definition number_ok (k : TokenKind) : Prop := match k with Number z => u64 z | _ => True end.

Lemma run_length_holds p xs : Forall (λ b, p b = true) (take (run_length p xs) xs).
Proof. induction xs as [|b xs IH]; cbn; [constructor|]. destruct (p b) eqn:E; cbn; [by constructor|constructor]. Qed.

Lemma digits_nonneg xs : Forall (λ b, is_ascii_digit b = true) xs → 0 <= digits_value xs.
Proof.
  unfold digits_value. intros H.
  enough (∀ v, 0 <= v → 0 <= fold_left (λ v b, 10 * v + (byte.unsigned b - 48)) xs v) as Hv by (apply Hv; lia).
  induction H as [|b xs Hb _ IH]; intros v Hv; cbn; [done|]. apply IH. unfold is_ascii_digit, in_range in Hb. bool_props. lia.
Qed.

Lemma lex_number_ok o rest z n : lex_number o rest = Ok (z, n) → u64 z.
Proof.
  unfold lex_number, parse_u64, refuse. intros H. case_match eqn:E; [|done]. simplify_eq.
  apply try_from_some in E as [? ->]. split; [|done]. apply digits_nonneg, run_length_holds.
Qed.

Lemma token_numbers o rest k n : token o rest = Ok (k, n) → number_ok k.
Proof.
  unfold token, lex_key, lex_symbol, refuse. intros H. destruct rest as [|b rest]; [done|].
  repeat first [case_in H | progress bind_inv H]; simplify_eq; try done. by eapply lex_number_ok.
Qed.

Lemma lex_numbers source ts : lex source = Ok ts → Forall number_ok (map tok_kind ts).
Proof.
  unfold lex, lex_source. intros H. case_in H. bind_inv H. subst. rewrite map_app. apply Forall_app. split.
  - apply Forall_map. eapply (lex_loop_forall token number_ok); [intros ? ? ? ?; apply token_numbers|constructor|exact E].
  - by repeat constructor.
Qed.

Lemma expr_toks_numbers m ts e : expr_toks m ts e → Forall number_ok ts → Forall u64 (expr_numbers e).
Proof.
  induction 1; intros Hf; cbn; repeat (rewrite ?Forall_app, ?Forall_cons in Hf); cbn in Hf;
    try (by constructor); try (apply Forall_app; split); naive_solver.
Qed.

Scheme stmt_toks_mut := Induction for stmt_toks Sort Prop
  with body_toks_mut := Induction for body_toks Sort Prop
  with block_toks_mut := Induction for block_toks Sort Prop.
Combined Scheme toks_ind from stmt_toks_mut, body_toks_mut, block_toks_mut.

Lemma toks_numbers :
  (∀ ts s, stmt_toks ts s → Forall number_ok ts → Forall u64 (stmt_numbers s))
  ∧ (∀ ts b, body_toks ts b → Forall number_ok ts → Forall u64 (body_numbers b))
  ∧ (∀ ts b, block_toks ts b → Forall number_ok ts → Forall u64 (body_numbers b)).
Proof.
  apply toks_ind; intros;
    repeat match goal with
    | Hf : Forall number_ok _ |- _ => progress repeat (rewrite ?Forall_app, ?Forall_cons in Hf); destruct_and? Hf
    | Hx : expr_toks _ _ _ |- _ => apply expr_toks_numbers in Hx; [|done]
    end; cbn; rewrite ?Forall_app; auto.
Qed.

(** ** Calls *)

(** What the types of the arguments promise: [u64], [[u64; 4]] and [Vec<Option<u64>>]. *)
Record call_typed (input : Z) (c : ContractContext) : Prop := {
  ct_input : u64 input;
  ct_height : u64 (cc_height c);
  ct_caller : length (cc_caller c) = 4%nat ∧ Forall u64 (cc_caller c);
  ct_state : Forall (λ v, u64 (default 0 v)) (cc_state c)
}.

Lemma collect_nodup {K V : Type} `{!TotalOrd K} (xs : list (K * V)) :
  length (bt_collect xs) = length xs → NoDup (map fst xs).
Proof.
  intros Hl. destruct (bt_collect_elem xs [] bt_ok_nil) as [Hok Hk]. apply NoDup_ListNoDup.
  apply (NoDup_incl_NoDup (l := bt_keys (bt_collect xs))).
  - by apply NoDup_ListNoDup, sorted_lt_nodup.
  - unfold bt_keys. rewrite !length_map. by apply Nat.eq_le_incl.
  - intros k Hin%list_elem_of_In. apply list_elem_of_In. apply Hk in Hin. set_solver.
Qed.

Lemma validate_facts prefix c :
  validate prefix c = Ok tt →
  u64 (len (cc_keys c)) ∧ length (cc_state c) = length (cc_keys c) ∧ length (cc_access c) = length (cc_keys c)
  ∧ (∀ i k, prefix !! i = Some k → list_find (k =.) (cc_keys c) = Some (i, k)).
Proof.
  unfold validate, reject_if. intros H. case_match eqn:E; [done|]. clear H. bool_props. unfold starts_with in *. bool_props.
  unfold len in *. split; [split; [lia|]; eapply Z.le_lt_trans; [eassumption|done]|]. split; [lia|]. split; [lia|].
  intros i k Hi. apply list_find_Some.
  assert (NoDup (cc_keys c)) as Hd.
  { pose proof (collect_nodup (map (λ k, (k, tt)) (cc_keys c))) as Hc. rewrite map_map, map_id, length_map in Hc. apply Hc. lia. }
  assert (cc_keys c !! i = Some k) as Hk.
  { match goal with H : take _ _ = prefix |- _ => rewrite <- H in Hi end. by apply lookup_take_Some in Hi as [Hi _]. }
  split; [done|]. split; [done|]. intros j y Hj Hlt <-. pose proof (NoDup_lookup _ _ _ _ Hd Hj Hk). lia.
Qed.

Lemma compiled_runs program b input c fuel :
  generates program b → Forall u64 (body_numbers b) → call_typed input c →
  match run_source input c fuel b with
  | Ok e => evaluate program input c fuel = Ok e
  | Err (Fault e) => evaluate program input c fuel = Err (Failed e)
  | Err Wrong => False
  end.
Proof.
  intros (Hkeys & slot & sc & Hslot & Hgen) Hn [Hi Hh Hca Hst]. unfold run_source. rewrite <- Hkeys.
  destruct (validate (cp_keys program) c) as [[]|e] eqn:Hv; cbn [map_err].
  2:{ unfold evaluate, evaluate_with_interrupt. by rewrite Hv. }
  destruct (validate_facts _ _ Hv) as (Hcount & Hls & Hla & Hfind).
  assert (context_ok input c) as Hctx by by split.
  set (w := mkWorld (cc_state c) (replicate (length (cc_keys c)) false) [] 0).
  assert (follows program input c fuel (initial program c) (exec_body input c fuel [[]] b w)
            (finished program input c fuel (0 + length (cp_instructions program))
               (mkGenerated (cp_instructions program) sc (cp_locals program) (cp_registers program) true)
               (replicate (cp_registers program) 0) (replicate (cp_locals program) 0))) as Hf.
  { pose proof (proj2 (source_follows program input c fuel slot Hctx) b) as Hb. unfold body_follows in Hb.
    refine (Hb [[]] 0%nat 0%nat 0%nat _ [[]] (replicate (cp_registers program) 0) (replicate (cp_locals program) 0) w
              Hgen _ _ _ Hn _ _ _); [by intros ? ?| | | | |].
    - split; by repeat constructor.
    - intros k Hk. by apply Hfind, Hslot.
    - by rewrite length_replicate.
    - by rewrite length_replicate.
    - split; cbn; [done|done|by rewrite length_replicate]. }
  assert (map_err Failed (validate (cp_keys program) c) = Ok tt) as Hv' by by rewrite Hv.
  destruct (exec_body input c fuel [[]] b w) as [[[z|env] w']|[e|]]; cbn in Hf |- *; [| | |done].
  - destruct Hf as (m & Hs & _ & Hd). by apply (evaluate_steps _ _ _ _ _ _ Hv' Hs), H_return.
  - by destruct Hf as (m & _ & ? & ? & _ & _ & _ & _ & _ & Hf).
  - destruct Hf as (m & Hs & Hd). by apply (evaluate_steps _ _ _ _ _ _ Hv' Hs), H_fail.
Qed.
