(* ===== verification/TroctoScalarCorrect.v ===== *)
(** * TroctoScalarCorrect: version one is the scalar part of version two

    The front end of version one is total, reads the grammar below, and its flat code
    computes what the definitional interpreter of TroctoSource computes for the same
    syntax tree: a block of immutable bindings and one return. *)

From S2P Require Import Prelude Ordered Codec Trocto TroctoStateful TroctoSource TroctoScalar.

#[local] Arguments cmp : simpl never.

(** ** Grammar *)

Definition sign_of (o : Operator) : Kind :=
  match o with Add => Plus | Subtract => Minus | Multiply => Star | Divide => Slash | Remainder => Percent end.
Definition strength (o : Operator) : Z := match o with Add | Subtract => 1 | _ => 2 end.

Abbreviation EArith := (λ o, EBin (CBinary (Arithmetic o))).

(** As [expr_toks], over the tokens of version one. *)
Inductive scalar_toks : Z → list Kind → expr → Prop :=
| Y_bin m o ts1 l ts2 r :
    m <= strength o → scalar_toks (strength o) ts1 l → scalar_toks (strength o + 1) ts2 r →
    scalar_toks m (ts1 ++ sign_of o :: ts2) (EArith o l r)
| Y_number m z : scalar_toks m [Number z] (ENumber z)
| Y_input m : scalar_toks m [Word (lit "input")] EInput
| Y_local m name : name ≠ lit "input" → scalar_toks m [Word name] (ELocal name)
| Y_paren m ts e : scalar_toks 0 ts e → scalar_toks m (LeftParen :: ts ++ [RightParen]) e.

Inductive scalar_annotation : option Typ → list Kind → Prop :=
| Y_plain : scalar_annotation None []
| Y_u64 : scalar_annotation (Some U64) [Colon; Word (lit "u64")].

(** [let x = e;] ... [return e;]. *)
Inductive scalar_body : list Kind → body → Prop :=
| Y_return ts e :
    scalar_toks 0 ts e →
    scalar_body (Word (lit "return") :: ts ++ [Semicolon]) (BCons (SReturn e) BNil)
| Y_let name declared anns ts e rest b :
    scalar_annotation declared anns → scalar_toks 0 ts e → scalar_body rest b →
    scalar_body (Word (lit "let") :: Word name :: anns ++ Equal :: ts ++ Semicolon :: rest)
      (BCons (SLet false name declared e) b).

Definition scalar_signature : list Kind :=
  [Word (lit "fn"); Word (lit "call"); LeftParen; Word (lit "input"); Colon; Word (lit "u64"); RightParen;
   Arrow; Word (lit "u64"); LeftBrace].

Definition scalar_program (ts : list Kind) (b : body) : Prop :=
  ∃ inner, ts = scalar_signature ++ inner ++ [RightBrace; End_] ∧ scalar_body inner b.

(** ** Code *)

Fixpoint scalar_code (locals : BTreeMap bytes nat) (e : expr) (n : nat) : option (list Instruction) :=
  match e with
  | ENumber z => Some [Constant z]
  | EInput => Some [Input]
  | ELocal name => v ← bt_get name locals; Some [Copy v]
  | EBin (CBinary (Arithmetic o)) l r =>
      cl ← scalar_code locals l n;
      cr ← scalar_code locals r (n + length cl)%nat;
      Some (cl ++ cr ++ [Binary o (n + length cl - 1) (n + length cl + length cr - 1)])
  | _ => None
  end.

Fixpoint scalar_gen (locals : BTreeMap bytes nat) (b : body) (n : nat) : option (list Instruction) :=
  match b with
  | BCons (SReturn e) BNil => scalar_code locals e n
  | BCons (SLet false name _ e) b =>
      c1 ← scalar_code locals e n;
      c2 ← scalar_gen (bt_insert name (n + length c1 - 1)%nat locals) b (n + length c1)%nat;
      Some (c1 ++ c2)
  | _ => None
  end.

Lemma scalar_code_nonempty locals e n code : scalar_code locals e n = Some code → (1 <= length code)%nat.
Proof.
  destruct e as [| | | | |[[o| | | | | |]| |] l r| | | | | |]; cbn; intros H; simplify_option_eq; cbn; try lia.
  rewrite !length_app. cbn. lia.
Qed.

(** ** What a successful parse did *)

Definition scalar_kinds (p : Parser) : list Kind := map tok_kind (drop (position p) (tokens p)).

Record scalar_emits (p p' : Parser) (ts : list Kind) (code : list Instruction) : Prop := {
  scalar_em_kinds : scalar_kinds p = ts ++ scalar_kinds p';
  scalar_em_code : instructions p' = instructions p ++ code;
  scalar_em_locals : locals p' = locals p
}.

Lemma scalar_emits_trans p1 p2 p3 ts1 ts2 c1 c2 :
  scalar_emits p1 p2 ts1 c1 → scalar_emits p2 p3 ts2 c2 → scalar_emits p1 p3 (ts1 ++ ts2) (c1 ++ c2).
Proof. intros [H1 H2 H3] [H4 H5 H6]. split; [by rewrite H1, H4, app_assoc|by rewrite H5, H2, app_assoc|congruence]. Qed.

Lemma scalar_peek_kinds p t : peek p = Ok t → scalar_kinds p = tok_kind t :: scalar_kinds (advance p).
Proof. unfold peek. intros H%ok_or_ok. unfold scalar_kinds, advance. cbn. by erewrite drop_S. Qed.

Lemma scalar_emits_advance p t : peek p = Ok t → scalar_emits p (advance p) [tok_kind t] [].
Proof. intros H. split; [by apply scalar_peek_kinds|by rewrite app_nil_r|done]. Qed.

Lemma scalar_expect_inv k message p p' : expect k message p = Ok p' → scalar_emits p p' [k] [].
Proof.
  unfold expect, refuse. intros H. bind_inv H. case_in H. simplify_eq. by apply scalar_emits_advance.
Qed.

Lemma scalar_emit_inv i o p v p' :
  emit i o p = Ok (v, p') → v = length (instructions p) ∧ scalar_emits p p' [] [i].
Proof. unfold emit, refuse. intros H. case_in H. simplify_eq. by split; [|split]. Qed.

(** An expression of level [m] was read from [p0] to [p]. *)
Definition reads (m : Z) (p0 : Parser) (v : nat) (p : Parser) : Prop :=
  ∃ ts e code, scalar_emits p0 p ts code ∧ scalar_toks m ts e
    ∧ scalar_code (locals p0) e (length (instructions p0)) = Some code
    ∧ v = (length (instructions p0) + length code - 1)%nat.

Definition stops (m : Z) (p : Parser) : Prop :=
  ∀ o rest, scalar_kinds p = sign_of o :: rest → strength o < m.

Lemma operator_of_inv k o s : operator_of k = Some (o, s) → k = sign_of o ∧ s = strength o.
Proof. destruct k; cbn; intros H; by simplify_eq. Qed.

Lemma operator_of_sign o : operator_of (sign_of o) = Some (o, strength o).
Proof. by destruct o. Qed.

Lemma scalar_toks_weaken m m' ts e : scalar_toks m ts e → m' <= m → scalar_toks m' ts e.
Proof. intros H Hm. destruct H; econstructor; try done; lia. Qed.

Lemma reads_weaken m m' p0 v p : reads m p0 v p → m' <= m → reads m' p0 v p.
Proof. intros (ts & e & code & ? & ? & ? & ?) Hm. exists ts, e, code. eauto using scalar_toks_weaken. Qed.

(** One more operator. *)
Lemma reads_binary q p0 lhs p t o rhs p1 v p2 :
  reads q p0 lhs p → strength o <= q → peek p = Ok t → tok_kind t = sign_of o →
  reads (strength o + 1) (advance p) rhs p1 → emit (Binary o lhs rhs) (tok_offset t) p1 = Ok (v, p2) →
  reads (strength o) p0 v p2.
Proof.
  intros (ts & e & c1 & E1 & T1 & G1 & ->) Hq Hp Ht (ts2 & e2 & c2 & E2 & T2 & G2 & ->) [-> E3]%scalar_emit_inv.
  pose proof (scalar_emits_advance _ _ Hp) as Ea. rewrite Ht in Ea.
  pose proof (scalar_emits_trans _ _ _ _ _ _ _ E1 (scalar_emits_trans _ _ _ _ _ _ _ Ea (scalar_emits_trans _ _ _ _ _ _ _ E2 E3))) as E.
  destruct E1 as [_ Hc1 Hl1], E2 as [_ Hc2 Hl2]. cbn in Hc2, Hl2, G2. rewrite Hc1, Hl1, length_app in *.
  pose proof (scalar_code_nonempty _ _ _ _ G1). pose proof (scalar_code_nonempty _ _ _ _ G2).
  eexists _, (EArith o e e2), _. split; [exact E|]. split.
  - rewrite app_nil_r. cbn. apply Y_bin; [done|by eapply scalar_toks_weaken|done].
  - cbn. rewrite G1. cbn. rewrite G2. cbn. rewrite Hc2, Hc1, !length_app. cbn. split; [done|lia].
Qed.

Definition expression_reads (fuel : nat) : Prop := ∀ m d p v p',
  m <= 3 → expression fuel m d p = Ok (v, p') → reads m p v p' ∧ stops m p'.

Lemma operators_read fuel :
  (∀ f, (f < fuel)%nat → expression_reads f) → ∀ q m d p0 lhs p v p',
  reads q p0 lhs p → stops (q + 1) p → m <= q →
  operators fuel m d lhs p = Ok (v, p') → reads m p0 v p' ∧ stops m p'.
Proof.
  induction fuel as [|fuel IHf]; intros IH q m d p0 lhs p v p' Hr Hst Hm H; [done|]. cbn [operators] in H.
  bind_inv H. rename a into t. destruct (operator_of (tok_kind t)) as [[o s]|] eqn:Ho.
  2:{ simplify_eq. split; [by eapply reads_weaken|]. intros o rest Hk. rewrite (scalar_peek_kinds _ _ E) in Hk.
      injection Hk as Hk _. by rewrite Hk, operator_of_sign in Ho. }
  apply operator_of_inv in Ho as [Ht ->].
  assert (strength o <= q) as Hq. { enough (strength o < q + 1) by lia. eapply Hst. rewrite <- Ht. by apply scalar_peek_kinds. }
  case_in H.
  { simplify_eq. split; [by eapply reads_weaken|]. intros o' rest Hk. rewrite (scalar_peek_kinds _ _ E), Ht in Hk.
    injection Hk as Hk _. destruct o, o'; done. }
  bind_inv H.
  destruct (IH _ (Nat.lt_succ_diag_r _) (strength o + 1) _ _ _ _ ltac:(destruct o; cbn; lia) E0) as [Hr2 Hst2].
  eapply (IHf ltac:(intros; apply IH; lia) (strength o)); [by eapply reads_binary| |lia|exact H].
  apply scalar_emit_inv in E1 as [_ [Hk _ _]]. intros o' rest Hk'. eapply Hst2. by rewrite Hk.
Qed.

Lemma reads_one m p t e i v p' :
  peek p = Ok t → emit i (tok_offset t) (advance p) = Ok (v, p') → scalar_toks m [tok_kind t] e →
  scalar_code (locals p) e (length (instructions p)) = Some [i] → reads m p v p'.
Proof.
  intros Hp [-> E]%scalar_emit_inv HT HG. pose proof (scalar_emits_trans _ _ _ _ _ _ _ (scalar_emits_advance _ _ Hp) E) as E'.
  exists [tok_kind t], e, [i]. split; [done|]. split; [done|]. split; [done|]. cbn. lia.
Qed.

Lemma atom_reads fuel d p v p' m :
  (∀ f, (f < fuel)%nat → expression_reads f) → atom fuel d p = Ok (v, p') → reads m p v p'.
Proof.
  destruct fuel as [|fuel]; intros IH H; [done|]. cbn [atom] in H. unfold refuse in H. bind_inv H. rename a into t.
  destruct (tok_kind t) as [name|z| | | | | | | | | | | | | |] eqn:Ht; try done.
  - case_in H.
    + subst. eapply reads_one; [done|exact H| |]; rewrite ?Ht; [constructor|done].
    + destruct (bt_get name (locals p)) as [i|] eqn:Hl; [|done].
      eapply reads_one; [done|exact H| |]; rewrite ?Ht; [by apply Y_local|]. cbn. by rewrite Hl.
  - eapply reads_one; [done|exact H| |]; rewrite ?Ht; [constructor|done].
  - bind_inv H. simplify_eq.
    destruct (IH _ (Nat.lt_succ_diag_r _) 0 _ _ _ _ ltac:(lia) E0) as [(ts & e & code & E2 & T2 & G2 & ->) _].
    pose proof (scalar_emits_advance _ _ E) as Ea. rewrite Ht in Ea.
    pose proof (scalar_emits_trans _ _ _ _ _ _ _ Ea (scalar_emits_trans _ _ _ _ _ _ _ E2 (scalar_expect_inv _ _ _ _ E1))) as E3.
    eexists _, e, code. split; [rewrite app_nil_r in E3; exact E3|]. split; [by apply Y_paren|done].
Qed.

Lemma expression_reads_all fuel : expression_reads fuel.
Proof.
  induction fuel as [fuel IH] using lt_wf_ind. intros m d p v p' Hm H. destruct fuel as [|fuel]; [done|].
  cbn [expression] in H. case_in H; [by bind_inv H|]. bind_inv H.
  eapply (operators_read fuel ltac:(intros; apply IH; lia) 3); [|intros o rest _; destruct o; cbn; lia|exact Hm|exact H].
  eapply atom_reads; [|exact E]. intros; apply IH; lia.
Qed.

Lemma binding_reads p p' :
  binding p = Ok p' →
  ∃ name declared anns ts e code, scalar_kinds p = Word (lit "let") :: Word name :: anns ++ Equal :: ts ++ Semicolon :: scalar_kinds p'
    ∧ scalar_annotation declared anns ∧ scalar_toks 0 ts e ∧ instructions p' = instructions p ++ code
    ∧ scalar_code (locals p) e (length (instructions p)) = Some code ∧ bt_get name (locals p) = None
    ∧ locals p' = bt_insert name (length (instructions p) + length code - 1)%nat (locals p).
Proof.
  unfold binding, refuse. intros H. bind_inv H. destruct (tok_kind a0) as [name|z| | | | | | | | | | | | | |] eqn:Hn; try done.
  do 3 case_in H. bind_inv H. subst p'. apply expression_reads_all in E4 as [(ts & e & code & E4 & T & G & ->) _]; [|lia].
  assert (∃ declared anns, scalar_annotation declared anns ∧ scalar_emits (advance a) a2 anns []) as (declared & anns & Ta & Ea).
  { case_in E2; [|exists None, []; simplify_eq; split; [constructor|by split; [|rewrite app_nil_r|]]].
    apply scalar_expect_inv in E2. pose proof (scalar_emits_advance _ _ E1) as Ec. rewrite Heqb2 in Ec.
    exists (Some U64), [Colon; Word (lit "u64")]. split; [constructor|]. exact (scalar_emits_trans _ _ _ _ _ _ _ Ec E2). }
  apply scalar_expect_inv in E, E3, E5. pose proof (scalar_emits_advance _ _ E0) as En. rewrite Hn in En.
  pose proof (scalar_emits_trans _ _ _ _ _ _ _ E (scalar_emits_trans _ _ _ _ _ _ _ En (scalar_emits_trans _ _ _ _ _ _ _ Ea E3))) as [Hk Hc Hl].
  pose proof (scalar_emits_trans _ _ _ _ _ _ _ E4 E5) as [Hk2 Hc2 Hl2]. cbn in Hc. rewrite app_nil_r in Hc, Hc2. rewrite Hc, Hl in *.
  exists name, declared, anns, ts, e, code. split.
  { rewrite Hk, Hk2. cbn. by rewrite <- !app_assoc. }
  do 4 (split; [done|]). cbn. rewrite Hl2. split; [|done]. destruct E as [_ _ <-]. unfold bt_contains in Heqb0.
  by destruct (bt_get name (locals a)).
Qed.

(** A sequence of bindings, as the prefix of a body. *)
Lemma bindings_read fuel p p' :
  bindings fuel p = Ok p' →
  ∃ code (wrap : list Kind → list Kind) (nest : body → body),
    scalar_kinds p = wrap (scalar_kinds p') ∧ (∀ xs ys, wrap (xs ++ ys) = wrap xs ++ ys)
    ∧ (∀ ts b, scalar_body ts b → scalar_body (wrap ts) (nest b))
    ∧ instructions p' = instructions p ++ code
    ∧ (∀ b c2, scalar_gen (locals p') b (length (instructions p')) = Some c2 →
         scalar_gen (locals p) (nest b) (length (instructions p)) = Some (code ++ c2)).
Proof.
  revert p. induction fuel as [|fuel IH]; intros p H; [done|]. cbn [bindings] in H. bind_inv H. case_in H.
  - bind_inv H. apply binding_reads in E0 as (name & declared & anns & ts & e & c1 & Hk & Ta & Te & Hc & G & _ & Hl).
    apply IH in H as (c2 & wrap & nest & Hk2 & Hw & HT & Hc2 & HG).
    exists (c1 ++ c2), (λ xs, Word (lit "let") :: Word name :: anns ++ Equal :: ts ++ Semicolon :: wrap xs),
      (λ b, BCons (SLet false name declared e) (nest b)).
    split; [by rewrite Hk, Hk2|]. split; [intros; rewrite Hw; cbn; by rewrite <- !app_assoc; cbn; rewrite <- !app_assoc|].
    split; [intros; by apply Y_let; [..|apply HT]|]. split; [by rewrite Hc2, Hc, app_assoc|].
    intros b c3 Hg. cbn. rewrite G. cbn. apply HG in Hg. rewrite Hl, Hc, length_app in Hg. rewrite Hg. cbn.
    by rewrite app_assoc.
  - simplify_eq. exists [], (λ xs, xs), (λ b, b). rewrite app_nil_r. done.
Qed.

Lemma kind_not_end o rest k n : kind o rest = Ok (k, n) → k ≠ End_.
Proof.
  unfold kind, symbol, refuse. intros H. destruct rest as [|b rest]; [done|].
  repeat first [case_in H | progress bind_inv H | progress simplify_eq]; try congruence.
  destruct rest; [|case_in H]; by simplify_eq.
Qed.

Lemma parse_reads source code v :
  parse source = Ok (code, v) →
  ∃ ts b, lex source = Ok ts ∧ scalar_program (map tok_kind ts) b ∧ scalar_gen [] b 0 = Some code ∧ v = (length code - 1)%nat.
Proof.
  unfold parse, word. intros H. bind_inv H. simplify_eq. rename a into ts.
  apply expression_reads_all in E12 as [(te & e & c2 & E12 & T & G & ->) _]; [|lia].
  apply bindings_read in E10 as (c1 & wrap & nest & Hk1 & Hw & HT & Hc1 & HG).
  apply scalar_expect_inv in E0, E1, E2, E3, E4, E5, E6, E7, E8, E9, E11, E13, E14, E15.
  pose proof (scalar_emits_trans _ _ _ _ _ _ _ E0 (scalar_emits_trans _ _ _ _ _ _ _ E1 (scalar_emits_trans _ _ _ _ _ _ _ E2
    (scalar_emits_trans _ _ _ _ _ _ _ E3 (scalar_emits_trans _ _ _ _ _ _ _ E4 (scalar_emits_trans _ _ _ _ _ _ _ E5
    (scalar_emits_trans _ _ _ _ _ _ _ E6 (scalar_emits_trans _ _ _ _ _ _ _ E7 (scalar_emits_trans _ _ _ _ _ _ _ E8 E9))))))))) as [Hk0 Hc0 Hl0].
  pose proof (scalar_emits_trans _ _ _ _ _ _ _ E11 (scalar_emits_trans _ _ _ _ _ _ _ E12 (scalar_emits_trans _ _ _ _ _ _ _ E13
    (scalar_emits_trans _ _ _ _ _ _ _ E14 E15)))) as [Hk2 Hc2 _].
  clear E0 E1 E2 E3 E4 E5 E6 E7 E8 E9 E12 E13 E14 E15. destruct E11 as [_ Hc3 Hl3].
  cbn in Hc0, Hl0, Hk0, Hk2, Hc2. rewrite app_nil_r in Hc2, Hc3. rewrite Hc3, Hl3 in G.
  rewrite Hc0 in HG, Hc1. rewrite Hl0 in HG. cbn in HG, Hc1. specialize (HG (BCons (SReturn e) BNil) c2 G).
  exists ts, (nest (BCons (SReturn e) BNil)). split; [done|]. split.
  - exists (wrap (Word (lit "return") :: te ++ [Semicolon])). split; [|by apply HT, Y_return].
    assert (scalar_kinds a10 = (Word (lit "return") :: te ++ [Semicolon]) ++ RightBrace :: End_ :: scalar_kinds a14) as Hs
      by (rewrite Hk2; cbn; by rewrite <- !app_assoc).
    rewrite Hk1, Hs, Hw in Hk0.
    change (map tok_kind ts = scalar_signature ++ wrap (Word (lit "return") :: te ++ [Semicolon])
      ++ RightBrace :: End_ :: scalar_kinds a14) in Hk0.
    rewrite (end_last End_ ts (scalar_signature ++ wrap (Word (lit "return") :: te ++ [Semicolon]) ++ [RightBrace]) (scalar_kinds a14)) in Hk0.
    + exact Hk0.
    + eapply lex_source_shape; [|exact E]. intros ? ? ? ?. apply kind_not_end.
    + rewrite Hk0, <- !app_assoc. done.
  - pose proof (scalar_code_nonempty _ _ _ _ G). rewrite Hc2, Hc1, Hc3, Hc1. rewrite length_app. split; [done|lia].
Qed.

(** ** Meaning *)

Section meaning.
Context (input : Z) (c : ContractContext) (fuel : Z).

Definition scalar_env (locals : BTreeMap bytes nat) (d : BTreeMap bytes value) (values : list Z) : Prop :=
  ∀ name, match bt_get name locals, bt_get name d with
          | Some i, Some v => ∃ z, v = VNumber z ∧ values !! i = Some z
          | None, None => True
          | _, _ => False
          end.

(** Only the charge changed. *)
Definition only_used (w w' : world) : Prop :=
  w' = mkWorld (w_state w) (w_writes w) (w_events w) (w_used w').

Lemma scalar_env_app locals d values vs : scalar_env locals d values → scalar_env locals d (values ++ vs).
Proof.
  intros H name. specialize (H name). destruct (bt_get name locals), (bt_get name d); try done.
  destruct H as (z & -> & Hz). exists z. split; [done|]. by apply lookup_app_l_Some.
Qed.

Lemma scalar_env_insert locals d values name i z :
  scalar_env locals d values → values !! i = Some z →
  scalar_env (bt_insert name i locals) (bt_insert name (VNumber z) d) values.
Proof.
  intros H Hz name'. specialize (H name'). destruct (decide (name' = name)) as [->|Hne].
  - rewrite !bt_get_insert_eq. eauto.
  - by rewrite !bt_get_insert_ne.
Qed.

(** The code of an expression, in front of [rest]. *)
Definition runs (code rest : list Instruction) (values : list Z) (w : world)
    (r : result (value * world) SourceFailure) : Prop :=
  match r with
  | Ok (v, w') => ∃ z vs, v = VNumber z ∧ length vs = length code ∧ only_used w w'
      ∧ (values ++ vs) !! (length values + length code - 1)%nat = Some z
      ∧ evaluate_loop (code ++ rest) input fuel values (w_used w) = evaluate_loop rest input fuel (values ++ vs) (w_used w')
  | Err (Fault x) => evaluate_loop (code ++ rest) input fuel values (w_used w) = Err (Failed x)
  | Err Wrong => False
  end.

(** One charged instruction. *)
Lemma runs_one i rest values w (r : result Z SourceFailure) :
  instruction_value i input values = (match r with Ok z => Ok z | Err (Fault x) => Err (Failed x) | Err Wrong => Err RunPanic end) →
  r ≠ Err Wrong →
  runs [i] rest values w (let? w := charge fuel w in let? z := r in Ok (VNumber z, w)).
Proof.
  intros Hi Hr. unfold charge. destruct (fuel <=? w_used w) eqn:Hf; cbn.
  - by rewrite Hf.
  - destruct r as [z|[x|]]; cbn; rewrite ?Hf, ?Hi; try done.
    exists z, [z]. do 3 (split; [done|]). rewrite Nat.add_sub. by rewrite list_lookup_middle.
Qed.

(** Two pieces of code in a row. *)
Lemma runs_seq c1 c2 rest values w r1 (k : value → world → result (value * world) SourceFailure) :
  (1 <= length c2)%nat → runs c1 (c2 ++ rest) values w r1 →
  (∀ z vs w', length vs = length c1 → (values ++ vs) !! (length values + length c1 - 1)%nat = Some z →
     runs c2 rest (values ++ vs) w' (k (VNumber z) w')) →
  runs (c1 ++ c2) rest values w (let? (v, w) := r1 in k v w).
Proof.
  intros Hn H1 H2. unfold runs in *. rewrite <- app_assoc. destruct r1 as [[v w1]|[x|]]; [| exact H1 | done].
  destruct H1 as (z & vs & -> & Hl & Hu & Hz & ->). specialize (H2 z vs w1 Hl Hz). rewrite length_app, Hl in H2.
  destruct (k (VNumber z) w1) as [[v w2]|[x|]]; [|exact H2|done].
  destruct H2 as (z2 & vs2 & -> & Hl2 & Hu2 & Hz2 & ->). exists z2, (vs ++ vs2). rewrite app_assoc, !length_app, Hl, Hl2.
  split; [done|]. split; [done|]. split; [unfold only_used in *; by rewrite Hu2, Hu|]. split; [|done].
  by rewrite Nat.add_assoc.
Qed.

Lemma code_runs e locals n code d values w rest :
  scalar_code locals e n = Some code → length values = n → scalar_env locals d values →
  runs code rest values w (eval input c fuel [d] e w).
Proof.
  revert n code values w rest. induction e as [z|b| |name|e IH|[[o| | | | | |]| |] l IHl r IHr| | | | | |];
    intros n code values w rest Hg Hn Henv; cbn in Hg; simplify_option_eq.
  - by apply (runs_one (Constant z) rest values w (Ok z)).
  - by apply (runs_one Input rest values w (Ok input)).
  - specialize (Henv name). rewrite Heqo in Henv. cbn [eval find_name].
    destruct (bt_get name d) as [v|]; [|done]. destruct Henv as (z & -> & Hz).
    apply (runs_one (Copy H) rest values w (Ok z)); [|done]. cbn. unfold value_at. by rewrite Hz.
  - pose proof (scalar_code_nonempty _ _ _ _ Heqo0). pose proof (scalar_code_nonempty _ _ _ _ Heqo1). cbn [eval].
    eapply runs_seq; [rewrite length_app; cbn; lia|by eapply IHl|]. intros zl vl w1 Hll Hzl. cbn beta iota.
    eapply runs_seq; [cbn; lia|eapply IHr; [done|by rewrite length_app, Hll|by apply scalar_env_app]|].
    intros zr vr w2 Hlr Hzr. rewrite length_app, Hll in Hzr. cbn beta iota.
    match goal with |- runs [?i] _ ?vs _ _ =>
      pose proof (runs_one i rest vs w2 (map_err Fault (operator_apply o zl zr))) as H3 end.
    cbn [instruction_value] in H3. unfold value_at in H3. rewrite (lookup_app_l_Some _ _ _ _ Hzl), Hzr in H3. cbn in H3 |- *.
    by destruct (operator_apply o zl zr); apply H3.
Qed.

(** A whole body: its value is that of the last instruction. *)
Lemma gen_runs b locals n code d values w :
  scalar_gen locals b n = Some code → length values = n → scalar_env locals d values →
  match exec_body input c fuel [d] b w with
  | Ok (Returned z, w') => ∃ vs, only_used w w'
      ∧ (values ++ vs) !! (length values + length code - 1)%nat = Some z
      ∧ evaluate_loop code input fuel values (w_used w) = Ok (values ++ vs, w_used w')
  | Err (Fault x) => evaluate_loop code input fuel values (w_used w) = Err (Failed x)
  | _ => False
  end.
Proof.
  revert locals n code d values w. induction b as [|s b IH]; intros locals n code d values w Hg Hn Henv; [done|].
  cbn [exec_body]. destruct s as [[] name declared e| |e| | | | | | |]; try done.
  - cbn in Hg. simplify_option_eq. cbn [exec].
    pose proof (code_runs _ _ _ _ d values w H0 Heqo eq_refl Henv) as Hr. unfold runs in Hr.
    destruct (eval input c fuel [d] e w) as [[v w1]|[x|]]; [|exact Hr|done].
    destruct Hr as (z & vs & -> & Hl & Hu & Hz & Hr). cbn.
    specialize (IH _ _ _ (bt_insert name (VNumber z) d) (values ++ vs) w1 Heqo0 ltac:(by rewrite length_app, Hl)
      (scalar_env_insert _ _ _ _ _ _ (scalar_env_app _ _ _ _ Henv) Hz)).
    rewrite Hr. destruct (exec_body input c fuel [_] b w1) as [[[z'|] w']|[x|]]; try done.
    destruct IH as (vs' & Hu' & Hz' & Hr'). exists (vs ++ vs'). rewrite app_assoc, length_app.
    split; [unfold only_used in *; by rewrite Hu', Hu|]. split; [|done].
    rewrite length_app, Hl in Hz'. by rewrite Nat.add_assoc.
  - cbn in Hg. destruct b; [|done]. cbn [exec]. unfold eval_number.
    pose proof (code_runs _ _ _ _ d values w [] Hg Hn Henv) as Hr. unfold runs in Hr. rewrite app_nil_r in Hr.
    destruct (eval input c fuel [d] e w) as [[v w1]|[x|]]; [|exact Hr|done].
    destruct Hr as (z & vs & -> & Hl & Hu & Hz & Hr). cbn in *. by exists vs.
Qed.

End meaning.

Lemma scalar_gen_keys locals b n code : scalar_gen locals b n = Some code → body_keys b = [].
Proof.
  assert (∀ e locals n code, scalar_code locals e n = Some code → expr_keys e = []) as He.
  { induction e as [z|x| |name|e IH|[[o| | | | | |]| |] l IHl r IHr| | | | | |]; intros ? ? ? H; cbn in H; simplify_option_eq; try done.
    cbn. by erewrite IHl, IHr by done. }
  revert locals n code. induction b as [|s b IH]; intros locals n code H; [done|].
  destruct s as [[] name declared e| |e| | | | | | |]; cbn in H |- *; try done.
  - simplify_option_eq. erewrite He by done. by eapply IH.
  - destruct b; [|done]. by erewrite He.
Qed.

(** ** Totality *)

Definition scalar_sane (p : Parser) : Prop :=
  ∃ ts0 e, tokens p = ts0 ++ [e] ∧ tok_kind e = End_ ∧ (position p <= length ts0)%nat.

Record scalar_goes (n : nat) (p p' : Parser) : Prop := {
  scalar_goes_sane : scalar_sane p';
  scalar_goes_tokens : tokens p' = tokens p;
  scalar_goes_pos : (position p + n <= position p')%nat
}.

Definition scalar_left_of (p : Parser) : nat := length (tokens p) - position p.

Lemma scalar_goes_trans n m p p1 p2 : scalar_goes n p p1 → scalar_goes m p1 p2 → scalar_goes (n + m) p p2.
Proof. intros [] []. split; [done|congruence|lia]. Qed.

Lemma scalar_goes_less n m p p' : scalar_goes n p p' → (m <= n)%nat → scalar_goes m p p'.
Proof. intros [] ?. split; [done|done|lia]. Qed.

Lemma scalar_goes_left n p p' : scalar_goes n p p' → (scalar_left_of p' + n <= scalar_left_of p)%nat ∧ (1 <= scalar_left_of p')%nat.
Proof. intros [(ts0 & e & Ht & _ & Hp) Htok Hpos]. unfold scalar_left_of. rewrite <- Htok, Ht, length_app. cbn. lia. Qed.

Lemma scalar_goes_refl p : scalar_sane p → scalar_goes 0 p p.
Proof. intros. split; [done|done|lia]. Qed.

Lemma scalar_peek_sane p : scalar_sane p → ∃ t, peek p = Ok t ∧ (tok_kind t ≠ End_ → scalar_goes 1 p (advance p)).
Proof.
  intros (ts0 & e & Ht & He & Hp). unfold peek.
  destruct (lookup_lt_is_Some_2 (tokens p) (position p)) as [t Hl]; [rewrite Ht, length_app; cbn; lia|].
  exists t. rewrite Hl. split; [done|]. intros Hn. split; cbn; [|done|lia].
  exists ts0, e. split; [done|]. split; [done|]. cbn.
  destruct (decide (position p = length ts0)) as [Heq|]; [|lia].
  rewrite Ht, Heq, lookup_app_r, Nat.sub_diag in Hl by done. cbn in Hl. by simplify_eq.
Qed.

Lemma scalar_expect_orderly k message p : scalar_sane p → k ≠ End_ → orderly (expect k message p) (scalar_goes 1 p).
Proof.
  intros (t & Ht & Hg)%scalar_peek_sane Hk. unfold expect. rewrite Ht. cbn. case_test; [|done]. apply Hg. by subst.
Qed.

Lemma scalar_emit_orderly i o p0 p n : scalar_goes n p0 p → orderly (emit i o p) (λ '(_, p'), scalar_goes n p0 p').
Proof. intros [Hs Ht Hp]. unfold emit. case_test; [done|]. by split. Qed.

(** Sanity, progress and fuel from the steps taken so far. *)
Ltac solve_sane := first [ assumption | match goal with H : scalar_goes _ _ ?p |- scalar_sane ?p => exact (scalar_goes_sane _ _ _ H) end ].
Ltac chain :=
  match goal with
  | |- scalar_goes _ ?p ?p => apply scalar_goes_refl; solve_sane
  | H : scalar_goes _ ?x ?q |- scalar_goes _ _ ?q => first [ exact H | eapply (scalar_goes_trans _ _ _ x); [chain | exact H] ]
  end.
Ltac solve_goes := eapply scalar_goes_less; [chain | lia].
Ltac solve_fuel :=
  repeat match goal with H : scalar_goes _ _ _ |- _ => apply scalar_goes_left in H as [? ?] end; unfold scalar_left_of in *; cbn in *; lia.
Ltac walk :=
  repeat lazymatch goal with
  | |- orderly (match expect _ _ _ with Ok _ => _ | Err _ => _ end) _ =>
      eapply orderly_bind; [apply scalar_expect_orderly; [solve_sane | done] | intros ? _ ?]
  | |- orderly (match word _ _ with Ok _ => _ | Err _ => _ end) _ =>
      eapply orderly_bind; [apply scalar_expect_orderly; [solve_sane | done] | intros ? _ ?]
  | |- orderly (Ok _) _ => cbn; try solve_goes
  | |- orderly (refuse _ _) _ => exact I
  end.

Definition scalar_expression_total (fuel : nat) : Prop :=
  (∀ minimum depth p, scalar_sane p → (4 * scalar_left_of p <= fuel)%nat →
     orderly (expression fuel minimum depth p) (λ '(_, p'), scalar_goes 1 p p'))
  ∧ (∀ minimum depth lhs p, scalar_sane p → (4 * scalar_left_of p + 2 <= fuel)%nat →
     orderly (operators fuel minimum depth lhs p) (λ '(_, p'), scalar_goes 0 p p'))
  ∧ (∀ depth p, scalar_sane p → (4 * scalar_left_of p <= S fuel)%nat → orderly (atom fuel depth p) (λ '(_, p'), scalar_goes 1 p p')).

Lemma scalar_left_pos p : scalar_sane p → (1 <= scalar_left_of p)%nat.
Proof. intros (ts0 & e & Ht & _ & Hp). unfold scalar_left_of. rewrite Ht, length_app. cbn. lia. Qed.

Lemma scalar_expression_total_all fuel : scalar_expression_total fuel.
Proof.
  induction fuel as [|fuel (IHe & IHo & IHa)].
  { repeat split; intros; pose proof (scalar_left_pos p ltac:(done)); lia. }
  split; [|split].
  - intros minimum depth p Hs Hf. cbn [expression]. destruct (scalar_peek_sane _ Hs) as (t & Ht & _). rewrite Ht. case_test; [done|].
    eapply orderly_bind; [apply IHa; [done|lia]|]. intros [v q] _ ?.
    eapply orderly_mono; [apply IHo; [solve_sane|solve_fuel]|]. intros [? ?] ?. solve_goes.
  - intros minimum depth lhs p Hs Hf. cbn [operators]. destruct (scalar_peek_sane _ Hs) as (t & Ht & Hg). rewrite Ht.
    destruct (operator_of (tok_kind t)) as [[o s]|] eqn:Ho; [|by apply scalar_goes_refl].
    specialize (Hg ltac:(by intros He; rewrite He in Ho)). case_test; [by apply scalar_goes_refl|].
    eapply orderly_bind; [apply IHe; [solve_sane|solve_fuel]|]. intros [rhs q] _ ?.
    eapply orderly_bind; [apply (scalar_emit_orderly _ _ p _ 2); solve_goes|]. intros [v q2] _ ?.
    eapply orderly_mono; [apply IHo; [solve_sane|solve_fuel]|]. intros [? ?] ?. solve_goes.
  - intros depth p Hs Hf. cbn [atom]. destruct (scalar_peek_sane _ Hs) as (t & Ht & Hg). rewrite Ht.
    pose proof (scalar_left_pos _ Hs). destruct (tok_kind t); try done; specialize (Hg ltac:(done)).
    + case_test; [by apply scalar_emit_orderly|]. destruct (bt_get text (locals p)); [by apply scalar_emit_orderly|done].
    + by apply scalar_emit_orderly.
    + eapply orderly_bind; [apply IHe; [solve_sane|solve_fuel]|]. intros [v q] _ ?. walk.
Qed.

Lemma scalar_full_expression_orderly p : scalar_sane p → orderly (expression (parse_fuel p) 0 0 p) (λ '(_, p'), scalar_goes 1 p p').
Proof. intros Hs. apply (scalar_expression_total_all (parse_fuel p)); [done|]. unfold parse_fuel, scalar_left_of. lia. Qed.

Lemma binding_orderly p : scalar_sane p → orderly (binding p) (scalar_goes 1 p).
Proof.
  intros Hs. unfold binding. walk. destruct (scalar_peek_sane a ltac:(solve_sane)) as (t & Ht & Hg). rewrite Ht.
  destruct (tok_kind t); try done. specialize (Hg ltac:(done)). do 3 (case_match; [done|]).
  destruct (scalar_peek_sane (advance a) ltac:(solve_sane)) as (t2 & Ht2 & Hg2). rewrite Ht2.
  eapply (orderly_bind _ _ (scalar_goes 0 (advance a))).
  { case_test; [|by apply scalar_goes_refl; solve_sane]. specialize (Hg2 ltac:(congruence)).
    eapply orderly_mono; [apply scalar_expect_orderly; [solve_sane|done]|]. intros. solve_goes. }
  intros q _ ?. walk. eapply orderly_bind; [apply scalar_full_expression_orderly; solve_sane|]. intros [v q1] _ ?. walk.
  assert (scalar_goes 1 p a1) as [? ? ?] by solve_goes. by split.
Qed.

Lemma bindings_orderly fuel p : scalar_sane p → (scalar_left_of p <= fuel)%nat → orderly (bindings fuel p) (scalar_goes 0 p).
Proof.
  revert p. induction fuel as [|fuel IH]; intros p Hs Hf; [pose proof (scalar_left_pos _ Hs); lia|].
  cbn [bindings]. destruct (scalar_peek_sane _ Hs) as (t & Ht & _). rewrite Ht. case_test; [|by apply scalar_goes_refl].
  eapply orderly_bind; [by apply binding_orderly|]. intros q _ ?.
  eapply orderly_mono; [apply IH; [solve_sane|solve_fuel]|]. intros. solve_goes.
Qed.

Lemma kind_orderly o b rest : orderly (kind o (b :: rest)) (λ x, (1 <= x.2)%nat).
Proof.
  unfold kind. destruct (word_start b) eqn:Hw.
  { eapply orderly_bind; [by apply lex_word_orderly|]. by intros [? ?]. }
  destruct (is_ascii_digit b) eqn:Hd.
  { eapply orderly_bind; [by apply lex_number_orderly|]. by intros [? ?]. }
  unfold symbol. repeat case_match; cbn; try done; lia.
Qed.

Lemma scalar_parse_orderly source : orderly (parse source) (λ _, True).
Proof.
  unfold parse. eapply orderly_bind; [apply lex_source_orderly, kind_orderly|]. intros ts Hts _.
  apply (lex_source_shape kind) in Hts as (ts0 & e & -> & He & _); [|by intros ? ? ? ?; apply kind_not_end].
  assert (scalar_sane (mkParser (ts0 ++ [e]) 0 [] [])) as Hs by (exists ts0, e; split; [done|]; split; [done|cbn; lia]).
  walk. eapply orderly_bind; [apply bindings_orderly; [solve_sane|unfold parse_fuel, scalar_left_of; lia]|]. intros q _ ?. walk.
  eapply orderly_bind; [apply scalar_full_expression_orderly; solve_sane|]. intros [v q1] _ ?. walk.
  unfold expect. match goal with H : scalar_goes _ _ ?q |- context [peek ?q] => destruct (scalar_peek_sane q (scalar_goes_sane _ _ _ H)) as (t & -> & _) end.
  by case_test.
Qed.
