(* ===== verification/TroctoProgram.v ===== *)
(** * TroctoProgram: checked programs and source packages
    ([Program] and [compile] of [src/crates/trocto-compiler/src/lib.rs], [package.rs])

    Compilation tries version one and then version two; evaluation dispatches on the
    version.  The LLVM text of a program is not part of the model. *)

From S2P Require Import Prelude Ordered Codec Types Trocto TroctoScalar TroctoStateful TroctoSource TroctoCompile TroctoCorrect TroctoRun TroctoTotal TroctoScalarCorrect.

#[local] Arguments cmp : simpl never.

Section program.
Context `{!Blake2s}.

Record Program := mkProgram {
  pr_instructions : list Instruction;
  pr_result : nat;
  source_hash : bytes;
  pr_stateful : option CheckedProgram
}.

Definition SOURCE_V1 : bytes := lit "astrolune.trocto.source.v1.meter1".
Definition SOURCE_V2 : bytes := lit "astrolune.trocto.source.v2.meter2".

(** Any refusal of version one falls through to version two. *)
Definition compile (source : bytes) : result Program CompileFailure :=
  match TroctoScalar.parse source with
  | Ok (instructions, value) => Ok (mkProgram instructions value (domain_hash SOURCE_V1 source) None)
  | Err (Refused _) =>
      let? program := TroctoStateful.parse source in
      Ok (mkProgram [] 0 (domain_hash SOURCE_V2 source) (Some program))
  | Err e => Err e
  end.

Definition language_version (p : Program) : Z :=
  match pr_stateful p with Some _ => STATEFUL_LANGUAGE_VERSION | None => LANGUAGE_VERSION end.

Definition metering_version (p : Program) : Z :=
  match pr_stateful p with Some _ => STATEFUL_METERING_VERSION | None => METERING_VERSION end.

Definition state_keys (p : Program) : list bytes :=
  match pr_stateful p with Some program => cp_keys program | None => [] end.

Definition requires_context (p : Program) : bool :=
  match pr_stateful p with Some program => cp_context program | None => false end.

Definition instruction_count (p : Program) : nat :=
  match pr_stateful p with
  | Some program => length (cp_instructions program)
  | None => length (pr_instructions p)
  end.

(** [ContractContext::default()]. *)
Definition default_context : ContractContext := mkContractContext 0 [0; 0; 0; 0] [] [] [].

Definition program_evaluate (p : Program) (input fuel : Z) : result Execution RunFailure :=
  match pr_stateful p with
  | Some program =>
      if cp_context program then Err (Failed InvalidContext)
      else
        let? e := evaluate program input default_context fuel in
        Ok (mkExecution (ce_value e) (ce_fuel_used e))
  | None => evaluate_scalar (pr_instructions p) (pr_result p) input fuel
  end.

Definition evaluate_contract (p : Program) (input : Z) (c : ContractContext) (fuel : Z)
    : result ContractExecution RunFailure :=
  match pr_stateful p with
  | Some program => evaluate program input c fuel
  | None =>
      let? _ := map_err Failed (validate [] c) in
      let? output := program_evaluate p input fuel in
      Ok (mkContractExecution (ex_value output) (ex_fuel_used output) (cc_state c)
            (replicate (length (cc_keys c)) false) [])
  end.

(** [interrupt] gives the answers of the callback in the order it is asked. *)
Definition evaluate_contract_with_interrupt (p : Program) (input : Z) (c : ContractContext) (fuel : Z)
    (interrupt : nat → bool) : result (option ContractExecution) RunFailure :=
  match pr_stateful p with
  | Some program => evaluate_with_interrupt program input c fuel interrupt
  | None =>
      let? _ := map_err Failed (validate [] c) in
      if interrupt 0%nat then Ok None
      else
        let? e := evaluate_contract p input c fuel in
        if interrupt 1%nat then Ok None else Ok (Some e)
  end.

(** ** Source packages *)

Definition MAGIC : bytes := lit "ALTROC02".
Definition HEADER : Z := 20.
Definition MAX_PACKAGE_BYTES : Z := MAX_SOURCE_BYTES + HEADER.

Record SourcePackage := mkSourcePackage {
  sp_source : bytes;
  sp_program : Program
}.

Definition package_new (source : bytes) : result SourcePackage CompileFailure :=
  let? program := compile source in
  Ok (mkSourcePackage source program).

Definition invalid_package {A : Type} : result A CompileFailure := refuse 0 "invalid Trocto source package".

(** The four bytes at an offset, checked to be there before. *)
Definition package_word (bs : bytes) (offset : Z) : result Z CompileFailure :=
  let? w := ok_or (slice bs offset (offset + 4)) CompilePanic in
  Ok (from_le w).

Definition package_decode (bs : bytes) : result SourcePackage CompileFailure :=
  if (len bs <? HEADER) || (MAX_PACKAGE_BYTES <? len bs) || negb (bool_decide (take 8 bs = MAGIC))
  then invalid_package
  else
    let? language := package_word bs 8 in
    let? metering := package_word bs 12 in
    let? length := package_word bs 16 in
    if (MAX_SOURCE_BYTES <? length) || negb (len bs - HEADER =? length) then invalid_package
    else
      let source := drop 20 bs in
      if negb (valid_utf8 source) then invalid_package
      else
        let? package := package_new source in
        if negb (language_version (sp_program package) =? language)
           || negb (metering_version (sp_program package) =? metering)
        then refuse 8 "Trocto source package profile mismatch"
        else Ok package.

(** [None]: the length does not fit its field. *)
Definition package_to_bytes (p : SourcePackage) : option bytes :=
  length ← try_from 32 (len (sp_source p));
  Some (MAGIC ++ le 4 (language_version (sp_program p)) ++ le 4 (metering_version (sp_program p))
        ++ le 4 length ++ sp_source p).

(** ** Totality *)

Lemma compile_orderly source : orderly (compile source) (λ _, True).
Proof.
  unfold compile. pose proof (scalar_parse_orderly source) as H1.
  destruct (TroctoScalar.parse source) as [[code v]|[]]; [done| |done..].
  eapply orderly_bind; [apply parse_orderly|done].
Qed.

(** C28: Compilation is total: whatever the source bytes, the compiler accepts or refuses
    with an offset and a message.  Neither front end indexes past its end marker, out of
    its instruction list or out of its key table, and their recursion is bounded by the
    number of tokens. *)
Theorem compile_total source :
  (∃ program, compile source = Ok program) ∨ (∃ e, compile source = Err (Refused e)).
Proof. pose proof (compile_orderly source) as Hc. destruct (compile source) as [p|[e| |]]; [eauto|eauto|done..]. Qed.

(** ** Meaning *)

(** The source spells the syntax tree, in the version that accepted it. *)
Definition spells (p : Program) (source : bytes) (b : body) : Prop :=
  match pr_stateful p with
  | None => ∃ ts, TroctoScalar.lex source = Ok ts ∧ scalar_program (map tok_kind ts) b
  | Some _ => ∃ ts, TroctoStateful.lex source = Ok ts ∧ program_toks (map tok_kind ts) b
  end.

Definition reported (r : result ContractExecution SourceFailure) : result ContractExecution RunFailure :=
  match r with Ok e => Ok e | Err (Fault x) => Err (Failed x) | Err Wrong => Err RunPanic end.

Lemma scalar_runs code b input c fuel :
  scalar_gen [] b 0 = Some code →
  run_source input c fuel b ≠ Err Wrong
  ∧ evaluate_contract (mkProgram code (length code - 1) (domain_hash SOURCE_V1 []) None) input c fuel
    = reported (run_source input c fuel b).
Proof.
  intros Hg. unfold run_source, evaluate_contract. cbn [pr_stateful].
  assert (static_keys b = []) as -> by (unfold static_keys; by rewrite (scalar_gen_keys _ _ _ _ Hg)).
  destruct (validate [] c) as [[]|e]; [|done]. cbn [map_err]. set (w := mkWorld _ _ _ _).
  pose proof (gen_runs input c fuel b [] 0 code [] [] w Hg eq_refl ltac:(done)) as Hr.
  unfold program_evaluate, evaluate_scalar. cbn [pr_stateful pr_instructions pr_result].
  match type of Hr with match ?x with _ => _ end =>
    change (exec_body input c fuel [[]] b w) with x; destruct x as [[[z|env] w']|[x0|]] end; try done.
  - destruct Hr as (vs & Hu & Hz & Hr). split; [done|]. cbn in Hr, Hz. rewrite Hr. unfold value_at. cbn. rewrite Hz. cbn. by rewrite Hu.
  - split; [done|]. cbn in Hr. by rewrite Hr.
Qed.

Lemma source_numbers ts b source :
  TroctoStateful.lex source = Ok ts → program_toks (map tok_kind ts) b → Forall u64 (body_numbers b).
Proof.
  intros Hl%lex_numbers (header & inner & Hts & _ & Hb). rewrite Hts, !Forall_app in Hl. destruct Hl as (_ & Hl & _).
  by eapply toks_numbers.
Qed.

Lemma stateful_runs source program input c fuel :
  TroctoStateful.parse source = Ok program → call_typed input c →
  ∃ ts b, TroctoStateful.lex source = Ok ts ∧ program_toks (map tok_kind ts) b ∧ generates program b
    ∧ run_source input c fuel b ≠ Err Wrong ∧ evaluate program input c fuel = reported (run_source input c fuel b).
Proof.
  intros (ts & b & Hl & Ht & Hg)%parse_result Hc. exists ts, b. do 3 (split; [done|]).
  pose proof (compiled_runs _ _ input c fuel Hg (source_numbers _ _ _ Hl Ht) Hc) as Hr.
  destruct (run_source input c fuel b) as [e|[x|]]; done.
Qed.
End program.

(** ** Compiled contracts *)

(** C25: Compiler correctness.  An accepted source spells a syntax tree of the version that
    accepted it, and for every input, context and fuel the compiled contract evaluates
    to exactly what the definitional interpreter computes from that tree: the returned
    number, the fuel charged, the state, the written slots, the events, or the same error
    at the same point. *)
Theorem contracts_mean_their_source `{!Blake2s} source program :
  compile source = Ok program →
  ∃ b, spells program source b
    ∧ ∀ input c fuel, call_typed input c →
        run_source input c fuel b ≠ Err Wrong
        ∧ evaluate_contract program input c fuel = reported (run_source input c fuel b).
Proof.
  unfold compile. intros Hc. destruct (TroctoScalar.parse source) as [[code v]|[e| |]] eqn:Hp; [|bind_inv Hc|done..]; simplify_eq.
  - apply parse_reads in Hp as (ts & b & Hl & Ht & Hg & ->). exists b. split; [by exists ts|].
    intros input c fuel _. by apply scalar_runs.
  - apply parse_result in E as (ts & b & Hl & Ht & Hg). exists b. split; [by exists ts|]. intros input c fuel Hct.
    pose proof (compiled_runs _ _ input c fuel Hg (source_numbers _ _ _ Hl Ht) Hct) as Hr. unfold evaluate_contract. cbn.
    by destruct (run_source input c fuel b) as [x|[x|]].
Qed.

(** C26: Type soundness.  A source that the front end of version two accepts spells a
    well-typed program, which returns on every path; running it never confuses numbers
    with booleans, never reads an undefined variable or register, never indexes out of
    range and never outlives its fuel bound: it returns a number or fails with an error
    of the language. *)
Theorem accepted_programs_are_sound source program input c fuel :
  TroctoStateful.parse source = Ok program → call_typed input c →
  (∃ ts b, TroctoStateful.lex source = Ok ts ∧ program_toks (map tok_kind ts) b ∧ well_typed b
     ∧ run_source input c fuel b ≠ Err Wrong)
  ∧ ((∃ e, evaluate program input c fuel = Ok e) ∨ (∃ x, evaluate program input c fuel = Err (Failed x))).
Proof.
  intros Hp Hc. destruct (stateful_runs _ _ input c fuel Hp Hc) as (ts & b & Hl & Ht & Hg & Hw & He).
  split; [exists ts, b; by eauto using generates_typed|]. rewrite He.
  destruct (run_source input c fuel b) as [e|[x|]]; cbn; [eauto|eauto|done].
Qed.

(** The run of [n] dispatches with result [r] decides what every callback gets: one
    question every 1024 dispatches, and one more before a return. *)
Definition answer (n : nat) (r : result ContractExecution RunFailure) (interrupt : nat → bool)
    : result (option ContractExecution) RunFailure :=
  let questions := Z.to_nat ((Z.of_nat n + 1023) / 1024) in
  match r with
  | Ok e => if existsb interrupt (seq 0 (S questions)) then Ok None else Ok (Some e)
  | Err x => if existsb interrupt (seq 0 questions) then Ok None else Err x
  end.

Lemma evaluation_refused program input c fuel x interrupt :
  validate (cp_keys program) c = Err x →
  evaluate program input c fuel = Err (Failed x) ∧ evaluate_with_interrupt program input c fuel interrupt = Err (Failed x).
Proof. intros Hv. unfold evaluate, evaluate_with_interrupt. by rewrite Hv. Qed.

Lemma evaluation_halts source program input c fuel :
  TroctoStateful.parse source = Ok program → call_typed input c → validate (cp_keys program) c = Ok tt →
  ∃ n r, halts program input c fuel n (initial program c) (map_err Failed r) ∧ (n <= gas_bound program fuel)%nat
    ∧ evaluate program input c fuel = map_err Failed r
    ∧ ∀ interrupt, evaluate_with_interrupt program input c fuel interrupt = answer n (map_err Failed r) interrupt.
Proof.
  intros Hp Hc Hv. destruct (stateful_runs _ _ input c fuel Hp Hc) as (ts & b & _ & _ & _ & Hw & He).
  destruct (run_total program input c fuel) as (n & r & Hh & Hn).
  assert (map_err Failed (validate (cp_keys program) c) = Ok tt) as Hv' by by rewrite Hv.
  pose proof (evaluate_halts _ _ _ _ _ _ Hv' Hh) as Hr.
  assert (∃ q : result ContractExecution Trocto.ExecutionError, r = map_err Failed q) as [q ->].
  { rewrite <- Hr, He. destruct (run_source input c fuel b) as [e|[x|]]; [by exists (Ok e)|by exists (Err x)|done]. }
  exists n, q. do 3 (split; [done|]). intros interrupt. unfold evaluate_with_interrupt, answer.
  rewrite Hv', (loop_halts _ _ _ _ _ _ _ _ _ _ _ Hh ltac:(by destruct q) Hn).
  assert (asked n 0 = Z.to_nat ((Z.of_nat n + 1023) / 1024)) as ->.
  { pose proof (asked_count n 0 ltac:(lia)) as Ha. change ((0 + 1023) mod 1024) with 1023 in Ha. lia. }
  destruct q as [e|x]; [|done]. cbn [map_err]. rewrite seq_S, existsb_app. cbn. rewrite orb_false_r.
  by destruct (existsb interrupt _).
Qed.

(** A compiled contract returns or fails with an error of the language, and a callback
    either interrupts it or changes nothing. *)
Lemma compiled_answers `{!Blake2s} source program input c fuel :
  compile source = Ok program → call_typed input c →
  ∃ r : result ContractExecution Trocto.ExecutionError,
    evaluate_contract program input c fuel = map_err Failed r
    ∧ ∀ interrupt, evaluate_contract_with_interrupt program input c fuel interrupt = Ok None
        ∨ evaluate_contract_with_interrupt program input c fuel interrupt = map_err Failed (let? e := r in Ok (Some e)).
Proof.
  unfold compile. intros Hc Ht. destruct (TroctoScalar.parse source) as [[code v]|[e| |]] eqn:Hp; [|bind_inv Hc|done..]; simplify_eq.
  - apply parse_reads in Hp as (ts & b & _ & _ & Hg & ->). destruct (scalar_runs _ _ input c fuel Hg) as [Hw Hr].
    change (evaluate_contract _ input c fuel) with (evaluate_contract (mkProgram code (length code - 1) (domain_hash SOURCE_V1 source) None) input c fuel) in Hr.
    destruct (run_source input c fuel b) as [e1|[x1|]]; cbn [reported] in Hr; [exists (Ok e1)|exists (Err x1)|done]; (split; [done|]);
      intros interrupt; unfold evaluate_contract_with_interrupt; rewrite Hr; unfold evaluate_contract in Hr; cbn in Hr |- *;
      destruct (validate [] c) as [[]|y]; cbn in Hr |- *; try done; destruct (interrupt 0%nat), (interrupt 1%nat); eauto.
    all: by right; simplify_eq.
  - unfold evaluate_contract, evaluate_contract_with_interrupt. cbn. destruct (validate (cp_keys a) c) as [[]|x] eqn:Hv.
    + destruct (evaluation_halts _ _ input c fuel E Ht Hv) as (n & r & _ & _ & He & Hi). exists r. split; [done|].
      intros interrupt. rewrite (Hi interrupt). unfold answer. destruct r; cbn [map_err]; destruct (existsb _ _); auto.
    + exists (Err x). split; [by apply (evaluation_refused _ _ _ _ _ (λ _, false))|].
      intros interrupt. right. by apply evaluation_refused.
Qed.

(** C27: The evaluator halts and interruption is local.  In a valid context a compiled
    program makes a number of dispatches within the bound, the last of which returns or
    fails with an error of the language: that is the result of [evaluate], and
    running out of the bound never is.  With a callback the result is the same one unless
    a question was answered with yes; one question is asked every 1024 of those dispatches,
    and one more before a result is returned.  In an invalid context nothing is dispatched
    and nothing is asked. *)
Theorem interruption_is_local source program input c fuel :
  TroctoStateful.parse source = Ok program → call_typed input c →
  match validate (cp_keys program) c with
  | Ok _ =>
      ∃ n r, halts program input c fuel n (initial program c) (map_err Failed r) ∧ (n <= gas_bound program fuel)%nat
        ∧ evaluate program input c fuel = map_err Failed r
        ∧ ∀ interrupt, evaluate_with_interrupt program input c fuel interrupt = answer n (map_err Failed r) interrupt
  | Err x =>
      evaluate program input c fuel = Err (Failed x)
      ∧ ∀ interrupt, evaluate_with_interrupt program input c fuel interrupt = Err (Failed x)
  end.
Proof.
  intros Hp Hc. destruct (validate (cp_keys program) c) as [[]|x] eqn:Hv; [by eapply evaluation_halts|].
  split; [by apply (evaluation_refused _ _ _ _ _ (λ _, false))|]. intros interrupt. by apply evaluation_refused.
Qed.

(** ** Packages *)

Section packages.
Context `{!Blake2s}.

Lemma version_fits p : fits 32 (language_version p) ∧ fits 32 (metering_version p).
Proof. unfold language_version, metering_version. by destruct (pr_stateful p). Qed.

Lemma compile_length source program : compile source = Ok program → len source <= MAX_SOURCE_BYTES.
Proof.
  unfold compile. intros Hc. destruct (TroctoScalar.parse source) as [[code v]|[e| |]] eqn:Hp; [|bind_inv Hc|done..].
  - unfold TroctoScalar.parse, TroctoScalar.lex, lex_source in Hp. by case_in Hp.
  - unfold TroctoStateful.parse, TroctoStateful.lex, lex_source in E. by case_in E.
Qed.

Lemma package_word_iff bs o v :
  0 <= o → package_word bs o = Ok v ↔ ∃ pre post, bs = pre ++ le 4 v ++ post ∧ len pre = o ∧ fits 32 v.
Proof.
  intros Ho. unfold package_word. split.
  - intros Hw. bind_inv Hw. subst. apply ok_or_ok, slice_some in E as (pre & post & -> & Hpre & Hl & _); [|done].
    exists pre, post. assert (length a = 4%nat) as H4 by (unfold len in *; lia).
    rewrite <- H4, le_from_le. split; [done|]. split; [done|]. pose proof (from_le_fits a) as Hf. unfold len in Hf.
    by rewrite H4 in Hf.
  - intros (pre & post & -> & Hpre & Hv). rewrite (proj2 (slice_some _ o (o + 4) (le 4 v) Ho)).
    + cbn. by rewrite from_le_le.
    + exists pre, post. split; [done|]. split; [done|]. unfold len. rewrite length_le. lia.
Qed.

(** Two splits of one string at the same place. *)
Lemma split_same (xs ys xs' ys' : bytes) : xs ++ ys = xs' ++ ys' → len xs = len xs' → xs = xs' ∧ ys = ys'.
Proof. intros He Hl. apply app_inj_1; [unfold len in Hl; lia|done]. Qed.

Ltac header_lia := autorewrite with len in *; rewrite ?len_le in *; change (len MAGIC) with 8 in *; lia.

(** The header in front of the source. *)
Lemma package_shape (bs : bytes) a b l :
  take 8 bs = MAGIC → package_word bs 8 = Ok a → package_word bs 12 = Ok b → package_word bs 16 = Ok l →
  bs = MAGIC ++ le 4 a ++ le 4 b ++ le 4 l ++ drop 20 bs.
Proof.
  intros Hm (p1 & q1 & H1 & L1 & _)%package_word_iff (p2 & q2 & H2 & L2 & _)%package_word_iff
    (p3 & q3 & H3 & L3 & _)%package_word_iff; [|lia..].
  assert (p1 = MAGIC) as ->.
  { rewrite <- Hm, H1. rewrite take_app_length'; [done|]. unfold len in L1. lia. }
  rewrite H1 in H2, H3. rewrite app_assoc in H2, H3. apply split_same in H2 as [<- ->]; [|header_lia].
  rewrite (app_assoc _ (le 4 b)) in H3. apply split_same in H3 as [<- ->]; [|header_lia]. rewrite H1 at 1. do 4 f_equal.
  rewrite H1, !app_assoc. symmetry. rewrite drop_app_length'; [done|]. rewrite !length_app, !length_le. done.
Qed.

Lemma package_words (a b l : Z) (source : bytes) :
  fits 32 a → fits 32 b → fits 32 l → let bs := MAGIC ++ le 4 a ++ le 4 b ++ le 4 l ++ source in
  take 8 bs = MAGIC ∧ package_word bs 8 = Ok a ∧ package_word bs 12 = Ok b ∧ package_word bs 16 = Ok l
  ∧ drop 20 bs = source ∧ len bs = 20 + len source.
Proof.
  intros Ha Hb Hl bs. split; [done|]. split; [|split; [|split; [|split]]].
  - apply package_word_iff; [lia|]. by exists MAGIC, (le 4 b ++ le 4 l ++ source).
  - apply package_word_iff; [lia|]. exists (MAGIC ++ le 4 a), (le 4 l ++ source). unfold bs. rewrite <- app_assoc. split; [done|].
    split; [header_lia|done].
  - apply package_word_iff; [lia|]. exists (MAGIC ++ le 4 a ++ le 4 b), source. unfold bs. rewrite <- !app_assoc. split; [done|].
    split; [header_lia|done].
  - unfold bs. rewrite !app_assoc. rewrite drop_app_length'; [done|]. by rewrite !length_app, !length_le.
  - unfold bs. header_lia.
Qed.
End packages.

(** C29: Source packages are canonical: bytes decode to a package exactly when they are the
    encoding of a package whose source is UTF-8 and compiles to the program it carries,
    so that decoding inverts encoding, no other bytes decode to the same package, and the
    declared language and metering versions are those the compiler selects. *)
Theorem packages_are_canonical `{!Blake2s} bs package :
  package_decode bs = Ok package ↔
  valid_utf8 (sp_source package) = true ∧ package_new (sp_source package) = Ok package
  ∧ package_to_bytes package = Some bs.
Proof.
  pose proof (version_fits (sp_program package)) as [Hv1 Hv2]. unfold package_to_bytes. split.
  - unfold package_decode, invalid_package, refuse. intros Hd. case_in Hd. bind_inv Hd. case_in Hd. case_in Hd. bind_inv Hd.
    case_in Hd. simplify_eq. pose proof (package_shape _ _ _ _ H1 E E0 E1) as Hbs.
    assert (sp_source package = drop 20 bs) as -> by (unfold package_new in E2; bind_inv E2; by subst).
    do 2 (split; [done|]). replace (len bs - HEADER) with (len (drop 20 bs)) in * by (unfold len, HEADER in *; rewrite length_drop; lia).
    rewrite (proj2 (try_from_some 32 _ (len (drop 20 bs)))); [by cbn; rewrite <- Hbs|].
    unfold MAX_SOURCE_BYTES in *. split; [lia|done].
  - intros (Hu & Hn & Hb). destruct (try_from 32 _) as [l|] eqn:Hl; [|done]. cbn in Hb. simplify_eq.
    apply try_from_some in Hl as [Hl ->]. pose proof (len_nonneg (sp_source package)) as Hpos.
    destruct (package_words _ _ _ (sp_source package) Hv1 Hv2 (conj Hpos Hl)) as (Hm & H8 & H12 & H16 & Hd & Hlen).
    assert (len (sp_source package) <= MAX_SOURCE_BYTES) as Hmax.
    { unfold package_new in Hn. bind_inv Hn. by eapply compile_length. }
    unfold package_decode. rewrite Hm, H8, H12, H16, Hd, Hlen. unfold MAX_PACKAGE_BYTES, HEADER in *.
    rewrite (proj2 (Z.ltb_ge (20 + _) 20)), (proj2 (Z.ltb_ge (MAX_SOURCE_BYTES + 20) _)), bool_decide_true by (lia || done). cbn [orb negb].
    rewrite (proj2 (Z.ltb_ge MAX_SOURCE_BYTES _)) by lia. replace (20 + _ - 20) with (len (sp_source package)) by lia.
    rewrite Z.eqb_refl, Hu, Hn. cbn [orb negb]. by rewrite !Z.eqb_refl.
Qed.

(** ** A sample contract *)

#[local] Existing Instance checksum_blake2s.

Definition quoted (s : string) : bytes := byte_of 34 :: lit s ++ [byte_of 34].

(** Counts down with an event per step and adds its input to a total. *)
Definition counter_source : bytes :=
  lit "fn call(input: u64) -> u64 { let mut left = input; while left > 0 && left < 9 {"
  ++ lit " left = left - 1; emit(left, height()); } state_set(" ++ quoted "total" ++ lit ", state_get("
  ++ quoted "total" ++ lit ") + input); if left == 0 { return state_get(" ++ quoted "total"
  ++ lit "); } return 0; }".

Definition counter_context : ContractContext :=
  mkContractContext 7 [1; 2; 3; 4] [lit "total"] [Some 40] [true].

Definition counter_program : CheckedProgram :=
  mkChecked
    [Input 0; Store 0 0 false; Load 1 0; Constant 2 0; BinaryStep 3 Greater 1 2; Move 4 3; Branch 3 7 11;
     Load 5 0; Constant 6 9; BinaryStep 7 Less 5 6; Move 4 7; Branch 4 12 20; Load 8 0; Constant 9 1;
     BinaryStep 10 (Arithmetic Subtract) 8 9; Store 0 10 true; Load 11 0; Height 12; Emit 11 12; Jump 2;
     Get 13 0; Input 14; BinaryStep 15 (Arithmetic Add) 13 14; SetKey 0 15; Load 16 0; Constant 17 0;
     BinaryStep 18 Equal 16 17; Branch 18 28 30; Get 19 0; Return 19; Constant 20 0; Return 20]
    21 1 [lit "total"] true.

Definition counter_result : ContractExecution := mkContractExecution 42 47 [Some 42] [true] [(1, 7); (0, 7)].

Lemma counter_typed : call_typed 2 counter_context.
Proof. by repeat constructor. Qed.

Lemma contracts_mean_their_source_witness :
  let program := mkProgram [] 0 (domain_hash SOURCE_V2 counter_source) (Some counter_program) in
  compile counter_source = Ok program
  ∧ ∃ b, spells program counter_source b
      ∧ reported (run_source 2 counter_context 100 b) = Ok counter_result.
Proof.
  intros program. assert (compile counter_source = Ok program) as Hc by (vm_compute; reflexivity).
  split; [exact Hc|]. destruct (contracts_mean_their_source counter_source program Hc) as (b & Hs & Hr).
  exists b. split; [exact Hs|]. destruct (Hr 2 counter_context 100 counter_typed) as [_ <-]. vm_compute. reflexivity.
Defined.

Lemma accepted_programs_are_sound_witness :
  TroctoStateful.parse counter_source = Ok counter_program
  ∧ ∃ e, evaluate counter_program 2 counter_context 100 = Ok e.
Proof.
  assert (TroctoStateful.parse counter_source = Ok counter_program) as Hp by (vm_compute; reflexivity).
  split; [exact Hp|].
  destruct (accepted_programs_are_sound counter_source counter_program 2 counter_context 100 Hp counter_typed)
    as [_ [He|[x Hx]]]; [exact He|].
  vm_compute in Hx. discriminate Hx.
Defined.

Lemma interruption_is_local_witness :
  ∃ n, halts counter_program 2 counter_context 100 n (initial counter_program counter_context) (Ok counter_result)
    ∧ (n <= gas_bound counter_program 100)%nat
    ∧ ∀ interrupt, evaluate_with_interrupt counter_program 2 counter_context 100 interrupt = answer n (Ok counter_result) interrupt.
Proof.
  assert (TroctoStateful.parse counter_source = Ok counter_program) as Hp by (vm_compute; reflexivity).
  assert (validate (cp_keys counter_program) counter_context = Ok tt) as Hv by (vm_compute; reflexivity).
  pose proof (interruption_is_local counter_source counter_program 2 counter_context 100 Hp counter_typed) as Hi.
  rewrite Hv in Hi. destruct Hi as (n & r & Hh & Hn & He & Hi).
  assert (evaluate counter_program 2 counter_context 100 = Ok counter_result) as He' by (vm_compute; reflexivity).
  rewrite He' in He. rewrite <- He in Hh, Hi. exists n. exact (conj Hh (conj Hn Hi)).
Defined.
