(* ===== verification/TroctoEffects.v ===== *)
(** * TroctoEffects: what running a contract can touch
    ([src/crates/trocto-compiler/src/{lib,stateful}.rs])

    The state, the events and the fuel of a run stay within what the call declares, and slots
    it does not grant have no influence on the run.  The invariant is carried through the
    definitional interpreter of a source, which compiled contracts follow; independence
    of the other slots relates two runs of the evaluator step by step. *)

From S2P Require Import Prelude Ordered Codec Types Trocto TroctoScalar TroctoStateful TroctoSource TroctoCompile TroctoCorrect TroctoRun TroctoScalarCorrect TroctoProgram.

From Stdlib Require Import Sorting.Sorted.

#[local] Arguments cmp : simpl never.

(** ** Runs *)

(** Slots keep their number; only slots with access are written, the others keep their
    value; events and fuel stay within their bounds. *)
Record confined (c : ContractContext) (fuel used : Z) (state : list (option Z)) (writes : list bool)
    (events : list (Z * Z)) : Prop := {
  cf_used : 0 <= used <= fuel;
  cf_state : length state = length (cc_keys c);
  cf_writes : length writes = length (cc_keys c);
  cf_events : len events <= MAX_EVENTS;
  cf_access : ∀ i, writes !! i = Some true → cc_access c !! i = Some true;
  cf_kept : ∀ i, writes !! i = Some false → state !! i = cc_state c !! i
}.

Definition confined_world (c : ContractContext) (fuel : Z) (w : world) : Prop :=
  confined c fuel (w_used w) (w_state w) (w_writes w) (w_events w).

(** The result satisfies [P], or the failure is not a complaint about the context. *)
Definition mild {A : Type} (P : A → Prop) (r : result A SourceFailure) : Prop :=
  match r with Ok a => P a | Err (Fault x) => x ≠ InvalidContext | Err Wrong => True end.

Lemma mild_bind {A B : Type} (P : A → Prop) (Q : B → Prop) (r : result A SourceFailure) (f : A → result B SourceFailure) :
  mild P r → (∀ a, P a → mild Q (f a)) → mild Q (let? a := r in f a).
Proof. destruct r as [a|[x|]]; cbn; auto. Qed.

Create HintDb mild discriminated.

Section effects.
Context (input : Z) (c : ContractContext) (fuel : Z).

Abbreviation within := (confined_world c fuel).

Lemma charge_mild w : within w → mild within (charge fuel w).
Proof.
  intros [Hu Hs Hw He Ha Hk]. unfold charge. destruct (Z.leb_spec fuel (w_used w)); cbn; [done|].
  split; cbn; try done. lia.
Qed.

Lemma as_number_mild v : mild (λ _, True) (as_number v).
Proof. by destruct v. Qed.
Lemma as_bool_mild v : mild (λ _, True) (as_bool v).
Proof. by destruct v. Qed.

Lemma ok_or_wrong_mild {A : Type} (o : option A) : mild (λ _, True) (ok_or o Wrong).
Proof. by destruct o. Qed.

Lemma bind_mild name v env : mild (λ _, True) (bind name v env).
Proof. by destruct env. Qed.

Lemma operator_mild o x y : mild (λ _, True) (map_err Fault (operator_apply o x y)).
Proof. unfold operator_apply, checked_add, checked_sub, checked_mul. by destruct o; repeat case_match; simplify_eq/=. Qed.

Lemma binary_mild b x y : mild (λ _, True) (apply_binary b x y).
Proof.
  unfold apply_binary, compare_numbers. destruct x, y; try done; destruct b; try done.
  eapply mild_bind; [apply operator_mild|done].
Qed.

Definition open_slot (i : nat) : Prop := cc_access c !! i = Some true.

Lemma static_slot_mild i : mild open_slot (map_err fault (static_slot i c)).
Proof.
  unfold static_slot, index, open_slot. destruct (cc_access c !! i) as [[]|] eqn:E; by cbn.
Qed.

Lemma checked_slot_mild k : mild open_slot (map_err fault (checked_slot k c)).
Proof.
  unfold checked_slot, index, open_slot. case_match; [done|].
  destruct (cc_access c !! Z.to_nat k) as [[]|] eqn:E; by cbn.
Qed.

Lemma key_slot_mild k : mild open_slot (key_slot c k).
Proof. unfold key_slot. eapply mild_bind; [apply ok_or_wrong_mild|]. intros [i ?] _. apply static_slot_mild. Qed.

Lemma read_slot_mild i w : mild (λ _, True) (read_slot i w).
Proof. unfold read_slot. by destruct (w_state w !! i). Qed.

Lemma key_word_mild k i : mild (λ _, True) (map_err fault (key_word c k i)).
Proof.
  unfold key_word. destruct (cc_keys c !! Z.to_nat k); [|done]. case_match; [done|]. by destruct (slice _ _ _).
Qed.

Lemma write_mild i v w : open_slot i → within w → within (write_world i v w).
Proof.
  intros Hi [Hu Hs Hw He Ha Hk]. split; cbn; rewrite ?length_insert; try done.
  - intros j [(-> & _ & _)|[_ Hj]]%list_lookup_insert_Some; auto.
  - intros j [(_ & ? & _)|[Hne Hj]]%list_lookup_insert_Some; [done|]. rewrite list_lookup_insert_ne by done. auto.
Qed.

#[local] Hint Resolve charge_mild as_number_mild as_bool_mild ok_or_wrong_mild bind_mild operator_mild binary_mild
  static_slot_mild checked_slot_mild key_slot_mild read_slot_mild key_word_mild write_mild : mild.

Abbreviation result_within := (mild (λ x, within x.2)).

#[local] Ltac mild_step :=
  match goal with
  | |- mild _ (Ok _) => cbn [mild snd]; solve [auto with mild]
  | |- mild _ _ => eapply mild_bind; [solve [eauto with mild]|let x := fresh "x" in let Hx := fresh "Hx" in intros x Hx]
  end.
#[local] Ltac mild_pair := match goal with x : (_ * world)%type |- _ => destruct x as [? ?]; cbn [snd] in * end.
#[local] Ltac mild_all := repeat first [progress mild_pair | mild_step].

Lemma eval_within e : ∀ env w, within w → result_within (eval input c fuel env e w).
Proof.
  induction e as [z|b| |name|e IH|k l IHl r IHr| |i| |e IH i|k|e IH]; intros env w Hw; cbn [eval]; try solve [mild_all].
  destruct k; [mild_all|..]; mild_all; (destruct (decided _ _); [by cbn|mild_all]).
Qed.

#[local] Hint Resolve eval_within : mild.

Lemma eval_number_within env e w : within w → result_within (eval_number input c fuel env e w).
Proof. intros Hw. unfold eval_number. mild_all. Qed.

Lemma eval_condition_within env e w : within w → result_within (eval_condition input c fuel env e w).
Proof. intros Hw. unfold eval_condition. mild_all. Qed.

#[local] Hint Resolve eval_number_within eval_condition_within : mild.

Lemma while_within condition inside :
  (∀ env w, within w → result_within (condition env w)) → (∀ env w, within w → result_within (inside env w)) →
  ∀ gas env w, within w → result_within (while_loop fuel condition inside gas env w).
Proof.
  intros Hc Hi. induction gas as [|gas IH]; intros env w Hw; cbn [while_loop]; [done|].
  mild_all. destruct b; [|done]. mild_all. destruct (leave o); [done|]. mild_all. by apply IH.
Qed.

Lemma if_within e yes no :
  (∀ env w, within w → result_within (exec_body input c fuel env yes w)) →
  (∀ env w, within w → result_within (exec_body input c fuel env no w)) →
  ∀ env w, within w → result_within (exec input c fuel env (SIf e yes no) w).
Proof.
  intros Hy Hn env w Hw. change (exec input c fuel env (SIf e yes no) w) with
    (let? (b, w) := eval_condition input c fuel env e w in
     if b then let? (o, w) := exec_body input c fuel ([] :: env) yes w in
               match leave o with Continues env => let? w := charge fuel w in Ok (Continues env, w) | o => Ok (o, w) end
     else let? (o, w) := exec_body input c fuel ([] :: env) no w in Ok (leave o, w)).
  mild_all. destruct b; mild_all. destruct (leave o); [done|mild_all].
Qed.

Lemma exec_within :
  (∀ s env w, within w → result_within (exec input c fuel env s w))
  ∧ (∀ b env w, within w → result_within (exec_body input c fuel env b w)).
Proof.
  apply syntax_ind; intros; try (by apply if_within); try solve [cbn [exec exec_body]; mild_all].
  - by apply while_within; auto with mild.
  - cbn [exec]. mild_all. destruct (Z.leb_spec MAX_EVENTS (len (w_events x))); [done|].
    destruct Hx1 as [Hu Hs Hv He Ha Hk]. split; cbn; try done. rewrite len_app. unfold len in *. cbn. lia.
  - rename rest into b.
    change (exec_body input c fuel env (BCons s b) w) with
      (let? (o, w) := exec input c fuel env s w in
       match o with Continues env => exec_body input c fuel env b w | o => Ok (o, w) end).
    mild_all. destruct o; [done|auto].
Qed.

Lemma run_source_confined b e :
  0 <= fuel → run_source input c fuel b = Ok e →
  confined c fuel (ce_fuel_used e) (ce_state e) (ce_writes e) (ce_events e).
Proof.
  intros Hf Hr. unfold run_source in Hr. bind_inv Hr. apply map_err_ok in E. destruct a.
  destruct (validate_facts _ _ E) as (_ & Hs & Ha & _).
  match goal with E : exec_body _ _ _ _ _ ?w = Ok _ |- _ =>
    pose proof (proj2 exec_within b [[]] w) as Hw; rewrite E in Hw end.
  destruct o; [|done]. simplify_eq. apply Hw. split; cbn; rewrite ?length_replicate; try done; try lia.
  - intros i Hi. apply lookup_replicate in Hi as [? _]. done.
Qed.

Lemma run_source_context b :
  validate (static_keys b) c = Ok tt → 0 <= fuel → run_source input c fuel b ≠ Err (Fault InvalidContext).
Proof.
  intros Hv Hf Hr. destruct (validate_facts _ _ Hv) as (_ & Hs & Ha & _). unfold run_source in Hr. rewrite Hv in Hr. cbn [map_err] in Hr.
  match type of Hr with context [exec_body _ _ _ _ _ ?w] => pose proof (proj2 exec_within b [[]] w) as Hw end.
  destruct (exec_body _ _ _ _ _ _) as [[[z|env] w]|x]; [done..|]. simplify_eq. cbn in Hw. apply Hw; [|done].
  split; cbn; rewrite ?length_replicate; try done; try lia. intros i Hi. by apply lookup_replicate in Hi as [? _].
Qed.
End effects.

(** ** Literal keys *)

Definition key_fits (k : bytes) : Prop := 1 <= len k <= MAX_STATE_KEY_BYTES.

Definition key_token (k : TokenKind) : Prop := match k with Key text => key_fits text | _ => True end.

Lemma key_loop_length position bs n : key_loop position bs = Ok n → (n <= length bs)%nat.
Proof.
  revert position n. induction bs as [|b bs IH]; intros position n Hl; cbn in Hl; [by simplify_eq|].
  case_in Hl; [simplify_eq; lia|]. case_in Hl. bind_inv Hl. subst. apply IH in E. cbn. lia.
Qed.

Lemma token_keys o rest k n : token o rest = Ok (k, n) → key_token k.
Proof.
  unfold token, lex_key, lex_symbol, refuse. intros Ht. destruct rest as [|b rest]; [done|].
  repeat first [case_in Ht | progress bind_inv Ht]; simplify_eq; try done.
  bool_props. pose proof (key_loop_length _ _ _ E). unfold key_token, key_fits, len. rewrite length_take. lia.
Qed.

Lemma lex_keys source ts : TroctoStateful.lex source = Ok ts → Forall key_token (map tok_kind ts).
Proof.
  unfold TroctoStateful.lex, lex_source. intros Hl. case_in Hl. bind_inv Hl. subst. rewrite map_app. apply Forall_app. split.
  - apply Forall_map. eapply (lex_loop_forall token key_token); [intros ? ? ? ?; apply token_keys|constructor|exact E].
  - by repeat constructor.
Qed.

Lemma expr_toks_keys m ts e : expr_toks m ts e → Forall key_token ts → Forall key_fits (expr_keys e).
Proof.
  induction 1; intros Hf; cbn; repeat (rewrite ?Forall_app, ?Forall_cons in Hf); cbn in Hf;
    try (by constructor); try (apply Forall_app; split); naive_solver.
Qed.

Lemma toks_keys :
  (∀ ts s, stmt_toks ts s → Forall key_token ts → Forall key_fits (stmt_keys s))
  ∧ (∀ ts b, body_toks ts b → Forall key_token ts → Forall key_fits (body_keys b))
  ∧ (∀ ts b, block_toks ts b → Forall key_token ts → Forall key_fits (body_keys b)).
Proof.
  apply toks_ind; intros;
    repeat match goal with
    | Hf : Forall key_token _ |- _ => progress repeat (rewrite ?Forall_app, ?Forall_cons in Hf); destruct_and? Hf
    | Hx : expr_toks _ _ _ |- _ => apply expr_toks_keys in Hx; [|done]
    end; cbn; rewrite ?Forall_app, ?Forall_cons; auto.
Qed.

(** ** Compiled contracts *)

Section compiled.
Context `{!Blake2s}.

(** A compiled contract follows a syntax tree with the same literal keys. *)
Lemma compiled_tree source program input c fuel :
  compile source = Ok program → call_typed input c →
  ∃ b, static_keys b = state_keys program ∧ spells program source b
    ∧ run_source input c fuel b ≠ Err Wrong
    ∧ evaluate_contract program input c fuel = reported (run_source input c fuel b).
Proof.
  unfold compile. intros Hc Hct. destruct (TroctoScalar.parse source) as [[code v]|[e| |]] eqn:Hp; [|bind_inv Hc|done..]; simplify_eq.
  - apply parse_reads in Hp as (ts & b & Hl & Ht & Hg & ->). exists b.
    split; [unfold static_keys; by rewrite (scalar_gen_keys _ _ _ _ Hg)|]. split; [by exists ts|]. by apply scalar_runs.
  - destruct (stateful_runs _ _ input c fuel E Hct) as (ts & b & Hl & Ht & Hg & Hw & He).
    exists b. split; [by destruct Hg|]. split; [by exists ts|done].
Qed.

Lemma compiled_context source program input c fuel :
  compile source = Ok program → call_typed input c → 0 <= fuel → validate (state_keys program) c = Ok tt →
  evaluate_contract program input c fuel ≠ Err (Failed InvalidContext).
Proof.
  intros Hc Ht Hf Hv. destruct (compiled_tree _ _ input c fuel Hc Ht) as (b & Hk & _ & _ & ->). rewrite <- Hk in Hv.
  pose proof (run_source_context input c fuel b Hv Hf) as Hr. destruct (run_source input c fuel b) as [|[x|]]; cbn; congruence.
Qed.

Lemma compiled_confined source program input c fuel e :
  compile source = Ok program → call_typed input c → 0 <= fuel → evaluate_contract program input c fuel = Ok e →
  confined c fuel (ce_fuel_used e) (ce_state e) (ce_writes e) (ce_events e).
Proof.
  intros Hc Ht Hf. destruct (compiled_tree _ _ input c fuel Hc Ht) as (b & _ & _ & _ & ->).
  destruct (run_source input c fuel b) as [e'|[x|]] eqn:Hr; cbn; [intros [= <-]|done..]. by eapply run_source_confined.
Qed.

(** The literal keys of a contract are in canonical order and within the limits. *)
Lemma state_keys_ok source program :
  compile source = Ok program → StronglySorted lt_of (state_keys program) ∧ Forall key_fits (state_keys program).
Proof.
  unfold compile. intros Hc. destruct (TroctoScalar.parse source) as [[code v]|[e| |]] eqn:Hp; [|bind_inv Hc|done..]; simplify_eq.
  { split; constructor. }
  apply parse_result in E as (ts & b & Hl & (header & inner & Hts & _ & Hb) & [Hk _]).
  unfold state_keys. cbn [pr_stateful]. rewrite Hk. unfold static_keys.
  destruct (bt_collect_elem (map (λ k, (k, tt)) (body_keys b)) [] bt_ok_nil) as [Hok Hin]. split; [exact Hok|].
  apply lex_keys in Hl. rewrite Hts, !Forall_app in Hl. destruct Hl as (_ & Hl & _).
  apply Forall_forall. intros k Hk'%Hin. rewrite map_map, map_id in Hk'.
  eapply Forall_forall; [by eapply toks_keys|set_solver].
Qed.
End compiled.

(** ** Contexts *)

Lemma sorted_ordered xs : StronglySorted lt_of xs → unordered xs = false.
Proof.
  induction 1 as [|x xs Hs IH Hall]; [done|]. destruct xs as [|y xs]; [done|]. cbn [unordered] in *. rewrite IH, orb_false_r.
  apply leb_false. by inversion Hall.
Qed.

Lemma sorted_filter {A : Type} (R : A → A → Prop) f xs : StronglySorted R xs → StronglySorted R (List.filter f xs).
Proof.
  induction 1 as [|x xs Hs IH Hall]; cbn; [constructor|]. destruct (f x); [|done]. constructor; [done|].
  rewrite List.Forall_forall in Hall |- *. intros y [Hy _]%filter_In. auto.
Qed.

Lemma collect_length (keys : list bytes) : NoDup keys → len (bt_collect (map (λ k, (k, tt)) keys)) = len keys.
Proof.
  intros Hn. destruct (bt_collect_perm (map (λ k, (k, tt)) keys)) as [_ Hp]; [by rewrite map_map, map_id|].
  unfold len. by rewrite (Permutation_length Hp), length_map.
Qed.

(** The static keys of a program, then the declared keys it does not name. *)
Definition joined (prefix keys : list bytes) : list bytes :=
  prefix ++ List.filter (λ k, negb (bool_decide (k ∈ prefix))) keys.

Lemma joined_valid height caller prefix keys state access :
  StronglySorted lt_of prefix → Forall key_fits prefix → StronglySorted lt_of keys → Forall key_fits keys →
  len (joined prefix keys) <= MAX_STATE_KEYS → length state = length (joined prefix keys) →
  length access = length (joined prefix keys) →
  validate prefix (mkContractContext height caller (joined prefix keys) state access) = Ok tt.
Proof.
  intros Hs1 Hf1 Hs2 Hf2 Hc Hs Ha. unfold validate, starts_with. cbn [cc_keys cc_state cc_access].
  assert (NoDup (joined prefix keys)) as Hn.
  { apply NoDup_app. split_and!; [by apply sorted_lt_nodup| |by apply sorted_lt_nodup, sorted_filter].
    intros k Hk [_ Hk']%list_elem_of_In%filter_In. by rewrite bool_decide_true in Hk'. }
  assert (Forall key_fits (joined prefix keys)) as Hf.
  { apply Forall_app. split; [done|]. apply Forall_forall. intros k [Hk _]%list_elem_of_In%filter_In.
    eapply Forall_forall; [exact Hf2|by apply list_elem_of_In]. }
  assert (∀ xs : list bytes, Forall key_fits xs → existsb (λ k, (len k =? 0) || (MAX_STATE_KEY_BYTES <? len k)) xs = false) as Hx.
  { induction 1 as [|k xs [? ?] _ IH]; cbn; [done|]. rewrite IH, orb_false_r. apply orb_false_iff. split; lia. }
  rewrite (Hx _ Hf), (collect_length _ Hn), Z.eqb_refl.
  assert (take (length prefix) (joined prefix keys) = prefix) as -> by apply take_app_length.
  assert (drop (length prefix) (joined prefix keys) = List.filter (λ k, negb (bool_decide (k ∈ prefix))) keys) as ->
    by apply drop_app_length.
  rewrite bool_decide_true, (sorted_ordered _ (sorted_filter _ _ _ Hs2)) by done.
  unfold len in *. rewrite Hs, Ha, Z.eqb_refl, (proj2 (Z.ltb_ge _ _) Hc). done.
Qed.

(** ** What a run can read *)

(** Two states that differ at most in slots without access. *)
Definition same_slots (c : ContractContext) (state state' : list (option Z)) : Prop :=
  length state' = length state ∧ ∀ i, cc_access c !! i = Some true → state' !! i = state !! i.

Definition with_slots (c : ContractContext) (state : list (option Z)) : ContractContext :=
  mkContractContext (cc_height c) (cc_caller c) (cc_keys c) state (cc_access c).

(** The same error, or the same execution up to slots without access. *)
Definition same_outcome (c : ContractContext) (r r' : result ContractExecution RunFailure) : Prop :=
  match r with
  | Ok e => ∃ state, r' = Ok (mkContractExecution (ce_value e) (ce_fuel_used e) state (ce_writes e) (ce_events e))
      ∧ same_slots c (ce_state e) state
  | Err x => r' = Err x
  end.

Section reads.
Context (program : CheckedProgram) (input : Z) (c : ContractContext) (fuel : Z) (state : list (option Z)).

Definition machine_slots (m : Machine) (slots : list (option Z)) : Machine :=
  mkMachine (m_pc m) (m_registers m) (m_locals m) slots (m_writes m) (m_events m) (m_used m).

Definition same_step (r r' : result (Machine + ContractExecution) RunFailure) : Prop :=
  match r with
  | Ok (inl m) => ∃ slots, r' = Ok (inl (machine_slots m slots)) ∧ same_slots c (m_state m) slots
  | Ok (inr e) => ∃ slots, r' = Ok (inr (mkContractExecution (ce_value e) (ce_fuel_used e) slots (ce_writes e) (ce_events e)))
      ∧ same_slots c (ce_state e) slots
  | Err x => r' = Err x
  end.

Lemma same_bind {A : Type} (P : A → Prop) (r : result A RunFailure) f g :
  (∀ a, r = Ok a → P a) → (∀ a, P a → same_step (f a) (g a)) → same_step (let? a := r in f a) (let? a := r in g a).
Proof. destruct r as [a|x]; cbn; auto. Qed.

Lemma same_any {A : Type} (r : result A RunFailure) f g :
  (∀ a, same_step (f a) (g a)) → same_step (let? a := r in f a) (let? a := r in g a).
Proof. intros H. apply (same_bind (λ _, True)); auto. Qed.

Lemma same_register d v m slots :
  same_slots c (m_state m) slots → same_step (write_register d v m) (write_register d v (machine_slots m slots)).
Proof. intros Hs. unfold write_register. cbn. apply same_any. intros regs. by exists slots. Qed.

Lemma same_write k v m slots :
  same_slots c (m_state m) slots → same_step (write_slot k v m) (write_slot k v (machine_slots m slots)).
Proof.
  intros [Hl Hs]. unfold write_slot, update. cbn. rewrite Hl. case_bool_decide; [|done]. apply same_any. intros writes.
  eexists. split; [done|]. split; cbn; [by rewrite !length_insert|]. intros i Hi.
  destruct (decide (i = k)) as [->|Hne]; [by rewrite !list_lookup_insert_eq by lia|]. rewrite !list_lookup_insert_ne by done. auto.
Qed.

Lemma same_read k m slots f g :
  same_slots c (m_state m) slots → open_slot c k → (∀ v, same_step (f v) (g v)) →
  same_step (let? v := index (m_state m) k in f v) (let? v := index slots k in g v).
Proof. intros [_ Hs] Hk Hf. unfold index. rewrite (Hs k Hk). by apply same_any. Qed.

Lemma granted_slot {A : Type} (P : A → Prop) (r : result A RunFailure) a : mild P (map_err fault r) → r = Ok a → P a.
Proof. by intros Hm ->. Qed.

Lemma same_execute s m slots :
  same_slots c (m_state m) slots →
  same_step (execute input c s m) (execute input (with_slots c state) s (machine_slots m slots)).
Proof.
  intros Hs.
  assert (∀ f g k, (∀ k, open_slot c k → same_step (f k) (g k)) →
    same_step (let? k := static_slot k c in f k) (let? k := static_slot k (with_slots c state) in g k)) as Hstatic.
  { intros f g k. change (static_slot k (with_slots c state)) with (static_slot k c). apply (same_bind (open_slot c)).
    intros i. apply granted_slot, static_slot_mild. }
  assert (∀ f g k, (∀ k, open_slot c k → same_step (f k) (g k)) →
    same_step (let? k := checked_slot k c in f k) (let? k := checked_slot k (with_slots c state) in g k)) as Hchecked.
  { intros f g k. change (checked_slot k (with_slots c state)) with (checked_slot k c). apply (same_bind (open_slot c)).
    intros i. apply granted_slot, checked_slot_mild. }
  destruct s; cbn [execute with_slots cc_height cc_caller cc_keys m_registers m_locals m_events m_writes m_pc m_used m_state machine_slots];
    try change (key_word (with_slots c state)) with (key_word c);
    repeat first [apply Hstatic; intros ? ? | apply Hchecked; intros ? ? | apply same_read; [done|done|intros ?]
                 | apply same_any; intros ? | by apply same_register | by apply same_write].
  all: try (by exists slots).
  case_match; [done|]. do 2 (apply same_any; intros ?). by exists slots.
Qed.

Lemma same_dispatch m slots :
  same_slots c (m_state m) slots →
  same_step (dispatch program input c fuel m) (dispatch program input (with_slots c state) fuel (machine_slots m slots)).
Proof.
  intros Hs. unfold dispatch. cbn [m_pc m_used machine_slots]. destruct (cp_instructions program !! m_pc m) as [s|]; [|done].
  destruct (charged s); [|by apply same_execute]. case_match; [done|]. by apply (same_execute s (spend m)).
Qed.

Lemma same_loop gas : ∀ polls d m slots,
  same_slots c (m_state m) slots →
  same_outcome c (let? r := evaluate_loop program input c fuel (λ _, false) gas polls d m in ok_or r RunPanic)
    (let? r := evaluate_loop program input (with_slots c state) fuel (λ _, false) gas polls d (machine_slots m slots) in ok_or r RunPanic).
Proof.
  induction gas as [|gas IH]; intros polls d m slots Hs; cbn [evaluate_loop]; [done|]. rewrite !andb_false_r.
  pose proof (same_dispatch m slots Hs) as Hd. destruct (dispatch program input c fuel m) as [[m1|e]|x]; cbn [same_step] in Hd.
  - destruct Hd as (slots1 & -> & Hs1). by apply IH.
  - destruct Hd as (slots1 & -> & Hs1). by exists slots1.
  - by rewrite Hd.
Qed.

Lemma same_evaluate :
  same_slots c (cc_state c) state → same_outcome c (evaluate program input c fuel) (evaluate program input (with_slots c state) fuel).
Proof.
  intros Hs. unfold evaluate, evaluate_with_interrupt.
  assert (validate (cp_keys program) (with_slots c state) = validate (cp_keys program) c) as ->.
  { unfold validate, len. cbn. by rewrite (proj1 Hs). }
  destruct (map_err Failed _) as [[]|x]; [|done]. by apply (same_loop _ 0 0 (initial program c)).
Qed.
End reads.

Lemma same_contract program input c fuel state :
  same_slots c (cc_state c) state →
  same_outcome c (evaluate_contract program input c fuel) (evaluate_contract program input (with_slots c state) fuel).
Proof.
  intros Hs. unfold evaluate_contract. destruct (pr_stateful program) as [p|]; [by apply same_evaluate|].
  assert (validate [] (with_slots c state) = validate [] c) as ->.
  { unfold validate, len. cbn. by rewrite (proj1 Hs). }
  destruct (map_err Failed _) as [[]|x]; [|done]. destruct (program_evaluate program input fuel) as [output|x]; [|done]. by exists state.
Qed.

Lemma contract_refused program input c fuel :
  validate (state_keys program) c ≠ Ok tt → evaluate_contract program input c fuel = Err (Failed InvalidContext).
Proof.
  intros Hv. unfold evaluate_contract, state_keys in *. destruct (pr_stateful program) as [p|]; cbn in Hv;
    unfold evaluate, evaluate_with_interrupt, validate, reject_if in *; by case_match.
Qed.

(** C30: A run stays within its declaration.  A compiled contract that returns has used at
    most its fuel and emitted at most 256 events; it has written only slots the call
    granted access to, and every slot not marked as written still has its old value.  It
    reads only slots the call granted access to: with other values in the other slots the
    result, an error included, is the same, and so are the granted slots afterwards.  It
    reports an invalid context exactly when the context is refused before the run. *)
Theorem runs_are_confined `{!Blake2s} source program input c fuel :
  compile source = Ok program → call_typed input c → 0 <= fuel →
  (∀ e, evaluate_contract program input c fuel = Ok e →
     0 <= ce_fuel_used e <= fuel ∧ len (ce_events e) <= MAX_EVENTS
     ∧ length (ce_state e) = length (cc_keys c) ∧ length (ce_writes e) = length (cc_keys c)
     ∧ (∀ i, ce_writes e !! i = Some true → cc_access c !! i = Some true)
     ∧ (∀ i, ce_writes e !! i = Some false → ce_state e !! i = cc_state c !! i))
  ∧ (∀ state, same_slots c (cc_state c) state →
       same_outcome c (evaluate_contract program input c fuel) (evaluate_contract program input (with_slots c state) fuel))
  ∧ (evaluate_contract program input c fuel = Err (Failed InvalidContext) ↔ validate (state_keys program) c ≠ Ok tt).
Proof.
  intros Hc Ht Hf. split_and!; [|by intros; apply same_contract|].
  - intros e He. by destruct (compiled_confined _ _ _ _ _ _ Hc Ht Hf He).
  - split; [|apply contract_refused]. intros He Hv. by apply (compiled_context _ _ _ _ _ Hc Ht Hf Hv) in He.
Qed.

(** The counter beside a slot that the call does not grant. *)
Definition shared_context : ContractContext :=
  mkContractContext 7 [1; 2; 3; 4] [lit "total"; lit "zeta"] [Some 40; Some 5] [true; false].
Definition shared_result : ContractExecution := mkContractExecution 42 47 [Some 42; Some 5] [true; false] [(1, 7); (0, 7)].

Lemma runs_are_confined_witness :
  let program := mkProgram [] 0 (domain_hash (H := checksum_blake2s) SOURCE_V2 counter_source) (Some counter_program) in
  evaluate_contract program 2 shared_context 100 = Ok shared_result
  ∧ 0 <= ce_fuel_used shared_result <= 100
  ∧ same_outcome shared_context (evaluate_contract program 2 shared_context 100)
      (evaluate_contract program 2 (with_slots shared_context [Some 40; None]) 100).
Proof.
  assert (compile (H := checksum_blake2s) counter_source
          = Ok (mkProgram [] 0 (domain_hash (H := checksum_blake2s) SOURCE_V2 counter_source) (Some counter_program))) as Hc
    by (vm_compute; reflexivity).
  assert (call_typed 2 shared_context) as Ht by (by repeat constructor).
  assert (0 <= 100) as Hf by lia.
  destruct (runs_are_confined (H := checksum_blake2s) _ _ 2 shared_context 100 Hc Ht Hf) as (He & Hs & _). cbv zeta.
  assert (evaluate_contract (mkProgram [] 0 (domain_hash (H := checksum_blake2s) SOURCE_V2 counter_source) (Some counter_program))
            2 shared_context 100 = Ok shared_result) as Hr by (vm_compute; reflexivity).
  split; [exact Hr|]. split; [apply (He _ Hr)|]. apply Hs. split; [reflexivity|]. by intros [|[|i]].
Defined.
