(* ===== verification/Native.v ===== *)
(** * Native: compiled workers checked against the reference evaluator
    ([src/crates/trocto-runtime/src/lib.rs])

    A worker is an operating-system process compiled by LLVM: what it answers and when
    the clock passes a deadline are arguments of the model, one set per execution.  The
    framing of requests and responses, the comparison with the reference evaluator and
    the retirement of workers are modelled.  Diagnostic texts of errors are left out. *)

From S2P Require Import Prelude Ordered Codec Types Trocto TroctoScalar TroctoStateful TroctoSource TroctoRun TroctoProgram.

#[local] Arguments cmp : simpl never.

Definition MAX_NATIVE_FUEL : Z := 10000000.

Inductive NativeError :=
| Source (error : CompileError)
| Isolation
| Capacity
| FuelLimit
| NativeIo
| CompilerIdentity
| Compilation
| DiagnosticLimit
| CompilationTimeout
| ExecutionTimeout
| WorkerUnavailable
| Protocol
| Divergence
| Contract (error : ExecutionError)
| InvalidDeadline.

(** An error, or a panic of the reference evaluator. *)
Inductive NativeFailure :=
| NativeFailed (error : NativeError)
| NativePanic.

#[global] Instance ExecutionError_eq_dec : EqDecision ExecutionError.
Proof. solve_decision. Defined.
#[global] Instance ContractExecution_eq_dec : EqDecision ContractExecution.
Proof. solve_decision. Defined.
#[global] Instance result_eq_dec {A E : Type} `{!EqDecision A, !EqDecision E} : EqDecision (result A E).
Proof. solve_decision. Defined.

(** ** Framing *)

Definition response_words : nat := 4 + 3 * 1024 + 2 * 256.
Definition response_bytes : Z := 8 * (4 + 3 * MAX_STATE_KEYS + 2 * MAX_EVENTS).
Definition request_bytes : Z := 8 * (8 + 8 * MAX_STATE_KEYS).

(** The crate's own copy of the context check. *)
Definition validate_context (c : ContractContext) (prefix : list bytes) : result unit ExecutionError :=
  let count := len (cc_keys c) in
  reject_if ((MAX_STATE_KEYS <? count)
             || negb (len (cc_state c) =? count)
             || negb (len (cc_access c) =? count)
             || negb (starts_with prefix (cc_keys c))
             || existsb (λ k, (len k =? 0) || (MAX_STATE_KEY_BYTES <? len k)) (cc_keys c)
             || unordered (drop (length prefix) (cc_keys c))
             || negb (len (bt_collect (map (λ k, (k, tt)) (cc_keys c))) =? count))
    InvalidContext.

Definition words (zs : list Z) : bytes := concat (map (le 8) zs).

(** The length and, for addresses, the bytes of a key; its value, presence and access. *)
Definition request_slot (slot : bytes * option Z * bool) : bytes :=
  let '(key, value, access) := slot in
  le 8 (len key) ++ (if len key =? 32 then key else repeat (byte_of 0) 32)
  ++ words [default 0 value; flag (bool_decide (is_Some value)); flag access].

(** [Vec::resize]. *)
Definition resize (n : nat) (bs : bytes) : bytes := take n bs ++ repeat (byte_of 0) (n - length bs).

Definition encode_request (input : Z) (c : ContractContext) (fuel : Z) : bytes :=
  resize (Z.to_nat request_bytes)
    (words ([input; fuel; cc_height c] ++ cc_caller c ++ [len (cc_state c)])
     ++ concat (map request_slot (zip (zip (cc_keys c) (cc_state c)) (cc_access c)))).

(** A word of a response, whose length was checked. *)
Definition word_at (bs : bytes) (i : nat) : Z := from_le (take 8 (drop (8 * i) bs)).

Definition zeroed (bs : bytes) : bool := forallb (λ b, byte.unsigned b =? 0) bs.

Definition status_error (status : Z) : option ExecutionError :=
  if status =? 1 then Some FuelExhausted
  else if status =? 2 then Some Overflow
  else if status =? 3 then Some DivisionByZero
  else if status =? 4 then Some AccessDenied
  else if status =? 5 then Some EventLimit
  else if status =? 6 then Some InvalidContext
  else if status =? 7 then Some Bounds
  else None.

Definition response_slot (bs : bytes) (i : nat) : result (option Z * bool) NativeError :=
  let value := word_at bs (4 + i * 3) in
  let present := word_at bs (5 + i * 3) in
  let written := word_at bs (6 + i * 3) in
  if (1 <? present) || (1 <? written) || ((present =? 0) && negb (value =? 0)) then Err Protocol
  else Ok (if present =? 1 then Some value else None, written =? 1).

Definition decode_contract_response (bs : bytes) (keys : nat)
    : result (result ContractExecution ExecutionError) NativeError :=
  if (MAX_STATE_KEYS <? Z.of_nat keys) || negb (len bs =? response_bytes) then Err Protocol
  else if negb (word_at bs 0 =? 0) then
    if negb (zeroed (drop 8 bs)) then Err Protocol
    else let? e := ok_or (status_error (word_at bs 0)) Protocol in Ok (Err e)
  else
    let count := word_at bs 3 in
    if MAX_EVENTS <? count then Err Protocol
    else
      let? slots := try_map (response_slot bs) (seq 0 keys) in
      let start := (4 + 3 * 1024)%nat in
      if negb (zeroed (take (8 * start - 8 * (4 + 3 * keys)) (drop (8 * (4 + 3 * keys)) bs))) then Err Protocol
      else if negb (zeroed (drop (8 * (start + 2 * Z.to_nat count)) bs)) then Err Protocol
      else Ok (Ok (mkContractExecution (word_at bs 1) (word_at bs 2) (map fst slots) (map snd slots)
                     (map (λ i, (word_at bs (start + i * 2), word_at bs (start + i * 2 + 1)))
                        (seq 0 (Z.to_nat count))))).

(** ** One execution *)

(** What happens to a request: the worker has exited or cannot be waited for, the
    request channel is full or closed, the response arrives, the pipes fail, or the
    deadline passes. *)
Inductive WorkerEvent :=
| Exited
| WaitFailed
| RequestFull
| RequestClosed
| Responded (bs : bytes)
| PipeFailed
| TimedOut.

(** [IoThread::exchange]. *)
Definition exchange (request : bytes) (event : WorkerEvent) : result bytes NativeError :=
  if negb (len request =? request_bytes) then Err Protocol
  else
    match event with
    | RequestFull => Err Protocol
    | RequestClosed => Err WorkerUnavailable
    | Responded bs => Ok bs
    | PipeFailed => Err Protocol
    | _ => Err ExecutionTimeout
    end.

(** [Worker::request]. *)
Definition worker_request (request : bytes) (event : WorkerEvent) : result bytes NativeError :=
  match event with
  | WaitFailed => Err NativeIo
  | Exited => Err WorkerUnavailable
  | event => exchange request event
  end.

Definition NANOSECONDS : Z := 1000000000.

(** [deadline]: a timeout in nanoseconds, and whether the clock can represent its end. *)
Definition deadline (timeout : Z) (representable : bool) : result unit NativeError :=
  if (timeout =? 0) || (120 * NANOSECONDS <? timeout) then Err InvalidDeadline
  else if representable then Ok tt else Err InvalidDeadline.

(** What a call depends on besides its arguments: its timeout and whether its
    deadline is representable, what happens to its request, when the clock has passed the deadline while the reference
    evaluator asks, and whether it has at the end. *)
Record Surroundings := mkSurroundings {
  sr_timeout : Z;
  sr_representable : bool;
  sr_event : WorkerEvent;
  sr_expired : nat → bool;
  sr_late : bool
}.

(** The comparison that ends an execution. *)
Definition settle_response (env : Surroundings) (actual expected : result ContractExecution ExecutionError)
    : bool * result ContractExecution NativeFailure :=
  if sr_late env then (false, Err (NativeFailed ExecutionTimeout))
  else if negb (bool_decide (actual = expected)) then (false, Err (NativeFailed Divergence))
  else (true, map_err (λ x, NativeFailed (Contract x)) actual).

Section native.
Context `{!Blake2s}.

(** [NativeProgram::execute_contract]: whether a worker is left, and the result. *)
Definition native_execute (program : Program) (worker : bool) (env : Surroundings) (input : Z)
    (c : ContractContext) (fuel : Z) : bool * result ContractExecution NativeFailure :=
  match deadline (sr_timeout env) (sr_representable env) with
  | Err e => (worker, Err (NativeFailed e))
  | Ok _ =>
      if MAX_NATIVE_FUEL <? fuel then (worker, Err (NativeFailed FuelLimit))
      else
        match validate_context c (state_keys program) with
        | Err e => (worker, Err (NativeFailed (Contract e)))
        | Ok _ =>
            if negb worker then (false, Err (NativeFailed WorkerUnavailable))
            else
              match (let? bs := worker_request (encode_request input c fuel) (sr_event env) in
                     decode_contract_response bs (length (cc_keys c))) with
              | Err e => (false, Err (NativeFailed e))
              | Ok actual =>
                  match evaluate_contract_with_interrupt program input c fuel (sr_expired env) with
                  | Ok None => (false, Err (NativeFailed ExecutionTimeout))
                  | Ok (Some e) => settle_response env actual (Ok e)
                  | Err (Failed x) => settle_response env actual (Err x)
                  | Err _ => (false, Err NativePanic)
                  end
              end
        end
  end.

(** ** Agreement with the reference *)

(** Failures of this machine, as opposed to results every node computes. *)
Definition is_local (e : NativeError) : bool :=
  match e with Source _ | FuelLimit | Contract _ => false | _ => true end.

(** What every node computes for a call: the limits of the protocol, the compiler and
    the reference evaluator. *)
Definition reference_execute (source : bytes) (input : Z) (c : ContractContext) (fuel : Z)
    : result ContractExecution NativeFailure :=
  if MAX_NATIVE_FUEL <? fuel then Err (NativeFailed FuelLimit)
  else
    match compile source with
    | Err (Refused e) => Err (NativeFailed (Source e))
    | Err _ => Err NativePanic
    | Ok program =>
        match evaluate_contract program input c fuel with
        | Ok e => Ok e
        | Err (Failed x) => Err (NativeFailed (Contract x))
        | Err _ => Err NativePanic
        end
    end.

(** A result is what every node computes, or a local failure. *)
Definition agrees_with {A : Type} (reference r : result A NativeFailure) : Prop :=
  r = reference ∨ ∃ e, r = Err (NativeFailed e) ∧ is_local e = true.

Lemma deadline_cases timeout representable :
  deadline timeout representable = Ok tt ∨ deadline timeout representable = Err InvalidDeadline.
Proof. unfold deadline. destruct (_ || _); [by right|]. destruct representable; auto. Qed.

Definition reported_natively (r : result ContractExecution ExecutionError) : result ContractExecution NativeFailure :=
  map_err (λ x, NativeFailed (Contract x)) r.

Lemma evaluate_validates program input c fuel x :
  validate (state_keys program) c = Err x → evaluate_contract program input c fuel = Err (Failed x).
Proof.
  unfold evaluate_contract, state_keys. destruct (pr_stateful program) as [p|]; intros Hv.
  - unfold evaluate, evaluate_with_interrupt. by rewrite Hv.
  - by rewrite Hv.
Qed.

(** The only error a computation can fail with. *)
Definition fails_only {A : Type} (e : NativeError) (r : result A NativeError) : Prop :=
  match r with Ok _ => True | Err e' => e' = e end.

Lemma fails_only_bind {A B : Type} e (r : result A NativeError) (f : A → result B NativeError) :
  fails_only e r → (∀ a, fails_only e (f a)) → fails_only e (let? a := r in f a).
Proof. destruct r; cbn; auto. Qed.

Lemma fails_only_try_map {A B : Type} e (f : A → result B NativeError) xs :
  (∀ a, fails_only e (f a)) → fails_only e (try_map f xs).
Proof.
  intros Hf. induction xs; cbn [try_map]; [done|].
  apply fails_only_bind; [done|intros]. by apply fails_only_bind.
Qed.

Lemma decode_fails bs n : fails_only Protocol (decode_contract_response bs n).
Proof.
  unfold decode_contract_response. cbv zeta. repeat (case_match; [done|]).
  destruct (negb (word_at bs 0 =? 0)).
  - case_match; [done|]. apply fails_only_bind; [by destruct (status_error _)|done].
  - case_match; [done|]. apply fails_only_bind.
    + apply fails_only_try_map. intros i. unfold response_slot. by case_match.
    + intros slots. by repeat case_match.
Qed.

Lemma request_fails request event e : worker_request request event = Err e → is_local e = true.
Proof. unfold worker_request, exchange. destruct event, (len request =? request_bytes); cbn; by intros [= <-]. Qed.

Lemma native_agrees source program worker env input c fuel :
  compile source = Ok program → call_typed input c →
  agrees_with (reference_execute source input c fuel) (native_execute program worker env input c fuel).2.
Proof.
  intros Hc Ht. destruct (compiled_answers _ _ input c fuel Hc Ht) as (r & Hr & Hi).
  unfold native_execute, reference_execute. rewrite Hc, Hr.
  destruct (deadline_cases (sr_timeout env) (sr_representable env)) as [-> | ->]; [|right; eauto]. destruct (MAX_NATIVE_FUEL <? fuel); [by left|].
  destruct (validate_context c (state_keys program)) as [[]|x] eqn:Hv.
  2:{ left. apply evaluate_validates with (input := input) (fuel := fuel) in Hv. rewrite Hr in Hv. by destruct r; simplify_eq/=. }
  destruct worker; cbn [negb]; [|right; eauto].
  destruct (worker_request _ _) as [bs|e] eqn:He; [|right; exists e; eauto using request_fails].
  pose proof (decode_fails bs (length (cc_keys c))) as Hd.
  destruct (decode_contract_response bs (length (cc_keys c))) as [actual|e]; [|right; exists e; by rewrite Hd].
  destruct (Hi (sr_expired env)) as [->| ->]; [right; eauto|].
  assert (∀ x, agrees_with (reported_natively x) (settle_response env actual x).2) as Hs.
  { intros x. unfold settle_response. destruct (sr_late env); [right; eauto|].
    case_bool_decide; subst; [by left|right; eauto]. }
  destruct r as [x|x]; exact (Hs _).
Qed.
End native.
