(* ===== verification/NativeCache.v ===== *)
(** * NativeCache: threads sharing compiled artifacts ([src/crates/trocto-runtime/src/cache.rs])

    Any number of threads call one cache.  Each critical section of the source, and each
    stretch of work outside a lock, is one step of a thread; a schedule interleaves the
    steps of the threads, and with every step it chooses what the machine did: whether a
    build or a worker start succeeded, whether a wait timed out, what a worker answered.
    Entries are shared objects, kept in a list and named by their position in it;
    [Arc::strong_count] is the number of threads that hold an entry or its artifact, plus
    the holder in the table.  Locks are never poisoned, since no section panics. *)

From S2P Require Import Prelude Ordered Codec Types Trocto TroctoStateful TroctoRun TroctoProgram Native.

#[local] Arguments cmp : simpl never.

Definition MAX_NATIVE_CACHE_ENTRIES : Z := 16.
Definition MAX_NATIVE_WORKERS_PER_ARTIFACT : Z := 4.
Definition EXECUTE_TIMEOUT : Z := 5 * NANOSECONDS.
Definition PREPARE_TIMEOUT : Z := 65 * NANOSECONDS.

(** ** State *)

Record Pool := mkPool { idle : Z; total : Z }.

Inductive Prepared :=
| Pending
| Ready (program : Program) (pool : Pool)
| PreparationFailed (error : NativeError).

Record CacheEntry := mkEntry { e_source : bytes; e_state : Prepared }.

(** The public operations and what they answer. *)
Inductive Operation :=
| Prepare
| GetProgram
| ExecuteContract (input : Z) (c : ContractContext) (fuel : Z).

Inductive Answer :=
| IsPrepared
| TheProgram (program : Program)
| Executed (e : ContractExecution).

Record Call := mkCall { ca_source : bytes; ca_operation : Operation }.

#[global] Instance ContractContext_eq_dec : EqDecision ContractContext.
Proof. solve_decision. Defined.
#[global] Instance Operation_eq_dec : EqDecision Operation.
Proof. solve_decision. Defined.
#[global] Instance Call_eq_dec : EqDecision Call.
Proof. solve_decision. Defined.

(** Where a thread is: before [artifact], in [artifact] with a clone of the entry, in
    [execute_contract] with a clone of the artifact, or back. *)
Inductive Place :=
| Calling
| Building (id : nat)
| Removing (id : nat) (e : NativeError)
| Preparing (id : nat)
| Acquiring (id : nat)
| Awaiting (id : nat)
| Spawning (id : nat)
| Serving (id : nat)
| Returning (id : nat) (worker : bool) (r : result ContractExecution NativeFailure)
| Done (r : result Answer NativeFailure).

Record Thread := mkThread { th_call : Call; th_place : Place }.

Record NativeArtifactCache := mkCache {
  entries : BTreeMap bytes nat;
  objects : list CacheEntry;
  compilations : Z;
  workers_started : Z;
  executions : Z;
  threads : list Thread
}.

Definition cache_new (calls : list Call) : NativeArtifactCache :=
  mkCache [] [] 0 0 0 (map (λ call, mkThread call Calling) calls).

(** What the machine does during one step. *)
Record Choice := mkChoice {
  ch_build : result unit NativeError;
  ch_spawn : result unit NativeError;
  ch_wait_valid : bool;
  ch_valid : bool;
  ch_late : bool;
  ch_run : Surroundings
}.

(** [AtomicU64::fetch_add(1)]. *)
Definition bump (z : Z) : Z := (z + 1) mod 2 ^ 64.

(** ** References *)

Definition holds_entry (id : nat) (th : Thread) : bool :=
  match th_place th with
  | Building i | Removing i _ | Preparing i => bool_decide (i = id)
  | _ => false
  end.

Definition holds_artifact (id : nat) (th : Thread) : bool :=
  match th_place th with
  | Acquiring i | Awaiting i | Spawning i | Serving i | Returning i _ _ => bool_decide (i = id)
  | _ => false
  end.

(** [Arc::strong_count], of an entry in the table and of an artifact in its entry. *)
Definition entry_count (c : NativeArtifactCache) (id : nat) : Z := 1 + len (List.filter (holds_entry id) (threads c)).
Definition artifact_count (c : NativeArtifactCache) (id : nat) : Z := 1 + len (List.filter (holds_artifact id) (threads c)).

(** ** Steps *)

Definition set_place (t : nat) (p : Place) (c : NativeArtifactCache) : NativeArtifactCache :=
  match threads c !! t with
  | Some th =>
      mkCache (entries c) (objects c) (compilations c) (workers_started c) (executions c)
        (<[t := mkThread (th_call th) p]> (threads c))
  | None => c
  end.

Definition set_state (id : nat) (s : Prepared) (c : NativeArtifactCache) : NativeArtifactCache :=
  match objects c !! id with
  | Some e =>
      mkCache (entries c) (<[id := mkEntry (e_source e) s]> (objects c)) (compilations c) (workers_started c)
        (executions c) (threads c)
  | None => c
  end.

Definition set_entries (es : BTreeMap bytes nat) (c : NativeArtifactCache) : NativeArtifactCache :=
  mkCache es (objects c) (compilations c) (workers_started c) (executions c) (threads c).

Definition count_build (c : NativeArtifactCache) : NativeArtifactCache :=
  mkCache (entries c) (objects c) (bump (compilations c)) (bump (workers_started c)) (executions c) (threads c).
Definition count_worker (c : NativeArtifactCache) : NativeArtifactCache :=
  mkCache (entries c) (objects c) (compilations c) (bump (workers_started c)) (executions c) (threads c).
Definition count_execution (c : NativeArtifactCache) : NativeArtifactCache :=
  mkCache (entries c) (objects c) (compilations c) (workers_started c) (bump (executions c)) (threads c).

(** An unreferenced, completely idle ready artifact. *)
Definition evictable (c : NativeArtifactCache) (id : nat) : bool :=
  (entry_count c id =? 1)
  && match objects c !! id with
     | Some (mkEntry _ (Ready _ pool)) => (artifact_count c id =? 1) && (total pool =? idle pool)
     | _ => false
     end.

Fixpoint find_victim (c : NativeArtifactCache) (es : list (bytes * nat)) : option bytes :=
  match es with
  | [] => None
  | (source, id) :: es => if evictable c id then Some source else find_victim c es
  end.

(** Room for one more entry. *)
Definition make_room (c : NativeArtifactCache) : result NativeArtifactCache NativeError :=
  if MAX_NATIVE_CACHE_ENTRIES <=? len (entries c) then
    let? victim := ok_or (find_victim c (entries c)) Capacity in
    Ok (set_entries (bt_remove victim (entries c)) c)
  else Ok c.

(** A pending entry under a source that has none. *)
Definition push_entry (source : bytes) (c : NativeArtifactCache) : NativeArtifactCache :=
  mkCache (bt_insert source (length (objects c)) (entries c)) (objects c ++ [mkEntry source Pending])
    (compilations c) (workers_started c) (executions c) (threads c).

(** The section of [artifact] under the lock of the table. *)
Definition reserve_artifact (t : nat) (source : bytes) (c : NativeArtifactCache) : NativeArtifactCache :=
  match bt_get source (entries c) with
  | Some id => set_place t (Preparing id) c
  | None =>
      match make_room c with
      | Err e => set_place t (Done (Err (NativeFailed e))) c
      | Ok c' => set_place t (Building (length (objects c'))) (push_entry source c')
      end
  end.

Section steps.
Context `{!Blake2s}.

(** Before the lock of the table. *)
Definition call_step (t : nat) (call : Call) (c : NativeArtifactCache) : NativeArtifactCache :=
  let too_much := match ca_operation call with ExecuteContract _ _ fuel => MAX_NATIVE_FUEL <? fuel | _ => false end in
  if too_much then set_place t (Done (Err (NativeFailed FuelLimit))) c
  else if MAX_SOURCE_BYTES <? len (ca_source call) then
    match compile (ca_source call) with
    | Err (Refused e) => set_place t (Done (Err (NativeFailed (Source e)))) c
    | _ => set_place t (Done (Err NativePanic)) c
    end
  else reserve_artifact t (ca_source call) c.

(** Where the caller of [artifact] continues with one. *)
Definition delivered (id : nat) (program : Program) (call : Call) (ch : Choice) : Place :=
  match ca_operation call with
  | Prepare => Done (Ok IsPrepared)
  | GetProgram => Done (Ok (TheProgram program))
  | ExecuteContract _ _ _ =>
      match deadline EXECUTE_TIMEOUT (ch_valid ch) with
      | Err e => Done (Err (NativeFailed e))
      | Ok _ => Acquiring id
      end
  end.

Definition build_step (t id : nat) (call : Call) (ch : Choice) (c : NativeArtifactCache) : NativeArtifactCache :=
  match compile (ca_source call) with
  | Err (Refused e) => set_place t (Removing id (Source e)) (set_state id (PreparationFailed (Source e)) c)
  | Err _ => set_place t (Done (Err NativePanic)) c
  | Ok program =>
      match ch_build ch with
      | Err e => set_place t (Removing id e) (set_state id (PreparationFailed e) c)
      | Ok _ => set_place t (delivered id program call ch) (set_state id (Ready program (mkPool 1 1)) (count_build c))
      end
  end.

Definition remove_step (t : nat) (call : Call) (e : NativeError) (c : NativeArtifactCache) : NativeArtifactCache :=
  set_place t (Done (Err (NativeFailed e))) (set_entries (bt_remove (ca_source call) (entries c)) c).

(** [wait_prepared]: a waiting thread is woken or times out. *)
Definition prepare_step (t id : nat) (call : Call) (ch : Choice) (c : NativeArtifactCache) : option NativeArtifactCache :=
  e ← objects c !! id;
  match deadline PREPARE_TIMEOUT (ch_wait_valid ch), e_state e with
  | Err x, _ => Some (set_place t (Done (Err (NativeFailed x))) c)
  | _, Ready program _ => Some (set_place t (delivered id program call ch) c)
  | _, PreparationFailed x => Some (set_place t (Done (Err (NativeFailed x))) c)
  | _, Pending =>
      if ch_late ch then Some (set_place t (Done (Err (NativeFailed CompilationTimeout))) c) else None
  end.

(** The pool of a ready artifact. *)
Definition with_pool (id : nat) (c : NativeArtifactCache) (k : Program → Pool → NativeArtifactCache)
    : option NativeArtifactCache :=
  e ← objects c !! id;
  match e_state e with Ready program pool => Some (k program pool) | _ => None end.

(** The loop that takes a worker: an idle one, a place for a new one, or a wait. *)
Definition acquire_step (t id : nat) (ch : Choice) (c : NativeArtifactCache) : option NativeArtifactCache :=
  with_pool id c (λ program pool,
    if 0 <? idle pool then
      set_place t (Serving id) (set_state id (Ready program (mkPool (idle pool - 1) (total pool))) c)
    else if total pool <? MAX_NATIVE_WORKERS_PER_ARTIFACT then
      set_place t (Spawning id) (set_state id (Ready program (mkPool (idle pool) (total pool + 1))) c)
    else if ch_late ch then set_place t (Done (Err (NativeFailed ExecutionTimeout))) c
    else set_place t (Awaiting id) c).

(** The wait ends with a notification or with the deadline. *)
Definition await_step (t id : nat) (ch : Choice) (c : NativeArtifactCache) : NativeArtifactCache :=
  if ch_late ch then set_place t (Done (Err (NativeFailed ExecutionTimeout))) c
  else set_place t (Acquiring id) c.

(** A pool that gives up one of its workers. *)
Definition retire (id : nat) (program : Program) (pool : Pool) (c : NativeArtifactCache) : option NativeArtifactCache :=
  if 0 <? total pool then Some (set_state id (Ready program (mkPool (idle pool) (total pool - 1))) c) else None.

Definition spawn_step (t id : nat) (ch : Choice) (c : NativeArtifactCache) : option NativeArtifactCache :=
  match ch_spawn ch with
  | Ok _ => Some (set_place t (Serving id) (count_worker c))
  | Err e =>
      with_pool id c (λ program pool,
        match retire id program pool c with
        | Some c => set_place t (Done (Err (NativeFailed e))) c
        | None => set_place t (Done (Err NativePanic)) c
        end)
  end.

(** The execution, outside every lock. *)
Definition serve_step (t id : nat) (call : Call) (ch : Choice) (c : NativeArtifactCache) : option NativeArtifactCache :=
  match ca_operation call with
  | ExecuteContract input context fuel =>
      with_pool id c (λ program _,
        let '(worker, r) :=
          if ch_late ch then (true, Err (NativeFailed ExecutionTimeout))
          else native_execute program true (ch_run ch) input context fuel in
        set_place t (Returning id worker r) (count_execution c))
  | _ => None
  end.

Definition return_step (t id : nat) (worker : bool) (r : result ContractExecution NativeFailure)
    (c : NativeArtifactCache) : option NativeArtifactCache :=
  with_pool id c (λ program pool,
    let answer := Done (let? e := r in Ok (Executed e)) in
    if worker then set_place t answer (set_state id (Ready program (mkPool (idle pool + 1) (total pool))) c)
    else
      match retire id program pool c with
      | Some c => set_place t answer c
      | None => set_place t (Done (Err NativePanic)) c
      end).

(** One step of a thread, when it has one. *)
Definition thread_step (t : nat) (ch : Choice) (c : NativeArtifactCache) : option NativeArtifactCache :=
  th ← threads c !! t;
  let call := th_call th in
  match th_place th with
  | Calling => Some (call_step t call c)
  | Building id => Some (build_step t id call ch c)
  | Removing id e => Some (remove_step t call e c)
  | Preparing id => prepare_step t id call ch c
  | Acquiring id => acquire_step t id ch c
  | Awaiting id => Some (await_step t id ch c)
  | Spawning id => spawn_step t id ch c
  | Serving id => serve_step t id call ch c
  | Returning id worker r => return_step t id worker r c
  | Done _ => None
  end.

Definition schedule : Type := list (nat * Choice).

(** The threads take the steps of a schedule. *)
Fixpoint interleave (s : schedule) (c : NativeArtifactCache) : option NativeArtifactCache :=
  match s with
  | [] => Some c
  | (t, ch) :: s => c ← thread_step t ch c; interleave s c
  end.

(** [stats]. *)
Definition stats (c : NativeArtifactCache) : Z * Z * Z * Z :=
  (len (entries c), compilations c, workers_started c, executions c).
End steps.

(** ** Invariant *)

Definition holds_worker (id : nat) (th : Thread) : bool :=
  match th_place th with
  | Spawning i | Serving i | Returning i _ _ => bool_decide (i = id)
  | _ => false
  end.

(** The workers of an artifact that threads hold. *)
Definition workers_held (ths : list Thread) (id : nat) : Z := len (List.filter (holds_worker id) ths).

Lemma workers_held_nonneg ths id : 0 <= workers_held ths id.
Proof. apply len_nonneg. Qed.

Lemma workers_held_insert ths t th th' id :
  ths !! t = Some th →
  workers_held (<[t := th']> ths) id = workers_held ths id - flag (holds_worker id th) + flag (holds_worker id th').
Proof.
  intros Ht. unfold workers_held. rewrite insert_take_drop by (by eapply lookup_lt_Some).
  rewrite <- (take_drop_middle _ _ _ Ht) at 3.
  rewrite !List.filter_app, !len_app. cbn [List.filter].
  destruct (holds_worker id th), (holds_worker id th'); cbn [flag]; rewrite ?len_cons; lia.
Qed.

Lemma workers_held_none ths id : (∀ t th, ths !! t = Some th → holds_worker id th = false) → workers_held ths id = 0.
Proof.
  intros Hf. unfold workers_held. apply len_zero_iff. induction ths as [|th ths IH]; [done|]. cbn.
  rewrite (Hf 0%nat th eq_refl). apply IH. intros t. apply (Hf (S t)).
Qed.

Section invariant.
Context `{!Blake2s}.

(** What every node computes for a call. *)
Definition reference_answer (call : Call) : result Answer NativeFailure :=
  let with_program := λ answer : Program → Answer,
    match compile (ca_source call) with
    | Ok program => Ok (answer program)
    | Err (Refused e) => Err (NativeFailed (Source e))
    | Err _ => Err NativePanic
    end in
  match ca_operation call with
  | Prepare => with_program (λ _, IsPrepared)
  | GetProgram => with_program TheProgram
  | ExecuteContract input c fuel => let? e := reference_execute (ca_source call) input c fuel in Ok (Executed e)
  end.

(** What the argument types of a call promise. *)
Definition typed_operation (call : Call) : Prop :=
  match ca_operation call with ExecuteContract input c _ => call_typed input c | _ => True end.

(** Builds and worker starts fail with errors of this machine. *)
Definition local_choice (ch : Choice) : Prop :=
  (∀ e, ch_build ch = Err e → is_local e = true) ∧ (∀ e, ch_spawn ch = Err e → is_local e = true).

Definition failure_ok (source : bytes) (e : NativeError) : Prop :=
  is_local e = true ∨ ∃ x, e = Source x ∧ compile source = Err (Refused x).

(** A ready pool accounts for its workers: the idle ones and those threads hold. *)
Definition state_ok (ths : list Thread) (id : nat) (e : CacheEntry) : Prop :=
  match e_state e with
  | Pending => True
  | PreparationFailed x => failure_ok (e_source e) x
  | Ready program pool =>
      compile (e_source e) = Ok program ∧ 0 <= idle pool ∧ idle pool + workers_held ths id = total pool
      ∧ total pool <= MAX_NATIVE_WORKERS_PER_ARTIFACT
  end.

(** A call that reached its artifact, which is cached. *)
Definition uses (es : BTreeMap bytes nat) (os : list CacheEntry) (id : nat) (call : Call) : Prop :=
  (∃ input c fuel, ca_operation call = ExecuteContract input c fuel ∧ fuel <= MAX_NATIVE_FUEL)
  ∧ (∃ program pool, os !! id = Some (mkEntry (ca_source call) (Ready program pool)))
  ∧ bt_get (ca_source call) es = Some id.

Definition within_fuel (call : Call) : Prop :=
  match ca_operation call with ExecuteContract _ _ fuel => fuel <= MAX_NATIVE_FUEL | _ => True end.

Definition thread_ok (es : BTreeMap bytes nat) (os : list CacheEntry) (th : Thread) : Prop :=
  let call := th_call th in
  match th_place th with
  | Calling => True
  | Building id =>
      within_fuel call ∧ os !! id = Some (mkEntry (ca_source call) Pending) ∧ bt_get (ca_source call) es = Some id
  | Removing id e =>
      within_fuel call ∧ os !! id = Some (mkEntry (ca_source call) (PreparationFailed e))
      ∧ bt_get (ca_source call) es = Some id
  | Preparing id =>
      within_fuel call
      ∧ ∃ s, os !! id = Some (mkEntry (ca_source call) s)
          ∧ ((∀ e, s ≠ PreparationFailed e) → bt_get (ca_source call) es = Some id)
  | Acquiring id | Awaiting id | Spawning id | Serving id => uses es os id call
  | Returning id _ r => uses es os id call ∧ agrees_with (reference_answer call) (let? e := r in Ok (Executed e))
  | Done r => agrees_with (reference_answer call) r
  end.

(** The thread that builds an entry, or takes it out of the table. *)
Definition builds (id : nat) (th : Thread) : bool :=
  match th_place th with Building i | Removing i _ => bool_decide (i = id) | _ => false end.

Record cache_ok (c : NativeArtifactCache) : Prop := {
  ok_map : bt_ok (entries c);
  ok_size : len (entries c) <= MAX_NATIVE_CACHE_ENTRIES;
  ok_ids : ∀ source id, bt_get source (entries c) = Some id → ∃ s, objects c !! id = Some (mkEntry source s);
  ok_states : ∀ id e, objects c !! id = Some e → state_ok (threads c) id e;
  ok_threads : ∀ t th, threads c !! t = Some th → typed_operation (th_call th) ∧ thread_ok (entries c) (objects c) th;
  ok_builder : ∀ id t t' th th', threads c !! t = Some th → threads c !! t' = Some th' →
    builds id th = true → builds id th' = true → t = t'
}.

(** A thread changes its place, and with it the table or an entry. *)
Lemma cache_ok_step c c' t th p :
  cache_ok c → threads c !! t = Some th → threads c' = <[t := mkThread (th_call th) p]> (threads c) →
  bt_ok (entries c') → len (entries c') <= MAX_NATIVE_CACHE_ENTRIES →
  (∀ source id, bt_get source (entries c') = Some id → ∃ s, objects c' !! id = Some (mkEntry source s)) →
  (∀ id e, objects c' !! id = Some e → state_ok (threads c') id e) →
  thread_ok (entries c') (objects c') (mkThread (th_call th) p) →
  (∀ t' th', t' ≠ t → threads c !! t' = Some th' → thread_ok (entries c) (objects c) th' →
     thread_ok (entries c') (objects c') th') →
  (∀ id t' th', t' ≠ t → threads c !! t' = Some th' → builds id (mkThread (th_call th) p) = true → builds id th' = false) →
  cache_ok c'.
Proof.
  intros Hok Ht Hths Hm Hs Hids Hstates Hnew Hothers Hb.
  pose proof (lookup_lt_Some _ _ _ Ht) as Hlt. split; try done; rewrite Hths in *.
  - intros t' th' [(<- & <- & _)|[Hne Hth']]%list_lookup_insert_Some.
    + split; [by destruct (ok_threads _ Hok _ _ Ht)|done].
    + destruct (ok_threads _ Hok _ _ Hth'). eauto.
  - intros id t1 t2 th1 th2 [(<- & <- & _)|[Hn1 H1]]%list_lookup_insert_Some
      [(<- & <- & _)|[Hn2 H2]]%list_lookup_insert_Some B1 B2; [done| | |by eapply ok_builder].
    + by rewrite (Hb _ _ _ (not_eq_sym Hn2) H2 B1) in B2.
    + by rewrite (Hb _ _ _ (not_eq_sym Hn1) H1 B2) in B1.
Qed.

Lemma set_place_threads t p c th :
  threads c !! t = Some th → threads (set_place t p c) = <[t := mkThread (th_call th) p]> (threads c).
Proof. unfold set_place. by intros ->. Qed.

Lemma set_place_entries t p c : entries (set_place t p c) = entries c.
Proof. unfold set_place. by destruct (threads c !! t). Qed.

Lemma set_place_objects t p c : objects (set_place t p c) = objects c.
Proof. unfold set_place. by destruct (threads c !! t). Qed.

Lemma set_state_entries id s c : entries (set_state id s c) = entries c.
Proof. unfold set_state. by destruct (objects c !! id). Qed.

Lemma set_state_threads id s c : threads (set_state id s c) = threads c.
Proof. unfold set_state. by destruct (objects c !! id). Qed.

Lemma set_state_objects id s c source s0 :
  objects c !! id = Some (mkEntry source s0) → objects (set_state id s c) = <[id := mkEntry source s]> (objects c).
Proof. unfold set_state. by intros ->. Qed.

(** Entries whose workers did not change hands. *)
Lemma state_ok_same ths t th th' id e :
  ths !! t = Some th → holds_worker id th' = holds_worker id th →
  state_ok ths id e → state_ok (<[t := th']> ths) id e.
Proof.
  intros Ht Hh. unfold state_ok. destruct (e_state e); try done.
  rewrite (workers_held_insert _ _ _ _ _ Ht), Hh. by replace (_ - _ + _) with (workers_held ths id) by lia.
Qed.

Lemma cache_ok_move c t th p :
  cache_ok c → threads c !! t = Some th →
  (∀ id, holds_worker id (mkThread (th_call th) p) = holds_worker id th) →
  (∀ id, builds id (mkThread (th_call th) p) = true → builds id th = true) →
  thread_ok (entries c) (objects c) (mkThread (th_call th) p) →
  cache_ok (set_place t p c).
Proof.
  intros Hok Ht Hh Hb Hnew. pose proof Hok as [Hm Hs Hids Hst Hth Hbu].
  apply cache_ok_step with c t th p; rewrite ?set_place_entries, ?set_place_objects, ?(set_place_threads _ _ _ _ Ht); auto.
  - intros id e He. by eapply state_ok_same; eauto.
  - intros id t' th' Hne Ht' B%Hb. apply not_true_is_false. intros B'. by apply Hne, (Hbu id t' t th' th).
Qed.

(** Nobody depends on the workers a pool counts. *)
Lemma thread_ok_pool es os id source program pool pool' th :
  os !! id = Some (mkEntry source (Ready program pool)) →
  thread_ok es os th → thread_ok es (<[id := mkEntry source (Ready program pool')]> os) th.
Proof.
  intros Hid. pose proof (lookup_lt_Some _ _ _ Hid) as Hlt.
  assert (∀ i call, uses es os i call → uses es (<[id := mkEntry source (Ready program pool')]> os) i call) as Hu.
  { intros i call (He & (pr & po & Hi) & Hg). split; [done|]. split; [|done].
    destruct (decide (i = id)) as [->|Hne]; [|by exists pr, po; rewrite list_lookup_insert_ne].
    rewrite Hid in Hi. simplify_eq. exists pr, pool'. by rewrite list_lookup_insert_eq. }
  unfold thread_ok. destruct (th_place th) as [|i|i e|i|i|i|i|i|i w r|r]; try done; try apply Hu.
  - intros (Hf & Hi & Hg). rewrite list_lookup_insert_ne; [done|]. intros ->. by rewrite Hid in Hi.
  - intros (Hf & Hi & Hg). rewrite list_lookup_insert_ne; [done|]. intros ->. by rewrite Hid in Hi.
  - intros (Hf & s & Hi & Hg). split; [done|].
    destruct (decide (i = id)) as [->|Hne]; [|by exists s; rewrite list_lookup_insert_ne].
    rewrite Hid in Hi. simplify_eq. eexists. rewrite list_lookup_insert_eq by done. split; [done|]. intros _. by apply Hg.
  - intros [Hi Ha]. split; [by apply Hu|done].
Qed.

Lemma ids_insert (es : BTreeMap bytes nat) (os : list CacheEntry) (id : nat) source s s0 :
  os !! id = Some (mkEntry source s0) →
  (∀ source id, bt_get source es = Some id → ∃ s, os !! id = Some (mkEntry source s)) →
  ∀ source' i, bt_get source' es = Some i → ∃ s', <[id := mkEntry source s]> os !! i = Some (mkEntry source' s').
Proof.
  intros Hid Hids source' i (s' & Hi)%Hids. pose proof (lookup_lt_Some _ _ _ Hid).
  destruct (decide (i = id)) as [->|Hne]; [|exists s'; by rewrite list_lookup_insert_ne].
  rewrite Hid in Hi. simplify_eq. exists s. by rewrite list_lookup_insert_eq.
Qed.

(** A worker changes hands between a pool and a thread, starts or retires. *)
Lemma cache_ok_pool c t th p id source program pool pool' :
  cache_ok c → threads c !! t = Some th → objects c !! id = Some (mkEntry source (Ready program pool)) →
  0 <= idle pool' → total pool' <= MAX_NATIVE_WORKERS_PER_ARTIFACT →
  idle pool' - idle pool + flag (holds_worker id (mkThread (th_call th) p)) - flag (holds_worker id th)
    = total pool' - total pool →
  (∀ i, i ≠ id → holds_worker i (mkThread (th_call th) p) = holds_worker i th) →
  (∀ i, builds i (mkThread (th_call th) p) = false) →
  thread_ok (entries c) (objects c) (mkThread (th_call th) p) →
  cache_ok (set_place t p (set_state id (Ready program pool') c)).
Proof.
  intros Hok Ht Hid H0 H4 Hsum Hother Hb Hnew. pose proof Hok as [Hm Hs Hids Hst Hth Hbu].
  pose proof (lookup_lt_Some _ _ _ Hid) as Hlt.
  apply cache_ok_step with c t th p;
    rewrite ?set_place_entries, ?set_place_objects, ?set_state_entries, ?(set_state_objects _ _ _ _ _ Hid);
    try (rewrite (set_place_threads _ _ _ th) by (by rewrite set_state_threads); rewrite set_state_threads); auto.
  - by eapply ids_insert.
  - intros i e [(<- & <- & _)|[Hne Hi]]%list_lookup_insert_Some.
    + destruct (Hst _ _ Hid) as (Hc & Hi0 & Hi1 & Hi2). unfold state_ok. cbn [e_state e_source] in *.
      rewrite (workers_held_insert _ _ _ _ _ Ht). split; [done|lia].
    + eapply state_ok_same; eauto.
  - by eapply thread_ok_pool.
  - intros t' th' _ _. by eapply thread_ok_pool.
  - intros i t' th' _ _ B. by rewrite Hb in B.
Qed.

(** ** Preservation *)

Lemma refused_answer call e :
  within_fuel call → compile (ca_source call) = Err (Refused e) → reference_answer call = Err (NativeFailed (Source e)).
Proof.
  unfold within_fuel, reference_answer, reference_execute. intros Hf Hc. rewrite Hc.
  destruct (ca_operation call) as [| |i c fuel]; try done. by rewrite (proj2 (Z.ltb_ge _ _) Hf).
Qed.

Lemma local_agrees {A : Type} (reference : result A NativeFailure) e :
  is_local e = true → agrees_with reference (Err (NativeFailed e)).
Proof. right. eauto. Qed.

Lemma failure_agrees call e :
  within_fuel call → failure_ok (ca_source call) e → agrees_with (reference_answer call) (Err (NativeFailed e)).
Proof. intros Hf [Hl|(x & -> & Hc)]; [by apply local_agrees|]. left. symmetry. by apply refused_answer. Qed.

Lemma filter_none {A : Type} (f : A → bool) (xs : list A) (i : nat) (x : A) :
  len (List.filter f xs) = 0 → xs !! i = Some x → f x = false.
Proof.
  intros Hl%len_zero_iff Hi. apply not_true_is_false. intros Hf.
  assert (x ∈ List.filter f xs) as Hx by (apply list_elem_of_In, filter_In; split; [by eapply list_elem_of_In, list_elem_of_lookup_2|done]).
  rewrite Hl in Hx. by apply elem_of_nil in Hx.
Qed.

Lemma evictable_unheld c id t th :
  evictable c id = true → threads c !! t = Some th → holds_entry id th = false ∧ holds_artifact id th = false.
Proof.
  unfold evictable, entry_count, artifact_count. intros He Ht. apply andb_true_iff in He as [Hn%Z.eqb_eq He].
  destruct (objects c !! id) as [[source [|program pool|e]]|]; try done. bool_props.
  split; eapply filter_none; eauto; lia.
Qed.

Lemma find_victim_in c es source : find_victim c es = Some source → ∃ id, (source, id) ∈ es ∧ evictable c id = true.
Proof.
  induction es as [|[s i] es IH]; cbn; [done|]. destruct (evictable c i) eqn:He.
  - intros [= ->]. exists i. split; [left|done].
  - intros (id & Hin & Hid)%IH. exists id. split; [by right|done].
Qed.

(** A thread relies on the binding of its entry, unless it only waits for a failed one. *)
Definition relies (os : list CacheEntry) (id : nat) (th : Thread) : Prop :=
  holds_artifact id th = true ∨ builds id th = true
  ∨ holds_entry id th = true ∧ ∀ source e, os !! id ≠ Some (mkEntry source (PreparationFailed e)).

Lemma thread_ok_entries es es' os th :
  (∀ id, relies os id th → bt_get (ca_source (th_call th)) es = Some id → bt_get (ca_source (th_call th)) es' = Some id) →
  thread_ok es os th → thread_ok es' os th.
Proof.
  intros Hk. unfold relies, holds_artifact, holds_entry, builds, thread_ok, uses in *.
  destruct (th_place th) as [|i|i e|i|i|i|i|i|i w r|r]; try done.
  - intros (Hf & Hi & Hg). split_and!; auto. apply Hk; [|done]. right. left. by apply bool_decide_true.
  - intros (Hf & Hi & Hg). split_and!; auto. apply Hk; [|done]. right. left. by apply bool_decide_true.
  - intros (Hf & s & Hi & Hg). split; [done|]. exists s. split; [done|]. intros Hs. apply Hk; [|auto].
    right. right. split; [by apply bool_decide_true|]. intros source e. rewrite Hi. intros [= _ ->]. by apply (Hs e).
  - intros (He & Hi & Hg). split_and!; auto. apply Hk; [|done]. left. by apply bool_decide_true.
  - intros (He & Hi & Hg). split_and!; auto. apply Hk; [|done]. left. by apply bool_decide_true.
  - intros (He & Hi & Hg). split_and!; auto. apply Hk; [|done]. left. by apply bool_decide_true.
  - intros (He & Hi & Hg). split_and!; auto. apply Hk; [|done]. left. by apply bool_decide_true.
  - intros ((He & Hi & Hg) & Ha). split_and!; auto. apply Hk; [|done]. left. by apply bool_decide_true.
Qed.

Lemma builds_holds id th : builds id th = true → holds_entry id th = true.
Proof. unfold builds, holds_entry. by destruct (th_place th). Qed.

Lemma len_remove (es : BTreeMap bytes nat) source id :
  bt_get source es = Some id → len (bt_remove source es) = len es - 1.
Proof. intros Hg. unfold len. rewrite (Permutation_length (bt_remove_perm _ _ _ Hg)). cbn [length]. lia. Qed.

Lemma bt_get_remove_some (es : BTreeMap bytes nat) source source' id :
  bt_ok es → bt_get source (bt_remove source' es) = Some id → source ≠ source' ∧ bt_get source es = Some id.
Proof.
  intros Hok. destruct (decide (source = source')) as [->|Hne]; [by rewrite bt_get_remove_eq|].
  by rewrite bt_get_remove_ne.
Qed.

(** Making room keeps every binding that a thread relies on. *)
Lemma make_room_ok c c' :
  cache_ok c → make_room c = Ok c' →
  ∃ es, c' = set_entries es c ∧ bt_ok es ∧ len es < MAX_NATIVE_CACHE_ENTRIES
    ∧ (∀ source id, bt_get source es = Some id → bt_get source (entries c) = Some id)
    ∧ (∀ t th, threads c !! t = Some th → thread_ok (entries c) (objects c) th → thread_ok es (objects c) th).
Proof.
  intros Hok Hr. unfold make_room in Hr. destruct (Z.leb_spec MAX_NATIVE_CACHE_ENTRIES (len (entries c))).
  2:{ simplify_eq. exists (entries c'). split_and!; auto using ok_map; by destruct c'. }
  bind_inv Hr. apply ok_or_ok in E as (id & Hin & He)%find_victim_in.
  apply bt_in_get in Hin; [|by apply ok_map]. simplify_eq.
  pose proof (ok_size _ Hok). pose proof (ok_map _ Hok) as Hm.
  eexists. split; [done|]. split; [by apply bt_ok_remove|]. split; [rewrite (len_remove _ _ _ Hin); lia|]. split.
  - intros source i Hg. by apply bt_get_remove_some in Hg as [_ Hg].
  - intros t th Ht. apply thread_ok_entries. intros i Hrel Hg.
    destruct (decide (ca_source (th_call th) = a)) as [Heq|Hne]; [|by rewrite bt_get_remove_ne].
    rewrite Heq, Hin in Hg. simplify_eq. destruct (evictable_unheld _ _ _ _ He Ht) as [Hu1 Hu2].
    destruct Hrel as [Hx|[Hx%builds_holds|[Hx _]]]; congruence.
Qed.

Lemma thread_ok_app es os os' th : thread_ok es os th → thread_ok es (os ++ os') th.
Proof.
  assert (∀ i e, os !! i = Some e → (os ++ os') !! i = Some e) as Happ by (intros; by apply lookup_app_l_Some).
  unfold thread_ok, uses. destruct (th_place th); naive_solver.
Qed.

(** A thread that builds or waits refers to an existing entry. *)
Lemma builds_object es os id th : thread_ok es os th → builds id th = true → (id < length os)%nat.
Proof.
  unfold thread_ok, builds. destruct (th_place th); try done; intros (_ & Hi & _) ->%bool_decide_eq_true;
    by eapply lookup_lt_Some.
Qed.

Lemma push_ok c es t th :
  cache_ok c → threads c !! t = Some th → th_place th = Calling → within_fuel (th_call th) →
  bt_ok es → len es < MAX_NATIVE_CACHE_ENTRIES → bt_get (ca_source (th_call th)) es = None →
  (∀ source id, bt_get source es = Some id → bt_get source (entries c) = Some id) →
  (∀ t th, threads c !! t = Some th → thread_ok (entries c) (objects c) th → thread_ok es (objects c) th) →
  cache_ok (set_place t (Building (length (objects c))) (push_entry (ca_source (th_call th)) (set_entries es c))).
Proof.
  intros Hok Ht Hp Hf Hm Hl Hfresh Hids Hths. set (source := ca_source (th_call th)) in *.
  apply cache_ok_step with c t th (Building (length (objects c)));
    rewrite ?set_place_entries, ?set_place_objects; try rewrite (set_place_threads _ _ _ th) by done;
    cbn [push_entry set_entries entries objects threads]; auto.
  - by apply bt_ok_insert.
  - unfold len in *. rewrite (Permutation_length (bt_insert_fresh_perm _ _ _ Hfresh)). cbn [length]. lia.
  - intros s i. destruct (decide (s = source)) as [->|Hne].
    + rewrite bt_get_insert_eq. intros [= <-]. exists Pending. by rewrite lookup_app_r, Nat.sub_diag.
    + rewrite bt_get_insert_ne by done. intros (s' & Hs)%Hids%(ok_ids _ Hok). exists s'. by apply lookup_app_l_Some.
  - intros i e [He|[_ He]]%lookup_app_Some; [|by apply list_lookup_singleton_Some in He as [_ <-]].
    eapply state_ok_same; [done| |by apply (ok_states _ Hok)]. unfold holds_worker. by rewrite Hp.
  - split; [done|]. split; [by rewrite lookup_app_r, Nat.sub_diag|by apply bt_get_insert_eq].
  - intros t' th' _ Ht' Hok'. apply thread_ok_app. eapply thread_ok_entries, Hths; [|done..].
    intros i _ Hg. rewrite bt_get_insert_ne; [done|]. intros Heq. by rewrite Heq, Hfresh in Hg.
  - intros i t' th' Hne Ht' <-%bool_decide_eq_true. apply not_true_is_false. intros B.
    destruct (ok_threads _ Hok _ _ Ht') as [_ Hth]. pose proof (builds_object _ _ _ _ Hth B). lia.
Qed.

(** A thread without a worker moves to a place without one. *)
Lemma cache_ok_quiet c t th p :
  cache_ok c → threads c !! t = Some th → (∀ id, holds_worker id th = false) →
  (∀ id, holds_worker id (mkThread (th_call th) p) = false) → (∀ id, builds id (mkThread (th_call th) p) = false) →
  thread_ok (entries c) (objects c) (mkThread (th_call th) p) → cache_ok (set_place t p c).
Proof.
  intros Hok Ht Hh Hp Hb. apply cache_ok_move; try done; intros id; [by rewrite Hp, Hh|by rewrite Hb].
Qed.

Lemma no_worker th : match th_place th with Spawning _ | Serving _ | Returning _ _ _ => False | _ => True end →
  ∀ id, holds_worker id th = false.
Proof. unfold holds_worker. by destruct (th_place th). Qed.

Lemma reserve_ok c t th :
  cache_ok c → threads c !! t = Some th → th_place th = Calling → within_fuel (th_call th) →
  cache_ok (reserve_artifact t (ca_source (th_call th)) c).
Proof.
  intros Hok Ht Hp Hf. unfold reserve_artifact. pose proof (no_worker th ltac:(by rewrite Hp)) as Hh.
  destruct (bt_get (ca_source (th_call th)) (entries c)) as [id|] eqn:Hg.
  - eapply cache_ok_quiet; eauto. destruct (ok_ids _ Hok _ _ Hg) as [s Hs]. split; [done|]. exists s. by split.
  - destruct (make_room c) as [c'|e] eqn:Hr.
    + destruct (make_room_ok _ _ Hok Hr) as (es & -> & Hm & Hl & Hids & Hths). cbn [set_entries objects].
      apply push_ok; auto. destruct (bt_get (ca_source (th_call th)) es) as [i|] eqn:He; [|done].
      by rewrite (Hids _ _ He) in Hg.
    + eapply cache_ok_quiet; eauto. apply local_agrees. unfold make_room in Hr. case_match; [|done].
      destruct (find_victim c (entries c)); by simplify_eq/=.
Qed.

Lemma call_step_ok c t th :
  cache_ok c → threads c !! t = Some th → th_place th = Calling → cache_ok (call_step t (th_call th) c).
Proof.
  intros Hok Ht Hp. unfold call_step. pose proof (no_worker th ltac:(by rewrite Hp)) as Hh.
  assert (within_fuel (th_call th)
    ∨ ∃ i c' fuel, ca_operation (th_call th) = ExecuteContract i c' fuel ∧ MAX_NATIVE_FUEL < fuel) as [Hf|(i & c' & fuel & Hop & Hf)].
  { unfold within_fuel. destruct (ca_operation (th_call th)) as [| |i c' fuel]; auto.
    destruct (Z.le_gt_cases fuel MAX_NATIVE_FUEL); [by left|right; exists i, c', fuel; by split; [|lia]]. }
  - assert (match ca_operation (th_call th) with ExecuteContract _ _ fuel => MAX_NATIVE_FUEL <? fuel | _ => false end = false) as ->.
    { unfold within_fuel in Hf. destruct (ca_operation (th_call th)); [done..|]. by apply Z.ltb_ge. }
    destruct (Z.ltb_spec MAX_SOURCE_BYTES (len (ca_source (th_call th)))) as [Hl|_]; [|by apply reserve_ok].
    pose proof (compile_orderly (ca_source (th_call th))) as Ho.
    destruct (compile (ca_source (th_call th))) as [program|[e| |]] eqn:Hc; [|..|done|done].
    + pose proof (compile_length _ _ Hc). lia.
    + eapply cache_ok_quiet; eauto. left. symmetry. by apply refused_answer.
  - rewrite Hop, (proj2 (Z.ltb_lt _ _) Hf). eapply cache_ok_quiet; eauto. left. cbn.
    unfold reference_answer, reference_execute. by rewrite Hop, (proj2 (Z.ltb_lt _ _) Hf).
Qed.

Lemma delivered_ok es os id program pool call ch :
  within_fuel call → os !! id = Some (mkEntry (ca_source call) (Ready program pool)) →
  bt_get (ca_source call) es = Some id → compile (ca_source call) = Ok program →
  thread_ok es os (mkThread call (delivered id program call ch)).
Proof.
  unfold delivered, within_fuel. intros Hf Hi Hg Hc. destruct (ca_operation call) as [| |input c fuel] eqn:Hop; cbn.
  1,2: left; unfold reference_answer; by rewrite Hop, Hc.
  destruct (ch_valid ch); cbn; [|by apply local_agrees]. split; [eauto 6|]. split; [eauto|done].
Qed.

Lemma delivered_quiet id program call ch i :
  holds_worker i (mkThread call (delivered id program call ch)) = false
  ∧ builds i (mkThread call (delivered id program call ch)) = false.
Proof. unfold delivered. destruct (ca_operation call), (ch_valid ch); by split. Qed.

(** The end of a build concerns only those who wait for it. *)
Lemma thread_ok_settle es os id source s th :
  os !! id = Some (mkEntry source Pending) → builds id th = false →
  thread_ok es os th → thread_ok es (<[id := mkEntry source s]> os) th.
Proof.
  intros Hid Hb. pose proof (lookup_lt_Some _ _ _ Hid) as Hlt.
  assert (∀ i call, uses es os i call → uses es (<[id := mkEntry source s]> os) i call) as Hu.
  { intros i call (He & (pr & po & Hi) & Hg). split; [done|]. split; [|done]. exists pr, po.
    rewrite list_lookup_insert_ne; [done|]. intros ->. by rewrite Hid in Hi. }
  unfold thread_ok, builds in *. destruct (th_place th) as [|i|i e|i|i|i|i|i|i w r|r]; try done; try apply Hu.
  - apply bool_decide_eq_false in Hb. by rewrite list_lookup_insert_ne.
  - apply bool_decide_eq_false in Hb. by rewrite list_lookup_insert_ne.
  - intros (Hf & s' & Hi & Hg). split; [done|].
    destruct (decide (i = id)) as [->|Hne]; [|exists s'; by rewrite list_lookup_insert_ne].
    rewrite Hid in Hi. simplify_eq. exists s. rewrite list_lookup_insert_eq by done. split; [done|]. intros _. by apply Hg.
  - intros [Hi Ha]. split; [by apply Hu|done].
Qed.

Lemma uses_ready es os th id :
  thread_ok es os th → holds_worker id th = true → ∃ source program pool, os !! id = Some (mkEntry source (Ready program pool)).
Proof.
  unfold thread_ok, holds_worker, uses.
  destruct (th_place th); try done; intros Hok ->%bool_decide_eq_true; naive_solver.
Qed.

Lemma settle_ok c t th p id s :
  cache_ok c → threads c !! t = Some th → th_place th = Building id →
  (∀ i, holds_worker i (mkThread (th_call th) p) = false) →
  (∀ i, builds i (mkThread (th_call th) p) = true → i = id) →
  (∀ ths, workers_held ths id = 0 → state_ok ths id (mkEntry (ca_source (th_call th)) s)) →
  thread_ok (entries c) (<[id := mkEntry (ca_source (th_call th)) s]> (objects c)) (mkThread (th_call th) p) →
  cache_ok (set_place t p (set_state id s c)).
Proof.
  intros Hok Ht Hp Hh Hb Hs Hnew. pose proof Hok as [Hm Hl Hids Hst Hth Hbu].
  destruct (Hth _ _ Ht) as [_ Hpend]. unfold thread_ok in Hpend. rewrite Hp in Hpend. destruct Hpend as (_ & Hid & _).
  assert (∀ t' th', t' ≠ t → threads c !! t' = Some th' → builds id th' = false) as Hun.
  { intros t' th' Hne Ht'. apply not_true_is_false. intros B. apply Hne, (Hbu id t' t th' th); try done.
    unfold builds. rewrite Hp. by apply bool_decide_true. }
  apply cache_ok_step with c t th p;
    rewrite ?set_place_entries, ?set_place_objects, ?set_state_entries, ?(set_state_objects _ _ _ _ _ Hid);
    try (rewrite (set_place_threads _ _ _ th) by (by rewrite set_state_threads); rewrite set_state_threads); auto.
  - by eapply ids_insert.
  - intros i e [(<- & <- & _)|[Hne Hi]]%list_lookup_insert_Some.
    + apply Hs, workers_held_none. intros t' th' [(<- & <- & _)|[_ Ht']]%list_lookup_insert_Some; [done|].
      apply not_true_is_false. intros B. destruct (Hth _ _ Ht') as [_ Hok'].
      destruct (uses_ready _ _ _ _ Hok' B) as (? & ? & ? & Hr). by rewrite Hid in Hr.
    + eapply state_ok_same; eauto. rewrite Hh. unfold holds_worker. by rewrite Hp.
  - intros t' th' Hne Ht'. apply thread_ok_settle; eauto.
  - intros i t' th' Hne Ht' ->%Hb. eauto.
Qed.

Lemma cache_ok_counts c c' :
  entries c' = entries c → objects c' = objects c → threads c' = threads c → cache_ok c → cache_ok c'.
Proof. destruct c, c'; cbn. intros -> -> -> [? ? ? ? ? ?]. by split. Qed.

Lemma build_step_ok c t th id ch :
  cache_ok c → local_choice ch → threads c !! t = Some th → th_place th = Building id →
  cache_ok (build_step t id (th_call th) ch c).
Proof.
  intros Hok [Hlb _] Ht Hp. unfold build_step. pose proof (ok_threads _ Hok _ _ Ht) as [_ Hth].
  unfold thread_ok in Hth. rewrite Hp in Hth. destruct Hth as (Hf & Hid & Hg). pose proof (lookup_lt_Some _ _ _ Hid) as Hlt.
  pose proof (compile_orderly (ca_source (th_call th))) as Ho.
  assert (∀ e, failure_ok (ca_source (th_call th)) e →
    cache_ok (set_place t (Removing id e) (set_state id (PreparationFailed e) c))) as Hfail.
  { intros e He. eapply settle_ok; eauto; [by intros i <-%bool_decide_eq_true|].
    cbn. by rewrite list_lookup_insert_eq. }
  destruct (compile (ca_source (th_call th))) as [program|[e| |]] eqn:Hc; [|..|done|done].
  2:{ apply Hfail. right. eauto. }
  destruct (ch_build ch) as [[]|e] eqn:Hb; [|apply Hfail; left; eauto].
  eapply settle_ok; eauto; [by eapply cache_ok_counts; [..|exact Hok]|apply delivered_quiet| | |].
  - intros i B. by rewrite (proj2 (delivered_quiet _ _ _ _ _)) in B.
  - intros ths Hw. split; [done|]. cbn. rewrite Hw. unfold MAX_NATIVE_WORKERS_PER_ARTIFACT. lia.
  - eapply delivered_ok; eauto. cbn. by rewrite list_lookup_insert_eq.
Qed.

Lemma remove_step_ok c t th id e :
  cache_ok c → threads c !! t = Some th → th_place th = Removing id e → cache_ok (remove_step t (th_call th) e c).
Proof.
  intros Hok Ht Hp. unfold remove_step. pose proof Hok as [Hm Hl Hids Hst Hth Hbu].
  destruct (Hth _ _ Ht) as [_ Hr]. unfold thread_ok in Hr. rewrite Hp in Hr. destruct Hr as (Hf & Hid & Hg).
  apply cache_ok_step with c t th (Done (Err (NativeFailed e)));
    rewrite ?set_place_entries, ?set_place_objects; try rewrite (set_place_threads _ _ _ th) by done;
    cbn [set_entries entries objects threads]; auto.
  - by apply bt_ok_remove.
  - rewrite (len_remove _ _ _ Hg). lia.
  - intros source i Hi. apply bt_get_remove_some in Hi as [_ Hi]; auto.
  - intros i x Hi. eapply state_ok_same; eauto. unfold holds_worker. by rewrite Hp.
  - apply failure_agrees; [done|]. exact (Hst _ _ Hid).
  - intros t' th' Hne Ht'. apply thread_ok_entries. intros i Hrel Hgi. destruct (Hth _ _ Ht') as [_ Hok'].
    destruct (decide (ca_source (th_call th') = ca_source (th_call th))) as [Heq|Hns]; [|by rewrite bt_get_remove_ne].
    exfalso. rewrite Heq, Hg in Hgi. simplify_eq. destruct Hrel as [Ha|[B|[_ He]]].
    + unfold thread_ok, uses, holds_artifact in *. destruct (th_place th'); try done; apply bool_decide_eq_true in Ha; naive_solver.
    + apply Hne, (Hbu i t' t th' th); try done. unfold builds. rewrite Hp. by apply bool_decide_true.
    + by apply (He _ _ Hid).
  - by intros i t' th' _ _ B.
Qed.

Lemma prepare_step_ok c c' t th id ch :
  cache_ok c → threads c !! t = Some th → th_place th = Preparing id →
  prepare_step t id (th_call th) ch c = Some c' → cache_ok c'.
Proof.
  intros Hok Ht Hp. unfold prepare_step. pose proof (ok_threads _ Hok _ _ Ht) as [_ Hth].
  unfold thread_ok in Hth. rewrite Hp in Hth. destruct Hth as (Hf & s & Hid & Hg). rewrite Hid. cbn.
  pose proof (ok_states _ Hok _ _ Hid) as Hs. pose proof (no_worker th ltac:(by rewrite Hp)) as Hh.
  destruct (ch_wait_valid ch); cbn; [|intros [= <-]; eapply cache_ok_quiet; eauto; by apply local_agrees].
  destruct s as [|program pool|e].
  - destruct (ch_late ch); [|done]. intros [= <-]. eapply cache_ok_quiet; eauto. by apply local_agrees.
  - intros [= <-]. eapply cache_ok_quiet; eauto; [apply delivered_quiet..|].
    destruct Hs as [Hc _]. eapply delivered_ok; eauto.
  - intros [= <-]. eapply cache_ok_quiet; eauto. by apply failure_agrees.
Qed.

(** The artifact of a thread in [execute_contract]. *)
Lemma uses_pool c id th :
  cache_ok c → uses (entries c) (objects c) id (th_call th) →
  ∃ program pool, objects c !! id = Some (mkEntry (ca_source (th_call th)) (Ready program pool))
    ∧ state_ok (threads c) id (mkEntry (ca_source (th_call th)) (Ready program pool)).
Proof. intros Hok (_ & (program & pool & Hid) & _). exists program, pool. split; [done|]. by apply (ok_states _ Hok). Qed.

Lemma at_most_one id th : holds_worker id th = true → ∀ i, i ≠ id → holds_worker i th = false.
Proof.
  unfold holds_worker. intros B i Hne. destruct (th_place th); try done;
    apply bool_decide_eq_true in B; apply bool_decide_false; congruence.
Qed.

Lemma acquire_step_ok c c' t th id ch :
  cache_ok c → threads c !! t = Some th → th_place th = Acquiring id →
  acquire_step t id ch c = Some c' → cache_ok c'.
Proof.
  intros Hok Ht Hp. unfold acquire_step, with_pool. pose proof (ok_threads _ Hok _ _ Ht) as [_ Hu].
  unfold thread_ok in Hu. rewrite Hp in Hu. destruct (uses_pool _ _ _ Hok Hu) as (program & pool & Hid & Hc & Hi & Hsum & H4).
  rewrite Hid. cbn [mbind option_bind e_state]. cbn [e_state e_source] in *.
  pose proof (no_worker th ltac:(by rewrite Hp)) as Hh. pose proof (workers_held_nonneg (threads c) id) as Hw.
  assert (∀ p, holds_worker id (mkThread (th_call th) p) = true → ∀ i, i ≠ id →
    holds_worker i (mkThread (th_call th) p) = holds_worker i th) as Hother.
  { intros p B i Hne. rewrite Hh. by eapply at_most_one. }
  assert (∀ p, p = Serving id ∨ p = Spawning id → holds_worker id (mkThread (th_call th) p) = true) as Hb.
  { intros p [->| ->]; by apply bool_decide_true. }
  intros [= <-]. destruct (Z.ltb_spec 0 (idle pool)); [|destruct (Z.ltb_spec (total pool) MAX_NATIVE_WORKERS_PER_ARTIFACT)].
  - eapply cache_ok_pool; eauto; cbn [idle total]; rewrite ?Hh, ?Hb by auto; cbn [flag]; lia.
  - eapply cache_ok_pool; eauto; cbn [idle total]; rewrite ?Hh, ?Hb by auto; cbn [flag]; lia.
  - destruct (ch_late ch); eapply cache_ok_quiet; eauto. by apply local_agrees.
Qed.

Lemma await_step_ok c t th id ch :
  cache_ok c → threads c !! t = Some th → th_place th = Awaiting id → cache_ok (await_step t id ch c).
Proof.
  intros Hok Ht Hp. unfold await_step. pose proof (ok_threads _ Hok _ _ Ht) as [_ Hu].
  unfold thread_ok in Hu. rewrite Hp in Hu. pose proof (no_worker th ltac:(by rewrite Hp)) as Hh.
  destruct (ch_late ch); eapply cache_ok_quiet; eauto. by apply local_agrees.
Qed.

(** A pool of which a thread holds a worker has one to give up. *)
Lemma held_total c t th id program pool :
  cache_ok c → threads c !! t = Some th → holds_worker id th = true →
  state_ok (threads c) id (mkEntry (ca_source (th_call th)) (Ready program pool)) → idle pool < total pool.
Proof.
  intros _ Ht B (_ & Hi & Hsum & _). cbn in *.
  pose proof (workers_held_insert _ _ _ (mkThread (th_call th) Calling) id Ht) as Hw. rewrite B in Hw. cbn [flag] in Hw.
  pose proof (workers_held_nonneg (<[t := mkThread (th_call th) Calling]> (threads c)) id). cbn in Hw. lia.
Qed.

(** A thread lets go of its worker: back to the pool, or retired. *)
Lemma release_ok c t th id program pool pool' p :
  cache_ok c → threads c !! t = Some th → holds_worker id th = true →
  objects c !! id = Some (mkEntry (ca_source (th_call th)) (Ready program pool)) →
  state_ok (threads c) id (mkEntry (ca_source (th_call th)) (Ready program pool)) →
  pool' = mkPool (idle pool + 1) (total pool) ∨ pool' = mkPool (idle pool) (total pool - 1) →
  (∀ i, holds_worker i (mkThread (th_call th) p) = false) → (∀ i, builds i (mkThread (th_call th) p) = false) →
  thread_ok (entries c) (objects c) (mkThread (th_call th) p) →
  cache_ok (set_place t p (set_state id (Ready program pool') c)).
Proof.
  intros Hok Ht B Hid Hs Hpool Hh Hb Hnew. pose proof (held_total _ _ _ _ _ _ Hok Ht B Hs) as Hlt.
  destruct Hs as (_ & Hi & Hsum & H4). cbn in *.
  eapply cache_ok_pool; eauto; try (rewrite Hh, B; cbn [flag]); try (destruct Hpool as [-> | ->]; cbn; lia).
  intros i Hne. rewrite Hh. symmetry. by eapply at_most_one.
Qed.

Lemma spawn_step_ok c c' t th id ch :
  cache_ok c → local_choice ch → threads c !! t = Some th → th_place th = Spawning id →
  spawn_step t id ch c = Some c' → cache_ok c'.
Proof.
  intros Hok [_ Hls] Ht Hp. unfold spawn_step, with_pool. pose proof (ok_threads _ Hok _ _ Ht) as [_ Hu].
  unfold thread_ok in Hu. rewrite Hp in Hu. destruct (uses_pool _ _ _ Hok Hu) as (program & pool & Hid & Hs).
  assert (holds_worker id th = true) as B by (unfold holds_worker; rewrite Hp; by apply bool_decide_true).
  pose proof (held_total _ _ _ _ _ _ Hok Ht B Hs) as Hlt.
  destruct (ch_spawn ch) as [[]|e] eqn:He; [|rewrite Hid; cbn [mbind option_bind e_state]]; intros [= <-].
  - apply (cache_ok_move (count_worker c) t th); try done; [by eapply cache_ok_counts; [..|exact Hok]|].
    intros i. unfold holds_worker. by rewrite Hp.
  - unfold retire. pose proof Hs as (_ & Hi & _). cbn in Hi. rewrite (proj2 (Z.ltb_lt _ _)) by lia.
    eapply release_ok; eauto. apply local_agrees. eauto.
Qed.

Lemma agrees_executed call input c fuel r :
  ca_operation call = ExecuteContract input c fuel →
  agrees_with (reference_execute (ca_source call) input c fuel) r →
  agrees_with (reference_answer call) (let? e := r in Ok (Executed e)).
Proof.
  intros Hop [-> |(e & -> & He)]; [left|by apply local_agrees]. unfold reference_answer. by rewrite Hop.
Qed.

Lemma serve_step_ok c c' t th id ch :
  cache_ok c → threads c !! t = Some th → th_place th = Serving id →
  serve_step t id (th_call th) ch c = Some c' → cache_ok c'.
Proof.
  intros Hok Ht Hp. unfold serve_step, with_pool. pose proof (ok_threads _ Hok _ _ Ht) as [Hty Hu].
  unfold thread_ok in Hu. rewrite Hp in Hu. destruct (uses_pool _ _ _ Hok Hu) as (program & pool & Hid & Hc & _).
  unfold typed_operation in Hty. destruct (ca_operation (th_call th)) as [| |input context fuel] eqn:Hop; [done..|].
  rewrite Hid. cbn [mbind option_bind e_state]. intros [= <-].
  set (run := if ch_late ch then _ else _).
  assert (agrees_with (reference_answer (th_call th)) (let? e := run.2 in Ok (Executed e))) as Ha.
  { eapply agrees_executed; [done|]. unfold run. destruct (ch_late ch); [by apply local_agrees|]. by apply native_agrees. }
  destruct run as [worker r]. apply (cache_ok_move (count_execution c) t th); try done; [by eapply cache_ok_counts; [..|exact Hok]|].
  intros i. unfold holds_worker. by rewrite Hp.
Qed.

Lemma return_step_ok c c' t th id worker r :
  cache_ok c → threads c !! t = Some th → th_place th = Returning id worker r →
  return_step t id worker r c = Some c' → cache_ok c'.
Proof.
  intros Hok Ht Hp. unfold return_step, with_pool. pose proof (ok_threads _ Hok _ _ Ht) as [_ Hu].
  unfold thread_ok in Hu. rewrite Hp in Hu. destruct Hu as [Hu Ha].
  destruct (uses_pool _ _ _ Hok Hu) as (program & pool & Hid & Hs).
  assert (holds_worker id th = true) as B by (unfold holds_worker; rewrite Hp; by apply bool_decide_true).
  pose proof (held_total _ _ _ _ _ _ Hok Ht B Hs) as Hlt. pose proof Hs as (_ & Hi & _). cbn in Hi.
  rewrite Hid. cbn [mbind option_bind e_state]. intros [= <-].
  destruct worker; [eapply release_ok; eauto|]. unfold retire. rewrite (proj2 (Z.ltb_lt _ _)) by lia. eapply release_ok; eauto.
Qed.

Lemma advance_ok c c' t ch : cache_ok c → local_choice ch → thread_step t ch c = Some c' → cache_ok c'.
Proof.
  intros Hok Hl. unfold thread_step. destruct (threads c !! t) as [th|] eqn:Ht; [|done]. cbn [mbind option_bind].
  destruct (th_place th) eqn:Hp.
  - intros [= <-]. by eapply call_step_ok.
  - intros [= <-]. by eapply build_step_ok.
  - intros [= <-]. by eapply remove_step_ok.
  - by eapply prepare_step_ok.
  - by eapply acquire_step_ok.
  - intros [= <-]. by eapply await_step_ok.
  - by eapply spawn_step_ok.
  - by eapply serve_step_ok.
  - by eapply return_step_ok.
  - done.
Qed.

Lemma new_ok calls : Forall typed_operation calls → cache_ok (cache_new calls).
Proof.
  intros Hty. assert (∀ t th, threads (cache_new calls) !! t = Some th → typed_operation (th_call th) ∧ th_place th = Calling) as Hth.
  { intros t th (call & -> & Hc)%list_lookup_fmap_Some. split; [|done]. by eapply (Forall_lookup_1 _ _ _ _ Hty). }
  split; cbn [cache_new entries objects]; try done; [apply bt_ok_nil| |].
  - intros t th [Ht Hp]%Hth. split; [done|]. unfold thread_ok. by rewrite Hp.
  - intros id t t' th th' [_ Hp]%Hth _ B. unfold builds in B. by rewrite Hp in B.
Qed.

Lemma interleave_ok s c c' :
  Forall (λ step, local_choice step.2) s → cache_ok c → interleave s c = Some c' → cache_ok c'.
Proof.
  intros Hs. revert c. induction Hs as [|[t ch] s Hl Hs IH]; intros c Hok; cbn; [by intros [= <-]|].
  destruct (thread_step t ch c) as [c1|] eqn:Ha; [|done]. cbn. apply IH. by eapply advance_ok.
Qed.

Lemma reference_never_panics call : typed_operation call → reference_answer call ≠ Err NativePanic.
Proof.
  unfold typed_operation, reference_answer, reference_execute. pose proof (compile_orderly (ca_source call)) as Ho.
  destruct (compile (ca_source call)) as [program|[e| |]] eqn:Hc; [|..|done|done].
  - destruct (ca_operation call) as [| |input c fuel]; [done..|]. intros Ht. destruct (MAX_NATIVE_FUEL <? fuel); [done|].
    destruct (compiled_answers _ _ input c fuel Hc Ht) as (r & -> & _). by destruct r.
  - destruct (ca_operation call); [done..|]. by destruct (MAX_NATIVE_FUEL <? _).
Qed.

(** The workers of the artifact under a binding. *)
Definition workers_of (c : NativeArtifactCache) (id : nat) : Z :=
  match objects c !! id with Some (mkEntry _ (Ready _ pool)) => total pool | _ => 0 end.

Lemma workers_of_bound c id : cache_ok c → workers_of c id <= MAX_NATIVE_WORKERS_PER_ARTIFACT.
Proof.
  intros Hok. unfold workers_of. destruct (objects c !! id) as [[source [|program pool|e]]|] eqn:Hi; try done.
  by destruct (ok_states _ Hok _ _ Hi) as (_ & _ & _ & H4).
Qed.

Lemma sum_bound {A : Type} (f : A → Z) (b : Z) (xs : list A) : (∀ x, f x <= b) → sumZ f xs <= b * len xs.
Proof. intros Hf. induction xs as [|x xs IH]; cbn [sumZ]; [unfold len; cbn; lia|]. rewrite len_cons. specialize (Hf x). lia. Qed.
End invariant.

(** ** Shared artifacts *)

(** C31: Native execution cannot make nodes disagree.  Whatever the interleaving of the
    threads, whatever builds, worker starts and clocks do and whatever bytes the native
    workers answer, a call of the cache that returns has not panicked, and it returns what
    every node computes from the source and the arguments with the compiler and the
    reference evaluator, or an error that marks a failure of this machine. *)
Theorem native_results_agree `{!Blake2s} calls s c t call r :
  Forall typed_operation calls → Forall (λ step, local_choice step.2) s →
  interleave s (cache_new calls) = Some c → threads c !! t = Some (mkThread call (Done r)) →
  agrees_with (reference_answer call) r ∧ r ≠ Err NativePanic.
Proof.
  intros Hty Hs Hi Ht. destruct (ok_threads _ (interleave_ok _ _ _ Hs (new_ok _ Hty) Hi) _ _ Ht) as [Hop Ha]. split; [done|].
  destruct Ha as [-> |(e & -> & He)]; [by apply reference_never_panics|]. by intros [= ->].
Qed.

(** C32: The cache stays within its bounds under every interleaving: at most 16 entries and
    64 workers in all; a ready artifact holds the program its source compiles to, its
    workers are the idle ones and those that threads hold, never more than four; and an
    artifact is not evicted while a thread has one of its workers. *)
Theorem native_cache_bounds `{!Blake2s} calls s c :
  Forall typed_operation calls → Forall (λ step, local_choice step.2) s →
  interleave s (cache_new calls) = Some c →
  len (entries c) <= 16
  ∧ sumZ (λ e, workers_of c e.2) (entries c) <= 64
  ∧ (∀ source id program pool, objects c !! id = Some (mkEntry source (Ready program pool)) →
       compile source = Ok program ∧ 0 <= idle pool ∧ idle pool + workers_held (threads c) id = total pool ∧ total pool <= 4)
  ∧ (∀ t th id, threads c !! t = Some th → holds_worker id th = true → bt_get (ca_source (th_call th)) (entries c) = Some id).
Proof.
  intros Hty Hs Hi. pose proof (interleave_ok _ _ _ Hs (new_ok _ Hty) Hi) as Hok. pose proof (ok_size _ Hok) as H16.
  split; [done|]. split; [|split].
  - pose proof (sum_bound (λ e, workers_of c e.2) _ (entries c) (λ e, workers_of_bound c e.2 Hok)) as Hsum.
    unfold MAX_NATIVE_WORKERS_PER_ARTIFACT, MAX_NATIVE_CACHE_ENTRIES in *. lia.
  - intros source id program pool Hid. exact (ok_states _ Hok _ _ Hid).
  - intros t th id Ht B. destruct (ok_threads _ Hok _ _ Ht) as [_ Hth]. unfold thread_ok, holds_worker, uses in *.
    destruct (th_place th); try done; apply bool_decide_eq_true in B; naive_solver.
Qed.

(** ** A run of two threads *)

(** The frame in which a worker answers with the result of the counter. *)
Definition counter_response : bytes :=
  words ([0; 42; 47; 2] ++ [42; 1; 1] ++ repeat 0 (3 * 1023) ++ [1; 7; 0; 7] ++ repeat 0 508).

Definition answering (bs : bytes) : Choice :=
  mkChoice (Ok tt) (Ok tt) true true false (mkSurroundings NANOSECONDS true (Responded bs) (λ _, false) false).

Definition counter_call : Call := mkCall counter_source (ExecuteContract 2 counter_context 100).

(** Both threads ask for the counter: the first builds it while the second waits, the
    second starts another worker, and that worker answers with a wrong frame. *)
Definition counter_schedule : schedule :=
  map (λ t, (t, answering counter_response)) [0; 1; 0; 1; 0; 1; 1; 0; 0]%nat
  ++ [(1%nat, answering (words (repeat 0 3588))); (1%nat, answering [])].

Definition counter_end : NativeArtifactCache :=
  default (cache_new []) (interleave (H := checksum_blake2s) counter_schedule (cache_new [counter_call; counter_call])).

Lemma counter_calls : Forall typed_operation [counter_call; counter_call].
Proof. repeat (apply Forall_cons; split; [exact counter_typed|]). by apply Forall_nil. Qed.

Lemma counter_local : Forall (λ step, local_choice step.2) counter_schedule.
Proof. by repeat constructor. Qed.

Lemma native_results_agree_witness :
  interleave (H := checksum_blake2s) counter_schedule (cache_new [counter_call; counter_call]) = Some counter_end
  ∧ map th_place (threads counter_end) = [Done (Ok (Executed counter_result)); Done (Err (NativeFailed Divergence))]
  ∧ agrees_with (reference_answer (H := checksum_blake2s) counter_call) (Ok (Executed counter_result)).
Proof.
  assert (interleave (H := checksum_blake2s) counter_schedule (cache_new [counter_call; counter_call]) = Some counter_end) as Hi
    by (vm_compute; reflexivity).
  split; [exact Hi|]. split; [vm_compute; reflexivity|].
  apply (native_results_agree (H := checksum_blake2s) [counter_call; counter_call] counter_schedule counter_end 0).
  - exact counter_calls.
  - exact counter_local.
  - exact Hi.
  - vm_compute. reflexivity.
Defined.

Lemma native_cache_bounds_witness :
  len (entries counter_end) <= 16 ∧ stats counter_end = (1, 1, 2, 2)
  ∧ sumZ (λ e, workers_of counter_end e.2) (entries counter_end) <= 64.
Proof.
  destruct (native_cache_bounds (H := checksum_blake2s) [counter_call; counter_call] counter_schedule counter_end)
    as (H16 & H64 & _).
  - exact counter_calls.
  - exact counter_local.
  - vm_compute. reflexivity.
  - split; [exact H16|]. split; [vm_compute; reflexivity|exact H64].
Defined.
