(* ===== verification/Contracts.v ===== *)
(** * Contracts: authenticated contract transitions
    ([src/crates/execution/src/{contract,signed}.rs])

    A contract transaction deploys or calls a contract and pays for what it used.  Native
    contracts run through the artifact cache of the node, whose answers are an interface
    here: every answer is the one each node computes, or a failure of this machine
    ([NativeCache] shows that the cache keeps this promise).  The engine of the historical
    WebAssembly contracts is an argument of the model, with the promise of its
    documentation that a call writes only keys it was authorized for. *)

From S2P Require Import Prelude Ordered Codec Types Crypto Trocto TroctoStateful TroctoRun TroctoProgram TroctoEffects Native NativeCache State StateTree Transactions Payments.

#[local] Arguments cmp : simpl never.

(** ** Engines *)

(** What the process-wide native cache answers during one transaction. *)
Class NativeCalls := {
  native_prepare : bytes → result unit NativeError;
  native_program : bytes → result Program NativeError;
  native_contract : bytes → Z → ContractContext → Z → result ContractExecution NativeError
}.

Inductive RuntimeError :=
| InvalidModule
| Unsupported
| RuntimeLimitExceeded
| RuntimeTrap.

Record WasmCall := mkWasmCall {
  wc_input : bytes;
  wc_caller : Address;
  wc_height : Z;
  wc_state : BTreeMap bytes bytes;
  wc_access : list bytes;
  wc_limits : Resources
}.

Record WasmOutput := mkWasmOutput {
  wo_return_data : bytes;
  wo_events : list (bytes * bytes);
  wo_writes : BTreeMap bytes (option bytes);
  wo_resources : Resources
}.

(** [ArtifactCache::validate] and [ArtifactCache::execute]: authorized keys for reads and
    writes, missing declarations trap; the charges are four [u64]. *)
Class WasmEngine := {
  wasm_validate : bytes → result unit RuntimeError;
  wasm_execute : bytes → WasmCall → result WasmOutput RuntimeError;
  wasm_authorized : ∀ code call output, wasm_execute code call = Ok output →
    ∀ key, key ∈ bt_keys (wo_writes output) → key ∈ wc_access call;
  wasm_resources : ∀ code call output, wasm_execute code call = Ok output → resources_ok (wo_resources output)
}.

Definition MAX_HOST_VALUE : Z := 64 * 1024.
Definition MAX_HOST_IO : Z := 1024 * 1024.

(** [genesis::runtime_key]. *)
Definition runtime_key : StateKey := lit "astrolune/runtime/v2".

Definition native_error (e : NativeError) : Payments.ExecutionError :=
  match e with
  | Source _ => InvalidContract
  | FuelLimit | Contract FuelExhausted | Contract EventLimit => ResourceLimit
  | Contract AccessDenied => UndeclaredStateAccess
  | Contract Overflow | Contract DivisionByZero | Contract Bounds => Trap
  | _ => NativeUnavailable
  end.

Definition runtime_error (e : RuntimeError) : Payments.ExecutionError :=
  match e with
  | InvalidModule | Unsupported => InvalidContract
  | RuntimeLimitExceeded => ResourceLimit
  | RuntimeTrap => Trap
  end.

Definition subtract (a b : Resources) : result Resources Payments.ExecutionError :=
  let? c := ok_or (checked_sub (compute a) (compute b)) ResourceLimit in
  let? m := ok_or (checked_sub (memory a) (memory b)) ResourceLimit in
  let? i := ok_or (checked_sub (io a) (io b)) ResourceLimit in
  let? n := ok_or (checked_sub (bandwidth a) (bandwidth b)) ResourceLimit in
  Ok (mkResources c m i n).

(** ** Effects *)

Record Effects := mkEffects {
  ef_diff : StateDiff;
  ef_actual : list AccessRequest;
  ef_resources : Resources;
  ef_result_bytes : bytes
}.

Definition contains (t : Transaction) (key : StateKey) : bool := bool_decide (key ∈ tx_access_list t).

Section contracts.
Context {blake : Blake2s} {ed : Ed25519} {native : NativeCalls} {wasm : WasmEngine}.

Definition change_of (key : StateKey) (value : option bytes) : StateChange :=
  match value with Some v => Put key v | None => Delete key end.

(** *** Native contracts *)

(** A declared slot of a native contract: its value, whether it was authorized, and the
    bytes it loaded.  [binary_search] looks in sorted keys. *)
Definition load_slot (view : StateView) (address : Address) (keys : list bytes) (local : bytes)
    : result (option Z * bool * Z) Payments.ExecutionError :=
  if bool_decide (local ∈ keys) then
    let? found := map_err StateFailed (view (trocto_contract_state_key address local)) in
    match found with
    | None => Ok (None, true, len local)
    | Some bs => if len bs =? 8 then Ok (Some (from_le bs), true, len local + 8) else Err InvalidContract
    end
  else Ok (None, false, 0).

Definition caller_words (sender : Address) : list Z := map (λ i, from_le (take 8 (drop (8 * i) sender))) (seq 0 4).

(** The changes of the slots that were written. *)
Definition staged_changes (address : Address) (keys : list bytes) (e : ContractExecution) : list StateChange :=
  flat_map (λ '(local, value, written), if (written : bool)
              then [change_of (trocto_contract_state_key address local) (le 8 <$> (value : option Z))] else [])
    (zip (zip keys (ce_state e)) (ce_writes e)).

Definition staged_io (keys : list bytes) (e : ContractExecution) : Z :=
  8 + 4 + len (ce_events e) * 16
  + sumZ (λ '(local, value, written), if (written : bool) then len local + (if bool_decide (is_Some (value : option Z)) then 8 else 0) else 0)
      (zip (zip keys (ce_state e)) (ce_writes e)).

Definition result_of (e : ContractExecution) : bytes :=
  le 8 (ce_value e) ++ encode_length (len (ce_events e))
  ++ flat_map (λ '(topic, value), le 8 topic ++ le 8 value) (ce_events e).

Definition stage_trocto_result (address : Address) (keys : list bytes) (e : ContractExecution)
    (actual : list AccessRequest) : result (StateDiff * list AccessRequest * bytes * Resources) Payments.ExecutionError :=
  if negb (len (ce_state e) =? len keys) || negb (len (ce_writes e) =? len keys) then Err NativeUnavailable
  else
    let changes := staged_changes address keys e in
    let io := staged_io keys e in
    Ok (mkDiff changes, actual ++ map (λ c, mkRequest (change_key c) WriteAccess) changes, result_of e,
        mkResources (ce_fuel_used e) io io 0).

Definition execute_trocto_call (view : StateView) (t : Transaction) (context : ValidationContext) (address : Address)
    (input : bytes) (keys : list bytes) (actual : list AccessRequest) : result Effects Payments.ExecutionError :=
  let? found := map_err StateFailed (view (trocto_contract_code_key address)) in
  let? code := ok_or found InvalidContract in
  let? _ := reject_if (negb (valid_utf8 code)) InvalidContract in
  let? program := map_err native_error (native_program code) in
  let? _ := reject_if (negb (forallb (λ local, contains t (trocto_contract_state_key address local)) keys))
              UndeclaredStateAccess in
  let context_keys := joined (state_keys program) keys in
  let? _ := reject_if (MAX_CONTRACT_KEYS <? len context_keys) ResourceLimit in
  let? slots := try_map (load_slot view address keys) context_keys in
  let state := map (λ s, s.1.1) slots in
  let access := map (λ s, s.1.2) slots in
  let loaded := sumZ snd slots in
  let logical_memory := len code + 32 + Z.of_nat (instruction_count program) * 8
                        + sumZ (λ local, len local + 16) context_keys in
  let actual := actual ++ map (λ local, mkRequest (trocto_contract_state_key address local) ReadAccess)
                            (List.filter (λ local, bool_decide (local ∈ keys)) context_keys) in
  let overhead := mkResources (100 + loaded) logical_memory (len code + 32 + loaded) (estimate_encoded_len t) in
  let? limits := subtract (tx_resource_limit t) overhead in
  let? _ := reject_if (negb (len input =? 8)) InvalidContract in
  let? e := map_err native_error
              (native_contract code (from_le input)
                 (mkContractContext (vc_next_height context) (caller_words (tx_sender t)) context_keys state access)
                 (compute limits)) in
  let? (diff, actual, result_bytes, charged) := stage_trocto_result address context_keys e actual in
  let? resources := ok_or (resources_checked_add overhead charged) ResourceLimit in
  Ok (mkEffects diff actual resources result_bytes).

Definition deployment_resources (code : bytes) (t : Transaction) : Resources :=
  mkResources (100 + len code) (len code + 32) (len code + 32) (estimate_encoded_len t).

Definition execute_trocto_deploy (view : StateView) (t : Transaction) (code : bytes)
    : result Effects Payments.ExecutionError :=
  let address := trocto_contract_address (tx_chain_id t) (tx_sender t) (tx_nonce t) in
  let code_key := trocto_contract_code_key address in
  let? _ := reject_if (negb (contains t code_key)) UndeclaredStateAccess in
  let? found := map_err StateFailed (view code_key) in
  let? _ := reject_if (bool_decide (is_Some found)) InvalidContract in
  let? _ := reject_if (negb (valid_utf8 code)) InvalidContract in
  let? _ := map_err (λ _, InvalidContract) (compile code) in
  let resources := deployment_resources code t in
  let? _ := subtract (tx_resource_limit t) resources in
  let? _ := map_err native_error (native_prepare code) in
  Ok (mkEffects (mkDiff [Put code_key code])
        [mkRequest (account_key (tx_sender t)) WriteAccess; mkRequest code_key WriteAccess] resources address).

(** Only committed profile 3 authorizes native source. *)
Definition native_enabled (view : StateView) : result unit Payments.ExecutionError :=
  let? profile := map_err StateFailed (view runtime_key) in
  reject_if (negb (bool_decide (profile = Some (le 4 3)))) (TransactionValidation UnsupportedPayload).

Definition execute_trocto_action (view : StateView) (t : Transaction) (context : ValidationContext)
    (action : ContractAction) : result Effects Payments.ExecutionError :=
  let? _ := native_enabled view in
  let? _ := reject_if (MAX_NATIVE_FUEL <? compute (tx_resource_limit t)) ResourceLimit in
  match action with
  | DeployTrocto code => execute_trocto_deploy view t code
  | CallTrocto address input keys =>
      let code_key := trocto_contract_code_key address in
      let? _ := reject_if (negb (contains t code_key)) UndeclaredStateAccess in
      execute_trocto_call view t context address input keys
        [mkRequest (account_key (tx_sender t)) WriteAccess; mkRequest code_key ReadAccess]
  | _ => Err InvalidContract
  end.

(** *** Historical contracts *)

(** The loop of [load_state]: the declared values and their size. *)
Fixpoint load_state (view : StateView) (t : Transaction) (address : Address) (keys : list bytes)
    (local : BTreeMap bytes bytes) (loaded : Z) : result (BTreeMap bytes bytes * Z) Payments.ExecutionError :=
  match keys with
  | [] => Ok (local, loaded)
  | key :: keys =>
      let global := contract_state_key address key in
      let? _ := reject_if (negb (contains t global)) UndeclaredStateAccess in
      let? found := map_err StateFailed (view global) in
      match found with
      | None => load_state view t address keys local loaded
      | Some value =>
          let? loaded := ok_or (checked_add 64 loaded (len value + len key)) ResourceLimit in
          let? _ := reject_if ((MAX_HOST_VALUE <? len value) || (MAX_HOST_IO <? loaded)) ResourceLimit in
          load_state view t address keys (bt_insert key value local) loaded
      end
  end.

Definition wasm_changes (address : Address) (output : WasmOutput) : list StateChange :=
  map (λ kv, change_of (contract_state_key address kv.1) kv.2) (wo_writes output).

Definition wasm_result (output : WasmOutput) : bytes :=
  encode_bytes (wo_return_data output) ++ encode_length (len (wo_events output))
  ++ flat_map (λ '(topic, data), topic ++ encode_bytes data) (wo_events output).

Definition execute_wasm_deploy (view : StateView) (t : Transaction) (code : bytes)
    : result Effects Payments.ExecutionError :=
  let address := contract_address (tx_chain_id t) (tx_sender t) (tx_nonce t) in
  let code_key := contract_code_key address in
  let? _ := reject_if (negb (contains t code_key)) UndeclaredStateAccess in
  let? found := map_err StateFailed (view code_key) in
  let? _ := reject_if (bool_decide (is_Some found)) InvalidContract in
  let? _ := map_err runtime_error (wasm_validate code) in
  Ok (mkEffects (mkDiff [Put code_key code])
        [mkRequest (account_key (tx_sender t)) WriteAccess; mkRequest code_key WriteAccess]
        (deployment_resources code t) address).

Definition execute_wasm_call (view : StateView) (t : Transaction) (context : ValidationContext) (address : Address)
    (input : bytes) (keys : list bytes) : result Effects Payments.ExecutionError :=
  let code_key := contract_code_key address in
  let? _ := reject_if (negb (contains t code_key)) UndeclaredStateAccess in
  let? found := map_err StateFailed (view code_key) in
  let? code := ok_or found InvalidContract in
  let? (local, loaded) := load_state view t address keys [] 0 in
  let overhead := mkResources (100 + loaded) 32 (len code + 32 + loaded) (estimate_encoded_len t) in
  let? limits := subtract (tx_resource_limit t) overhead in
  let? output := map_err runtime_error
                   (wasm_execute code (mkWasmCall input (tx_sender t) (vc_next_height context) local keys limits)) in
  let changes := wasm_changes address output in
  let? resources := ok_or (resources_checked_add overhead (wo_resources output)) ResourceLimit in
  Ok (mkEffects (mkDiff changes)
        ([mkRequest (account_key (tx_sender t)) WriteAccess; mkRequest code_key ReadAccess]
         ++ map (λ key, mkRequest (contract_state_key address key) ReadAccess) keys
         ++ map (λ c, mkRequest (change_key c) WriteAccess) changes)
        resources (wasm_result output)).

(** *** Transactions *)

Definition execute_action (view : StateView) (t : Transaction) (context : ValidationContext) (payload : ContractPayload)
    : result Effects Payments.ExecutionError :=
  match cp_action payload with
  | Deploy code => execute_wasm_deploy view t code
  | Call address input keys => execute_wasm_call view t context address input keys
  | action => execute_trocto_action view t context action
  end.

Definition result_domain (action : ContractAction) : bytes :=
  if native_action action then lit "astrolune.contract.result.v3" else lit "astrolune.contract.result.v2".

(** The sender pays for the resources and moves to the next nonce. *)
Definition charge_sender (sender : AccountState) (resources prices : Resources)
    : result AccountState Payments.ExecutionError :=
  let? fee := ok_or (checked_cost resources prices) ResourceLimit in
  let? next_nonce := ok_or (checked_add 64 (nonce sender) 1) (TransactionValidation InvalidNonce) in
  let? next_balance := ok_or (checked_sub (balance sender) fee) (TransactionValidation InsufficientResources) in
  Ok (mkAccount next_nonce next_balance).

Definition execute_contract (view : StateView) (t : Transaction) (context : ValidationContext)
    (capacity prices : Resources) : result TransactionOutput Payments.ExecutionError :=
  let? payload := map_err TransactionValidation (contract_decode (tx_payload t)) in
  let? found := map_err StateFailed (view_account view (tx_sender t)) in
  let? sender := ok_or found (TransactionValidation UnknownSender) in
  let validator := mkSignedValidator [(tx_sender t, mkRegistered sender (cp_public_key payload))] capacity prices in
  let? validated := map_err TransactionValidation (signed_validate validator t context) in
  let sender_key := account_key (tx_sender t) in
  let? _ := reject_if (negb (contains t sender_key)) UndeclaredStateAccess in
  let? effects := execute_action view t context payload in
  let resources := ef_resources effects in
  let? _ := reject_if (negb (fits_in resources (tx_resource_limit t)) || negb (fits_in resources capacity)) ResourceLimit in
  let? next := charge_sender sender resources prices in
  let diff := sort_canonical (diff_put (ef_diff effects) sender_key (encode_account next)) in
  let root := domain_hash (result_domain (cp_action payload)) (diff_commitment diff ++ ef_result_bytes effects) in
  Ok (mkOutput diff (mkReceipt (vt_id validated) true resources root) (lease_new (ef_actual effects))).
End contracts.

(** ** The promise of the native cache *)

Section promise.
Context `{!Blake2s}.

Definition reference_program (source : bytes) : result Program NativeFailure :=
  match compile source with
  | Ok program => Ok program
  | Err (Refused e) => Err (NativeFailed (Source e))
  | Err _ => Err NativePanic
  end.

Definition reference_prepare (source : bytes) : result unit NativeFailure :=
  let? _ := reference_program source in Ok tt.

(** Every answer is the one each node computes, or a failure of this machine. *)
Class NativeLaws (calls : NativeCalls) : Prop := {
  law_prepare source :
    agrees_with (reference_prepare source) (map_err NativeFailed (native_prepare source));
  law_program source :
    agrees_with (reference_program source) (map_err NativeFailed (native_program source));
  law_contract source input c fuel : call_typed input c →
    agrees_with (reference_execute source input c fuel) (map_err NativeFailed (native_contract source input c fuel))
}.

(** A node on which nothing fails locally. *)
Definition unfailing {A : Type} (r : result A NativeFailure) : result A NativeError :=
  match r with Ok a => Ok a | Err (NativeFailed e) => Err e | Err NativePanic => Err WorkerUnavailable end.

Definition reference_calls : NativeCalls := {|
  native_prepare source := unfailing (reference_prepare source);
  native_program source := unfailing (reference_program source);
  native_contract source input c fuel := unfailing (reference_execute source input c fuel)
|}.

(** The answers that threads of the shared cache got. *)
Fixpoint answer_in (ths : list Thread) (call : NativeCache.Call) : result Answer NativeFailure :=
  match ths with
  | [] => Err (NativeFailed WorkerUnavailable)
  | mkThread call' (Done r) :: ths => if bool_decide (call' = call) then r else answer_in ths call
  | _ :: ths => answer_in ths call
  end.

Definition cache_calls (c : NativeArtifactCache) : NativeCalls := {|
  native_prepare source := let? _ := unfailing (answer_in (threads c) (mkCall source Prepare)) in Ok tt;
  native_program source :=
    let? a := unfailing (answer_in (threads c) (mkCall source GetProgram)) in
    match a with TheProgram program => Ok program | _ => Err Protocol end;
  native_contract source input context fuel :=
    let? a := unfailing (answer_in (threads c) (mkCall source (ExecuteContract input context fuel))) in
    match a with Executed e => Ok e | _ => Err Protocol end
|}.

Lemma unfailing_agrees {A : Type} (r : result A NativeFailure) :
  r ≠ Err NativePanic → map_err NativeFailed (unfailing r) = r.
Proof. by destruct r as [|[]]. Qed.

Lemma program_never_panics source : reference_program source ≠ Err NativePanic.
Proof.
  unfold reference_program. pose proof (compile_orderly source) as Ho. by destruct (compile source) as [|[]].
Qed.

Lemma execute_never_panics source input c fuel :
  call_typed input c → reference_execute source input c fuel ≠ Err NativePanic.
Proof.
  intros Ht Hr. apply (reference_never_panics (mkCall source (ExecuteContract input c fuel))); [done|].
  unfold reference_answer. cbn. by rewrite Hr.
Qed.

#[global] Instance reference_laws : NativeLaws reference_calls.
Proof.
  split; intros source; left; apply unfailing_agrees.
  - unfold reference_prepare. pose proof (program_never_panics source). by destruct (reference_program source) as [|[]].
  - apply program_never_panics.
  - by apply execute_never_panics.
Qed.

(** A thread's answer agrees with the reference, and is no panic. *)
Lemma answer_agrees c call :
  cache_ok c → typed_operation call →
  agrees_with (reference_answer call) (answer_in (threads c) call) ∧ answer_in (threads c) call ≠ Err NativePanic.
Proof.
  intros Hok Ht. pose proof (reference_never_panics _ Ht) as Hp.
  assert (∀ i th, threads c !! i = Some th → thread_ok (entries c) (objects c) th) as Hth
    by (intros i th Hi; by destruct (ok_threads _ Hok _ _ Hi)).
  clear Hok. induction (threads c) as [|th ths IH]; [split; [by apply local_agrees|done]|].
  assert (agrees_with (reference_answer call) (answer_in ths call) ∧ answer_in ths call ≠ Err NativePanic) as HIH
    by (apply IH; intros i; apply (Hth (S i))).
  destruct th as [call' []]; cbn [answer_in]; try exact HIH. case_bool_decide as E; [|exact HIH].
  pose proof (Hth 0%nat _ eq_refl) as Ha. cbn in Ha. rewrite E in Ha. split; [exact Ha|].
  destruct Ha as [-> |(e & -> & He)]; [done|]. by intros [= ->].
Qed.

(** The cache keeps its promise, whatever the threads did. *)
Lemma cache_keeps_promise c : cache_ok c → NativeLaws (cache_calls c).
Proof.
  intros Hok. split; intros source; cbn [cache_calls native_prepare native_program native_contract].
  - destruct (answer_agrees c (mkCall source Prepare) Hok I) as [[-> |(e & -> & He)] Hp]; [left|by apply local_agrees].
    unfold reference_answer, reference_prepare, reference_program in *. cbn in *. by destruct (compile source) as [|[]].
  - destruct (answer_agrees c (mkCall source GetProgram) Hok I) as [[-> |(e & -> & He)] Hp]; [left|by apply local_agrees].
    unfold reference_answer, reference_program in *. cbn in *. by destruct (compile source) as [|[]].
  - intros input context fuel Ht.
    destruct (answer_agrees c (mkCall source (ExecuteContract input context fuel)) Hok Ht) as [[-> |(e & -> & He)] Hp];
      [left|by apply local_agrees].
    unfold reference_answer in *. cbn in *. by destruct (reference_execute source input context fuel) as [|[]].
Qed.
End promise.

(** ** Agreement of nodes *)

(** A node computes the result of the reference node, which is never unavailable, or
    reports that it is unavailable itself. *)
Definition node_agrees {A : Type} (reference r : result A Payments.ExecutionError) : Prop :=
  (r = reference ∨ r = Err NativeUnavailable) ∧ reference ≠ Err NativeUnavailable.

Lemma node_agrees_refl {A : Type} (r : result A Payments.ExecutionError) : r ≠ Err NativeUnavailable → node_agrees r r.
Proof. split; auto. Qed.

Lemma node_agrees_bind {A B : Type} (r0 r : result A Payments.ExecutionError) (f0 f : A → result B Payments.ExecutionError) :
  node_agrees r0 r → (∀ a, r0 = Ok a → node_agrees (f0 a) (f a)) →
  node_agrees (let? a := r0 in f0 a) (let? a := r in f a).
Proof.
  intros [[->| ->] Hn] Hf; destruct r0 as [a|e]; cbn.
  - by apply Hf.
  - split; [by left|]. intros [= ->]. done.
  - split; [by right|]. by destruct (Hf a eq_refl).
  - split; [by right|]. intros [= ->]. done.
Qed.

(** Steps that do not ask the native cache. *)
Lemma node_agrees_same {A B : Type} (r : result A Payments.ExecutionError) (f0 f : A → result B Payments.ExecutionError) :
  r ≠ Err NativeUnavailable → (∀ a, r = Ok a → node_agrees (f0 a) (f a)) →
  node_agrees (let? a := r in f0 a) (let? a := r in f a).
Proof. intros Hr. by apply node_agrees_bind, node_agrees_refl. Qed.

Lemma available_reject b (e : Payments.ExecutionError) : e ≠ NativeUnavailable → reject_if b e ≠ Err NativeUnavailable.
Proof. destruct b; cbn; congruence. Qed.
Lemma available_ok_or {A : Type} (o : option A) (e : Payments.ExecutionError) :
  e ≠ NativeUnavailable → ok_or o e ≠ Err NativeUnavailable.
Proof. destruct o; cbn; congruence. Qed.
Lemma available_state {A : Type} (r : result A StateError) : map_err StateFailed r ≠ Err NativeUnavailable.
Proof. by destruct r. Qed.
Lemma available_validation {A : Type} (r : result A TransactionError) :
  map_err TransactionValidation r ≠ Err NativeUnavailable.
Proof. by destruct r. Qed.

Lemma available_bind {A B : Type} (r : result A Payments.ExecutionError) (f : A → result B Payments.ExecutionError) :
  r ≠ Err NativeUnavailable → (∀ a, f a ≠ Err NativeUnavailable) → (let? a := r in f a) ≠ Err NativeUnavailable.
Proof. destruct r; cbn; auto. congruence. Qed.
Lemma available_runtime {A : Type} (r : result A RuntimeError) : map_err runtime_error r ≠ Err NativeUnavailable.
Proof. by destruct r as [|[]]. Qed.
Lemma available_const {A E : Type} (r : result A E) (e : Payments.ExecutionError) :
  e ≠ NativeUnavailable → map_err (λ _, e) r ≠ Err NativeUnavailable.
Proof. destruct r; cbn; congruence. Qed.

Create HintDb available discriminated.
#[export] Hint Resolve available_reject available_ok_or available_state available_validation available_runtime
  available_const : available.
#[export] Hint Extern 1 (_ ≠ _) => discriminate : available.

Lemma available_subtract a b : subtract a b ≠ Err NativeUnavailable.
Proof. unfold subtract. repeat (apply available_bind; [solve [auto with available]|intros]). done. Qed.
#[export] Hint Resolve available_subtract : available.

Section agreement.
Context {blake : Blake2s} {ed : Ed25519} {wasm : WasmEngine} {calls : NativeCalls} {laws : NativeLaws calls}.

Lemma law_node {A : Type} (reference : result A NativeFailure) (r : result A NativeError) :
  agrees_with reference (map_err NativeFailed r) → reference ≠ Err NativePanic →
  (∀ e, reference = Err (NativeFailed e) → native_error e ≠ NativeUnavailable) →
  node_agrees (map_err native_error (unfailing reference)) (map_err native_error r).
Proof.
  intros Ha Hp He. split.
  - destruct Ha as [Heq|(e & Heq & Hl)].
    + left. rewrite <- Heq. by destruct r.
    + right. destruct r as [|x]; simplify_eq/=. by destruct e.
  - destruct reference as [a|[e|]]; cbn; [done| |done]. specialize (He e eq_refl). congruence.
Qed.

Lemma program_node code :
  node_agrees (map_err native_error (native_program (NativeCalls := reference_calls) code))
    (map_err native_error (native_program code)).
Proof.
  apply law_node; [apply law_program|apply program_never_panics|].
  unfold reference_program. intros e He. destruct (compile code) as [|[]]; by simplify_eq.
Qed.

Lemma prepare_node code :
  node_agrees (map_err native_error (native_prepare (NativeCalls := reference_calls) code))
    (map_err native_error (native_prepare code)).
Proof.
  apply law_node; [apply law_prepare| |]; unfold reference_prepare.
  - pose proof (program_never_panics code). by destruct (reference_program code) as [|[]].
  - unfold reference_program. intros e He. destruct (compile code) as [|[]]; by simplify_eq.
Qed.

Lemma contract_node code program input c fuel :
  compile code = Ok program → call_typed input c → 0 <= fuel → validate (state_keys program) c = Ok tt →
  node_agrees (map_err native_error (native_contract (NativeCalls := reference_calls) code input c fuel))
    (map_err native_error (native_contract code input c fuel)).
Proof.
  intros Hc Ht Hf Hv. apply law_node; [by apply law_contract|by apply execute_never_panics|].
  unfold reference_execute. rewrite Hc. pose proof (compiled_context _ _ input c fuel Hc Ht Hf Hv) as Hx.
  intros e He. destruct (MAX_NATIVE_FUEL <? fuel); [by simplify_eq|].
  destruct (evaluate_contract program input c fuel) as [|[x| |]]; [done| |done..]. injection He as <-. by destruct x.
Qed.

Lemma load_slot_facts view address keys local v access n :
  load_slot view address keys local = Ok (v, access, n) → u64 (default 0 v) ∧ access = bool_decide (local ∈ keys).
Proof.
  unfold load_slot. intros Hl. case_bool_decide; [|by simplify_eq]. bind_inv Hl. destruct a as [bs|]; [|by simplify_eq].
  case_in Hl. simplify_eq. bool_props. split; [|done]. pose proof (from_le_fits bs) as Hf.
  by replace (8 * len bs) with 64 in Hf by lia.
Qed.

Lemma try_map_forall2 {A B E : Type} (f : A → result B E) xs ys : try_map f xs = Ok ys → Forall2 (λ x y, f x = Ok y) xs ys.
Proof.
  revert ys. induction xs as [|x xs IH]; intros ys Hm; cbn in Hm; [by simplify_eq|]. bind_inv Hm. subst. constructor; auto.
Qed.

Lemma available_load_slot view address keys local : load_slot view address keys local ≠ Err NativeUnavailable.
Proof.
  unfold load_slot. case_bool_decide; [|done]. apply available_bind; [auto with available|]. intros [bs|]; [|done]. by case_match.
Qed.

Lemma available_try_map {A B : Type} (f : A → result B Payments.ExecutionError) xs :
  (∀ x, f x ≠ Err NativeUnavailable) → try_map f xs ≠ Err NativeUnavailable.
Proof. intros Hf. induction xs; cbn; [done|]. apply available_bind; [done|]. intros. by apply available_bind. Qed.

Lemma caller_words_typed sender :
  length (caller_words sender) = 4%nat ∧ (length sender = 32%nat → Forall u64 (caller_words sender)).
Proof.
  split; [done|]. intros Hl. unfold caller_words. apply Forall_map, Forall_forall. intros i [_ Hi]%elem_of_seq. cbn.
  pose proof (from_le_fits (take 8 (drop (8 * i) sender))) as Hf. unfold len in Hf.
  rewrite length_take, length_drop, Hl in Hf. by replace (8 * Z.of_nat (8 `min` (32 - 8 * i))) with 64 in Hf by lia.
Qed.

Lemma loaded_typed view address keys context_keys slots input context sender :
  try_map (load_slot view address keys) context_keys = Ok slots → len input = 8 → length sender = 32%nat →
  u64 (vc_next_height context) →
  call_typed (from_le input)
    (mkContractContext (vc_next_height context) (caller_words sender) context_keys (map (λ s, s.1.1) slots) (map (λ s, s.1.2) slots)).
Proof.
  intros Hs%try_map_forall2 Hi Hsz Hh. pose proof (from_le_fits input) as Hf. rewrite Hi in Hf. split; cbn; try done.
  - by destruct (caller_words_typed sender) as [_ Hw]; [auto].
  - apply Forall_map. clear -Hs. induction Hs as [|x [[v access] n] xs ys Hx _ IH]; constructor; [|done]. cbn.
    by destruct (load_slot_facts _ _ _ _ _ _ _ Hx).
Qed.

Lemma keys_above_facts previous keys :
  keys_above previous keys →
  Sorted.StronglySorted lt_of keys ∧ Forall key_fits keys ∧ match previous with Some p => Forall (lt_of p) keys | None => True end.
Proof.
  revert previous. induction keys as [|k keys IH]; intros previous Hk; [split; [constructor|split; [constructor|by destruct previous]]|].
  destruct Hk as (Hl & Hp & Hk). destruct (IH _ Hk) as (Hs & Hf & Ha). split; [|split].
  - by constructor.
  - constructor; [|done]. unfold key_fits, Trocto.MAX_STATE_KEY_BYTES. lia.
  - destruct previous; [|done]. constructor; [done|]. eapply Forall_impl; [exact Ha|]. intros x. by apply lt_of_trans.
Qed.

Lemma reference_program_ok code program :
  map_err native_error (native_program (NativeCalls := reference_calls) code) = Ok program → compile code = Ok program.
Proof.
  intros Hp%map_err_ok. cbn in Hp. unfold reference_program in Hp. destruct (compile code) as [|[]]; by simplify_eq/=.
Qed.

Lemma reference_contract_ok code program input c fuel e :
  compile code = Ok program →
  map_err native_error (native_contract (NativeCalls := reference_calls) code input c fuel) = Ok e →
  evaluate_contract program input c fuel = Ok e.
Proof.
  intros Hc Hp%map_err_ok. cbn in Hp. unfold reference_execute in Hp. rewrite Hc in Hp.
  destruct (MAX_NATIVE_FUEL <? fuel); [done|]. destruct (evaluate_contract program input c fuel) as [|[]]; by simplify_eq/=.
Qed.

Lemma subtract_nonneg a b c : subtract a b = Ok c → 0 <= compute c.
Proof. unfold subtract. intros Hs. bind_inv Hs. subst. apply ok_or_ok, checked_sub_some in E as [? ->]. cbn. lia. Qed.

(** The declared keys and the keys of the program make a valid context. *)
Lemma call_context_valid code program address input keys view context_keys slots height caller :
  compile code = Ok program → call_ok true address input keys → context_keys = joined (state_keys program) keys →
  len context_keys <= MAX_CONTRACT_KEYS → try_map (load_slot view address keys) context_keys = Ok slots →
  validate (state_keys program)
    (mkContractContext height caller context_keys (map (λ s, s.1.1) slots) (map (λ s, s.1.2) slots)) = Ok tt.
Proof.
  intros Hc (_ & _ & _ & _ & Hk) -> Hl Hs%try_map_forall2. destruct (state_keys_ok _ _ Hc) as [Hs1 Hf1].
  destruct (keys_above_facts _ _ Hk) as (Hs2 & Hf2 & _). pose proof (Forall2_length _ _ _ Hs) as Hlen.
  apply joined_valid; try done; rewrite length_map; lia.
Qed.

Lemma call_node view t context address input keys actual :
  call_ok true address input keys → sized 32 (tx_sender t) → u64 (vc_next_height context) →
  node_agrees (execute_trocto_call (native := reference_calls) view t context address input keys actual)
    (execute_trocto_call view t context address input keys actual).
Proof.
  intros Hok Hsz Hh. unfold execute_trocto_call.
  apply node_agrees_same; [auto with available|intros found _]. apply node_agrees_same; [auto with available|intros code _].
  apply node_agrees_same; [auto with available|intros _ _].
  apply node_agrees_bind; [apply program_node|]. intros program Hp%reference_program_ok.
  apply node_agrees_same; [auto with available|intros _ _].
  apply node_agrees_same; [auto with available|]. intros [] Hl%reject_if_ok%Z.ltb_ge.
  apply node_agrees_same; [apply available_try_map, available_load_slot|]. intros slots Hslots.
  apply node_agrees_same; [auto with available|]. intros limits Hlim%subtract_nonneg.
  apply node_agrees_same; [auto with available|]. intros _ _.
  pose proof Hok as (_ & _ & Hinput & _). assert (length (tx_sender t) = 32%nat) as Hsend by apply Hsz.
  pose proof (loaded_typed _ _ _ _ _ _ _ _ Hslots Hinput Hsend Hh) as Htyped.
  pose proof (call_context_valid _ _ _ _ _ _ _ _ (vc_next_height context) (caller_words (tx_sender t)) Hp Hok eq_refl Hl Hslots) as Hv.
  apply node_agrees_bind; [by eapply contract_node|]. intros e He. eapply reference_contract_ok in He; [|done].
  pose proof (compiled_confined _ _ _ _ _ _ Hp Htyped Hlim He) as [_ Hcs Hcw _ _ _]. cbn [cc_keys] in *.
  apply node_agrees_same; [|intros [[[diff actual'] bytes] charged] _].
  - unfold stage_trocto_result. unfold len. rewrite Hcs, Hcw, Z.eqb_refl. done.
  - apply node_agrees_same; [auto with available|]. intros resources _. by apply node_agrees_refl.
Qed.

Lemma deploy_node view t code :
  node_agrees (execute_trocto_deploy (native := reference_calls) view t code) (execute_trocto_deploy view t code).
Proof.
  unfold execute_trocto_deploy. do 6 (apply node_agrees_same; [auto with available|intros ? _]).
  apply node_agrees_bind; [apply prepare_node|]. intros [] _. by apply node_agrees_refl.
Qed.

Lemma available_load_state view t address keys local loaded :
  load_state view t address keys local loaded ≠ Err NativeUnavailable.
Proof.
  revert local loaded. induction keys as [|key keys IH]; intros local loaded; cbn; [done|].
  repeat (apply available_bind; [solve [auto with available]|intros]). destruct a0; [|auto].
  repeat (apply available_bind; [solve [auto with available]|intros]). auto.
Qed.

Lemma available_wasm_deploy view t code : execute_wasm_deploy view t code ≠ Err NativeUnavailable.
Proof. unfold execute_wasm_deploy. repeat (apply available_bind; [solve [auto with available]|intros]). done. Qed.

Lemma available_wasm_call view t context address input keys :
  execute_wasm_call view t context address input keys ≠ Err NativeUnavailable.
Proof.
  unfold execute_wasm_call. repeat (apply available_bind; [solve [auto with available]|intros]).
  apply available_bind; [apply available_load_state|intros [local loaded]].
  repeat (apply available_bind; [solve [auto with available]|intros]). done.
Qed.

Lemma available_native view : native_enabled view ≠ Err NativeUnavailable.
Proof. unfold native_enabled. apply available_bind; [auto with available|intros]. auto with available. Qed.

Lemma available_charge sender resources prices : charge_sender sender resources prices ≠ Err NativeUnavailable.
Proof. unfold charge_sender. repeat (apply available_bind; [solve [auto with available]|intros]). done. Qed.

Lemma action_node view t context payload :
  action_ok (cp_action payload) → sized 32 (tx_sender t) → u64 (vc_next_height context) →
  node_agrees (execute_action (native := reference_calls) view t context payload) (execute_action view t context payload).
Proof.
  intros Hok Hsz Hh. unfold execute_action. destruct (cp_action payload) as [code|address input keys|code|address input keys].
  - apply node_agrees_refl, available_wasm_deploy.
  - apply node_agrees_refl, available_wasm_call.
  - unfold execute_trocto_action. apply node_agrees_same; [apply available_native|intros _ _].
    apply node_agrees_same; [auto with available|intros _ _]. apply deploy_node.
  - unfold execute_trocto_action. apply node_agrees_same; [apply available_native|intros _ _].
    do 2 (apply node_agrees_same; [auto with available|intros _ _]). by apply call_node.
Qed.

Lemma execute_contract_node view t context capacity prices :
  u64 (vc_next_height context) →
  node_agrees (execute_contract (native := reference_calls) view t context capacity prices)
    (execute_contract view t context capacity prices).
Proof.
  intros Hh. unfold execute_contract.
  apply node_agrees_same; [auto with available|]. intros payload [(_ & Hok & _) _]%map_err_ok%contract_exact.
  apply node_agrees_same; [auto with available|intros found _]. apply node_agrees_same; [auto with available|intros sender _].
  apply node_agrees_same; [auto with available|]. intros validated Hv%map_err_ok.
  apply (validated_facts _ _ _ _ (mkRegistered sender (cp_public_key payload))) in Hv as (_ & _ & _ & _ & Hsz); [|done].
  apply node_agrees_same; [auto with available|intros _ _]. apply node_agrees_bind; [by apply action_node|]. intros effects _.
  apply node_agrees_same; [auto with available|intros _ _]. apply node_agrees_same; [apply available_charge|intros next _].
  by apply node_agrees_refl.
Qed.

(** C33: Contract execution is deterministic across nodes.  Whatever happens to the native
    workers of a node, executing a contract transaction gives exactly the result of a node
    on which nothing fails, receipts and state changes included, or the node reports that
    it is unavailable; a node on which nothing fails never does.  In particular the context
    that is built for a native contract is always valid, and every failure of the contract
    itself is reported as such. *)
Theorem contract_nodes_agree view t context capacity prices :
  u64 (vc_next_height context) →
  node_agrees (execute_contract (native := reference_calls) view t context capacity prices)
    (execute_contract view t context capacity prices).
Proof. apply execute_contract_node. Qed.
End agreement.

(** ** What a contract transaction changes *)

Section contract_effects.
Context {blake : Blake2s} {ed : Ed25519} {wasm : WasmEngine}.
Implicit Types (m : StateMap) (t : Transaction) (a : Address).

(** Keys outside the account namespace. *)
Definition neutral (key : StateKey) : Prop := take (length ACCOUNT_NAMESPACE) key ≠ ACCOUNT_NAMESPACE.

Lemma neutral_account key a : neutral key → key ≠ account_key a.
Proof. intros Hn ->. apply Hn. apply take_app_length. Qed.

Lemma neutral_balance key v : neutral key → entry_balance (key, v) = 0.
Proof. intros Hn. unfold entry_balance. cbn [fst snd]. by rewrite bool_decide_eq_false_2, andb_false_r. Qed.

Lemma neutral_lit (prefix rest : bytes) :
  (length ACCOUNT_NAMESPACE <= length prefix)%nat → neutral prefix → neutral (prefix ++ rest).
Proof. intros Hl Hn. unfold neutral. by rewrite take_app_le. Qed.

Lemma code_neutral address : neutral (contract_code_key address).
Proof. apply neutral_lit; [vm_compute; lia|by vm_compute]. Qed.
Lemma state_neutral address local : neutral (contract_state_key address local).
Proof. apply neutral_lit; [vm_compute; lia|by vm_compute]. Qed.
Lemma trocto_code_neutral address : neutral (trocto_contract_code_key address).
Proof. apply neutral_lit; [vm_compute; lia|by vm_compute]. Qed.
Lemma trocto_state_neutral address local : neutral (trocto_contract_state_key address local).
Proof. apply neutral_lit; [vm_compute; lia|by vm_compute]. Qed.

(** A change the transaction declared, outside the accounts. *)
Definition declared t (c : StateChange) : Prop := neutral (change_key c) ∧ change_key c ∈ tx_access_list t.

Lemma change_of_key key value : change_key (change_of key value) = key.
Proof. by destruct value. Qed.

Lemma contains_iff t key : contains t key = true ↔ key ∈ tx_access_list t.
Proof. apply bool_decide_eq_true. Qed.

Lemma staged_declared t view address keys context_keys slots e height caller fuel :
  try_map (load_slot view address keys) context_keys = Ok slots →
  confined (mkContractContext height caller context_keys (map (λ s, s.1.1) slots) (map (λ s, s.1.2) slots)) fuel
    (ce_fuel_used e) (ce_state e) (ce_writes e) (ce_events e) →
  forallb (λ local, contains t (trocto_contract_state_key address local)) keys = true →
  Forall (declared t) (staged_changes address context_keys e).
Proof.
  intros Hs%try_map_forall2 Hc Hf. apply Forall_forall. intros c Hin.
  apply list_elem_of_In, in_flat_map in Hin as ([[local value] written] & Hin & Hw). destruct written; [|done].
  destruct Hw as [<-|[]]. apply list_elem_of_In, list_elem_of_lookup in Hin as [i Hi].
  apply lookup_zip_with_Some in Hi as ([l v] & w & [= <- <- <-] & Hlv & Hwr).
  apply lookup_zip_with_Some in Hlv as (l' & v' & [= <- <-] & Hl & Hv).
  apply (cf_access _ _ _ _ _ _ Hc) in Hwr. cbn [cc_access] in Hwr. rewrite list_lookup_fmap in Hwr.
  destruct (Forall2_lookup_l _ _ _ _ _ Hs Hl) as ([[v2 access] n] & Hslot & Hload). rewrite Hslot in Hwr.
  destruct (load_slot_facts _ _ _ _ _ _ _ Hload) as [_ ->]. injection Hwr as Hwr%bool_decide_eq_true.
  rewrite forallb_forall in Hf. unfold declared. rewrite change_of_key. split; [apply trocto_state_neutral|].
  apply contains_iff, Hf. by apply list_elem_of_In.
Qed.

(** Charges are never negative. *)
Definition nonneg (r : Resources) : Prop := 0 <= compute r ∧ 0 <= memory r ∧ 0 <= io r ∧ 0 <= bandwidth r.

Lemma resources_ok_nonneg r : resources_ok r → nonneg r.
Proof. unfold resources_ok, nonneg, fits. lia. Qed.

Lemma cost_nonneg r prices c : nonneg r → nonneg prices → checked_cost r prices = Some c → 0 <= c.
Proof.
  intros (? & ? & ? & ?) (? & ? & ? & ?) Hc. unfold checked_cost in Hc. simplify_option_eq.
  repeat match goal with
  | Hx : checked_mul _ _ _ = Some _ |- _ => apply checked_mul_some in Hx as [_ ->]
  | Hx : checked_add _ _ _ = Some _ |- _ => apply checked_add_some in Hx as [_ ->]
  end.
  repeat apply Z.add_nonneg_nonneg; by apply Z.mul_nonneg_nonneg.
Qed.

Lemma checked_nonneg x y z : nonneg x → nonneg y → resources_checked_add x y = Some z → nonneg z.
Proof. intros Hx Hy (_ & _ & _ & _ & ->)%resources_checked_add_some. unfold nonneg in *. cbn. lia. Qed.

Lemma deployment_nonneg code t : nonneg (deployment_resources code t).
Proof. pose proof (len_nonneg code). pose proof (estimate_typed t). unfold nonneg, deployment_resources, fits in *. cbn. lia. Qed.

Lemma load_slot_nonneg view address keys local r : load_slot view address keys local = Ok r → 0 <= r.2.
Proof.
  unfold load_slot. intros Hl. pose proof (len_nonneg local). case_bool_decide; [|by simplify_eq]. bind_inv Hl.
  destruct a as [bs|]; [case_in Hl|]; simplify_eq; cbn; lia.
Qed.

Lemma loaded_nonneg view address keys context_keys slots :
  try_map (load_slot view address keys) context_keys = Ok slots → 0 <= sumZ snd slots.
Proof.
  intros Hs%try_map_forall2. apply sumZ_nonneg. intros s (i & Hi)%list_elem_of_lookup.
  destruct (Forall2_lookup_r _ _ _ _ _ Hs Hi) as (local & _ & Hl). by eapply load_slot_nonneg.
Qed.

Lemma staged_io_nonneg keys e : 0 <= staged_io keys e.
Proof.
  unfold staged_io. pose proof (len_nonneg (ce_events e)).
  match goal with |- 0 <= _ + sumZ ?f ?xs => assert (0 <= sumZ f xs) end; [|lia].
  apply sumZ_nonneg. intros [[l v] w] _. pose proof (len_nonneg l). repeat case_match; lia.
Qed.

(** A native call that succeeded: the confined run behind its changes and its charges. *)
Lemma trocto_call_inv view t context address input keys actual ef :
  call_ok true address input keys → sized 32 (tx_sender t) → u64 (vc_next_height context) →
  execute_trocto_call (native := reference_calls) view t context address input keys actual = Ok ef →
  Forall (declared t) (changes (ef_diff ef)) ∧ nonneg (ef_resources ef).
Proof.
  intros Hok Hsz Hh He. unfold execute_trocto_call in He. bind_inv He. guards. subst ef. cbn [ef_diff ef_resources].
  apply reference_program_ok in E2. apply subtract_nonneg in E6.
  pose proof Hok as (_ & _ & Hinput & _). assert (length (tx_sender t) = 32%nat) as Hsend by apply Hsz.
  match goal with Hl : try_map _ _ = Ok _ |- _ =>
    pose proof (loaded_typed _ _ _ _ _ _ _ _ Hl Hinput Hsend Hh) as Htyped; pose proof (loaded_nonneg _ _ _ _ _ Hl) as Hloaded end.
  eapply reference_contract_ok in E8; [|done]. pose proof (compiled_confined _ _ _ _ _ _ E2 Htyped E6 E8) as Hc.
  unfold stage_trocto_result in E9. case_in E9. simplify_eq. apply ok_or_ok in E10. split; [by eapply staged_declared|].
  eapply checked_nonneg; [| |exact E10].
  - pose proof (len_nonneg a0). pose proof (estimate_typed t) as [? _].
    assert (0 <= sumZ (λ local, len local + 16) (joined (state_keys a2) keys)).
    { apply sumZ_nonneg. intros l _. pose proof (len_nonneg l). lia. }
    unfold nonneg. cbn. lia.
  - pose proof (staged_io_nonneg (joined (state_keys a2) keys) a8). destruct Hc as [[? _] _ _ _ _ _]. unfold nonneg. cbn. lia.
Qed.

Lemma load_state_declared view t address keys local loaded r :
  load_state view t address keys local loaded = Ok r →
  ∀ key, key ∈ keys → contract_state_key address key ∈ tx_access_list t.
Proof.
  revert local loaded. induction keys as [|k keys IH]; intros local loaded Hl key Hk; [by apply elem_of_nil in Hk|].
  cbn in Hl. bind_inv Hl. guards. apply elem_of_cons in Hk as [->|Hk]; [by apply contains_iff|].
  destruct a0; [bind_inv Hl; guards|]; eauto.
Qed.

Lemma load_state_nonneg view t address keys local loaded r :
  load_state view t address keys local loaded = Ok r → 0 <= loaded → 0 <= r.2.
Proof.
  revert local loaded. induction keys as [|k keys IH]; intros local loaded Hl H0; cbn in Hl; [by simplify_eq|].
  bind_inv Hl. guards. destruct a0 as [v|]; [|by eapply IH]. bind_inv Hl. guards. apply ok_or_ok, checked_add_some in E1 as [_ ->].
  eapply IH; [exact Hl|]. pose proof (len_nonneg v). pose proof (len_nonneg k). lia.
Qed.

Lemma action_effects view t context payload ef :
  action_ok (cp_action payload) → sized 32 (tx_sender t) → u64 (vc_next_height context) →
  execute_action (native := reference_calls) view t context payload = Ok ef →
  Forall (declared t) (changes (ef_diff ef)) ∧ nonneg (ef_resources ef).
Proof.
  intros Hok Hsz Hh. unfold execute_action. destruct (cp_action payload) as [code|address input keys|code|address input keys]; intros He.
  - unfold execute_wasm_deploy in He. bind_inv He. guards. subst. cbn [ef_diff ef_resources changes].
    split; [|apply deployment_nonneg]. apply Forall_singleton. split; [apply code_neutral|by apply contains_iff].
  - unfold execute_wasm_call in He. bind_inv He. guards. subst. cbn [ef_diff ef_resources changes]. apply map_err_ok in E4. split.
    + apply Forall_map, Forall_forall. intros [key value] Hin. cbn. unfold declared. rewrite change_of_key.
      split; [apply state_neutral|]. eapply load_state_declared; [done|].
      apply (wasm_authorized _ _ _ E4). cbn. apply list_elem_of_fmap. by exists (key, value).
    + apply ok_or_ok in E5. eapply checked_nonneg; [| |exact E5]; [|eapply resources_ok_nonneg, wasm_resources, E4].
      pose proof (load_state_nonneg _ _ _ _ _ _ _ E2 ltac:(lia)). pose proof (len_nonneg a1). pose proof (estimate_typed t) as [? _].
      unfold nonneg. cbn in *. lia.
  - unfold execute_trocto_action, execute_trocto_deploy in He. bind_inv He. guards. subst. cbn [ef_diff ef_resources changes].
    split; [|apply deployment_nonneg]. apply Forall_singleton. split; [apply trocto_code_neutral|by apply contains_iff].
  - unfold execute_trocto_action in He. bind_inv He. guards. by eapply trocto_call_inv.
Qed.

(** Changes outside the account namespace leave accounts and balances alone. *)
Lemma neutral_change c m a :
  bt_ok m → neutral (change_key c) →
  bt_ok (apply_change m c) ∧ ledger (apply_change m c) a = ledger m a ∧ total (apply_change m c) = total m.
Proof.
  intros Hm Hn. unfold ledger, view_account, map_view, total. destruct c as [key v|key]; cbn [apply_change change_key] in *.
  - split; [by apply bt_ok_insert|]. rewrite bt_get_insert_ne by (by apply not_eq_sym, neutral_account). split; [done|].
    rewrite (sumZ_perm _ _ _ (bt_insert_perm _ _ m Hm)). cbn [sumZ]. rewrite neutral_balance by done.
    destruct (bt_get key m) as [old|] eqn:E; [|by rewrite bt_remove_absent].
    rewrite (sumZ_perm _ m _ (bt_remove_perm _ _ _ E)). cbn [sumZ]. by rewrite neutral_balance.
  - split; [by apply bt_ok_remove|]. rewrite bt_get_remove_ne by (by apply not_eq_sym, neutral_account). split; [done|].
    destruct (bt_get key m) as [old|] eqn:E; [|by rewrite bt_remove_absent].
    rewrite (sumZ_perm _ m _ (bt_remove_perm _ _ _ E)). cbn [sumZ]. by rewrite neutral_balance.
Qed.

Lemma neutral_changes cs m a :
  bt_ok m → Forall (λ c, neutral (change_key c)) cs →
  let m' := fold_left apply_change cs m in bt_ok m' ∧ ledger m' a = ledger m a ∧ total m' = total m.
Proof.
  intros Hm Hcs. revert m Hm. induction Hcs as [|c cs Hc _ IH]; intros m Hm; [done|]. cbn [fold_left].
  destruct (neutral_change c m a Hm Hc) as (Hm' & Hl & Ht). destruct (IH _ Hm') as (? & Hl' & Ht'). by rewrite Hl', Ht'.
Qed.

Lemma insert_change_perm c cs : Permutation (insert_change c cs) (c :: cs).
Proof. induction cs as [|d cs IH]; cbn; [done|]. case_match; [done|]. rewrite IH. constructor. Qed.

Lemma sort_changes_perm cs : Permutation (sort_changes cs) cs.
Proof. induction cs as [|c cs IH]; cbn; [done|]. by rewrite insert_change_perm, IH. Qed.

(** The changes of a contract and one account, in canonical order. *)
Lemma contract_diff_apply cs a acc m :
  bt_ok m → Forall (λ c, neutral (change_key c)) cs → sized 32 a → account_ok acc →
  let m' := apply_to (sort_canonical (diff_put (mkDiff cs) (account_key a) (encode_account acc))) m in
  bt_ok m' ∧ (∀ b, ledger m' b = if bool_decide (b = a) then Ok (Some acc) else ledger m b)
  ∧ total m' = total m - held m a + balance acc.
Proof.
  intros Hm Hcs Ha Hacc. unfold apply_to, sort_canonical, diff_put. cbn [changes].
  set (put := Put (account_key a) (encode_account acc)).
  pose proof (sort_changes_perm (cs ++ [put])) as Hp.
  assert (put ∈ sort_changes (cs ++ [put])) as (l1 & l2 & Heq)%list_elem_of_split by (rewrite Hp; set_solver).
  rewrite Heq in *. assert (Permutation (l1 ++ l2) cs) as Hperm.
  { apply (Permutation_cons_inv (a := put)). by rewrite Permutation_middle, Hp, Permutation_app_comm. }
  assert (Forall (λ c, neutral (change_key c)) (l1 ++ l2)) as [Hn1 Hn2]%Forall_app by (by rewrite Hperm).
  rewrite fold_left_app. cbn [fold_left]. set (m1 := fold_left apply_change l1 m).
  assert (bt_ok m1 ∧ total m1 = total m ∧ ∀ b, ledger m1 b = ledger m b) as (Hm1 & Ht1 & Hl1).
  { destruct (neutral_changes l1 m a Hm Hn1) as (? & _ & ?). split_and!; [done..|].
    intros b. by destruct (neutral_changes l1 m b Hm Hn1) as (_ & ? & _). }
  pose proof (bt_ok_insert (account_key a) (encode_account acc) _ Hm1) as Hm2.
  change (apply_change m1 put) with (bt_insert (account_key a) (encode_account acc) m1).
  split; [by destruct (neutral_changes l2 _ a Hm2 Hn2)|]. split.
  - intros b. destruct (neutral_changes l2 _ b Hm2 Hn2) as (_ & -> & _). rewrite ledger_insert by done. by rewrite Hl1.
  - destruct (neutral_changes l2 _ a Hm2 Hn2) as (_ & _ & ->). rewrite total_insert by done. unfold held. rewrite Hl1. lia.
Qed.


(** ** One contract transaction *)

(** The view shows the entries of [m]. *)
Definition shows (view : StateView) m : Prop := ∀ key, view key = Ok (bt_get key m).

Lemma shows_ledger view m a : shows view m → view_account view a = ledger m a.
Proof. intros Hs. unfold ledger, view_account, map_view. by rewrite Hs. Qed.

(** The fee a receipt stands for. *)
Definition paid (prices : Resources) (out : TransactionOutput) : Z :=
  default 0 (checked_cost (rc_resources (out_receipt out)) prices).

(** The accounts after a contract transaction: its sender pays and moves on. *)
Definition pay_fee (fee : Z) (accounts : Address → result (option AccountState) StateError) t
    : Address → result (option AccountState) StateError := λ a,
  match accounts a with
  | Ok (Some acc) => if bool_decide (a = tx_sender t) then Ok (Some (mkAccount (nonce acc + 1) (balance acc - fee))) else accounts a
  | other => other
  end.

Lemma charge_facts sender resources prices next :
  account_ok sender → nonneg resources → nonneg prices → charge_sender sender resources prices = Ok next →
  account_ok next ∧ next = mkAccount (nonce sender + 1) (balance sender - default 0 (checked_cost resources prices)).
Proof.
  intros [Hn Hb] Hr Hp Hc. unfold charge_sender in Hc. bind_inv Hc. apply ok_or_ok in E, E0, E1.
  pose proof (cost_nonneg _ _ _ Hr Hp E). rewrite E. apply checked_add_some in E0 as [? ->].
  apply checked_sub_some in E1 as [? ->]. subst. unfold account_ok, fits in *. cbn. split; [lia|done].
Qed.

Lemma contract_step {calls : NativeCalls} {laws : NativeLaws calls} view m t context capacity prices out :
  bt_ok m → shows view m → resources_ok prices → u64 (vc_next_height context) →
  execute_contract view t context capacity prices = Ok out →
  let m' := apply_to (out_diff out) m in
  bt_ok m' ∧ (∀ a, ledger m' a = pay_fee (paid prices out) (ledger m) t a)
  ∧ total m' = total m - paid prices out
  ∧ authentic t ∧ rc_transaction (out_receipt out) = compute_tx_id t
  ∧ (∃ sender, ledger m (tx_sender t) = Ok (Some sender) ∧ nonce sender = tx_nonce t)
  ∧ Forall (λ c, change_key c ∈ tx_access_list t) (changes (out_diff out))
  ∧ fits_in (rc_resources (out_receipt out)) (tx_resource_limit t) = true ∧ 0 <= paid prices out.
Proof.
  intros Hm Hview Hp%resources_ok_nonneg Hh Hex. destruct (execute_contract_node view t context capacity prices Hh) as [[Heq|Heq] _];
    [|by rewrite Heq in Hex]. rewrite Heq in Hex. clear Heq.
  unfold execute_contract in Hex. bind_inv Hex. guards. apply map_err_ok in E, E2. apply map_err_ok in E0. apply ok_or_ok in E1. subst a0.
  rewrite (shows_ledger _ m) in E0 by done. apply contract_exact in E as [(_ & Hok & _) _].
  apply (validated_facts _ _ _ _ (mkRegistered a1 (cp_public_key a))) in E2 as (Hid & Hn & _ & Hauth & Hsz); [|done].
  destruct (action_effects _ _ _ _ _ Hok Hsz Hh E4) as [Hdecl Hr].
  destruct (charge_facts _ _ _ _ (ledger_ok _ _ _ E0) Hr Hp E6) as [Hacc Hnext].
  assert (Forall (λ c, neutral (change_key c)) (changes (ef_diff a4))) as Hneutral
    by (eapply Forall_impl; [exact Hdecl|by intros c []]).
  destruct (contract_diff_apply _ (tx_sender t) a6 m Hm Hneutral Hsz Hacc) as (Hm' & Hl & Htot).
  subst out. cbn [out_diff out_receipt rc_transaction rc_resources]. destruct a4 as [[cs] actual resources bytes]. cbn [ef_diff ef_resources changes] in *.
  assert (held m (tx_sender t) = balance a1) as Hheld by (unfold held; by rewrite E0).
  assert (0 <= default 0 (checked_cost resources prices)) as Hpos.
  { destruct (checked_cost resources prices) eqn:E; cbn; [exact (cost_nonneg _ _ _ Hr Hp E)|lia]. }
  split; [exact Hm'|]. split; [|split; [|split_and!; try done]].
  - intros b. rewrite Hl. unfold pay_fee, paid. cbn [out_receipt rc_resources]. case_bool_decide as Eb.
    + subst b. rewrite E0. by rewrite Hnext.
    + by destruct (ledger m b) as [[]|].
  - rewrite Htot, Hheld, Hnext. unfold paid. cbn [balance out_receipt rc_resources]. lia.
  - by exists a1.
  - unfold sort_canonical, diff_put. cbn [changes]. rewrite sort_changes_perm. apply Forall_app. split.
    + eapply Forall_impl; [exact Hdecl|by intros c []].
    + apply Forall_singleton. by apply contains_iff.
Qed.
End contract_effects.

(** ** A sample contract *)

Section contract_examples.
#[local] Existing Instance checksum_blake2s.
#[local] Existing Instance checksum_ed25519.

(** An engine that accepts no module. *)
#[local] Instance no_wasm : WasmEngine.
Proof.
  refine {| wasm_validate := λ _, Err InvalidModule; wasm_execute := λ _ _, Err InvalidModule |}; by intros.
Defined.

(** The sender deploys the counter and calls it. *)
Definition sample_contract : Address := trocto_contract_address 7 sample_sender 3.
Definition sample_total : StateKey := trocto_contract_state_key sample_contract (lit "total").
Definition sample_deploy : ContractAction := DeployTrocto counter_source.
Definition sample_call : ContractAction := CallTrocto sample_contract (le 8 2) [lit "total"].
Definition sample_keys : list StateKey :=
  [account_key sample_sender; trocto_contract_code_key sample_contract; sample_total].
Definition unsigned_contract (n : Z) (action : ContractAction) : Transaction :=
  mkTransaction 1 100 Contracts sample_prices 7 sample_sender n sample_keys (mkResources 2000 4000 2000 2000)
    (contract_to_bytes (mkContractPayload sample_key action)) zero64.
Definition sample_transaction (n : Z) (action : ContractAction) : Transaction :=
  let t := unsigned_contract n action in with_signature t (sk_sign sample_seed (signing_hash t)).
Definition sample_state : StateMap :=
  bt_insert runtime_key (le 4 3) (bt_insert (account_key sample_sender) (encode_account (mkAccount 3 100000)) []).
Definition deployed_state : StateMap := bt_insert (trocto_contract_code_key sample_contract) counter_source sample_state.
Definition contract_capacity : Resources := mkResources 10000 10000 10000 10000.

Lemma counter_end_ok : cache_ok counter_end.
Proof.
  assert (interleave counter_schedule (cache_new [counter_call; counter_call]) = Some counter_end) as Hi by (vm_compute; reflexivity).
  eapply interleave_ok; [exact counter_local|apply new_ok, counter_calls|exact Hi].
Qed.

Lemma contract_nodes_agree_witness :
  let run (calls : NativeCalls) :=
    execute_contract (native := calls) (map_view deployed_state) (sample_transaction 3 sample_call) sample_context
      contract_capacity sample_prices in
  is_ok (run reference_calls) = true ∧ node_agrees (run reference_calls) (run (cache_calls counter_end)).
Proof.
  split; [vm_compute; reflexivity|].
  refine (contract_nodes_agree (laws := cache_keeps_promise counter_end counter_end_ok) (map_view deployed_state)
    (sample_transaction 3 sample_call) sample_context contract_capacity sample_prices _). done.
Defined.
End contract_examples.
