(* ===== verification/Blocks.v ===== *)
(** * Blocks: sessions over a private overlay
    ([src/crates/execution/src/{signed,snapshot_cache}.rs], [Overlay] and [execute_serial] of
    [src/crates/execution/src/parallel_payment.rs])

    A session executes signed payments and contracts in order.  Every output is written to
    an overlay over an immutable parent, and a block publishes all diffs at once or nothing.
    The theorems say what a committed block did to accounts, balances and nonces, whatever
    mixture of payments and contracts it had. *)

From S2P Require Import Prelude Ordered Codec Types Crypto Trocto TroctoProgram Native NativeCache State StateTree Transactions Payments Contracts.

#[local] Arguments cmp : simpl never.

(** ** Overlay *)

Definition Overlay : Type := BTreeMap StateKey (option bytes).

Definition overlay_view (parent : StateView) (values : Overlay) : StateView := λ key,
  match bt_get key values with Some value => Ok value | None => parent key end.

Definition overlay_change (values : Overlay) (c : StateChange) : Overlay :=
  match c with Put key value => bt_insert key (Some value) values | Delete key => bt_insert key None values end.

Definition overlay_apply (values : Overlay) (diff : StateDiff) : Overlay :=
  fold_left overlay_change (changes diff) values.

(** ** Read-through cache *)

Definition MAX_CACHE_ENTRIES : Z := 4096.
Definition MAX_CACHE_BYTES : Z := 8 * 1024 * 1024.

Record CacheEntries := mkEntries { ce_values : BTreeMap StateKey (option bytes); ce_bytes : Z }.

(** [CachedSnapshot::get]; nobody panics while holding the lock. *)
Definition cached_get (parent : StateView) (e : CacheEntries) (key : StateKey)
    : CacheEntries * result (option bytes) StateError :=
  match bt_get key (ce_values e) with
  | Some value => (e, Ok value)
  | None =>
      match parent key with
      | Err error => (e, Err error)
      | Ok value =>
          match checked_add 64 (len key) (match value with Some v => len v | None => 0 end) with
          | None => (e, Ok value)
          | Some size =>
              if (len (ce_values e) <? MAX_CACHE_ENTRIES) && (size <=? saturating_sub MAX_CACHE_BYTES (ce_bytes e)) then
                (mkEntries (bt_insert key value (ce_values e)) (ce_bytes e + size), Ok value)
              else (e, Ok value)
          end
      end
  end.

(** ** Sessions *)

Record SignedSession := mkSigned {
  ss_values : Overlay;
  ss_context : ValidationContext;
  ss_capacity : Resources;
  ss_used : Resources;
  ss_contracts : bool;
  ss_prices : Resources
}.

Definition signed_new (context : ValidationContext) (capacity : Resources) (contracts : bool) : SignedSession :=
  mkSigned [] context capacity resources_zero contracts PAYMENT_PRICES.

Definition signed_with_prices (s : SignedSession) (prices : Resources) : SignedSession :=
  mkSigned (ss_values s) (ss_context s) (ss_capacity s) (ss_used s) (ss_contracts s) prices.

Record ExecutionPolicy := mkPolicy {
  po_capacity : Resources;
  po_prices : Resources;
  po_contracts : bool
}.

Section blocks.
Context {blake : Blake2s} {ed : Ed25519} {wasm : WasmEngine}.

(** The lane decides how a transaction is executed against a view. *)
Definition execute_lane (native : NativeCalls) (view : StateView) (context : ValidationContext) (policy : ExecutionPolicy)
    (t : Transaction) : result TransactionOutput ExecutionError :=
  match tx_lane t with
  | Types.Payments =>
      let? (output, _) := session_execute view (session_with_prices (session_new context (po_capacity policy)) (po_prices policy)) t in
      Ok output
  | Types.Contracts =>
      if po_contracts policy then execute_contract view t context (po_capacity policy) (po_prices policy)
      else Err (TransactionValidation UnsupportedPayload)
  | _ => Err (TransactionValidation UnsupportedPayload)
  end.

(** An error leaves the session as it was: the caller keeps [s]. *)
Definition signed_execute (native : NativeCalls) (parent : StateView) (s : SignedSession) (t : Transaction)
    : result (TransactionOutput * SignedSession) ExecutionError :=
  let policy := mkPolicy (ss_capacity s) (ss_prices s) (ss_contracts s) in
  let? output := execute_lane native (overlay_view parent (ss_values s)) (ss_context s) policy t in
  let? used := ok_or (resources_checked_add (ss_used s) (rc_resources (out_receipt output))) ResourceLimit in
  let? _ := reject_if (negb (fits_in used (ss_capacity s))) ResourceLimit in
  Ok (output, mkSigned (overlay_apply (ss_values s) (out_diff output)) (ss_context s) (ss_capacity s) used
                (ss_contracts s) (ss_prices s)).

(** The outputs in order, or the first error. *)
Fixpoint signed_all (native : NativeCalls) (parent : StateView) (s : SignedSession) (txs : list Transaction)
    : result (list TransactionOutput * SignedSession) ExecutionError :=
  match txs with
  | [] => Ok ([], s)
  | t :: txs =>
      let? (output, s) := signed_execute native parent s t in
      let? (outputs, s) := signed_all native parent s txs in
      Ok (output :: outputs, s)
  end.

Context {arcs : Arcs}.

(** [execute_serial]: over the in-memory database reads never fail and hints do nothing,
    and the cache shows its parent ([cached_transparent]). *)
Definition execute_serial (native : NativeCalls) (db : InMemoryState) (txs : list Transaction) (parent : Hash256)
    (context : ValidationContext) (policy : ExecutionPolicy)
    : InMemoryState * result (list TransactionOutput * Hash256) ExecutionError :=
  if negb (bool_decide (im_root db = parent)) then (db, Err (StateFailed StaleSnapshot))
  else
    let s := signed_with_prices (signed_new context (po_capacity policy) (po_contracts policy)) (po_prices policy) in
    match signed_all native (database_view db) s txs with
    | Err error => (db, Err error)
    | Ok (outputs, _) =>
        match commit db parent (map out_diff outputs) with
        | (db, Ok root) => (db, Ok (outputs, root))
        | (db, Err error) => (db, Err (StateFailed error))
        end
    end.

Definition execute_signed (native : NativeCalls) (db : InMemoryState) (txs : list Transaction) (parent : Hash256)
    (context : ValidationContext) (capacity : Resources)
    : InMemoryState * result (list TransactionOutput * Hash256) ExecutionError :=
  execute_serial native db txs parent context (mkPolicy capacity PAYMENT_PRICES true).
End blocks.

(** ** The cache is transparent *)

(** What the cache holds is what the parent answers. *)
Definition cache_faithful (parent : StateView) (e : CacheEntries) : Prop :=
  ∀ key value, bt_get key (ce_values e) = Some value → parent key = Ok value.

Lemma cached_transparent parent e key :
  cache_faithful parent e →
  snd (cached_get parent e key) = parent key ∧ cache_faithful parent (fst (cached_get parent e key)).
Proof.
  intros Hf. unfold cached_get. destruct (bt_get key (ce_values e)) as [v|] eqn:Hg; [by rewrite (Hf _ _ Hg)|].
  destruct (parent key) as [v|x] eqn:Hp; [|done]. destruct (checked_add 64 _ _); [|done]. case_match; [|done].
  split; [done|]. intros k w. cbn. destruct (decide (k = key)) as [->|Hne]; [|by rewrite bt_get_insert_ne; auto].
  rewrite bt_get_insert_eq. by intros [= <-].
Qed.

(** ** The overlay shows the state of the session *)

Lemma overlay_changes_show parent values cs m :
  bt_ok m → shows (overlay_view parent values) m →
  bt_ok (fold_left apply_change cs m) ∧ shows (overlay_view parent (fold_left overlay_change cs values)) (fold_left apply_change cs m).
Proof.
  revert values m. induction cs as [|c cs IH]; intros values m Hm Hs; [done|]. cbn [fold_left]. apply IH.
  - destruct c; cbn; [by apply bt_ok_insert|by apply bt_ok_remove].
  - intros key. specialize (Hs key). unfold overlay_view in *.
    destruct c as [k v|k]; cbn [apply_change overlay_change]; (destruct (decide (key = k)) as [->|Hne];
      [rewrite bt_get_insert_eq|rewrite bt_get_insert_ne by done]).
    + by rewrite bt_get_insert_eq.
    + by rewrite bt_get_insert_ne.
    + by rewrite bt_get_remove_eq.
    + by rewrite bt_get_remove_ne.
Qed.

Section block_steps.
Context {blake : Blake2s} {ed : Ed25519} {wasm : WasmEngine} {arcs : Arcs} {calls : NativeCalls} {laws : NativeLaws calls}.
Implicit Types (m : StateMap) (s : SignedSession) (t : Transaction) (a : Address).

Lemma payment_receipt view p t out p' :
  session_execute view p t = Ok (out, p') →
  rc_resources (out_receipt out) = payment_resources t ∧ fits_in (payment_resources t) (tx_resource_limit t) = true
  ∧ Forall (λ c, change_key c ∈ tx_access_list t) (changes (out_diff out)).
Proof.
  intros H. unfold session_execute in H. bind_inv H. guards. subst. cbn [out_receipt rc_resources out_diff].
  split; [done|]. split; [done|]. unfold payment_diff, sort_canonical. cbn [changes]. rewrite sort_changes_perm.
  destruct (tr_recipient _); cbn; by repeat constructor.
Qed.

(** The accounts after a transaction that paid what its receipt stands for. *)
Definition settle_output (prices : Resources) (accounts : Address → result (option AccountState) StateError)
    (step : Transaction * TransactionOutput) : Address → result (option AccountState) StateError :=
  match tx_lane step.1 with
  | Types.Payments => settle (λ _, paid prices step.2) accounts step.1
  | _ => pay_fee (paid prices step.2) accounts step.1
  end.

(** What one executed transaction did to the state. *)
Record executed (prices : Resources) m t (out : TransactionOutput) : Prop := {
  ex_ok : bt_ok (apply_to (out_diff out) m);
  ex_accounts : ∀ a, ledger (apply_to (out_diff out) m) a = settle_output prices (ledger m) (t, out) a;
  ex_total : total (apply_to (out_diff out) m) = total m - paid prices out;
  ex_paid : 0 <= paid prices out;
  ex_authentic : authentic t;
  ex_receipt : rc_transaction (out_receipt out) = compute_tx_id t;
  ex_sender : ∃ sender, ledger m (tx_sender t) = Ok (Some sender) ∧ nonce sender = tx_nonce t;
  ex_declared : Forall (λ c, change_key c ∈ tx_access_list t) (changes (out_diff out));
  ex_payload : tx_lane t = Types.Payments → is_ok (payment_decode (tx_payload t)) = true;
  ex_limit : fits_in (rc_resources (out_receipt out)) (tx_resource_limit t) = true
}.

Lemma shows_tracks view m context capacity prices :
  shows view m → tracks view (session_with_prices (session_new context capacity) prices) m.
Proof. intros Hs a. unfold session_account. cbn [ps_accounts session_with_prices session_new bt_get]. by rewrite (shows_ledger _ m). Qed.

Lemma lane_executed view m context policy t out :
  bt_ok m → shows view m → resources_ok (po_prices policy) → u64 (vc_next_height context) →
  execute_lane calls view context policy t = Ok out → executed (po_prices policy) m t out.
Proof.
  intros Hm Hs Hp Hh Hex. unfold execute_lane in Hex. destruct (tx_lane t) eqn:Hlane; [| |done].
  - bind_inv Hex. subst. destruct (payment_receipt _ _ _ _ _ E) as (Hr & Hfit & Hdecl).
    assert (paid (po_prices policy) out = fee_of (po_prices policy) t) as Hpaid by (unfold paid, fee_of; by rewrite Hr).
    pose proof (payment_step _ _ m _ _ _ Hm (shows_tracks _ _ context (po_capacity policy) (po_prices policy) Hs) Hp E)
      as ((Hm' & _ & _) & Hl & Htot & Hauth & Hid & Hsend).
    pose proof (session_execute_inv _ _ _ _ _ E) as (payment & _ & _ & _ & Hpay & _). split; try done.
    + intros a. rewrite Hl. unfold settle_output. cbn [fst snd]. rewrite Hlane. cbn [ps_prices session_with_prices].
      unfold settle. by rewrite Hpaid.
    + rewrite Htot, Hpaid. done.
    + rewrite Hpaid. by apply fee_nonneg.
    + by rewrite Hpay.
    + by rewrite Hr.
  - destruct (po_contracts policy); [|done].
    destruct (contract_step _ _ _ _ _ _ _ Hm Hs Hp Hh Hex) as (Hm' & Hl & Htot & Hauth & Hid & Hsend & Hdecl & Hfit & Hpos).
    split; try done; [|by rewrite Hlane]. intros a. rewrite Hl. unfold settle_output. cbn [fst snd]. by rewrite Hlane.
Qed.

(** A session and the state it shows. *)
Record session_ok (parent : StateView) s m : Prop := {
  so_map : bt_ok m;
  so_shows : shows (overlay_view parent (ss_values s)) m;
  so_prices : resources_ok (ss_prices s);
  so_height : u64 (vc_next_height (ss_context s))
}.

Lemma signed_step parent s m t out s' :
  session_ok parent s m → signed_execute calls parent s t = Ok (out, s') →
  executed (ss_prices s) m t out ∧ session_ok parent s' (apply_to (out_diff out) m) ∧ ss_prices s' = ss_prices s.
Proof.
  intros [Hm Hs Hp Hh] Hex. unfold signed_execute in Hex. bind_inv Hex. guards. subst.
  pose proof (lane_executed _ m _ (mkPolicy (ss_capacity s) (ss_prices s) (ss_contracts s)) _ _ Hm Hs Hp Hh E) as He.
  split; [done|]. split; [|done]. destruct (overlay_changes_show parent (ss_values s) (changes (out_diff out)) m Hm Hs) as [Hm' Hs'].
  by split.
Qed.

Lemma executed_nonces prices m t out :
  executed prices m t out →
  next_nonce m (tx_sender t) = tx_nonce t
  ∧ next_nonce (apply_to (out_diff out) m) (tx_sender t) = tx_nonce t + 1
  ∧ ∀ a, next_nonce m a <= next_nonce (apply_to (out_diff out) m) a.
Proof.
  intros He. destruct (ex_sender _ _ _ _ He) as (sender & Hs & Hn). pose proof (ex_payload _ _ _ _ He) as Hpl.
  assert (∀ a, next_nonce (apply_to (out_diff out) m) a
    = match settle_output prices (ledger m) (t, out) a with Ok (Some acc) => nonce acc | _ => 0 end) as Hnn
    by (intros a; unfold next_nonce; by rewrite (ex_accounts _ _ _ _ He)).
  unfold settle_output in Hnn. cbn [fst snd] in Hnn. split; [unfold next_nonce; by rewrite Hs|].
  destruct (tx_lane t) eqn:Hlane.
  - destruct (payment_decode (tx_payload t)) as [payment|] eqn:Hpay; [|by specialize (Hpl eq_refl)].
    unfold settle in Hnn. rewrite Hpay, Hs in Hnn. split; [rewrite Hnn, bool_decide_eq_true_2 by done; cbn; lia|].
    intros a. rewrite Hnn. unfold next_nonce. destruct (decide (a = tx_sender t)) as [->|Hne].
    { rewrite bool_decide_eq_true_2, Hs by done. cbn. lia. }
    rewrite (bool_decide_eq_false_2 (a = tx_sender t)) by done. cbv zeta.
    destruct (bool_decide (a = pay_recipient payment)); [|lia]. destruct (ledger m a) as [[acc|]|]; cbn; lia.
  - unfold pay_fee in Hnn. split; [rewrite Hnn, Hs, bool_decide_eq_true_2 by done; cbn; lia|].
    intros a. rewrite Hnn. unfold next_nonce. destruct (ledger m a) as [[acc|]|]; try lia. case_bool_decide; cbn; lia.
  - unfold pay_fee in Hnn. split; [rewrite Hnn, Hs, bool_decide_eq_true_2 by done; cbn; lia|].
    intros a. rewrite Hnn. unfold next_nonce. destruct (ledger m a) as [[acc|]|]; try lia. case_bool_decide; cbn; lia.
Qed.

(** The transactions of a block, each executed in the state its predecessors left. *)
Inductive block_run (prices : Resources) : StateMap → list Transaction → list TransactionOutput → Prop :=
| run_done m : block_run prices m [] []
| run_next m t txs out outs :
    executed prices m t out → block_run prices (apply_to (out_diff out) m) txs outs →
    block_run prices m (t :: txs) (out :: outs).

Lemma signed_all_run parent s m txs outs s' :
  session_ok parent s m → signed_all calls parent s txs = Ok (outs, s') → block_run (ss_prices s) m txs outs.
Proof.
  revert s m outs. induction txs as [|t txs IH]; intros s m outs Hok Hall; cbn in Hall; [simplify_eq; constructor|].
  bind_inv Hall. subst. destruct (signed_step _ _ _ _ _ _ Hok E) as (He & Hok' & Hp).
  constructor; [done|]. rewrite <- Hp. by eapply IH.
Qed.

Lemma settle_output_ext prices l1 l2 x a : (∀ a, l1 a = l2 a) → settle_output prices l1 x a = settle_output prices l2 x a.
Proof.
  intros Hl. unfold settle_output. destruct (tx_lane x.1); [by apply settle_ext|unfold pay_fee; by rewrite Hl..].
Qed.

Lemma settle_outputs_ext prices xs l1 l2 a :
  (∀ a, l1 a = l2 a) → fold_left (settle_output prices) xs l1 a = fold_left (settle_output prices) xs l2 a.
Proof.
  revert l1 l2. induction xs as [|x xs IH]; intros l1 l2 Hl; [apply Hl|]. apply IH. intros b. by apply settle_output_ext.
Qed.

Lemma block_run_spec prices m txs outs :
  block_run prices m txs outs →
  (∀ a, ledger (block_map m outs) a = fold_left (settle_output prices) (zip txs outs) (ledger m) a)
  ∧ total (block_map m outs) = total m - sumZ (paid prices) outs
  ∧ Forall authentic txs ∧ map (λ o, rc_transaction (out_receipt o)) outs = map compute_tx_id txs
  ∧ Forall2 (λ t o, Forall (λ c, change_key c ∈ tx_access_list t) (changes (out_diff o))
                    ∧ fits_in (rc_resources (out_receipt o)) (tx_resource_limit t) = true) txs outs.
Proof.
  induction 1 as [m|m t txs out outs He Hrun IH].
  { split; [done|]. split; [change (block_map m []) with m; cbn [sumZ]; lia|]. by split_and!. }
  destruct IH as (Hl & Htot & Hauth & Hids & Hall). rewrite block_map_cons.
  split; [|split; [rewrite Htot, (ex_total _ _ _ _ He); cbn [sumZ]; lia|split_and!]].
  - intros a. rewrite Hl. cbn [zip zip_with fold_left]. apply settle_outputs_ext. apply (ex_accounts _ _ _ _ He).
  - constructor; [by apply He|done].
  - cbn [map]. by rewrite Hids, (ex_receipt _ _ _ _ He).
  - constructor; [split; apply He|done].
Qed.

Lemma block_run_nonces prices m txs outs :
  block_run prices m txs outs →
  (∀ a, next_nonce m a <= next_nonce (block_map m outs) a) ∧ NoDup txs
  ∧ ∀ t, t ∈ txs → next_nonce m (tx_sender t) <= tx_nonce t < next_nonce (block_map m outs) (tx_sender t).
Proof.
  induction 1 as [m|m t txs out outs He Hrun IH].
  { split; [done|]. split; [constructor|]. by intros t ?%elem_of_nil. }
  destruct IH as (Hmono' & Hnd & Hin). rewrite block_map_cons. destruct (executed_nonces _ _ _ _ He) as (Hn & Hn' & Hmono).
  split; [intros a; specialize (Hmono a); specialize (Hmono' a); lia|]. split.
  - constructor; [|done]. intros Hd%Hin. lia.
  - intros t' [->|Ht'']%elem_of_cons.
    + specialize (Hmono' (tx_sender t)). lia.
    + specialize (Hin _ Ht''). specialize (Hmono (tx_sender t')). lia.
Qed.

Lemma database_shows db m : represents db m → shows (database_view db) m.
Proof. intros Hr key. unfold database_view. by rewrite (represents_get _ _ _ Hr). Qed.

Lemma commit_outputs db m parent (outs : list TransactionOutput) db' root :
  represents db m → commit db parent (map out_diff outs) = (db', Ok root) →
  represents db' (block_map m outs) ∧ im_root db' = root.
Proof.
  intros Hr Hc. destruct (commit_simulates db m parent (map out_diff outs) None Hr I) as [Hsim Hres].
  unfold commit, prepare in Hc. unfold commit_sealed in Hsim, Hres. rewrite Hc in Hsim, Hres. cbn [fst snd] in *.
  unfold map_commit in *. case_bool_decide; [|done]. destruct (stage m _) as [next|] eqn:Est; [|done]. cbn [fst snd] in *.
  apply stage_ok in Est as [_ ->]; [|apply Hr]. split; [done|]. injection Hres as ->. by destruct Hsim as [_ ->].
Qed.

Lemma execute_serial_run db m txs parent context policy db' outs root :
  represents db m → resources_ok (po_prices policy) → u64 (vc_next_height context) →
  execute_serial calls db txs parent context policy = (db', Ok (outs, root)) →
  block_run (po_prices policy) m txs outs ∧ represents db' (block_map m outs) ∧ im_root db' = root.
Proof.
  intros Hr Hp Hh Hex. unfold execute_serial in Hex. case_bool_decide; [|done]. cbn [negb] in Hex.
  destruct (signed_all _ _ _ _) as [[outs' s']|] eqn:E; [|done].
  destruct (commit _ _ _) as [db1 [root'|]] eqn:Ec; [|done]. simplify_eq. split; [|by eapply commit_outputs].
  eapply (signed_all_run (database_view db) (signed_with_prices _ _)); [|exact E]. split; [apply Hr| |done..].
  by apply database_shows.
Qed.

Lemma execute_serial_error db txs parent context policy db' e :
  execute_serial calls db txs parent context policy = (db', Err e) → db' = db.
Proof.
  intros Hex. unfold execute_serial in Hex. case_bool_decide; cbn [negb] in Hex; [|by simplify_eq].
  destruct (signed_all _ _ _ _) as [[outs' s']|]; [|by simplify_eq].
  unfold commit, publish in Hex. destruct (prepare db parent _); by simplify_eq.
Qed.

(** Any number of committed blocks of any lanes, under the network's prices. *)
Inductive signed_chain : InMemoryState → InMemoryState → Prop :=
| signed_here db : signed_chain db db
| signed_block db txs parent context capacity db' r db'' :
    u64 (vc_next_height context) → execute_signed calls db txs parent context capacity = (db', Ok r) →
    signed_chain db' db'' → signed_chain db db''.

Lemma signed_nonces db m txs parent context capacity db' outs root :
  represents db m → u64 (vc_next_height context) →
  execute_signed calls db txs parent context capacity = (db', Ok (outs, root)) →
  represents db' (block_map m outs) ∧ NoDup txs
  ∧ (∀ a, next_nonce m a <= next_nonce (block_map m outs) a)
  ∧ ∀ t, t ∈ txs → next_nonce m (tx_sender t) <= tx_nonce t < next_nonce (block_map m outs) (tx_sender t).
Proof.
  intros Hr Hh Hex. apply (execute_serial_run _ m) in Hex as (Hrun & Hr' & _); [|done|apply payment_prices_ok|done].
  apply block_run_nonces in Hrun as (? & ? & ?). done.
Qed.

Lemma signed_chain_nonces db db' m :
  represents db m → signed_chain db db' →
  ∃ m', represents db' m' ∧ ∀ a, next_nonce m a <= next_nonce m' a.
Proof.
  intros Hr Hc. revert m Hr. induction Hc as [db|db txs parent context capacity db' [outs root] db'' Hh E Hc IH];
    intros m Hr; [by exists m|].
  destruct (signed_nonces _ _ _ _ _ _ _ _ _ Hr Hh E) as (Hr' & _ & Hmono & _).
  destruct (IH _ Hr') as (m' & Hm' & Hmono'). exists m'. split; [done|]. intros a. specialize (Hmono a). specialize (Hmono' a). lia.
Qed.

(** C34: A block of payments and contracts is executed exactly or not at all. On an error
    the database is the one before. Otherwise the published root is the database's, every
    transaction was signed by its sender, the receipts name the transactions in order and
    stay within their declared limits, every key written was declared by its transaction,
    the accounts are those that the payments and the contracts' fees leave one after the
    other, and the coins in existence fall by exactly the fees of the receipts. *)
Theorem signed_blocks_exact db m txs parent context policy db' r :
  represents db m → resources_ok (po_prices policy) → u64 (vc_next_height context) →
  execute_serial calls db txs parent context policy = (db', r) →
  match r with
  | Err _ => db' = db
  | Ok (outs, root) => im_root db' = root ∧ Forall authentic txs
      ∧ map (λ o, rc_transaction (out_receipt o)) outs = map compute_tx_id txs
      ∧ Forall2 (λ t o, Forall (λ c, change_key c ∈ tx_access_list t) (changes (out_diff o))
                        ∧ fits_in (rc_resources (out_receipt o)) (tx_resource_limit t) = true) txs outs
      ∧ ∃ m', represents db' m'
        ∧ (∀ a, ledger m' a = fold_left (settle_output (po_prices policy)) (zip txs outs) (ledger m) a)
        ∧ total m' = total m - sumZ (paid (po_prices policy)) outs
  end.
Proof.
  intros Hr Hp Hh Hex. destruct r as [[outs root]|e]; [|by eapply execute_serial_error].
  destruct (execute_serial_run _ _ _ _ _ _ _ _ _ Hr Hp Hh Hex) as (Hrun & Hr' & Hroot).
  destruct (block_run_spec _ _ _ _ Hrun) as (Hl & Htot & Hauth & Hids & Hall). split_and!; try done.
  by exists (block_map m outs).
Qed.

(** C35: No transaction of any lane is ever executed twice: a committed block has no
    repeated transaction, and after any further committed blocks every block that contains
    one of its transactions again is refused. *)
Theorem signed_no_replay db m txs parent context capacity db1 r db2 t :
  represents db m → u64 (vc_next_height context) →
  execute_signed calls db txs parent context capacity = (db1, Ok r) → signed_chain db1 db2 → t ∈ txs →
  NoDup txs
  ∧ ∀ txs' parent' context' capacity', u64 (vc_next_height context') → t ∈ txs' →
    is_ok (snd (execute_signed calls db2 txs' parent' context' capacity')) = false.
Proof.
  intros Hr Hh E Hc Hin. destruct r as [outs root].
  destruct (signed_nonces _ _ _ _ _ _ _ _ _ Hr Hh E) as (Hr1 & Hnd & _ & Hn).
  destruct (signed_chain_nonces _ _ _ Hr1 Hc) as (m2 & Hr2 & Hmono). split; [done|]. intros txs' p' c' cap' Hh' Hin'.
  destruct (execute_signed calls db2 txs' p' c' cap') as [db3 [[outs3 root3]|]] eqn:E3; [|done].
  destruct (signed_nonces _ _ _ _ _ _ _ _ _ Hr2 Hh' E3) as (_ & _ & _ & Hn3).
  specialize (Hn _ Hin). specialize (Hn3 _ Hin'). specialize (Hmono (tx_sender t)). lia.
Qed.
End block_steps.

(** ** A sample block *)

Section block_examples.
#[local] Existing Instance checksum_blake2s.
#[local] Existing Instance checksum_ed25519.
#[local] Existing Instance fresh_arcs.
#[local] Existing Instance no_wasm.

(** The sender deploys the counter, calls it and pays the recipient. *)
Definition contract_ledger : InMemoryState :=
  fst (commit_sealed state_new empty_root [mkDiff (map (λ '(k, v), Put k v) sample_state)] None).
Definition mixed_block : list Transaction :=
  [sample_transaction 3 sample_deploy; sample_transaction 4 sample_call; sample_payment sample_recipient 5 40].
Definition mixed_policy : ExecutionPolicy := mkPolicy contract_capacity PAYMENT_PRICES true.
Definition mixed_run : InMemoryState * result (list TransactionOutput * Hash256) ExecutionError :=
  execute_serial reference_calls contract_ledger mixed_block (im_root contract_ledger) sample_context mixed_policy.

Lemma contract_ledger_represents : ∃ m, represents contract_ledger m.
Proof. apply state_reach_map. by apply reach_commit; [constructor|]. Qed.

Lemma signed_blocks_exact_witness :
  is_ok (snd mixed_run) = true
  ∧ ∃ m, represents contract_ledger m
  ∧ match snd mixed_run with
    | Err _ => fst mixed_run = contract_ledger
    | Ok (outs, root) => im_root (fst mixed_run) = root ∧ Forall authentic mixed_block
        ∧ map (λ o, rc_transaction (out_receipt o)) outs = map compute_tx_id mixed_block
        ∧ Forall2 (λ t o, Forall (λ c, change_key c ∈ tx_access_list t) (changes (out_diff o))
                        ∧ fits_in (rc_resources (out_receipt o)) (tx_resource_limit t) = true) mixed_block outs
        ∧ ∃ m', represents (fst mixed_run) m'
          ∧ (∀ a, ledger m' a = fold_left (settle_output (po_prices mixed_policy)) (zip mixed_block outs) (ledger m) a)
          ∧ total m' = total m - sumZ (paid (po_prices mixed_policy)) outs
    end.
Proof.
  split; [vm_compute; reflexivity|]. destruct contract_ledger_represents as [m Hm]. exists m. split; [exact Hm|].
  assert (resources_ok (po_prices mixed_policy)) as Hp by apply payment_prices_ok.
  assert (u64 (vc_next_height sample_context)) as Hh by done.
  pose proof (signed_blocks_exact (calls := reference_calls) contract_ledger m mixed_block (im_root contract_ledger)
    sample_context mixed_policy (fst mixed_run) (snd mixed_run) Hm Hp Hh (surjective_pairing mixed_run)) as Hx.
  exact Hx.
Defined.

Definition mixed_outcome : list TransactionOutput * Hash256 :=
  match snd mixed_run with Ok r => r | Err _ => ([], zero32) end.

Lemma signed_no_replay_witness :
  NoDup mixed_block
  ∧ ∀ txs' parent' capacity', sample_transaction 3 sample_deploy ∈ txs' →
    is_ok (snd (execute_signed reference_calls (fst mixed_run) txs' parent' sample_context capacity')) = false.
Proof.
  destruct contract_ledger_represents as [m Hm].
  assert (u64 (vc_next_height sample_context)) as Hh by done.
  assert (mixed_run = (fst mixed_run, Ok mixed_outcome)) as Hrun.
  { assert (is_ok (snd mixed_run) = true) as Hok by (vm_compute; reflexivity).
    unfold mixed_outcome. destruct mixed_run as [db [r|e]]; [reflexivity|discriminate]. }
  destruct (signed_no_replay (calls := reference_calls) contract_ledger m mixed_block (im_root contract_ledger) sample_context
    contract_capacity (fst mixed_run) mixed_outcome (fst mixed_run) (sample_transaction 3 sample_deploy) Hm Hh Hrun
    (signed_here _) (list_elem_of_here _ _)) as [Hnd Hre].
  split; [exact Hnd|]. intros txs' parent' capacity'. exact (Hre txs' parent' sample_context capacity' Hh).
Defined.
End block_examples.
