(* ===== verification/Scheduler.v ===== *)
(** * Scheduler: which transactions of a block may run at the same time
    ([src/crates/execution/src/{scheduler,wave}.rs])

    Two transactions conflict when they have the same sender or when one declares a key
    for writing that the other declares.  The planner places every transaction in the
    earliest wave after its conflicting predecessors; the dependency graph names, for every
    transaction, enough earlier ones that waiting for them means waiting for every
    conflicting predecessor. *)

From stdpp Require Import sorting.
From S2P Require Import Prelude Ordered Codec Types Crypto State Transactions.

#[local] Arguments cmp : simpl never.

Record ExecutionWave := mkWave { transaction_indexes : list nat }.
Record ExecutionPlan := mkPlan { waves : list ExecutionWave }.

Inductive ExecutionLane := LanePayments | LaneContracts | LaneSystem.

Section scheduler.
Context `{!Blake2s}.

(** [SerialScheduler]. *)
Definition serial_plan (txs : list Transaction) : ExecutionPlan :=
  mkPlan (map (λ i, mkWave [i]) (seq 0 (length txs))).

Definition serial_lease (t : Transaction) : StateLease :=
  lease_new (map (λ key, mkRequest key WriteAccess) (tx_access_list t)).

(** [slice::has_prefix]. *)
Definition has_prefix (bs prefix : bytes) : bool := bool_decide (take (length prefix) bs = prefix).

(** The code key that a canonical contract call only reads. *)
Definition read_only_code (t : Transaction) : option StateKey :=
  if negb (bool_decide (tx_lane t = Types.Contracts))
     || negb (has_prefix (tx_payload t) (contract_tag false) || has_prefix (tx_payload t) (contract_tag true))
     || negb (bool_decide (tx_payload t !! 40%nat = Some (byte_of 1)))
  then None
  else
    match contract_decode (tx_payload t) with
    | Err _ => None
    | Ok payload =>
        match cp_action payload with
        | Call address _ _ => Some (contract_code_key address)
        | CallTrocto address _ _ => Some (trocto_contract_code_key address)
        | Deploy _ | DeployTrocto _ => None
        end
    end.

Definition access_mode (key : StateKey) (read_only : option StateKey) : AccessMode :=
  if bool_decide (read_only = Some key) then ReadAccess else WriteAccess.

(** [GreedyScheduler::lease]. *)
Definition greedy_lease (t : Transaction) : StateLease :=
  lease_new (map (λ key, mkRequest key (access_mode key (read_only_code t))) (tx_access_list t)).

(** ** The dependency graph ([GreedyScheduler::dependencies]) *)

Record History := mkHistory { hi_writer : option nat; hi_readers : list nat }.

(** [Vec::dedup]. *)
Fixpoint dedup (xs : list nat) : list nat :=
  match xs with
  | x :: (y :: _) as rest => if bool_decide (x = y) then dedup rest else x :: dedup rest
  | xs => xs
  end.

Definition previous_of (histories : BTreeMap StateKey History) (read_only : option StateKey) (key : StateKey) : list nat :=
  match bt_get key histories with
  | Some h => option_list (hi_writer h)
              ++ (if bool_decide (access_mode key read_only = WriteAccess) then hi_readers h else [])
  | None => []
  end.

Definition record_access (index : nat) (read_only : option StateKey) (histories : BTreeMap StateKey History)
    (key : StateKey) : BTreeMap StateKey History :=
  let h := default (mkHistory None []) (bt_get key histories) in
  bt_insert key
    (if bool_decide (access_mode key read_only = ReadAccess) then
       if bool_decide (last (hi_readers h) = Some index) then h
       else mkHistory (hi_writer h) (hi_readers h ++ [index])
     else mkHistory (Some index) []) histories.

(** The histories of keys, the last transaction of every sender, the lists so far. *)
Record Graph := mkGraph {
  gr_histories : BTreeMap StateKey History;
  gr_senders : BTreeMap Address nat;
  gr_dependencies : list (list nat)
}.

Definition graph_step (g : Graph) (t : Transaction) : Graph :=
  let index := length (gr_dependencies g) in
  let read_only := read_only_code t in
  let previous := flat_map (previous_of (gr_histories g) read_only) (tx_access_list t)
                  ++ option_list (bt_get (tx_sender t) (gr_senders g)) in
  mkGraph (fold_left (record_access index read_only) (tx_access_list t) (gr_histories g))
    (bt_insert (tx_sender t) index (gr_senders g))
    (gr_dependencies g ++ [dedup (merge_sort Nat.le previous)]).

Definition dependencies (txs : list Transaction) : list (list nat) :=
  gr_dependencies (fold_left graph_step txs (mkGraph [] [] [])).

(** ** Waves ([GreedyScheduler::plan]) *)

Record KeyHistory := mkKeyHistory { kh_writer : option nat; kh_last_access : nat }.

(** The wave a declared key makes the transaction wait for. *)
Definition predecessor_wave (histories : BTreeMap StateKey KeyHistory) (read_only : option StateKey) (key : StateKey)
    : option nat :=
  h ← bt_get key histories;
  match access_mode key read_only with ReadAccess => kh_writer h | WriteAccess => Some (kh_last_access h) end.

(** [Iterator::max]. *)
Definition max_of (xs : list nat) : option nat :=
  match xs with [] => None | x :: xs => Some (fold_left Nat.max xs x) end.

Definition record_wave (wave : nat) (read_only : option StateKey) (histories : BTreeMap StateKey KeyHistory)
    (key : StateKey) : BTreeMap StateKey KeyHistory :=
  let write := bool_decide (access_mode key read_only = WriteAccess) in
  bt_insert key
    match bt_get key histories with
    | Some h => mkKeyHistory (if write then Some wave else kh_writer h) (Nat.max (kh_last_access h) wave)
    | None => mkKeyHistory (if write then Some wave else None) wave
    end histories.

(** Appends to an existing wave or to a new last one; any other index would panic. *)
Definition place (wave index : nat) (ws : list (list nat)) : option (list (list nat)) :=
  let ws := if bool_decide (wave = length ws) then ws ++ [[]] else ws in
  here ← ws !! wave;
  Some (<[wave := here ++ [index]]> ws).

Record Planner := mkPlanner {
  pl_histories : BTreeMap StateKey KeyHistory;
  pl_senders : BTreeMap Address nat;
  pl_waves : list (list nat)
}.

Definition plan_step (index : nat) (p : Planner) (t : Transaction) : option Planner :=
  let read_only := read_only_code t in
  let predecessor := max_of (omap (predecessor_wave (pl_histories p) read_only) (tx_access_list t)
                             ++ option_list (bt_get (tx_sender t) (pl_senders p))) in
  let wave := match predecessor with Some previous => S previous | None => O end in
  ws ← place wave index (pl_waves p);
  Some (mkPlanner (fold_left (record_wave wave read_only) (tx_access_list t) (pl_histories p))
          (bt_insert (tx_sender t) wave (pl_senders p)) ws).

Fixpoint plan_from (index : nat) (p : Planner) (txs : list Transaction) : option Planner :=
  match txs with
  | [] => Some p
  | t :: txs => p ← plan_step index p t; plan_from (S index) p txs
  end.

(** [None] is a panic. *)
Definition greedy_plan (txs : list Transaction) : option ExecutionPlan :=
  p ← plan_from 0 (mkPlanner [] [] []) txs; Some (mkPlan (map mkWave (pl_waves p))).
End scheduler.

Definition lane_of (lane : TransactionLane) : ExecutionLane :=
  match lane with Types.Payments => LanePayments | Types.Contracts => LaneContracts | System => LaneSystem end.

(** ** Conflicts *)

(** A map updated at every key of a list by a function that is idempotent. *)
Lemma bt_get_updates {K V : Type} `{!TotalOrd K, !EqDecision K} (f : K → option V → V) (keys : list K) (m : BTreeMap K V) (key : K) :
  (∀ k o, f k (Some (f k o)) = f k o) →
  bt_get key (fold_left (λ m k, bt_insert k (f k (bt_get k m)) m) keys m)
  = if bool_decide (key ∈ keys) then Some (f key (bt_get key m)) else bt_get key m.
Proof.
  intros Hf. revert m. induction keys as [|k keys IH]; intros m; [by rewrite bool_decide_eq_false_2 by apply not_elem_of_nil|].
  cbn [fold_left]. rewrite IH. destruct (decide (key = k)) as [->|Hne].
  - rewrite bt_get_insert_eq, Hf, (bool_decide_eq_true_2 (k ∈ k :: keys)) by apply list_elem_of_here. by case_bool_decide.
  - rewrite bt_get_insert_ne by done. do 2 case_bool_decide; try done; exfalso; set_solver.
Qed.

Section conflicts.
Context `{!Blake2s}.
Implicit Types (t a b : Transaction) (key : StateKey).

Definition mode_in t key : AccessMode := access_mode key (read_only_code t).

(** What the scheduler must keep in order. *)
Definition conflicting a b : Prop :=
  tx_sender a = tx_sender b
  ∨ ∃ key, key ∈ tx_access_list a ∧ key ∈ tx_access_list b ∧ (mode_in a key = WriteAccess ∨ mode_in b key = WriteAccess).

Lemma mode_cases t key : mode_in t key = ReadAccess ∨ mode_in t key = WriteAccess.
Proof. destruct (mode_in t key); auto. Qed.

(** ** Dependencies are complete *)

(** Sets of transactions that contain the listed predecessors of their members. *)
Definition closed (deps : list (list nat)) (D : nat → Prop) : Prop :=
  ∀ i ps p, deps !! i = Some ps → D i → p ∈ ps → D p.

(** Every such set that contains [i] contains [j]. *)
Definition implies (deps : list (list nat)) (i j : nat) : Prop := ∀ D, closed deps D → D i → D j.

Lemma closed_prefix deps ps D : closed (deps ++ [ps]) D → closed deps D.
Proof. intros Hc i qs p Hi. apply Hc. by apply lookup_app_l_Some. Qed.

Lemma implies_app deps ps i j : implies deps i j → implies (deps ++ [ps]) i j.
Proof. intros Hi D Hc%closed_prefix. by apply Hi. Qed.

Lemma implies_last deps ps p j : p ∈ ps → implies deps p j → implies (deps ++ [ps]) (length deps) j.
Proof.
  intros Hp Hi D Hc HD. apply Hi; [by eapply closed_prefix|]. eapply (Hc (length deps)); eauto.
  by rewrite lookup_app_r, Nat.sub_diag.
Qed.

Lemma dedup_elem xs x : x ∈ dedup xs ↔ x ∈ xs.
Proof.
  induction xs as [|y [|z rest] IH]; [done..|]. cbn [dedup]. case_bool_decide as E.
  - rewrite IH. subst. set_solver.
  - rewrite !(elem_of_cons _ _ y), IH. done.
Qed.

Lemma sorted_elem xs x : x ∈ dedup (merge_sort Nat.le xs) ↔ x ∈ xs.
Proof. rewrite dedup_elem. by rewrite (merge_sort_Permutation Nat.le xs). Qed.

(** The history of a key knows [j], directly or through its last writer. *)
Definition knows (deps : list (list nat)) (h : History) (mode : AccessMode) (j : nat) : Prop :=
  (mode = ReadAccess ∧ j ∈ hi_readers h) ∨ ∃ w, hi_writer h = Some w ∧ implies deps w j.

Record graph_ok (txs : list Transaction) (g : Graph) : Prop := {
  go_length : length (gr_dependencies g) = length txs;
  go_before : ∀ i ps p, gr_dependencies g !! i = Some ps → p ∈ ps → (p < i)%nat;
  go_known : ∀ j t key, txs !! j = Some t → key ∈ tx_access_list t →
    ∃ h, bt_get key (gr_histories g) = Some h ∧ knows (gr_dependencies g) h (mode_in t key) j;
  go_range : ∀ key h p, bt_get key (gr_histories g) = Some h → p ∈ option_list (hi_writer h) ++ hi_readers h → (p < length txs)%nat;
  go_sender : ∀ j t, txs !! j = Some t →
    ∃ s, bt_get (tx_sender t) (gr_senders g) = Some s ∧ implies (gr_dependencies g) s j;
  go_senders : ∀ s i, bt_get s (gr_senders g) = Some i → (i < length txs)%nat;
  go_complete : ∀ i j a b, txs !! j = Some a → txs !! i = Some b → (j < i)%nat → conflicting a b →
    implies (gr_dependencies g) i j
}.

(** What recording an access does to the history of its key. *)
Definition recorded_keys (index : nat) (read_only : option StateKey) key (o : option History) : History :=
  let h := default (mkHistory None []) o in
  if bool_decide (access_mode key read_only = ReadAccess) then
    if bool_decide (last (hi_readers h) = Some index) then h else mkHistory (hi_writer h) (hi_readers h ++ [index])
  else mkHistory (Some index) [].

Lemma recorded_idem index read_only key o :
  recorded_keys index read_only key (Some (recorded_keys index read_only key o)) = recorded_keys index read_only key o.
Proof.
  unfold recorded_keys. cbn [default]. set (h := default _ o). destruct (bool_decide (access_mode _ _ = _)); [|done].
  destruct (bool_decide (last (hi_readers h) = Some index)) eqn:E; cbn [from_option id hi_readers]; rewrite ?E; [done|].
  by rewrite bool_decide_eq_true_2 by apply last_snoc.
Qed.

Lemma recorded_range index read_only key o p :
  let h := recorded_keys index read_only key o in
  p ∈ option_list (hi_writer h) ++ hi_readers h →
  p = index ∨ ∃ h', o = Some h' ∧ p ∈ option_list (hi_writer h') ++ hi_readers h'.
Proof.
  unfold recorded_keys. destruct (bool_decide (access_mode _ _ = _)); cbn; [|rewrite list_elem_of_singleton; auto].
  destruct o as [h|]; cbn.
  - case_bool_decide; cbn; [eauto|]. rewrite app_assoc, elem_of_app, list_elem_of_singleton. intros [?| ->]; eauto.
  - case_bool_decide; [done|]. cbn. rewrite list_elem_of_singleton. auto.
Qed.

Lemma record_all index read_only keys hs key :
  bt_get key (fold_left (record_access index read_only) keys hs)
  = if bool_decide (key ∈ keys) then Some (recorded_keys index read_only key (bt_get key hs)) else bt_get key hs.
Proof. apply (bt_get_updates (recorded_keys index read_only)). apply recorded_idem. Qed.

Lemma previous_elem hs t i :
  i ∈ flat_map (previous_of hs (read_only_code t)) (tx_access_list t) ↔
  ∃ key h, key ∈ tx_access_list t ∧ bt_get key hs = Some h
    ∧ (hi_writer h = Some i ∨ mode_in t key = WriteAccess ∧ i ∈ hi_readers h).
Proof.
  rewrite list_elem_of_In, in_flat_map. unfold previous_of, mode_in. split.
  - intros (key & Hk & Hi). destruct (bt_get key hs) as [h|] eqn:E; [|done]. apply list_elem_of_In in Hk, Hi.
    exists key, h. split; [done|]. split; [done|]. apply elem_of_app in Hi as [Hi|Hi].
    + left. destruct (hi_writer h); [|by apply elem_of_nil in Hi]. by apply list_elem_of_singleton in Hi as ->.
    + case_bool_decide; [by right|by apply elem_of_nil in Hi].
  - intros (key & h & Hk & E & Hi). exists key. rewrite E, <- !list_elem_of_In. split; [done|].
    destruct Hi as [-> |[Hm Hi]]; [by left|]. apply elem_of_app. right. by rewrite bool_decide_eq_true_2.
Qed.

Lemma knows_app deps ps h mode j : knows deps h mode j → knows (deps ++ [ps]) h mode j.
Proof. intros [?|(w & Hw & Hi)]; [by left|]. right. exists w. split; [done|by apply implies_app]. Qed.

Lemma knows_step g t h mode j : knows (gr_dependencies g) h mode j → knows (gr_dependencies (graph_step g t)) h mode j.
Proof. apply knows_app. Qed.

(** The new transaction waits for everything it conflicts with. *)
Lemma step_covers txs g t j a :
  graph_ok txs g → txs !! j = Some a → conflicting a t →
  implies (gr_dependencies (graph_step g t)) (length txs) j.
Proof.
  intros Hg Ha Hc. rewrite <- (go_length _ _ Hg). destruct Hc as [Hs|(key & Hka & Hkt & Hm)].
  - destruct (go_sender _ _ Hg _ _ Ha) as (s & Hget & Hi). eapply implies_last; [|exact Hi].
    apply sorted_elem, elem_of_app. right. rewrite <- Hs, Hget. by apply list_elem_of_singleton.
  - destruct (go_known _ _ Hg _ _ _ Ha Hka) as (h & Hh & Hk).
    assert (∀ p, hi_writer h = Some p ∨ mode_in t key = WriteAccess ∧ p ∈ hi_readers h → implies (gr_dependencies g) p j →
      implies (gr_dependencies (graph_step g t)) (length (gr_dependencies g)) j) as Hp.
    { intros p Hp. apply implies_last, sorted_elem, elem_of_app. left. apply previous_elem. eauto. }
    destruct Hk as [[Hr Hin]|(w & Hw & Hi)]; [|by apply (Hp w); auto].
    apply (Hp j); [|by intros D]. right. split; [|done]. destruct Hm as [Hm|Hm]; congruence.
Qed.

Lemma step_known txs g t j a key :
  graph_ok txs g → (txs ++ [t]) !! j = Some a → key ∈ tx_access_list a →
  ∃ h, bt_get key (gr_histories (graph_step g t)) = Some h
    ∧ knows (gr_dependencies (graph_step g t)) h (mode_in a key) j.
Proof.
  intros Hg Ha Hka. cbn [graph_step gr_histories]. rewrite record_all.
  assert (mode_in t key = ReadAccess ∨ mode_in t key = WriteAccess) as Hmode by apply mode_cases.
  unfold recorded_keys. fold (mode_in t key). apply lookup_snoc_Some in Ha as [[Hj Ha]|[-> ->]].
  - destruct (go_known _ _ Hg _ _ _ Ha Hka) as (h & Hh & Hk). rewrite Hh. cbn [default].
    case_bool_decide as Hkt; [|exists h; split; [done|by apply knows_step]].
    destruct Hmode as [Hm|Hm]; rewrite Hm.
    + eexists. split; [done|]. rewrite bool_decide_eq_true_2 by done. apply (knows_step g t) in Hk.
      case_bool_decide; [exact Hk|]. destruct Hk as [[Hr Hin]|Hw]; [left|by right].
      split; [done|]. apply elem_of_app. by left.
    + eexists. split; [done|]. rewrite bool_decide_eq_false_2 by done. right. exists (length txs).
      split; [by rewrite <- (go_length _ _ Hg)|]. eapply step_covers; eauto. right. exists key. auto.
  - rewrite bool_decide_eq_true_2 by done. eexists. split; [done|]. destruct Hmode as [Hm|Hm]; rewrite Hm.
    + rewrite bool_decide_eq_true_2 by done. left. split; [done|]. rewrite <- (go_length _ _ Hg).
      case_bool_decide as E; [by eapply last_Some_elem_of|]. apply elem_of_app. right. by apply list_elem_of_singleton.
    + rewrite bool_decide_eq_false_2 by done. right. exists (length txs). split; [by rewrite <- (go_length _ _ Hg)|]. by intros D.
Qed.

Lemma step_ok txs g t : graph_ok txs g → graph_ok (txs ++ [t]) (graph_step g t).
Proof.
  intros Hg. pose proof (go_length _ _ Hg) as Hl. split.
  - cbn [graph_step gr_dependencies]. rewrite !length_app. cbn. lia.
  - intros i ps p Hi Hp. cbn [graph_step gr_dependencies] in Hi. apply lookup_snoc_Some in Hi as [[_ Hi]|[-> <-]].
    + by eapply (go_before _ _ Hg).
    + rewrite Hl. apply sorted_elem, elem_of_app in Hp as [Hp|Hp].
      * apply previous_elem in Hp as (key & h & _ & Hh & Hp). eapply (go_range _ _ Hg); [exact Hh|]. apply elem_of_app.
        destruct Hp as [-> |[_ ?]]; [left; by apply list_elem_of_singleton|by right].
      * destruct (bt_get _ _) eqn:E; [|by apply elem_of_nil in Hp]. apply list_elem_of_singleton in Hp as ->.
        by eapply (go_senders _ _ Hg).
  - intros j a key Ha Hk. by eapply step_known.
  - intros key h p. cbn [graph_step gr_histories]. rewrite record_all, length_app. cbn [length].
    assert (∀ h, bt_get key (gr_histories g) = Some h → p ∈ option_list (hi_writer h) ++ hi_readers h → (p < length txs + 1)%nat)
      as Hold by (intros h' Hh Hp; pose proof (go_range _ _ Hg _ _ _ Hh Hp); lia).
    case_bool_decide; [|by apply Hold]. intros [= <-] [-> |(h' & Hh & Hp)]%recorded_range; [lia|by eapply Hold].
  - intros j a Ha. cbn [graph_step gr_senders]. apply lookup_snoc_Some in Ha as [[Hj Ha]|[-> ->]].
    + destruct (go_sender _ _ Hg _ _ Ha) as (s & Hs & Hi). destruct (decide (tx_sender a = tx_sender t)) as [E|Hne].
      * rewrite E, bt_get_insert_eq. exists (length txs). split; [by rewrite Hl|]. eapply step_covers; eauto. by left.
      * rewrite bt_get_insert_ne by done. exists s. split; [done|by apply implies_app].
    + rewrite bt_get_insert_eq. exists (length txs). split; [by rewrite Hl|by intros D].
  - intros s i. cbn [graph_step gr_senders]. rewrite length_app. cbn [length]. destruct (decide (s = tx_sender t)) as [->|Hne].
    + rewrite bt_get_insert_eq. intros [= <-]. lia.
    + rewrite bt_get_insert_ne by done. intros Hi%(go_senders _ _ Hg). lia.
  - intros i j a b Ha Hb Hji Hc. apply lookup_snoc_Some in Ha as [[Hj Ha]|[-> ->]].
    + apply lookup_snoc_Some in Hb as [[Hi Hb]|[-> ->]]; [|by eapply step_covers].
      apply implies_app. by eapply (go_complete _ _ Hg).
    + apply lookup_lt_Some in Hb. rewrite length_app in Hb. cbn in Hb. lia.
Qed.

Lemma graph_correct txs : graph_ok txs (fold_left graph_step txs (mkGraph [] [] [])).
Proof.
  induction txs as [|t txs IH] using rev_ind; [by split|]. rewrite fold_left_app. by apply step_ok.
Qed.

(** ** Waves are conflict-free *)

Lemma fold_max_spec xs v : let r := fold_left Nat.max xs v in (v <= r)%nat ∧ (r = v ∨ r ∈ xs) ∧ ∀ x, x ∈ xs → (x <= r)%nat.
Proof.
  revert v. induction xs as [|x xs IH]; intros v; cbn.
  - split; [done|]. split; [by left|]. by intros x ?%elem_of_nil.
  - destruct (IH (Nat.max v x)) as (Hv & Hr & Hx). split; [lia|]. split.
    + destruct Hr as [Hr|Hr]; [|right; by apply elem_of_cons; right].
      destruct (Nat.max_spec v x) as [[_ E]|[_ E]]; rewrite E in Hr at 2; [right|by left].
      rewrite Hr. apply list_elem_of_here.
    + intros y [->|Hy]%elem_of_cons; [lia|by apply Hx].
Qed.

Lemma max_of_spec xs :
  match max_of xs with Some v => v ∈ xs ∧ ∀ x, x ∈ xs → (x <= v)%nat | None => xs = [] end.
Proof.
  destruct xs as [|v xs]; [done|]. cbn. destruct (fold_max_spec xs v) as (Hv & Hr & Hx). split.
  - apply elem_of_cons. by destruct Hr; [left|right].
  - intros x [->|?]%elem_of_cons; auto.
Qed.

(** The wave after all of [xs]. *)
Definition wave_after (xs : list nat) : nat := match max_of xs with Some previous => S previous | None => O end.

Lemma wave_after_gt xs x : x ∈ xs → (x < wave_after xs)%nat.
Proof.
  intros Hx. unfold wave_after. pose proof (max_of_spec xs) as Hm. destruct (max_of xs) as [v|].
  - destruct Hm as [_ Hm]. specialize (Hm _ Hx). lia.
  - subst. by apply elem_of_nil in Hx.
Qed.

Lemma wave_after_le xs n : (∀ x, x ∈ xs → (x < n)%nat) → (wave_after xs <= n)%nat.
Proof.
  intros Hx. unfold wave_after. pose proof (max_of_spec xs) as Hm. destruct (max_of xs) as [v|]; [|lia].
  destruct Hm as [Hm _]. specialize (Hx _ Hm). lia.
Qed.

Definition waved (wave : nat) (read_only : option StateKey) key (o : option KeyHistory) : KeyHistory :=
  let write := bool_decide (access_mode key read_only = WriteAccess) in
  match o with
  | Some h => mkKeyHistory (if write then Some wave else kh_writer h) (Nat.max (kh_last_access h) wave)
  | None => mkKeyHistory (if write then Some wave else None) wave
  end.

Lemma waved_idem wave read_only key o : waved wave read_only key (Some (waved wave read_only key o)) = waved wave read_only key o.
Proof. unfold waved. destruct o; cbn; f_equal; try lia; by destruct (bool_decide _). Qed.

Lemma wave_all wave read_only keys hs key :
  bt_get key (fold_left (record_wave wave read_only) keys hs)
  = if bool_decide (key ∈ keys) then Some (waved wave read_only key (bt_get key hs)) else bt_get key hs.
Proof. apply (bt_get_updates (waved wave read_only)). apply waved_idem. Qed.

(** The transactions placed in a wave, in block order. *)
Definition wave_members (assigned : list nat) (w : nat) : list nat :=
  List.filter (λ i, bool_decide (assigned !! i = Some w)) (seq 0 (length assigned)).

Record planner_ok (txs : list Transaction) (assigned : list nat) (p : Planner) : Prop := {
  pk_length : length assigned = length txs;
  pk_waves : pl_waves p = map (wave_members assigned) (seq 0 (length (pl_waves p)));
  pk_bound : ∀ i w, assigned !! i = Some w → (w < length (pl_waves p))%nat;
  pk_nonempty : ∀ w, (w < length (pl_waves p))%nat → ∃ i, assigned !! i = Some w;
  pk_keys : ∀ j t w key, txs !! j = Some t → assigned !! j = Some w → key ∈ tx_access_list t →
    ∃ h, bt_get key (pl_histories p) = Some h ∧ (w <= kh_last_access h)%nat
      ∧ (mode_in t key = WriteAccess → ∃ v, kh_writer h = Some v ∧ (w <= v)%nat);
  pk_range : ∀ key h, bt_get key (pl_histories p) = Some h →
    (kh_last_access h < length (pl_waves p))%nat ∧ ∀ v, kh_writer h = Some v → (v < length (pl_waves p))%nat;
  pk_sender : ∀ j t w, txs !! j = Some t → assigned !! j = Some w →
    ∃ s, bt_get (tx_sender t) (pl_senders p) = Some s ∧ (w <= s)%nat;
  pk_senders : ∀ from s, bt_get from (pl_senders p) = Some s → (s < length (pl_waves p))%nat;
  pk_ordered : ∀ i j a b v w, txs !! j = Some a → txs !! i = Some b → (j < i)%nat → conflicting a b →
    assigned !! j = Some v → assigned !! i = Some w → (v < w)%nat
}.

(** The waves a transaction has to come after. *)
Definition earlier_waves (p : Planner) t : list nat :=
  omap (predecessor_wave (pl_histories p) (read_only_code t)) (tx_access_list t)
  ++ option_list (bt_get (tx_sender t) (pl_senders p)).

Lemma earlier_bound txs assigned p t : planner_ok txs assigned p → ∀ x, x ∈ earlier_waves p t → (x < length (pl_waves p))%nat.
Proof.
  intros Hp x [Hx|Hx]%elem_of_app.
  - apply list_elem_of_omap in Hx as (key & _ & Hx). unfold predecessor_wave in Hx.
    destruct (bt_get key _) as [h|] eqn:E; [|done]. cbn in Hx. destruct (pk_range _ _ _ Hp _ _ E) as [Hl Hw].
    destruct (access_mode _ _); simplify_eq; auto.
  - destruct (bt_get _ _) eqn:E; [|by apply elem_of_nil in Hx]. apply list_elem_of_singleton in Hx as ->.
    by eapply (pk_senders _ _ _ Hp).
Qed.

(** The new transaction comes after everything it conflicts with. *)
Lemma earlier_covers txs assigned p t j a v :
  planner_ok txs assigned p → txs !! j = Some a → assigned !! j = Some v → conflicting a t →
  (v < wave_after (earlier_waves p t))%nat.
Proof.
  intros Hp Ha Hv Hc.
  assert (∃ x, x ∈ earlier_waves p t ∧ (v <= x)%nat) as (x & Hx%wave_after_gt & Hle); [|lia].
  destruct Hc as [Hs|(key & Hka & Hkt & Hm)].
  - destruct (pk_sender _ _ _ Hp _ _ _ Ha Hv) as (s & Hget & Hle). exists s. split; [|done].
    apply elem_of_app. right. rewrite <- Hs, Hget. by apply list_elem_of_singleton.
  - destruct (pk_keys _ _ _ Hp _ _ _ _ Ha Hv Hka) as (h & Hh & Hlast & Hw). unfold mode_in in Hm.
    destruct (access_mode key (read_only_code t)) eqn:Et.
    + destruct (Hw ltac:(by destruct Hm)) as (u & Hu & Hle). exists u. split; [|done]. apply elem_of_app. left.
      apply list_elem_of_omap. exists key. split; [done|]. unfold predecessor_wave. by rewrite Hh, Et.
    + exists (kh_last_access h). split; [|done]. apply elem_of_app. left.
      apply list_elem_of_omap. exists key. split; [done|]. unfold predecessor_wave. by rewrite Hh, Et.
Qed.

Lemma members_snoc assigned v w :
  wave_members (assigned ++ [v]) w = wave_members assigned w ++ (if bool_decide (v = w) then [length assigned] else []).
Proof.
  unfold wave_members. rewrite length_app, Nat.add_comm. cbn [length Nat.add]. rewrite seq_S, List.filter_app. cbn [Nat.add]. f_equal.
  - apply filter_ext_in. intros i Hi%in_seq. by rewrite lookup_app_l by lia.
  - cbn. rewrite lookup_app_r, Nat.sub_diag by lia. cbn. do 2 case_bool_decide; try done; simplify_eq.
Qed.

Lemma members_elem assigned w i : i ∈ wave_members assigned w ↔ assigned !! i = Some w.
Proof.
  unfold wave_members. rewrite list_elem_of_In, filter_In, in_seq, bool_decide_eq_true. split; [by intros [_ ?]|].
  intros Hi. pose proof (lookup_lt_Some _ _ _ Hi). split; [lia|done].
Qed.

Lemma members_fresh assigned w : (∀ i, assigned !! i ≠ Some w) → wave_members assigned w = [].
Proof.
  intros Hf. destruct (wave_members assigned w) as [|i rest] eqn:E; [done|].
  destruct (Hf i). apply members_elem. rewrite E. apply list_elem_of_here.
Qed.

Lemma place_ok assigned wave ws :
  ws = map (wave_members assigned) (seq 0 (length ws)) → (∀ i w, assigned !! i = Some w → (w < length ws)%nat) →
  (wave <= length ws)%nat →
  let n := Nat.max (length ws) (S wave) in
  place wave (length assigned) ws = Some (map (wave_members (assigned ++ [wave])) (seq 0 n)).
Proof.
  intros Hws Hb Hle n. unfold place.
  set (ws' := if bool_decide (wave = length ws) then ws ++ [[]] else ws).
  assert (ws' = map (wave_members assigned) (seq 0 n)) as Hws'.
  { unfold ws', n. case_bool_decide as E.
    - rewrite Nat.max_r by lia. rewrite E, seq_S, map_app, <- Hws. f_equal. cbn. f_equal. symmetry. apply members_fresh.
      intros i Hi%Hb. lia.
    - by rewrite Nat.max_l by lia. }
  assert ((wave < n)%nat) as Hn by lia. rewrite Hws'. rewrite list_lookup_fmap, lookup_seq_lt by done. cbn. f_equal.
  apply list_eq. intros w. destruct (decide (w = wave)) as [->|Hne].
  - rewrite list_lookup_insert_eq by (rewrite length_map, length_seq; lia).
    rewrite list_lookup_fmap, lookup_seq_lt by done. cbn. by rewrite members_snoc, bool_decide_eq_true_2.
  - rewrite list_lookup_insert_ne, !list_lookup_fmap by done. destruct (seq 0 n !! w) as [v|] eqn:E; [|done].
    apply lookup_seq in E as [-> _]. cbn. rewrite members_snoc, bool_decide_eq_false_2, app_nil_r; [done|]. lia.
Qed.

(** The histories after the new transaction was placed. *)
Lemma waved_known txs assigned p t j x v key :
  planner_ok txs assigned p → txs !! j = Some x → assigned !! j = Some v → key ∈ tx_access_list x →
  ∃ h, bt_get key (fold_left (record_wave (wave_after (earlier_waves p t)) (read_only_code t)) (tx_access_list t) (pl_histories p)) = Some h
    ∧ (v <= kh_last_access h)%nat ∧ (mode_in x key = WriteAccess → ∃ u, kh_writer h = Some u ∧ (v <= u)%nat).
Proof.
  intros Hp Hx Hv Hk. rewrite wave_all. destruct (pk_keys _ _ _ Hp _ _ _ _ Hx Hv Hk) as (h & Hh & Hlast & Hwr). rewrite Hh.
  case_bool_decide as Hkt; [|by exists h]. eexists. split; [done|]. cbn. split; [lia|]. intros Hm.
  case_bool_decide as Et; [|by apply Hwr]. eexists. split; [done|]. apply Nat.lt_le_incl.
  eapply earlier_covers; eauto. right. exists key. auto.
Qed.

Lemma waved_new t hs wave key :
  key ∈ tx_access_list t →
  ∃ h, bt_get key (fold_left (record_wave wave (read_only_code t)) (tx_access_list t) hs) = Some h
    ∧ (wave <= kh_last_access h)%nat ∧ (mode_in t key = WriteAccess → ∃ u, kh_writer h = Some u ∧ (wave <= u)%nat).
Proof.
  intros Hk. rewrite wave_all, bool_decide_eq_true_2 by done. eexists. split; [done|]. unfold waved. fold (mode_in t key).
  destruct (bt_get key hs); cbn; (split; [lia|]); intros Hm; rewrite bool_decide_eq_true_2 by done; by exists wave.
Qed.

Lemma waved_range wave read_only keys hs n key h :
  (∀ h, bt_get key hs = Some h → (kh_last_access h < n)%nat ∧ ∀ v, kh_writer h = Some v → (v < n)%nat) → (wave < n)%nat →
  bt_get key (fold_left (record_wave wave read_only) keys hs) = Some h →
  (kh_last_access h < n)%nat ∧ ∀ v, kh_writer h = Some v → (v < n)%nat.
Proof.
  intros Hold Hw. rewrite wave_all. case_bool_decide; [|apply Hold]. intros [= <-]. unfold waved.
  destruct (bt_get key hs) as [h|]; cbn.
  - destruct (Hold h eq_refl) as [Hlast Hwr]. split; [lia|]. intros v. case_bool_decide; [intros [= <-]; lia|apply Hwr].
  - split; [lia|]. intros v. case_bool_decide; [intros [= <-]; lia|done].
Qed.

Lemma plan_step_ok txs assigned p t :
  planner_ok txs assigned p →
  ∃ p', plan_step (length txs) p t = Some p' ∧ planner_ok (txs ++ [t]) (assigned ++ [wave_after (earlier_waves p t)]) p'.
Proof.
  intros Hp. pose proof (pk_length _ _ _ Hp) as Hl. set (wave := wave_after (earlier_waves p t)).
  assert ((wave <= length (pl_waves p))%nat) as Hw by (apply wave_after_le; by eapply earlier_bound).
  pose proof (place_ok assigned wave (pl_waves p) (pk_waves _ _ _ Hp) (pk_bound _ _ _ Hp) Hw) as Hplace.
  unfold plan_step. fold (earlier_waves p t). fold (wave_after (earlier_waves p t)). fold wave. rewrite <- Hl, Hplace. cbn.
  eexists. split; [done|]. set (n := Nat.max (length (pl_waves p)) (S wave)).
  assert (∀ j x v, (txs ++ [t]) !! j = Some x → (assigned ++ [wave]) !! j = Some v →
    (txs !! j = Some x ∧ assigned !! j = Some v) ∨ (j = length txs ∧ x = t ∧ v = wave)) as Hcases.
  { intros j x v [[Hj Hx]|[-> ->]]%lookup_snoc_Some Hv.
    - left. split; [done|]. by rewrite lookup_app_l in Hv by lia.
    - right. rewrite lookup_app_r, Hl, Nat.sub_diag in Hv by lia. by simplify_eq/=. }
  split; cbn [pl_waves pl_histories pl_senders]; rewrite ?length_map, ?length_seq.
  - rewrite !length_app. cbn. lia.
  - done.
  - intros i w [[_ Hi]|[_ ->]]%lookup_snoc_Some; [|lia]. apply (pk_bound _ _ _ Hp) in Hi. lia.
  - intros w Hwn. destruct (decide (w = wave)) as [->|Hne].
    + exists (length assigned). by rewrite lookup_app_r, Nat.sub_diag.
    + destruct (pk_nonempty _ _ _ Hp w) as [i Hi]; [lia|]. exists i. by apply lookup_app_l_Some.
  - intros j x v key Hx Hv Hk.
    destruct (Hcases _ _ _ Hx Hv) as [[Hx' Hv']|(-> & -> & ->)]; [by eapply waved_known|by apply waved_new].
  - intros key h. apply waved_range; [|lia]. intros h' Hh. destruct (pk_range _ _ _ Hp _ _ Hh) as [Hlast Hwr].
    split; [lia|]. intros v Hv%Hwr. lia.
  - intros j x v Hx Hv. destruct (Hcases _ _ _ Hx Hv) as [[Hx' Hv']|(-> & -> & ->)]; [|rewrite bt_get_insert_eq; eauto].
    destruct (pk_sender _ _ _ Hp _ _ _ Hx' Hv') as (s & Hs & Hle). destruct (decide (tx_sender x = tx_sender t)) as [E|Hne].
    + rewrite E, bt_get_insert_eq. exists wave. split; [done|]. apply Nat.lt_le_incl. eapply earlier_covers; eauto. by left.
    + rewrite bt_get_insert_ne by done. eauto.
  - intros from s. destruct (decide (from = tx_sender t)) as [->|Hne]; [rewrite bt_get_insert_eq; intros [= <-]; lia|].
    rewrite bt_get_insert_ne by done. intros Hs%(pk_senders _ _ _ Hp). lia.
  - intros i j a b v w Ha Hb Hji Hc Hv Hw'. destruct (Hcases _ _ _ Ha Hv) as [[Ha' Hv']|(-> & -> & ->)].
    + destruct (Hcases _ _ _ Hb Hw') as [[Hb' Hw'']|(-> & -> & ->)]; [by eapply (pk_ordered _ _ _ Hp _ _ a b)|].
      by eapply earlier_covers.
    + apply lookup_lt_Some in Hb. rewrite length_app in Hb. cbn in Hb. lia.
Qed.

Lemma plan_from_ok txs done_ assigned p :
  planner_ok done_ assigned p →
  ∃ p' assigned', plan_from (length done_) p txs = Some p' ∧ planner_ok (done_ ++ txs) assigned' p'.
Proof.
  revert done_ assigned p. induction txs as [|t txs IH]; intros done_ assigned p Hp.
  - exists p, assigned. by rewrite app_nil_r.
  - cbn [plan_from]. destruct (plan_step_ok _ _ _ t Hp) as (p1 & -> & Hp1). cbn.
    destruct (IH _ _ _ Hp1) as (p' & assigned' & Hf & Hok). exists p', assigned'. split; [|by rewrite <- app_assoc in Hok].
    rewrite length_app, Nat.add_comm in Hf. exact Hf.
Qed.

Lemma greedy_plan_ok txs :
  ∃ p assigned, greedy_plan txs = Some (mkPlan (map mkWave (pl_waves p))) ∧ planner_ok txs assigned p.
Proof.
  destruct (plan_from_ok txs [] [] (mkPlanner [] [] [])) as (p & assigned & Hf & Hok).
  { split; cbn; try done; intros; lia. }
  exists p, assigned. split; [|done]. unfold greedy_plan. change (length []) with 0%nat in Hf. by rewrite Hf.
Qed.

(** Every index is placed exactly once. *)
Lemma waves_partition assigned n :
  (∀ i w, assigned !! i = Some w → (w < n)%nat) →
  concat (map (wave_members assigned) (seq 0 n)) ≡ₚ seq 0 (length assigned).
Proof.
  induction assigned as [|v assigned IH] using rev_ind; intros Hb.
  - clear Hb. assert (∀ ws, concat (map (wave_members []) ws) = []) as -> by (induction ws; done). done.
  - rewrite length_app, Nat.add_comm. cbn [length Nat.add]. rewrite seq_S, <- IH.
    2:{ intros i w Hi. eapply Hb. by apply lookup_app_l_Some. }
    assert ((v < n)%nat) as Hv by (apply (Hb (length assigned)); by rewrite lookup_app_r, Nat.sub_diag).
    assert (∀ ws, concat (map (wave_members (assigned ++ [v])) ws)
      ≡ₚ concat (map (wave_members assigned) ws) ++ concat (map (λ w, if bool_decide (v = w) then [length assigned] else []) ws)) as Hc.
    { induction ws as [|w ws IHw]; [done|]. cbn. rewrite members_snoc, IHw. solve_Permutation. }
    rewrite Hc. f_equiv. clear -Hv.
    replace n with (v + S (n - S v))%nat by lia. rewrite seq_app. cbn [seq Nat.add]. rewrite map_app, concat_app. cbn.
    rewrite bool_decide_eq_true_2 by done.
    assert (∀ ws, v ∉ ws → concat (map (λ w, if bool_decide (v = w) then [length assigned] else []) ws) = []) as Hn.
    { induction ws as [|w ws IHw]; [done|]. intros [Hne Hw]%not_elem_of_cons. cbn. by rewrite bool_decide_eq_false_2, IHw. }
    rewrite !Hn; [done|..]; rewrite elem_of_seq; lia.
Qed.

(** ** Leases *)

Lemma lease_requests (mode : StateKey → AccessMode) keys r :
  r ∈ sl_requests (lease_new (map (λ key, mkRequest key (mode key)) keys)) ↔ ar_key r ∈ keys ∧ ar_mode r = mode (ar_key r).
Proof.
  unfold lease_new. cbn [sl_requests].
  set (f := λ key (o : option AccessMode), match o with
    | Some m => if bool_decide (mode key = WriteAccess) then WriteAccess else m | None => mode key end).
  assert (∀ ms, fold_left lease_step (map (λ key, mkRequest key (mode key)) keys) ms
    = fold_left (λ m k, bt_insert k (f k (bt_get k m)) m) keys ms) as ->.
  { induction keys as [|k keys IH]; intros ms; [done|]. cbn [map fold_left]. rewrite IH. f_equal.
    unfold lease_step. cbn [ar_key ar_mode]. by destruct (bt_get k ms). }
  assert (bt_ok (fold_left (λ m k, bt_insert k (f k (bt_get k m)) m) keys ([] : BTreeMap StateKey AccessMode))) as Hok.
  { generalize (bt_ok_nil (K := StateKey) (V := AccessMode)). generalize ([] : BTreeMap StateKey AccessMode).
    induction keys as [|k keys IH]; [done|]. intros ms Hms. apply IH. by apply bt_ok_insert. }
  assert (∀ k o, f k (Some (f k o)) = f k o) as Hf.
  { intros k [m|]; cbn; repeat case_bool_decide; congruence. }
  rewrite list_elem_of_fmap. split.
  - intros ([key m] & -> & Hin). cbn. apply (bt_in_get _ _ _ Hok) in Hin. rewrite bt_get_updates in Hin by done.
    case_bool_decide; [|done]. split; [done|]. cbn in Hin. congruence.
  - intros [Hin Hm]. exists (ar_key r, ar_mode r). split; [by destruct r|]. apply bt_get_some_in.
    rewrite bt_get_updates, bool_decide_eq_true_2 by done. cbn. by rewrite Hm.
Qed.

Lemma lease_conflicts a b :
  conflicts_with (greedy_lease a) (greedy_lease b) = true ↔
  ∃ key, key ∈ tx_access_list a ∧ key ∈ tx_access_list b ∧ (mode_in a key = WriteAccess ∨ mode_in b key = WriteAccess).
Proof.
  unfold conflicts_with. rewrite existsb_exists. setoid_rewrite existsb_exists. setoid_rewrite <- list_elem_of_In.
  unfold greedy_lease. setoid_rewrite (lease_requests (mode_in a)). setoid_rewrite (lease_requests (mode_in b)). split.
  - intros ([k1 m1] & [H1 E1] & [k2 m2] & [H2 E2] & Hc). cbn in *. unfold requests_conflict in Hc. cbn in Hc.
    apply andb_true_iff in Hc as [Hk%bool_decide_eq_true Hm]. rewrite orb_true_iff, !bool_decide_eq_true in Hm. subst. eauto.
  - intros (key & Ha & Hb & Hm). exists (mkRequest key (mode_in a key)). split; [done|].
    exists (mkRequest key (mode_in b key)). split; [done|]. unfold requests_conflict. cbn.
    rewrite bool_decide_eq_true_2 by done. cbn. rewrite orb_true_iff, !bool_decide_eq_true. done.
Qed.

Lemma dedup_nodup xs : StronglySorted Nat.le xs → NoDup (dedup xs).
Proof.
  induction xs as [|x [|y rest] IH]; intros Hs; [constructor|by apply NoDup_singleton|].
  apply StronglySorted_inv in Hs as [Hs Hx].
  change (dedup (x :: y :: rest)) with (if bool_decide (x = y) then dedup (y :: rest) else x :: dedup (y :: rest)).
  case_bool_decide as E; [by apply IH|].
  apply NoDup_cons. split; [|by apply IH]. intros Hin%(proj1 (dedup_elem _ _)).
  apply StronglySorted_inv in Hs as [_ Hy]. apply Forall_cons in Hx as [Hxy _].
  apply elem_of_cons in Hin as [->|Hin]; [done|]. rewrite Forall_forall in Hy. specialize (Hy _ Hin). unfold Nat.le in *. lia.
Qed.

Lemma dependencies_nodup (txs : list Transaction) i ps : dependencies txs !! i = Some ps → NoDup ps.
Proof.
  unfold dependencies. revert i ps. induction txs as [|t txs IH] using rev_ind; intros i ps; [done|]. rewrite fold_left_app. cbn [fold_left].
  intros [[_ Hi]|[_ <-]]%lookup_snoc_Some; [by eapply IH|]. apply dedup_nodup, Sorted_StronglySorted; [intros ???; unfold Nat.le; lia|].
  apply Sorted_merge_sort. intros x y. unfold Nat.le. lia.
Qed.

(** C36: The scheduler keeps every conflict in block order.  Two transactions conflict when
    they have the same sender or when their leases do.  Planning never panics and places
    every transaction in exactly one wave, a conflicting predecessor always in an earlier
    one.  The dependency graph has one list of smaller indexes per transaction, and a set
    that contains the listed predecessors of its wave_members contains, with a transaction,
    all its conflicting predecessors: waiting for the listed ones is waiting for all. *)
Theorem schedules_are_safe (txs : list Transaction) :
  let conflict i j := ∃ a b, txs !! i = Some a ∧ txs !! j = Some b ∧ (i < j)%nat
    ∧ (tx_sender a = tx_sender b ∨ conflicts_with (greedy_lease a) (greedy_lease b) = true) in
  (∃ plan, greedy_plan txs = Some plan
    ∧ concat (map transaction_indexes (waves plan)) ≡ₚ seq 0 (length txs)
    ∧ ∀ i j v w wi wj, conflict i j → waves plan !! v = Some wi → waves plan !! w = Some wj →
        i ∈ transaction_indexes wi → j ∈ transaction_indexes wj → (v < w)%nat)
  ∧ length (dependencies txs) = length txs
  ∧ (∀ i ps p, dependencies txs !! i = Some ps → p ∈ ps → (p < i)%nat)
  ∧ ∀ i j D, conflict i j → (∀ k ps p, dependencies txs !! k = Some ps → D k → p ∈ ps → D p) → D j → D i.
Proof.
  intros conflict. pose proof (graph_correct txs) as Hg. split; [|split; [apply Hg|split; [apply Hg|]]].
  - destruct (greedy_plan_ok txs) as (p & assigned & Hplan & Hp). eexists. split; [exact Hplan|]. cbn [waves]. split.
    + rewrite map_map. cbn. rewrite map_id, (pk_waves _ _ _ Hp), <- (pk_length _ _ _ Hp). apply waves_partition, Hp.
    + intros i j v w wi wj (a & b & Ha & Hb & Hij & Hc) Hv Hw Hi Hj. rewrite lease_conflicts in Hc.
      assert (∀ w wave i, map mkWave (pl_waves p) !! w = Some wave → i ∈ transaction_indexes wave → assigned !! i = Some w) as Hin.
      { clear -Hp. intros w wave i Hw Hi. rewrite (pk_waves _ _ _ Hp), !list_lookup_fmap in Hw.
        destruct (seq _ _ !! w) eqn:E; [|done]. apply lookup_seq in E as [-> _]. simplify_eq/=. by apply members_elem. }
      eapply (pk_ordered _ _ _ Hp j i a b); eauto.
  - intros i j D (a & b & Ha & Hb & Hij & Hc) Hclosed HD. rewrite lease_conflicts in Hc.
    by eapply (go_complete _ _ Hg j i a b Ha Hb Hij Hc D).
Qed.
End conflicts.
