(* ===== verification/Frames.v ===== *)
(** * Frames: what a transaction can read and write
    ([required_keys] and [validate_declarations] of [src/crates/execution/src/parallel_payment.rs])

    The keys a transaction needs are computed from its payload.  When they are declared,
    executing the transaction depends on no other key of the state, apart from the
    committed runtime profile that no transaction writes, and changes only declared keys
    other than the code that a call reads. *)

From S2P Require Import Prelude Ordered Codec Types Crypto Trocto TroctoProgram TroctoEffects Native NativeCache State StateTree Transactions Payments Contracts Blocks Scheduler.

#[local] Arguments cmp : simpl never.

Section declarations.
Context `{!Blake2s}.

Definition required_keys (t : Transaction) : result (list StateKey) Payments.ExecutionError :=
  let sender := account_key (tx_sender t) in
  match tx_lane t with
  | Types.Payments =>
      let? payment := map_err TransactionValidation (payment_decode (tx_payload t)) in
      Ok [sender; account_key (pay_recipient payment)]
  | Types.Contracts =>
      let? payload := map_err TransactionValidation (contract_decode (tx_payload t)) in
      Ok (sender ::
          match cp_action payload with
          | Deploy _ => [contract_code_key (contract_address (tx_chain_id t) (tx_sender t) (tx_nonce t))]
          | Call address _ local => contract_code_key address :: map (contract_state_key address) local
          | DeployTrocto _ =>
              [trocto_contract_code_key (trocto_contract_address (tx_chain_id t) (tx_sender t) (tx_nonce t))]
          | CallTrocto address _ local =>
              trocto_contract_code_key address :: map (trocto_contract_state_key address) local
          end)
  | System => Err (TransactionValidation UnsupportedPayload)
  end.

Fixpoint validate_declarations (txs : list Transaction) : result unit Payments.ExecutionError :=
  match txs with
  | [] => Ok tt
  | t :: txs =>
      let? keys := required_keys t in
      let? _ := reject_if (negb (forallb (contains t) keys)) UndeclaredStateAccess in
      validate_declarations txs
  end.

(** A transaction whose needed keys are declared. *)
Definition declares (t : Transaction) : Prop := ∃ keys, required_keys t = Ok keys ∧ ∀ key, key ∈ keys → key ∈ tx_access_list t.

Lemma validated_declares txs : validate_declarations txs = Ok tt → Forall declares txs.
Proof.
  induction txs as [|t txs IH]; cbn; [constructor|]. intros Hv. bind_inv Hv. guards. constructor; [|by apply IH].
  exists a. split; [done|]. intros key Hk. apply contains_iff. rewrite forallb_forall in E0. by apply E0, list_elem_of_In.
Qed.
End declarations.

(** ** Reads *)

(** Both sides begin with the same fallible step. *)
Ltac same_step := match goal with |- match ?r with Ok _ => _ | Err _ => _ end = match ?r with Ok _ => _ | Err _ => _ end => destruct r; [|reflexivity] end.

Section reads.
Context {blake : Blake2s} {ed : Ed25519} {wasm : WasmEngine} {native : NativeCalls}.
Implicit Types (t : Transaction) (v : StateView).

(** The keys that a declared transaction may read. *)
Definition readable t (key : StateKey) : Prop := key = runtime_key ∨ key ∈ tx_access_list t.
Definition same_for t v1 v2 : Prop := ∀ key, readable t key → v1 key = v2 key.

Lemma account_frame t v1 v2 a :
  same_for t v1 v2 → account_key a ∈ tx_access_list t → view_account v1 a = view_account v2 a.
Proof. intros Hs Ha. unfold view_account. by rewrite (Hs (account_key a)) by by right. Qed.

Lemma payment_frame t v1 v2 s payment :
  same_for t v1 v2 → payment_decode (tx_payload t) = Ok payment → account_key (tx_sender t) ∈ tx_access_list t →
  account_key (pay_recipient payment) ∈ tx_access_list t → session_execute v1 s t = session_execute v2 s t.
Proof.
  intros Hs Hp H1 H2. unfold session_execute, transfer, session_account. rewrite Hp. cbn [map_err].
  by rewrite (account_frame _ _ _ _ Hs H1), (account_frame _ _ _ _ Hs H2).
Qed.

Lemma try_map_ext {A B E : Type} (f g : A → result B E) (xs : list A) :
  (∀ x, x ∈ xs → f x = g x) → try_map f xs = try_map g xs.
Proof.
  induction xs as [|x xs IH]; intros Hfg; [done|]. cbn. rewrite Hfg by apply list_elem_of_here.
  rewrite IH; [done|]. intros y Hy. apply Hfg. by right.
Qed.

Lemma trocto_call_frame t v1 v2 context address input keys actual :
  same_for t v1 v2 → trocto_contract_code_key address ∈ tx_access_list t →
  (∀ local, local ∈ keys → trocto_contract_state_key address local ∈ tx_access_list t) →
  execute_trocto_call v1 t context address input keys actual = execute_trocto_call v2 t context address input keys actual.
Proof.
  intros Hs Hcode Hkeys. unfold execute_trocto_call. rewrite (Hs (trocto_contract_code_key address)) by by right.
  assert (∀ ks, try_map (load_slot v1 address keys) ks = try_map (load_slot v2 address keys) ks) as Hload.
  { intros ks. apply try_map_ext. intros local _. unfold load_slot. case_bool_decide; [|done].
    rewrite (Hs (trocto_contract_state_key address local)); [done|]. right. auto. }
  repeat same_step. rewrite Hload. reflexivity.
Qed.

Lemma load_state_frame t v1 v2 address keys local loaded :
  same_for t v1 v2 → (∀ key, key ∈ keys → contract_state_key address key ∈ tx_access_list t) →
  load_state v1 t address keys local loaded = load_state v2 t address keys local loaded.
Proof.
  intros Hs. revert local loaded. induction keys as [|key keys IH]; intros local loaded Hk; [done|]. cbn [load_state].
  rewrite (Hs (contract_state_key address key)) by (right; apply Hk; apply list_elem_of_here).
  assert (∀ l n, load_state v1 t address keys l n = load_state v2 t address keys l n) as HIH
    by (intros; apply IH; intros k ?; apply Hk; by right).
  repeat same_step. destruct a0; [|apply HIH]. repeat same_step. apply HIH.
Qed.

Lemma action_frame t v1 v2 context payload :
  same_for t v1 v2 → tx_lane t = Types.Contracts → contract_decode (tx_payload t) = Ok payload → declares t →
  execute_action v1 t context payload = execute_action v2 t context payload.
Proof.
  intros Hs Hlane Hp (keys & Hkeys & Hin). unfold required_keys in Hkeys. rewrite Hlane, Hp in Hkeys. cbn in Hkeys.
  injection Hkeys as <-. unfold execute_action. destruct (cp_action payload) as [code|address input keys|code|address input keys].
  - unfold execute_wasm_deploy. rewrite (Hs (contract_code_key _)); [done|]. right. apply Hin. right. apply list_elem_of_here.
  - unfold execute_wasm_call. rewrite (Hs (contract_code_key address)) by (right; apply Hin; right; apply list_elem_of_here).
    rewrite (load_state_frame t v1 v2) by (done || intros key Hk; apply Hin; do 2 right; by apply list_elem_of_fmap_2). done.
  - unfold execute_trocto_action, native_enabled. rewrite (Hs runtime_key) by by left. repeat same_step.
    unfold execute_trocto_deploy. rewrite (Hs (trocto_contract_code_key _)); [done|]. right. apply Hin. right. apply list_elem_of_here.
  - unfold execute_trocto_action, native_enabled. rewrite (Hs runtime_key) by by left. repeat same_step.
    apply trocto_call_frame; [done|..]; intros; apply Hin; [right; apply list_elem_of_here|]. do 2 right. by apply list_elem_of_fmap_2.
Qed.

(** A declared transaction depends only on what it may read. *)
Lemma lane_frame t v1 v2 context policy :
  declares t → same_for t v1 v2 → execute_lane native v1 context policy t = execute_lane native v2 context policy t.
Proof.
  intros Hd Hs. unfold execute_lane. pose proof Hd as (keys & Hkeys & Hin). unfold required_keys in Hkeys.
  destruct (tx_lane t) eqn:Hlane; [|..|done].
  - bind_inv Hkeys. apply map_err_ok in E. subst keys.
    by rewrite (payment_frame t v1 v2 _ a Hs E); [|apply Hin; set_solver..].
  - bind_inv Hkeys. apply map_err_ok in E. destruct (po_contracts policy); [|done]. unfold execute_contract. rewrite E. cbn [map_err].
    rewrite (account_frame t v1 v2); [|done|apply Hin; subst keys; apply list_elem_of_here].
    repeat same_step. by rewrite (action_frame t v1 v2).
Qed.
End reads.

(** ** Writes *)

Section writes.
Context {blake : Blake2s} {ed : Ed25519} {wasm : WasmEngine} {calls : NativeCalls} {laws : NativeLaws calls}.
Implicit Types (t : Transaction) (view : StateView).

(** The keys a contract action writes besides the sender's account. *)
Definition owns t (action : ContractAction) (key : StateKey) : Prop :=
  match action with
  | Deploy _ => key = contract_code_key (contract_address (tx_chain_id t) (tx_sender t) (tx_nonce t))
  | Call address _ _ => ∃ local, key = contract_state_key address local
  | DeployTrocto _ => key = trocto_contract_code_key (trocto_contract_address (tx_chain_id t) (tx_sender t) (tx_nonce t))
  | CallTrocto address _ _ => ∃ local, key = trocto_contract_state_key address local
  end.

Lemma staged_owned address keys e :
  Forall (λ c, ∃ local, change_key c = trocto_contract_state_key address local) (staged_changes address keys e).
Proof.
  apply Forall_forall. intros c Hin. apply list_elem_of_In, in_flat_map in Hin as ([[local value] written] & _ & Hw).
  destruct written; [|done]. destruct Hw as [<-|[]]. rewrite change_of_key. eauto.
Qed.

Lemma action_owned {native : NativeCalls} view t context payload ef :
  execute_action view t context payload = Ok ef →
  Forall (λ c, owns t (cp_action payload) (change_key c)) (changes (ef_diff ef)).
Proof.
  intros He. unfold execute_action in He. destruct (cp_action payload) as [code|address input keys|code|address input keys].
  - unfold execute_wasm_deploy in He. bind_inv He. subst ef. by apply Forall_singleton.
  - unfold execute_wasm_call in He. bind_inv He. subst ef. cbn. apply Forall_map, Forall_forall. intros kv _. cbn.
    rewrite change_of_key. eauto.
  - unfold execute_trocto_action, execute_trocto_deploy in He. bind_inv He. subst ef. by apply Forall_singleton.
  - unfold execute_trocto_action, execute_trocto_call, stage_trocto_result in He. bind_inv He. subst ef. cbn.
    case_match; [done|]. simplify_eq. apply staged_owned.
Qed.

(** Key spaces, told apart by their first bytes. *)
Lemma key_space (n : nat) (p q a b : bytes) :
  (n <= length p)%nat → (n <= length q)%nat → take n p ≠ take n q → p ++ a ≠ q ++ b.
Proof. intros Hp Hq Hne He. apply Hne. rewrite <- (take_app_le p a), <- (take_app_le q b) by done. by rewrite He. Qed.

Ltac key_spaces := first [apply (key_space 12); [vm_compute; lia..|by vm_compute] | apply (key_space 21); [vm_compute; lia..|by vm_compute]].

Lemma runtime_not_account a : account_key a ≠ runtime_key.
Proof. unfold runtime_key. rewrite <- (app_nil_r (lit _)). key_spaces. Qed.
Lemma runtime_not_code a : contract_code_key a ≠ runtime_key.
Proof. unfold runtime_key. rewrite <- (app_nil_r (lit _)). key_spaces. Qed.
Lemma runtime_not_trocto_code a : trocto_contract_code_key a ≠ runtime_key.
Proof. unfold runtime_key. rewrite <- (app_nil_r (lit _)). key_spaces. Qed.
Lemma runtime_not_state a local : contract_state_key a local ≠ runtime_key.
Proof. unfold runtime_key. rewrite <- (app_nil_r (lit "astrolune/runtime/v2")). key_spaces. Qed.
Lemma runtime_not_trocto_state a local : trocto_contract_state_key a local ≠ runtime_key.
Proof. unfold runtime_key. rewrite <- (app_nil_r (lit "astrolune/runtime/v2")). key_spaces. Qed.
Lemma code_not_state a b local : contract_code_key b ≠ contract_state_key a local.
Proof. key_spaces. Qed.
Lemma trocto_code_not_state a b local : trocto_contract_code_key b ≠ trocto_contract_state_key a local.
Proof. key_spaces. Qed.

(** A change that the transaction's lease allows. *)
Definition allowed t (c : StateChange) : Prop :=
  change_key c ∈ tx_access_list t ∧ mode_in t (change_key c) = WriteAccess ∧ change_key c ≠ runtime_key.

Lemma mode_write t key : read_only_code t ≠ Some key → mode_in t key = WriteAccess.
Proof. intros Hr. unfold mode_in, access_mode. by rewrite bool_decide_eq_false_2. Qed.

Lemma account_allowed t a : account_key a ∈ tx_access_list t → ∀ v, allowed t (Put (account_key a) v).
Proof.
  intros Hin v. split; [done|]. split; [|apply runtime_not_account]. apply mode_write. unfold read_only_code. cbn [change_key].
  destruct (_ || _); [done|]. destruct (contract_decode _) as [payload|]; [|done].
  by destruct (cp_action payload).
Qed.

Lemma owned_allowed t payload c :
  contract_decode (tx_payload t) = Ok payload → owns t (cp_action payload) (change_key c) →
  change_key c ∈ tx_access_list t → allowed t c.
Proof.
  intros Hp Ho Hin. split; [done|]. apply and_comm. split.
  - destruct (cp_action payload) as [code|address input keys|code|address input keys]; cbn in Ho.
    + rewrite Ho. apply runtime_not_code.
    + destruct Ho as [local ->]. apply runtime_not_state.
    + rewrite Ho. apply runtime_not_trocto_code.
    + destruct Ho as [local ->]. apply runtime_not_trocto_state.
  - apply mode_write. unfold read_only_code. destruct (_ || _); [done|]. rewrite Hp.
    destruct (cp_action payload) as [code|address input keys|code|address input keys]; cbn in Ho; [done| |done|];
      destruct Ho as [local ->]; intros Hk%(inj Some); revert Hk.
    + apply code_not_state.
    + apply trocto_code_not_state.
Qed.

Lemma contract_allowed view t context capacity prices out :
  u64 (vc_next_height context) → execute_contract view t context capacity prices = Ok out →
  Forall (allowed t) (changes (out_diff out)).
Proof.
  intros Hh Hex. destruct (execute_contract_node view t context capacity prices Hh) as [[Heq|Heq] _];
    [|by rewrite Heq in Hex]. rewrite Heq in Hex. clear Heq.
  unfold execute_contract in Hex. bind_inv Hex. guards. apply map_err_ok in E, E2.
  pose proof E as [(_ & Hok & _) _]%contract_exact.
  apply (validated_facts _ _ _ _ (mkRegistered a1 (cp_public_key a))) in E2 as (_ & _ & _ & _ & Hsz); [|done].
  destruct (action_effects _ _ _ _ _ Hok Hsz Hh E4) as [Hdecl _]. apply action_owned in E4.
  subst out. cbn [out_diff]. unfold sort_canonical, diff_put. cbn [changes]. rewrite sort_changes_perm. apply Forall_app. split.
  - apply Forall_forall. intros c Hc. rewrite Forall_forall in Hdecl, E4. eapply owned_allowed; eauto. by destruct (Hdecl c Hc).
  - apply Forall_singleton, account_allowed. by apply contains_iff.
Qed.

Lemma lane_allowed view t context policy out :
  u64 (vc_next_height context) → execute_lane calls view context policy t = Ok out →
  Forall (allowed t) (changes (out_diff out)).
Proof.
  intros Hh Hex. unfold execute_lane in Hex. destruct (tx_lane t) eqn:Hlane; [| |done].
  - bind_inv Hex. subst. unfold session_execute in E. bind_inv E. guards. subst. cbn [out_diff].
    unfold payment_diff, sort_canonical. cbn [changes]. rewrite sort_changes_perm.
    destruct (tr_recipient _); cbn; repeat (apply Forall_cons; split); try apply Forall_nil; by try apply account_allowed.
  - destruct (po_contracts policy); [|done]. by eapply contract_allowed.
Qed.

(** ** Nodes *)

Lemma available_account view s a : session_account view s a ≠ Err NativeUnavailable.
Proof. unfold session_account. destruct (bt_get _ _); [done|]. auto with available. Qed.
#[local] Hint Resolve available_account : available.

Lemma available_transfer view s t payment sender : transfer view s t payment sender ≠ Err NativeUnavailable.
Proof.
  unfold transfer. repeat (apply available_bind; [solve [auto with available]|intros]).
  destruct (bool_decide _); [done|]. repeat (apply available_bind; [solve [auto with available]|intros]). done.
Qed.
#[local] Hint Resolve available_transfer : available.

Lemma payment_available view s t : session_execute view s t ≠ Err NativeUnavailable.
Proof. unfold session_execute. repeat (apply available_bind; [solve [auto with available]|intros]). done. Qed.

(** Every node executes a transaction as a node on which nothing fails, or is unavailable. *)
Lemma lane_node view t context policy :
  u64 (vc_next_height context) →
  node_agrees (execute_lane reference_calls view context policy t) (execute_lane calls view context policy t).
Proof.
  intros Hh. unfold execute_lane. destruct (tx_lane t).
  - apply node_agrees_refl. pose proof (payment_available view (session_with_prices (session_new context (po_capacity policy)) (po_prices policy)) t) as Ha.
    destruct (session_execute _ _ _) as [[out s]|e]; [done|congruence].
  - destruct (po_contracts policy); [by apply execute_contract_node|by apply node_agrees_refl].
  - by apply node_agrees_refl.
Qed.
End writes.
