(* ===== verification/Speculation.v ===== *)
(** * Speculation: executing transactions out of block order

    The abstract argument behind parallel execution.  A partial execution has the outputs
    of some transactions of a block and an overlay of their changes.  It is consistent when
    every output is the one the transaction has after the finished transactions before it,
    when no transaction is finished before a conflicting predecessor, and when the overlay
    shows the last change of every key.  A job executes several transactions over a view
    frozen when it started and may finish after others; it keeps the partial execution
    consistent if whatever conflicts with its transactions was finished when it started or
    comes earlier in the job.  A complete consistent execution is the serial one. *)

From S2P Require Import Prelude Ordered Codec Types Crypto Trocto TroctoProgram Native NativeCache State StateTree Transactions Payments Contracts Blocks Scheduler Frames.

#[local] Arguments cmp : simpl never.

(** ** Last changes *)

Definition Outputs : Type := nat → option TransactionOutput.

(** What an output changes a key to. *)
Definition change_at (o : option TransactionOutput) (key : StateKey) : option (option bytes) :=
  o ← o; bt_get key (overlay_apply [] (out_diff o)).

(** The last change of a key by the first [n] transactions. *)
Fixpoint last_change (outs : Outputs) (key : StateKey) (n : nat) : option (option bytes) :=
  match n with
  | O => None
  | S n => match change_at (outs n) key with Some v => Some v | None => last_change outs key n end
  end.

Definition view_below (parent : StateView) (outs : Outputs) (n : nat) : StateView := λ key,
  match last_change outs key n with Some v => Ok v | None => parent key end.

Lemma overlay_apply_get values diff key :
  bt_get key (overlay_apply values diff)
  = match bt_get key (overlay_apply [] diff) with Some v => Some v | None => bt_get key values end.
Proof.
  unfold overlay_apply. destruct diff as [cs]. cbn [changes]. induction cs as [|c cs IH] using rev_ind; [done|].
  rewrite !fold_left_app. cbn [fold_left]. unfold overlay_change at 1 3.
  destruct c as [k v|k]; (destruct (decide (key = k)) as [->|Hne]; [by rewrite !bt_get_insert_eq|by rewrite !bt_get_insert_ne]).
Qed.

Lemma change_at_key o key v :
  bt_get key (overlay_apply [] (out_diff o)) = Some v → ∃ c, c ∈ changes (out_diff o) ∧ change_key c = key.
Proof.
  unfold overlay_apply. induction (changes (out_diff o)) as [|c cs IH] using rev_ind; [done|].
  rewrite fold_left_app. cbn [fold_left]. unfold overlay_change at 1. intros Hg.
  destruct (decide (key = change_key c)) as [->|Hne]; [exists c; split; [|done]; apply elem_of_app; right; by apply list_elem_of_singleton|].
  assert (bt_get key (fold_left overlay_change cs []) = Some v) as (c' & Hc & Hk)%IH.
  { destruct c; cbn in Hne; by rewrite bt_get_insert_ne in Hg. }
  exists c'. split; [|done]. apply elem_of_app. by left.
Qed.

Lemma last_change_ext o1 o2 key n :
  (∀ j, (j < n)%nat → change_at (o1 j) key = change_at (o2 j) key) → last_change o1 key n = last_change o2 key n.
Proof. induction n as [|n IH]; intros He; [done|]. cbn. rewrite (He n) by lia. rewrite IH; [done|]. intros j Hj. apply He. lia. Qed.

Lemma last_change_beyond outs key i n :
  (i <= n)%nat → (∀ j, (i <= j < n)%nat → change_at (outs j) key = None) → last_change outs key n = last_change outs key i.
Proof.
  intros Hle. induction Hle as [|n Hle IH]; intros Hn; [done|]. cbn. rewrite Hn by lia. apply IH. intros j Hj. apply Hn. lia.
Qed.

Definition finish_one (i : nat) (o : TransactionOutput) (outs : Outputs) : Outputs :=
  λ j, if bool_decide (j = i) then Some o else outs j.

Lemma finish_eq i o outs : finish_one i o outs i = Some o.
Proof. unfold finish_one. by rewrite bool_decide_eq_true_2. Qed.
Lemma finish_ne i o outs j : j ≠ i → finish_one i o outs j = outs j.
Proof. intros. unfold finish_one. by rewrite bool_decide_eq_false_2. Qed.

(** The accounting loop over the outputs of a block. *)
Fixpoint used_within (capacity used : Resources) (outs : list TransactionOutput) : result unit Payments.ExecutionError :=
  match outs with
  | [] => Ok tt
  | o :: outs =>
      let? used := ok_or (resources_checked_add used (rc_resources (out_receipt o))) ResourceLimit in
      let? _ := reject_if (negb (fits_in used capacity)) ResourceLimit in
      used_within capacity used outs
  end.

(** ** Consistent partial executions *)

Section speculation.
Context {blake : Blake2s} {ed : Ed25519} {wasm : WasmEngine}.
Context (parent : StateView) (context : ValidationContext) (policy : ExecutionPolicy) (txs : list Transaction).
Context (height_ok : u64 (vc_next_height context)) (declared_all : Forall declares txs).
Implicit Types (outs : Outputs) (t : Transaction).

Definition good outs i t o : Prop := execute_lane reference_calls (view_below parent outs i) context policy t = Ok o.

Record consistent outs (values : Overlay) : Prop := {
  co_good : ∀ i o, outs i = Some o → ∃ t, txs !! i = Some t ∧ good outs i t o;
  co_closed : ∀ i j a b, is_Some (outs i) → txs !! j = Some a → txs !! i = Some b → (j < i)%nat → conflicting a b → is_Some (outs j);
  co_overlay : ∀ key, bt_get key values = last_change outs key (length txs)
}.

Lemma good_allowed outs i t o : good outs i t o → Forall (allowed t) (changes (out_diff o)).
Proof. intros Hg. eapply (lane_allowed (calls := reference_calls)); eauto. Qed.

(** What a finished transaction changes, it declared for writing. *)
Lemma change_allowed outs i t o key v :
  good outs i t o → change_at (Some o) key = Some v →
  key ∈ tx_access_list t ∧ mode_in t key = WriteAccess ∧ key ≠ runtime_key.
Proof.
  intros Hg Hc. apply change_at_key in Hc as (c & Hin & <-). apply good_allowed in Hg. rewrite Forall_forall in Hg. by apply Hg.
Qed.

Lemma empty_consistent : consistent (λ _, None) [].
Proof.
  split; [done|by intros i j a b []|]. intros key. cbn. induction (length txs); [done|]. by cbn.
Qed.

(** A change that a transaction can observe comes from a conflicting one. *)
Lemma change_conflicts outs j a b o key v :
  good outs j a o → change_at (Some o) key = Some v → readable b key → conflicting a b.
Proof.
  intros Hg Hc Hr. destruct (change_allowed _ _ _ _ _ _ Hg Hc) as (Hin & Hm & Hne).
  destruct Hr as [->|Hr]; [done|]. right. exists key. auto.
Qed.

Lemma declares_at i t : txs !! i = Some t → declares t.
Proof. intros Hi. by eapply (Forall_lookup_1 _ _ _ _ declared_all). Qed.

(** An output stays right when the changes before it that it can observe are the same. *)
Lemma good_ext o1 o2 i t o :
  txs !! i = Some t →
  (∀ j key, (j < i)%nat → readable t key → change_at (o1 j) key = change_at (o2 j) key) → good o1 i t o → good o2 i t o.
Proof.
  intros Hi He Hg. unfold good. rewrite <- Hg. symmetry. apply (lane_frame (native := reference_calls)); [by eapply declares_at|].
  intros key Hr. unfold view_below. by rewrite (last_change_ext o1 o2) by (intros; by apply He).
Qed.

Lemma consistent_ext o1 o2 values : (∀ i, o1 i = o2 i) → consistent o1 values → consistent o2 values.
Proof.
  intros He Hc. split.
  - intros i o Hi. rewrite <- He in Hi. destruct (co_good _ _ Hc i o Hi) as (t & Ht & Hg). exists t. split; [done|].
    apply (good_ext o1); [done| |done]. intros j key _ _. by rewrite He.
  - intros i j a b. rewrite <- !He. apply (co_closed _ _ Hc).
  - intros key. rewrite (co_overlay _ _ Hc). apply last_change_ext. intros j _. by rewrite He.
Qed.

(** No finished transaction conflicts with an earlier unfinished one. *)
Lemma later_free outs values i j t b :
  consistent outs values → txs !! i = Some t → txs !! j = Some b → outs i = None → (i < j)%nat → conflicting t b → outs j = None.
Proof.
  intros Hc Ht Hb Hi Hij Hconf. destruct (outs j) as [o|] eqn:E; [|done].
  assert (is_Some (outs i)) as [o' Ho'] by (eapply (co_closed _ _ Hc j i t b); eauto). congruence.
Qed.

Lemma later_silent outs values i j t o0 o key v :
  consistent outs values → txs !! i = Some t → outs i = None → (i < j)%nat →
  good o0 i t o → change_at (Some o) key = Some v → change_at (outs j) key = None.
Proof.
  intros Hc Hi Hnone Hij Hg Ho. destruct (outs j) as [oj|] eqn:Ej; [|done].
  destruct (change_at (Some oj) key) eqn:Ec; [|done]. destruct (co_good _ _ Hc _ _ Ej) as (b & Hb & Hgb).
  destruct (change_allowed _ _ _ _ _ _ Hgb Ec) as (Hin & _ & _).
  assert (outs j = None); [|congruence]. eapply (later_free outs values i j t b); eauto. eapply change_conflicts; eauto. by right.
Qed.

(** Finishing one more transaction. *)
Lemma extend outs values i t o :
  consistent outs values → txs !! i = Some t → outs i = None →
  (∀ j a, txs !! j = Some a → (j < i)%nat → conflicting a t → is_Some (outs j)) →
  good outs i t o → consistent (finish_one i o outs) (overlay_apply values (out_diff o)).
Proof.
  intros Hc Hi Hnone Hp Hg. split.
  - intros k o' Hk. destruct (decide (k = i)) as [->|Hne].
    + rewrite finish_eq in Hk. simplify_eq. exists t. split; [done|]. apply (good_ext outs); [done| |done].
      intros j key Hj _. by rewrite finish_ne by lia.
    + rewrite finish_ne in Hk by done. destruct (co_good _ _ Hc _ _ Hk) as (b & Hb & Hgb). exists b. split; [done|].
      apply (good_ext outs); [done| |done]. intros j key Hj Hr. destruct (decide (j = i)) as [->|Hji]; [|by rewrite finish_ne].
      rewrite finish_eq, Hnone. destruct (change_at (Some o) key) eqn:Ec; [|done].
      assert (outs k = None); [|congruence]. eapply (later_free outs values i k t b); eauto. by eapply change_conflicts.
  - intros k j a b Hk Ha Hb Hjk Hconf. destruct (decide (j = i)) as [->|Hji]; [by rewrite finish_eq|].
    rewrite finish_ne by done. destruct (decide (k = i)) as [->|Hki]; [simplify_eq; by eapply Hp|].
    rewrite finish_ne in Hk by done. by eapply (co_closed _ _ Hc k j a b).
  - intros key. rewrite overlay_apply_get. change (bt_get key (overlay_apply [] (out_diff o))) with (change_at (Some o) key).
    pose proof (lookup_lt_Some _ _ _ Hi) as Hn. destruct (change_at (Some o) key) as [v|] eqn:Ec.
    + rewrite (last_change_beyond _ _ (S i)) by (lia || intros j Hj; rewrite finish_ne by lia; eapply later_silent; eauto; lia).
      cbn. by rewrite finish_eq, Ec.
    + rewrite (co_overlay _ _ Hc). apply last_change_ext. intros j Hj.
      destruct (decide (j = i)) as [->|Hne]; [by rewrite finish_eq, Hnone, Ec|by rewrite finish_ne].
Qed.

(** ** Jobs *)

(** A worker's loop over the transactions of a job, in one session. *)
Fixpoint run_indexes (native : NativeCalls) (view : StateView) (s : SignedSession) (indexes : list nat)
    : result (list (nat * TransactionOutput)) Payments.ExecutionError :=
  match indexes with
  | [] => Ok []
  | i :: rest =>
      match txs !! i with
      | None => Err Trap
      | Some t =>
          let? (o, s) := signed_execute native view s t in
          let? results := run_indexes native view s rest in
          Ok ((i, o) :: results)
      end
  end.

Definition finish_all (results : list (nat * TransactionOutput)) outs : Outputs :=
  fold_left (λ outs r, finish_one r.1 r.2 outs) results outs.
Definition apply_all (results : list (nat * TransactionOutput)) (values : Overlay) : Overlay :=
  fold_left (λ values r, overlay_apply values (out_diff r.2)) results values.

Lemma finish_all_other results outs i : i ∉ map fst results → finish_all results outs i = outs i.
Proof.
  revert outs. induction results as [|[k o] results IH]; intros outs Hi; [done|]. apply not_elem_of_cons in Hi as [Hne Hi].
  cbn [finish_all fold_left]. unfold finish_all in IH. rewrite IH by done. by apply finish_ne.
Qed.

Lemma conflicting_sym a b : conflicting a b → conflicting b a.
Proof. intros [?|(key & ? & ? & Hm)]; [by left|]. right. exists key. destruct Hm; auto. Qed.

(** The overlay shows an unfinished transaction what its predecessors did. *)
Lemma overlay_below outs values i t key :
  consistent outs values → txs !! i = Some t → outs i = None → readable t key →
  overlay_view parent values key = view_below parent outs i key.
Proof.
  intros Hc Hi Hnone Hr. unfold overlay_view, view_below. rewrite (co_overlay _ _ Hc).
  pose proof (lookup_lt_Some _ _ _ Hi). rewrite (last_change_beyond _ _ i); [done|lia|]. intros j Hj.
  destruct (outs j) as [o|] eqn:Ej; [|done]. destruct (change_at (Some o) key) eqn:Ec; [|done].
  destruct (co_good _ _ Hc _ _ Ej) as (b & Hb & Hg). assert (outs j = None); [|congruence].
  destruct (decide (j = i)) as [->|Hne]; [done|]. eapply (later_free outs values i j t b); eauto; [lia|].
  eapply conflicting_sym, change_conflicts; eauto.
Qed.

Section job.
Context {calls : NativeCalls} {laws : NativeLaws calls}.

(** A session that executes under the policy of the block. *)
Definition session_fits (s : SignedSession) : Prop :=
  ss_context s = context ∧ mkPolicy (ss_capacity s) (ss_prices s) (ss_contracts s) = policy.

Lemma signed_good view s outs values i t o s' :
  session_fits s → consistent outs values → txs !! i = Some t → outs i = None →
  (∀ key, readable t key → overlay_view view (ss_values s) key = overlay_view parent values key) →
  signed_execute calls view s t = Ok (o, s') →
  good outs i t o ∧ session_fits s' ∧ ss_values s' = overlay_apply (ss_values s) (out_diff o).
Proof.
  intros [Hctx Hpol] Hc Hi Hnone Hview Hex. unfold signed_execute in Hex. rewrite Hctx, Hpol in Hex. bind_inv Hex. guards. subst a s'.
  split; [|done]. destruct (lane_node (overlay_view view (ss_values s)) t context policy height_ok) as [[Heq|Heq] _];
    [|by rewrite Heq in E]. rewrite Heq in E. unfold good. rewrite <- E. symmetry.
  apply (lane_frame (native := reference_calls)); [by eapply declares_at|]. intros key Hr. rewrite Hview by done. by eapply overlay_below.
Qed.

(** What a job needs: whatever conflicts with one of its transactions was finished when
    it started or comes earlier in the job. *)
Definition job_ready outs (indexes : list nat) : Prop :=
  ∀ m i j a t, indexes !! m = Some i → txs !! i = Some t → txs !! j = Some a → (j < i)%nat → conflicting a t →
  is_Some (outs j) ∨ j ∈ take m indexes.

Lemma job_ready_tail outs i o indexes : job_ready outs (i :: indexes) → job_ready (finish_one i o outs) indexes.
Proof.
  intros Hj m k j a t Hk Ht Ha Hlt Hc. destruct (Hj (S m) k j a t Hk Ht Ha Hlt Hc) as [Hs|[->|Hin]%elem_of_cons]; [|left|by right].
  - left. unfold finish_one. by case_bool_decide.
  - by rewrite finish_eq.
Qed.

(** Outputs of a job that started in an earlier partial execution. *)
Lemma good_later outs0 outs values i t o :
  consistent outs values → txs !! i = Some t → (∀ j, is_Some (outs0 j) → outs j = outs0 j) →
  (∀ j a, txs !! j = Some a → (j < i)%nat → conflicting a t → is_Some (outs0 j)) → good outs0 i t o → good outs i t o.
Proof.
  intros Hc Hi Hsub Hp. apply good_ext; [done|]. intros j key Hj Hr. destruct (outs0 j) as [o0|] eqn:E0; [by rewrite Hsub, E0|].
  destruct (outs j) as [oj|] eqn:Ej; [|done]. change (None = change_at (Some oj) key). destruct (change_at (Some oj) key) eqn:Ec; [|done].
  destruct (co_good _ _ Hc _ _ Ej) as (b & Hb & Hg). destruct (Hp j b Hb Hj) as [? ?]; [by eapply change_conflicts|congruence].
Qed.

Lemma job_finishes view s indexes results outs0 values0 outs values :
  session_fits s → consistent outs0 values0 → consistent outs values → (∀ j, is_Some (outs0 j) → outs j = outs0 j) →
  NoDup indexes → (∀ i, i ∈ indexes → outs i = None) → job_ready outs0 indexes →
  (∀ i t key, i ∈ indexes → txs !! i = Some t → readable t key →
    overlay_view view (ss_values s) key = overlay_view parent values0 key) →
  run_indexes calls view s indexes = Ok results →
  consistent (finish_all results outs) (apply_all results values) ∧ map fst results = indexes.
Proof.
  revert s results outs0 values0 outs values.
  induction indexes as [|i indexes IH]; intros s results outs0 values0 outs values Hs Hc0 Hc Hsub Hnd Hnone Hjob Hview Hrun; cbn in Hrun;
    [by simplify_eq|].
  destruct (txs !! i) as [t|] eqn:Ht; [|done]. bind_inv Hrun. subst results. rename t0 into o, s0 into s', a into rest.
  assert (outs i = None) as Hi by (apply Hnone; apply list_elem_of_here).
  assert (outs0 i = None) as Hi0 by (destruct (outs0 i) eqn:E1; [|done]; rewrite (Hsub i) in Hi by (by rewrite E1); congruence).
  assert (∀ j a, txs !! j = Some a → (j < i)%nat → conflicting a t → is_Some (outs0 j)) as Hp.
  { intros j a Ha Hlt Hconf. destruct (Hjob 0%nat i j a t) as [?|Hn]; [done..|]. by apply elem_of_nil in Hn. }
  destruct (signed_good _ _ _ _ _ _ _ _ Hs Hc0 Ht Hi0 (λ key, Hview i t key (list_elem_of_here _ _) Ht) E) as (Hg & Hs' & Hvals).
  apply NoDup_cons in Hnd as [Hni Hnd]. cbn [finish_all apply_all fold_left fst snd].
  assert (consistent (finish_one i o outs) (overlay_apply values (out_diff o))) as Hc'.
  { apply (extend _ _ i t); [done..| |by eapply good_later]. intros j a Ha Hlt Hconf. rewrite Hsub; by eapply Hp. }
  destruct (IH s' rest (finish_one i o outs0) (overlay_apply values0 (out_diff o)) (finish_one i o outs) (overlay_apply values (out_diff o)))
    as [Hfin Hfst]; [done|by eapply extend|done|..|done|split; [done|by cbn; rewrite Hfst]].
  - intros j. unfold finish_one. case_bool_decide; [done|apply Hsub].
  - done.
  - intros j Hj. rewrite finish_ne by (intros ->; done). apply Hnone. by right.
  - by apply job_ready_tail.
  - intros k b key Hk Hb Hr. rewrite Hvals. unfold overlay_view. rewrite (overlay_apply_get (ss_values s)), (overlay_apply_get values0).
    destruct (bt_get key (overlay_apply [] (out_diff o))); [done|]. apply (Hview k b key); [by right|done..].
Qed.
End job.

(** ** Complete executions are serial *)

Lemma serial_suffix (os : list TransactionOutput) values k s :
  consistent (λ i, os !! i) values → length os = length txs → (k <= length txs)%nat → session_fits s →
  (∀ key, bt_get key (ss_values s) = last_change (λ i, os !! i) key k) →
  match used_within (ss_capacity s) (ss_used s) (drop k os) with
  | Ok _ => ∃ s', signed_all reference_calls parent s (drop k txs) = Ok (drop k os, s')
  | Err e => signed_all reference_calls parent s (drop k txs) = Err e
  end.
Proof.
  intros Hc Hl Hk. remember (length txs - k)%nat as d eqn:Hd. revert k s Hk Hd.
  induction d as [|d IH]; intros k s Hk Hd Hs Hvals.
  { rewrite !drop_ge by lia. cbn. eauto. }
  destruct (lookup_lt_is_Some_2 os k) as [o Ho]; [lia|]. destruct (co_good _ _ Hc k o Ho) as (t & Ht & Hg).
  rewrite (drop_S _ _ _ Ho), (drop_S _ _ _ Ht). cbn [used_within signed_all]. unfold signed_execute. destruct Hs as [Hctx Hpol]. rewrite Hctx, Hpol.
  assert (execute_lane reference_calls (overlay_view parent (ss_values s)) context policy t = Ok o) as ->.
  { rewrite <- Hg. apply (lane_frame (native := reference_calls)); [by eapply declares_at|]. intros key _.
    unfold overlay_view, view_below. by rewrite Hvals. }
  destruct (ok_or (resources_checked_add _ _) _) as [used|e]; [|done]. destruct (reject_if _ _) as [u|e]; [|done].
  set (s' := mkSigned (overlay_apply (ss_values s) (out_diff o)) context (ss_capacity s) used (ss_contracts s) (ss_prices s)).
  assert (∀ key, bt_get key (ss_values s') = last_change (λ i, os !! i) key (S k)) as Hvals'.
  { intros key. cbn [ss_values s' last_change]. rewrite (overlay_apply_get (ss_values s)), Ho, <- Hvals. done. }
  specialize (IH (S k) s' ltac:(lia) ltac:(lia) (conj eq_refl Hpol) Hvals'). cbn [ss_capacity ss_used s'] in IH.
  destruct (used_within _ _ _) as [v|e].
  - destruct IH as [s2 ->]. eauto.
  - by rewrite IH.
Qed.

Lemma complete_serial (os : list TransactionOutput) values :
  consistent (λ i, os !! i) values → length os = length txs →
  let s := signed_with_prices (signed_new context (po_capacity policy) (po_contracts policy)) (po_prices policy) in
  match used_within (po_capacity policy) resources_zero os with
  | Ok _ => ∃ s', signed_all reference_calls parent s txs = Ok (os, s')
  | Err e => signed_all reference_calls parent s txs = Err e
  end.
Proof.
  intros Hc Hl s. apply (serial_suffix os values 0 s Hc Hl); [lia| |done]. split; [done|]. by destruct policy.
Qed.
End speculation.
