(* ===== verification/Parallel.v ===== *)
(** * Parallel: speculative execution of a block by several workers
    ([speculate] and [speculate_waves] of [src/crates/execution/src/parallel_payment.rs],
    [src/crates/execution/src/worker_pool.rs])

    The coordinator starts a transaction when its listed predecessors are finished, fuses
    linear paths into one job and freezes the declared keys of a job's view; jobs finish in
    any order.  Plans without parallel waves, or with a single one, run wave by wave.
    Which job finishes next, what happens to the native workers of a job and whether a
    worker thread is lost are arbitrary.  Whatever they are, outputs that speculation
    returns are those of a consistent complete execution, and it never panics or hangs. *)

From S2P Require Import Prelude Ordered Codec Types Crypto Trocto TroctoProgram Native NativeCache State StateTree Transactions Payments Contracts Blocks Scheduler Frames Speculation.

#[local] Arguments cmp : simpl never.

(** ** Worker pools *)

(** What happens to one task: a worker executes it, the worker's answer is lost (it
    panicked or its channel closed), or the task could not be sent. *)
Inductive Fate := Runs (calls : NativeCalls) | Lost | Unsent.

Inductive Delivery (A : Type) := Answered (r : result A Payments.ExecutionError) | LostAnswer | NotSent.
Arguments Answered {A} r.
Arguments LostAnswer {A}.
Arguments NotSent {A}.

Definition deliver {A : Type} (run : NativeCalls → result A Payments.ExecutionError) (fate : Fate) : Delivery A :=
  match fate with Runs calls => Answered (run calls) | Lost => LostAnswer | Unsent => NotSent end.

(** The tasks before the first that could not be sent. *)
Fixpoint dispatched {A : Type} (ds : list (Delivery A)) : list (Delivery A) :=
  match ds with [] | NotSent :: _ => [] | d :: ds => d :: dispatched ds end.

(** The outputs in order and the first error. *)
Fixpoint gather {A : Type} (ds : list (Delivery A)) (outputs : list A) (error : option Payments.ExecutionError)
    : list A * option Payments.ExecutionError :=
  match ds with
  | [] => (outputs, error)
  | Answered (Ok output) :: ds => gather ds (outputs ++ [output]) error
  | Answered (Err e) :: ds => gather ds outputs (Some (default e error))
  | _ :: ds => gather ds outputs (Some (default Trap error))
  end.

(** [ScopedWorkerPool::map_into] with [count] workers: the pool's state and the result. *)
Definition map_into {A : Type} (count : nat) (active : bool) (tasks : list (Delivery A))
    : bool * result (list A) Payments.ExecutionError :=
  if negb active then (active, Err Trap)
  else if (count <? length tasks)%nat then (active, Err ResourceLimit)
  else
    let sent := dispatched tasks in
    let error := if (length sent <? length tasks)%nat then Some Trap else None in
    match gather sent [] error with
    | (outputs, None) => (true, Ok outputs)
    | (_, Some error) => (false, Err error)
    end.

(** Creating a pool, given whether its threads could be spawned. *)
Definition pool_new (count : nat) (spawned : bool) : result unit Payments.ExecutionError :=
  if (count =? 0)%nat || negb spawned then Err ResourceLimit else Ok tt.

(** [slice::chunks]; a size of zero would panic. *)
Fixpoint chunks_from {A : Type} (fuel size : nat) (xs : list A) : list (list A) :=
  match fuel with
  | O => []
  | S fuel => match xs with [] => [] | _ => take size xs :: chunks_from fuel size (drop size xs) end
  end.
Definition chunks {A : Type} (size : nat) (xs : list A) : option (list (list A)) :=
  if (size =? 0)%nat then None else Some (chunks_from (length xs) size xs).

Definition div_ceil (a b : nat) : nat := (a / b + if (a mod b =? 0)%nat then 0 else 1)%nat.

(** [Vec::push] at every predecessor, which must exist. *)
Fixpoint push_successor (index : nat) (previous : list nat) (successors : list (list nat)) : option (list (list nat)) :=
  match previous with
  | [] => Some successors
  | p :: previous => l ← successors !! p; push_successor index previous (<[p := l ++ [index]]> successors)
  end.
Fixpoint push_successors (index : nat) (deps successors : list (list nat)) : option (list (list nat)) :=
  match deps with
  | [] => Some successors
  | ps :: deps => successors ← push_successor index ps successors; push_successors (S index) deps successors
  end.
Definition successor_indexes (deps : list (list nat)) : option (list (list nat)) :=
  push_successors 0 deps (replicate (length deps) []).

(** [collect]ing the outputs. *)
Fixpoint collect_outputs (outputs : list (option TransactionOutput)) : result (list TransactionOutput) Payments.ExecutionError :=
  match outputs with
  | [] => Ok []
  | o :: outputs => let? o := ok_or o ExecutionConflict in let? os := collect_outputs outputs in Ok (o :: os)
  end.

(** The overlay values of some keys. *)
Definition freeze (values : Overlay) (keys : list StateKey) : Overlay :=
  fold_left (λ frozen key, match bt_get key values with Some v => bt_insert key v frozen | None => frozen end) keys [].

(** Insertion in a [BTreeSet<usize>]. *)
Fixpoint set_insert (i : nat) (xs : list nat) : list nat :=
  match xs with
  | [] => [i]
  | x :: rest => if (i <? x)%nat then i :: xs else if (i =? x)%nat then xs else x :: set_insert i rest
  end.

(** ** The readiness-driven coordinator ([speculate]) *)

(** The coordinator's variables; [dg_flight] are the jobs that workers are executing. *)
Record Dag := mkDag {
  dg_remaining : list nat;
  dg_ready : list nat;
  dg_started : list bool;
  dg_outputs : list (option TransactionOutput);
  dg_values : Overlay;
  dg_flight : list (list nat * Overlay);
  dg_completed : nat
}.

(** The loop that fuses a linear path; [None] is a panic or exhausted fuel. *)
Fixpoint fuse (fuel : nat) (successors : list (list nat)) (remaining : list nat) (started : list bool) (tail : nat)
    : option (list nat * list bool) :=
  match fuel with
  | O => None
  | S fuel =>
      next_of_tail ← successors !! tail;
      match next_of_tail with
      | [next] =>
          count ← remaining !! next;
          begun ← started !! next;
          if negb (count =? 1)%nat || begun then Some ([], started)
          else
            '(rest, started) ← fuse fuel successors remaining (<[next := true]> started) next;
            Some (next :: rest, started)
      | _ => Some ([], started)
      end
  end.

Section coordinator.
Context {blake : Blake2s} {ed : Ed25519} {wasm : WasmEngine}.
Context (parent : StateView) (context : ValidationContext) (policy : ExecutionPolicy) (txs : list Transaction).
Context (successors : list (list nat)).

Definition declared_keys (indexes : list nat) : list StateKey :=
  flat_map (λ i, match txs !! i with Some t => tx_access_list t | None => [] end) indexes.

(** The loop that gives work to [idle] workers. *)
Fixpoint dispatch_ready (idle : nat) (d : Dag) : option Dag :=
  match idle, dg_ready d with
  | S idle, index :: ready =>
      _ ← dg_started d !! index;
      '(rest, started) ← fuse (length txs) successors (dg_remaining d) (<[index := true]> (dg_started d)) index;
      let indexes := index :: rest in
      dispatch_ready idle (mkDag (dg_remaining d) ready started (dg_outputs d) (dg_values d)
                       (dg_flight d ++ [(indexes, freeze (dg_values d) (declared_keys indexes))]) (dg_completed d))
  | _, _ => Some d
  end.

(** A finished predecessor: the counts of its successors fall, and those without
    unfinished predecessors become ready. *)
Fixpoint release (next : list nat) (started : list bool) (remaining ready : list nat) : option (list nat * list nat) :=
  match next with
  | [] => Some (remaining, ready)
  | i :: next =>
      count ← remaining !! i;
      begun ← started !! i;
      match count with
      | O => None
      | S count =>
          release next started (<[i := count]> remaining)
            (if (count =? 0)%nat && negb begun then set_insert i ready else ready)
      end
  end.

Fixpoint complete_job (results : list (nat * TransactionOutput)) (d : Dag) : option Dag :=
  match results with
  | [] => Some d
  | (index, output) :: results =>
      _ ← dg_outputs d !! index;
      next ← successors !! index;
      '(remaining, ready) ← release next (dg_started d) (dg_remaining d) (dg_ready d);
      complete_job results (mkDag remaining ready (dg_started d) (<[index := Some output]> (dg_outputs d))
                          (overlay_apply (dg_values d) (out_diff output)) (dg_flight d) (S (dg_completed d)))
  end.

(** The closure that a worker runs: a session over the frozen view. *)
Definition run_job (calls : NativeCalls) (indexes : list nat) (values : Overlay)
    : result (list (nat * TransactionOutput)) Payments.ExecutionError :=
  run_indexes txs calls (overlay_view parent values)
    (signed_with_prices (signed_new context (po_capacity policy) (po_contracts policy)) (po_prices policy)) indexes.

(** Which job finishes next, and what happened to it. *)
Record Round := mkRound { rd_pick : nat; rd_fate : Fate }.

(** The coordinator's loop; the number of transactions is enough fuel. *)
Fixpoint coordinate (fuel pool_size : nat) (rounds : nat → Round) (d : Dag)
    : option (result (list (option TransactionOutput)) Payments.ExecutionError) :=
  if (length txs <=? dg_completed d)%nat then Some (Ok (dg_outputs d))
  else
    match fuel with
    | O => None
    | S fuel =>
        d ← dispatch_ready (pool_size - length (dg_flight d)) d;
        let pick := (rd_pick (rounds fuel) mod length (dg_flight d))%nat in
        match dg_flight d !! pick with
        | None => Some (Err ExecutionConflict)
        | Some (indexes, values) =>
            match deliver (λ calls, run_job calls indexes values) (rd_fate (rounds fuel)) with
            | Answered (Ok results) =>
                d ← complete_job results (mkDag (dg_remaining d) (dg_ready d) (dg_started d) (dg_outputs d) (dg_values d)
                                        (delete pick (dg_flight d)) (dg_completed d));
                coordinate fuel pool_size rounds d
            | Answered (Err e) => Some (Err e)
            | _ => Some (Err Trap)
            end
        end
    end.
End coordinator.

(** ** Waves ([speculate_waves]) *)

(** What happens around a speculation: whether threads can be spawned, the rounds of the
    coordinator, the node on which singleton waves run, and the fate of every chunk. *)
Record Surrounding := mkSurrounding {
  su_spawned : bool;
  su_rounds : nat → Round;
  su_serial : nat → NativeCalls;
  su_fates : nat → nat → Fate
}.

Section waves.
Context {blake : Blake2s} {ed : Ed25519} {wasm : WasmEngine}.
Context (parent : StateView) (context : ValidationContext) (policy : ExecutionPolicy) (txs : list Transaction).

(** Results moved to their places; the overlay is written after all readers finished. *)
Fixpoint publish_results (results : list (nat * TransactionOutput)) (outputs : list (option TransactionOutput)) (values : Overlay)
    : option (list (option TransactionOutput) * Overlay) :=
  match results with
  | [] => Some (outputs, values)
  | (index, output) :: results =>
      _ ← outputs !! index;
      publish_results results (<[index := Some output]> outputs) (overlay_apply values (out_diff output))
  end.

(** Consecutive singleton waves, and the rest. *)
Fixpoint singletons (ws : list (list nat)) : list nat * list (list nat) :=
  match ws with
  | [i] :: ws => let '(is_, ws) := singletons ws in (i :: is_, ws)
  | ws => ([], ws)
  end.

(** The loop over the waves, with the pool's size and state.  Every round takes at least
    one wave, so the number of waves is enough fuel; [None] is a panic. *)
Fixpoint run_waves (fuel workers pool_size : nat) (active : bool) (serial : nat → NativeCalls) (fates : nat → nat → Fate)
    (ws : list (list nat)) (outputs : list (option TransactionOutput)) (values : Overlay)
    : option (result (list (option TransactionOutput)) Payments.ExecutionError) :=
  match ws, fuel with
  | [], _ => Some (Ok outputs)
  | _, O => None
  | [i] :: ws, S fuel =>
      let '(more, ws) := singletons ws in
      match run_job parent context policy txs (serial fuel) (i :: more) values with
      | Err e => Some (Err e)
      | Ok results =>
          '(outputs, values) ← publish_results results outputs values;
          run_waves fuel workers pool_size active serial fates ws outputs values
      end
  | indexes :: ws, S fuel =>
      parts ← chunks (div_ceil (length indexes) workers) indexes;
      let tasks := imap (λ k chunk, deliver (λ calls, run_job parent context policy txs calls chunk values) (fates fuel k))
                     (take pool_size parts) in
      if negb (1 <? pool_size)%nat then Some (Err ExecutionConflict)
      else
        match map_into pool_size active tasks with
        | (_, Err e) => Some (Err e)
        | (active, Ok returned) =>
            '(outputs, values) ← publish_results (concat returned) outputs values;
            run_waves fuel workers pool_size active serial fates ws outputs values
        end
  end.

Definition longest (ws : list (list nat)) : nat := list_max (map length ws).

Definition speculate_waves (workers : nat) (env : Surrounding)
    : option (result (list TransactionOutput) Payments.ExecutionError) :=
  match validate_declarations txs with
  | Err e => Some (Err e)
  | Ok _ =>
      plan ← greedy_plan txs;
      let ws := map transaction_indexes (waves plan) in
      let pool_size := Nat.min (longest ws) workers in
      match (if (1 <? pool_size)%nat then pool_new pool_size (su_spawned env) else Ok tt) with
      | Err e => Some (Err e)
      | Ok _ =>
          outputs ← run_waves (length ws) workers pool_size true (su_serial env) (su_fates env) ws
                      (replicate (length txs) None) [];
          Some (let? outputs := outputs in collect_outputs outputs)
      end
  end.

(** The transactions without predecessors, in order. *)
Definition initially_ready (remaining : list nat) : list nat :=
  List.filter (λ i, bool_decide (remaining !! i = Some 0%nat)) (seq 0 (length remaining)).

Definition speculate (workers : nat) (env : Surrounding)
    : option (result (list TransactionOutput) Payments.ExecutionError) :=
  plan ← greedy_plan txs;
  let ws := map transaction_indexes (waves plan) in
  if (length ws <? 2)%nat || forallb (λ w, (length w =? 1)%nat) ws then speculate_waves workers env
  else
    match validate_declarations txs with
    | Err e => Some (Err e)
    | Ok _ =>
        let deps := dependencies txs in
        let remaining := map length deps in
        successors ← successor_indexes deps;
        let pool_size := Nat.min workers (longest ws) in
        match pool_new pool_size (su_spawned env) with
        | Err e => Some (Err e)
        | Ok _ =>
            outputs ← coordinate parent context policy txs successors (length txs) pool_size (su_rounds env)
                        (mkDag remaining (initially_ready remaining) (replicate (length txs) false)
                           (replicate (length txs) None) [] [] 0);
            Some (let? outputs := outputs in collect_outputs outputs)
        end
    end.
End waves.

(** ** Successors *)

(** The transactions that list [p] as a predecessor. *)
Definition successors_of (deps : list (list nat)) (p : nat) : list nat :=
  List.filter (λ i, bool_decide (p ∈ default [] (deps !! i))) (seq 0 (length deps)).

Lemma push_successor_spec index ps (succ : list (list nat)) :
  NoDup ps → (∀ p, p ∈ ps → (p < length succ)%nat) →
  ∃ succ', push_successor index ps succ = Some succ'
    ∧ ∀ p, succ' !! p = (λ l, l ++ if bool_decide (p ∈ ps) then [index] else []) <$> succ !! p.
Proof.
  revert succ. induction ps as [|q ps IH]; intros succ Hnd Hb.
  { exists succ. split; [done|]. intros p. rewrite bool_decide_eq_false_2 by apply not_elem_of_nil.
    destruct (succ !! p); cbn; by rewrite ?app_nil_r. }
  apply NoDup_cons in Hnd as [Hq Hnd]. cbn [push_successor].
  destruct (lookup_lt_is_Some_2 succ q) as [l Hl]; [apply Hb, list_elem_of_here|]. rewrite Hl. cbn.
  destruct (IH (<[q := l ++ [index]]> succ) Hnd) as (succ' & Hp & Hs).
  { intros p Hin. rewrite length_insert. apply Hb. by right. }
  exists succ'. split; [done|]. intros p. rewrite Hs. destruct (decide (p = q)) as [->|Hne].
  - rewrite list_lookup_insert_eq by by eapply lookup_lt_Some. rewrite Hl. cbn.
    rewrite (bool_decide_eq_false_2 (q ∈ ps)), (bool_decide_eq_true_2 (q ∈ q :: ps)) by (done || apply list_elem_of_here). by rewrite app_nil_r.
  - rewrite list_lookup_insert_ne by done. destruct (succ !! p); [|done]. cbn. do 2 f_equal.
    do 2 case_bool_decide; try done; rewrite elem_of_cons in *; naive_solver.
Qed.

Lemma push_successors_spec k deps (succ : list (list nat)) :
  (∀ i ps, deps !! i = Some ps → NoDup ps ∧ ∀ p, p ∈ ps → (p < length succ)%nat) →
  ∃ succ', push_successors k deps succ = Some succ'
    ∧ ∀ p, succ' !! p = (λ l, l ++ map (Nat.add k) (successors_of deps p)) <$> succ !! p.
Proof.
  revert k succ. induction deps as [|ps deps IH]; intros k succ Hd.
  { exists succ. split; [done|]. intros p. destruct (succ !! p); cbn; by rewrite ?app_nil_r. }
  destruct (Hd 0%nat ps eq_refl) as [Hnd Hb]. destruct (push_successor_spec k ps succ Hnd Hb) as (s1 & Hp1 & Hs1).
  assert (length s1 = length succ) as Hl.
  { apply Nat.le_antisymm; apply Nat.le_ngt; intros Hlt; apply lookup_lt_is_Some_2 in Hlt as [x Hx];
      [rewrite Hs1, lookup_ge_None_2 in Hx by lia; done|].
    assert (s1 !! length s1 = None) as Hn by (apply lookup_ge_None_2; lia). rewrite Hs1, Hx in Hn. done. }
  destruct (IH (S k) s1) as (s2 & Hp2 & Hs2).
  { intros i qs Hi. rewrite Hl. apply (Hd (S i)). done. }
  exists s2. cbn. rewrite Hp1. cbn. split; [done|]. intros p. rewrite Hs2, Hs1. destruct (succ !! p) as [l|]; [|done]. cbn. f_equal.
  rewrite <- app_assoc. f_equal. unfold successors_of. cbn [length seq List.filter lookup list_lookup default from_option id].
  assert (∀ m, map (Nat.add (S k)) (List.filter (λ i, bool_decide (p ∈ default [] (deps !! i))) m)
    = map (Nat.add k) (List.filter (λ i, bool_decide (p ∈ default [] ((ps :: deps) !! i))) (map S m))) as He.
  { induction m as [|i m IHm]; [done|]. cbn [map List.filter]. change ((ps :: deps) !! S i) with (deps !! i).
    destruct (bool_decide _); cbn [map]; rewrite IHm; [f_equal; lia|done]. }
  rewrite He, seq_shift. destruct (bool_decide (p ∈ ps)); cbn; [by rewrite Nat.add_0_r|done].
Qed.

Lemma successor_indexes_spec deps :
  (∀ i ps, deps !! i = Some ps → NoDup ps ∧ ∀ p, p ∈ ps → (p < i)%nat) →
  ∃ succ, successor_indexes deps = Some succ ∧ ∀ p, (p < length deps)%nat → succ !! p = Some (successors_of deps p).
Proof.
  intros Hd. destruct (push_successors_spec 0 deps (replicate (length deps) [])) as (succ & Hs & Hget).
  { intros i ps Hi. rewrite length_replicate. destruct (Hd i ps Hi) as [Hnd Hb]. split; [done|].
    intros p Hp%Hb. apply lookup_lt_Some in Hi. lia. }
  exists succ. split; [done|]. intros p Hp. rewrite Hget, lookup_replicate_2 by done. cbn. f_equal.
  rewrite <- (map_id (successors_of deps p)) at 2. by apply map_ext.
Qed.

Lemma successors_elem deps p i : i ∈ successors_of deps p ↔ ∃ ps, deps !! i = Some ps ∧ p ∈ ps.
Proof.
  unfold successors_of. rewrite list_elem_of_In, filter_In, in_seq, bool_decide_eq_true. split.
  - intros [Hi Hp]. destruct (lookup_lt_is_Some_2 deps i) as [ps Hps]; [lia|]. rewrite Hps in Hp. eauto.
  - intros (ps & Hps & Hp). pose proof (lookup_lt_Some _ _ _ Hps). rewrite Hps. split; [lia|done].
Qed.

Lemma successors_nodup deps p : NoDup (successors_of deps p).
Proof. apply NoDup_ListNoDup, List.NoDup_filter, NoDup_ListNoDup, NoDup_seq. Qed.

(** ** Bookkeeping of the coordinator *)

Lemma set_insert_elem i xs x : x ∈ set_insert i xs ↔ x = i ∨ x ∈ xs.
Proof.
  induction xs as [|y xs IH]; cbn [set_insert]; [by rewrite elem_of_cons|]. destruct (i <? y)%nat; [by rewrite elem_of_cons|].
  destruct (Nat.eqb_spec i y) as [->|Hne]; rewrite ?elem_of_cons, ?IH; naive_solver.
Qed.

Lemma set_insert_nodup i xs : i ∉ xs → NoDup xs → NoDup (set_insert i xs).
Proof.
  induction xs as [|y xs IH]; cbn [set_insert]; [intros; by apply NoDup_singleton|]. intros [Hne Hi]%not_elem_of_cons [Hy Hnd]%NoDup_cons.
  destruct (i <? y)%nat; [apply NoDup_cons; split; [rewrite elem_of_cons; naive_solver|by apply NoDup_cons]|].
  destruct (Nat.eqb_spec i y) as [->|_]; [done|]. apply NoDup_cons. rewrite set_insert_elem. split; [naive_solver|by apply IH].
Qed.

Lemma release_spec next started remaining ready :
  NoDup next → (∀ i, i ∈ next → (∃ c, remaining !! i = Some (S c)) ∧ is_Some (started !! i)) →
  NoDup ready → (∀ i, i ∈ ready → remaining !! i = Some 0%nat ∧ started !! i = Some false) →
  ∃ remaining' ready', release next started remaining ready = Some (remaining', ready')
    ∧ length remaining' = length remaining
    ∧ (∀ i, remaining' !! i = if bool_decide (i ∈ next) then pred <$> remaining !! i else remaining !! i)
    ∧ NoDup ready' ∧ ∀ i, i ∈ ready' → remaining' !! i = Some 0%nat ∧ started !! i = Some false.
Proof.
  revert remaining ready. induction next as [|k next IH]; intros remaining ready Hnd Hnext Hndr Hready.
  { exists remaining, ready. split; [done|]. split; [done|]. split; [|done].
    intros i. by rewrite bool_decide_eq_false_2 by apply not_elem_of_nil. }
  apply NoDup_cons in Hnd as [Hk Hnd]. destruct (Hnext k (list_elem_of_here _ _)) as [[c Hc] [begun Hb]].
  pose proof (lookup_lt_Some _ _ _ Hc) as Hlt.
  assert (k ∉ ready) as Hkr by (intros [Hz _]%Hready; congruence). cbn [release]. rewrite Hc, Hb. cbn [mbind option_bind].
  destruct (IH (<[k := c]> remaining) (if (c =? 0)%nat && negb begun then set_insert k ready else ready)) as
    (remaining' & ready' & Hr & Hl & Hget & Hnd' & Hready').
  - done.
  - intros i Hi. rewrite list_lookup_insert_ne by (intros ->; done). apply Hnext. by right.
  - destruct (_ && _); [by apply set_insert_nodup|done].
  - intros i Hi. assert (i ∈ ready ∨ i = k ∧ c = 0%nat ∧ begun = false) as [Hin|(-> & -> & ->)].
    { destruct ((c =? 0)%nat && negb begun) eqn:E; [|by left]. apply andb_true_iff in E as [E%Nat.eqb_eq E'%negb_true_iff].
      apply set_insert_elem in Hi as [->|?]; auto. }
    + rewrite list_lookup_insert_ne by (intros ->; done). by apply Hready.
    + by rewrite list_lookup_insert_eq.
  - exists remaining', ready'. split; [done|]. split; [by rewrite Hl, length_insert|]. split; [|done].
    intros i. rewrite Hget. destruct (decide (i = k)) as [->|Hne].
    + rewrite bool_decide_eq_false_2, (bool_decide_eq_true_2 (k ∈ k :: next)) by (done || apply list_elem_of_here).
      by rewrite list_lookup_insert_eq, Hc.
    + rewrite list_lookup_insert_ne by done. do 2 case_bool_decide; try done; rewrite elem_of_cons in *; naive_solver.
Qed.

Definition outs_of (outputs : list (option TransactionOutput)) : Outputs := λ i, mjoin (outputs !! i).
Definition unfinished (outputs : list (option TransactionOutput)) (p : nat) : bool :=
  match outs_of outputs p with None => true | Some _ => false end.

Lemma outs_of_insert outputs i o j :
  (i < length outputs)%nat → outs_of (<[i := Some o]> outputs) j = finish_one i o (outs_of outputs) j.
Proof.
  intros Hi. unfold outs_of, finish_one. case_bool_decide as E; [subst; by rewrite list_lookup_insert_eq|by rewrite list_lookup_insert_ne].
Qed.

Lemma unfinished_true outputs p : unfinished outputs p = true ↔ outs_of outputs p = None.
Proof. unfold unfinished. by destruct (outs_of outputs p). Qed.

Lemma count_unfinished outputs i o (ps : list nat) :
  (i < length outputs)%nat → outs_of outputs i = None → NoDup ps →
  length (List.filter (unfinished outputs) ps)
  = (length (List.filter (unfinished (<[i := Some o]> outputs)) ps) + if bool_decide (i ∈ ps) then 1 else 0)%nat.
Proof.
  intros Hi Hnone. induction ps as [|p ps IH]; intros Hnd; [by rewrite bool_decide_eq_false_2 by apply not_elem_of_nil|].
  apply NoDup_cons in Hnd as [Hp Hnd]. specialize (IH Hnd). cbn [List.filter].
  destruct (decide (p = i)) as [->|Hne].
  - assert (unfinished outputs i = true) as -> by by apply unfinished_true.
    assert (unfinished (<[i := Some o]> outputs) i = false) as ->.
    { unfold unfinished. rewrite outs_of_insert by done. by rewrite finish_eq. }
    rewrite (bool_decide_eq_true_2 (i ∈ i :: ps)) by apply list_elem_of_here. rewrite bool_decide_eq_false_2 in IH by done.
    cbn [length]. lia.
  - assert (unfinished (<[i := Some o]> outputs) p = unfinished outputs p) as ->.
    { unfold unfinished. rewrite outs_of_insert by done. by rewrite finish_ne. }
    assert (bool_decide (i ∈ p :: ps) = bool_decide (i ∈ ps)) as ->.
    { do 2 case_bool_decide; try done; rewrite elem_of_cons in *; naive_solver. }
    destruct (unfinished outputs p); cbn [length]; lia.
Qed.

Section bookkeeping.
Context (txs : list Transaction) (deps successors : list (list nat)).
Context (deps_length : length deps = length txs).
Context (deps_ok : ∀ i ps, deps !! i = Some ps → NoDup ps ∧ ∀ p, p ∈ ps → (p < i)%nat).
Context (successors_ok : ∀ p, (p < length deps)%nat → successors !! p = Some (successors_of deps p)).

(** Counts are the numbers of unfinished predecessors, ready transactions are unstarted
    and have none, and finished ones have only finished predecessors. *)
Record books (d : Dag) : Prop := {
  bk_remaining_length : length (dg_remaining d) = length txs;
  bk_started_length : length (dg_started d) = length txs;
  bk_outputs_length : length (dg_outputs d) = length txs;
  bk_remaining : ∀ i ps, deps !! i = Some ps →
    dg_remaining d !! i = Some (length (List.filter (unfinished (dg_outputs d)) ps));
  bk_ready_nodup : NoDup (dg_ready d);
  bk_ready : ∀ i, i ∈ dg_ready d → dg_remaining d !! i = Some 0%nat ∧ dg_started d !! i = Some false;
  bk_closed : closed deps (λ i, is_Some (outs_of (dg_outputs d) i))
}.

(** Finishing a transaction whose predecessors are finished. *)
Lemma complete_one d i o :
  books d → (i < length txs)%nat → outs_of (dg_outputs d) i = None →
  (∀ ps p, deps !! i = Some ps → p ∈ ps → is_Some (outs_of (dg_outputs d) p)) →
  ∃ d', complete_job successors [(i, o)] d = Some d' ∧ books d'
    ∧ dg_outputs d' = <[i := Some o]> (dg_outputs d) ∧ dg_values d' = overlay_apply (dg_values d) (out_diff o)
    ∧ dg_started d' = dg_started d ∧ dg_flight d' = dg_flight d ∧ dg_completed d' = S (dg_completed d).
Proof.
  intros Hb Hi Hnone Hpreds. cbn [complete_job].
  destruct (lookup_lt_is_Some_2 (dg_outputs d) i) as [x Hx]; [by rewrite bk_outputs_length|]. rewrite Hx.
  rewrite successors_ok by by rewrite deps_length. cbn [mbind option_bind].
  destruct (release_spec (successors_of deps i) (dg_started d) (dg_remaining d) (dg_ready d)) as (rem & ready & Hr & Hl & Hget & Hnd & Hrd).
  - apply successors_nodup.
  - intros k (ps & Hps & Hin)%successors_elem. split.
    + rewrite (bk_remaining _ Hb _ _ Hps). destruct (List.filter _ ps) eqn:E; [|by eexists].
      assert (In i []) as []. rewrite <- E. apply filter_In. split; [by apply list_elem_of_In|by apply unfinished_true].
    + apply lookup_lt_is_Some_2. rewrite (bk_started_length _ Hb), <- deps_length. by eapply lookup_lt_Some.
  - apply Hb.
  - apply Hb.
  - rewrite Hr. cbn. eexists. split; [done|]. split; [|done]. split; cbn.
    + by rewrite Hl, (bk_remaining_length _ Hb).
    + apply Hb.
    + rewrite length_insert. apply Hb.
    + intros k ps Hps. rewrite Hget, (bk_remaining _ Hb _ _ Hps). destruct (deps_ok _ _ Hps) as [Hndp _].
      rewrite (count_unfinished _ i o ps) by (done || by rewrite bk_outputs_length).
      assert (i ∈ ps ↔ k ∈ successors_of deps i) as He by (rewrite successors_elem; naive_solver).
      rewrite <- (bool_decide_ext _ _ He). case_bool_decide; cbn [fmap option_fmap option_map]; f_equal; lia.
    + done.
    + done.
    + intros k ps p Hps Hk Hp. rewrite outs_of_insert in Hk |- * by by rewrite bk_outputs_length.
      destruct (decide (p = i)) as [->|Hne]; [by rewrite finish_eq|]. rewrite finish_ne by done.
      destruct (decide (k = i)) as [->|Hki]; [by eapply Hpreds|]. rewrite finish_ne in Hk by done. by eapply (bk_closed _ Hb).
Qed.

(** Every listed predecessor is finished or comes earlier. *)
Definition preds_ready (outs : Outputs) (indexes : list nat) : Prop :=
  ∀ m i ps p, indexes !! m = Some i → deps !! i = Some ps → p ∈ ps → is_Some (outs p) ∨ p ∈ take m indexes.

Definition store (results : list (nat * TransactionOutput)) (outputs : list (option TransactionOutput)) : list (option TransactionOutput) :=
  fold_left (λ outputs r, <[r.1 := Some r.2]> outputs) results outputs.

Lemma complete_all d results :
  books d → NoDup (map fst results) →
  (∀ i, i ∈ map fst results → (i < length txs)%nat ∧ outs_of (dg_outputs d) i = None) →
  preds_ready (outs_of (dg_outputs d)) (map fst results) →
  ∃ d', complete_job successors results d = Some d' ∧ books d'
    ∧ dg_outputs d' = store results (dg_outputs d) ∧ dg_values d' = apply_all results (dg_values d)
    ∧ dg_started d' = dg_started d ∧ dg_flight d' = dg_flight d ∧ dg_completed d' = (dg_completed d + length results)%nat.
Proof.
  revert d. induction results as [|[i o] results IH]; intros d Hb Hnd Hfresh Hp.
  { exists d. split; [done|]. split; [done|]. by rewrite Nat.add_0_r. }
  cbn [map fst] in Hnd, Hfresh. apply NoDup_cons in Hnd as [Hi Hnd]. destruct (Hfresh i (list_elem_of_here _ _)) as [Hlt Hnone].
  destruct (complete_one d i o Hb Hlt Hnone) as (d1 & Hc & Hb1 & Ho & Hv & Hs & Hf & Hn).
  { intros ps p Hps Hin. destruct (Hp 0%nat i ps p) as [?|Hx]; [done..|]. by apply elem_of_nil in Hx. }
  assert (∀ j, outs_of (dg_outputs d1) j = finish_one i o (outs_of (dg_outputs d)) j) as Houts.
  { intros j. rewrite Ho. apply outs_of_insert. by rewrite (bk_outputs_length _ Hb). }
  destruct (IH d1) as (d' & Hc' & Hb' & Ho' & Hv' & Hs' & Hf' & Hn'); [done|done| | |].
  - intros j Hj. destruct (Hfresh j) as [Hlj Hnj]; [by right|]. split; [done|]. rewrite Houts, finish_ne; [done|]. intros ->. done.
  - intros m k ps p Hk Hps Hin. rewrite Houts. destruct (Hp (S m) k ps p Hk Hps Hin) as [Hs1|[->|Hx]%elem_of_cons]; [left|left|by right].
    + unfold finish_one. by case_bool_decide.
    + by rewrite finish_eq.
  - exists d'. split_and!.
    + cbn [complete_job] in Hc |- *. destruct (dg_outputs d !! i); [|done]. cbn in Hc |- *. destruct (successors !! i); [|done]. cbn in Hc |- *.
      destruct (release _ _ _ _) as [[rem ready]|]; [|done]. cbn in Hc |- *. by simplify_eq.
    + done.
    + by rewrite Ho', Ho.
    + by rewrite Hv', Hv.
    + congruence.
    + congruence.
    + rewrite Hn', Hn. cbn [length]. lia.
Qed.

Lemma store_outs results outputs j :
  (∀ i, i ∈ map fst results → (i < length outputs)%nat) → outs_of (store results outputs) j = finish_all results (outs_of outputs) j.
Proof.
  revert outputs. assert (∀ rs o1 o2, (∀ k, o1 k = o2 k) → finish_all rs o1 j = finish_all rs o2 j) as Hext.
  { induction rs as [|[i o] rs IH]; intros o1 o2 He; [apply He|]. apply IH. intros k. unfold finish_one. by rewrite He. }
  induction results as [|[i o] results IH]; intros outputs Hlt; [done|]. cbn [store finish_all fold_left]. unfold store in IH. rewrite IH.
  - apply Hext. intros k. apply outs_of_insert, Hlt, list_elem_of_here.
  - intros k Hk. rewrite length_insert. apply Hlt. by right.
Qed.

(** *** Fusing *)

(** A linear path that no one else has started. *)
Record chain (d : Dag) (path : list nat) (started : list bool) : Prop := {
  ch_nodup : NoDup path;
  ch_fresh : ∀ i, i ∈ path → dg_started d !! i = Some false;
  ch_preds : preds_ready (outs_of (dg_outputs d)) path;
  ch_started_length : length started = length txs;
  ch_started : ∀ i, started !! i = Some true ↔ dg_started d !! i = Some true ∨ i ∈ path
}.

Lemma chain_extend d path started tail next ps :
  books d → chain d (path ++ [tail]) started → deps !! next = Some ps → tail ∈ ps → started !! next = Some false →
  length (List.filter (unfinished (dg_outputs d)) ps) = 1%nat → outs_of (dg_outputs d) tail = None →
  chain d ((path ++ [tail]) ++ [next]) (<[next := true]> started).
Proof.
  intros Hb Hc Hps Hin Hbegun E1 Htail. pose proof (lookup_lt_Some _ _ _ Hps) as Hnext. rewrite deps_length in Hnext.
  assert (dg_started d !! next = Some false ∧ next ∉ path ++ [tail]) as [Hns Hnp].
  { assert (started !! next ≠ Some true) as Hnt by congruence. rewrite (ch_started _ _ _ Hc) in Hnt. split; [|naive_solver].
    destruct (lookup_lt_is_Some_2 (dg_started d) next) as [[] Hx]; [by rewrite (bk_started_length _ Hb)|naive_solver|done]. }
  split.
  - apply NoDup_app. split; [apply Hc|]. split; [|apply NoDup_singleton]. intros x Hx ->%list_elem_of_singleton. done.
  - intros i [Hi| ->%list_elem_of_singleton]%elem_of_app; [by apply (ch_fresh _ _ _ Hc)|done].
  - intros m i qs p Hi Hqs Hp. apply lookup_snoc_Some in Hi as [[Hm Hi]|[-> ->]].
    + destruct (ch_preds _ _ _ Hc m i qs p Hi Hqs Hp) as [?|Hx]; [by left|]. right. by rewrite take_app_le by lia.
    + rewrite Hps in Hqs. simplify_eq. rewrite take_app_length. destruct (outs_of (dg_outputs d) p) eqn:Ep; [left; eauto|right].
      apply elem_of_app. right. apply list_elem_of_singleton. destruct (List.filter _ qs) as [|x [|]] eqn:Ef; [done| |done].
      assert (∀ y, y ∈ qs → outs_of (dg_outputs d) y = None → y = x) as Hx.
      { intros y Hy Hn. assert (In y [x]) as [?|[]]; [|done]. rewrite <- Ef. apply filter_In. rewrite unfinished_true. by rewrite <- list_elem_of_In. }
      rewrite (Hx p), (Hx tail); done.
  - rewrite length_insert. apply Hc.
  - intros i. destruct (decide (i = next)) as [->|Hne].
    + rewrite list_lookup_insert_eq by by rewrite (ch_started_length _ _ _ Hc). split; [|done]. intros _. right.
      apply elem_of_app. right. by apply list_elem_of_singleton.
    + rewrite list_lookup_insert_ne, (ch_started _ _ _ Hc), (elem_of_app (path ++ [tail])), list_elem_of_singleton by done. naive_solver.
Qed.

Lemma fuse_ok d fuel path started tail :
  books d → (∀ i, is_Some (outs_of (dg_outputs d) i) → dg_started d !! i = Some true) →
  chain d (path ++ [tail]) started → (tail < length txs)%nat → (length txs <= fuel + tail)%nat →
  ∃ rest started', fuse fuel successors (dg_remaining d) started tail = Some (rest, started')
    ∧ chain d (path ++ tail :: rest) started' ∧ ∀ i, i ∈ rest → dg_remaining d !! i = Some 1%nat.
Proof.
  intros Hb Hdone. revert path started tail. induction fuel as [|fuel IH]; intros path started tail Hc Ht Hf; [lia|].
  assert (∃ rest started', Some ([], started) = Some (rest, started') ∧ chain d (path ++ tail :: rest) started'
    ∧ ∀ i, i ∈ rest → dg_remaining d !! i = Some 1%nat) as Hstop.
  { exists [], started. split; [done|]. split; [done|]. by intros i ?%elem_of_nil. }
  cbn [fuse]. rewrite successors_ok by by rewrite deps_length. cbn [mbind option_bind].
  destruct (successors_of deps tail) as [|next [|]] eqn:Es; [done| |done].
  assert (next ∈ successors_of deps tail) as (ps & Hps & Hin)%successors_elem by (rewrite Es; apply list_elem_of_here).
  pose proof (lookup_lt_Some _ _ _ Hps) as Hnext. rewrite deps_length in Hnext. destruct (deps_ok _ _ Hps) as [_ Hbefore]. pose proof (Hbefore _ Hin).
  rewrite (bk_remaining _ Hb _ _ Hps). cbn [mbind option_bind].
  destruct (lookup_lt_is_Some_2 started next) as [begun Hbegun]; [by rewrite (ch_started_length _ _ _ Hc)|]. rewrite Hbegun. cbn [mbind option_bind].
  destruct (Nat.eqb_spec (length (List.filter (unfinished (dg_outputs d)) ps)) 1) as [E1|]; [|done]. destruct begun; [done|]. cbn [negb orb].
  assert (outs_of (dg_outputs d) tail = None) as Htail.
  { destruct (outs_of _ tail) eqn:E; [|done]. assert (dg_started d !! tail = Some true) as Hx by (apply Hdone; by rewrite E).
    rewrite (ch_fresh _ _ _ Hc tail) in Hx; [done|]. apply elem_of_app. right. by apply list_elem_of_singleton. }
  destruct (IH (path ++ [tail]) (<[next := true]> started) next) as (rest & started' & Hfuse & Hchain & Hrem);
    [by eapply chain_extend|done|lia|].
  rewrite Hfuse. cbn. exists (next :: rest), started'. split; [done|]. rewrite <- app_assoc in Hchain. split; [done|].
  intros i [->|Hi]%elem_of_cons; [by rewrite (bk_remaining _ Hb _ _ Hps), E1|by apply Hrem].
Qed.
End bookkeeping.

(** ** The coordinator keeps the execution consistent *)

Lemma freeze_get values keys key :
  bt_get key (freeze values keys) = if bool_decide (key ∈ keys) then bt_get key values else None.
Proof.
  unfold freeze. induction keys as [|k keys IH] using rev_ind; [by rewrite bool_decide_eq_false_2 by apply not_elem_of_nil|].
  rewrite fold_left_app. cbn [fold_left]. destruct (decide (key = k)) as [->|Hne].
  - rewrite (bool_decide_eq_true_2 (k ∈ keys ++ [k])) by (apply elem_of_app; right; by apply list_elem_of_singleton).
    destruct (bt_get k values) as [v|] eqn:E; [by rewrite bt_get_insert_eq|]. rewrite IH. by case_bool_decide.
  - assert (bool_decide (key ∈ keys ++ [k]) = bool_decide (key ∈ keys)) as ->.
    { apply bool_decide_ext. rewrite elem_of_app, list_elem_of_singleton. naive_solver. }
    destruct (bt_get k values); [by rewrite bt_get_insert_ne|done].
Qed.

Lemma concat_delete {A : Type} (jobs : list (list nat * A)) pick job :
  jobs !! pick = Some job → concat (map fst jobs) ≡ₚ job.1 ++ concat (map fst (delete pick jobs)).
Proof.
  revert pick. induction jobs as [|j jobs IH]; intros [|pick] Hp; cbn in Hp; [done..|by simplify_eq|].
  cbn. rewrite (IH pick Hp). solve_Permutation.
Qed.

Section running.
Context {blake : Blake2s} {ed : Ed25519} {wasm : WasmEngine}.
Context (parent : StateView) (context : ValidationContext) (policy : ExecutionPolicy) (txs : list Transaction).
Context (height_ok : u64 (vc_next_height context)) (declared_all : Forall declares txs).
Context (successors : list (list nat)).
Let deps := dependencies txs.
Context (successors_ok : ∀ p, (p < length deps)%nat → successors !! p = Some (successors_of deps p)).

#[local] Abbreviation consistent := (consistent parent context policy txs).

Lemma deps_length : length deps = length txs.
Proof. apply (graph_correct txs). Qed.

Lemma deps_ok i ps : deps !! i = Some ps → NoDup ps ∧ ∀ p, p ∈ ps → (p < i)%nat.
Proof. intros Hi. split; [by eapply dependencies_nodup|]. intros p. by eapply (go_before _ _ (graph_correct txs)). Qed.

Lemma preds_job_ready outs indexes :
  closed deps (λ i, is_Some (outs i)) → preds_ready deps outs indexes → job_ready txs outs indexes.
Proof.
  intros Hclosed Hp m i j a t Hm Ht Ha Hlt Hc.
  pose proof (go_complete _ _ (graph_correct txs) i j a t Ha Ht Hlt Hc (λ k, is_Some (outs k) ∨ k ∈ take (S m) indexes)) as HD.
  destruct HD as [?|Hin].
  - intros k ps p Hps Hk Hin. destruct Hk as [Hk|Hk]; [left; by eapply Hclosed|].
    apply elem_of_take in Hk as (l & Hl & Hlm). destruct (Hp l k ps p Hl Hps Hin) as [?|Hx]; [by left|right].
    apply elem_of_take in Hx as (l' & ? & ?). apply elem_of_take. exists l'. split; [done|lia].
  - right. apply elem_of_take. exists m. split; [done|lia].
  - by left.
  - right. apply elem_of_take in Hin as (l & Hl & Hlm). apply elem_of_take. exists l. split; [done|].
    destruct (decide (l = m)) as [->|]; [|lia]. rewrite Hm in Hl. simplify_eq. lia.
Qed.

Lemma overlay_runtime outs values : consistent outs values → bt_get runtime_key values = None.
Proof.
  intros Hc. rewrite (co_overlay _ _ _ _ _ _ Hc). rewrite (last_change_beyond _ _ 0); [done|lia|]. intros j _.
  destruct (outs j) as [o|] eqn:E; [|done]. destruct (change_at (Some o) runtime_key) eqn:Ec; [|done].
  destruct (co_good _ _ _ _ _ _ Hc _ _ E) as (t & Ht & Hg). by destruct (change_allowed _ _ _ height_ok _ _ _ _ _ _ Hg Ec) as (_ & _ & ?).
Qed.

(** A job in flight, started in an earlier consistent execution. *)
Definition job_ok (outs : Outputs) (job : list nat * Overlay) : Prop :=
  job.1 ≠ [] ∧ ∃ outs0 values0, consistent outs0 values0 ∧ closed deps (λ i, is_Some (outs0 i))
  ∧ (∀ j, is_Some (outs0 j) → outs j = outs0 j) ∧ preds_ready deps outs0 job.1
  ∧ ∀ i t key, i ∈ job.1 → txs !! i = Some t → readable t key →
      overlay_view parent job.2 key = overlay_view parent values0 key.

Definition flying (d : Dag) : list nat := concat (map fst (dg_flight d)).

Record running (d : Dag) : Prop := {
  rn_books : books txs deps d;
  rn_consistent : consistent (outs_of (dg_outputs d)) (dg_values d);
  rn_started : ∀ i, is_Some (outs_of (dg_outputs d) i) ∨ i ∈ flying d → dg_started d !! i = Some true;
  rn_nodup : NoDup (flying d);
  rn_flying : ∀ i, i ∈ flying d → (i < length txs)%nat ∧ outs_of (dg_outputs d) i = None;
  rn_jobs : Forall (job_ok (outs_of (dg_outputs d))) (dg_flight d)
}.

Lemma frozen_view outs values indexes i t key :
  consistent outs values → i ∈ indexes → txs !! i = Some t → readable t key →
  overlay_view parent (freeze values (declared_keys txs indexes)) key = overlay_view parent values key.
Proof.
  intros Hc Hi Ht Hr. unfold overlay_view. rewrite freeze_get. case_bool_decide as Hk; [done|]. destruct Hr as [->|Hr].
  - by rewrite (overlay_runtime _ _ Hc).
  - destruct Hk. apply list_elem_of_In, in_flat_map. exists i. rewrite Ht, <- !list_elem_of_In. done.
Qed.

Lemma chain_start d index :
  books txs deps d → index ∈ dg_ready d → chain txs deps d [index] (<[index := true]> (dg_started d)).
Proof.
  intros Hb Hin. destruct (bk_ready _ _ _ Hb index Hin) as [Hzero Hfresh]. split.
  - apply NoDup_singleton.
  - by intros i ->%list_elem_of_singleton.
  - intros m i ps p Hm Hps Hp. apply list_lookup_singleton_Some in Hm as [-> <-]. left.
    rewrite (bk_remaining _ _ _ Hb _ _ Hps) in Hzero. destruct (List.filter _ ps) eqn:Ef; [|done].
    destruct (outs_of (dg_outputs d) p) eqn:Ep; [eauto|]. assert (In p []) as []. rewrite <- Ef. apply filter_In.
    rewrite unfinished_true. by rewrite <- list_elem_of_In.
  - rewrite length_insert. apply Hb.
  - intros i. rewrite list_elem_of_singleton. destruct (decide (i = index)) as [->|Hne].
    + rewrite list_lookup_insert_eq by by eapply lookup_lt_Some. naive_solver.
    + rewrite list_lookup_insert_ne by done. naive_solver.
Qed.

(** The books after a job was started. *)
Lemma books_start d index ready rest started flight :
  books txs deps d → dg_ready d = index :: ready → chain txs deps d (index :: rest) started →
  (∀ i, i ∈ rest → dg_remaining d !! i = Some 1%nat) →
  books txs deps (mkDag (dg_remaining d) ready started (dg_outputs d) (dg_values d) flight (dg_completed d)).
Proof.
  intros Hb Hready Hc Hone. pose proof (bk_ready_nodup _ _ _ Hb) as Hnd. rewrite Hready in Hnd. apply NoDup_cons in Hnd as [Hindex Hnd].
  split; cbn; try apply Hb; [apply Hc|done|]. intros i Hi.
  destruct (bk_ready _ _ _ Hb i) as [Hzero Hfresh]; [rewrite Hready; by right|]. split; [done|].
  destruct (lookup_lt_is_Some_2 started i) as [[] Hx]; [|exfalso|done].
  - rewrite (ch_started_length _ _ _ _ _ Hc), <- (bk_started_length _ _ _ Hb). by eapply lookup_lt_Some.
  - apply (ch_started _ _ _ _ _ Hc) in Hx as [?|[->|Hx]%elem_of_cons]; [congruence|done|]. apply Hone in Hx. congruence.
Qed.

Lemma start_job d index ready :
  running d → dg_ready d = index :: ready →
  ∃ rest started, is_Some (dg_started d !! index)
    ∧ fuse (length txs) successors (dg_remaining d) (<[index := true]> (dg_started d)) index = Some (rest, started)
    ∧ running (mkDag (dg_remaining d) ready started (dg_outputs d) (dg_values d)
                (dg_flight d ++ [(index :: rest, freeze (dg_values d) (declared_keys txs (index :: rest)))]) (dg_completed d)).
Proof.
  intros Hr Hready. pose proof (rn_books _ Hr) as Hb.
  assert (index ∈ dg_ready d) as Hin by (rewrite Hready; apply list_elem_of_here).
  destruct (bk_ready _ _ _ Hb index Hin) as [_ Hfresh]. pose proof (lookup_lt_Some _ _ _ Hfresh) as Hlt. rewrite (bk_started_length _ _ _ Hb) in Hlt.
  assert (∀ i, is_Some (outs_of (dg_outputs d) i) → dg_started d !! i = Some true) as Hdone by (intros; apply Hr; by left).
  destruct (fuse_ok txs deps successors deps_length deps_ok successors_ok d (length txs) [] (<[index := true]> (dg_started d)) index)
    as (rest & started & Hfuse & Hc & Hone); [done|done|by apply chain_start|done|lia|].
  cbn [app] in Hc. exists rest, started. split; [done|]. split; [done|].
  assert (∀ i, i ∈ index :: rest → (i < length txs)%nat ∧ outs_of (dg_outputs d) i = None ∧ i ∉ flying d) as Hnew.
  { intros i Hi%(ch_fresh _ _ _ _ _ Hc). split; [|split].
    - rewrite <- (bk_started_length _ _ _ Hb). by eapply lookup_lt_Some.
    - destruct (outs_of _ i) eqn:E; [|done]. rewrite (Hdone i) in Hi by by rewrite E. done.
    - intros Hf. rewrite (rn_started _ Hr) in Hi by by right. done. }
  set (d' := mkDag _ _ _ _ _ _ _). assert (flying d' = flying d ++ index :: rest) as Hfly.
  { unfold flying. cbn [d' dg_flight]. rewrite map_app, concat_app. cbn. by rewrite app_nil_r. }
  split; rewrite ?Hfly; cbn [dg_outputs dg_started dg_values dg_flight d'].
  - by eapply books_start.
  - apply Hr.
  - intros i [Hi|[Hi|Hi]%elem_of_app]; apply (ch_started _ _ _ _ _ Hc); [left; by apply Hdone|left; apply Hr; by right|by right].
  - apply NoDup_app. split; [apply Hr|]. split; [|apply Hc]. intros i Hi Hi'. by apply Hnew in Hi' as (_ & _ & ?).
  - intros i [Hi|Hi]%elem_of_app; [by apply (rn_flying _ Hr)|]. by apply Hnew in Hi as (? & ? & _).
  - apply Forall_app. split; [apply Hr|]. apply Forall_singleton. split; [done|].
    exists (outs_of (dg_outputs d)), (dg_values d). split; [apply Hr|]. split; [apply Hb|]. split; [done|]. split; [apply Hc|].
    intros i t key Hi Ht Hk. eapply frozen_view; eauto. apply Hr.
Qed.

Lemma dispatch_ok idle d :
  running d → ∃ d', dispatch_ready txs successors idle d = Some d' ∧ running d' ∧ dg_completed d' = dg_completed d.
Proof.
  revert d. induction idle as [|idle IH]; intros d Hr; [by exists d|]. cbn [dispatch_ready].
  destruct (dg_ready d) as [|index ready] eqn:E; [by exists d|].
  destruct (start_job _ _ _ Hr E) as (rest & started & [b Hb] & Hf & Hr'). rewrite Hb. cbn [mbind option_bind]. rewrite Hf. cbn.
  by apply (IH _ Hr').
Qed.

(** A job as the pool runs it. *)
Lemma run_job_finishes {calls : NativeCalls} {laws : NativeLaws calls} d indexes values results :
  running d → job_ok (outs_of (dg_outputs d)) (indexes, values) →
  NoDup indexes → (∀ i, i ∈ indexes → outs_of (dg_outputs d) i = None) →
  run_job parent context policy txs calls indexes values = Ok results →
  consistent (finish_all results (outs_of (dg_outputs d))) (apply_all results (dg_values d))
  ∧ map fst results = indexes ∧ preds_ready deps (outs_of (dg_outputs d)) indexes.
Proof.
  intros Hr (_ & outs0 & values0 & Hc0 & Hcl & Hsub & Hp & Hview) Hnd Hnone Hrun. apply and_assoc. split.
  - eapply (job_finishes parent context policy txs height_ok declared_all); [|exact Hc0|apply Hr|exact Hsub|done|done|by apply preds_job_ready| |exact Hrun].
    + split; [done|]. by destruct policy.
    + intros i t key Hi Ht Hk. exact (Hview i t key Hi Ht Hk).
  - intros m i ps p Hm Hps Hin. destruct (Hp m i ps p Hm Hps Hin) as [Hs|?]; [left|by right]. by rewrite Hsub.
Qed.

Lemma finish_job {calls : NativeCalls} {laws : NativeLaws calls} d pick indexes values results :
  running d → dg_flight d !! pick = Some (indexes, values) → run_job parent context policy txs calls indexes values = Ok results →
  ∃ d', complete_job successors results (mkDag (dg_remaining d) (dg_ready d) (dg_started d) (dg_outputs d) (dg_values d)
                                       (delete pick (dg_flight d)) (dg_completed d)) = Some d'
    ∧ running d' ∧ (dg_completed d < dg_completed d')%nat.
Proof.
  intros Hr Hpick Hrun. pose proof (rn_books _ Hr) as Hb. set (d0 := mkDag _ _ _ _ _ _ _).
  assert (flying d ≡ₚ indexes ++ flying d0) as Hperm.
  { unfold flying. cbn [d0 dg_flight]. apply (concat_delete _ _ _ Hpick). }
  pose proof (rn_nodup _ Hr) as Hnd. rewrite Hperm in Hnd. apply NoDup_app in Hnd as (Hndi & Hdisj & Hnd0).
  assert (∀ i, i ∈ indexes ++ flying d0 → (i < length txs)%nat ∧ outs_of (dg_outputs d) i = None) as Hfly
    by (intros i Hi; apply (rn_flying _ Hr); by rewrite Hperm).
  pose proof (rn_jobs _ Hr) as Hjobs. pose proof (Forall_lookup_1 _ _ _ _ Hjobs Hpick) as Hjob.
  destruct (run_job_finishes d indexes values results Hr Hjob Hndi) as (Hc & Hfst & Hp); [intros i Hi; apply Hfly, elem_of_app; by left|done|].
  destruct (complete_all txs deps successors deps_length deps_ok successors_ok d0 results) as (d' & Hcomp & Hb' & Ho & Hv & Hs & Hf & Hn).
  - split; apply Hb.
  - by rewrite Hfst.
  - rewrite Hfst. intros i Hi. apply Hfly, elem_of_app. by left.
  - by rewrite Hfst.
  - exists d'. split; [done|]. assert (∀ j, outs_of (dg_outputs d') j = finish_all results (outs_of (dg_outputs d)) j) as Houts.
    { intros j. rewrite Ho. apply store_outs. rewrite Hfst. intros i Hi. rewrite (bk_outputs_length _ _ _ Hb). apply Hfly, elem_of_app. by left. }
    assert (∀ j, j ∉ indexes → outs_of (dg_outputs d') j = outs_of (dg_outputs d) j) as Hother
      by (intros j Hj; rewrite Houts; apply finish_all_other; by rewrite Hfst).
    assert (flying d' = flying d0) as Hfd by (unfold flying; by rewrite Hf). split; [split|].
    + done.
    + rewrite Hv. eapply consistent_ext; [done|intros j; symmetry; apply Houts|exact Hc].
    + rewrite Hs, Hfd. intros i Hi. apply (rn_started _ Hr). rewrite Hperm, elem_of_app.
      destruct (decide (i ∈ indexes)) as [|Hni]; [by right; left|]. destruct Hi as [Hi|Hi]; [left; by rewrite <- Hother|right; by right].
    + by rewrite Hfd.
    + rewrite Hfd. intros i Hi. rewrite Hother by (intros Hii; by eapply Hdisj). apply Hfly, elem_of_app. by right.
    + rewrite Hf. cbn [d0 dg_flight]. apply Forall_delete. eapply Forall_impl; [exact Hjobs|].
      intros job (Hne & outs0 & values0 & Hc0 & Hcl & Hsub & Hrest). split; [done|]. exists outs0, values0. split; [done|]. split; [done|]. split; [|done].
      intros j Hj. rewrite Hother; [by apply Hsub|]. intros Hii. destruct (Hfly j) as [_ Hx]; [apply elem_of_app; by left|].
      rewrite Hsub in Hx by done. rewrite Hx in Hj. by destruct Hj.
    + rewrite Hn. cbn [d0 dg_completed]. rewrite <- (length_map fst), Hfst. destruct Hjob as [Hne _]. destruct indexes; [done|]. cbn. lia.
Qed.

(** Lawful fates: a worker that runs is a node of the network. *)
Definition lawful (fate : Fate) : Prop := match fate with Runs calls => NativeLaws calls | _ => True end.

(** The coordinator never panics or runs out of fuel, and returns only consistent executions. *)
Lemma coordinate_ok fuel pool_size rounds d :
  running d → (∀ k, lawful (rd_fate (rounds k))) → (length txs <= fuel + dg_completed d)%nat →
  ∃ r, coordinate parent context policy txs successors fuel pool_size rounds d = Some r
    ∧ ∀ outputs, r = Ok outputs → length outputs = length txs ∧ ∃ values, consistent (outs_of outputs) values.
Proof.
  intros Hr Hlaw. revert d Hr. induction fuel as [|fuel IH]; intros d Hr Hf; cbn [coordinate].
  - rewrite (proj2 (Nat.leb_le _ _)) by lia. eexists. split; [done|]. intros outputs [= <-]. split; [apply Hr|]. eexists. apply Hr.
  - destruct (length txs <=? dg_completed d)%nat; [eexists; split; [done|]; intros outputs [= <-]; split; [apply Hr|eexists; apply Hr]|].
    destruct (dispatch_ok (pool_size - length (dg_flight d)) d Hr) as (d1 & -> & Hr1 & Hn1). cbn [mbind option_bind].
    destruct (dg_flight d1 !! _) as [[indexes values]|] eqn:Hpick; [|by eexists].
    pose proof (Hlaw fuel) as Hl. destruct (rd_fate (rounds fuel)) as [calls| |]; cbn [deliver]; [|by eexists..].
    destruct (run_job _ _ _ _ _ _ _) as [results|e] eqn:Hrun; [|by eexists]. cbn in Hl.
    destruct (finish_job d1 _ indexes values results Hr1 Hpick Hrun) as (d2 & -> & Hr2 & Hn2). cbn [mbind option_bind]. apply (IH d2 Hr2). lia.
Qed.
End running.

(** ** Waves keep the execution consistent *)

Lemma chunks_concat {A : Type} (fuel size : nat) (xs : list A) :
  (0 < size)%nat → (length xs <= fuel)%nat → concat (chunks_from fuel size xs) = xs.
Proof.
  intros Hs. revert xs. induction fuel as [|fuel IH]; intros xs Hf; [by destruct xs; [|cbn in Hf; lia]|].
  destruct xs as [|x xs]; [done|]. cbn [chunks_from concat]. rewrite IH; [apply take_drop|]. rewrite length_drop. cbn in *. lia.
Qed.

Lemma chunks_bound {A : Type} (fuel size m : nat) (xs : list A) :
  (length xs <= m * size)%nat → (length (chunks_from fuel size xs) <= m)%nat.
Proof.
  revert m xs. induction fuel as [|fuel IH]; intros m xs Hl; [cbn; lia|]. cbn [chunks_from].
  destruct xs as [|x xs]; [cbn; lia|]. destruct m as [|m]; [cbn in Hl; lia|]. cbn [length]. apply le_n_S, IH.
  rewrite length_drop. cbn [length] in *. lia.
Qed.

Lemma div_ceil_bounds a b : (0 < a)%nat → (0 < b)%nat → (0 < div_ceil a b)%nat ∧ (a <= b * div_ceil a b)%nat.
Proof.
  intros Ha Hb. unfold div_ceil. pose proof (Nat.div_mod_eq a b) as He. pose proof (Nat.mod_upper_bound a b).
  destruct (Nat.eqb_spec (a mod b) 0) as [E|E]; [|split; [lia|nia]].
  assert (a / b ≠ 0)%nat by (intros E'; rewrite E', E in He; lia). split; [lia|nia].
Qed.

Lemma gather_ok {A : Type} (ds : list (Delivery A)) outputs error rs :
  gather ds outputs error = (rs, None) → error = None ∧ ∃ os, ds = map (λ o, Answered (Ok o)) os ∧ rs = outputs ++ os.
Proof.
  revert outputs error. induction ds as [|d ds IH]; intros outputs error Hg; cbn in Hg.
  - simplify_eq. split; [done|]. exists []. by rewrite app_nil_r.
  - destruct d as [[o|e]| |]; apply IH in Hg as [He (os & -> & ->)]; [|done..]. split; [done|]. exists (o :: os). by rewrite <- app_assoc.
Qed.

Lemma dispatched_all {A : Type} (ds : list (Delivery A)) : (length ds <= length (dispatched ds))%nat → dispatched ds = ds.
Proof.
  induction ds as [|d ds IH]; [done|]. destruct d; cbn; intros Hl; [by rewrite IH by lia|by rewrite IH by lia|lia].
Qed.

(** A batch succeeds exactly when every task does. *)
Lemma map_into_ok {A : Type} count active (tasks : list (Delivery A)) active' rs :
  map_into count active tasks = (active', Ok rs) → tasks = map (λ o, Answered (Ok o)) rs ∧ active' = true.
Proof.
  unfold map_into. destruct active; [|done]. cbn [negb]. destruct (count <? length tasks)%nat; [done|].
  destruct (gather _ _ _) as [outputs [e|]] eqn:Hg; [done|]. intros [= <- <-]. split; [|done].
  apply gather_ok in Hg as [He (os & Hd & ->)]. destruct (Nat.ltb_spec (length (dispatched tasks)) (length tasks)) as [|Hle]; [done|].
  apply dispatched_all in Hle. by rewrite <- Hle, Hd.
Qed.

Lemma singletons_spec ws : let '(more, rest) := singletons ws in ws = map (λ i, [i]) more ++ rest.
Proof.
  induction ws as [|[|i [|]] ws IH]; [done..| |done]. cbn. destruct (singletons ws) as [more rest]. cbn. by rewrite IH.
Qed.

Section wave_run.
Context {blake : Blake2s} {ed : Ed25519} {wasm : WasmEngine}.
Context (parent : StateView) (context : ValidationContext) (policy : ExecutionPolicy) (txs : list Transaction).
Context (height_ok : u64 (vc_next_height context)) (declared_all : Forall declares txs).
Context (assigned : list nat) (planner : Planner) (plan_ok : planner_ok txs assigned planner).

#[local] Abbreviation consistent := (consistent parent context policy txs).

Lemma publish_results_ok results outputs values :
  (∀ i, i ∈ map fst results → (i < length outputs)%nat) →
  publish_results results outputs values = Some (store results outputs, apply_all results values).
Proof.
  revert outputs values. induction results as [|[i o] results IH]; intros outputs values Hi; [done|]. cbn [publish_results].
  destruct (lookup_lt_is_Some_2 outputs i) as [x ->]; [apply Hi, list_elem_of_here|]. cbn [mbind option_bind]. apply IH.
  intros k Hk. rewrite length_insert. apply Hi. by right.
Qed.

(** The transactions of the first [k] waves are finished. *)
Definition wave_state (k : nat) (outputs : list (option TransactionOutput)) (values : Overlay) : Prop :=
  length outputs = length txs ∧ consistent (outs_of outputs) values
  ∧ ∀ i, is_Some (outs_of outputs i) ↔ ∃ w, assigned !! i = Some w ∧ (w < k)%nat.

(** Consecutive waves: transactions of wave [k + n] wait for those of earlier waves only. *)
Lemma waves_ready k outputs values n indexes :
  wave_state k outputs values →
  (∀ m i, indexes !! m = Some i → ∃ w, assigned !! i = Some w ∧ (w < k + n)%nat
     ∧ ∀ j v, assigned !! j = Some v → (k <= v < w)%nat → j ∈ take m indexes) →
  job_ready txs (outs_of outputs) indexes.
Proof.
  intros (_ & _ & Hd) Hi m i j a t Hm Ht Ha Hlt Hc. destruct (Hi m i Hm) as (w & Hw & _ & Hbetween).
  destruct (lookup_lt_is_Some_2 assigned j) as [v Hv].
  { rewrite (pk_length _ _ _ plan_ok). by eapply lookup_lt_Some. }
  pose proof (pk_ordered _ _ _ plan_ok i j a t v w Ha Ht Hlt Hc Hv Hw) as Hvw.
  destruct (decide (v < k)%nat); [left; apply Hd; eauto|right]. apply (Hbetween j v); [done|lia].
Qed.

(** A chunk that some node executed over the values at the start of the wave. *)
Definition ran (values : Overlay) (chunk : list nat) (results : list (nat * TransactionOutput)) : Prop :=
  ∃ calls, NativeLaws calls ∧ run_job parent context policy txs calls chunk values = Ok results.

Lemma batch_finishes outs0 values0 parts rs outs values :
  consistent outs0 values0 → consistent outs values → (∀ j, is_Some (outs0 j) → outs j = outs0 j) →
  Forall2 (ran values0) parts rs → NoDup (concat parts) → (∀ i, i ∈ concat parts → outs i = None) →
  Forall (job_ready txs outs0) parts →
  consistent (finish_all (concat rs) outs) (apply_all (concat rs) values) ∧ map fst (concat rs) = concat parts.
Proof.
  intros Hc0 Hc Hsub Hran. revert outs values Hc Hsub. induction Hran as [|chunk results parts rs (calls & Hlaw & Hrun) Hran IH];
    intros outs values Hc Hsub Hnd Hnone Hready; [done|].
  cbn [concat] in *. apply NoDup_app in Hnd as (Hndc & Hdisj & Hnd). apply Forall_cons in Hready as [Hchunk Hready].
  destruct (job_finishes parent context policy txs height_ok declared_all (calls := calls) (overlay_view parent values0)
    (signed_with_prices (signed_new context (po_capacity policy) (po_contracts policy)) (po_prices policy))
    chunk results outs0 values0 outs values) as [Hfin Hfst]; try done.
  { split; [done|]. by destruct policy. }
  { intros i Hi. apply Hnone, elem_of_app. by left. }
  destruct (IH (finish_all results outs) (apply_all results values)) as [Hfin' Hfst']; try done.
  - intros j Hj. rewrite finish_all_other; [by apply Hsub|]. rewrite Hfst. intros Hin.
    rewrite <- (Hsub j Hj), (Hnone j) in Hj; [by destruct Hj|]. apply elem_of_app. by left.
  - intros i Hi. rewrite finish_all_other by (rewrite Hfst; intros Hin; by eapply Hdisj). apply Hnone, elem_of_app. by right.
  - unfold finish_all, apply_all in *. rewrite !fold_left_app, map_app, Hfst, Hfst'. done.
Qed.

Lemma finish_all_some results outs i : is_Some (finish_all results outs i) ↔ i ∈ map fst results ∨ is_Some (outs i).
Proof.
  revert outs. induction results as [|[k o] results IH]; intros outs; cbn; [rewrite elem_of_nil; naive_solver|].
  unfold finish_all in IH. rewrite IH, elem_of_cons. unfold finish_one. case_bool_decide; naive_solver.
Qed.

(** Executing the waves from [k] to [k + n]. *)
Lemma wave_advance k n outputs values parts rs :
  wave_state k outputs values → Forall2 (ran values) parts rs → NoDup (concat parts) →
  (∀ i, i ∈ concat parts ↔ ∃ w, assigned !! i = Some w ∧ (k <= w < k + n)%nat) →
  Forall (job_ready txs (outs_of outputs)) parts →
  publish_results (concat rs) outputs values = Some (store (concat rs) outputs, apply_all (concat rs) values)
  ∧ wave_state (k + n) (store (concat rs) outputs) (apply_all (concat rs) values).
Proof.
  intros (Hl & Hc & Hd) Hran Hnd Hin Hready.
  destruct (batch_finishes (outs_of outputs) values parts rs (outs_of outputs) values) as [Hfin Hfst]; try done.
  { intros i (w & Hw & Hlt)%Hin. destruct (outs_of outputs i) eqn:E; [|done].
    destruct (proj1 (Hd i)) as (v & Hv & Hvk); [by rewrite E|]. rewrite Hw in Hv. simplify_eq. lia. }
  assert (∀ i, i ∈ map fst (concat rs) → (i < length outputs)%nat) as Hlt.
  { rewrite Hfst. intros i (w & Hw%lookup_lt_Some & _)%Hin. by rewrite Hl, <- (pk_length _ _ _ plan_ok). }
  split; [by apply publish_results_ok|].
  assert (∀ j, outs_of (store (concat rs) outputs) j = finish_all (concat rs) (outs_of outputs) j) as Houts by (intros j; by apply store_outs).
  split; [|split].
  - rewrite <- Hl. clear. unfold store. generalize outputs. induction (concat rs) as [|r rs' IH]; intros os; [done|]. cbn. by rewrite IH, length_insert.
  - eapply consistent_ext; [done|intros j; symmetry; apply Houts|done].
  - intros i. rewrite Houts, finish_all_some, Hfst, Hin, Hd. split.
    + intros [(w & ? & ?)|(w & ? & ?)]; exists w; (split; [done|lia]).
    + intros (w & Hw & Hlt'). destruct (decide (w < k)%nat); [right|left]; exists w; (split; [done|lia]).
Qed.

Lemma members_bound w i : i ∈ wave_members assigned w → (i < length txs)%nat.
Proof. intros Hi%members_elem%lookup_lt_Some. by rewrite <- (pk_length _ _ _ plan_ok). Qed.

(** Several chunks of one wave. *)
Lemma wave_step k outputs values parts rs :
  wave_state k outputs values → concat parts = wave_members assigned k → Forall2 (ran values) parts rs →
  publish_results (concat rs) outputs values = Some (store (concat rs) outputs, apply_all (concat rs) values)
  ∧ wave_state (S k) (store (concat rs) outputs) (apply_all (concat rs) values).
Proof.
  intros Hs Hparts Hran. rewrite <- Nat.add_1_r. apply (wave_advance k 1 outputs values parts rs Hs Hran).
  - rewrite Hparts. apply NoDup_ListNoDup, List.NoDup_filter, NoDup_ListNoDup, NoDup_seq.
  - intros i. rewrite Hparts, members_elem. split; [intros Hi; exists k; split; [done|lia]|].
    intros (w & Hw & ?). by replace k with w by lia.
  - apply Forall_forall. intros chunk Hchunk. apply (waves_ready k outputs values 1 chunk Hs). intros m i Hm. exists k. split.
    + apply members_elem. rewrite <- Hparts. apply list_elem_of_In, in_concat. exists chunk.
      split; apply list_elem_of_In; [done|by eapply list_elem_of_lookup_2].
    + split; [lia|]. intros j v _ ?. lia.
Qed.

(** Consecutive singleton waves in one session. *)
Lemma fused_step k outputs values indexes results :
  wave_state k outputs values → (∀ m i, indexes !! m = Some i → wave_members assigned (k + m) = [i]) → ran values indexes results →
  publish_results results outputs values = Some (store results outputs, apply_all results values)
  ∧ wave_state (k + length indexes) (store results outputs) (apply_all results values).
Proof.
  intros Hs Hm Hran. assert (∀ m i, indexes !! m = Some i → assigned !! i = Some (k + m)%nat) as Ha.
  { intros m i Hi. apply members_elem. rewrite (Hm m i Hi). by apply list_elem_of_singleton. }
  assert (∀ j v, assigned !! j = Some v → (k <= v < k + length indexes)%nat → indexes !! (v - k)%nat = Some j) as Hback.
  { intros j v Hj Hv. destruct (lookup_lt_is_Some_2 indexes (v - k)) as [i Hi]; [lia|]. rewrite Hi. f_equal.
    apply members_elem in Hj. replace v with (k + (v - k))%nat in Hj by lia. rewrite (Hm _ _ Hi) in Hj. by apply list_elem_of_singleton in Hj. }
  pose proof (wave_advance k (length indexes) outputs values [indexes] [results] Hs) as Hadv. cbn [concat] in Hadv. rewrite !app_nil_r in Hadv.
  apply Hadv; clear Hadv.
  - by constructor.
  - apply NoDup_alt. intros m1 m2 i H1%Ha H2%Ha. rewrite H1 in H2. simplify_eq. lia.
  - intros i. split.
    + intros [m Hi]%list_elem_of_lookup. exists (k + m)%nat. split; [by apply Ha|]. apply lookup_lt_Some in Hi. lia.
    + intros (w & Hw & Hlt). eapply list_elem_of_lookup_2. by eapply Hback.
  - apply Forall_singleton, (waves_ready k outputs values (length indexes) indexes Hs). intros m i Hi. exists (k + m)%nat.
    split; [by apply Ha|]. split; [apply lookup_lt_Some in Hi; lia|]. intros j v Hj Hv.
    apply elem_of_take. exists (v - k)%nat. apply lookup_lt_Some in Hi. split; [apply Hback; [done|lia]|lia].
Qed.

(** The waves that are left. *)
Definition left_from (k : nat) : list (list nat) := map (wave_members assigned) (seq k (length (pl_waves planner) - k)).

Lemma left_cons k ws indexes :
  left_from k = indexes :: ws → indexes = wave_members assigned k ∧ ws = left_from (S k) ∧ (k < length (pl_waves planner))%nat ∧ indexes ≠ [].
Proof.
  unfold left_from. destruct (length (pl_waves planner) - k)%nat as [|n] eqn:E; [done|]. cbn. intros [= <- <-].
  split; [done|]. split; [by replace (length (pl_waves planner) - S k)%nat with n by lia|]. split; [lia|].
  destruct (pk_nonempty _ _ _ plan_ok k) as [i Hi]; [lia|]. intros Hn. apply members_elem in Hi. rewrite Hn in Hi. by apply elem_of_nil in Hi.
Qed.

Lemma left_singletons k more rest :
  left_from k = map (λ i, [i]) more ++ rest →
  (∀ m i, more !! m = Some i → wave_members assigned (k + m) = [i]) ∧ rest = left_from (k + length more).
Proof.
  revert k. induction more as [|i more IH]; intros k Hl; cbn in Hl.
  - split; [done|]. by rewrite Nat.add_0_r.
  - apply left_cons in Hl as (Hi & Hl & _ & _). symmetry in Hl. apply IH in Hl as [Hm Hr]. split.
    + intros [|m] j Hj; cbn in Hj; [simplify_eq; by rewrite Nat.add_0_r|]. rewrite <- Nat.add_succ_comm. by apply Hm.
    + rewrite Hr. cbn [length]. f_equal. lia.
Qed.

Lemma batch_ran pool_size values parts fates active active' rs :
  (∀ n, lawful (fates n)) → (length parts <= pool_size)%nat →
  map_into pool_size active (imap (λ n chunk, deliver (λ calls, run_job parent context policy txs calls chunk values) (fates n)) (take pool_size parts))
    = (active', Ok rs) → Forall2 (ran values) parts rs ∧ active' = true.
Proof.
  intros Hlaw Hl Hm. apply map_into_ok in Hm as [Hm ->]. split; [|done]. rewrite take_ge in Hm by done. clear Hl.
  apply Forall2_same_length_lookup_2.
  - apply (f_equal length) in Hm. by rewrite length_imap, length_map in Hm.
  - intros n chunk results Hc Hr. apply (f_equal (lookup n)) in Hm. rewrite list_lookup_imap, list_lookup_fmap, Hc, Hr in Hm. cbn in Hm.
    specialize (Hlaw n). destruct (fates n) as [calls| |]; cbn in Hm; simplify_eq. by exists calls.
Qed.

Lemma run_waves_ok fuel workers pool_size active serial fates k outputs values :
  (0 < workers)%nat → (∀ w, (w < length (pl_waves planner))%nat → (Nat.min (length (wave_members assigned w)) workers <= pool_size)%nat) →
  (∀ n, NativeLaws (serial n)) → (∀ n m, lawful (fates n m)) → (length (left_from k) <= fuel)%nat → wave_state k outputs values →
  ∃ r, run_waves parent context policy txs fuel workers pool_size active serial fates (left_from k) outputs values = Some r
    ∧ ∀ outputs', r = Ok outputs' → length outputs' = length txs ∧ ∃ values', consistent (outs_of outputs') values'.
Proof.
  intros Hw Hpool Hserial Hfates. revert active k outputs values.
  induction fuel as [|fuel IH]; intros active k outputs values Hf Hs.
  { destruct (left_from k); [|cbn in Hf; lia]. eexists. split; [done|]. intros ? [= <-]. split; [apply Hs|eexists; apply Hs]. }
  destruct (left_from k) as [|indexes ws] eqn:El.
  { eexists. split; [done|]. intros ? [= <-]. split; [apply Hs|eexists; apply Hs]. }
  destruct (left_cons _ _ _ El) as (-> & -> & Hk & Hne). cbn [length] in Hf.
  destruct (wave_members assigned k) as [|i [|i2 rest]] eqn:Em; [done| |].
  - cbn [run_waves]. pose proof (singletons_spec (left_from (S k))) as Hsing. destruct (singletons (left_from (S k))) as [more tail].
    apply left_singletons in Hsing as [Hmore ->].
    destruct (run_job _ _ _ _ _ _ _) as [results|e] eqn:Hrun; [|by eexists].
    destruct (fused_step k outputs values (i :: more) results Hs) as [Hpub Hs']; [|by exists (serial fuel)|].
    { intros [|m] j Hj; cbn in Hj; [simplify_eq; by rewrite Nat.add_0_r|]. rewrite <- Nat.add_succ_comm. by apply Hmore. }
    rewrite Hpub. cbn [mbind option_bind]. cbn [length] in Hs'. rewrite <- Nat.add_succ_comm in Hs'. apply IH; [|done].
    unfold left_from in Hf |- *. rewrite length_map, length_seq in Hf |- *. lia.
  - assert ((0 < length (i :: i2 :: rest))%nat) as Hpos by (cbn; lia).
    destruct (div_ceil_bounds (length (i :: i2 :: rest)) workers Hpos Hw) as [Hsize Hmul]. cbn [run_waves].
    unfold chunks. rewrite (proj2 (Nat.eqb_neq _ _)) by lia. cbn [mbind option_bind].
    set (indexes := i :: i2 :: rest) in *. set (parts := chunks_from _ _ indexes).
    assert (concat parts = wave_members assigned k) as Hparts by (rewrite Em; by apply chunks_concat).
    assert ((length parts <= pool_size)%nat) as Hlen.
    { specialize (Hpool k Hk). rewrite Em in Hpool. fold indexes in Hpool.
      assert ((length parts <= workers)%nat) by by apply chunks_bound.
      assert ((length parts <= length indexes)%nat) by (apply chunks_bound; nia). lia. }
    destruct (negb _); [by eexists|]. destruct (map_into _ _ _) as [active' [returned|e]] eqn:Hmap; [|by eexists].
    apply batch_ran in Hmap as [Hran ->]; [|done|done].
    destruct (wave_step k outputs values parts returned Hs Hparts Hran) as [Hpub Hs']. rewrite Hpub. cbn [mbind option_bind].
    apply IH; [lia|done].
Qed.
End wave_run.

(** ** Speculation is consistent *)

Section correct.
Context {blake : Blake2s} {ed : Ed25519} {wasm : WasmEngine}.
Context (parent : StateView) (context : ValidationContext) (policy : ExecutionPolicy) (txs : list Transaction).
Context (height_ok : u64 (vc_next_height context)).

(** The nodes that run are nodes of the network. *)
Definition lawful_env (env : Surrounding) : Prop :=
  (∀ k, lawful (rd_fate (su_rounds env k))) ∧ (∀ k, NativeLaws (su_serial env k)) ∧ ∀ k n, lawful (su_fates env k n).

(** What outputs of a speculation are. *)
Definition speculated (os : list TransactionOutput) : Prop :=
  Forall declares txs ∧ length os = length txs ∧ ∃ values, consistent parent context policy txs (λ i, os !! i) values.

Lemma collect_ok outputs os : collect_outputs outputs = Ok os → outputs = map Some os.
Proof.
  revert os. induction outputs as [|o outputs IH]; intros os Hc; cbn in Hc; [by simplify_eq|]. bind_inv Hc.
  apply ok_or_ok in E. subst. cbn. by rewrite <- (IH a0).
Qed.

Lemma collected outputs values os :
  Forall declares txs → length outputs = length txs → consistent parent context policy txs (outs_of outputs) values →
  collect_outputs outputs = Ok os → speculated os.
Proof.
  intros Hd Hl Hc ->%collect_ok. rewrite length_map in Hl. split; [done|]. split; [done|]. exists values.
  eapply consistent_ext; [done| |exact Hc]. intros i. unfold outs_of. rewrite list_lookup_fmap. by destruct (os !! i).
Qed.

Lemma empty_outputs i : outs_of (replicate (length txs) None) i = None.
Proof. unfold outs_of. destruct (replicate _ None !! i) as [o|] eqn:E; [|done]. by apply lookup_replicate in E as [-> _]. Qed.

Lemma empty_state : Forall declares txs → consistent parent context policy txs (outs_of (replicate (length txs) None)) [].
Proof. intros Hd. eapply consistent_ext; [done| |apply empty_consistent]. intros i. by rewrite empty_outputs. Qed.

Lemma wave_lists ws : map transaction_indexes (map mkWave ws) = ws.
Proof. rewrite map_map. apply map_id. Qed.

Lemma longest_ge ws w : w ∈ ws → (length w <= longest ws)%nat.
Proof.
  intros Hw. unfold longest. pose proof (proj1 (list_max_le (map length ws) (list_max (map length ws))) (le_n _)) as Hall.
  rewrite Forall_forall in Hall. apply Hall. by apply list_elem_of_fmap_2.
Qed.

Lemma speculate_waves_ok workers env :
  (0 < workers)%nat → lawful_env env →
  ∃ r, speculate_waves parent context policy txs workers env = Some r ∧ ∀ os, r = Ok os → speculated os.
Proof.
  intros Hw (_ & Hserial & Hfates). unfold speculate_waves.
  destruct (validate_declarations txs) as [[]|e] eqn:Hv; [|by eexists]. apply validated_declares in Hv.
  destruct (greedy_plan_ok txs) as (p & assigned & -> & Hp). cbn [mbind option_bind waves]. rewrite wave_lists.
  destruct (if (1 <? Nat.min (longest (pl_waves p)) workers)%nat then _ else _); [|by eexists].
  assert (pl_waves p = left_from assigned p 0) as Hleft by (unfold left_from; rewrite Nat.sub_0_r; apply Hp).
  destruct (run_waves_ok parent context policy txs height_ok Hv assigned p Hp (length (pl_waves p)) workers
    (Nat.min (longest (pl_waves p)) workers) true (su_serial env) (su_fates env) 0 (replicate (length txs) None) []) as (r & Hr & Hok).
  - done.
  - intros w Hlt. apply Nat.min_le_compat_r, longest_ge. rewrite (pk_waves _ _ _ Hp). apply list_elem_of_fmap_2, elem_of_seq. lia.
  - done.
  - done.
  - by rewrite <- Hleft.
  - split; [apply length_replicate|]. split; [by apply empty_state|]. intros i. rewrite empty_outputs.
    split; [by intros []|]. intros (w & _ & ?). lia.
  - rewrite <- Hleft in Hr. rewrite Hr. cbn. eexists. split; [done|]. intros os Hos. destruct r as [outputs|e]; [|done].
    destruct (Hok outputs eq_refl) as (Hl & values & Hc). by eapply collected.
Qed.

Lemma speculate_ok workers env :
  (0 < workers)%nat → lawful_env env →
  ∃ r, speculate parent context policy txs workers env = Some r ∧ ∀ os, r = Ok os → speculated os.
Proof.
  intros Hw Henv. unfold speculate. destruct (greedy_plan_ok txs) as (p & assigned & -> & Hp). cbn [mbind option_bind].
  destruct (_ || _); [by apply speculate_waves_ok|].
  destruct (validate_declarations txs) as [[]|e] eqn:Hv; [|by eexists]. apply validated_declares in Hv.
  destruct (successor_indexes_spec (dependencies txs) (deps_ok txs)) as (successors & -> & Hs). cbn [mbind option_bind].
  destruct (pool_new _ _); [|by eexists]. pose proof (deps_length txs) as Hdl.
  destruct (coordinate_ok parent context policy txs height_ok Hv successors Hs (length txs)
    (Nat.min workers (longest (map transaction_indexes (waves (mkPlan (map mkWave (pl_waves p))))))) (su_rounds env)
    (mkDag (map length (dependencies txs)) (initially_ready (map length (dependencies txs))) (replicate (length txs) false)
       (replicate (length txs) None) [] [] 0)) as (r & -> & Hok); [|apply Henv|lia|].
  - split; [|by apply empty_state| |apply NoDup_nil_2|by intros i ?%elem_of_nil|apply Forall_nil_2].
    + split; cbn; try by rewrite ?length_map, ?length_replicate.
      * intros i ps Hi. rewrite list_lookup_fmap, Hi. cbn. f_equal. clear Hi. induction ps as [|q ps IH]; [done|]. cbn.
        unfold unfinished at 1. rewrite empty_outputs. cbn. by rewrite <- IH.
      * apply NoDup_ListNoDup, List.NoDup_filter, NoDup_ListNoDup, NoDup_seq.
      * intros i [Hi Hz]%list_elem_of_In%filter_In. apply bool_decide_eq_true in Hz. split; [done|].
        apply lookup_replicate_2. rewrite <- Hdl, <- (length_map length). by eapply lookup_lt_Some.
      * intros i ps q _ Hi. rewrite empty_outputs in Hi. by destruct Hi.
    + cbn. intros i [Hi|Hi]; [|by apply elem_of_nil in Hi]. rewrite empty_outputs in Hi. by destruct Hi.
  - cbn. eexists. split; [done|]. intros os Hos. destruct r as [outputs|e]; [|done].
    destruct (Hok outputs eq_refl) as (Hl & values & Hc). by eapply collected.
Qed.
End correct.
