(* ===== verification/Fold.v ===== *)
(** * Fold: account prefixes computed in parallel ([src/crates/execution/src/fold.rs])

    A block of payments between existing accounts needs no waiting at all.  Every account
    gets the list of its debits and credits; segments of these lists are summarized in
    parallel as guarded translations of a balance, prefixes over the summaries give the
    account at the start of every segment, and from there the exact inputs of every payment
    are reconstructed.  All payments then execute in parallel, each over its own two
    inputs.  Outputs that the fold returns are those of the serial execution. *)

From S2P Require Import Prelude Ordered Codec Types Crypto Trocto TroctoProgram Native NativeCache State StateTree Transactions Payments Contracts Blocks Scheduler Frames Speculation Parallel.

#[local] Arguments cmp : simpl never.

Definition FOLD_MAX_TRANSACTIONS : Z := 8192.
Definition MAX_INPUT_BYTES : Z := 8 * 1024 * 1024.
Definition SEGMENT_EVENTS : nat := 128.

(** ** Guarded translations *)

(** The checked operations of [i128]. *)
Definition i128 (z : Z) : option Z := if (- 2 ^ 127 <=? z) && (z <? 2 ^ 127) then Some z else None.

Definition to_u64 (z : Z) : option Z := if (0 <=? z) && (z <? 2 ^ 64) then Some z else None.

Record Guard := mkGuard { gd_delta : Z; gd_low : Z; gd_high : Z }.

Definition IDENTITY : Guard := mkGuard 0 0 (2 ^ 64 - 1).

Definition guard_then (g next : Guard) : result Guard Payments.ExecutionError :=
  let? delta := ok_or (i128 (gd_delta g + gd_delta next)) ExecutionConflict in
  let? low := ok_or (i128 (gd_low next - gd_delta g)) ExecutionConflict in
  let? high := ok_or (i128 (gd_high next - gd_delta g)) ExecutionConflict in
  let r := mkGuard delta (Z.max (gd_low g) low) (Z.min (gd_high g) high) in
  let? _ := reject_if (gd_high r <? gd_low r) ExecutionConflict in
  Ok r.

Definition guard_accepts (g : Guard) (b : Z) : bool := (gd_low g <=? b) && (b <=? gd_high g).

Record Event := mkEvent { ev_index : nat; ev_debit : bool; ev_guard : Guard }.
Record Prefix := mkPrefix { px_guard : Guard; px_outgoing : Z }.
Record Segment := mkSegment { sg_address : Address; sg_seed : AccountState; sg_events : list Event }.

Definition EMPTY_PREFIX : Prefix := mkPrefix IDENTITY 0.

(** The loop that summarizes a segment. *)
Fixpoint summarize_from (p : Prefix) (events : list Event) : result Prefix Payments.ExecutionError :=
  match events with
  | [] => Ok p
  | e :: events =>
      let? guard := guard_then (px_guard p) (ev_guard e) in
      summarize_from (mkPrefix guard (px_outgoing p + Z.b2z (ev_debit e))) events
  end.
Definition summarize (s : Segment) : result Prefix Payments.ExecutionError := summarize_from EMPTY_PREFIX (sg_events s).

(** The prefix of every segment: the summaries before it of the same address. *)
Fixpoint prefixes (address : option Address) (p : Prefix) (segments : list Segment) (summaries : list (option Prefix))
    : result (list Prefix) Payments.ExecutionError :=
  match segments, summaries with
  | s :: segments, summary :: summaries =>
      let p := if bool_decide (address = Some (sg_address s)) then p else EMPTY_PREFIX in
      let? summary := ok_or summary ExecutionConflict in
      let? guard := guard_then (px_guard p) (px_guard summary) in
      let? outgoing := ok_or (checked_add 64 (px_outgoing p) (px_outgoing summary)) ExecutionConflict in
      let? _ := reject_if (negb (guard_accepts guard (balance (sg_seed s)))
                           || negb (is_some (checked_add 64 (nonce (sg_seed s)) outgoing))) ExecutionConflict in
      let? rest := prefixes (Some (sg_address s)) (mkPrefix guard outgoing) segments summaries in
      Ok (p :: rest)
  | [], _ => Ok []
  | _, [] => Err ExecutionConflict
  end.

(** An input of a payment: whose, and for which payment. *)
Record Input := mkInput { in_index : nat; in_debit : bool; in_account : AccountState }.

Fixpoint reconstruct_from (b n : Z) (events : list Event) : result (list Input) Payments.ExecutionError :=
  match events with
  | [] => Ok []
  | e :: events =>
      let? balance := ok_or (to_u64 b) ExecutionConflict in
      let? next := ok_or (i128 (b + gd_delta (ev_guard e))) ExecutionConflict in
      let? nonce := ok_or (checked_add 64 n (Z.b2z (ev_debit e))) ExecutionConflict in
      let? rest := reconstruct_from next nonce events in
      Ok (mkInput (ev_index e) (ev_debit e) (mkAccount n balance) :: rest)
  end.
Definition reconstruct (s : Segment) (p : Prefix) : result (list Input) Payments.ExecutionError :=
  let? b := ok_or (i128 (balance (sg_seed s) + gd_delta (px_guard p))) ExecutionConflict in
  let? n := ok_or (checked_add 64 (nonce (sg_seed s)) (px_outgoing p)) ExecutionConflict in
  reconstruct_from b n (sg_events s).

(** ** Shared cells *)

(** [OnceLock::set]; a worker that panics is lost. *)
Definition set_cell {A : Type} (i : nat) (v : A) (cells : list (option A)) : result (list (option A)) Payments.ExecutionError :=
  match cells !! i with
  | None => Err Trap
  | Some (Some _) => Err ExecutionConflict
  | Some None => Ok (<[i := Some v]> cells)
  end.

(** Workers of a phase read nothing that the phase writes, so their writes are the same
    in every interleaving, and a cell is written twice in all of them or in none. *)
Fixpoint set_cells {A : Type} (writes : list (nat * A)) (cells : list (option A)) : result (list (option A)) Payments.ExecutionError :=
  match writes with
  | [] => Ok cells
  | (i, v) :: writes => let? cells := set_cell i v cells in set_cells writes cells
  end.

(** The loop of a worker over its range. *)
Definition over_range {A : Type} (f : nat → result A Payments.ExecutionError) (range : list nat)
    : result (list A) Payments.ExecutionError := try_map f range.

(** A phase: the indexes in as many ranges as there are workers. *)
Definition phase {A : Type} (count size : nat) (fates : nat → Fate) (f : nat → result A Payments.ExecutionError)
    : option (result (list A) Payments.ExecutionError) :=
  ranges ← chunks (div_ceil count size) (seq 0 count);
  Some (let? results := snd (map_into size true (imap (λ k range, deliver (λ _, over_range f range) (fates k)) ranges)) in
        Ok (concat results)).

(** ** The fold *)

Section fold.
Context {blake : Blake2s} {ed : Ed25519} {arcs : Arcs}.

Definition Accounts : Type := BTreeMap Address (AccountState * list Event).

Definition see_account (parent : StateView) (address : Address) (accounts : Accounts) : option (result Accounts Payments.ExecutionError) :=
  match bt_get address accounts with
  | Some _ => Some (Ok accounts)
  | None =>
      match view_account parent address with
      | Ok (Some account) => Some (Ok (bt_insert address (account, []) accounts))
      | Ok None => None
      | Err e => Some (Err (StateFailed e))
      end
  end.

(** All accounts of the block must exist; [None] is an unsupported block. *)
Fixpoint see_accounts (parent : StateView) (pairs : list (Transaction * Payment)) (accounts : Accounts)
    : option (result Accounts Payments.ExecutionError) :=
  match pairs with
  | [] => Some (Ok accounts)
  | (t, payment) :: pairs =>
      match see_account parent (tx_sender t) accounts with
      | Some (Ok accounts) =>
          match see_account parent (pay_recipient payment) accounts with
          | Some (Ok accounts) => see_accounts parent pairs accounts
          | other => other
          end
      | other => other
      end
  end.

Definition push_event (address : Address) (e : Event) (accounts : Accounts) : result Accounts Payments.ExecutionError :=
  let? (account, events) := ok_or (bt_get address accounts) ExecutionConflict in
  Ok (bt_insert address (account, events ++ [e]) accounts).

Fixpoint push_events (prices : Resources) (index : nat) (pairs : list (Transaction * Payment)) (accounts : Accounts)
    : result Accounts Payments.ExecutionError :=
  match pairs with
  | [] => Ok accounts
  | (t, payment) :: pairs =>
      let resources := payment_resources t in
      let? _ := reject_if (negb (fits_in resources (tx_resource_limit t))) ResourceLimit in
      let? fee := ok_or (checked_cost resources prices) ResourceLimit in
      let? debit := ok_or (checked_add 64 (pay_amount payment) fee) ExecutionConflict in
      let? reserve := ok_or (cost ← checked_cost (tx_resource_limit t) prices; checked_add 64 cost (pay_amount payment)) ExecutionConflict in
      let? accounts := push_event (tx_sender t) (mkEvent index true (mkGuard (- debit) reserve (2 ^ 64 - 1))) accounts in
      let? accounts := push_event (pay_recipient payment)
                         (mkEvent index false (mkGuard (pay_amount payment) 0 (2 ^ 64 - 1 - pay_amount payment))) accounts in
      push_events prices (S index) pairs accounts
  end.

Definition segments_of (accounts : Accounts) : list Segment :=
  flat_map (λ '(address, (seed, events)), map (mkSegment address seed) (chunks_from (length events) SEGMENT_EVENTS events)) accounts.

(** The two inputs of one payment as a snapshot; every other key is refused. *)
Definition pair_view (sender_key recipient_key : StateKey) (sender recipient : option AccountState) : StateView := λ key,
  let answer (account : option AccountState) := ok_or ((λ a, Some (encode_account a)) <$> account) StaleSnapshot in
  if bool_decide (key = sender_key) then answer sender
  else if bool_decide (key = recipient_key) then answer recipient
  else Err StaleSnapshot.

Definition execute_pair (context : ValidationContext) (policy : ExecutionPolicy) (pairs : list (Transaction * Payment))
    (senders recipients : list (option AccountState)) (i : nat) : result TransactionOutput Payments.ExecutionError :=
  match pairs !! i with
  | None => Err Trap
  | Some (t, payment) =>
      let view := pair_view (account_key (tx_sender t)) (account_key (pay_recipient payment))
                    (mjoin (senders !! i)) (mjoin (recipients !! i)) in
      let? (output, _) := session_execute view (session_with_prices (session_new context (po_capacity policy)) (po_prices policy)) t in
      Ok output
  end.

(** Recording outputs in the seals, in the order in which the workers do. *)
Fixpoint record_outputs (order : list nat) (outputs : list TransactionOutput) (seals : CommitSeals)
    : result CommitSeals Payments.ExecutionError :=
  match order with
  | [] => Ok seals
  | i :: order =>
      match outputs !! i with
      | None => record_outputs order outputs seals
      | Some o =>
          let? seals := map_err StateFailed (record seals (Z.of_nat i) (out_diff o)) in
          record_outputs order outputs seals
      end
  end.

(** What happens around a fold: whether the threads can be spawned, the fate of every
    worker in every phase, and the order of the recorded outputs. *)
Record FoldEnv := mkFoldEnv {
  fe_spawned : bool;
  fe_fates : nat → nat → Fate;
  fe_order : list nat
}.

Definition fold_run (context : ValidationContext) (policy : ExecutionPolicy) (pairs : list (Transaction * Payment))
    (workers : nat) (accounts : Accounts) (seals : option CommitSeals) (env : FoldEnv)
    : option (result (list TransactionOutput * option CommitSeals) Payments.ExecutionError) :=
  match push_events (po_prices policy) 0 pairs accounts with
  | Err e => Some (Err e)
  | Ok accounts =>
      let segments := segments_of accounts in
      let size := Nat.min workers (length pairs) in
      match pool_new size (fe_spawned env) with
      | Err e => Some (Err e)
      | Ok _ =>
          summaries ← phase (length segments) size (fe_fates env 0)
            (λ i, match segments !! i with Some s => let? p := summarize s in Ok (i, p) | None => Err Trap end);
          match (let? writes := summaries in
                 let? cells := set_cells writes (replicate (length segments) None) in
                 prefixes None EMPTY_PREFIX segments cells) with
          | Err e => Some (Err e)
          | Ok starts =>
              inputs ← phase (length segments) size (fe_fates env 1)
                (λ i, match segments !! i, starts !! i with Some s, Some p => reconstruct s p | _, _ => Err Trap end);
              match (let? written := inputs in
                     let cells (debit : bool) := map (λ x, (in_index x, in_account x))
                                                   (List.filter (λ x, eqb (in_debit x) debit) (concat written)) in
                     let? senders := set_cells (cells true) (replicate (length pairs) None) in
                     let? recipients := set_cells (cells false) (replicate (length pairs) None) in
                     Ok (senders, recipients)) with
              | Err e => Some (Err e)
              | Ok (senders, recipients) =>
                  outputs ← phase (length pairs) size (fe_fates env 2) (execute_pair context policy pairs senders recipients);
                  Some (let? outputs := outputs in
                        match seals with
                        | None => Ok (outputs, None)
                        | Some seals => let? seals := record_outputs (fe_order env) outputs seals in Ok (outputs, Some seals)
                        end)
              end
          end
      end
  end.

(** The outcome of an attempt: unsupported blocks are left to ordinary speculation. *)
Inductive FoldOutcome :=
| Unsupported
| FoldPanic
| Attempted (r : result (list TransactionOutput * option CommitSeals) Payments.ExecutionError).

Fixpoint input_bytes (txs : list Transaction) (sum : Z) : option Z :=
  match txs with
  | [] => Some sum
  | t :: txs =>
      sum ← checked_add 64 sum (estimate_encoded_len t);
      if sum <=? MAX_INPUT_BYTES then input_bytes txs sum else None
  end.

(** [fold::speculate] over a database. *)
Definition fold_speculate (db : InMemoryState) (parent : StateView) (txs : list Transaction) (context : ValidationContext)
    (policy : ExecutionPolicy) (workers : nat) (sealing : bool) (env : FoldEnv) : FoldOutcome :=
  if negb ((64 <=? len txs) && (len txs <=? FOLD_MAX_TRANSACTIONS))
     || existsb (λ t, negb (bool_decide (tx_lane t = Types.Payments))) txs then Unsupported
  else
    match input_bytes txs 0 with
    | None => Unsupported
    | Some _ =>
        match try_map (λ t, payment_decode (tx_payload t)) txs with
        | Err e => Attempted (Err (TransactionValidation e))
        | Ok payments =>
            let pairs := zip txs payments in
            if existsb (λ '(t, p), bool_decide (tx_sender t = pay_recipient p)) pairs then Unsupported
            else
              match see_accounts parent pairs [] with
              | None => Unsupported
              | Some (Err e) => Attempted (Err e)
              | Some (Ok accounts) =>
                  let seals := if sealing && (512 <=? len accounts)
                               then plan_seals (im_data db) (compute_transactions_root (map compute_tx_id txs))
                                      (map (λ '(t, p), [account_key (tx_sender t); account_key (pay_recipient p)]) pairs)
                               else None in
                  match fold_run context policy pairs workers accounts seals env with
                  | None => FoldPanic
                  | Some r => Attempted r
                  end
              end
        end
    end.
End fold.

(** ** Guards *)

(** The changes of a list of events, and how many of them are debits. *)
Definition deltas (es : list Event) : Z := sumZ (λ e, gd_delta (ev_guard e)) es.
Definition debits (es : list Event) : Z := sumZ (λ e, Z.b2z (ev_debit e)) es.

Lemma deltas_app es fs : deltas (es ++ fs) = deltas es + deltas fs.
Proof. unfold deltas. by rewrite sumZ_app. Qed.
Lemma debits_app es fs : debits (es ++ fs) = debits es + debits fs.
Proof. unfold debits. by rewrite sumZ_app. Qed.

Lemma i128_some z x : i128 z = Some x → x = z.
Proof. unfold i128. case_match; [|done]. by intros [= <-]. Qed.

Lemma guard_then_spec g n r :
  guard_then g n = Ok r →
  gd_delta r = gd_delta g + gd_delta n
  ∧ ∀ b, guard_accepts r b = guard_accepts g b && guard_accepts n (b + gd_delta g).
Proof.
  unfold guard_then. intros Hg. bind_inv Hg. apply ok_or_ok in E, E0, E1. apply i128_some in E, E0, E1. subst. cbn.
  split; [done|]. intros b. unfold guard_accepts. cbn.
  destruct (Z.leb_spec (Z.max (gd_low g) (gd_low n - gd_delta g)) b), (Z.leb_spec (gd_low g) b), (Z.leb_spec b (gd_high g)),
    (Z.leb_spec (gd_low n) (b + gd_delta g)), (Z.leb_spec (b + gd_delta g) (gd_high n)),
    (Z.leb_spec b (Z.min (gd_high g) (gd_high n - gd_delta g))); cbn; try done; lia.
Qed.

(** Every balance on the way is within the guard of the next event. *)
Fixpoint walks (b : Z) (es : list Event) : bool :=
  match es with [] => true | e :: es => guard_accepts (ev_guard e) b && walks (b + gd_delta (ev_guard e)) es end.

(** Summaries keep every intermediate guard. *)
Lemma summarize_spec p es q :
  summarize_from p es = Ok q →
  gd_delta (px_guard q) = gd_delta (px_guard p) + deltas es ∧ px_outgoing q = px_outgoing p + debits es
  ∧ ∀ b, guard_accepts (px_guard q) b = guard_accepts (px_guard p) b && walks (b + gd_delta (px_guard p)) es.
Proof.
  revert p. induction es as [|e es IH]; intros p Hs; cbn in Hs.
  - simplify_eq. split; [unfold deltas; cbn; lia|]. split; [unfold debits; cbn; lia|]. intros b. cbn. by rewrite andb_true_r.
  - bind_inv Hs. apply guard_then_spec in E as [Hd Ha]. apply IH in Hs as (Hd' & Ho & Ha'). cbn in *.
    split; [unfold deltas in *; cbn; lia|]. split; [unfold debits in *; cbn; lia|]. intros b. rewrite Ha', Ha, Hd, andb_assoc.
    by rewrite Z.add_assoc.
Qed.

(** ** Phases *)

Lemma over_range_forall2 {A : Type} (f : nat → result A Payments.ExecutionError) range rs :
  over_range f range = Ok rs → Forall2 (λ i r, f i = Ok r) range rs.
Proof. apply try_map_forall2. Qed.

(** A phase that succeeds has computed every index, in order. *)
Lemma phase_ok {A : Type} count size fates (f : nat → result A Payments.ExecutionError) rs :
  (0 < count)%nat → (0 < size)%nat → phase count size fates f = Some (Ok rs) → Forall2 (λ i r, f i = Ok r) (seq 0 count) rs.
Proof.
  intros Hc Hs. unfold phase, chunks. destruct (div_ceil_bounds count size Hc Hs) as [Hd _].
  rewrite (proj2 (Nat.eqb_neq _ _)) by lia. cbn [mbind option_bind]. intros [= Hp].
  rewrite <- (chunks_concat (length (seq 0 count)) (div_ceil count size) (seq 0 count)) at 1 by lia.
  set (ranges := chunks_from _ _ _) in *. destruct (map_into _ _ _) as [active [results|e]] eqn:Hm; cbn in Hp; [|done].
  simplify_eq. apply map_into_ok in Hm as [Hm _].
  assert (Forall2 (Forall2 (λ i r, f i = Ok r)) ranges results) as Hall.
  { apply Forall2_same_length_lookup_2.
    - apply (f_equal length) in Hm. by rewrite length_imap, length_map in Hm.
    - intros n range r Hr Hx. apply (f_equal (lookup n)) in Hm. rewrite list_lookup_imap, list_lookup_fmap, Hr, Hx in Hm. cbn in Hm.
      destruct (fates n); cbn in Hm; simplify_eq. by apply over_range_forall2. }
  clear -Hall. induction Hall; cbn; [constructor|by apply Forall2_app].
Qed.

Lemma phase_total {A : Type} count size fates (f : nat → result A Payments.ExecutionError) :
  (0 < count)%nat → (0 < size)%nat → is_Some (phase count size fates f).
Proof.
  intros Hc Hs. unfold phase, chunks. destruct (div_ceil_bounds count size Hc Hs) as [Hd _].
  rewrite (proj2 (Nat.eqb_neq _ _)) by lia. cbn. eauto.
Qed.

Lemma phase_lookup {A : Type} count (f : nat → result A Payments.ExecutionError) rs i :
  Forall2 (λ i r, f i = Ok r) (seq 0 count) rs → (i < count)%nat → ∃ r, rs !! i = Some r ∧ f i = Ok r.
Proof.
  intros Hf Hi. destruct (Forall2_lookup_l _ _ _ i i Hf) as (r & Hr & Hfr); [by apply lookup_seq_lt|]. eauto.
Qed.

(** Cells keep what was written. *)
Lemma set_cell_inv {A : Type} i (v : A) cells cells' :
  set_cell i v cells = Ok cells' → cells !! i = Some None ∧ cells' = <[i := Some v]> cells.
Proof. unfold set_cell. destruct (cells !! i) as [[]|]; [done| |done]. by intros [= <-]. Qed.

Lemma set_cells_keep {A : Type} (writes : list (nat * A)) cells cells' i v :
  set_cells writes cells = Ok cells' → cells !! i = Some (Some v) → cells' !! i = Some (Some v).
Proof.
  revert cells. induction writes as [|[j w] writes IH]; intros cells Hs Hi; cbn in Hs; [by simplify_eq|]. bind_inv Hs.
  apply set_cell_inv in E as [Hj ->]. apply (IH _ Hs). rewrite list_lookup_insert_ne; [done|]. intros ->. congruence.
Qed.

Lemma set_cells_in {A : Type} (writes : list (nat * A)) cells cells' i v :
  set_cells writes cells = Ok cells' → (i, v) ∈ writes → cells' !! i = Some (Some v).
Proof.
  revert cells. induction writes as [|[j w] writes IH]; intros cells Hs Hin; [by apply elem_of_nil in Hin|]. cbn in Hs. bind_inv Hs.
  apply elem_of_cons in Hin as [[= -> ->]|Hin]; [|by eapply IH]. apply set_cell_inv in E as [Hj ->].
  eapply set_cells_keep; [exact Hs|]. apply list_lookup_insert_eq. by eapply lookup_lt_Some.
Qed.

Lemma set_cells_length {A : Type} (writes : list (nat * A)) cells cells' :
  set_cells writes cells = Ok cells' → length cells' = length cells.
Proof.
  revert cells. induction writes as [|[j w] writes IH]; intros cells Hs; cbn in Hs; [by simplify_eq|]. bind_inv Hs.
  apply set_cell_inv in E as [_ ->]. apply IH in Hs. by rewrite length_insert in Hs.
Qed.

(** ** Reconstruction *)

(** What a summary of some events must be. *)
Definition sums_to (p : Prefix) (es : list Event) : Prop := gd_delta (px_guard p) = deltas es ∧ px_outgoing p = debits es.

(** The input that an event needs when [before] are the earlier events of the account. *)
Definition input_of (seed : AccountState) (before : list Event) (e : Event) : Input :=
  mkInput (ev_index e) (ev_debit e) (mkAccount (nonce seed + debits before) (balance seed + deltas before)).

Lemma reconstruct_from_spec seed before b n es rs x e :
  b = balance seed + deltas before → n = nonce seed + debits before → reconstruct_from b n es = Ok rs → es !! x = Some e →
  input_of seed (before ++ take x es) e ∈ rs.
Proof.
  revert before b n rs x. induction es as [|e0 es IH]; intros before b n rs x Hb Hn Hr Hx; [done|]. cbn in Hr. bind_inv Hr. subst rs.
  apply ok_or_ok in E, E0, E1. apply i128_some in E0. apply checked_add_some in E1 as [_ E1].
  destruct x as [|x]; cbn in Hx.
  - simplify_eq. rewrite app_nil_r. unfold input_of. unfold to_u64 in E. case_match; [|done]. simplify_eq. apply list_elem_of_here.
  - right. replace (before ++ take (S x) (e0 :: es)) with ((before ++ [e0]) ++ take x es) by (by rewrite <- app_assoc).
    eapply IH; [..|exact E2|exact Hx]; rewrite ?deltas_app, ?debits_app; unfold deltas, debits in *; cbn; lia.
Qed.

Lemma reconstruct_spec s p before rs x e :
  sums_to p before → reconstruct s p = Ok rs → sg_events s !! x = Some e → input_of (sg_seed s) (before ++ take x (sg_events s)) e ∈ rs.
Proof.
  intros [Hd Ho] Hr Hx. unfold reconstruct in Hr. bind_inv Hr. apply ok_or_ok in E, E0. apply i128_some in E. apply checked_add_some in E0 as [_ E0].
  eapply reconstruct_from_spec; [..|exact Hr|exact Hx]; lia.
Qed.

Lemma concat_position {A : Type} (cs : list (list A)) x e :
  concat cs !! x = Some e →
  ∃ m c y, cs !! m = Some c ∧ c !! y = Some e ∧ concat (take m cs) ++ take y c = take x (concat cs).
Proof.
  revert x. induction cs as [|c cs IH]; intros x Hx; [done|]. cbn in Hx. apply lookup_app_Some in Hx as [Hx|[Hl Hx]].
  - exists 0%nat, c, x. split; [done|]. split; [done|]. cbn. rewrite take_app_le; [done|]. apply lookup_lt_Some in Hx. lia.
  - destruct (IH _ Hx) as (m & d & y & Hm & Hy & He). exists (S m), d, y. split; [done|]. split; [done|]. cbn.
    rewrite <- app_assoc, He, take_app_ge by done. done.
Qed.

(** Cells that hold the summaries. *)
Definition summarized (s : Segment) (cell : option Prefix) : Prop := ∃ q, cell = Some q ∧ summarize s = Ok q.

Lemma then_sums p q es fs guard outgoing :
  sums_to p es → sums_to q fs → guard_then (px_guard p) (px_guard q) = Ok guard →
  checked_add 64 (px_outgoing p) (px_outgoing q) = Some outgoing → sums_to (mkPrefix guard outgoing) (es ++ fs).
Proof.
  intros [Hd Ho] [Hd' Ho'] [Hg _]%guard_then_spec [_ ->]%checked_add_some. split; cbn; rewrite ?deltas_app, ?debits_app; lia.
Qed.

Lemma summarize_sums s q : summarize s = Ok q → sums_to q (sg_events s).
Proof. intros (Hd & Ho & _)%summarize_spec. split; cbn in *; lia. Qed.

(** The segments of one account. *)
Lemma prefixes_account a seed cs rest cells address p ps before :
  let start := if bool_decide (address = Some a) then p else EMPTY_PREFIX in
  sums_to start before → Forall2 summarized (map (mkSegment a seed) cs ++ rest) cells →
  prefixes address p (map (mkSegment a seed) cs ++ rest) cells = Ok ps →
  ∃ ps1 ps2 cells2 address2 p2, ps = ps1 ++ ps2 ∧ length ps1 = length cs
    ∧ (∀ m c, cs !! m = Some c → ∃ q, ps1 !! m = Some q ∧ sums_to q (before ++ concat (take m cs)))
    ∧ Forall2 summarized rest cells2 ∧ prefixes address2 p2 rest cells2 = Ok ps2 ∧ (address2 = address ∨ address2 = Some a).
Proof.
  revert cells address p ps before. induction cs as [|c cs IH]; intros cells address p ps before start Hstart Hall Hp.
  { exists [], ps, cells, address, p. split; [done|]. split; [done|]. split; [by intros m c ?|]. auto. }
  cbn [map app] in Hall, Hp. apply Forall2_cons_inv_l in Hall as (cell & cells' & (q & -> & Hq) & Hall & ->).
  cbn [prefixes sg_address sg_seed] in Hp. fold start in Hp. bind_inv Hp. apply ok_or_ok in E, E1. simplify_eq. guards.
  destruct (IH cells' (Some a) (mkPrefix a1 a2) a4 (before ++ c)) as (ps1 & ps2 & cells2 & address2 & p2 & -> & Hl & Hget & Hall2 & Hp2 & Ha).
  - cbv zeta. rewrite bool_decide_eq_true_2 by done. eapply then_sums; eauto. by apply (summarize_sums (mkSegment a seed c)).
  - done.
  - done.
  - exists (start :: ps1), ps2, cells2, address2, p2. split; [done|]. split; [cbn; lia|]. split; [|split; [done|split; [done|destruct Ha; auto]]].
    intros [|m] d Hd; cbn in Hd |- *; [simplify_eq; exists start; by rewrite app_nil_r|].
    destruct (Hget m d Hd) as (q' & ? & ?). exists q'. split; [done|]. by rewrite app_assoc.
Qed.

(** Every event finds its segment and the prefix of that segment. *)
Lemma prefixes_all accounts cells address p ps a seed events x e :
  NoDup (bt_keys accounts) → (∀ b, address = Some b → b ∉ bt_keys accounts) →
  Forall2 summarized (segments_of accounts) cells → prefixes address p (segments_of accounts) cells = Ok ps →
  (a, (seed, events)) ∈ accounts → events !! x = Some e →
  ∃ k s q before y, segments_of accounts !! k = Some s ∧ ps !! k = Some q ∧ sg_seed s = seed ∧ sums_to q before
    ∧ sg_events s !! y = Some e ∧ before ++ take y (sg_events s) = take x events.
Proof.
  revert cells address p ps. induction accounts as [|[b [seed' events']] accounts IH]; intros cells address p ps Hnd Haddr Hall Hp Hin Hx;
    [by apply elem_of_nil in Hin|].
  cbn [segments_of flat_map] in Hall, Hp |- *. fold (segments_of accounts) in *. set (cs := chunks_from _ _ events') in *.
  cbn [bt_keys map fst] in Hnd, Haddr. apply NoDup_cons in Hnd as [Hb Hnd].
  destruct (prefixes_account b seed' cs (segments_of accounts) cells address p ps []) as
    (ps1 & ps2 & cells2 & address2 & p2 & -> & Hl & Hget & Hall2 & Hp2 & Ha); [|done|done|].
  { cbv zeta. rewrite bool_decide_eq_false_2; [done|]. intros ->. destruct (Haddr b eq_refl). apply list_elem_of_here. }
  apply elem_of_cons in Hin as [[= -> -> ->]|Hin].
  - assert (concat cs = events') as Hcs by (apply chunks_concat; unfold SEGMENT_EVENTS; lia).
    rewrite <- Hcs in Hx. apply concat_position in Hx as (m & c & y & Hm & Hy & He). destruct (Hget m c Hm) as (q & Hq & Hs).
    exists m, (mkSegment b seed' c), q, (concat (take m cs)), y. rewrite <- Hcs. split_and!; try done.
    + apply lookup_app_l_Some. by rewrite list_lookup_fmap, Hm.
    + by apply lookup_app_l_Some.
  - destruct (IH cells2 address2 p2 ps2) as (k & s & q & before & y & Hk & Hq & Hrest); try done.
    { intros c -> Hc. destruct Ha as [Ha|[= ->]]; [|done]. destruct (Haddr c); [done|]. by right. }
    exists (length cs + k)%nat, s, q, before, y. split_and!; try apply Hrest.
    + rewrite lookup_app_r by (rewrite length_map; lia). by rewrite length_map, Nat.add_comm, Nat.add_sub.
    + rewrite lookup_app_r by lia. by rewrite Hl, Nat.add_comm, Nat.add_sub.
Qed.

(** ** Events of an account *)

Section events.
Context {blake : Blake2s} {ed : Ed25519} {arcs : Arcs}.
Implicit Types (pairs : list (Transaction * Payment)) (a : Address).

Definition event_of (prices : Resources) (index : nat) (pr : Transaction * Payment) a : option Event :=
  let '(t, payment) := pr in
  if bool_decide (a = tx_sender t) then
    Some (mkEvent index true (mkGuard (- (pay_amount payment + fee_of prices t))
            (default 0 (checked_cost (tx_resource_limit t) prices) + pay_amount payment) (2 ^ 64 - 1)))
  else if bool_decide (a = pay_recipient payment) then
    Some (mkEvent index false (mkGuard (pay_amount payment) 0 (2 ^ 64 - 1 - pay_amount payment)))
  else None.

Fixpoint account_events (prices : Resources) (index : nat) pairs a : list Event :=
  match pairs with
  | [] => []
  | pr :: pairs => option_list (event_of prices index pr a) ++ account_events prices (S index) pairs a
  end.

Lemma account_events_app prices index pairs pairs' a :
  account_events prices index (pairs ++ pairs') a
  = account_events prices index pairs a ++ account_events prices (index + length pairs) pairs' a.
Proof.
  revert index. induction pairs as [|pr pairs IH]; intros index; cbn; [by rewrite Nat.add_0_r|].
  by rewrite IH, <- app_assoc, Nat.add_succ_r.
Qed.

Definition distinct (pr : Transaction * Payment) : Prop := tx_sender pr.1 ≠ pay_recipient pr.2.

Lemma push_event_get address e accounts accounts' a :
  push_event address e accounts = Ok accounts' →
  bt_get a accounts' = (λ '(seed, es), (seed, es ++ if bool_decide (a = address) then [e] else [])) <$> bt_get a accounts.
Proof.
  unfold push_event. destruct (bt_get address accounts) as [[seed es]|] eqn:E; [cbn|done]. intros [= <-].
  destruct (decide (a = address)) as [->|Hne].
  - rewrite bt_get_insert_eq, E, bool_decide_eq_true_2 by done. done.
  - rewrite bt_get_insert_ne, bool_decide_eq_false_2 by done. destruct (bt_get a accounts) as [[s x]|]; cbn; by rewrite ?app_nil_r.
Qed.

Lemma push_events_get prices index pairs accounts accounts' a :
  Forall distinct pairs → push_events prices index pairs accounts = Ok accounts' →
  bt_get a accounts' = (λ '(seed, es), (seed, es ++ account_events prices index pairs a)) <$> bt_get a accounts.
Proof.
  revert index accounts. induction pairs as [|[t payment] pairs IH]; intros index accounts Hd Hp; cbn [push_events] in Hp.
  { simplify_eq. destruct (bt_get a accounts') as [[s x]|]; cbn; by rewrite ?app_nil_r. }
  apply Forall_cons in Hd as [Hne Hd]. unfold distinct in Hne. cbn in Hne. bind_inv Hp. apply ok_or_ok in E0, E1, E2.
  apply checked_add_some in E1 as [_ ->]. destruct (checked_cost (tx_resource_limit t) prices) as [cost|] eqn:Ec; [|done].
  cbn in E2. apply checked_add_some in E2 as [_ ->].
  rewrite (IH _ _ Hd Hp), (push_event_get _ _ _ _ a E4), (push_event_get _ _ _ _ a E3).
  destruct (bt_get a accounts) as [[seed es]|]; [|done]. cbn. do 2 f_equal. rewrite <- !app_assoc. f_equal. rewrite app_assoc. f_equal.
  unfold fee_of. rewrite E0, Ec. cbn. do 2 case_bool_decide; try done. congruence.
Qed.

(** ** Accounts of the block *)

Lemma see_account_get parent address accounts accounts' a :
  see_account parent address accounts = Some (Ok accounts') →
  (∀ x, bt_get a accounts = Some x → bt_get a accounts' = Some x)
  ∧ (bt_get a accounts' ≠ None → bt_get a accounts = None → a = address ∧ ∃ seed, view_account parent a = Ok (Some seed) ∧ bt_get a accounts' = Some (seed, []))
  ∧ is_Some (bt_get address accounts') ∧ (bt_ok accounts → bt_ok accounts').
Proof.
  unfold see_account. destruct (bt_get address accounts) as [x|] eqn:E.
  { intros [= <-]. split; [done|]. split; [done|]. by rewrite E. }
  destruct (view_account parent address) as [[account|]|] eqn:Ev; [|done..]. intros [= <-]. split_and!.
  - intros x Hx. rewrite bt_get_insert_ne; [done|]. intros ->. congruence.
  - destruct (decide (a = address)) as [->|Hne]; [|by rewrite bt_get_insert_ne]. intros _ _. split; [done|]. rewrite bt_get_insert_eq. eauto.
  - by rewrite bt_get_insert_eq.
  - apply bt_ok_insert.
Qed.

(** Seeds are the accounts of the parent, and every payment's accounts are among them. *)
Definition seeded parent (accounts : Accounts) : Prop :=
  bt_ok accounts ∧ ∀ a x, bt_get a accounts = Some x → x.2 = [] ∧ view_account parent a = Ok (Some x.1).

Lemma see_account_seeded parent address accounts accounts' :
  seeded parent accounts → see_account parent address accounts = Some (Ok accounts') → seeded parent accounts'.
Proof.
  intros [Hok Hs] He. split.
  - by eapply (see_account_get _ _ _ _ address).
  - intros a x Hx. destruct (see_account_get _ _ _ _ a He) as (Hkeep & Hnew & _). destruct (bt_get a accounts) as [y|] eqn:Ey.
    + rewrite (Hkeep y eq_refl) in Hx. simplify_eq. by apply Hs.
    + destruct Hnew as (_ & seed & Hv & Hg); [by rewrite Hx|done|]. rewrite Hg in Hx. by simplify_eq.
Qed.

Lemma see_accounts_ok parent pairs accounts accounts' :
  seeded parent accounts → see_accounts parent pairs accounts = Some (Ok accounts') →
  seeded parent accounts' ∧ (∀ a, is_Some (bt_get a accounts) → is_Some (bt_get a accounts'))
  ∧ ∀ t payment, (t, payment) ∈ pairs → is_Some (bt_get (tx_sender t) accounts') ∧ is_Some (bt_get (pay_recipient payment) accounts').
Proof.
  revert accounts. induction pairs as [|[t payment] pairs IH]; intros accounts Hs He; cbn in He.
  { simplify_eq. split; [done|]. split; [done|]. by intros t payment ?%elem_of_nil. }
  destruct (see_account parent (tx_sender t) accounts) as [[accounts1|]|] eqn:E1; [|done..].
  destruct (see_account parent (pay_recipient payment) accounts1) as [[accounts2|]|] eqn:E2; [|done..].
  assert (∀ a, is_Some (bt_get a accounts1) → is_Some (bt_get a accounts2)) as Hk2
    by (intros a [x Hx]; exists x; by eapply (see_account_get _ _ _ _ a E2)).
  assert (∀ a, is_Some (bt_get a accounts) → is_Some (bt_get a accounts1)) as Hk1
    by (intros a [x Hx]; exists x; by eapply (see_account_get _ _ _ _ a E1)).
  destruct (IH accounts2) as (Hs' & Hk & Hin); [by do 2 (eapply see_account_seeded; [|eassumption])|done|].
  split; [done|]. split; [intros a Ha; auto|]. intros t' p' [[= -> ->]|Hp]%elem_of_cons; [|by apply Hin].
  split; apply Hk; [apply Hk2|]; [by eapply (see_account_get _ _ _ _ (tx_sender t) E1)|by eapply (see_account_get _ _ _ _ (tx_sender t) E2)].
Qed.

(** ** Inputs *)

(** The account of [a] before payment [i]. *)
Definition account_before (prices : Resources) pairs (seed : AccountState) a (i : nat) : AccountState :=
  let before := account_events prices 0 (take i pairs) a in
  mkAccount (nonce seed + debits before) (balance seed + deltas before).

Lemma push_event_ok address e accounts accounts' : bt_ok accounts → push_event address e accounts = Ok accounts' → bt_ok accounts'.
Proof. unfold push_event. intros Hok Hp. destruct (bt_get address accounts) as [[]|]; [|done]. cbn in Hp. simplify_eq. by apply bt_ok_insert. Qed.

Lemma push_events_ok prices index pairs accounts accounts' :
  bt_ok accounts → push_events prices index pairs accounts = Ok accounts' → bt_ok accounts'.
Proof.
  revert index accounts. induction pairs as [|[t payment] pairs IH]; intros index accounts Hok Hp; cbn [push_events] in Hp; [by simplify_eq|].
  bind_inv Hp. eapply IH; [|exact Hp]. by do 2 (eapply push_event_ok; [|eassumption]).
Qed.

Lemma segments_nonempty accounts a seed events : (a, (seed, events)) ∈ accounts → events ≠ [] → (0 < length (segments_of accounts))%nat.
Proof.
  intros Hin Hne. induction accounts as [|[b [s es]] accounts IH]; [by apply elem_of_nil in Hin|].
  cbn [segments_of flat_map]. rewrite length_app. apply elem_of_cons in Hin as [[= -> -> ->]|Hin]; [|specialize (IH Hin); unfold segments_of in IH; lia].
  destruct es as [|e es]; [done|]. rewrite length_map. cbn. lia.
Qed.

(** The events of a payment's accounts, with what came before. *)
Lemma event_position prices pairs i pr a e :
  pairs !! i = Some pr → event_of prices i pr a = Some e →
  ∃ x, account_events prices 0 pairs a !! x = Some e ∧ take x (account_events prices 0 pairs a) = account_events prices 0 (take i pairs) a.
Proof.
  intros Hi He. exists (length (account_events prices 0 (take i pairs) a)).
  assert (account_events prices 0 pairs a = account_events prices 0 (take i pairs) a ++ e :: account_events prices (S i) (drop (S i) pairs) a) as ->.
  { rewrite <- (take_drop_middle _ _ _ Hi) at 1. rewrite account_events_app. cbn.
    rewrite length_take_le by (apply lookup_lt_Some in Hi; lia). by rewrite He. }
  split; [by apply list_lookup_middle|apply take_app_length].
Qed.

(** The facts about a fold that the phases establish. *)
Record folded (prices : Resources) (accounts : Accounts) pairs (senders recipients : list (option AccountState)) : Prop := {
  fo_sender : ∀ i t payment, pairs !! i = Some (t, payment) → ∃ seed, bt_get (tx_sender t) accounts = Some (seed, [])
    ∧ senders !! i = Some (Some (account_before prices pairs seed (tx_sender t) i));
  fo_recipient : ∀ i t payment, pairs !! i = Some (t, payment) → ∃ seed, bt_get (pay_recipient payment) accounts = Some (seed, [])
    ∧ recipients !! i = Some (Some (account_before prices pairs seed (pay_recipient payment) i))
}.

(** An event of the block produces the input it needs. *)
Lemma event_input prices accounts accounts' pairs size fates1 starts cells written i pr a seed e :
  Forall distinct pairs → bt_ok accounts → push_events prices 0 pairs accounts = Ok accounts' →
  Forall2 summarized (segments_of accounts') cells → prefixes None EMPTY_PREFIX (segments_of accounts') cells = Ok starts →
  (0 < size)%nat →
  phase (length (segments_of accounts')) size fates1
    (λ i, match segments_of accounts' !! i, starts !! i with Some s, Some p => reconstruct s p | _, _ => Err Trap end) = Some (Ok written) →
  pairs !! i = Some pr → event_of prices i pr a = Some e → bt_get a accounts = Some (seed, []) →
  mkInput (ev_index e) (ev_debit e) (account_before prices pairs seed a i) ∈ concat written.
Proof.
  intros Hd Hok Hpush Hcells Hstarts Hsize Hphase Hi He Ha.
  pose proof (push_events_get prices 0 pairs accounts accounts' a Hd Hpush) as Hget. rewrite Ha in Hget. cbn in Hget.
  apply bt_get_some_in in Hget. destruct (event_position prices pairs i pr a e Hi He) as (x & Hx & Htake).
  destruct (prefixes_all accounts' cells None EMPTY_PREFIX starts a seed (account_events prices 0 pairs a) x e) as
    (k & s & q & before & y & Hk & Hq & Hseed & Hsum & Hy & Hbefore); try done.
  { by eapply bt_ok_nodup, push_events_ok. }
  pose proof (lookup_lt_Some _ _ _ Hk) as Hlt. apply phase_ok in Hphase; [|lia|done].
  destruct (phase_lookup _ _ _ k Hphase Hlt) as (r & Hr & Hf). cbv beta in Hf. rewrite Hk, Hq in Hf.
  pose proof (reconstruct_spec s q before r y e Hsum Hf Hy) as Hin. rewrite Hbefore, Htake, Hseed in Hin.
  apply list_elem_of_In, in_concat. exists r. split; apply list_elem_of_In; [by eapply list_elem_of_lookup_2|exact Hin].
Qed.

(** Every payment has its accounts among the seeds. *)
Definition covers pairs (accounts : Accounts) : Prop :=
  ∀ t payment, (t, payment) ∈ pairs →
  (∃ seed, bt_get (tx_sender t) accounts = Some (seed, [])) ∧ ∃ seed, bt_get (pay_recipient payment) accounts = Some (seed, []).

Lemma summaries_ok size fates segments writes cells :
  (0 < length segments)%nat → (0 < size)%nat →
  phase (length segments) size fates
    (λ i, match segments !! i with Some s => let? p := summarize s in Ok (i, p) | None => Err Trap end) = Some (Ok writes) →
  set_cells writes (replicate (length segments) None) = Ok cells → Forall2 summarized segments cells.
Proof.
  intros Hn Hsize Hp Hc. apply phase_ok in Hp; [|done..]. apply Forall2_same_length_lookup_2.
  { apply set_cells_length in Hc. by rewrite length_replicate in Hc. }
  intros k s cell Hs Hk. destruct (phase_lookup _ _ _ k Hp) as (w & Hw & Hf); [by eapply lookup_lt_Some|]. cbv beta in Hf.
  rewrite Hs in Hf. bind_inv Hf. subst w. rewrite (set_cells_in _ _ _ k a Hc) in Hk by (by eapply list_elem_of_lookup_2).
  simplify_eq. by exists a.
Qed.

(** What was written to one side of the inputs. *)
Lemma inputs_in debit (written : list (list Input)) n cells x :
  set_cells (map (λ x, (in_index x, in_account x)) (List.filter (λ x, eqb (in_debit x) debit) (concat written))) (replicate n None) = Ok cells →
  x ∈ concat written → in_debit x = debit → cells !! in_index x = Some (Some (in_account x)).
Proof.
  intros Hc Hx Hd. eapply set_cells_in; [exact Hc|]. apply list_elem_of_In, in_map_iff. exists x. split; [done|].
  apply filter_In. rewrite Hd, eqb_reflx. split; [by apply list_elem_of_In|done].
Qed.

Lemma covered_segments prices pairs accounts accounts' :
  pairs ≠ [] → Forall distinct pairs → bt_ok accounts → covers pairs accounts → push_events prices 0 pairs accounts = Ok accounts' →
  (0 < length (segments_of accounts'))%nat.
Proof.
  intros Hne Hd Hok Hcov Hpush. destruct pairs as [|[t payment] pairs]; [done|].
  destruct (Hcov t payment) as [[seed Hs] _]; [apply list_elem_of_here|].
  pose proof (push_events_get _ _ _ _ _ (tx_sender t) Hd Hpush) as Hg. rewrite Hs in Hg. cbn [fmap option_fmap option_map] in Hg.
  apply bt_get_some_in in Hg. eapply segments_nonempty; [exact Hg|]. cbn. by rewrite bool_decide_eq_true_2.
Qed.

Lemma sender_event prices i t payment :
  ∃ e, event_of prices i (t, payment) (tx_sender t) = Some e ∧ ev_index e = i ∧ ev_debit e = true.
Proof. cbn. rewrite bool_decide_eq_true_2 by done. by eexists. Qed.

Lemma recipient_event prices i t payment :
  distinct (t, payment) → ∃ e, event_of prices i (t, payment) (pay_recipient payment) = Some e ∧ ev_index e = i ∧ ev_debit e = false.
Proof. intros Hd. unfold distinct in Hd. cbn in *. rewrite bool_decide_eq_false_2, bool_decide_eq_true_2 by done. by eexists. Qed.

Lemma fold_run_ok context policy pairs workers accounts seals env os seals' :
  pairs ≠ [] → (0 < workers)%nat → Forall distinct pairs → bt_ok accounts → covers pairs accounts →
  fold_run context policy pairs workers accounts seals env = Some (Ok (os, seals')) →
  (∃ senders recipients, folded (po_prices policy) accounts pairs senders recipients
    ∧ Forall2 (λ i o, execute_pair context policy pairs senders recipients i = Ok o) (seq 0 (length pairs)) os)
  ∧ match seals with
    | None => seals' = None
    | Some plan => ∃ plan', seals' = Some plan' ∧ record_outputs (fe_order env) os plan = Ok plan'
    end.
Proof.
  intros Hne Hw Hd Hok Hcov Hrun. unfold fold_run in Hrun.
  destruct (push_events _ _ _ _) as [accounts'|] eqn:Hpush; [|done].
  pose proof (covered_segments _ _ _ _ Hne Hd Hok Hcov Hpush) as Hseg.
  assert (0 < length pairs)%nat as Hlen by (destruct pairs; [done|cbn; lia]).
  assert (0 < Nat.min workers (length pairs))%nat as Hsize by lia. set (size := Nat.min _ _) in *.
  destruct (pool_new _ _); [|done]. destruct (phase _ _ (fe_fates env 0) _) as [summaries|] eqn:Hsum; [|done]. cbn [mbind option_bind] in Hrun.
  destruct summaries as [writes|]; [|done]. destruct (set_cells writes _) as [cells|] eqn:Hcells; [|done].
  destruct (prefixes _ _ _ _) as [starts|] eqn:Hstarts; [|done].
  destruct (phase _ _ (fe_fates env 1) _) as [inputs|] eqn:Hin; [|done]. cbn [mbind option_bind] in Hrun.
  destruct inputs as [written|]; [|done]. cbv zeta in Hrun.
  match type of Hrun with context [set_cells ?w ?c] => destruct (set_cells w c) as [senders|] eqn:Hsenders end; [|done].
  match type of Hrun with context [set_cells ?w ?c] => destruct (set_cells w c) as [recipients|] eqn:Hrecipients end; [|done].
  match type of Hrun with context [phase ?n ?k ?f ?g] => destruct (phase n k f g) as [outputs|] eqn:Hout end; [|done]. cbn [mbind option_bind] in Hrun.
  destruct outputs as [outputs|]; [|done].
  assert (os = outputs) as -> by (destruct seals; [destruct (record_outputs _ _ _)|]; by simplify_eq).
  split; [|destruct seals as [plan|]; [destruct (record_outputs _ _ _) eqn:Hrec|]; simplify_eq; eauto].
  exists senders, recipients. split; [|by eapply phase_ok].
  pose proof (λ i pr a seed e, event_input (po_prices policy) accounts accounts' pairs size (fe_fates env 1) starts cells written i pr a seed e
    Hd Hok Hpush (summaries_ok _ _ _ _ _ Hseg Hsize Hsum Hcells) Hstarts Hsize Hin) as Hinput.
  split; intros i t payment Hi; destruct (Hcov t payment) as [[s1 Hs1] [s2 Hs2]]; try by eapply list_elem_of_lookup_2.
  - exists s1. split; [done|]. destruct (sender_event (po_prices policy) i t payment) as (e & He & Hix & Hdb).
    pose proof (inputs_in true _ _ _ _ Hsenders (Hinput i _ _ _ _ Hi He Hs1) Hdb) as Hx. cbn in Hx. by rewrite Hix in Hx.
  - exists s2. split; [done|]. destruct (recipient_event (po_prices policy) i t payment) as (e & He & Hix & Hdb);
      [by apply (Forall_lookup_1 _ _ _ _ Hd Hi)|].
    pose proof (inputs_in false _ _ _ _ Hrecipients (Hinput i _ _ _ _ Hi He Hs2) Hdb) as Hx. cbn in Hx. by rewrite Hix in Hx.
Qed.

Ltac phase_runs :=
  match goal with |- context [phase ?n ?k ?f ?g] => destruct (phase_total n k f g) as [? ->]; [done..|] end; cbn [mbind option_bind].
Ltac fold_goes_on x := match goal with |- is_Some (match ?r with Ok _ => _ | Err _ => _ end) => destruct r as [x|]; [|by eauto] end.

(** The workers of a fold are never asked to divide by zero. *)
Lemma fold_run_total context policy pairs workers accounts seals env :
  pairs ≠ [] → (0 < workers)%nat → Forall distinct pairs → bt_ok accounts → covers pairs accounts →
  is_Some (fold_run context policy pairs workers accounts seals env).
Proof.
  intros Hne Hw Hd Hok Hcov. unfold fold_run. destruct (push_events _ _ _ _) as [accounts'|] eqn:Hpush; [|eauto].
  pose proof (covered_segments _ _ _ _ Hne Hd Hok Hcov Hpush) as Hseg.
  assert (0 < length pairs)%nat as Hlen by (destruct pairs; [done|cbn; lia]).
  assert (0 < Nat.min workers (length pairs))%nat as Hsize by lia. destruct (pool_new _ _); [|eauto].
  phase_runs. fold_goes_on starts. phase_runs. fold_goes_on sides. destruct sides as [senders recipients]. phase_runs. eauto.
Qed.
End events.

(** ** A fold is a serial execution *)

Section serial.
Context {blake : Blake2s} {ed : Ed25519} {wasm : WasmEngine} {arcs : Arcs}.
Implicit Types (pairs : list (Transaction * Payment)) (a : Address) (t : Transaction).

Lemma payment_views v1 v2 s t payment :
  payment_decode (tx_payload t) = Ok payment → view_account v1 (tx_sender t) = view_account v2 (tx_sender t) →
  view_account v1 (pay_recipient payment) = view_account v2 (pay_recipient payment) → session_execute v1 s t = session_execute v2 s t.
Proof. intros Hp H1 H2. unfold session_execute, transfer, session_account. rewrite Hp. cbn [map_err]. by rewrite H1, H2. Qed.

Lemma account_before_step prices pairs seed a i t payment :
  pairs !! i = Some (t, payment) →
  let before := account_before prices pairs seed a i in
  account_before prices pairs seed a (S i)
  = if bool_decide (a = tx_sender t) then mkAccount (nonce before + 1) (balance before - fee_of prices t - pay_amount payment)
    else if bool_decide (a = pay_recipient payment) then mkAccount (nonce before) (balance before + pay_amount payment)
    else before.
Proof.
  intros Hi. unfold account_before. cbn zeta. rewrite (take_S_r _ _ _ Hi), account_events_app, debits_app, deltas_app.
  rewrite length_take_le by (apply lookup_lt_Some in Hi; lia). cbn [account_events event_of Nat.add]. rewrite app_nil_r.
  case_bool_decide; [|case_bool_decide]; cbn; f_equal; lia.
Qed.

Lemma account_before_start prices pairs seed a : account_before prices pairs seed a 0 = seed.
Proof. unfold account_before. rewrite take_0. destruct seed as [n b]. cbn. f_equal; lia. Qed.

(** The accounts after the first payments of the block. *)
Definition balanced prices (accounts : Accounts) pairs (m : StateMap) (i : nat) : Prop :=
  ∀ a seed, bt_get a accounts = Some (seed, []) → ledger m a = Ok (Some (account_before prices pairs seed a i)).

Lemma pair_runs prices accounts pairs senders recipients m i t payment view s :
  folded prices accounts pairs senders recipients → balanced prices accounts pairs m i → shows view m →
  pairs !! i = Some (t, payment) → distinct (t, payment) → payment_decode (tx_payload t) = Ok payment →
  session_execute (pair_view (account_key (tx_sender t)) (account_key (pay_recipient payment)) (mjoin (senders !! i)) (mjoin (recipients !! i))) s t
  = session_execute view s t.
Proof.
  intros Hf Hb Hv Hi Hd Hp. destruct (fo_sender _ _ _ _ _ Hf _ _ _ Hi) as (s1 & Hs1 & ->).
  destruct (fo_recipient _ _ _ _ _ Hf _ _ _ Hi) as (s2 & Hs2 & ->). cbn [mjoin option_join].
  pose proof (Hb _ _ Hs1) as H1. pose proof (Hb _ _ Hs2) as H2. pose proof (ledger_ok _ _ _ H1) as Ho1. pose proof (ledger_ok _ _ _ H2) as Ho2.
  assert (∀ b, view_account view b = ledger m b) as Hl by (intros b; unfold ledger, view_account, map_view; by rewrite Hv).
  apply (payment_views _ _ _ _ _ Hp).
  - rewrite Hl, H1. unfold view_account, pair_view. rewrite bool_decide_eq_true_2 by done. cbn [ok_or fmap option_fmap option_map].
    by rewrite account_decode_encode.
  - rewrite Hl, H2. unfold view_account, pair_view. rewrite bool_decide_eq_false_2 by (intros Hk%account_key_inj; by destruct Hd).
    rewrite bool_decide_eq_true_2 by done. cbn [ok_or fmap option_fmap option_map]. by rewrite account_decode_encode.
Qed.

Lemma balanced_step prices accounts pairs m i t payment view s out s' :
  bt_ok m → tracks view s m → resources_ok (ps_prices s) → prices = ps_prices s → balanced prices accounts pairs m i →
  covers pairs accounts → pairs !! i = Some (t, payment) → distinct (t, payment) → payment_decode (tx_payload t) = Ok payment →
  session_execute view s t = Ok (out, s') → balanced prices accounts pairs (apply_to (out_diff out) m) (S i).
Proof.
  intros Hm Ht Hr -> Hb Hcov Hi Hd Hp Hex a seed Ha. unfold distinct in Hd. cbn in Hd.
  destruct (payment_step _ _ m _ _ _ Hm Ht Hr Hex) as (_ & -> & _).
  destruct (Hcov t payment) as [[s1 Hs1] _]; [by eapply list_elem_of_lookup_2|]. pose proof (Hb _ _ Hs1) as H1.
  rewrite (account_before_step _ _ _ _ _ _ _ Hi). cbv zeta. unfold settle. rewrite Hp, H1, (bool_decide_eq_false_2 (tx_sender t = _)) by done.
  pose proof (Hb _ _ Ha) as H2. case_bool_decide; [subst a; rewrite Hs1 in Ha; by simplify_eq|]. rewrite H2. by case_bool_decide.
Qed.

Lemma session_declares view s t x : tx_lane t = Types.Payments → session_execute view s t = Ok x → declares t.
Proof.
  intros Hl Hex. unfold session_execute in Hex. bind_inv Hex. guards. unfold declares, required_keys. rewrite Hl, E. cbn.
  eexists. split; [done|]. intros key [->|[->|Hk%elem_of_nil]%elem_of_cons]%elem_of_cons; done.
Qed.

(** The outputs of the first payments. *)
Definition first_outputs (os : list TransactionOutput) (k : nat) : Outputs := λ j, if bool_decide (j < k)%nat then os !! j else None.

Lemma first_outputs_step os k o j : os !! k = Some o → finish_one k o (first_outputs os k) j = first_outputs os (S k) j.
Proof.
  intros Ho. unfold finish_one, first_outputs. repeat case_bool_decide; subst; try done; lia.
Qed.

Section prefix.
Context (parent : StateView) (context : ValidationContext) (policy : ExecutionPolicy) (txs : list Transaction) (payments : list Payment).
Context (accounts : Accounts) (senders recipients : list (option AccountState)) (os : list TransactionOutput) (m0 : StateMap).
Context (height_ok : u64 (vc_next_height context)) (prices_ok : resources_ok (po_prices policy)).
Context (parent_shows : shows parent m0) (map_ok : bt_ok m0).
Context (lanes : ∀ t, t ∈ txs → tx_lane t = Types.Payments).
Context (decoded : Forall2 (λ t p, payment_decode (tx_payload t) = Ok p) txs payments).
#[local] Abbreviation zipped := (zip txs payments).
Context (apart : Forall distinct zipped) (covered : covers zipped accounts).
Context (seeds : ∀ a seed es, bt_get a accounts = Some (seed, es) → view_account parent a = Ok (Some seed)).
Context (inputs : folded (po_prices policy) accounts zipped senders recipients).
Context (executed_all : Forall2 (λ i o, execute_pair context policy zipped senders recipients i = Ok o) (seq 0 (length zipped)) os).

Lemma pairs_length : length zipped = length txs.
Proof using decoded. clear -decoded. rewrite length_zip_with. apply Forall2_length in decoded. lia. Qed.

Lemma pair_at k t : txs !! k = Some t → ∃ payment o s',
  zipped !! k = Some (t, payment) ∧ os !! k = Some o ∧ distinct (t, payment) ∧ payment_decode (tx_payload t) = Ok payment
  ∧ session_execute (pair_view (account_key (tx_sender t)) (account_key (pay_recipient payment)) (mjoin (senders !! k)) (mjoin (recipients !! k)))
      (session_with_prices (session_new context (po_capacity policy)) (po_prices policy)) t = Ok (o, s').
Proof using decoded apart executed_all.
  clear -decoded apart executed_all. intros Ht. destruct (Forall2_lookup_l _ _ _ _ _ decoded Ht) as (payment & Hpay & Hdec).
  assert (zipped !! k = Some (t, payment)) as Hk by (apply lookup_zip_with_Some; eauto).
  destruct (phase_lookup _ _ _ k executed_all) as (o & Ho & Hex); [by eapply lookup_lt_Some|].
  unfold execute_pair in Hex. rewrite Hk in Hex. bind_inv Hex. subst. exists payment, o, p. split_and!; try done.
  by apply (Forall_lookup_1 _ _ _ _ apart Hk).
Qed.

Lemma all_declared : Forall declares txs.
Proof using lanes decoded apart executed_all.
  apply Forall_lookup_2. intros k t Ht. destruct (pair_at k t Ht) as (payment & o & s' & _ & _ & _ & _ & Hex).
  eapply session_declares; [|exact Hex]. apply lanes. by eapply list_elem_of_lookup_2.
Qed.

Lemma prefix_consistent k : (k <= length txs)%nat → ∃ values m,
  consistent parent context policy txs (first_outputs os k) values ∧ bt_ok m ∧ shows (overlay_view parent values) m
  ∧ balanced (po_prices policy) accounts zipped m k.
Proof.
  induction k as [|k IH]; intros Hk.
  { exists [], m0. split_and!; [|done..|].
    - eapply (consistent_ext _ _ _ _ all_declared); [|apply empty_consistent]. intros i. unfold first_outputs. by rewrite bool_decide_eq_false_2 by lia.
    - intros a seed Ha. pose proof (seeds _ _ _ Ha) as Hv. rewrite account_before_start, <- Hv. unfold ledger, view_account, map_view. by rewrite parent_shows. }
  destruct IH as (values & m & Hc & Hm & Hs & Hb); [lia|]. destruct (txs !! k) as [t|] eqn:Ht; [|apply lookup_ge_None in Ht; lia].
  destruct (pair_at k t Ht) as (payment & o & s' & Hpk & Ho & Hd & Hdec & Hex).
  rewrite (pair_runs _ _ _ _ _ _ _ _ _ _ _ inputs Hb Hs Hpk Hd Hdec) in Hex.
  exists (overlay_apply values (out_diff o)), (apply_to (out_diff o) m).
  destruct (overlay_changes_show parent values (changes (out_diff o)) m Hm Hs) as [Hm' Hs'].
  assert (first_outputs os k k = None) as Hnone by (unfold first_outputs; by rewrite bool_decide_eq_false_2 by lia).
  split_and!; [|done|done|].
  - eapply (consistent_ext _ _ _ _ all_declared); [intros j; by apply first_outputs_step|]. eapply (extend _ _ _ _ height_ok all_declared); [done..| |].
    + intros j b Hj Hlt _. unfold first_outputs. rewrite bool_decide_eq_true_2 by done.
      destruct (pair_at j b Hj) as (? & oj & ? & _ & -> & _). eauto.
    + unfold good. transitivity (execute_lane reference_calls (overlay_view parent values) context policy t).
      * symmetry. apply (lane_frame (native := reference_calls)); [by apply (Forall_lookup_1 _ _ _ _ all_declared Ht)|].
        intros key Hr. by eapply (overlay_below _ _ _ _ height_ok).
      * unfold execute_lane. rewrite lanes by (by eapply list_elem_of_lookup_2). by rewrite Hex.
  - eapply (balanced_step _ _ _ _ _ _ _ _ _ _ _ Hm); [..|exact Hex]; try done.
    intros a. unfold session_account. cbn. unfold ledger, view_account, map_view. by rewrite Hs.
Qed.

Lemma fold_speculated : speculated parent context policy txs os.
Proof.
  split; [apply all_declared|].
  assert (length os = length txs) as Hl by (rewrite <- pairs_length; apply Forall2_length in executed_all; by rewrite length_seq in executed_all).
  split; [done|]. destruct (prefix_consistent (length txs)) as (values & m & Hc & _); [done|]. exists values.
  eapply (consistent_ext _ _ _ _ all_declared); [|exact Hc]. intros i. unfold first_outputs. case_bool_decide; [done|]. symmetry. apply lookup_ge_None. lia.
Qed.
End prefix.

Lemma see_accounts_covers parent pairs accounts :
  see_accounts parent pairs [] = Some (Ok accounts) → seeded parent accounts ∧ covers pairs accounts.
Proof.
  intros Hs. apply see_accounts_ok in Hs as ((Hok & Hseeds) & _ & Hall); [|split; [apply bt_ok_nil|done]].
  split; [done|]. intros t payment Hin. destruct (Hall t payment Hin) as [[[s1 e1] H1] [[s2 e2] H2]].
  destruct (Hseeds _ _ H1) as [He1 _], (Hseeds _ _ H2) as [He2 _]. cbn in He1, He2. subst. eauto.
Qed.

Lemma no_pair_distinct pairs : existsb (λ '(t, p), bool_decide (tx_sender t = pay_recipient p)) pairs = false → Forall distinct pairs.
Proof.
  intros He. apply Forall_forall. intros [t p] Hin Heq. cbn in Heq. assert (true = false); [|done]. rewrite <- He. symmetry.
  apply existsb_exists. exists (t, p). split; [by apply list_elem_of_In|]. by apply bool_decide_eq_true_2.
Qed.

Lemma record_outputs_sealing order os plan plan' :
  record_outputs order os plan = Ok plan' → sealing plan → sealing plan'.
Proof.
  revert plan. induction order as [|i order IH]; intros plan Hr Hs; cbn in Hr; [by simplify_eq|].
  destruct (os !! i) as [o|]; [|by eapply IH]. bind_inv Hr. apply map_err_ok in E. eapply IH; [exact Hr|]. by eapply sealing_record.
Qed.

(** A fold never panics, and what it returns is the outputs of the block and seals that
    were planned on the parent. *)
Lemma fold_speculate_ok db m txs context policy workers sealed env :
  represents db m → u64 (vc_next_height context) → resources_ok (po_prices policy) → (0 < workers)%nat →
  let r := fold_speculate db (database_view db) txs context policy workers sealed env in
  r ≠ FoldPanic ∧ ∀ os seals, r = Attempted (Ok (os, seals)) →
    speculated (database_view db) context policy txs os ∧ ∀ plan, seals = Some plan → sealing plan.
Proof.
  intros Hrep Hh Hp Hw r. subst r. unfold fold_speculate. destruct (negb _ || _) eqn:Hguard; [done|].
  apply orb_false_iff in Hguard as [Hlen Hlanes]. destruct (input_bytes txs 0); [|done].
  destruct (try_map _ txs) as [payments|] eqn:Hdec; [|done]. apply try_map_forall2 in Hdec.
  destruct (existsb _ (zip txs payments)) eqn:Hself; [done|]. apply no_pair_distinct in Hself.
  destruct (see_accounts _ _ _) as [[accounts|]|] eqn:Hsee; [|done..]. apply see_accounts_covers in Hsee as [[Hok Hseeds] Hcov].
  assert (zip txs payments ≠ []) as Hne.
  { intros Hz. apply (f_equal length) in Hz. rewrite (pairs_length _ _ Hdec) in Hz. destruct txs; [done|discriminate Hz]. }
  set (seals := if _ && _ then _ else _).
  destruct (fold_run_total context policy (zip txs payments) workers accounts seals env Hne Hw Hself Hok Hcov) as [r Hr]. rewrite Hr.
  split; [done|]. intros os seals' [= ->]. apply fold_run_ok in Hr as [(senders & recipients & Hf & Hall) Hseals]; [|done..]. split.
  - eapply (fold_speculated (database_view db) context policy txs payments accounts senders recipients os m); try done.
    + by apply database_shows.
    + apply Hrep.
    + intros t Ht. destruct (bool_decide (tx_lane t = Types.Payments)) eqn:El; [by apply bool_decide_eq_true in El|].
      assert (true = false); [|done]. rewrite <- Hlanes. symmetry. apply existsb_exists. exists t. split; [by apply list_elem_of_In|]. by rewrite El.
    + intros a seed es Ha. by apply (Hseeds _ _ Ha).
  - intros plan ->. destruct seals as [plan0|] eqn:Es; [|done]. destruct Hseals as (plan' & [= <-] & Hrec).
    eapply record_outputs_sealing; [exact Hrec|]. subst seals. destruct (sealed && _); [|done]. by eapply sealing_plan.
Qed.
End serial.
