(* ===== verification/Acceleration.v ===== *)
(** * Acceleration: choosing how to execute a block
    ([execute_parallel_with_acceleration] and its entry points, of
    [src/crates/execution/src/parallel_payment.rs])

    A block is speculated on by waves or by a fold, and whatever the speculation returns
    is published only after the accounting of the whole block; a speculation that fails is
    replayed serially.  For every schedule of the workers, every lost or failed thread and
    every outcome of the native runtime, the published state and the result are those of
    serial execution, or nothing is published because the native runtime is unavailable. *)

From S2P Require Import Prelude Ordered Codec Types Crypto Trocto TroctoProgram TroctoEffects Native NativeCache State StateTree Transactions Payments Contracts Blocks Scheduler Frames Speculation Parallel Fold.

Section acceleration.
Context {blake : Blake2s} {ed : Ed25519} {wasm : WasmEngine} {arcs : Arcs}.

Definition MAX_PAYMENT_WORKERS : nat := 32.

Inductive ExecutionAcceleration := Waves | Fold | FoldAndSeal.
#[global] Instance acceleration_eq_dec : EqDecision ExecutionAcceleration.
Proof. solve_decision. Defined.

(** What happens around an execution: the native runtime of a serial replay, and the
    threads of both kinds of speculation. *)
Record Threads := mkThreads {
  mc_serial : NativeCalls;
  mc_waves : Surrounding;
  mc_fold : FoldEnv
}.

Definition speculate_with (db : InMemoryState) (txs : list Transaction) (context : ValidationContext) (policy : ExecutionPolicy)
    (workers : nat) (acceleration : ExecutionAcceleration) (threads : Threads)
    : option (result (list TransactionOutput * option CommitSeals) Payments.ExecutionError) :=
  let view := database_view db in
  let waves := r ← speculate view context policy txs workers (mc_waves threads); Some (let? o := r in Ok (o, None)) in
  match acceleration with
  | Waves => waves
  | Fold | FoldAndSeal =>
      match fold_speculate db view txs context policy workers (bool_decide (acceleration = FoldAndSeal)) (mc_fold threads) with
      | Unsupported => waves
      | FoldPanic => None
      | Attempted r => Some r
      end
  end.

(** [None] is a panic of the calling thread. *)
Definition execute_parallel_with_acceleration (db : InMemoryState) (txs : list Transaction) (parent : Hash256)
    (context : ValidationContext) (policy : ExecutionPolicy) (workers : nat) (acceleration : ExecutionAcceleration) (threads : Threads)
    : option (InMemoryState * result (list TransactionOutput * Hash256) Payments.ExecutionError) :=
  let serial := Some (execute_serial (mc_serial threads) db txs parent context policy) in
  if (workers =? 0)%nat || (MAX_PAYMENT_WORKERS <? workers)%nat then Some (db, Err ResourceLimit)
  else if (workers =? 1)%nat || (length txs <? 2)%nat then serial
  else if negb (bool_decide (im_root db = parent)) then Some (db, Err (StateFailed StaleSnapshot))
  else
    outputs ← speculate_with db txs context policy workers acceleration threads;
    match outputs with
    | Err NativeUnavailable => Some (db, Err NativeUnavailable)
    | Err _ => serial
    | Ok (outputs, seals) =>
        match used_within (po_capacity policy) resources_zero outputs with
        | Err error => Some (db, Err error)
        | Ok _ =>
            match commit_sealed db parent (map out_diff outputs) seals with
            | (db, Ok root) => Some (db, Ok (outputs, root))
            | (db, Err error) => Some (db, Err (StateFailed error))
            end
        end
    end.

Definition execute_parallel db txs parent context policy workers threads :=
  execute_parallel_with_acceleration db txs parent context policy workers Fold threads.

Definition execute_payments_parallel db txs parent context capacity workers threads :=
  execute_parallel db txs parent context (mkPolicy capacity PAYMENT_PRICES false) workers threads.

Definition execute_signed_parallel db txs parent context capacity workers threads :=
  execute_parallel db txs parent context (mkPolicy capacity PAYMENT_PRICES true) workers threads.

(** ** Serial execution on another node *)

Definition published (db : InMemoryState) (reference r : InMemoryState * result (list TransactionOutput * Hash256) Payments.ExecutionError) : Prop :=
  r = reference ∨ r = (db, Err NativeUnavailable).

Lemma signed_all_node (calls : NativeCalls) (laws : NativeLaws calls) view s txs :
  u64 (vc_next_height (ss_context s)) → node_agrees (signed_all reference_calls view s txs) (signed_all calls view s txs).
Proof.
  revert s. induction txs as [|t txs IH]; intros s Hh; cbn [signed_all]; [by apply node_agrees_refl|].
  apply node_agrees_bind.
  - unfold signed_execute. apply node_agrees_bind; [by apply lane_node|]. intros o _. apply node_agrees_refl.
    destruct (resources_checked_add _ _); [cbn|done]. by destruct (fits_in _ _).
  - intros [o s1] Hs. apply node_agrees_bind; [|by intros [? ?] _; apply node_agrees_refl]. apply IH.
    unfold signed_execute in Hs. bind_inv Hs. by simplify_eq.
Qed.

Lemma execute_serial_node (calls : NativeCalls) (laws : NativeLaws calls) db txs parent context policy :
  u64 (vc_next_height context) →
  published db (execute_serial reference_calls db txs parent context policy) (execute_serial calls db txs parent context policy).
Proof.
  intros Hh. unfold execute_serial. destruct (negb _); [by left|]. cbv zeta. set (s := signed_with_prices _ _).
  destruct (signed_all_node calls laws (database_view db) s txs Hh) as [[->| ->] _]; [by left|by right].
Qed.

(** ** Parallel execution is serial execution *)

Lemma serial_from_outputs db txs context policy parent os seals :
  state_reach db → im_root db = parent → speculated (database_view db) context policy txs os →
  (∀ plan, seals = Some plan → sealing plan) →
  execute_serial reference_calls db txs parent context policy
  = match used_within (po_capacity policy) resources_zero os with
    | Err error => (db, Err error)
    | Ok _ => match commit_sealed db parent (map out_diff os) seals with
              | (db, Ok root) => (db, Ok (os, root))
              | (db, Err error) => (db, Err (StateFailed error))
              end
    end.
Proof.
  intros Hdb Hroot (Hdecl & Hl & values & Hc) Hseals. unfold execute_serial. rewrite bool_decide_eq_true_2 by done. cbn [negb]. cbv zeta.
  pose proof (complete_serial _ _ _ _ Hdecl os values Hc Hl) as Hs. cbv zeta in Hs.
  destruct (used_within _ _ _) as [[]|e]; [|by rewrite Hs]. destruct Hs as [s' ->].
  assert (commit_sealed db parent (map out_diff os) seals = commit db parent (map out_diff os)) as ->; [|done].
  destruct seals as [plan|]; [|done]. by apply seals_change_nothing; [|apply Hseals].
Qed.

Lemma speculate_with_ok db txs context policy workers acceleration threads :
  state_reach db → u64 (vc_next_height context) → resources_ok (po_prices policy) → (0 < workers)%nat → lawful_env (mc_waves threads) →
  ∃ r, speculate_with db txs context policy workers acceleration threads = Some r
  ∧ ∀ os seals, r = Ok (os, seals) → speculated (database_view db) context policy txs os ∧ ∀ plan, seals = Some plan → sealing plan.
Proof.
  intros [m Hm]%state_reach_map Hh Hp Hw Hlaw. unfold speculate_with.
  destruct (speculate_ok (database_view db) context policy txs Hh workers (mc_waves threads) Hw Hlaw) as (r & -> & Hr).
  assert (∀ os seals, (let? o := r in Ok (o, None)) = Ok (os, seals) →
    speculated (database_view db) context policy txs os ∧ ∀ plan : CommitSeals, seals = Some plan → sealing plan) as Hwaves.
  { intros os seals He. bind_inv He. simplify_eq. split; [by apply Hr|done]. }
  pose proof (λ sealed, fold_speculate_ok db m txs context policy workers sealed (mc_fold threads) Hm Hh Hp Hw) as Hf. cbv zeta in Hf.
  cbn [mbind option_bind]. destruct acceleration; [by eexists|..].
  all: match goal with |- context [fold_speculate _ _ _ _ _ _ ?b _] => destruct (Hf b) as [Hpanic Hfold] end.
  all: destruct (fold_speculate _ _ _ _ _ _ _ _) as [| |r']; [by eexists|done|].
  all: eexists; split; [done|]; intros os seals ->; by apply Hfold.
Qed.

(** C37: Parallel execution is serial execution.  On every reachable database, under every
    acceleration and every number of workers that the node accepts, whichever threads are
    lost, in whichever order the workers answer and whatever the native runtime does, the
    call returns without panicking, and the result and the published state are those of
    executing the block serially on a node on which nothing fails, or nothing is published
    and the error says that the native runtime is unavailable. *)
Theorem parallel_is_serial db txs parent context policy workers acceleration threads :
  state_reach db → u64 (vc_next_height context) → resources_ok (po_prices policy) →
  (0 < workers <= MAX_PAYMENT_WORKERS)%nat → lawful_env (mc_waves threads) → NativeLaws (mc_serial threads) →
  ∃ r, execute_parallel_with_acceleration db txs parent context policy workers acceleration threads = Some r
  ∧ (r = execute_serial reference_calls db txs parent context policy ∨ r = (db, Err NativeUnavailable)).
Proof.
  intros Hdb Hh Hp Hw Hlaw Hcalls. pose proof (execute_serial_node _ Hcalls db txs parent context policy Hh) as Hserial.
  unfold execute_parallel_with_acceleration.
  destruct (Nat.eqb_spec workers 0); [lia|]. destruct (Nat.ltb_spec MAX_PAYMENT_WORKERS workers); [lia|]. cbn [orb].
  destruct (_ || _); [by eexists|]. case_bool_decide as Hroot; cbn [negb].
  2:{ eexists. split; [done|]. left. unfold execute_serial. by rewrite bool_decide_eq_false_2. }
  destruct (speculate_with_ok db txs context policy workers acceleration threads) as (r & -> & Hr); [done..|lia|done|]. cbn [mbind option_bind].
  destruct r as [[os seals]|e]; [|destruct e; by eauto].
  destruct (Hr os seals eq_refl) as [Hs Hseals]. rewrite (serial_from_outputs _ _ _ _ _ _ _ Hdb Hroot Hs Hseals).
  destruct (used_within _ _ _); [|by eauto]. destruct (commit_sealed _ _ _ _) as [db' [root|error]]; by eauto.
Qed.
End acceleration.
(** ** A sample block on two workers *)

Section acceleration_examples.
#[local] Existing Instance checksum_blake2s.
#[local] Existing Instance checksum_ed25519.
#[local] Existing Instance fresh_arcs.
#[local] Existing Instance no_wasm.

(** Nothing is lost, and the native runtime answers. *)
Definition healthy : Threads :=
  mkThreads reference_calls
    (mkSurrounding true (λ _, mkRound 0 (Runs reference_calls)) (λ _, reference_calls) (λ _ _, Runs reference_calls))
    (mkFoldEnv true (λ _ _, Runs reference_calls) []).

(** The second round of the coordinator loses its worker. *)
Definition lossy : Threads :=
  mkThreads reference_calls
    (mkSurrounding true (λ k, mkRound 0 (if (k =? 1)%nat then Lost else Runs reference_calls)) (λ _, reference_calls)
       (λ _ _, Runs reference_calls))
    (mkFoldEnv true (λ _ _, Lost) []).

Definition succeeds (r : option (InMemoryState * result (list TransactionOutput * Hash256) Payments.ExecutionError)) : bool :=
  match r with Some (_, Ok _) => true | _ => false end.

(** Payments to one recipient, enough of them for a fold. *)
Definition many_payments : list Transaction := map (λ k, sample_payment sample_recipient (3 + Z.of_nat k) 1) (seq 0 64).

Definition fold_ledger : InMemoryState :=
  fst (commit_sealed state_new empty_root
    [mkDiff [Put (account_key sample_sender) (encode_account (mkAccount 3 1000000));
             Put (account_key sample_recipient) (encode_account (mkAccount 0 5))]] None).
Definition fold_capacity : Resources := mkResources 1000000 1000000 1000000 1000000.

(** A fold of the payments succeeds, and so does the block that is executed with it. *)
Example payments_fold :
  match fold_speculate fold_ledger (database_view fold_ledger) many_payments sample_context
          (mkPolicy fold_capacity PAYMENT_PRICES false) 4 true (mc_fold healthy) with
  | Attempted (Ok (os, _)) => length os = 64%nat
  | _ => False
  end
  ∧ succeeds (execute_payments_parallel fold_ledger many_payments (im_root fold_ledger) sample_context fold_capacity 4 healthy) = true.
Proof. split; vm_compute; reflexivity. Qed.

Lemma lossy_lawful : lawful_env (mc_waves lossy).
Proof. split; [|split]; cbn; intros; [destruct (_ =? _)%nat; cbn; [done|]|..]; apply reference_laws. Qed.

Lemma contract_ledger_reach : state_reach contract_ledger.
Proof. by apply reach_commit; [constructor|]. Qed.

Lemma parallel_is_serial_witness :
  succeeds (execute_signed_parallel contract_ledger mixed_block (im_root contract_ledger) sample_context contract_capacity 2 healthy) = true
  ∧ ∃ r, execute_parallel_with_acceleration contract_ledger mixed_block (im_root contract_ledger) sample_context mixed_policy 2 Fold lossy
         = Some r
    ∧ (r = execute_serial reference_calls contract_ledger mixed_block (im_root contract_ledger) sample_context mixed_policy
       ∨ r = (contract_ledger, Err NativeUnavailable)).
Proof.
  split; [vm_compute; reflexivity|].
  assert (u64 (vc_next_height sample_context)) as Hh by done.
  assert (0 < 2 <= MAX_PAYMENT_WORKERS)%nat as Hw by (unfold MAX_PAYMENT_WORKERS; lia).
  pose proof (parallel_is_serial contract_ledger mixed_block (im_root contract_ledger) sample_context mixed_policy 2 Fold lossy
    contract_ledger_reach Hh payment_prices_ok Hw lossy_lawful reference_laws) as Hx.
  exact Hx.
Defined.
End acceleration_examples.
