(* ===== verification/Mempool.v ===== *)
(** * Mempool: bounded admission and proposal order ([src/crates/mempool/src/lib.rs])

    Resident transactions are unique by sender and nonce and by identifier, and their
    number and bytes stay within the limits of the pool.  Proposals take the candidates in
    descending priority as long as they fit. *)

From stdpp Require Import sorting.
From S2P Require Import Prelude Ordered Codec Types.

#[local] Arguments cmp : simpl never.

Record PoolEntry := mkPoolEntry { pe_id : Hash256; pe_transaction : Transaction; pe_priority : Z; pe_sequence : Z }.
Record PoolLimits := mkPoolLimits { max_transactions : Z; max_pool_bytes : Z }.

Record Mempool := mkMempool {
  mp_limits : PoolLimits;
  mp_entries : BTreeMap (Address * Z) (PoolEntry * Z);
  mp_ids : BTreeSet Hash256;
  mp_bytes : Z
}.

Inductive MempoolError := InvalidLimits | Duplicate | ConflictingNonce | CapacityExceeded.

Definition mempool_new (limits : PoolLimits) : result Mempool MempoolError :=
  let? _ := reject_if ((max_transactions limits =? 0) || (max_pool_bytes limits =? 0)) InvalidLimits in
  Ok (mkMempool limits [] [] 0).

Definition pool_key (entry : PoolEntry) : Address * Z := (tx_sender (pe_transaction entry), tx_nonce (pe_transaction entry)).

Definition mempool_insert (pool : Mempool) (entry : PoolEntry) (encoded_len : Z) : result Mempool MempoolError :=
  let? _ := reject_if (max_pool_bytes (mp_limits pool) <? encoded_len) CapacityExceeded in
  let? _ := reject_if (bt_contains (pe_id entry) (mp_ids pool)) Duplicate in
  let? _ := reject_if (bt_contains (pool_key entry) (mp_entries pool)) ConflictingNonce in
  let? _ := reject_if ((len (mp_entries pool) =? max_transactions (mp_limits pool))
                       || match checked_add 64 (mp_bytes pool) encoded_len with
                          | None => true
                          | Some bytes => max_pool_bytes (mp_limits pool) <? bytes
                          end) CapacityExceeded in
  Ok (mkMempool (mp_limits pool) (bt_insert (pool_key entry) (entry, encoded_len) (mp_entries pool))
        (bt_insert (pe_id entry) tt (mp_ids pool)) (mp_bytes pool + encoded_len)).

(** [None] is an arithmetic overflow of the byte count. *)
Definition mempool_remove (pool : Mempool) (sender : Address) (nonce : Z) : option Mempool :=
  match bt_get (sender, nonce) (mp_entries pool) with
  | None => Some pool
  | Some (entry, bytes) =>
      rest ← checked_sub (mp_bytes pool) bytes;
      Some (mkMempool (mp_limits pool) (bt_remove (sender, nonce) (mp_entries pool)) (bt_remove (pe_id entry) (mp_ids pool)) rest)
  end.

(** [BTreeMap::retain] with its closure over the byte count and the identifiers. *)
Fixpoint retain_live (next_height : Z) (entries : BTreeMap (Address * Z) (PoolEntry * Z)) (ids : BTreeSet Hash256) (bytes : Z)
    : option (BTreeMap (Address * Z) (PoolEntry * Z) * BTreeSet Hash256 * Z) :=
  match entries with
  | [] => Some ([], ids, bytes)
  | (key, (entry, size)) :: entries =>
      if tx_expires_at (pe_transaction entry) <? next_height then
        bytes ← checked_sub bytes size;
        retain_live next_height entries (bt_remove (pe_id entry) ids) bytes
      else
        '(entries, ids, bytes) ← retain_live next_height entries ids bytes;
        Some ((key, (entry, size)) :: entries, ids, bytes)
  end.

Definition remove_expired (pool : Mempool) (next_height : Z) : option Mempool :=
  '(entries, ids, bytes) ← retain_live next_height (mp_entries pool) (mp_ids pool) (mp_bytes pool);
  Some (mkMempool (mp_limits pool) entries ids bytes).

Fixpoint remove_batch (pool : Mempool) (keys : list (Address * Z)) : option Mempool :=
  match keys with
  | [] => Some pool
  | (sender, nonce) :: keys => pool ← mempool_remove pool sender nonce; remove_batch pool keys
  end.

(** [(Reverse(priority), sequence, id)]. *)
Definition candidate_key (entry : PoolEntry) : Z * (Z * Hash256) := (- pe_priority entry, (pe_sequence entry, pe_id entry)).
Definition before_candidate (a b : PoolEntry) : Prop := leb (candidate_key a) (candidate_key b) = true.
#[global] Instance before_candidate_dec a b : Decision (before_candidate a b).
Proof. unfold before_candidate. apply _. Defined.

Definition candidates (pool : Mempool) : list PoolEntry :=
  merge_sort before_candidate (map fst (bt_values (mp_entries pool))).

(** The stateful filter of [select]. *)
Fixpoint fitting (capacity used : Resources) (entries : list PoolEntry) : list PoolEntry :=
  match entries with
  | [] => []
  | entry :: entries =>
      match resources_checked_add used (tx_resource_limit (pe_transaction entry)) with
      | None => fitting capacity used entries
      | Some next => if fits_in next capacity then entry :: fitting capacity next entries else fitting capacity used entries
      end
  end.

Definition select (pool : Mempool) (max_transactions : nat) (capacity : Resources) : list PoolEntry :=
  take max_transactions (fitting capacity resources_zero (candidates pool)).

(** ** Invariant *)

Section pool.
Implicit Types (pool : Mempool) (entries : BTreeMap (Address * Z) (PoolEntry * Z)) (ids : BTreeSet Hash256).

(** A transaction is resident for as long as some bytes of the budget are reserved for it. *)
Definition ids_of entries : list Hash256 := map (λ kv, pe_id (fst (snd kv))) entries.
Definition bytes_of entries : Z := sumZ (λ kv, snd (snd kv)) entries.

Record pool_ok pool : Prop := {
  pk_entries : bt_ok (mp_entries pool);
  pk_ids : bt_ok (mp_ids pool);
  pk_keys : Forall (λ kv, fst kv = pool_key (fst (snd kv)) ∧ 0 <= snd (snd kv)) (mp_entries pool);
  pk_same : bt_keys (mp_ids pool) ≡ₚ ids_of (mp_entries pool);
  pk_bytes : mp_bytes pool = bytes_of (mp_entries pool);
  pk_count : len (mp_entries pool) <= max_transactions (mp_limits pool);
  pk_size : mp_bytes pool <= max_pool_bytes (mp_limits pool);
  pk_limits : usize (max_pool_bytes (mp_limits pool))
}.

(** Pools in use: admission, removal and expiry in any order. *)
Inductive pool_reach : Mempool → Prop :=
| reach_pool limits pool : usize (max_transactions limits) → usize (max_pool_bytes limits) → mempool_new limits = Ok pool → pool_reach pool
| reach_insert pool entry n pool' : pool_reach pool → 0 <= n → mempool_insert pool entry n = Ok pool' → pool_reach pool'
| reach_remove pool sender nonce pool' : pool_reach pool → mempool_remove pool sender nonce = Some pool' → pool_reach pool'
| reach_expire pool height pool' : pool_reach pool → remove_expired pool height = Some pool' → pool_reach pool'.

Lemma keys_remove (ids : BTreeSet Hash256) id rest :
  bt_ok ids → bt_keys ids ≡ₚ id :: rest → bt_ok (bt_remove id ids) ∧ bt_keys (bt_remove id ids) ≡ₚ rest.
Proof.
  intros Hok Hp. split; [by apply bt_ok_remove|]. assert (id ∈ bt_keys ids) as [[] Hg]%bt_key_get by (rewrite Hp; apply list_elem_of_here).
  pose proof (bt_remove_perm _ _ _ Hg) as Hr. apply (Permutation_map fst) in Hr. unfold bt_keys in *. cbn in Hr.
  rewrite Hr in Hp. by apply Permutation_cons_inv in Hp.
Qed.

Lemma bytes_nonneg entries :
  Forall (λ kv, fst kv = pool_key (fst (snd kv)) ∧ 0 <= snd (snd kv)) entries → 0 <= bytes_of entries.
Proof. intros Hall. apply sumZ_nonneg. intros x Hx. rewrite Forall_forall in Hall. by apply Hall. Qed.

Lemma remove_ok pool sender nonce : pool_ok pool → ∃ pool', mempool_remove pool sender nonce = Some pool' ∧ pool_ok pool'
  ∧ mp_limits pool' = mp_limits pool ∧ mp_entries pool' = bt_remove (sender, nonce) (mp_entries pool).
Proof.
  intros Hok. unfold mempool_remove. destruct (bt_get _ _) as [[entry n]|] eqn:E.
  2:{ exists pool. split; [done|]. split; [done|]. split; [done|]. by rewrite bt_remove_absent. }
  pose proof (bt_remove_perm _ _ _ E) as Hp. destruct Hok as [He Hi Hk Hs Hb Hc Hz Hl].
  rewrite Hp in Hk. apply Forall_cons in Hk as [[_ Hn] Hk]. cbn in Hn.
  assert (mp_bytes pool = n + bytes_of (bt_remove (sender, nonce) (mp_entries pool))) as Hsum.
  { rewrite Hb. unfold bytes_of. by rewrite (sumZ_perm _ _ _ Hp). }
  pose proof (bytes_nonneg _ Hk) as Hrest. unfold checked_sub. destruct (Z.leb_spec n (mp_bytes pool)); [|lia]. cbn.
  eexists. split; [done|]. split; [|done]. unfold ids_of in Hs. rewrite Hp in Hs. cbn in Hs.
  destruct (keys_remove _ _ _ Hi Hs) as [Hi' Hs']. apply Permutation_length in Hp. cbn in Hp.
  split; cbn [mp_entries mp_ids mp_bytes mp_limits]; try done; [by apply bt_ok_remove|..]; unfold len in *; lia.
Qed.

Definition live (height : Z) (kv : (Address * Z) * (PoolEntry * Z)) : bool :=
  height <=? tx_expires_at (pe_transaction (fst (snd kv))).

Lemma retain_ok height entries ids bytes kept base :
  bt_ok ids → bt_keys ids ≡ₚ kept ++ ids_of entries → 0 <= base → bytes = base + bytes_of entries →
  Forall (λ kv, fst kv = pool_key (fst (snd kv)) ∧ 0 <= snd (snd kv)) entries →
  let entries' := List.filter (live height) entries in
  ∃ ids', retain_live height entries ids bytes = Some (entries', ids', base + bytes_of entries')
  ∧ bt_ok ids' ∧ bt_keys ids' ≡ₚ kept ++ ids_of entries'.
Proof.
  revert ids bytes kept base. induction entries as [|[key [entry n]] entries IH]; intros ids bytes kept base Hok Hids Hbase -> Hall.
  { exists ids. cbn in *. split; [done|]. done. }
  apply Forall_cons in Hall as [[_ Hn] Hall]. cbn in Hn. pose proof (bytes_nonneg _ Hall) as Hrest.
  cbv zeta in *. cbn [List.filter retain_live]. cbn in Hids. rewrite <- Permutation_middle in Hids.
  change (bytes_of ((key, (entry, n)) :: entries)) with (n + bytes_of entries).
  assert (live height (key, (entry, n)) = (height <=? tx_expires_at (pe_transaction entry))) as -> by done. destruct (Z.ltb_spec (tx_expires_at (pe_transaction entry)) height).
  - rewrite (proj2 (Z.leb_gt _ _)) by lia. unfold checked_sub. rewrite (proj2 (Z.leb_le _ _)) by lia. cbn [mbind option_bind].
    destruct (keys_remove _ _ _ Hok Hids) as [Hok' Hids']. apply (IH _ _ kept base); [done..|lia|done].
  - rewrite (proj2 (Z.leb_le _ _)) by lia. rewrite Permutation_middle in Hids.
    destruct (IH ids (base + (n + bytes_of entries)) (kept ++ [pe_id entry]) (base + n)) as (ids' & -> & Hok' & Hids');
      [done|by rewrite <- app_assoc|lia|lia|done|]. cbn [mbind option_bind].
    exists ids'. split; [|split; [done|by rewrite <- app_assoc in Hids']].
    do 2 f_equal. cbn. unfold bytes_of. cbn [sumZ fst snd]. lia.
Qed.

Lemma filter_sorted (P : (Address * Z) * (PoolEntry * Z) → bool) entries : bt_ok entries → bt_ok (List.filter P entries).
Proof.
  induction entries as [|[key v] entries IH]; intros Hok; [done|]. apply bt_ok_cons_inv in Hok as [Hok Hall]. cbn.
  destruct (P _); [|by apply IH]. constructor; [by apply IH|]. apply List.Forall_forall. intros k Hk%list_elem_of_In.
  apply Hall. unfold bt_keys in *. apply list_elem_of_fmap in Hk as (kv & -> & [Hkv _]%list_elem_of_In%filter_In).
  by apply list_elem_of_fmap_2, list_elem_of_In.
Qed.

Lemma expire_ok pool height : pool_ok pool → ∃ pool', remove_expired pool height = Some pool' ∧ pool_ok pool'
  ∧ mp_limits pool' = mp_limits pool ∧ mp_entries pool' = List.filter (live height) (mp_entries pool).
Proof.
  intros [He Hi Hk Hs Hb Hc Hz Hl]. unfold remove_expired.
  destruct (retain_ok height (mp_entries pool) (mp_ids pool) (mp_bytes pool) [] 0) as (ids' & -> & Hi' & Hs'); [done..|].
  cbn [mbind option_bind]. eexists. split; [done|]. split; [|done].
  assert (0 <= bytes_of (List.filter (λ kv, negb (live height kv)) (mp_entries pool))) as Hdead.
  { apply bytes_nonneg, Forall_forall. intros kv [Hin _]%list_elem_of_In%filter_In. rewrite Forall_forall in Hk. by apply Hk, list_elem_of_In. }
  assert (bytes_of (mp_entries pool) = bytes_of (List.filter (live height) (mp_entries pool))
    + bytes_of (List.filter (λ kv, negb (live height kv)) (mp_entries pool))) as Hsplit.
  { unfold bytes_of. clear. induction (mp_entries pool) as [|kv es IH]; [done|]. cbn. destruct (live height kv); cbn [negb sumZ]; lia. }
  split; cbn [mp_entries mp_ids mp_bytes mp_limits]; try done.
  - by apply filter_sorted.
  - apply Forall_forall. intros kv [Hin _]%list_elem_of_In%filter_In. rewrite Forall_forall in Hk. by apply Hk, list_elem_of_In.
  - pose proof (filter_length_le (live height) (mp_entries pool)). unfold len in *. lia.
  - lia.
Qed.

Lemma absent_get {K V : Type} `{!TotalOrd K} (k : K) (m : BTreeMap K V) : bt_contains k m = false → bt_get k m = None.
Proof. unfold bt_contains. by destruct (bt_get k m). Qed.

Lemma insert_ok pool entry n pool' : pool_ok pool → 0 <= n → mempool_insert pool entry n = Ok pool' →
  pool_ok pool' ∧ mp_limits pool' = mp_limits pool ∧ mp_entries pool' = bt_insert (pool_key entry) (entry, n) (mp_entries pool).
Proof.
  intros [He Hi Hk Hs Hb Hc Hz Hl] Hn Hin. unfold mempool_insert in Hin. bind_inv Hin. guards. subst pool'. split; [|done].
  assert (bt_get (pool_key entry) (mp_entries pool) = None) as Hfresh by (by apply absent_get).
  assert (bt_get (pe_id entry) (mp_ids pool) = None) as Hnew by (by apply absent_get).
  pose proof (bt_insert_fresh_perm _ (entry, n) _ Hfresh) as Hp.
  destruct (checked_add 64 _ _) as [total|] eqn:Ea; [|bool_props; done]. apply checked_add_some in Ea as [_ ->]. bool_props.
  split; cbn [mp_entries mp_ids mp_bytes mp_limits]; try done.
  - by apply bt_ok_insert.
  - by apply bt_ok_insert.
  - rewrite Hp. constructor; [done|done].
  - unfold ids_of. rewrite Hp. cbn. unfold bt_keys. rewrite (bt_insert_fresh_perm _ tt _ Hnew). cbn. constructor. exact Hs.
  - rewrite Hb. unfold bytes_of. rewrite (sumZ_perm _ _ _ Hp). cbn. lia.
  - apply Permutation_length in Hp. cbn in Hp. unfold len in *. lia.
Qed.

Lemma batch_ok pool keys : pool_ok pool → ∃ pool', remove_batch pool keys = Some pool' ∧ pool_ok pool'
  ∧ mp_entries pool' = fold_left (λ entries key, bt_remove key entries) keys (mp_entries pool).
Proof.
  revert pool. induction keys as [|[sender nonce] keys IH]; intros pool Hok; [by exists pool|].
  destruct (remove_ok _ sender nonce Hok) as (p & Hp & Hok' & _ & He). cbn [remove_batch fold_left].
  rewrite Hp, <- He. cbn [mbind option_bind]. by apply IH.
Qed.

Lemma contains_key {K V : Type} `{!TotalOrd K} (k : K) (m : BTreeMap K V) : bt_contains k m = true ↔ k ∈ bt_keys m.
Proof. rewrite bt_contains_get. symmetry. apply bt_key_get. Qed.

(** The index answers for the resident transactions. *)
Lemma known_id pool id : pool_ok pool → bt_contains id (mp_ids pool) = true ↔ id ∈ ids_of (mp_entries pool).
Proof. intros Hok. by rewrite <- (pk_same _ Hok), contains_key. Qed.

(** What admission asks of a transaction. *)
Definition admissible pool (entry : PoolEntry) (n : Z) : Prop :=
  ¬ (pe_id entry ∈ ids_of (mp_entries pool)) ∧ ¬ (pool_key entry ∈ bt_keys (mp_entries pool))
  ∧ len (mp_entries pool) < max_transactions (mp_limits pool)
  ∧ bytes_of (mp_entries pool) + n <= max_pool_bytes (mp_limits pool).

Lemma insert_iff pool entry n :
  pool_ok pool → 0 <= n → is_ok (mempool_insert pool entry n) = true ↔ admissible pool entry n.
Proof.
  intros Hok Hn. pose proof (known_id _ (pe_id entry) Hok) as Hid. pose proof (contains_key (pool_key entry) (mp_entries pool)) as Hkey.
  pose proof (bytes_nonneg _ (pk_keys _ Hok)) as Hb. pose proof (pk_limits _ Hok) as Hl. pose proof (pk_count _ Hok) as Hc.
  unfold mempool_insert, admissible, reject_if, checked_add. rewrite (pk_bytes _ Hok).
  rewrite <- Hid, <- Hkey, !not_true_iff_false.
  repeat case_match; bool_props; cbn; simplify_eq; try (split; [done|]; intros (? & ? & ? & ?); unfold fits in *; (done || lia || congruence)).
  all: split; [intros _|done]; split_and!; (done || lia).
Qed.

Lemma reach_ok pool : pool_reach pool → pool_ok pool.
Proof.
  induction 1 as [limits pool Ht Hb Hn|pool entry n pool' _ IH Hn Hin|pool sender nonce pool' _ IH Hr|pool height pool' _ IH Hr].
  - unfold mempool_new in Hn. bind_inv Hn. subst. split; cbn; try done; try apply Ht; try apply Hb; constructor.
  - by eapply insert_ok.
  - destruct (remove_ok _ sender nonce IH) as (p & Hp & Hok & _). rewrite Hp in Hr. by simplify_eq.
  - destruct (expire_ok _ height IH) as (p & Hp & Hok & _). rewrite Hp in Hr. by simplify_eq.
Qed.

(** ** Selection *)

(** The resources of some transactions together. *)
Definition total_of (es : list PoolEntry) : Resources :=
  let sum (f : Resources → Z) := sumZ (λ e, f (tx_resource_limit (pe_transaction e))) es in
  mkResources (sum compute) (sum memory) (sum io) (sum bandwidth).

Definition plus (a b : Resources) : Resources :=
  mkResources (compute a + compute b) (memory a + memory b) (io a + io b) (bandwidth a + bandwidth b).

Lemma total_cons e es : total_of (e :: es) = plus (tx_resource_limit (pe_transaction e)) (total_of es).
Proof. done. Qed.
Lemma plus_assoc a b c : plus a (plus b c) = plus (plus a b) c.
Proof. unfold plus. cbn. f_equal; lia. Qed.
Lemma plus_zero a : plus resources_zero a = a.
Proof. destruct a. unfold plus. cbn. done. Qed.

Lemma plus_fits capacity used limit :
  resources_ok capacity →
  match resources_checked_add used limit with Some next => fits_in next capacity | None => false end = fits_in (plus used limit) capacity.
Proof.
  intros (Hc & Hm & Hi & Hb). destruct (resources_checked_add used limit) as [next|] eqn:E.
  - apply resources_checked_add_some in E as (_ & _ & _ & _ & ->). done.
  - symmetry. apply not_true_iff_false. intros (H1 & H2 & H3 & H4)%fits_in_iff. cbn in *.
    assert (resources_checked_add used limit = Some (plus used limit)) as E'; [|by rewrite E' in E].
    apply resources_checked_add_some. unfold plus, fits in *. split_and!; try done; lia.
Qed.

Lemma fitting_cons capacity used e es :
  resources_ok capacity →
  fitting capacity used (e :: es)
  = if fits_in (plus used (tx_resource_limit (pe_transaction e))) capacity
    then e :: fitting capacity (plus used (tx_resource_limit (pe_transaction e))) es else fitting capacity used es.
Proof.
  intros Hc. rewrite <- plus_fits by done. cbn [fitting]. destruct (resources_checked_add _ _) as [next|] eqn:E; [|done].
  apply resources_checked_add_some in E as (_ & _ & _ & _ & ->). done.
Qed.

Lemma fitting_sublist capacity used es : fitting capacity used es `sublist_of` es.
Proof.
  revert used. induction es as [|e es IH]; intros used; cbn; [constructor|].
  destruct (resources_checked_add _ _) as [next|]; [destruct (fits_in _ _)|]; by constructor.
Qed.

Lemma fitting_fits capacity used es n :
  resources_ok capacity → fits_in used capacity = true → fits_in (plus used (total_of (take n (fitting capacity used es)))) capacity = true.
Proof.
  intros Hc. revert used n. induction es as [|e es IH]; intros used n Hu.
  { cbn. rewrite take_nil. destruct used. unfold plus. cbn. by rewrite !Z.add_0_r. }
  rewrite fitting_cons by done. destruct (fits_in (plus used (tx_resource_limit _)) capacity) eqn:E; [|by apply IH]. destruct n as [|n].
  { rewrite take_0. destruct used. unfold plus. cbn. by rewrite !Z.add_0_r. }
  cbn [take]. rewrite total_cons, plus_assoc. by apply IH.
Qed.

Lemma fitting_app capacity used pre post :
  resources_ok capacity →
  fitting capacity used (pre ++ post) = fitting capacity used pre ++ fitting capacity (plus used (total_of (fitting capacity used pre))) post.
Proof.
  intros Hc. revert used. induction pre as [|e pre IH]; intros used.
  { cbn. f_equal. destruct used. unfold plus. cbn. f_equal; lia. }
  cbn [app]. rewrite !(fitting_cons capacity used e) by done. destruct (fits_in _ _); [|apply IH].
  rewrite total_cons, plus_assoc. cbn [app]. f_equal. apply IH.
Qed.

#[local] Instance before_total : Total before_candidate.
Proof.
  intros a b. unfold before_candidate. rewrite !leb_iff. destruct (lt_total (candidate_key a) (candidate_key b)) as [?|[?|?]]; auto.
Qed.
#[local] Instance before_trans : Transitive before_candidate.
Proof. intros a b c. apply leb_trans. Qed.

Lemma candidates_perm pool : candidates pool ≡ₚ map fst (bt_values (mp_entries pool)).
Proof. apply merge_sort_Permutation. Qed.

Lemma candidates_sorted pool : pool_ok pool → StronglySorted (λ a b, lt_of (candidate_key a) (candidate_key b)) (candidates pool).
Proof.
  intros Hok. assert (NoDup (map pe_id (candidates pool))) as Hnd.
  { rewrite candidates_perm. unfold bt_values. rewrite !map_map. fold (ids_of (mp_entries pool)). rewrite <- (pk_same _ Hok).
    apply bt_ok_nodup, Hok. }
  pose proof (StronglySorted_merge_sort before_candidate (map fst (bt_values (mp_entries pool)))) as Hs. fold (candidates pool) in Hs.
  revert Hs Hnd. induction (candidates pool) as [|e es IH]; intros Hs Hnd; [constructor|]. apply StronglySorted_inv in Hs as [Hs Hall].
  cbn in Hnd. apply NoDup_cons in Hnd as [Hn Hnd]. constructor; [by apply IH|]. rewrite List.Forall_forall in Hall |- *. intros x Hx.
  specialize (Hall x Hx). unfold before_candidate in Hall. apply leb_iff in Hall as [Hl|Heq]; [done|].
  unfold candidate_key in Heq. destruct Hn. simplify_eq. apply list_elem_of_fmap. exists x. split; [congruence|by apply list_elem_of_In].
Qed.

(** What [select] takes from the candidates. *)
Lemma select_fits pool n capacity :
  resources_ok capacity →
  let chosen := select pool n capacity in
  chosen `sublist_of` candidates pool ∧ (length chosen <= n)%nat ∧ fits_in (total_of chosen) capacity = true
  ∧ ∀ pre e post, candidates pool = pre ++ e :: post → e ∉ chosen →
    let before := fitting capacity resources_zero pre in
    (n <= length before)%nat ∨ fits_in (total_of (e :: before)) capacity = false.
Proof.
  intros Hc chosen. subst chosen. unfold select. split_and!.
  - etransitivity; [apply sublist_take|apply fitting_sublist].
  - rewrite length_take. lia.
  - pose proof (fitting_fits capacity resources_zero (candidates pool) n Hc) as Hf. rewrite plus_zero in Hf. apply Hf.
    apply fits_in_iff. cbn. destruct Hc as (? & ? & ? & ?). unfold fits in *. lia.
  - intros pre e post Hcand Hnot. cbv zeta. set (before := fitting capacity resources_zero pre). destruct (decide (n <= length before)%nat) as [Hn|Hn]; [by left|right].
    rewrite total_cons. destruct (fits_in _ _) eqn:E; [|done]. destruct Hnot. rewrite Hcand, fitting_app, plus_zero by done. fold before.
    rewrite take_app_ge by lia. apply elem_of_app. right. rewrite fitting_cons by done.
    assert (plus (total_of before) (tx_resource_limit (pe_transaction e)) = plus (tx_resource_limit (pe_transaction e)) (total_of before)) as ->
      by (unfold plus; f_equal; lia).
    rewrite E. destruct (n - length before)%nat eqn:En; [lia|]. cbn. apply list_elem_of_here.
Qed.

(** C38: The pool keeps its index and its bounds and proposes deterministically.  In every
    reachable pool the resident transactions and their bytes are within the limits, the
    byte count is exact, the index holds exactly the identifiers of the resident
    transactions, and identifiers and sender-nonce pairs are unique.  Admission succeeds
    exactly for a new identifier and sender-nonce pair that the limits have room for, and
    adds that entry.  Removal, removal of a batch and expiry never underflow and drop
    exactly the entries they name.  Candidates are the resident entries in a strict total
    order of priority, sequence and identifier, whatever the order of admission.  A
    selection is taken from them in order, has at most the requested number, fits in the
    capacity as a whole, and leaves out an entry only when the number is reached or the
    entry does not fit beside those selected before it. *)
Theorem pool_selects pool :
  pool_reach pool →
  (len (mp_entries pool) <= max_transactions (mp_limits pool) ∧ mp_bytes pool = bytes_of (mp_entries pool)
   ∧ bytes_of (mp_entries pool) <= max_pool_bytes (mp_limits pool))
  ∧ (∀ id, bt_contains id (mp_ids pool) = true ↔ id ∈ ids_of (mp_entries pool))
  ∧ NoDup (ids_of (mp_entries pool)) ∧ NoDup (bt_keys (mp_entries pool))
  ∧ (∀ entry n, 0 <= n → (is_ok (mempool_insert pool entry n) = true ↔ admissible pool entry n)
      ∧ ∀ pool', mempool_insert pool entry n = Ok pool' → mp_entries pool' = bt_insert (pool_key entry) (entry, n) (mp_entries pool))
  ∧ (∀ sender nonce, ∃ pool', mempool_remove pool sender nonce = Some pool'
      ∧ mp_entries pool' = bt_remove (sender, nonce) (mp_entries pool))
  ∧ (∀ keys, ∃ pool', remove_batch pool keys = Some pool'
      ∧ mp_entries pool' = fold_left (λ entries key, bt_remove key entries) keys (mp_entries pool))
  ∧ (∀ height, ∃ pool', remove_expired pool height = Some pool'
      ∧ mp_entries pool' = List.filter (live height) (mp_entries pool))
  ∧ candidates pool ≡ₚ map fst (bt_values (mp_entries pool))
  ∧ StronglySorted (λ a b, lt_of (candidate_key a) (candidate_key b)) (candidates pool)
  ∧ ∀ n capacity, resources_ok capacity →
    let chosen := select pool n capacity in
    chosen `sublist_of` candidates pool ∧ (length chosen <= n)%nat ∧ fits_in (total_of chosen) capacity = true
    ∧ ∀ pre e post, candidates pool = pre ++ e :: post → e ∉ chosen →
      let before := fitting capacity resources_zero pre in
      (n <= length before)%nat ∨ fits_in (total_of (e :: before)) capacity = false.
Proof.
  intros Hok%reach_ok. split_and!; try apply Hok.
  - rewrite <- (pk_bytes _ Hok). apply Hok.
  - intros id. by apply known_id.
  - rewrite <- (pk_same _ Hok). apply bt_ok_nodup, Hok.
  - apply bt_ok_nodup, Hok.
  - intros entry n Hn. split; [by apply insert_iff|]. intros pool' Hin. by apply (insert_ok _ _ _ _ Hok Hn) in Hin as (_ & _ & ->).
  - intros sender nonce. destruct (remove_ok _ sender nonce Hok) as (p & -> & _ & _ & He). eauto.
  - intros keys. destruct (batch_ok _ keys Hok) as (p & -> & _ & He). eauto.
  - intros height. destruct (expire_ok _ height Hok) as (p & -> & _ & _ & He). eauto.
  - apply candidates_perm.
  - by apply candidates_sorted.
  - intros n capacity Hc. by apply select_fits.
Qed.
End pool.

(** ** A sample pool *)

Section pool_examples.
Definition pooled (n priority : Z) : PoolEntry :=
  mkPoolEntry (repeat (byte_of n) 32)
    (mkTransaction 1 100 Payments (mkResources 1 0 0 0) 7 (repeat (byte_of 1) 32) n [] (mkResources 10 1 1 1) [] zero64) priority n.

Definition admitted (pool : result Mempool MempoolError) (entry : PoolEntry) : result Mempool MempoolError :=
  let? pool := pool in mempool_insert pool entry 40.
Definition sample_pool : result Mempool MempoolError :=
  fold_left admitted [pooled 1 5; pooled 2 9; pooled 3 9] (mempool_new (mkPoolLimits 3 200)).
Definition filled_pool : Mempool := match sample_pool with Ok pool => pool | Err _ => mkMempool (mkPoolLimits 1 1) [] [] 0 end.

Lemma admitted_reach entries r pool :
  (∀ pool, r = Ok pool → pool_reach pool) → fold_left admitted entries r = Ok pool → pool_reach pool.
Proof.
  revert r. induction entries as [|entry entries IH]; intros r Hr Hf; [by apply Hr|]. refine (IH _ _ Hf). intros pool' Hin. unfold admitted in Hin. destruct r as [p|]; [|done]. by eapply (reach_insert p entry 40); [apply Hr| |].
Qed.

Lemma filled_reach : pool_reach filled_pool.
Proof.
  eapply (admitted_reach [pooled 1 5; pooled 2 9; pooled 3 9] (mempool_new (mkPoolLimits 3 200))).
  - intros pool. by apply reach_pool.
  - fold sample_pool. assert (is_ok sample_pool = true) as Hok by (vm_compute; reflexivity). unfold filled_pool. by destruct sample_pool.
Qed.

Lemma pool_selects_witness :
  map pe_priority (select filled_pool 2 (mkResources 25 5 5 5)) = [9; 9]
  ∧ (len (mp_entries filled_pool) <= max_transactions (mp_limits filled_pool) ∧ mp_bytes filled_pool = bytes_of (mp_entries filled_pool)
     ∧ bytes_of (mp_entries filled_pool) <= max_pool_bytes (mp_limits filled_pool)).
Proof. split; [vm_compute; reflexivity|]. exact (proj1 (pool_selects filled_pool filled_reach)). Defined.
End pool_examples.
