(* ===== verification/StoreRecords.v ===== *)
(** * StoreRecords: what the chain log stores
    ([src/crates/storage/src/{lib,archive,receipts,log_record}.rs])

    A record of the log is an anchor, which is a checkpoint with its whole state, or a
    batch, which is a finalized block with its certificate, the ordered changes of its
    execution and optionally its receipts.  Batches are validated before they are encoded
    and again after they are decoded.  The decoder accepts exactly the encodings of valid
    records. *)

From S2P Require Import Prelude Ordered Codec Types Crypto State StateTree StateProofs Snapshot ProofWire Transactions.

(** ** Data *)

Record Checkpoint := mkCheckpoint { cp_height : Z; cp_block : Hash256; cp_state_root : Hash256 }.

#[global] Instance Checkpoint_eq_dec : EqDecision Checkpoint.
Proof. solve_decision. Defined.

Record BlockEffects := mkEffects {
  ef_receipts : list ExecutionReceipt;
  ef_genesis : StateValueProof;
  ef_committee : option StateValueProof;
  ef_potb : option StateValueProof
}.

Record CommitBatch := mkBatch {
  cb_block : Block;
  cb_certificate : bytes;
  cb_diffs : list StateDiff;
  cb_effects : option BlockEffects
}.

Inductive StorageError :=
| StoreCorrupt
| InvalidOrder
| VerificationFailed
| StoreLimitExceeded
| StoreIo
| StoreLocked
| StoreDurabilityUnknown
| StoreUnsupported.

Definition map_state_error (e : StateError) : StorageError :=
  match e with
  | StaleSnapshot => InvalidOrder
  | RootMismatch => VerificationFailed
  | StateLimitExceeded => StoreLimitExceeded
  | StateIo | StateLocked | StateDurabilityUnknown => StoreIo
  | StateCorrupt | LeaseViolation => StoreCorrupt
  end.

Definition MAX_ARCHIVE_BYTES : Z := 256 * 1024 * 1024.
Definition ARCHIVE_MAX_TRANSACTIONS : Z := 65536.
Definition ARCHIVE_MAX_TRANSACTION_BYTES : Z := 4 * 1024 * 1024.
Definition MAX_CERTIFICATE_BYTES : Z := 1024 * 1024.
Definition MAX_RECORD_BYTES : Z := 72 * 1024 * 1024.
Definition MAX_CHANGES : Z := 1048576.
Definition MAX_BLOCK_RECEIPTS : Z := 16384.
Definition MAX_RECEIPTS_BYTES : Z := MAX_BLOCK_RECEIPTS * 97 + 16384.

Definition genesis_key : StateKey := lit "astrolune/genesis/v1".
Definition COMMITTEE_STATE_KEY : StateKey := lit "astrolune/consensus/committee/v1".
Definition POTB_STATE_KEY : StateKey := lit "astrolune.potb.state.v1".

(** ** Blocks ([archive.rs]) *)

Section blocks.
Context {blake : Blake2s}.

(** The loop over the transactions, with the size so far. *)
Fixpoint validate_transactions (size : Z) (txs : list Transaction) : result unit StorageError :=
  match txs with
  | [] => Ok tt
  | t :: txs =>
      let? _ := reject_if (negb (tx_version t =? TRANSACTION_VERSION)) VerificationFailed in
      let? _ := reject_if ((MAX_LIST_LEN <? len (tx_access_list t))
                           || existsb (λ key, MAX_STATE_KEY_LEN <? len key) (tx_access_list t)
                           || (MAX_PAYLOAD <? len (tx_payload t))
                           || (ARCHIVE_MAX_TRANSACTION_BYTES <? estimate_encoded_len t)) StoreLimitExceeded in
      let? size := ok_or (checked_add 64 size (estimate_encoded_len t + 8)) StoreLimitExceeded in
      let? _ := reject_if (MAX_ARCHIVE_BYTES <? size) StoreLimitExceeded in
      validate_transactions size txs
  end.

Definition validate_block (block : Block) (certificate : bytes) : result unit StorageError :=
  let? _ := reject_if ((ARCHIVE_MAX_TRANSACTIONS <? len (block_transactions block))
                       || (MAX_CERTIFICATE_BYTES <? len certificate)) StoreLimitExceeded in
  let? _ := validate_transactions 200 (block_transactions block) in
  reject_if (negb (bool_decide (compute_transactions_root (map compute_tx_id (block_transactions block))
                                = bh_transactions_root (block_header block)))) VerificationFailed.

(** ** Receipts ([receipts.rs]) *)

Fixpoint receipts_resources (used : Resources) (receipts : list ExecutionReceipt) : result Resources StorageError :=
  match receipts with
  | [] => Ok used
  | r :: receipts =>
      let? used := ok_or (resources_checked_add used (rc_resources r)) VerificationFailed in
      receipts_resources used receipts
  end.

(** An optional authority proof: a nonempty value of at most [limit] bytes under [key]. *)
Definition validate_authority (proof : option StateValueProof) (root : Hash256) (key : StateKey) (limit : Z)
    : result unit StorageError :=
  match proof with
  | None => Ok tt
  | Some proof =>
      let? value := map_err (λ _, VerificationFailed) (value_verify proof root key) in
      reject_if match value with Some bs => (len bs =? 0) || (limit <? len bs) | None => true end VerificationFailed
  end.

Definition effects_validate_header (e : BlockEffects) (h : BlockHeader) : result unit StorageError :=
  let? _ := reject_if (is_some (ef_committee e) && is_some (ef_potb e)) VerificationFailed in
  let? _ := reject_if (MAX_BLOCK_RECEIPTS <? len (ef_receipts e)) StoreLimitExceeded in
  let? resources := receipts_resources resources_zero (ef_receipts e) in
  let? _ := reject_if (negb (bool_decide (compute_receipts_root (map receipt_commitment (ef_receipts e)) = bh_receipts_root h))
                       || negb (fits_in resources (bh_capacity h))) VerificationFailed in
  let? genesis := map_err (λ _, VerificationFailed) (value_verify (ef_genesis e) (bh_state_root h) genesis_key) in
  let? _ := reject_if match genesis with Some bs => negb (len bs =? 32) | None => true end VerificationFailed in
  let? _ := validate_authority (ef_committee e) (bh_state_root h) COMMITTEE_STATE_KEY 2712 in
  validate_authority (ef_potb e) (bh_state_root h) POTB_STATE_KEY 7762.

Definition effects_validate (e : BlockEffects) (block : Block) : result unit StorageError :=
  let? _ := reject_if (negb (len (ef_receipts e) =? len (block_transactions block))
                       || (MAX_BLOCK_RECEIPTS <? len (ef_receipts e))
                       || existsb (λ '(r, t), negb (bool_decide (rc_transaction r = compute_tx_id t)))
                            (zip (ef_receipts e) (block_transactions block))) VerificationFailed in
  effects_validate_header e (block_header block).
End blocks.

(** A proof with its length in front; [None] is longer than the limit. *)
Definition effects_proof (p : StateValueProof) (limit : Z) : result bytes StorageError :=
  let? proof := map_err (λ _, StoreLimitExceeded) (value_to_bytes p) in
  let? _ := reject_if (limit <? len proof) StoreLimitExceeded in
  Ok (le 4 (len proof) ++ proof).

Definition effects_authority (e : BlockEffects) : option StateValueProof :=
  match ef_committee e with Some p => Some p | None => ef_potb e end.

Definition effects_magic (e : BlockEffects) : bytes :=
  if is_some (ef_potb e) then lit "ALEFF003" else if is_some (ef_committee e) then lit "ALEFF002" else lit "ALEFFECT".

(** The number of receipts is within its limit, so it fits four bytes. *)
Definition effects_to_bytes (e : BlockEffects) : result bytes StorageError :=
  let? _ := reject_if (is_some (ef_committee e) && is_some (ef_potb e)) VerificationFailed in
  let? _ := reject_if (MAX_BLOCK_RECEIPTS <? len (ef_receipts e)) StoreLimitExceeded in
  let? genesis := effects_proof (ef_genesis e) 2048 in
  let? authority := match effects_authority e with
                    | Some p => effects_proof p (if is_some (ef_potb e) then 12288 else 4096)
                    | None => Ok []
                    end in
  Ok (effects_magic e ++ le 4 (len (ef_receipts e)) ++ encode_all receipt_canonical_bytes (ef_receipts e)
      ++ genesis ++ authority).

(** [as_chunks::<97>] and decoding: every chunk is one receipt. *)
Definition read_receipt_exact : read ExecutionReceipt := λ d,
  let? (bs, d) := read_exact 97 d in
  let? r := receipt_decode bs in
  Ok (r, d).

Definition read_effects_proof (limit : Z) : read StateValueProof := λ d,
  let? (length, d) := read_u32 d in
  let? _ := reject_if (limit <? length) LimitExceeded in
  let? (bs, d) := read_exact length d in
  let? p := map_err (λ _, NonCanonical) (value_from_bytes bs) in
  Ok (p, d).

(** [read_exact] of all receipts precedes their decoding. *)
Definition read_receipts (count : Z) : read (list ExecutionReceipt) := λ d,
  let? (data, d) := read_exact (count * 97) d in
  let? (receipts, _) := read_many read_receipt_exact (Z.to_nat count) (decoder_new data) in
  Ok (receipts, d).

Definition read_effects : read BlockEffects := λ d,
  let? (magic, d) := read_fixed 8 d in
  let? profile := (if bool_decide (magic = lit "ALEFFECT") then Ok 0
                   else if bool_decide (magic = lit "ALEFF002") then Ok 2
                   else if bool_decide (magic = lit "ALEFF003") then Ok 3
                   else Err Unsupported) in
  let? (count, d) := read_u32 d in
  let? _ := reject_if (MAX_BLOCK_RECEIPTS <? count) LimitExceeded in
  let? (receipts, d) := read_receipts count d in
  let? (genesis, d) := read_effects_proof 2048 d in
  if profile =? 0 then Ok (mkEffects receipts genesis None None, d)
  else
    let? (authority, d) := read_effects_proof (if profile =? 3 then 12288 else 4096) d in
    Ok ((if profile =? 3 then mkEffects receipts genesis None (Some authority)
         else mkEffects receipts genesis (Some authority) None), d).

Definition effects_from_bytes (bs : bytes) : result BlockEffects StorageError :=
  let? _ := reject_if (MAX_RECEIPTS_BYTES <? len bs) StoreLimitExceeded in
  map_err (λ _, StoreCorrupt) (complete read_effects bs).

(** ** Records ([log_record.rs]) *)

Inductive LogRecord :=
| RecordAnchor (cp : Checkpoint) (state : InMemoryState)
| RecordBatch (batch : CommitBatch).

(** [Writer::append], [number] and [blob]. *)
Definition w_append (out bs : bytes) : result bytes StorageError :=
  if MAX_RECORD_BYTES - len out <? len bs then Err StoreLimitExceeded else Ok (out ++ bs).
Definition w_number (out : bytes) (n : Z) : result bytes StorageError := w_append out (le 8 n).
Definition w_blob (out bs : bytes) : result bytes StorageError :=
  let? out := w_number out (len bs) in
  w_append out bs.

(** [for x in xs { write(out, x)? }]. *)
Fixpoint w_each {A : Type} (write : bytes → A → result bytes StorageError) (out : bytes) (xs : list A) : result bytes StorageError :=
  match xs with
  | [] => Ok out
  | x :: xs => let? out := write out x in w_each write out xs
  end.

Section records.
Context {blake : Blake2s}.

Definition encode_anchor (cp : Checkpoint) (state : InMemoryState) : result bytes StorageError :=
  let? out := w_append [byte_of 0] (le 8 (cp_height cp)) in
  let? out := w_append out (cp_block cp) in
  let? out := w_append out (cp_state_root cp) in
  w_blob out (export_snapshot state).

Definition w_change (out : bytes) (c : StateChange) : result bytes StorageError :=
  let? _ := reject_if (MAX_STATE_KEY_BYTES <? len (change_key c)) StoreLimitExceeded in
  let? out := w_append out [byte_of match c with Put _ _ => 1 | Delete _ => 2 end] in
  let? out := w_blob out (change_key c) in
  match c with
  | Put _ value =>
      let? _ := reject_if (MAX_STATE_VALUE_BYTES <? len value) StoreLimitExceeded in
      w_blob out value
  | Delete _ => Ok out
  end.

(** The diffs, with the number of changes so far. *)
Fixpoint w_diffs (total : Z) (out : bytes) (diffs : list StateDiff) : result bytes StorageError :=
  match diffs with
  | [] => Ok out
  | diff :: diffs =>
      let? total := ok_or (checked_add 64 total (len (changes diff))) StoreLimitExceeded in
      let? _ := reject_if (MAX_CHANGES <? total) StoreLimitExceeded in
      let? out := w_number out (len (changes diff)) in
      let? out := w_each w_change out (changes diff) in
      w_diffs total out diffs
  end.

Definition encode_batch (batch : CommitBatch) : result bytes StorageError :=
  let? _ := validate_block (cb_block batch) (cb_certificate batch) in
  let? _ := match cb_effects batch with Some effects => effects_validate effects (cb_block batch) | None => Ok tt end in
  let out := [byte_of (if is_some (cb_effects batch) then 2 else 1)] in
  let? out := w_append out (header_canonical_bytes (block_header (cb_block batch))) in
  let? out := w_number out (len (block_transactions (cb_block batch))) in
  let? out := w_each (λ out t, w_blob out (encode_transaction t)) out (block_transactions (cb_block batch)) in
  let? out := w_blob out (cb_certificate batch) in
  let? _ := reject_if (MAX_CHANGES <? len (cb_diffs batch)) StoreLimitExceeded in
  let? out := w_number out (len (cb_diffs batch)) in
  let? out := w_diffs 0 out (cb_diffs batch) in
  match cb_effects batch with
  | Some effects => let? bs := effects_to_bytes effects in w_blob out bs
  | None => Ok out
  end.

(** [archive::length] and [archive::read_blob]. *)
Definition read_length (limit : Z) : read Z := λ d,
  let? (value, d) := read_u64 d in
  let? _ := reject_if (limit <? value) LimitExceeded in
  Ok (value, d).
Definition read_blob (limit : Z) : read bytes := λ d,
  let? (size, d) := read_length limit d in
  read_exact size d.

Definition read_header_exact : read BlockHeader := λ d,
  let? (bs, d) := read_exact 200 d in
  let? h := header_decode bs in
  Ok (h, d).

Definition read_transaction : read Transaction := λ d,
  let? (bs, d) := read_blob ARCHIVE_MAX_TRANSACTION_BYTES d in
  let? t := decode_transaction bs in
  Ok (t, d).

Definition read_block : read Block := λ d,
  let? (h, d) := read_header_exact d in
  let? (count, d) := read_length ARCHIVE_MAX_TRANSACTIONS d in
  let? _ := reject_if (remaining d / 150 <? count) Truncated in
  let? (txs, d) := read_many read_transaction (Z.to_nat count) d in
  Ok (mkBlock h txs, d).

Definition read_change : read StateChange := λ d,
  let? (tag, d) := read_u8 d in
  let? (key, d) := read_blob MAX_STATE_KEY_BYTES d in
  if tag =? 1 then
    let? (value, d) := read_blob MAX_STATE_VALUE_BYTES d in
    Ok (Put key value, d)
  else if tag =? 2 then Ok (Delete key, d)
  else Err NonCanonical.

Fixpoint read_diffs (total : Z) (n : nat) : read (list StateDiff) := λ d,
  match n with
  | O => Ok ([], d)
  | S n =>
      let? (changes, d) := read_length (MAX_CHANGES - total) d in
      let? _ := reject_if (remaining d / 9 <? changes) Truncated in
      let? (cs, d) := read_many read_change (Z.to_nat changes) d in
      let? (diffs, d) := read_diffs (total + changes) n d in
      Ok (mkDiff cs :: diffs, d)
  end.

Definition read_anchor_record : read LogRecord := λ d,
  let? (height, d) := read_u64 d in
  let? (block, d) := read_fixed 32 d in
  let? (state_root, d) := read_fixed 32 d in
  let? _ := reject_if (hash_is_zero block) NonCanonical in
  let? (bs, d) := read_blob MAX_SNAPSHOT_BYTES d in
  let? state := map_err (λ _, NonCanonical) (from_snapshot bs state_root) in
  Ok (RecordAnchor (mkCheckpoint height block state_root) state, d).

Definition read_batch_record (tag : Z) : read LogRecord := λ d,
  let? (block, d) := read_block d in
  let? (certificate, d) := read_blob MAX_CERTIFICATE_BYTES d in
  let? _ := map_err (λ _, NonCanonical) (validate_block block certificate) in
  let? (count, d) := read_length MAX_CHANGES d in
  let? _ := reject_if (remaining d / 8 <? count) Truncated in
  let? (diffs, d) := read_diffs 0 (Z.to_nat count) d in
  if tag =? 2 then
    let? (bs, d) := read_blob MAX_RECEIPTS_BYTES d in
    let? effects := map_err (λ _, NonCanonical) (effects_from_bytes bs) in
    let? _ := map_err (λ _, NonCanonical) (effects_validate effects block) in
    Ok (RecordBatch (mkBatch block certificate diffs (Some effects)), d)
  else Ok (RecordBatch (mkBatch block certificate diffs None), d).

Definition read_log_record : read LogRecord := λ d,
  let? (tag, d) := read_u8 d in
  if tag =? 0 then read_anchor_record d
  else if (tag =? 1) || (tag =? 2) then read_batch_record tag d
  else Err NonCanonical.

Definition decode_record (bs : bytes) : result LogRecord StorageError :=
  let? _ := reject_if (MAX_RECORD_BYTES <? len bs) StoreLimitExceeded in
  map_err (λ _, StoreCorrupt) (complete read_log_record bs).
End records.

(** ** Reads *)

Section reads.
Context {blake : Blake2s}.

Lemma reads_length_limit limit : limit < 2 ^ 64 → Reads (read_length limit) (le 8) (λ n, 0 <= n <= limit).
Proof.
  intros Hl. split; unfold read_length.
  - intros d v ys Hv Hd. read_fwd; [unfold fits; lia|]. rewrite (proj2 (Z.ltb_ge _ _)) by lia. close_fwd.
  - intros d v d' zs Hd H. bind_inv H. guards. read_inv. subst. eexists. split; [done|]. split; [unfold fits in *; lia|done].
Qed.

Lemma reads_blob_limit limit : limit < 2 ^ 64 → Reads (read_blob limit) encode_bounded (λ bs, len bs <= limit).
Proof.
  intros Hl. pose proof (reads_length_limit limit Hl) as Hr. split; unfold read_blob, encode_bounded.
  - intros d v ys Hv Hd. rewrite <- app_assoc in Hd. read_fwd; [split; [apply len_nonneg|done]|]. by apply read_exact_fwd.
  - intros d v d' zs Hd H. bind_inv H. read_inv. apply read_exact_inv with (zs := ys) in H as (ys' & -> & <- & Hd'); [|done].
    exists ys'. rewrite app_assoc. split; [done|]. split; [lia|done].
Qed.

#[local] Instance reads_tx_count : Reads (read_length ARCHIVE_MAX_TRANSACTIONS) _ _ := reads_length_limit ARCHIVE_MAX_TRANSACTIONS eq_refl.
#[local] Instance reads_change_count : Reads (read_length MAX_CHANGES) _ _ := reads_length_limit MAX_CHANGES eq_refl.
#[local] Instance reads_tx_blob : Reads (read_blob ARCHIVE_MAX_TRANSACTION_BYTES) _ _ := reads_blob_limit ARCHIVE_MAX_TRANSACTION_BYTES eq_refl.
#[local] Instance reads_key_blob : Reads (read_blob MAX_STATE_KEY_BYTES) _ _ := reads_blob_limit MAX_STATE_KEY_BYTES eq_refl.
#[local] Instance reads_value_blob : Reads (read_blob MAX_STATE_VALUE_BYTES) _ _ := reads_blob_limit MAX_STATE_VALUE_BYTES eq_refl.
#[local] Instance reads_snapshot_blob : Reads (read_blob MAX_SNAPSHOT_BYTES) _ _ := reads_blob_limit MAX_SNAPSHOT_BYTES eq_refl.
#[local] Instance reads_certificate_blob : Reads (read_blob MAX_CERTIFICATE_BYTES) _ _ := reads_blob_limit MAX_CERTIFICATE_BYTES eq_refl.
#[local] Instance reads_receipts_blob : Reads (read_blob MAX_RECEIPTS_BYTES) _ _ := reads_blob_limit MAX_RECEIPTS_BYTES eq_refl.

(** A fixed-length slice decoded by itself. *)
Lemma reads_exact_of {A : Type} (n : Z) (rd : read A) enc valid `{!Reads rd enc valid} :
  0 <= n < 2 ^ 64 → (∀ v, valid v → len (enc v) = n) →
  Reads (λ d, let? (bs, d) := read_exact n d in let? v := complete rd bs in Ok (v, d)) enc valid.
Proof.
  intros Hn Hlen. split.
  - intros d v ys Hv Hd. destruct (read_exact_fwd n d _ _ (Hlen v Hv) Hd) as (d' & -> & Hd').
    rewrite (complete_fwd rd enc valid) by (rewrite ?Hlen by done; done || lia). close_fwd.
  - intros d v d' zs Hd H. bind_inv H. subst. apply read_exact_inv with (zs := zs) in E as (ys & -> & Hl & Hd'); [|done].
    apply (complete_inv rd enc valid) in E0 as [-> Hv]; [|lia]. eauto.
Qed.

#[local] Instance reads_header_exact : Reads read_header_exact header_canonical_bytes header_ok.
Proof. apply (reads_exact_of 200 read_header header_canonical_bytes header_ok); [lia|apply header_bytes_len]. Qed.

#[local] Instance reads_receipt_exact : Reads read_receipt_exact receipt_canonical_bytes receipt_ok.
Proof. apply (reads_exact_of 97 read_receipt receipt_canonical_bytes receipt_ok); [lia|apply receipt_bytes_len]. Qed.

(** Transactions *)

Definition stored_transaction (t : Transaction) : bytes := encode_bounded (encode_transaction t).
Definition storable (t : Transaction) : Prop := transaction_ok t ∧ len (encode_transaction t) <= ARCHIVE_MAX_TRANSACTION_BYTES.

#[local] Instance reads_transaction : Reads read_transaction stored_transaction storable.
Proof.
  split; unfold read_transaction, stored_transaction.
  - intros d v ys [Hv Hl] Hd. read_fwd; [done|]. rewrite decode_encode_transaction by done. close_fwd.
  - intros d v d' zs Hd H. bind_inv H. read_inv. subst. unfold ARCHIVE_MAX_TRANSACTION_BYTES in *.
    apply decode_transaction_canonical in E0 as [Ht ->]; [|lia]. eexists. split; [done|]. split; [by split|done].
Qed.

Lemma encode_transaction_min t : transaction_ok t → 191 <= len (encode_transaction t).
Proof.
  intros (_ & _ & _ & _ & Hs & _ & Hl & Hk & _ & Hp & Hg).
  unfold encode_transaction, encode_unsigned_transaction. rewrite !len_app, !len_le,
    !len_encode_resources, (len_sized 32 (tx_sender t)), (len_sized 64 (tx_signature t)) by done.
  unfold encode_bytes at 2. rewrite len_app.
  pose proof (len_encode_length_bound (len (tx_access_list t))).
  pose proof (len_encode_length_bound (len (tx_payload t))). pose proof (len_nonneg (tx_payload t)).
  pose proof (len_nonneg (encode_all encode_bytes (tx_access_list t))). change (len (lit "ALTX")) with 4. lia.
Qed.

Lemma encode_all_min {A : Type} (enc : A → bytes) (k : Z) xs :
  Forall (λ x, k <= len (enc x)) xs → k * len xs <= len (encode_all enc xs).
Proof.
  induction 1 as [|x xs Hx _ IH]; [unfold len; cbn; lia|]. cbn [encode_all flat_map]. rewrite len_app, len_cons.
  unfold encode_all in IH. nia.
Qed.

Lemma within_remaining d n k enc ys :
  dview d (enc ++ ys) → 0 < k → k * n <= len enc → (remaining d / k <? n) = false.
Proof.
  intros Hd Hk Hn. rewrite (dview_remaining _ _ Hd), len_app. apply Z.ltb_ge. pose proof (len_nonneg ys).
  apply Z.div_le_lower_bound; lia.
Qed.

Definition block_bytes (b : Block) : bytes :=
  header_canonical_bytes (block_header b) ++ le 8 (len (block_transactions b)) ++ encode_all stored_transaction (block_transactions b).
Definition block_ok (b : Block) : Prop :=
  header_ok (block_header b) ∧ len (block_transactions b) <= ARCHIVE_MAX_TRANSACTIONS ∧ Forall storable (block_transactions b).

#[local] Existing Instance reads_many.

#[local] Instance reads_block : Reads read_block block_bytes block_ok.
Proof.
  split; unfold read_block, block_bytes.
  - intros d [h txs] ys (Hh & Hl & Hall) Hd. cbn [block_header block_transactions] in *. rewrite <- !app_assoc in Hd.
    read_fwd; [done|]. read_fwd; [split; [apply len_nonneg|done]|].
    rewrite (within_remaining _ _ _ _ _ Hd); [|lia|].
    2:{ apply encode_all_min. eapply Forall_impl; [exact Hall|]. intros t [Ht _]. unfold stored_transaction, encode_bounded.
        rewrite len_app, len_le. pose proof (encode_transaction_min t Ht). lia. }
    cbn [reject_if]. replace (Z.to_nat (len txs)) with (length txs) by (unfold len; lia). read_fwd; [done|]. close_fwd.
  - intros d b d' zs Hd H. bind_inv H. guards. read_inv. subst. destruct Hv1 as [Hlen Hall]. eexists. cbn [block_header block_transactions].
    rewrite <- !app_assoc. assert (z = len l) as -> by (unfold len; lia). split; [done|]. split; [|done]. unfold block_ok. cbn [block_header block_transactions]. split_and!; [done|lia|done].
Qed.

(** Changes and diffs *)

Definition change_bytes (c : StateChange) : bytes :=
  match c with
  | Put key value => le 1 1 ++ encode_bounded key ++ encode_bounded value
  | Delete key => le 1 2 ++ encode_bounded key
  end.
Definition change_ok (c : StateChange) : Prop :=
  match c with
  | Put key value => len key <= MAX_STATE_KEY_BYTES ∧ len value <= MAX_STATE_VALUE_BYTES
  | Delete key => len key <= MAX_STATE_KEY_BYTES
  end.

#[local] Instance reads_change : Reads read_change change_bytes change_ok.
Proof.
  split; unfold read_change, change_bytes.
  - intros d [key value|key] ys Hv Hd; rewrite <- !app_assoc in Hd; (read_fwd; [done|]); cbn [Z.eqb Pos.eqb] in *.
    + destruct Hv as [Hk Hv]. read_fwd; [done|]. read_fwd; [done|]. close_fwd.
    + read_fwd; [done|]. close_fwd.
  - intros d c d' zs Hd H. bind_inv H. read_inv. case_in H; bool_props; subst.
    + bind_inv H. read_inv. subst. eexists. rewrite <- !app_assoc. split; [done|]. by split.
    + case_in H; bool_props. simplify_eq. eexists. rewrite <- !app_assoc. by split.
Qed.

Lemma change_bytes_min c : 9 <= len (change_bytes c).
Proof.
  destruct c as [key value|key]; unfold change_bytes, encode_bounded; rewrite !len_app, !len_le;
    [pose proof (len_nonneg key); pose proof (len_nonneg value)|pose proof (len_nonneg key)]; lia.
Qed.

Definition diff_bytes (diff : StateDiff) : bytes := le 8 (len (changes diff)) ++ encode_all change_bytes (changes diff).
Definition diff_ok (diff : StateDiff) : Prop := Forall change_ok (changes diff).
Definition change_count (diffs : list StateDiff) : Z := sumZ (λ d, len (changes d)) diffs.

Lemma change_count_nonneg diffs : 0 <= change_count diffs.
Proof. apply sumZ_nonneg. intros. apply len_nonneg. Qed.

Lemma reads_diffs total n : 0 <= total <= MAX_CHANGES →
  Reads (read_diffs total n) (encode_all diff_bytes) (λ ds, length ds = n ∧ Forall diff_ok ds ∧ total + change_count ds <= MAX_CHANGES).
Proof.
  assert (∀ total, 0 <= total <= MAX_CHANGES → Reads (read_length (MAX_CHANGES - total)) (le 8) (λ n, 0 <= n <= MAX_CHANGES - total)) as Hread
    by (intros; apply reads_length_limit; unfold MAX_CHANGES in *; lia).
  split.
  - revert total H. induction n as [|n IH]; intros total H d [|[cs] ds] ys (Hn & Hall & Hsum) Hd; simplify_eq/=; [close_fwd|].
    apply Forall_cons in Hall as [Hcs Hall]. unfold diff_ok in Hcs. cbn [changes] in Hcs. unfold diff_bytes in Hd. cbn [changes] in Hd.
    rewrite <- !app_assoc in Hd. change (change_count (mkDiff cs :: ds)) with (len cs + change_count ds) in Hsum.
    pose proof (change_count_nonneg ds). pose proof (len_nonneg cs). pose proof (Hread total H) as Hr. read_fwd; [lia|].
    rewrite (within_remaining _ _ _ _ _ Hd); [|lia|].
    2:{ apply encode_all_min, Forall_forall. intros c _. apply change_bytes_min. }
    cbn [reject_if]. replace (Z.to_nat (len cs)) with (length cs) by (unfold len; lia). read_fwd; [done|].
    edestruct (IH (total + len cs) ltac:(lia)) as (d' & -> & Hd'); [|exact Hd|]; [split_and!; [done..|lia]|]. close_fwd.
  - revert total H. induction n as [|n IH]; intros total H d ds d' zs Hd Hr; cbn [read_diffs] in Hr.
    { simplify_eq. exists zs. split; [done|]. split; [|done]. split_and!; [done..|]. cbn. lia. }
    pose proof (Hread total H) as Hinst. bind_inv Hr. guards. read_inv. subst. destruct Hv0 as [Hlen Hcs].
    destruct (IH (total + z) ltac:(lia) _ _ _ _ Hd E2) as (ys' & -> & (Hn & Hall & Hsum) & Hd'). exists ys'.
    assert (z = len l) as Hz by (unfold len; lia). subst z. cbn [encode_all flat_map]. unfold diff_bytes at 1. cbn [changes].
    rewrite <- !app_assoc. split; [done|]. split; [|done]. split_and!; [cbn; lia|by constructor|].
    change (change_count (mkDiff l :: l0)) with (len l + change_count l0). lia.
Qed.

(** Receipts and proofs *)

Definition proof_bytes (p : StateValueProof) : bytes := match value_to_bytes p with Ok bs => bs | Err _ => [] end.
Definition proof_field (p : StateValueProof) : bytes := le 4 (len (proof_bytes p)) ++ proof_bytes p.
Definition proof_ok (limit : Z) (p : StateValueProof) : Prop :=
  value_sized p ∧ is_ok (value_to_bytes p) = true ∧ len (proof_bytes p) <= limit.

Lemma proof_ok_bytes limit p : proof_ok limit p → value_to_bytes p = Ok (proof_bytes p).
Proof. intros (_ & Hp & _). unfold proof_bytes. by destruct (value_to_bytes p). Qed.

Lemma reads_effects_proof limit : limit < 2 ^ 32 → Reads (read_effects_proof limit) proof_field (proof_ok limit).
Proof.
  intros Hl. split; unfold read_effects_proof, proof_field.
  - intros d p ys Hp Hd. rewrite <- app_assoc in Hd. pose proof (len_nonneg (proof_bytes p)). pose proof Hp as (Hs & _ & Hb).
    read_fwd; [unfold fits; lia|]. rewrite (proj2 (Z.ltb_ge _ _)) by lia. cbn [reject_if].
    destruct (read_exact_fwd (len (proof_bytes p)) _ (proof_bytes p) ys eq_refl Hd) as (d' & -> & Hd').
    rewrite (proj2 (value_wire_exact (proof_bytes p) p)) by (split; [done|by eapply proof_ok_bytes]). close_fwd.
  - intros d p d' zs Hd H. bind_inv H. guards. subst. read_inv. apply read_exact_inv with (zs := ys) in E1 as (ys' & -> & Hlen & Hd'); [|done].
    apply map_err_ok in E2. apply value_wire_exact in E2 as [Hs Hb]. exists ys'. unfold proof_ok, proof_bytes. rewrite Hb, Hlen.
    rewrite <- app_assoc. split; [done|]. split; [|done]. split_and!; [done..|lia].
Qed.

#[local] Instance reads_receipts count : 0 <= count <= MAX_BLOCK_RECEIPTS →
  Reads (read_receipts count) (encode_all receipt_canonical_bytes) (λ rs, len rs = count ∧ Forall receipt_ok rs).
Proof.
  intros Hc. assert (∀ rs, Forall receipt_ok rs → len (encode_all receipt_canonical_bytes rs) = len rs * 97) as Hlen.
  { induction 1 as [|r rs Hr _ IH]; [done|]. cbn [encode_all flat_map]. rewrite len_app, len_cons, (receipt_bytes_len r Hr).
    unfold encode_all in IH. lia. }
  unfold MAX_BLOCK_RECEIPTS in *. split; unfold read_receipts.
  - intros d rs ys [Hn Hall] Hd. destruct (read_exact_fwd (count * 97) d _ ys ltac:(rewrite Hlen by done; lia) Hd) as (d' & -> & Hd').
    assert (dview (decoder_new (encode_all receipt_canonical_bytes rs)) (encode_all receipt_canonical_bytes rs ++ [])) as Hv
      by (rewrite app_nil_r; apply dview_new; rewrite Hlen by done; lia).
    replace (Z.to_nat count) with (length rs) by (unfold len in *; lia). read_fwd; [done|]. close_fwd.
  - intros d rs d' zs Hd H. bind_inv H. subst. apply read_exact_inv with (zs := zs) in E as (ys & -> & Hl & Hd'); [|done].
    assert (dview (decoder_new l) l) as Hv by (apply dview_new; lia). read_inv. destruct Hv0 as [Hn Hall]. exists ys.
    rewrite len_app, Hlen in Hl by done. unfold len in *. assert (ys0 = []) as -> by (destruct ys0; [done|cbn in Hl; lia]).
    rewrite app_nil_r. split; [done|]. split; [split; [lia|done]|done].
Qed.

Definition effects_bytes (e : BlockEffects) : bytes :=
  effects_magic e ++ le 4 (len (ef_receipts e)) ++ encode_all receipt_canonical_bytes (ef_receipts e)
  ++ proof_field (ef_genesis e) ++ match effects_authority e with Some p => proof_field p | None => [] end.
Definition authority_limit (e : BlockEffects) : Z := if is_some (ef_potb e) then 12288 else 4096.
Definition effects_ok (e : BlockEffects) : Prop :=
  is_some (ef_committee e) && is_some (ef_potb e) = false ∧ len (ef_receipts e) <= MAX_BLOCK_RECEIPTS
  ∧ Forall receipt_ok (ef_receipts e) ∧ proof_ok 2048 (ef_genesis e)
  ∧ match effects_authority e with Some p => proof_ok (authority_limit e) p | None => True end.

#[local] Instance reads_genesis_proof : Reads (read_effects_proof 2048) _ _ := reads_effects_proof 2048 eq_refl.
#[local] Instance reads_committee_proof : Reads (read_effects_proof 4096) _ _ := reads_effects_proof 4096 eq_refl.
#[local] Instance reads_potb_proof : Reads (read_effects_proof 12288) _ _ := reads_effects_proof 12288 eq_refl.

Lemma magic_2 : bool_decide (lit "ALEFF002" = lit "ALEFFECT") = false.
Proof. by vm_compute. Qed.
Lemma magic_3 : bool_decide (lit "ALEFF003" = lit "ALEFFECT") = false.
Proof. by vm_compute. Qed.
Lemma magic_23 : bool_decide (lit "ALEFF003" = lit "ALEFF002") = false.
Proof. by vm_compute. Qed.

#[local] Instance reads_effects : Reads read_effects effects_bytes effects_ok.
Proof.
  split; unfold read_effects, effects_bytes.
  - intros d [rs g c p] ys (Hboth & Hl & Hall & Hg & Ha) Hd. unfold effects_authority, authority_limit in Ha.
    unfold effects_magic, effects_authority in Hd. cbn [ef_receipts ef_genesis ef_committee ef_potb] in *.
    pose proof (len_nonneg rs). unfold MAX_BLOCK_RECEIPTS in *. pose proof (reads_receipts (len rs) ltac:(unfold MAX_BLOCK_RECEIPTS; lia)) as Hr.
    rewrite <- !app_assoc in Hd.
    destruct c as [c|], p as [p|]; try done; cbn [is_some andb] in *;
      match type of Hd with dview _ (?m ++ _) => change m with (id m) in Hd end;
      (read_fwd; [done|]); unfold id; rewrite ?magic_23, ?magic_2, ?magic_3, ?bool_decide_eq_true_2 by done;
      (read_fwd; [unfold fits; lia|]); rewrite (proj2 (Z.ltb_ge _ _)) by (unfold MAX_BLOCK_RECEIPTS; lia); cbn [reject_if];
      (read_fwd; [done|]); (read_fwd; [done|]); cbn [Z.eqb Pos.eqb]; try (read_fwd; [done|]); close_fwd.
  - intros d e d' zs Hd H. bind_inv H. guards. read_inv.
    pose proof (reads_receipts z ltac:(unfold fits in *; lia)) as Hr. read_inv. destruct Hv1 as [<- Hall].
    repeat (case_in E0; simplify_eq; cbn [Z.eqb Pos.eqb] in H); bool_props; subst; try bind_inv H; read_inv; subst; eexists;
      unfold effects_ok, effects_magic, effects_authority, authority_limit; cbn [ef_receipts ef_genesis ef_committee ef_potb is_some andb];
      rewrite <- !app_assoc; (split; [done|]); (split; [|done]); by split_and!.
Qed.

(** The fields inside their Rust types. *)
Definition effects_typed (e : BlockEffects) : Prop :=
  Forall receipt_ok (ef_receipts e) ∧ value_sized (ef_genesis e)
  ∧ match effects_authority e with Some p => value_sized p | None => True end.

Lemma effects_proof_iff p limit bs : value_sized p → effects_proof p limit = Ok bs ↔ proof_ok limit p ∧ bs = proof_field p.
Proof.
  intros Hs. unfold effects_proof, proof_ok, proof_field, proof_bytes. destruct (value_to_bytes p) as [q|]; cbn [map_err is_ok]; [|naive_solver].
  destruct (Z.ltb_spec limit (len q)); cbn [reject_if]; [|naive_solver]. split; [done|]. intros [(_ & _ & ?) _]. lia.
Qed.

Lemma effects_to_bytes_iff e bs : effects_typed e → effects_to_bytes e = Ok bs ↔ effects_ok e ∧ bs = effects_bytes e.
Proof.
  intros (Hall & Hg & Ha). unfold effects_to_bytes, effects_ok, effects_bytes, authority_limit. split.
  - intros H. bind_inv H. guards. apply effects_proof_iff in E1 as [Hp ->]; [|done]. destruct (effects_authority e) as [p|].
    + apply effects_proof_iff in E2 as [Hq ->]; [|done]. split; [split_and!; try done; lia|done].
    + simplify_eq. split; [split_and!; try done; lia|done].
  - intros [(Hboth & Hl & _ & Hp & Hq) ->]. rewrite Hboth, (proj2 (Z.ltb_ge _ _)) by lia. cbn [reject_if].
    rewrite (proj2 (effects_proof_iff _ _ _ Hg) (conj Hp eq_refl)). destruct (effects_authority e) as [p|]; [|done].
    by rewrite (proj2 (effects_proof_iff _ _ _ Ha) (conj Hq eq_refl)).
Qed.

Lemma effects_bytes_len e : effects_ok e → len (effects_bytes e) <= MAX_RECEIPTS_BYTES.
Proof.
  intros (_ & Hl & Hall & (_ & _ & Hg) & Ha). unfold effects_bytes, proof_field. rewrite !len_app, !len_le.
  assert (len (encode_all receipt_canonical_bytes (ef_receipts e)) = len (ef_receipts e) * 97) as ->.
  { clear -Hall. induction Hall as [|r rs Hr _ IH]; [done|]. cbn [encode_all flat_map]. rewrite len_app, len_cons, (receipt_bytes_len r Hr).
    unfold encode_all in IH. lia. }
  assert (len (effects_magic e) = 8) as -> by (unfold effects_magic; by destruct (is_some (ef_potb e)), (is_some (ef_committee e))).
  assert (len match effects_authority e with Some p => le 4 (len (proof_bytes p)) ++ proof_bytes p | None => [] end <= 12292) as Hauth.
  { destruct (effects_authority e) as [p|]; [|done]. destruct Ha as (_ & _ & Ha). rewrite len_app, len_le. unfold authority_limit in Ha.
    destruct (is_some (ef_potb e)); lia. }
  unfold MAX_RECEIPTS_BYTES, MAX_BLOCK_RECEIPTS in *. lia.
Qed.

Lemma effects_from_bytes_iff bs e : effects_from_bytes bs = Ok e ↔ effects_ok e ∧ bs = effects_bytes e.
Proof.
  unfold effects_from_bytes. split.
  - intros H. bind_inv H. guards. apply map_err_ok in H. apply (complete_inv read_effects effects_bytes effects_ok) in H as [-> He]; [done|].
    unfold MAX_RECEIPTS_BYTES, MAX_BLOCK_RECEIPTS in *. lia.
  - intros [He ->]. pose proof (effects_bytes_len e He) as Hl. rewrite (proj2 (Z.ltb_ge _ _)) by lia. cbn [reject_if].
    rewrite (complete_fwd read_effects effects_bytes effects_ok); [done|done|]. unfold MAX_RECEIPTS_BYTES, MAX_BLOCK_RECEIPTS in *. lia.
Qed.

(** ** Whole records *)

Definition batch_bytes (b : CommitBatch) : bytes :=
  block_bytes (cb_block b) ++ encode_bounded (cb_certificate b) ++ le 8 (len (cb_diffs b)) ++ encode_all diff_bytes (cb_diffs b)
  ++ match cb_effects b with Some e => encode_bounded (effects_bytes e) | None => [] end.
Definition batch_ok (b : CommitBatch) : Prop :=
  block_ok (cb_block b) ∧ validate_block (cb_block b) (cb_certificate b) = Ok tt ∧ len (cb_diffs b) <= MAX_CHANGES
  ∧ Forall diff_ok (cb_diffs b) ∧ change_count (cb_diffs b) <= MAX_CHANGES
  ∧ match cb_effects b with Some e => effects_ok e ∧ effects_validate e (cb_block b) = Ok tt | None => True end.

Definition anchor_bytes (cp : Checkpoint) (s : InMemoryState) : bytes :=
  le 8 (cp_height cp) ++ cp_block cp ++ cp_state_root cp ++ encode_bounded (export_snapshot s).
Definition anchor_ok (cp : Checkpoint) (s : InMemoryState) : Prop :=
  u64 (cp_height cp) ∧ sized 32 (cp_block cp) ∧ sized 32 (cp_state_root cp) ∧ cp_block cp ≠ zero32
  ∧ (∃ m, represents s m) ∧ cp_state_root cp = im_root s.

Definition record_bytes (r : LogRecord) : bytes :=
  match r with
  | RecordAnchor cp s => le 1 0 ++ anchor_bytes cp s
  | RecordBatch b => le 1 (if is_some (cb_effects b) then 2 else 1) ++ batch_bytes b
  end.
Definition record_ok (r : LogRecord) : Prop :=
  match r with RecordAnchor cp s => anchor_ok cp s | RecordBatch b => batch_ok b end.

Lemma snapshot_len s : (∃ m, represents s m) → len (export_snapshot s) <= MAX_SNAPSHOT_BYTES.
Proof. intros [m Hm]. rewrite (represents_export _ _ Hm), map_snapshot_len by apply domain_hash_sized. apply Hm. Qed.

Lemma validated_certificate block certificate : validate_block block certificate = Ok tt → len certificate <= MAX_CERTIFICATE_BYTES.
Proof. unfold validate_block. intros H. bind_inv H. guards. bool_props. lia. Qed.

Lemma batch_reads_fwd tag d b ys :
  (tag =? 2) = is_some (cb_effects b) → batch_ok b → dview d (batch_bytes b ++ ys) →
  ∃ d', read_batch_record tag d = Ok (RecordBatch b, d') ∧ dview d' ys.
Proof.
  intros Htag (Hblock & Hval & Hcount & Hdiffs & Hsum & Heff) Hd. destruct b as [block certificate diffs effects].
  unfold batch_bytes in Hd. cbn [cb_block cb_certificate cb_diffs cb_effects] in *. rewrite <- !app_assoc in Hd. unfold read_batch_record.
  read_fwd; [done|]. read_fwd; [by eapply validated_certificate|]. rewrite Hval. cbn [map_err].
  read_fwd; [split; [apply len_nonneg|done]|]. rewrite (within_remaining _ _ _ _ _ Hd); [|lia|].
  2:{ apply encode_all_min, Forall_forall. intros diff _. unfold diff_bytes. rewrite len_app, len_le.
      pose proof (len_nonneg (encode_all change_bytes (changes diff))). lia. }
  cbn [reject_if]. replace (Z.to_nat (len diffs)) with (length diffs) by (unfold len; lia).
  pose proof (reads_diffs 0 (length diffs) ltac:(unfold MAX_CHANGES; lia)) as Hr. read_fwd; [done|]. rewrite Htag.
  destruct effects as [e|]; cbn [is_some]; [|close_fwd]. destruct Heff as [He Hv]. read_fwd; [by apply effects_bytes_len|].
  rewrite (proj2 (effects_from_bytes_iff _ e)) by done. cbn [map_err]. rewrite Hv. close_fwd.
Qed.

Lemma batch_reads_inv tag d r d' zs :
  dview d zs → read_batch_record tag d = Ok (r, d') →
  ∃ b ys, r = RecordBatch b ∧ (tag =? 2) = is_some (cb_effects b) ∧ zs = batch_bytes b ++ ys ∧ batch_ok b ∧ dview d' ys.
Proof.
  intros Hd H. unfold read_batch_record in H. bind_inv H. guards. read_inv.
  pose proof (reads_diffs 0 (Z.to_nat z) ltac:(unfold MAX_CHANGES; lia)) as Hr. read_inv. destruct Hv2 as (Hn & Hdiffs & Hsum).
  apply map_err_ok in E1. destruct a. assert (z = len l0) as -> by (unfold len; lia).
  case_in H.
  - bind_inv H. read_inv.
    match goal with E : map_err _ (effects_from_bytes _) = Ok _ |- _ => apply map_err_ok, effects_from_bytes_iff in E as [He ->] end.
    match goal with E : map_err _ (effects_validate _ _) = Ok ?u |- _ => apply map_err_ok in E; destruct u end.
    simplify_eq. eexists _, _. split; [done|]. unfold batch_bytes, batch_ok. cbn [cb_block cb_certificate cb_diffs cb_effects is_some].
    rewrite <- !app_assoc. split; [done|]. split; [done|]. split; [|done]. split_and!; try done; lia.
  - simplify_eq. eexists _, _. split; [done|]. unfold batch_bytes, batch_ok. cbn [cb_block cb_certificate cb_diffs cb_effects is_some].
    rewrite <- ?app_assoc. split; [done|]. split; [by simplify_list_eq|]. split; [|done]. split_and!; try done; lia.
Qed.

Lemma anchor_reads_fwd d cp s ys :
  anchor_ok cp s → dview d (anchor_bytes cp s ++ ys) → ∃ d', read_anchor_record d = Ok (RecordAnchor cp s, d') ∧ dview d' ys.
Proof.
  intros (Hh & Hb & Hr & Hz & Hs & Hroot) Hd. destruct cp as [height block root]. unfold anchor_bytes in Hd.
  cbn [cp_height cp_block cp_state_root] in *. rewrite <- !app_assoc in Hd. unfold read_anchor_record.
  read_fwd; [done|]. read_fwd; [done|]. read_fwd; [done|].
  unfold hash_is_zero. rewrite bool_decide_eq_false_2 by done. cbn [reject_if].
  read_fwd; [by apply snapshot_len|]. rewrite (proj2 (from_snapshot_spec _ _ s)) by done. cbn [map_err]. close_fwd.
Qed.

Lemma anchor_reads_inv d r d' zs :
  dview d zs → read_anchor_record d = Ok (r, d') →
  ∃ cp s ys, r = RecordAnchor cp s ∧ zs = anchor_bytes cp s ++ ys ∧ anchor_ok cp s ∧ dview d' ys.
Proof.
  intros Hd H. unfold read_anchor_record in H. bind_inv H. guards. read_inv.
  match goal with E : map_err _ (from_snapshot _ _) = Ok _ |- _ => apply map_err_ok, from_snapshot_spec in E as (Hs & -> & ->) end.
  simplify_eq. eexists _, _, _. split; [done|]. unfold anchor_bytes, anchor_ok. cbn [cp_height cp_block cp_state_root].
  rewrite <- !app_assoc. split; [done|]. split; [|done]. split_and!; try done. by apply bool_decide_eq_false in E2.
Qed.

#[local] Instance reads_log_record : Reads read_log_record record_bytes record_ok.
Proof.
  split; unfold read_log_record.
  - intros d r ys Hok Hd. destruct r as [cp s|b]; cbn [record_bytes record_ok] in *; rewrite <- app_assoc in Hd; read_fwd;
      try (unfold fits; destruct (is_some (cb_effects b)); lia); try (unfold fits; lia).
    + by apply anchor_reads_fwd.
    + destruct (is_some (cb_effects b)) eqn:He; cbn; apply batch_reads_fwd; rewrite ?He; done.
  - intros d r d' zs Hd H. bind_inv H. read_inv. case_in H.
    + apply (anchor_reads_inv _ _ _ _ Hd0) in H as (cp & s & ys' & -> & -> & Hok & Hd').
      exists ys'. cbn [record_bytes record_ok]. rewrite <- app_assoc. bool_props. by subst.
    + case_in H. apply (batch_reads_inv _ _ _ _ _ Hd0) in H as (b & ys' & -> & Htag & -> & Hok & Hd').
      exists ys'. cbn [record_bytes record_ok]. rewrite <- app_assoc, <- Htag. split; [|done]. f_equal. f_equal.
      destruct (Z.eqb_spec z 2); [done|]. by destruct (Z.eqb_spec z 1).
Qed.

Lemma decode_record_iff bs r : decode_record bs = Ok r ↔ record_ok r ∧ bs = record_bytes r ∧ len bs <= MAX_RECORD_BYTES.
Proof.
  unfold decode_record. split.
  - intros H. bind_inv H. guards. apply map_err_ok in H. apply (complete_inv read_log_record record_bytes record_ok) in H as [-> He]; [done|].
    unfold MAX_RECORD_BYTES in *. lia.
  - intros (He & -> & Hl). rewrite (proj2 (Z.ltb_ge _ _)) by lia. cbn [reject_if].
    rewrite (complete_fwd read_log_record record_bytes record_ok); [done|done|]. unfold MAX_RECORD_BYTES in *. lia.
Qed.

(** ** Writing *)

(** A bounded writer appends the encoding of a valid value, when it fits. *)
Class Writes {A : Type} (w : bytes → A → result bytes StorageError) (enc : A → bytes) (valid : A → Prop) : Prop :=
  writes out x out' : len out <= MAX_RECORD_BYTES →
    w out x = Ok out' ↔ valid x ∧ out' = out ++ enc x ∧ len out' <= MAX_RECORD_BYTES.

#[local] Instance writes_append : Writes w_append id (λ _, True).
Proof.
  intros out x out' Hl. unfold w_append. destruct (Z.ltb_spec (MAX_RECORD_BYTES - len out) (len x)); unfold id.
  - split; [done|]. intros (_ & -> & Hn). rewrite len_app in Hn. lia.
  - split; [intros [= <-]|naive_solver]. rewrite len_app. split; [done|]. split; [done|lia].
Qed.


Lemma writes_then {A C : Type} (w : bytes → A → result bytes StorageError) enc valid `{Hw : !Writes w enc valid}
    (x : A) (k : bytes → result C StorageError) out (res : C) :
  len out <= MAX_RECORD_BYTES →
  (let? out' := w out x in k out') = Ok res ↔ valid x ∧ len (out ++ enc x) <= MAX_RECORD_BYTES ∧ k (out ++ enc x) = Ok res.
Proof.
  intros Hl. split.
  - intros H. bind_inv H. apply Hw in E as (Hv & -> & Hn); done.
  - intros (Hv & Hn & Hk). by rewrite (proj2 (Hw out x _ Hl) (conj Hv (conj eq_refl Hn))).
Qed.

(** Two fields written one after the other. *)
Lemma writes_pair {A B : Type} (w : bytes → A → result bytes StorageError) (w' : bytes → B → result bytes StorageError)
    enc valid enc' valid' `{Hw : !Writes w enc valid} `{Hw' : !Writes w' enc' valid'} (x : A) (y : B) out res :
  len out <= MAX_RECORD_BYTES →
  (let? out' := w out x in w' out' y) = Ok res
  ↔ (valid x ∧ valid' y) ∧ res = out ++ enc x ++ enc' y ∧ len res <= MAX_RECORD_BYTES.
Proof.
  intros Hl. rewrite (writes_then w enc valid) by done. split.
  - intros (Hv & Hn & Hk). apply Hw' in Hk as (Hv' & -> & Hn'); [|done]. rewrite <- app_assoc in *. done.
  - intros ([Hv Hv'] & -> & Hn). rewrite app_assoc in Hn. split; [done|].
    assert (len (out ++ enc x) <= MAX_RECORD_BYTES) by (rewrite len_app in Hn; pose proof (len_nonneg (enc' y)); lia).
    split; [done|]. apply Hw'; [done|]. by rewrite app_assoc.
Qed.

#[local] Instance writes_number : Writes w_number (le 8) (λ _, True).
Proof. intros out x out' Hl. by apply writes_append. Qed.

#[local] Instance writes_blob : Writes w_blob encode_bounded (λ _, True).
Proof. intros out x out' Hl. unfold w_blob. rewrite (writes_pair w_number w_append (le 8) (λ _, True) id (λ _, True)) by done. naive_solver. Qed.

#[local] Instance writes_each {A : Type} (w : bytes → A → result bytes StorageError) enc valid :
  Writes w enc valid → Writes (w_each w) (encode_all enc) (Forall valid).
Proof.
  intros Hw out xs. revert out. induction xs as [|x xs IH]; intros out out' Hl; cbn [w_each encode_all flat_map].
  - rewrite app_nil_r. split; [intros [= <-]; by split|]. by intros (_ & -> & _).
  - rewrite Forall_cons, (writes_then w enc valid) by done. split.
    + intros (Hv & Hn & Hk). apply IH in Hk as (Hall & -> & Hn'); [|done]. rewrite <- app_assoc in *. done.
    + intros ([Hv Hall] & -> & Hn). rewrite app_assoc in Hn |- *.
      assert (len (out ++ enc x) <= MAX_RECORD_BYTES) by (rewrite len_app in Hn; pose proof (len_nonneg (flat_map enc xs)); lia).
      split; [done|]. split; [done|]. by apply IH.
Qed.

#[local] Instance writes_change : Writes w_change change_bytes change_ok.
Proof.
  intros out c out' Hl. unfold w_change. destruct c as [key value|key]; cbn [change_key change_bytes change_ok].
  - destruct (Z.ltb_spec MAX_STATE_KEY_BYTES (len key)); cbn [reject_if]; [split; [done|lia]|].
    rewrite (writes_then w_append id (λ _, True)) by done. unfold id. change [byte_of 1] with (le 1 1). split.
    + intros (_ & Hn & Hk). bind_inv Hk. guards. apply writes_blob in E as (_ & -> & Hn'); [|done].
      apply writes_blob in Hk as (_ & -> & Hn''); [|done]. rewrite <- !app_assoc in *. done.
    + intros ([_ Hv] & -> & Hn). rewrite !len_app in Hn. pose proof (len_nonneg (encode_bounded key)). pose proof (len_nonneg (encode_bounded value)).
      split; [done|]. rewrite len_app. split; [lia|]. rewrite (proj2 (Z.ltb_ge _ _)) by lia. cbn [reject_if].
      apply (writes_pair w_blob w_blob encode_bounded (λ _, True) encode_bounded (λ _, True)); rewrite ?len_app; [lia|].
      rewrite <- !app_assoc, ?len_app. split; [done|]. split; [done|lia].
  - destruct (Z.ltb_spec MAX_STATE_KEY_BYTES (len key)); cbn [reject_if]; [split; [done|lia]|].
    change [byte_of 2] with (le 1 2).
    rewrite (writes_then w_append id (λ _, True)) by done. unfold id. split.
    + intros (_ & Hn & Hk). rewrite (writes_then w_blob encode_bounded (λ _, True)) in Hk by done. destruct Hk as (_ & Hn' & [= <-]).
      rewrite <- !app_assoc in *. done.
    + intros (_ & -> & Hn). rewrite app_assoc in Hn. pose proof Hn as Hn'. rewrite len_app in Hn'. pose proof (len_nonneg (encode_bounded key)).
      split; [done|]. split; [lia|]. rewrite (writes_then w_blob encode_bounded (λ _, True)) by lia. by rewrite app_assoc.
Qed.

Lemma writes_diffs total : 0 <= total <= MAX_CHANGES →
  Writes (w_diffs total) (encode_all diff_bytes) (λ ds, Forall diff_ok ds ∧ total + change_count ds <= MAX_CHANGES).
Proof.
  intros Ht out ds. revert total Ht out. induction ds as [|[cs] ds IH]; intros total Ht out out' Hl; cbn [w_diffs encode_all flat_map changes].
  - rewrite app_nil_r. split; [intros [= <-]; split_and!; [done|cbn; lia|done..]|]. by intros (_ & -> & _).
  - change (change_count (mkDiff cs :: ds)) with (len cs + change_count ds). unfold diff_bytes at 1. cbn [changes].
    pose proof (change_count_nonneg ds). pose proof (len_nonneg cs). rewrite Forall_cons. unfold diff_ok at 1. cbn [changes].
    unfold checked_add. destruct (Z.ltb_spec (total + len cs) (2 ^ 64)); cbn [ok_or].
    2:{ split; [done|]. unfold MAX_CHANGES. lia. }
    destruct (Z.ltb_spec MAX_CHANGES (total + len cs)); cbn [reject_if]; [split; [done|lia]|].
    rewrite (writes_then w_number (le 8) (λ _, True)) by done. split.
    + intros (_ & Hn & Hk). bind_inv Hk. apply (writes_each w_change change_bytes change_ok _) in E as (Hcs & -> & Hn'); [|done].
      apply IH in Hk as ((Hall & Hsum) & -> & Hn''); [|lia|done]. rewrite <- !app_assoc in *. split_and!; try done. lia.
    + intros (([Hcs Hall] & Hsum) & -> & Hn). rewrite <- !app_assoc in Hn. rewrite !len_app in Hn.
      pose proof (len_nonneg (encode_all change_bytes cs)). pose proof (len_nonneg (flat_map diff_bytes ds)).
      split; [done|]. rewrite len_app. split; [lia|].
      rewrite (writes_then (w_each w_change) (encode_all change_bytes) (Forall change_ok)) by (rewrite len_app; lia).
      rewrite !len_app. split; [done|]. split; [lia|]. apply IH; [lia|rewrite !len_app; lia|].
      rewrite <- !app_assoc, !len_app. split; [split; [done|lia]|]. split; [done|]. unfold encode_all in *. lia.
Qed.

(** *** The transactions a block may hold *)

(** The fields inside their Rust types. *)
Definition transaction_typed (t : Transaction) : Prop :=
  u64 (tx_expires_at t) ∧ resources_ok (tx_resource_prices t) ∧ u32 (tx_chain_id t) ∧ sized 32 (tx_sender t)
  ∧ u64 (tx_nonce t) ∧ resources_ok (tx_resource_limit t) ∧ sized 64 (tx_signature t).
Definition block_typed (b : Block) : Prop :=
  header_ok (block_header b) ∧ Forall transaction_typed (block_transactions b).

Lemma validated_transactions size txs :
  Forall transaction_typed txs → validate_transactions size txs = Ok tt → Forall storable txs.
Proof.
  intros Hall. revert size. induction Hall as [|t txs (He & Hp & Hc & Hs & Hn & Hr & Hg) _ IH]; intros size H; [constructor|].
  cbn [validate_transactions] in H. bind_inv H. guards. constructor; [|by eapply IH].
  rename H0 into Hl, H3 into Hk, H2 into Hpl, H1 into Hest.
  assert (Forall (λ k, len k <= MAX_STATE_KEY_LEN) (tx_access_list t)) as Hkeys.
  { apply Forall_forall. intros key Hin. apply Z.ltb_ge, not_true_iff_false. intros Hbad. apply not_true_iff_false in Hk. apply Hk.
    apply existsb_exists. exists key. by rewrite <- list_elem_of_In. }
  destruct (encoded_len_total t Hl Hkeys Hpl) as [n Elen]. unfold estimate_encoded_len in Hest. rewrite Elen in Hest.
  apply encoded_len_exact in Elen as [-> _]; [|done..]. split; [|done]. by split_and!.
Qed.

Lemma validated_block b certificate :
  block_typed b → validate_block b certificate = Ok tt → block_ok b.
Proof.
  intros [Hh Hall] H. unfold validate_block in H. bind_inv H. guards. bool_props. destruct a0.
  split_and!; [done..|]. by eapply validated_transactions.
Qed.

(** *** The specification of the encoders *)

Definition batch_typed (b : CommitBatch) : Prop :=
  block_typed (cb_block b) ∧ match cb_effects b with Some e => effects_typed e | None => True end.

Lemma encode_all_stored out txs :
  w_each (λ out t, w_blob out (encode_transaction t)) out txs = w_each w_blob out (map encode_transaction txs).
Proof.
  revert out. induction txs as [|t txs IH]; intros out; [done|]. cbn [w_each map]. destruct (w_blob out _); [|done]. apply IH.
Qed.

#[local] Instance writes_transactions :
  Writes (w_each (λ out t, w_blob out (encode_transaction t))) (encode_all stored_transaction) (λ _, True).
Proof.
  intros out txs out' Hl. rewrite encode_all_stored, (writes_each w_blob encode_bounded (λ _, True) _ out _ out' Hl).
  assert (encode_all encode_bounded (map encode_transaction txs) = encode_all stored_transaction txs) as ->
    by (induction txs as [|t txs IH]; [done|]; cbn [map encode_all flat_map]; unfold encode_all in IH; by rewrite IH).
  split; [naive_solver|]. intros (_ & H & Hn). split; [|done]. by apply Forall_true.
Qed.

Definition tail_bytes (b : CommitBatch) : bytes :=
  match cb_effects b with Some e => encode_bounded (effects_bytes e) | None => [] end.

Lemma encode_tail b out res :
  batch_typed b → len out <= MAX_RECORD_BYTES →
  match cb_effects b with Some e => let? bs := effects_to_bytes e in w_blob out bs | None => Ok out end = Ok res
  ↔ match cb_effects b with Some e => effects_ok e | None => True end ∧ res = out ++ tail_bytes b ∧ len res <= MAX_RECORD_BYTES.
Proof.
  intros [_ Ht] Hl. unfold tail_bytes. destruct (cb_effects b) as [e|].
  - split.
    + intros H. bind_inv H. apply effects_to_bytes_iff in E as [He ->]; [|done]. by apply writes_blob in H as (_ & -> & Hn).
    + intros (He & -> & Hn). rewrite (proj2 (effects_to_bytes_iff e _ Ht) (conj He eq_refl)). by apply writes_blob.
  - rewrite app_nil_r. naive_solver.
Qed.


(** A writer goes on when the whole record fits. *)
Lemma writes_ok {A : Type} (w : bytes → A → result bytes StorageError) enc valid `{Hw : !Writes w enc valid} x out rest total :
  len total <= MAX_RECORD_BYTES → total = (out ++ enc x) ++ rest → valid x → w out x = Ok (out ++ enc x).
Proof.
  intros Hn -> Hv. rewrite !len_app in Hn. pose proof (len_nonneg (enc x)). pose proof (len_nonneg rest).
  apply Hw; [lia|]. rewrite len_app. split; [done|]. split; [done|lia].
Qed.
Ltac put w enc valid Htotal :=
  match goal with |- context [w ?o ?x] => erewrite (writes_ok w enc valid x o); [|eassumption|rewrite Htotal; unfold id; rewrite <- ?app_assoc; reflexivity|try done] end.

Lemma encode_batch_iff b bs :
  batch_typed b →
  encode_batch b = Ok bs ↔ batch_ok b ∧ bs = record_bytes (RecordBatch b) ∧ len bs <= MAX_RECORD_BYTES.
Proof.
  intros Hb. pose proof (writes_diffs 0 ltac:(unfold MAX_CHANGES; lia)) as Hdiffs.
  unfold encode_batch. cbn [record_bytes]. unfold batch_bytes. fold (tail_bytes b). split.
  - intros H. bind_inv H. guards. destruct a, a0.
    apply writes_append in E1 as (_ & -> & H1); [|done]. apply writes_number in E2 as (_ & -> & H2); [|done].
    apply writes_transactions in E3 as (_ & -> & H3); [|done]. apply writes_blob in E4 as (_ & -> & H4); [|done].
    apply writes_number in E6 as (_ & -> & H6); [|done]. apply Hdiffs in E7 as ((Hall & Hsum) & -> & H7); [|done].
    apply encode_tail in H as (He & -> & Hn); [|done..]. split; [|split; [|done]].
    + split; [by eapply validated_block; [apply Hb|]|]. split_and!; try done. by destruct (cb_effects b).
    + unfold block_bytes, id. rewrite <- !app_assoc. done.
  - intros ((Hok & Hval & Hlen & Hall & Hsum & Heff) & -> & Hn). rewrite Hval.
    replace (match cb_effects b with Some effects => effects_validate effects (cb_block b) | None => Ok tt end) with (Ok (E := StorageError) tt)
      by (destruct (cb_effects b); [by destruct Heff as [_ ->]|done]).
    remember (le 1 _ ++ _) as total eqn:Htotal in Hn. unfold block_bytes in Htotal. rewrite <- !app_assoc in Htotal.
    change [byte_of ?n] with (le 1 n). put w_append (@id bytes) (λ _ : bytes, True) Htotal. put w_number (le 8) (λ _ : Z, True) Htotal.
    put (w_each (λ out t, w_blob out (encode_transaction t))) (encode_all stored_transaction) (λ _ : list Transaction, True) Htotal.
    put w_blob encode_bounded (λ _ : bytes, True) Htotal. rewrite (proj2 (Z.ltb_ge _ _)) by done. cbn [reject_if].
    put w_number (le 8) (λ _ : Z, True) Htotal.
    put (w_diffs 0) (encode_all diff_bytes) (λ ds, Forall diff_ok ds ∧ 0 + change_count ds <= MAX_CHANGES) Htotal.
    apply encode_tail; [done| |].
    + subst total. unfold id. rewrite !len_app in *. pose proof (len_nonneg (tail_bytes b)). lia.
    + split; [by destruct (cb_effects b); [destruct Heff|]|]. split; [|by subst total; unfold block_bytes; rewrite <- !app_assoc].
      unfold block_bytes, id. by rewrite <- !app_assoc.
Qed.

Lemma encode_anchor_ok cp s : anchor_ok cp s → encode_anchor cp s = Ok (record_bytes (RecordAnchor cp s)).
Proof.
  intros (Hh & Hb & Hr & _ & Hs & _). cbn [record_bytes]. pose proof (snapshot_len s Hs) as Hl.
  remember (le 1 0 ++ anchor_bytes cp s) as total eqn:Htotal. unfold anchor_bytes in Htotal.
  assert (len total <= MAX_RECORD_BYTES) as Hn.
  { subst total. unfold encode_bounded. rewrite !len_app, !len_le, (len_sized 32 (cp_block cp)), (len_sized 32 (cp_state_root cp)) by done.
    unfold MAX_SNAPSHOT_BYTES, MAX_RECORD_BYTES in *. lia. }
  unfold encode_anchor. change [byte_of 0] with (le 1 0).
  put w_append (@id bytes) (λ _ : bytes, True) Htotal. put w_append (@id bytes) (λ _ : bytes, True) Htotal.
  put w_append (@id bytes) (λ _ : bytes, True) Htotal. apply writes_blob; unfold id.
  - subst total. rewrite !len_app in *. pose proof (len_nonneg (encode_bounded (export_snapshot s))). lia.
  - split; [done|]. split; [|done]. subst total. by rewrite <- !app_assoc.
Qed.

Lemma anchor_fits cp s : anchor_ok cp s → len (record_bytes (RecordAnchor cp s)) <= MAX_RECORD_BYTES.
Proof.
  intros (Hh & Hb & Hr & _ & Hs & _). cbn [record_bytes]. pose proof (snapshot_len s Hs) as Hl. unfold anchor_bytes, encode_bounded.
  rewrite !len_app, !len_le, (len_sized 32 (cp_block cp)), (len_sized 32 (cp_state_root cp)) by done.
  unfold MAX_SNAPSHOT_BYTES, MAX_RECORD_BYTES in *. lia.
Qed.

Lemma batch_ok_typed b : batch_ok b → batch_typed b.
Proof.
  intros (Hok & _ & _ & _ & _ & He). split.
  - destruct Hok as (Hh & _ & Hall). split; [done|]. eapply Forall_impl; [exact Hall|]. intros t [(?&?&?&?&?&?&?&?&?&?&?) _]. by split_and!.
  - destruct (cb_effects b) as [e|]; [|done]. destruct He as [(_ & _ & Hr & Hg & Ha) _]. split; [done|]. split; [apply Hg|].
    destruct (effects_authority e); [apply Ha|done].
Qed.

(** C39: Log records are canonical: a record decodes to a batch exactly when the batch,
    with its block and effects validated, encodes to those bytes, and to an anchor
    exactly when the anchor, its snapshot hashing to the checkpoint's root, does; so a
    decoded record has one encoding and every record the encoder accepts is read back. *)
Theorem records_exact bs b cp s :
  (decode_record bs = Ok (RecordBatch b) ↔ batch_typed b ∧ encode_batch b = Ok bs)
  ∧ (decode_record bs = Ok (RecordAnchor cp s) ↔ anchor_ok cp s ∧ encode_anchor cp s = Ok bs).
Proof.
  rewrite !decode_record_iff. split.
  - split.
    + intros (Hok & -> & Hn). pose proof (batch_ok_typed b Hok). split; [done|]. by apply encode_batch_iff.
    + intros [Ht He]. by apply encode_batch_iff in He.
  - split.
    + intros (Hok & -> & _). split; [done|]. by apply encode_anchor_ok.
    + intros [Hok He]. rewrite (encode_anchor_ok cp s Hok) in He. injection He as <-. split; [done|]. split; [done|]. by apply anchor_fits.
Qed.
End reads.
