(* ===== verification/StoreHistory.v ===== *)
(** * StoreHistory: reading recent states back
    ([src/crates/storage/src/history.rs])

    The store keeps the newest state and, for the last blocks, what each block replaced.
    A past state is rebuilt by collecting the replaced values back to the asked height,
    deleting every collected key and putting the old values, under one root check.  The
    index is bounded in blocks, bytes and changes and forgets the oldest blocks first. *)

From S2P Require Import Prelude Ordered Codec Types State StateTree StoreRecords.

(** ** The index *)

Definition MAX_STATE_HISTORY_BLOCKS : Z := 64.
Definition MAX_STATE_HISTORY_BYTES : Z := 32 * 1024 * 1024.
Definition MAX_STATE_HISTORY_CHANGES : Z := 65536.

Record Undo := mkUndo {
  ud_before : Checkpoint;
  ud_after : Checkpoint;
  ud_diff : StateDiff;
  ud_bytes : Z
}.

Record StateHistory := mkHistory {
  hs_entries : list Undo;
  hs_bytes : Z;
  hs_changes : Z
}.

Definition history_default : StateHistory := mkHistory [] 0 0.

Section history.
Context {blake : Blake2s} {arcs : Arcs}.

(** The loop of [capture]: the keys seen, the reverse diff and its accounted size.
    [None] when a bound is exceeded. *)
Fixpoint capture_loop (state : InMemoryState) (keys : BTreeSet StateKey) (diff : StateDiff) (size : Z)
    (cs : list StateChange) : option (StateDiff * Z) :=
  match cs with
  | [] => Some (diff, size)
  | c :: cs =>
      let key := change_key c in
      let '(fresh, keys) := set_insert key keys in
      if fresh then
        let previous := state_get state key in
        size ← checked_add 64 size (64 + len key + match previous with Some value => len value | None => 0 end);
        if (MAX_STATE_HISTORY_BYTES <? size) || (MAX_STATE_HISTORY_CHANGES <? len keys) then None
        else capture_loop state keys
               match previous with Some value => diff_put diff key value | None => diff_delete diff key end size cs
      else capture_loop state keys diff size cs
  end.

Definition capture (before after : Checkpoint) (state : InMemoryState) (diffs : list StateDiff) : option Undo :=
  '(diff, size) ← capture_loop state [] diff_new 160 (all_changes diffs);
  Some (mkUndo before after diff size).

(** [while over { entries.pop_front().expect(..) }]: [None] is the panic. *)
Fixpoint evict (entries : list Undo) (size changed : Z) : option StateHistory :=
  if (MAX_STATE_HISTORY_BLOCKS <? len entries) || (MAX_STATE_HISTORY_BYTES <? size)
     || (MAX_STATE_HISTORY_CHANGES <? changed)
  then match entries with
       | [] => None
       | removed :: entries => evict entries (size - ud_bytes removed) (changed - len (changes (ud_diff removed)))
       end
  else Some (mkHistory entries size changed).

Definition history_record (h : StateHistory) (before : option Checkpoint) (after : Checkpoint) (state : InMemoryState)
    (diffs : list StateDiff) : option StateHistory :=
  match before with
  | None => Some history_default
  | Some before =>
      match capture before after state diffs with
      | None => Some history_default
      | Some undo => evict (hs_entries h ++ [undo]) (hs_bytes h + ud_bytes undo) (hs_changes h + len (changes (ud_diff undo)))
      end
  end.

Definition history_floor (h : StateHistory) (head : Z) : Z :=
  match hs_entries h with undo :: _ => cp_height (ud_before undo) | [] => head end.

Fixpoint truncate_entries (floor : Z) (entries : list Undo) (size changed : Z) : StateHistory :=
  match entries with
  | removed :: rest =>
      if cp_height (ud_before removed) <? floor
      then truncate_entries floor rest (size - ud_bytes removed) (changed - len (changes (ud_diff removed)))
      else mkHistory entries size changed
  | [] => mkHistory [] size changed
  end.
Definition truncate_below (h : StateHistory) (floor : Z) : StateHistory :=
  truncate_entries floor (hs_entries h) (hs_bytes h) (hs_changes h).

(** The values one undo entry restores; [None] for a key that was absent. *)
Definition collect_value (values : BTreeMap StateKey (option bytes)) (c : StateChange) : BTreeMap StateKey (option bytes) :=
  bt_insert (change_key c) match c with Put _ value => Some value | Delete _ => None end values.

(** Every collected key is deleted before the old values are put. *)
Definition restore_diff (values : BTreeMap StateKey (option bytes)) : StateDiff :=
  mkDiff (map Delete (bt_keys values)
          ++ flat_map (λ kv, match snd kv with Some value => [Put (fst kv) value] | None => [] end) values).

(** The walk of [read] from the newest entry. *)
Fixpoint read_back (height : Z) (state : InMemoryState) (entries : list Undo) (values : BTreeMap StateKey (option bytes))
    (checkpoint : Checkpoint) : result (option (Checkpoint * InMemoryState)) StorageError :=
  match entries with
  | [] => Err StoreCorrupt
  | undo :: entries =>
      let? _ := reject_if (negb (bool_decide (checkpoint = ud_after undo))) StoreCorrupt in
      let values := fold_left collect_value (changes (ud_diff undo)) values in
      let checkpoint := ud_before undo in
      if cp_height checkpoint =? height then
        let '(state, committed) := commit_verified state (im_root state) [restore_diff values] (cp_state_root checkpoint) in
        let? _ := map_err (λ _, StoreCorrupt) committed in
        Ok (Some (checkpoint, state))
      else read_back height state entries values checkpoint
  end.

Definition history_read (h : StateHistory) (height : Z) (current : option Checkpoint) (state : InMemoryState)
    : result (option (Checkpoint * InMemoryState)) StorageError :=
  match current with
  | None => Ok None
  | Some checkpoint =>
      if (cp_height checkpoint <? height) || (height <? history_floor h (cp_height checkpoint)) then Ok None
      else if height =? cp_height checkpoint then Ok (Some (checkpoint, state))
      else read_back height state (rev (hs_entries h)) [] checkpoint
  end.
End history.

(** ** Restoring a map *)

Section restore.
Context {blake : Blake2s} {arcs : Arcs}.
Implicit Types m : StateMap.

Definition submap m m' : Prop := ∀ k v, bt_get k m = Some v → bt_get k m' = Some v.

(** A part of a map is no larger than the map. *)
Lemma submap_sizes m m' : bt_ok m → bt_ok m' → submap m m' → len m <= len m' ∧ map_size m <= map_size m'.
Proof.
  intros Hm Hm' Hsub.
  assert (m ⊆+ m') as Hs.
  { apply NoDup_submseteq; [by apply NoDup_fmap_1 with (f := fst), bt_ok_nodup|].
    intros [k v] Hin. by apply bt_get_some_in, Hsub, bt_in_get. }
  apply submseteq_Permutation in Hs as [k Hk]. rewrite (map_size_perm _ _ Hk). unfold len, map_size.
  rewrite (Permutation_length Hk), length_app, sumZ_app.
  assert (0 <= sumZ (λ kv, entry_size (fst kv) (snd kv)) k) by (apply sumZ_nonneg; intros; apply entry_size_nonneg). lia.
Qed.

Lemma stage_deletes m ks :
  bounded m → Forall (λ k, len k <= MAX_STATE_KEY_BYTES) ks →
  ∃ m1, try_fold stage_step (m, map_size m) (map Delete ks) = Ok (m1, map_size m1) ∧ bounded m1
        ∧ ∀ k, bt_get k m1 = if decide (k ∈ ks) then None else bt_get k m.
Proof.
  intros Hm Hks. revert m Hm. induction Hks as [|k ks Hk _ IH]; intros m Hm.
  { exists m. split; [done|]. split; [done|]. intros k. by rewrite decide_False by (by intros ?%elem_of_nil). }
  assert (∃ m0, stage_step (m, map_size m) (Delete k) = Ok (m0, map_size m0) ∧ bounded m0 ∧ m0 = bt_remove k m) as (m0 & Hstep & Hm0 & ->).
  { assert (∃ p, stage_step (m, map_size m) (Delete k) = Ok p) as [[m0 size] Hp].
    { cbn [stage_step change_key]. rewrite (proj2 (Z.ltb_ge _ _)) by done. cbn [reject_if]. destruct (bt_get k m); eauto. }
    destruct (stage_step_ok m _ _ m0 size Hm eq_refl Hp) as (Hb & -> & ->). by exists (bt_remove k m). }
  destruct (IH _ Hm0) as (m1 & Hfold & Hm1 & Hget). exists m1. cbn [map try_fold]. rewrite Hstep. split; [done|]. split; [done|].
  intros k'. rewrite Hget. destruct (decide (k' ∈ ks)) as [Hin|Hin]; [by rewrite decide_True by (by right)|].
  destruct (decide (k' = k)) as [->|Hne].
  - rewrite decide_True by (by left). by apply bt_get_remove_eq, Hm.
  - rewrite decide_False by (by intros [?|?]%elem_of_cons). by apply bt_get_remove_ne.
Qed.

Lemma stage_put m m' k v :
  bounded m → bounded m' → submap m m' → bt_get k m = None → bt_get k m' = Some v →
  stage_step (m, map_size m) (Put k v) = Ok (bt_insert k v m, map_size (bt_insert k v m)) ∧ submap (bt_insert k v m) m'
  ∧ bounded (bt_insert k v m).
Proof.
  intros Hm Hm' Hsub Hnone Hk.
  assert (submap (bt_insert k v m) m') as Hsub'.
  { intros k' v' Hg. destruct (decide (k' = k)) as [->|Hne]; [rewrite bt_get_insert_eq in Hg; congruence|].
    rewrite bt_get_insert_ne in Hg by done. by apply Hsub. }
  pose proof (bt_ok_insert k v m (proj1 Hm)) as Hok.
  destruct (submap_sizes _ _ Hok (proj1 Hm') Hsub') as [Hl Hs].
  assert (len k <= MAX_STATE_KEY_BYTES ∧ len v <= MAX_STATE_VALUE_BYTES) as [Hkl Hvl].
  { destruct Hm' as (_ & _ & _ & Hall). rewrite Forall_forall in Hall. apply (Hall (k, v)). by apply bt_get_some_in. }
  assert (map_size (bt_insert k v m) = map_size m + entry_size k v) as Hsize by (rewrite map_size_insert, Hnone by apply Hm; done).
  assert (len (bt_insert k v m) = len m + 1) as Hlen.
  { unfold len. rewrite (Permutation_length (bt_insert_perm k v m (proj1 Hm))). cbn [length]. rewrite bt_remove_absent by done. lia. }
  destruct Hm' as (_ & Hcount & Hbytes & _).
  assert (stage_step (m, map_size m) (Put k v) = Ok (bt_insert k v m, map_size (bt_insert k v m))) as Hstep.
  { cbn [stage_step change_key]. rewrite !(proj2 (Z.ltb_ge _ _)) by done. cbn [reject_if]. rewrite Hnone.
    rewrite (proj2 (checked_add_some 64 (map_size m) (entry_size k v) _)) by (split; [unfold MAX_SNAPSHOT_BYTES in *; lia|reflexivity]).
    cbn [ok_or]. rewrite Hsize in *. rewrite (proj2 (Z.ltb_ge _ _)) by lia. rewrite (proj2 (Z.eqb_neq _ _)) by lia.
    by rewrite andb_false_r. }
  split; [done|]. split; [done|]. by destruct (stage_step_ok m _ _ _ _ Hm eq_refl Hstep).
Qed.

Lemma stage_puts m m' kvs :
  bounded m → bounded m' → submap m m' → NoDup (map fst kvs) →
  Forall (λ kv, bt_get (fst kv) m = None ∧ bt_get (fst kv) m' = Some (snd kv)) kvs →
  ∃ m1, try_fold stage_step (m, map_size m) (map (λ kv, Put (fst kv) (snd kv)) kvs) = Ok (m1, map_size m1)
        ∧ bt_ok m1 ∧ submap m1 m' ∧ ∀ k, k ∈ map fst kvs ∨ is_Some (bt_get k m) → is_Some (bt_get k m1).
Proof.
  intros Hm Hm' Hsub. revert m Hm Hsub. induction kvs as [|[k v] kvs IH]; intros m Hm Hsub Hnd Hall.
  { exists m. split; [done|]. split; [apply Hm|]. split; [done|]. by intros k [?%elem_of_nil|?]. }
  cbn [map fst snd] in *. apply NoDup_cons in Hnd as [Hk Hnd]. apply Forall_cons in Hall as [[Hn Hg] Hall]. cbn [fst snd] in *.
  destruct (stage_put m m' k v) as (Hstep & Hsub' & Hb); [done..|].
  destruct (IH _ Hb Hsub' Hnd) as (m1 & Hfold & Hm1 & Hsub1 & Hin).
  { apply Forall_forall. intros [k' v'] Hkv. rewrite Forall_forall in Hall. destruct (Hall _ Hkv) as [Ha Hb']. split; [|done].
    cbn [fst] in *. rewrite bt_get_insert_ne; [done|]. intros ->. apply Hk. by apply list_elem_of_fmap_2 with (f := fst) in Hkv. }
  exists m1. cbn [try_fold]. rewrite Hstep. split; [done|]. split; [done|]. split; [done|]. intros k' Hor. apply Hin.
  destruct (decide (k' = k)) as [->|Hne]; [right; by rewrite bt_get_insert_eq|].
  destruct Hor as [[->|?]%elem_of_cons|?]; [done|by left|right; by rewrite bt_get_insert_ne].
Qed.

(** The pairs [restore_diff] puts. *)
Definition old_values (values : BTreeMap StateKey (option bytes)) : list (StateKey * bytes) :=
  flat_map (λ kv, match snd kv with Some value => [(fst kv, value)] | None => [] end) values.

Lemma old_values_in values k v : (k, v) ∈ old_values values ↔ (k, Some v) ∈ values.
Proof.
  unfold old_values. rewrite list_elem_of_In, in_flat_map. split.
  - intros ([k' [v'|]] & Hin & Hv); cbn in Hv; [|done]. destruct Hv as [[= <- <-]|[]]. by apply list_elem_of_In.
  - intros Hin. exists (k, Some v). split; [by apply list_elem_of_In|]. by left.
Qed.

Lemma old_values_keys values : sublist (map fst (old_values values)) (bt_keys values).
Proof. induction values as [|[k [v|]] values IH]; cbn; [constructor|by constructor|by constructor]. Qed.

Lemma restore_changes values :
  changes (restore_diff values) = map Delete (bt_keys values) ++ map (λ kv, Put (fst kv) (snd kv)) (old_values values).
Proof.
  unfold restore_diff, old_values. cbn [changes]. f_equal. induction values as [|[k [v|]] values IH]; cbn; [done|by rewrite IH|done].
Qed.

(** [values] turns the map [m] back into [m']. *)
Definition leads_back (values : BTreeMap StateKey (option bytes)) m m' : Prop :=
  bt_ok values ∧ Forall (λ k, len k <= MAX_STATE_KEY_BYTES) (bt_keys values)
  ∧ ∀ k, bt_get k m' = match bt_get k values with Some v => v | None => bt_get k m end.

Lemma try_fold_app {A B E : Type} (f : B → A → result B E) acc xs ys :
  try_fold f acc (xs ++ ys) = let? acc' := try_fold f acc xs in try_fold f acc' ys.
Proof. revert acc. induction xs as [|x xs IH]; intros acc; [done|]. cbn. destruct (f acc x); [apply IH|done]. Qed.

Lemma restore_stage values m m' :
  bounded m → bounded m' → leads_back values m m' → stage m [restore_diff values] = Ok m'.
Proof.
  intros Hm Hm' (Hv & Hkeys & Hget). unfold stage. rewrite encoded_size_ok by apply Hm.
  unfold all_changes. cbn [flat_map]. rewrite app_nil_r, restore_changes, try_fold_app.
  destruct (stage_deletes m _ Hm Hkeys) as (m1 & -> & Hm1 & Hg1).
  assert (submap m1 m') as Hsub.
  { intros k v Hk. rewrite Hg1 in Hk. destruct (decide _) as [|Hin]; [done|]. rewrite Hget, (proj2 (bt_get_none_keys k values)) by done. done. }
  destruct (stage_puts m1 m' (old_values values) Hm1 Hm' Hsub) as (m2 & -> & Hm2 & Hsub2 & Hin).
  { eapply sublist_NoDup; [apply (bt_ok_nodup _ Hv)|apply old_values_keys]. }
  { apply Forall_forall. intros [k v] Hkv%old_values_in. pose proof (bt_in_get _ _ _ Hv Hkv) as Hval. cbn [fst snd].
    rewrite Hg1, Hget, Hval, decide_True; [done|]. by eapply bt_in_keys. }
  f_equal. apply bt_ext; [done|apply Hm'|]. intros k. destruct (bt_get k m2) as [v|] eqn:E2; [symmetry; by apply Hsub2|].
  destruct (bt_get k m') as [v|] eqn:E'; [|done]. rewrite Hget in E'. exfalso. apply (is_Some_None (A := bytes)). rewrite <- E2. apply Hin.
  destruct (bt_get k values) as [v'|] eqn:Ev.
  - left. subst v'. apply bt_get_some_in in Ev. apply (list_elem_of_fmap_2 fst _ (k, v)). by apply old_values_in.
  - right. rewrite Hg1, decide_False by (by apply bt_get_none_keys). by rewrite E'.
Qed.

Lemma restore_state values s s' m m' :
  represents s m → represents s' m' → leads_back values m m' →
  commit_verified s (im_root s) [restore_diff values] (im_root s') = (s', Ok (im_root s')).
Proof.
  intros Hm Hm' Hback. unfold commit_verified, publish, prepare. rewrite (prepare_spec s m) by done.
  destruct Hm as [Hm ->], Hm' as [Hm' ->]. cbn [im_root]. rewrite bool_decide_eq_true_2 by done.
  rewrite (restore_stage values m m') by done. cbn [im_root]. by rewrite bool_decide_eq_true_2 by done.
Qed.
End restore.

(** ** What an entry records *)

Section entries.
Context {blake : Blake2s} {arcs : Arcs}.

(** A checkpoint with the state it names. *)
Definition Version : Type := (Checkpoint * InMemoryState)%type.
Definition version_ok (v : Version) : Prop := (∃ m, represents (snd v) m) ∧ cp_state_root (fst v) = im_root (snd v).

(** The value a reverse change restores. *)
Definition old_value (c : StateChange) : option bytes := match c with Put _ value => Some value | Delete _ => None end.

(** The reverse changes [cs] take the values of [s'] for every key where [s] may differ. *)
Definition reverses (cs : list StateChange) (s s' : InMemoryState) : Prop :=
  Forall (λ c, len (change_key c) <= MAX_STATE_KEY_BYTES ∧ state_get s' (change_key c) = old_value c) cs
  ∧ ∀ k, k ∉ map change_key cs → state_get s k = state_get s' k.

Lemma capture_loop_spec state cs keys diff size diff' size' :
  (∀ k, k ∈ bt_keys keys ↔ k ∈ map change_key (changes diff)) → 0 <= size →
  Forall (λ c, len (change_key c) <= MAX_STATE_KEY_BYTES) cs →
  Forall (λ c, len (change_key c) <= MAX_STATE_KEY_BYTES ∧ state_get state (change_key c) = old_value c) (changes diff) →
  capture_loop state keys diff size cs = Some (diff', size') →
  Forall (λ c, len (change_key c) <= MAX_STATE_KEY_BYTES ∧ state_get state (change_key c) = old_value c) (changes diff')
  ∧ (∀ k, k ∈ map change_key (changes diff) ∨ k ∈ map change_key cs → k ∈ map change_key (changes diff')) ∧ 0 <= size'.
Proof.
  revert keys diff size. induction cs as [|c cs IH]; intros keys diff size Hkeys Hsize Hcs Hdiff H; cbn [capture_loop] in H.
  { simplify_eq. split; [done|]. split; [|done]. by intros k [?|?%elem_of_nil]. }
  apply Forall_cons in Hcs as [Hc Hcs]. unfold set_insert in H. destruct (bt_contains (change_key c) keys) eqn:Ec; cbn [negb] in H.
  - apply bt_contains_get, bt_key_get, Hkeys in Ec. apply IH in H as (Hd & Hin & Hs); [| |done..].
    2:{ intros k. rewrite bt_keys_insert, Hkeys. naive_solver. }
    split; [done|]. split; [|done]. intros k [?|[->|?]%elem_of_cons]; apply Hin; auto.
  - destruct (checked_add 64 size _) as [size1|] eqn:Es; [|done]. cbn [mbind option_bind] in H. apply checked_add_some in Es as [_ ->].
    case_match; [done|].
    assert (∀ old, state_get state (change_key c) = old →
      changes match old with Some value => diff_put diff (change_key c) value | None => diff_delete diff (change_key c) end
      = changes diff ++ [match old with Some value => Put (change_key c) value | None => Delete (change_key c) end]) as Hch by (by intros []).
    specialize (Hch _ eq_refl). pose proof (len_nonneg (change_key c)). apply IH in H as (Hd & Hin & Hs); [| | |done|].
    + split; [done|]. split; [|done]. rewrite Hch, map_app in Hin. intros k [?|[->|?]%elem_of_cons]; apply Hin; [|left|by right].
      * left. apply elem_of_app. by left.
      * apply elem_of_app. right. by destruct (state_get state (change_key c)); left.
    + intros k. rewrite bt_keys_insert, Hkeys, Hch, map_app, elem_of_app. cbn [map].
      destruct (state_get state (change_key c)); cbn [change_key]; rewrite list_elem_of_singleton; naive_solver.
    + destruct (state_get state (change_key c)) as [v|]; [pose proof (len_nonneg v)|]; lia.
    + rewrite Hch. apply Forall_app. split; [done|]. constructor; [|constructor].
      destruct (state_get state (change_key c)) eqn:Eg; cbn [change_key old_value]; done.
Qed.

Lemma untouched cs m k : k ∉ map change_key cs → bt_get k (fold_left apply_change cs m) = bt_get k m.
Proof.
  revert m. induction cs as [|c cs IH]; intros m Hk; [done|]. cbn [map fold_left] in *. apply not_elem_of_cons in Hk as [Hne Hk].
  rewrite IH by done. destruct c as [key value|key]; cbn [apply_change change_key] in *; [by apply bt_get_insert_ne|by apply bt_get_remove_ne].
Qed.

Lemma staged_keys cs acc acc' :
  try_fold stage_step acc cs = Ok acc' → Forall (λ c, len (change_key c) <= MAX_STATE_KEY_BYTES) cs.
Proof.
  revert acc. induction cs as [|c cs IH]; intros acc H; [constructor|]. cbn [try_fold] in H. bind_inv H. constructor; [|by eapply IH].
  destruct acc as [m size]. unfold stage_step in E. bind_inv E. guards. done.
Qed.

Lemma state_get_map s m k : represents s m → state_get s k = bt_get k m.
Proof. intros [Hm ->]. unfold state_get. cbn [im_data]. apply from_map_get, Hm. Qed.

Lemma prepared_map s m diffs next :
  represents s m → prepare s (im_root s) diffs = Ok next →
  ∃ m', represents next m' ∧ m' = fold_left apply_change (all_changes diffs) m
        ∧ Forall (λ c, len (change_key c) <= MAX_STATE_KEY_BYTES) (all_changes diffs).
Proof.
  intros Hm H. unfold prepare in H. rewrite (prepare_spec s m) in H by done. pose proof Hm as [Hb ->]. cbn [im_root] in H.
  rewrite bool_decide_eq_true_2 in H by done. bind_inv H. simplify_eq. destruct (stage_ok _ _ _ Hb E) as [Hb' ->].
  eexists. split; [by split|]. split; [done|]. unfold stage in E. bind_inv E. by eapply staged_keys.
Qed.

Lemma capture_reverses s before after diffs next u :
  (∃ m, represents s m) → prepare s (im_root s) diffs = Ok next → capture before after s diffs = Some u →
  ud_before u = before ∧ ud_after u = after ∧ reverses (changes (ud_diff u)) next s ∧ 0 <= ud_bytes u.
Proof.
  intros [m Hm] Hp H. destruct (prepared_map s m diffs next Hm Hp) as (m' & Hm' & Hfold & Hkeys). unfold capture in H.
  destruct (capture_loop _ _ _ _ _) as [[diff size]|] eqn:E; [|done]. simplify_eq/=. split; [done|]. split; [done|].
  apply capture_loop_spec in E as (Hd & Hin & Hs); [|done|lia|done|constructor].
  split; [split; [done|]|done]. intros k Hk. rewrite (state_get_map next _ k Hm'), (state_get_map s m k Hm).
  apply untouched. intros Hc. apply Hk, Hin. by right.
Qed.

(** [u] leads from the version [v] back to the version [v'] before it. *)
Definition undoes (u : Undo) (v v' : Version) : Prop :=
  ud_after u = fst v ∧ ud_before u = fst v' ∧ cp_height (fst v) = cp_height (fst v') + 1
  ∧ reverses (changes (ud_diff u)) (snd v) (snd v') ∧ 0 <= ud_bytes u.

(** Entries, newest first, against the versions, newest first. *)
Fixpoint linked (us : list Undo) (vs : list Version) : Prop :=
  match us, vs with
  | [], _ => True
  | u :: us, v :: vs => match vs with v' :: _ => undoes u v v' | [] => False end ∧ linked us vs
  | _, _ => False
  end.

Lemma linked_prefix us us' vs : linked (us ++ us') vs → linked us vs.
Proof. revert vs. induction us as [|u us IH]; intros [|v vs]; cbn; [done..|]. intros [H ?]. split; [done|by apply IH]. Qed.

Lemma linked_bytes us vs : linked us vs → Forall (λ u, 0 <= ud_bytes u) us.
Proof.
  revert vs. induction us as [|u us IH]; intros vs Hl; [constructor|]. destruct vs as [|v [|v' vs]]; [done|by destruct Hl|].
  destruct Hl as [Hu Hl]. constructor; [apply Hu|by eapply IH].
Qed.

Definition history_inv (h : StateHistory) (vs : list Version) : Prop :=
  linked (rev (hs_entries h)) vs ∧ hs_bytes h = sumZ ud_bytes (hs_entries h)
  ∧ hs_changes h = sumZ (λ u, len (changes (ud_diff u))) (hs_entries h)
  ∧ len (hs_entries h) <= MAX_STATE_HISTORY_BLOCKS ∧ hs_bytes h <= MAX_STATE_HISTORY_BYTES ∧ hs_changes h <= MAX_STATE_HISTORY_CHANGES.

Lemma default_inv vs : history_inv history_default vs.
Proof. done. Qed.

Lemma evict_ok entries size changed vs :
  linked (rev entries) vs → size = sumZ ud_bytes entries → changed = sumZ (λ u, len (changes (ud_diff u))) entries →
  ∃ h, evict entries size changed = Some h ∧ history_inv h vs ∧ suffix (hs_entries h) entries.
Proof.
  intros Hl -> ->. induction entries as [|u entries IH].
  { exists history_default. cbn. done. }
  cbn [evict]. case_match eqn:E.
  - destruct IH as (h & Hh & Hinv & Hs); [by eapply linked_prefix|]. exists h. cbn [sumZ].
    replace (ud_bytes u + sumZ ud_bytes entries - ud_bytes u) with (sumZ ud_bytes entries) by lia.
    match goal with |- context [evict _ _ (?a + ?b - ?a)] => replace (a + b - a) with b by lia end.
    split; [done|]. split; [done|]. by apply suffix_cons_r.
  - eexists. split; [done|]. rewrite !orb_false_iff in E. destruct E as [[? ?] ?]. bool_props. by split_and!.
Qed.

Lemma truncate_inv h floor vs : history_inv h vs → history_inv (truncate_below h floor) vs.
Proof.
  destruct h as [entries size changed]. unfold truncate_below, history_inv. cbn [hs_entries hs_bytes hs_changes].
  intros (Hl & -> & -> & Hn & Hb & Hc). induction entries as [|u entries IH]; [by split_and!|]. cbn [truncate_entries].
  case_match; [|by split_and!]. cbn [sumZ] in *. 
  assert (0 <= ud_bytes u) as Hu.
  { apply linked_bytes in Hl. rewrite Forall_forall in Hl. apply Hl. cbn [rev]. apply elem_of_app. right. by left. }
  pose proof (len_nonneg (changes (ud_diff u))). rewrite len_cons in Hn.
  replace (ud_bytes u + sumZ ud_bytes entries - ud_bytes u) with (sumZ ud_bytes entries) by lia.
  match goal with |- context [truncate_entries _ _ _ (?a + ?b - ?a)] => replace (a + b - a) with b by lia end.
  apply IH; [by eapply linked_prefix|lia..].
Qed.

(** ** Walking back *)

Lemma collect_get cs values k :
  bt_get k (fold_left collect_value cs values) = match find (λ c, bool_decide (change_key c = k)) (rev cs) with
                                                | Some c => Some (old_value c)
                                                | None => bt_get k values
                                                end.
Proof.
  revert values. induction cs as [|c cs IH] using rev_ind; intros values; [done|]. rewrite fold_left_app, rev_app_distr. cbn [fold_left rev app find].
  unfold collect_value at 1. case_bool_decide as Hk; [subst k; apply bt_get_insert_eq|]. rewrite bt_get_insert_ne by done. apply IH.
Qed.

Lemma collect_keys cs values :
  bt_ok values → Forall (λ k, len k <= MAX_STATE_KEY_BYTES) (bt_keys values) →
  Forall (λ c, len (change_key c) <= MAX_STATE_KEY_BYTES) cs →
  bt_ok (fold_left collect_value cs values)
  ∧ Forall (λ k, len k <= MAX_STATE_KEY_BYTES) (bt_keys (fold_left collect_value cs values)).
Proof.
  intros Hv Hk Hcs. revert values Hv Hk. induction Hcs as [|c cs Hc _ IH]; intros values Hv Hk; [done|]. cbn [fold_left]. apply IH.
  - by apply bt_ok_insert.
  - apply Forall_forall. intros k [->|Hin]%bt_keys_insert; [done|]. rewrite Forall_forall in Hk. by apply Hk.
Qed.

(** [values] turns the newest state [s0] back into [s]. *)
Definition collected (values : BTreeMap StateKey (option bytes)) (s0 s : InMemoryState) : Prop :=
  bt_ok values ∧ Forall (λ k, len k <= MAX_STATE_KEY_BYTES) (bt_keys values)
  ∧ ∀ k, state_get s k = match bt_get k values with Some v => v | None => state_get s0 k end.

Lemma collected_step values s0 s s' cs :
  collected values s0 s → reverses cs s s' → collected (fold_left collect_value cs values) s0 s'.
Proof.
  intros (Hv & Hk & Hget) [Hcs Hrest].
  destruct (collect_keys cs values Hv Hk) as [Hv' Hk'].
  { eapply Forall_impl; [exact Hcs|]. by intros c [? _]. }
  split; [done|]. split; [done|]. intros k. rewrite collect_get. destruct (find _ (rev cs)) as [c|] eqn:Ef.
  - apply find_some in Ef as [Hin Hc]. bool_props. subst k. rewrite Forall_forall in Hcs. apply Hcs. apply list_elem_of_In, in_rev, Hin.
  - rewrite <- Hget. symmetry. apply Hrest. intros Hin. apply list_elem_of_fmap in Hin as (c & -> & Hin).
    pose proof (find_none _ _ Ef c) as Hn. rewrite <- in_rev, <- list_elem_of_In in Hn. specialize (Hn Hin). by rewrite bool_decide_eq_true_2 in Hn.
Qed.

Lemma linked_height us vs i v v' :
  linked us vs → vs !! O = Some v → vs !! i = Some v' → (i <= length us)%nat → cp_height (fst v') = cp_height (fst v) - Z.of_nat i.
Proof.
  revert vs i v. induction us as [|u us IH]; intros vs i v Hl H0 Hi Hle.
  { destruct i; [|cbn in Hle; lia]. simplify_eq. lia. }
  destruct i as [|i]; [simplify_eq; lia|]. destruct vs as [|v0 [|v1 vs]]; [done|by destruct Hl|].
  destruct Hl as [(_ & _ & Hh & _) Hl]. simplify_eq/=. rewrite (IH (v1 :: vs) i v1 Hl eq_refl Hi ltac:(lia)). lia.
Qed.

Lemma read_back_ok us v vs i v' values s0 :
  linked us (v :: vs) → Forall version_ok (v :: vs) → (∃ m, represents s0 m) → collected values s0 (snd v) →
  vs !! i = Some v' → (i < length us)%nat →
  read_back (cp_height (fst v')) s0 us values (fst v) = Ok (Some v').
Proof.
  revert v vs i values. induction us as [|u us IH]; intros v vs i values Hl Hok Hs0 Hcol Hi Hle; [cbn in Hle; lia|].
  destruct vs as [|v1 vs]; [done|]. pose proof (linked_height (u :: us) _ (S i) v v' Hl eq_refl Hi ltac:(cbn in *; lia)) as Hheight.
  destruct Hl as [(Ha & Hb & Hh & Hrev & _) Hl]. cbn [read_back]. rewrite bool_decide_eq_true_2 by done. cbn [negb reject_if].
  pose proof (collected_step _ _ _ _ _ Hcol Hrev) as Hcol'. rewrite Hb. destruct i as [|i].
  - cbn in Hi. simplify_eq. rewrite Z.eqb_refl. apply Forall_cons in Hok as [_ Hok]. apply Forall_cons in Hok as [[[m' Hm'] Hroot] _].
    destruct Hs0 as [m Hm]. rewrite Hroot, (restore_state _ s0 (snd v') m m'); [by destruct v'|done..|].
    destruct Hcol' as (Hv & Hk & Hget). split; [done|]. split; [done|]. intros k. rewrite <- (state_get_map _ _ k Hm'), <- (state_get_map _ _ k Hm). apply Hget.
  - rewrite (proj2 (Z.eqb_neq _ _)) by lia. apply (IH v1 vs i); [done|by apply Forall_cons in Hok as [_ ?]|done..|].
    cbn in Hle. lia.
Qed.

Lemma floor_height h v vs :
  history_inv h (v :: vs) → history_floor h (cp_height (fst v)) = cp_height (fst v) - len (hs_entries h) ∧ (length (hs_entries h) <= length vs)%nat.
Proof.
  intros (Hl & _). unfold history_floor. split.
  - destruct (hs_entries h) as [|u entries]; [unfold len; cbn; lia|]. cbn [rev] in Hl. rewrite len_cons.
    assert (∀ us v vs, linked (us ++ [u]) (v :: vs) → cp_height (ud_before u) = cp_height (fst v) - Z.of_nat (length us) - 1) as Hfloor.
    { clear. induction us as [|u' us IH]; intros v [|v1 vs] Hl; try by destruct Hl.
      - destruct Hl as [(_ & -> & Hh & _) _]. cbn. lia.
      - destruct Hl as [(_ & _ & Hh & _) Hl]. cbn [length]. rewrite (IH v1 vs Hl). lia. }
    rewrite (Hfloor _ _ _ Hl), length_rev. unfold len. lia.
  - rewrite <- length_rev. revert v vs Hl. generalize (rev (hs_entries h)). intros us. induction us as [|u us IH]; intros v vs Hl; [cbn; lia|].
    destruct vs as [|v1 vs]; [by destruct Hl|]. destruct Hl as [_ Hl]. apply IH in Hl. cbn. lia.
Qed.

(** ** Histories the store builds *)

(** The index over the versions so far, newest first. *)
Inductive history_reach : StateHistory → list Version → Prop :=
| history_start v : version_ok v → history_reach history_default [v]
| history_step h v vs cp next diffs h' :
    history_reach h (v :: vs) → prepare (snd v) (im_root (snd v)) diffs = Ok next →
    cp_state_root cp = im_root next → cp_height cp = cp_height (fst v) + 1 →
    history_record h (Some (fst v)) cp (snd v) diffs = Some h' → history_reach h' ((cp, next) :: v :: vs)
| history_cut h vs floor : history_reach h vs → history_reach (truncate_below h floor) vs.

(** The versions are valid and their heights consecutive. *)
Fixpoint consecutive (vs : list Version) : Prop :=
  match vs with
  | v :: vs => match vs with v' :: _ => cp_height (fst v) = cp_height (fst v') + 1 | [] => True end ∧ consecutive vs
  | [] => True
  end.

Lemma consecutive_height vs i v v' :
  consecutive vs → vs !! O = Some v → vs !! i = Some v' → cp_height (fst v') = cp_height (fst v) - Z.of_nat i.
Proof.
  revert i v. induction vs as [|v0 vs IH]; intros i v Hc H0 Hi; [done|]. cbn in H0. simplify_eq. destruct i as [|i]; [cbn in Hi; simplify_eq; lia|].
  cbn [lookup list_lookup] in Hi. destruct vs as [|v1 vs]; [done|]. destruct Hc as [Hh Hc]. rewrite (IH i v1 Hc eq_refl Hi). lia.
Qed.

Lemma record_ok h v vs cp next diffs :
  history_inv h (v :: vs) → version_ok v → prepare (snd v) (im_root (snd v)) diffs = Ok next →
  cp_height cp = cp_height (fst v) + 1 →
  ∃ h', history_record h (Some (fst v)) cp (snd v) diffs = Some h' ∧ history_inv h' ((cp, next) :: v :: vs).
Proof.
  intros (Hl & Hb & Hc & _) Hv Hp Hh. unfold history_record. destruct (capture _ _ _ _) as [u|] eqn:Eu; [|by exists history_default].
  apply (capture_reverses (snd v) (fst v) cp diffs next) in Eu as (Hbefore & Hafter & Hrev & Hsize); [|apply Hv|done].
  destruct (evict_ok (hs_entries h ++ [u]) (hs_bytes h + ud_bytes u) (hs_changes h + len (changes (ud_diff u))) ((cp, next) :: v :: vs))
    as (h' & Hh' & Hinv & _).
  - rewrite rev_app_distr. cbn [rev app]. split; [|done]. by split_and!.
  - rewrite sumZ_app, Hb. cbn [sumZ]. lia.
  - rewrite sumZ_app, Hc. cbn [sumZ]. lia.
  - by exists h'.
Qed.

Lemma history_reach_inv h vs :
  history_reach h vs → history_inv h vs ∧ Forall version_ok vs ∧ consecutive vs.
Proof.
  induction 1 as [v Hv|h v vs cp next diffs h' _ (Hinv & Hok & Hc) Hp Hroot Hh Hrec|h vs floor _ (Hinv & Hok & Hc)].
  - split; [done|]. split; [by constructor|done].
  - pose proof Hok as [Hv _]%Forall_cons. destruct (record_ok h v vs cp next diffs Hinv Hv Hp Hh) as (h'' & Hrec' & Hinv').
    rewrite Hrec in Hrec'. injection Hrec' as <-. split; [done|]. split; [|by split].
    constructor; [|done]. split; [|done]. destruct Hv as [[m Hm] _]. destruct (prepared_map _ m diffs next Hm Hp) as (m' & Hm' & _). by exists m'.
  - split; [by apply truncate_inv|done].
Qed.

(** C40: Past states are read back exactly.  After any run of blocks and truncations the
    index never panics, stays within its bounds of blocks, bytes and changes, answers
    every height from its floor to the head with the checkpoint and the state the store
    had there, and any other height with no answer, never with corruption: restoring
    a state never exceeds the bounds of the database. *)
Theorem history_exact h v vs :
  history_reach h (v :: vs) →
  (∀ cp diffs next, prepare (snd v) (im_root (snd v)) diffs = Ok next → cp_height cp = cp_height (fst v) + 1 →
     is_Some (history_record h (Some (fst v)) cp (snd v) diffs))
  ∧ len (hs_entries h) <= MAX_STATE_HISTORY_BLOCKS ∧ hs_bytes h <= MAX_STATE_HISTORY_BYTES
  ∧ hs_changes h <= MAX_STATE_HISTORY_CHANGES
  ∧ (∀ v', v' ∈ v :: vs → history_read h (cp_height (fst v')) (Some (fst v)) (snd v)
       = Ok (if history_floor h (cp_height (fst v)) <=? cp_height (fst v') then Some v' else None))
  ∧ ∀ height, (∀ v', v' ∈ v :: vs → cp_height (fst v') ≠ height) → history_read h height (Some (fst v)) (snd v) = Ok None.
Proof.
  intros (Hinv & Hok & Hc)%history_reach_inv. pose proof Hok as [Hv _]%Forall_cons. destruct (floor_height h v vs Hinv) as [Hfloor Hlen].
  split; [intros cp diffs next Hp Hh; destruct (record_ok h v vs cp next diffs Hinv Hv Hp Hh) as (h' & -> & _); by eexists|].
  split; [apply Hinv|]. split; [apply Hinv|]. split; [apply Hinv|]. unfold history_read. split.
  - intros v' [i Hi]%list_elem_of_lookup_1. pose proof (consecutive_height _ i v v' Hc eq_refl Hi) as Hh.
    rewrite (proj2 (Z.ltb_ge (cp_height (fst v)) _)) by lia. cbn [orb]. rewrite Z.ltb_antisym.
    destruct (Z.leb_spec (history_floor h (cp_height (fst v))) (cp_height (fst v'))); cbn [negb]; [|done].
    destruct i as [|i].
    + cbn in Hi. injection Hi as <-. rewrite Z.eqb_refl. by destruct v.
    + rewrite (proj2 (Z.eqb_neq _ _)) by lia. apply (read_back_ok (rev (hs_entries h)) v vs i); [apply Hinv|done|apply Hv| |done|].
      * split; [apply bt_ok_nil|]. split; [constructor|done].
      * rewrite length_rev. unfold len in *. lia.
  - intros height Hne. destruct (Z.ltb_spec (cp_height (fst v)) height); [done|]. cbn [orb].
    destruct (Z.ltb_spec height (history_floor h (cp_height (fst v)))); [done|]. exfalso.
    assert ((Z.to_nat (cp_height (fst v) - height) < length (v :: vs))%nat) as Hi by (cbn; unfold len in *; lia).
    apply lookup_lt_is_Some in Hi as [v' Hi]. apply (Hne v'); [by eapply list_elem_of_lookup_2|].
    rewrite (consecutive_height _ _ v v' Hc eq_refl Hi). lia.
Qed.
End entries.

Section history_examples.
#[local] Existing Instance checksum_blake2s.
#[local] Existing Instance fresh_arcs.

(** Two blocks on top of a state: one changes and deletes, one deletes. *)
Definition history_state_1 : InMemoryState := fst (commit sample_state (im_root sample_state) [sample_update]).
Definition history_state_2 : InMemoryState := fst (commit history_state_1 (im_root history_state_1) [mkDiff [Delete (lit "a")]]).
Definition history_version (height : Z) (s : InMemoryState) : Version := (mkCheckpoint height (le 32 (height + 1)) (im_root s), s).
Definition history_versions : list Version :=
  [history_version 2 history_state_2; history_version 1 history_state_1; history_version 0 sample_state].
Definition history_1 : StateHistory :=
  default history_default (history_record history_default (Some (fst (history_version 0 sample_state)))
    (fst (history_version 1 history_state_1)) sample_state [sample_update]).
Definition history_2 : StateHistory :=
  default history_default (history_record history_1 (Some (fst (history_version 1 history_state_1)))
    (fst (history_version 2 history_state_2)) history_state_1 [mkDiff [Delete (lit "a")]]).

Lemma history_versions_reach : history_reach history_2 history_versions.
Proof.
  eapply (history_step history_1 _ _ _ _ [mkDiff [Delete (lit "a")]]); [|evaluate|done|done|evaluate].
  eapply (history_step history_default _ _ _ _ [sample_update]); [|evaluate|done|done|evaluate].
  constructor. split; [|done]. apply state_reach_map, sample_reach.
Qed.

Lemma history_exact_witness :
  history_floor history_2 2 = 0
  ∧ history_read history_2 0 (Some (fst (history_version 2 history_state_2))) history_state_2 = Ok (Some (history_version 0 sample_state))
  ∧ history_read history_2 7 (Some (fst (history_version 2 history_state_2))) history_state_2 = Ok None.
Proof.
  pose proof (history_exact history_2 (history_version 2 history_state_2) (tail history_versions) history_versions_reach)
    as (_ & _ & _ & _ & Hread & Hnone).
  split; [evaluate|]. split.
  - exact (Hread (history_version 0 sample_state) ltac:(right; right; left)).
  - apply Hnone. intros v' Hin. repeat (apply elem_of_cons in Hin as [->|Hin]; [done|]). by apply elem_of_nil in Hin.
Defined.
End history_examples.
